(* ===== verification/_CoqProject ===== *)
-Q . S2P
Prelude.v
FastFIFO.v
Cache.v
CacheProps.v
CacheEvict.v
CacheKey.v
CacheDefects.v
CacheRun.v
CacheCost.v
Thread.v
EventDispatcher.v
EventLoop.v
EventLoopProps.v
MPEventDispatcher.v
MPLoop.v
Dispatcher.v
AioWrapper.v
Copy.v
DelayedTask.v
Sync.v
Lock.v
Connection.v
HttpParse.v
HttpHandlers.v
HttpRoom.v
HttpCost.v
HttpKeeps.v
HttpRun.v
HttpInv.v
HttpCacheInv.v
HttpSafe.v
HttpBlocks.v
HttpSteps.v
HttpServer.v
HttpContent.v
HttpProgress.v
Websvrd.v
