(* ===== verification/Prelude.v ===== *)
(** * libeventdisp: a model of the event dispatching library and of its web server

    The repository has a C++ library (src/lib) that runs closures ("unit
    tasks") on event loop threads, and a web server (src/webserver) that is
    written as continuations posted to that library.  This development models
    the code under src/lib, src/webserver and src/sample, and proves what makes it correct.
    The configuration is that of lib/Makefile: [USE_HASHING] defined, [LIBEVENT_USE_SIG] and [NDEBUG] not;
    where the other setting is a few lines away it is modelled, too.

    ** The parts and how they interact

    A client makes a [UnitTask], a closure with a group number, and gives it to
    [Dispatcher] (dispatcher.cc), which passes it on to one [EventDispatcher]
    (event_dispatcher.cc), or to an [MPEventDispatcher]
    (mp_event_dispatcher.cc), which picks one of several by the group.  An
    [EventDispatcher] has a thread that takes tasks from a queue and executes
    them.  [aio_read] and [aio_write] (aio_wrapper.cc) start an asynchronous
    operation and post its outcome to the dispatcher; [DelayedTask]
    (delayed_task.cc) posts a task when a timer expires.  The web server keeps
    file contents in a [Cache] (cache.cc), whose callbacks run inside its
    operations and which has its unused entries in a [FastFIFO] (fast_fifo.h).
    It accepts a [Conn] (svr_tcp_ip.cc); a package ([HPKG]) reads and parses its
    requests (svr_http.cc), and each request is a child package that is fetched:
    the header comes from the cache or is made from the file and put there, then
    the body, block by block, in the same way.  Every handler ends by posting a
    task, by starting an operation, or by waiting in the cache for a block that
    another request is reading.

    ** Files

    - [Prelude]: faults of the C++ machine, the state-and-fault monad [prog] in
      which all operations are written, 64-bit sizes, sums over maps, the
      change of a mutex's owner, tactics.
    - [FastFIFO] (webserver/fast_fifo.h): the linked list, pointer by pointer,
      with the predicate [rep] that says which list of handles a heap
      represents, and the interface [FIFO] that the cache uses.
    - [Cache] (webserver/cache.cc): blocks, entries and the operations, written
      against [FIFO]; [wf] is the invariant.  The client's callbacks are the
      parameter [CacheClient]: they may do anything to the client's state.
    - [CacheProps]: [put], [get], [cancelReservation], [reserve] on every
      branch.  [CacheEvict]: [doneWith] and [cleanup].  [CacheDefects]: runs of
      the real operations that end in a fault or a wrong answer, and the
      witnesses of the three files.
    - [CacheKey] (webserver/cache.h): the hash of C strings byte by byte,
      equal to a reference definition on groups of four characters.
    - [EventDispatcher] (event_dispatcher.cc, unit_task.cc,
      event_dispatcher_interface.h): the members, the pieces of code between
      two lock operations, whole calls, and the classes
      [EventDispatcherInterface] and [EventDispatcherLaws].
    - [EventLoop] (event_dispatcher.cc): the same pieces put into threads.
      [call_step] and [loop_step] have a case per program point of the methods
      and of [eventLoop]; [step] is one step of one thread; [inv] is the
      invariant of the reachable states.
    - [EventLoopProps]: what all schedules guarantee.
    - [Thread] (thread.cc): [makeThread] and [threadFunction] as steps of the
      creator and of the new thread, with the copy of the closure on the heap.
    - [Lock] (inc/lock.h): [Mutex] with the three kinds of POSIX mutexes, and
      [ScopedLock].
    - [MPEventDispatcher] (mp_event_dispatcher.cc) and [Dispatcher]
      (dispatcher.cc): sequential, over the interface classes, and instances of
      them.  [MPLoop]: the threads of a multi-dispatcher, each of them an
      [EventLoop], with its callers and its destructor.
    - [AioWrapper] (aio_wrapper.cc): both builds; POSIX AIO is the class [AIO].
    - [Copy] (sample/copy.cc): the sample program over [AioWrapper]; the kernel
      is a parameter with the laws of POSIX.
    - [DelayedTask] (delayed_task.cc): client, timer and handler thread as steps.
    - [Sync] (inc/lock.h): the semaphore as a transition system, and the
      deadline of the timed wait.
    - [CacheRun]: the operations of the cache in a program whose callbacks run
      any code: [get] on each branch, rules for the loops over waiting callbacks.
    - [Connection] (webserver/svr_tcp_ip.cc, svr_tcp_ip.h, websvrd.cc):
      connections over the socket calls, which are the class [OS] with its laws
      [OSLaws].
    - [HttpParse] (webserver/svr_http.cc, svr_http.h): packages, the request
      parser, byte by byte, and [svr_http_final].
    - [HttpHandlers] (webserver/svr_http.cc): every other handler, and [exec],
      one step of the server: a posted task, an operation that is done, or a new
      connection.
    - [HttpRoom]: every step on any platform is that on one where the copies of
      keys have room for their terminator, or stops where it is written.
    - [HttpRun]: what each handler does on each branch.
    - [HttpInv]: the sessions of the running server - for each connection the
      package that reads, the requests that are left, and the one thing that goes
      on - and the moves that keep them.  [HttpCacheInv]: the references, the
      waiting callbacks and the owners of the blocks.
    - [HttpSafe], [HttpBlocks]: every handler runs without a fault and keeps the
      invariant; the second file has the two ways in which the reading of a block
      ends, with the loops over the callbacks that wait for it.
    - [HttpServer]: the states that are reachable by steps of [exec], and what
      holds of them.
    - [HttpKeeps], [HttpSteps], [HttpContent]: what a handler leaves alone, the
      buffers and pointers of packages and operations, and the bytes that go
      from the file through the cache to the client.
    - [CacheCost], [HttpCost], [HttpProgress]: a potential of the states of the
      server, what the operations of the cache and the handlers spend of it, and
      that every step of the server itself lowers it.
    - [Websvrd] (webserver/websvrd.cc): [main] and its accept loop.

    ** Modelling

    Operations are functions in [prog]: they read and write an explicit state
    and return a value or a [fault].  Heap objects have addresses ([loc]) that
    are never used twice, so that a stale pointer is seen as a use after free
    or a double free; a heap is a finite map.  [assert] is [passert].  Machine
    integers are [Z] with the wrap-around of [size_t] written out
    ([wrap_size]); the [int] of the semaphore faults when it overflows.  Loops
    of the code are structural recursions or have fuel: the eviction loop of
    the cache needs one iteration more than there are unused entries, the loops
    over waiting callbacks one more than there are callbacks, the hash five
    iterations, the destructor of the FIFO one per element and one, the request
    parser one more than [chead.n], and the theorems show that this fuel is
    enough.  Concurrent code is a step function
    over program points: a state is reachable if some schedule leads to it, and
    the theorems quantify over all of them; reads of a flag without its mutex
    read its current value.

    Two places of the cache depend on what C++ leaves open, and are modelled with
    a parameter, [Platform]: [strCpy] writes a byte past the block that it has
    asked for, and [cleanup] uses the node that it has just erased.  No theorem
    on [put], [cleanup], [svr_http_fetch] or the running server assumes that this
    goes well: they say what happens if it does, and that it is a fault if it
    does not.  (With blocks of exactly the requested size the first request for a
    name stops the server, [first_request_overflows].)

    ** What is shown

    - Event loop: no fault under any schedule, mutual exclusion and the
      documented guards, first-in first-out execution, one owner per task,
      the answer of [pendingTasks], absence of deadlock, termination of the
      destructor without a leak, execution of everything accepted, and that a
      call without interference is the sequential one.
    - Multi-dispatcher and facade: all tasks of a group are in one queue in
      order, in both builds; round-robin assignment; queries; the contract of
      the interface for every implementation.  With threads: no two loops are
      in tasks of one group at the same time, whatever the schedule, and the
      destructor ends and frees every queued task - if nobody calls any more;
      a caller that is late uses a freed dispatcher.
    - Threads and locks: the new thread runs and frees its own copy of the
      closure; every scope gives the mutex back; every step of the event loop and
      the semaphore does the same with mutexes of every kind.
    - FIFO and cache: refinement of an abstract queue; every operation on every
      branch, the overflow of a copied key among them; eviction, which never takes what a client holds; and the defects
      that the model makes visible (see the findings of the manifest).
    - Asynchronous I/O: exactly one notification and release of every object,
      agreement of the two builds on accepted operations and their difference on
      refused ones, the missing NULL test; and
      what the sample program copies, prints and leaves behind.
    - Delayed tasks and semaphore: ownership of the task, the exact faults,
      when the task runs; the value of the semaphore and that no wake-up is lost.
    - Connections: on every branch of accept and close the connections are
      counted and own their descriptors.
    - Request parser: it terminates within its buffer on any bytes, parsing
      inverts rendering for well-formed pipelined requests, and the requests of
      a connection are served one after another without a leak.
    - Handlers: what a fetched request is answered with, on every branch, and
      the two ways in which a client can stop or occupy the server.
    - The running server, from the start on, whatever clients send, in whatever
      order tasks and operations end, and whatever the system answers: no step
      faults, but by the byte that [strCpy] writes past its block where there is
      no room for it; no request is lost; requests of a connection are answered one at a
      time; and the cache never evicts.  The steps are those of [allowed]: a name
      that is fetched has no [#] and less than 255 characters, and the write of a
      refusal does not fail - in both cases the code is wrong, see the findings -
      and an operation gives no more bytes than it was asked for.  The bound of
      2^63 steps keeps the counters of references from overflowing.  Further:
      every pointer that a package, a task or an operation holds is live, and
      every operation stays within its buffer; if a read of a file gives a part
      of that file, the bytes of the body that are written for a request are the
      first bytes of the file, in order, and a request whose keys are shorter than
      the buffer for them ends only with all of it; if [fstat] gives the length of
      the contents, the header that is written is the one of that file, also when
      it was made for another request; between two things that
      clients do the server takes a bounded number of steps, after which every
      request is answered; and [main] always gets into
      its loop, where it serves, or idles if no socket could be listened on.

    ** Not modelled

    The server is modelled with one dispatcher, as svr_common.h configures it,
    so that its handlers run one at a time; [svr_conn_accept] runs in another
    thread, but touches only what it has made itself, the count under its lock,
    and the allocator.  [RWMutex] (inc/lock.h) is used nowhere.  The queries of
    a multi-dispatcher ([busy], [pendingTasks]) are modelled without other
    threads.  When the destructor of an [EventDispatcher] has returned, its
    members and mutexes stay as they are in [EventLoop]: that nobody calls it any
    more is up to its owner; [MPLoop] has the caller that is late.  The strings
    of a package ([uri], [ver] and the keys) are values, not blocks of the heap:
    they are made and deleted with the package and never shared.  Debug output and the addresses of sockets do not reach
    the state that is modelled; tests and benchmarks are programs that use the
    library, not parts of it. *)
From stdpp Require Export base list gmap sets strings relations fin_maps.
From Stdlib Require Export ZArith Lia.

(** * Faults of the C++ abstract machine *)

(** The ways an operation of the program can go wrong.  [AssertFailure] is
    what [assert] raises (the library and the server are built without
    [NDEBUG]); the others are accesses C++ leaves undefined, and the model
    stops at the first one. *)
Inductive fault :=
  | NullDeref
  | UseAfterFree
  | DoubleFree
  | HeapOverflow
  | AssertFailure
  | OutOfRange
  | DivByZero
  | OutOfFuel.

#[export] Instance fault_eq_dec : EqDecision fault.
Proof. solve_decision. Defined.

Inductive outcome (A : Type) :=
  | Ok (a : A)
  | Fault (e : fault).
Arguments Ok {A} a.
Arguments Fault {A} e.

#[export] Instance outcome_eq_dec {A} `{EqDecision A} : EqDecision (outcome A).
Proof. solve_decision. Defined.

(** Operations that read and write a state [W] and may fault. *)
Definition prog (W A : Type) : Type := W → outcome (A * W).

Definition pret {W A} (a : A) : prog W A := λ w, Ok (a, w).
Definition pbind {W A B} (m : prog W A) (k : A → prog W B) : prog W B :=
  λ w, match m w with
       | Ok (a, w') => k a w'
       | Fault e => Fault e
       end.
Definition pfail {W A} (e : fault) : prog W A := λ _, Fault e.
Definition pget {W} : prog W W := λ w, Ok (w, w).
Definition pput {W} (w : W) : prog W unit := λ _, Ok (tt, w).
Definition pmodify {W} (f : W → W) : prog W unit := λ w, Ok (tt, f w).

(** [assert(b)]. *)
Definition passert {W} (b : bool) : prog W unit :=
  if b then pret tt else pfail AssertFailure.

(** A dereference of a nullable pointer. *)
Definition pnonnull {W A} (p : option A) : prog W A :=
  match p with
  | Some l => pret l
  | None => pfail NullDeref
  end.

#[global] Arguments pbind : simpl never.
#[global] Arguments passert : simpl never.

Declare Scope prog_scope.
Delimit Scope prog_scope with prog.
Notation "'let!' x ':=' m 'in' k" := (pbind m (λ x, k))
  (at level 10, x pattern, m at level 200, k at level 200,
   format "'[hv' 'let!'  x  ':='  m  'in'  '/' k ']'") : prog_scope.
Notation "m ';;;' k" := (pbind m (λ _ : unit, k))
  (at level 199, right associativity) : prog_scope.
Open Scope prog_scope.

Lemma pbind_ok {W A B} (m : prog W A) (k : A → prog W B) w a w' :
  m w = Ok (a, w') → pbind m k w = k a w'.
Proof. unfold pbind. by intros ->. Qed.

Lemma pbind_fault {W A B} (m : prog W A) (k : A → prog W B) w e :
  m w = Fault e → pbind m k w = Fault e.
Proof. unfold pbind. by intros ->. Qed.

Lemma pbind_inv {W A B} (m : prog W A) (k : A → prog W B) w r :
  pbind m k w = Ok r → ∃ a w', m w = Ok (a, w') ∧ k a w' = Ok r.
Proof. unfold pbind. destruct (m w) as [[a w']|e]; naive_solver. Qed.

Lemma pbind_assoc {W A B C} (m : prog W A) (k : A → prog W B) (k' : B → prog W C) w :
  pbind (pbind m k) k' w = pbind m (λ a, pbind (k a) k') w.
Proof. unfold pbind. by destruct (m w) as [[? ?]|?]. Qed.

Lemma passert_true {W} (b : bool) (w : W) : b = true → passert b w = Ok (tt, w).
Proof. by intros ->. Qed.

Lemma passert_false {W} (b : bool) (w : W) :
  b = false → passert b w = Fault AssertFailure.
Proof. by intros ->. Qed.

(** * Programs that stop earlier *)

(** [m1] is [m2], except that it may stop with the fault [e], if [Q]. *)
Definition stops_earlier {W A} (e : fault) (Q : Prop) (m1 m2 : prog W A) : Prop :=
  ∀ w, m1 w = m2 w ∨ m1 w = Fault e ∧ Q.

Section stops_earlier.
Context {W : Type} (e : fault) (Q : Prop).
Abbreviation earlier := (stops_earlier e Q).

Lemma earlier_refl {A} (m : prog W A) : earlier m m.
Proof. intros w. by left. Qed.

Lemma earlier_bind {A B} (m1 m2 : prog W A) (k1 k2 : A → prog W B) :
  earlier m1 m2 → (∀ a, earlier (k1 a) (k2 a)) → earlier (pbind m1 k1) (pbind m2 k2).
Proof.
  intros Hm Hk w. destruct (Hm w) as [E|[E HQ]].
  - unfold pbind. rewrite E. destruct (m2 w) as [[a w']|]; [apply Hk|by left].
  - right. split; [by apply pbind_fault|done].
Qed.

Lemma earlier_ok {A} (m1 m2 : prog W A) w r : earlier m1 m2 → m1 w = Ok r → m2 w = Ok r.
Proof. intros Hm H1. destruct (Hm w) as [E|[E _]]; congruence. Qed.

Lemma earlier_runs {A} (m1 m2 : prog W A) w r :
  earlier m1 m2 → m2 w = Ok r → m1 w = Ok r ∨ m1 w = Fault e ∧ Q.
Proof. intros Hm H2. destruct (Hm w) as [E|?]; [left; congruence|by right]. Qed.
End stops_earlier.

Create HintDb earlier.
#[export] Hint Resolve earlier_refl : earlier.

(** Both programs have the same shape: their parts are compared, with the lemmas
    of the database. *)
Ltac compare_parts :=
  lazymatch goal with
  | |- stops_earlier _ _ (pbind _ _) (pbind _ _) => apply earlier_bind; [compare_parts|intros ?; compare_parts]
  | |- stops_earlier _ _ (match ?x with _ => _ end) _ => destruct x; compare_parts
  | |- _ => solve [eauto with earlier nocore]
  end.

(** * What a program keeps *)

(** If [m] runs without a fault from a state with [P], it ends in one. *)
Definition keeps {W A} (P : W → Prop) (m : prog W A) : Prop :=
  ∀ w a w', P w → m w = Ok (a, w') → P w'.

Section keeps.
Context {W : Type} (P : W → Prop).

Lemma keeps_ret {A} (a : A) : keeps P (pret a).
Proof. by intros w b w' Hw [= _ <-]. Qed.

Lemma keeps_get : keeps P pget.
Proof. by intros w b w' Hw [= _ <-]. Qed.

Lemma keeps_fail {A} e : keeps P (pfail e : prog W A).
Proof. intros w b w' _ [=]. Qed.

Lemma keeps_assert b : keeps P (passert b).
Proof. destruct b; [apply keeps_ret|apply keeps_fail]. Qed.

Lemma keeps_nonnull {A} (p : option A) : keeps P (pnonnull p).
Proof. destruct p; [apply keeps_ret|apply keeps_fail]. Qed.

Lemma keeps_bind {A B} (m : prog W A) (k : A → prog W B) :
  keeps P m → (∀ a, keeps P (k a)) → keeps P (pbind m k).
Proof. intros Hm Hk w b w' Hw (a & w1 & H1 & H2)%pbind_inv. eapply Hk; [|exact H2]. by eapply Hm. Qed.

Lemma keeps_modify f : (∀ w, P w → P (f w)) → keeps P (pmodify f).
Proof. intros Hf w b w' Hw [= _ <-]. by apply Hf. Qed.


(** The first part gives a result with [Q], with which the second keeps [P]. *)
Lemma keeps_bind_result {A B} (Q : A → Prop) (m : prog W A) (k : A → prog W B) :
  (∀ w a w', P w → m w = Ok (a, w') → P w' ∧ Q a) → (∀ a, Q a → keeps P (k a)) → keeps P (pbind m k).
Proof.
  intros Hm Hk w b w' Hw (a & w1 & H1 & H2)%pbind_inv. destruct (Hm _ _ _ Hw H1) as [Hw1 Ha]. by eapply Hk.
Qed.

End keeps.

Create HintDb keeps.
#[export] Hint Resolve keeps_ret keeps_get keeps_fail keeps_assert keeps_nonnull : keeps.

(** Follow the structure of a program: its binds and case distinctions. *)
Ltac keep_step :=
  match goal with
  | |- keeps _ (pbind _ _) => apply keeps_bind; [|intros ?]
  | |- keeps _ (match ?x with _ => _ end) => destruct x
  | |- keeps _ _ => solve [auto with keeps]
  end.
Ltac keep := repeat keep_step.

(** * What a program spends *)

(** [m] keeps [P], changes the state as [R] says, and raises the potential [Ψ] by
    at most [b], which may depend on its result and be negative. *)
Definition spends {W A} (P : W → Prop) (R : W → W → Prop) (Ψ : W → Z) (m : prog W A) (b : A → Z) : Prop :=
  ∀ w a w', P w → m w = Ok (a, w') → P w' ∧ R w w' ∧ (Ψ w' ≤ Ψ w + b a)%Z.

Section spends.
Context {W : Type} (P : W → Prop) (R : W → W → Prop) `{!PreOrder R} (Ψ : W → Z).
Abbreviation spends := (spends P R Ψ).

Lemma spends_le {A} (m : prog W A) b b' : (∀ a, b a ≤ b' a)%Z → spends m b → spends m b'.
Proof. intros Hb Hm w a w' Hw Hx. destruct (Hm _ _ _ Hw Hx) as (H1 & H2 & H3). specialize (Hb a). split_and!; [done..|lia]. Qed.

Lemma spends_ret {A} (a : A) b : (0 ≤ b a)%Z → spends (pret a) b.
Proof. intros Hb w x w' Hw [= <- <-]. split_and!; [done..|lia]. Qed.

Lemma spends_get : spends pget (λ _, 0%Z).
Proof. intros w x w' Hw [= <- <-]. split_and!; [done..|lia]. Qed.

Lemma spends_fail {A} e b : spends (pfail e : prog W A) b.
Proof. intros w a w' _ [=]. Qed.

Lemma spends_assert c : spends (passert c) (λ _, 0%Z).
Proof. destruct c; [by apply spends_ret|apply spends_fail]. Qed.

Lemma spends_nonnull {A} (p : option A) : spends (pnonnull p) (λ _, 0%Z).
Proof. destruct p; [by apply spends_ret|apply spends_fail]. Qed.

Lemma spends_modify f : (∀ w, P w → P (f w) ∧ R w (f w) ∧ (Ψ (f w) ≤ Ψ w)%Z) → spends (pmodify f) (λ _, 0%Z).
Proof. intros Hf w x w' Hw [= <- <-]. destruct (Hf w Hw) as (? & ? & ?). split_and!; [done..|lia]. Qed.

Lemma spends_bind {A B} (m : prog W A) (k : A → prog W B) b e :
  spends m b → (∀ a, spends (k a) (λ c, e c - b a)%Z) → spends (pbind m k) e.
Proof.
  intros Hm Hk w c w' Hw (a & w1 & H1 & H2)%pbind_inv. destruct (Hm _ _ _ Hw H1) as (? & ? & ?).
  destruct (Hk a w1 c w') as (? & ? & ?); [done..|]. split_and!; [done|by etrans|lia].
Qed.

(** The first part is free. *)
Lemma spends_then {A B} (m : prog W A) (k : A → prog W B) e :
  spends m (λ _, 0%Z) → (∀ a, spends (k a) e) → spends (pbind m k) e.
Proof.
  intros Hm Hk. apply (spends_bind m k (λ _, 0%Z)); [done|]. intros a. eapply spends_le; [|apply Hk]. simpl. lia.
Qed.

Lemma spends_ret_bind {A B} (a : A) (k : A → prog W B) e : spends (k a) e → spends (pbind (pret a) k) e.
Proof. done. Qed.

(** From a state that [R] has reached. *)
Lemma spends_from {A} (m : prog W A) b w0 :
  spends m b → Prelude.spends (λ w, P w ∧ R w0 w) R Ψ m b.
Proof. intros Hm w a w' [Hw H0] Hx. destruct (Hm _ _ _ Hw Hx) as (? & ? & ?). split_and!; [done|by etrans|done..]. Qed.

End spends.

(** When it does not matter how the state changes. *)
Definition anyhow {W} (_ _ : W) : Prop := True.
#[export] Instance anyhow_preorder W : PreOrder (@anyhow W).
Proof. by split. Qed.

Lemma spends_anyhow {W A} (P : W → Prop) R Ψ (m : prog W A) b : spends P R Ψ m b → spends P anyhow Ψ m b.
Proof. intros Hm w a w' Hw Hx. by destruct (Hm _ _ _ Hw Hx) as (? & _ & ?). Qed.

Create HintDb spends.
#[export] Hint Resolve spends_get spends_fail spends_assert spends_nonnull : spends.
#[export] Hint Extern 1 (spends _ _ _ (pret _) _) => (apply spends_ret; [tc_solve|lia]) : spends.
#[export] Hint Extern 0 (PreOrder _) => tc_solve : spends.

(** Follow the structure of a program, through its free parts; what costs is left. *)
Ltac spend_step :=
  match goal with
  | |- spends _ _ _ (pbind _ _) _ => apply spends_then; [tc_solve|solve [spend]|intros ?]
  | |- spends _ _ _ (let _ := _ in _) _ => cbv zeta
  | |- spends _ _ _ (match ?x with _ => _ end) _ => destruct x
  | |- spends _ _ _ _ _ => solve [auto with spends]
  | |- spends _ _ _ _ _ => eapply spends_le; [|solve [auto with spends]]; intros; simpl in *; lia
  end
with spend := repeat spend_step.

(** * Pointers *)

(** Addresses of heap objects.  A nullable pointer is an [option loc].  The
    allocator of the model never hands out an address twice, so that a stale
    pointer is never mistaken for a live one. *)
Abbreviation loc := positive.

(** * Machine integers *)

(** [size_t] is 64 bits wide and wraps around. *)
Definition size_t_mod : Z := (2 ^ 64)%Z.
Definition wrap_size (z : Z) : Z := (z mod size_t_mod)%Z.
Definition is_size (z : Z) : Prop := (0 ≤ z < size_t_mod)%Z.

Lemma wrap_size_id z : is_size z → wrap_size z = z.
Proof. apply Z.mod_small. Qed.

Lemma wrap_size_range z : is_size (wrap_size z).
Proof. apply Z.mod_pos_bound. done. Qed.

Lemma wrap_size_neg z : (0 < z ≤ size_t_mod)%Z → wrap_size (- z) = (size_t_mod - z)%Z.
Proof.
  intros Hz. unfold wrap_size.
  replace (- z)%Z with (size_t_mod - z + (-1) * size_t_mod)%Z by lia.
  rewrite Z.mod_add by done. apply Z.mod_small. lia.
Qed.

Lemma wrap_size_add_l a b : wrap_size (wrap_size a + b) = wrap_size (a + b).
Proof. apply Z.add_mod_idemp_l. done. Qed.

Create HintDb size_db.
Create Rewrite HintDb size_db.
#[export] Hint Rewrite @wrap_size_id using (unfold is_size, size_t_mod in *; lia) : size_db.
#[export] Hint Resolve wrap_size_range : size_db.

(** * Lists *)

Lemma NoDup_app_inv {A} (l k : list A) :
  NoDup (l ++ k) → NoDup l ∧ NoDup k ∧ ∀ x, x ∈ l → x ∉ k.
Proof. rewrite NoDup_app. naive_solver. Qed.

(** * Sums over finite maps *)

(** The sum of [f] over the values of a map: a measure for a map of threads. *)
Definition map_weight `{Countable K} {A} (f : A → nat) (m : gmap K A) : nat :=
  map_fold (λ _ a n, f a + n) 0 m.

Section map_weight.
Context `{Countable K} {A : Type} (f : A → nat).
Implicit Types (m : gmap K A).

Lemma map_weight_insert m i a :
  m !! i = None → map_weight f (<[i := a]> m) = f a + map_weight f m.
Proof. intros Hi. unfold map_weight. rewrite map_fold_insert_L; [done|lia|done]. Qed.

Lemma map_weight_delete m i a :
  m !! i = Some a → map_weight f m = f a + map_weight f (delete i m).
Proof.
  intros Hi. rewrite <-(insert_delete_id m i a) at 1 by done.
  apply map_weight_insert, lookup_delete_eq.
Qed.

Lemma map_weight_move m i a a' :
  m !! i = Some a → map_weight f (<[i := a']> m) + f a = map_weight f m + f a'.
Proof.
  intros Hi. rewrite (map_weight_delete m i a), <-insert_delete_eq by done.
  rewrite map_weight_insert by apply lookup_delete_eq. lia.
Qed.

Lemma map_weight_elem m i a : m !! i = Some a → f a ≤ map_weight f m.
Proof. intros Hi. rewrite (map_weight_delete m i a) by done. lia. Qed.

Lemma map_weight_mono (g : A → nat) m : (∀ a, f a ≤ g a) → map_weight f m ≤ map_weight g m.
Proof.
  intros Hfg. induction m as [|i a m Hi IH] using map_ind; [done|].
  unfold map_weight in *. rewrite !map_fold_insert_L by (done || lia). specialize (Hfg a). lia.
Qed.

Lemma map_weight_zero m : (∀ i a, m !! i = Some a → f a = 0) → map_weight f m = 0.
Proof.
  induction m as [|i a m Hi IH] using map_ind; intros Hm; [done|].
  rewrite map_weight_insert by done. rewrite (Hm i a) by apply lookup_insert_eq. simpl.
  apply IH. intros j b Hj. apply (Hm j). rewrite lookup_insert_ne; [done|]. congruence.
Qed.

End map_weight.

(** * Mutexes *)

(** How a step of thread [i] from a program point that has a mutex or not, [b],
    to one that has it or not, [b'], changes the mutex's owner. *)
Definition owner_change {I} (i : I) (b b' : bool) (o o' : option I) : Prop :=
  if b then o' = (if b' then o else None)
  else if b' then o = None ∧ o' = Some i else o' = o.

Lemma owner_change_ok {I} (i : I) (b b' : bool) o o' j :
  owner_change i b b' o o' → (o = Some i ↔ b = true) →
  (o' = Some i ↔ b' = true) ∧ (j ≠ i → o' = Some j ↔ o = Some j).
Proof. unfold owner_change. destruct b, b'; naive_solver. Qed.

(** * Tactics *)

(** Run one bind of an operation whose first part is known to succeed. *)
Ltac prun := erewrite pbind_ok; [|first [eassumption | reflexivity]]; cbn beta iota.

(** Split a bind that returned normally, naming the intermediate state. *)
Tactic Notation "pinv" hyp(H) "as" simple_intropattern(p) :=
  apply pbind_inv in H; destruct H as p.
