(* ===== verification/FastFIFO.v ===== *)
(** webserver/fast_fifo.h: a FIFO kept as a doubly linked list of heap nodes
    that ends in a sentinel.

    The state holds the live nodes and the two pointers of the C++ object.
    [push], [pop], [removeNode] and the destructor are the C++ bodies, one
    pointer access at a time; every access to a node that is not live, every
    failed [assert] and every double [delete] is a fault.  [rep f l] says
    that the nodes of [f] spell the list [l] of (node, data) pairs, and the
    lemmas below show that the operations are the list operations.  At the end
    the interface [FIFO] that the cache is built on is discharged. *)
From S2P Require Import Prelude.

(** * The interface *)

(** What a FIFO with removable nodes promises to its client: [fifo_rep f l]
    relates a state to the list of its (node, data) pairs, oldest first. *)
Class FIFO (F T : Type) := {
  fifo_new : loc → F;
  fifo_push : option T → prog F loc;
  fifo_pop : prog F (option (option T));
  fifo_remove : option loc → prog F unit;
  fifo_rep : F → list (loc * option T) → Prop;
}.

Class FIFOLaws (F T : Type) `{FIFO F T} := {
  fifo_new_ok s : fifo_rep (fifo_new s) [];
  fifo_push_ok f l d : fifo_rep f l →
    ∃ n f', fifo_push d f = Ok (n, f') ∧ n ∉ l.*1 ∧ fifo_rep f' (l ++ [(n, d)]);
  fifo_pop_nil f : fifo_rep f [] → fifo_pop f = Ok (None, f);
  fifo_pop_cons f n d l : fifo_rep f ((n, d) :: l) →
    ∃ f', fifo_pop f = Ok (Some d, f') ∧ fifo_rep f' l;
  fifo_remove_ok f l1 n d l2 : fifo_rep f (l1 ++ (n, d) :: l2) →
    ∃ f', fifo_remove (Some n) f = Ok (tt, f') ∧ fifo_rep f' (l1 ++ l2);
  fifo_rep_NoDup f l : fifo_rep f l → NoDup l.*1;
}.

Module FastFIFO.
Section fifo.
Context {T : Type}.

(** * The data of the C++ classes *)

(** [FastFIFONode<T>]: [data] is a [T *], [NULL] only in the sentinel or
    when the client pushes it. *)
Record FastFIFONode := mkNode {
  data : option T;
  before : option loc;
  next : option loc;
}.

(** [FastFIFO<T>] with the heap of its live nodes; [fresh_] is the address
    the next [new] returns. *)
Record FastFIFO := mkFIFO {
  nodes : gmap loc FastFIFONode;
  tail_ : loc;
  head_ : loc;
  fresh_ : loc;
}.

Definition set_nodes (h : gmap loc FastFIFONode) (f : FastFIFO) : FastFIFO :=
  mkFIFO h (tail_ f) (head_ f) (fresh_ f).
Definition set_head (p : loc) (f : FastFIFO) : FastFIFO :=
  mkFIFO (nodes f) (tail_ f) p (fresh_ f).

Definition with_before (b : option loc) (n : FastFIFONode) : FastFIFONode :=
  mkNode (data n) b (next n).
Definition with_next (x : option loc) (n : FastFIFONode) : FastFIFONode :=
  mkNode (data n) (before n) x.

(** * Access to the heap of nodes *)

Definition load (p : loc) : prog FastFIFO FastFIFONode := λ f,
  match nodes f !! p with
  | Some n => Ok (n, f)
  | None => Fault UseAfterFree
  end.

(** A write to one member of the node at [p]. *)
Definition update (p : loc) (g : FastFIFONode → FastFIFONode) : prog FastFIFO unit :=
  let! n := load p in
  pmodify (λ f, set_nodes (<[p := g n]> (nodes f)) f).

(** [new FastFIFONode<T>(data)]. *)
Definition new_node (d : option T) : prog FastFIFO loc := λ f,
  Ok (fresh_ f,
      mkFIFO (<[fresh_ f := mkNode d None None]> (nodes f))
             (tail_ f) (head_ f) (Pos.succ (fresh_ f))).

(** [delete node]. *)
Definition delete_node (p : loc) : prog FastFIFO unit := λ f,
  match nodes f !! p with
  | Some _ => Ok (tt, set_nodes (delete p (nodes f)) f)
  | None => Fault DoubleFree
  end.

(** * The operations *)

(** [FastFIFO(void)]: the sentinel is the only node. *)
Definition new (start : loc) : FastFIFO :=
  mkFIFO {[start := mkNode None None None]} start start (Pos.succ start).

Definition push (d : option T) : prog FastFIFO loc :=
  let! newNode := new_node d in
  let! f := pget in
  let! t := load (tail_ f) in
  update newNode (with_before (before t)) ;;;
  update newNode (with_next (Some (tail_ f))) ;;;
  match before t with
  | Some b => update b (with_next (Some newNode))
  | None => pret tt
  end ;;;
  update (tail_ f) (with_before (Some newNode)) ;;;
  (if decide (head_ f = tail_ f) then pmodify (set_head newNode) else pret tt) ;;;
  pret newNode.

Definition removeNode (node : option loc) : prog FastFIFO unit :=
  passert (bool_decide (is_Some node)) ;;;
  let! p := pnonnull node in
  let! n := load p in
  passert (bool_decide (is_Some (next n))) ;;;
  let! nx := pnonnull (next n) in
  match before n with
  | None => pmodify (set_head nx)
  | Some b => update b (with_next (Some nx))
  end ;;;
  update nx (with_before (before n)) ;;;
  delete_node p.

(** [pop]: [None] is the return value [false], [Some d] is [true] with [d]
    stored through the pointer. *)
Definition pop : prog FastFIFO (option (option T)) :=
  let! f := pget in
  if decide (head_ f = tail_ f) then pret None
  else
    let! n := load (head_ f) in
    removeNode (Some (head_ f)) ;;;
    pret (Some (data n)).

(** [~FastFIFO]: [while (pop(&dummy));], [fuel] bounding the iterations. *)
Fixpoint destroy (fuel : nat) : prog FastFIFO unit :=
  match fuel with
  | 0 => pfail OutOfFuel
  | S fuel =>
    let! r := pop in
    match r with
    | Some _ => destroy fuel
    | None => pret tt
    end
  end.

(** * The list a heap of nodes represents *)

Implicit Types (f : FastFIFO) (h : gmap loc FastFIFONode) (l : list (loc * option T)).

(** The first node of [l], or the node after it. *)
Definition hd_loc (l : list (loc * option T)) (tl : loc) : loc :=
  match l with
  | [] => tl
  | (q, _) :: _ => q
  end.

(** The last node of [l], or the node before it. *)
Fixpoint last_loc (prev : option loc) (l : list (loc * option T)) : option loc :=
  match l with
  | [] => prev
  | (q, _) :: l => last_loc (Some q) l
  end.

(** The nodes of [l] are linked one to the next, from [prev] to [nx]. *)
Fixpoint seg (h : gmap loc FastFIFONode) (prev : option loc)
    (l : list (loc * option T)) (nx : loc) : Prop :=
  match l with
  | [] => True
  | (q, d) :: l =>
    h !! q = Some (mkNode d prev (Some (hd_loc l nx))) ∧ seg h (Some q) l nx
  end.

(** A segment that ends in the sentinel [tl]. *)
Definition chain (h : gmap loc FastFIFONode) (prev : option loc)
    (l : list (loc * option T)) (tl : loc) : Prop :=
  seg h prev l tl ∧ h !! tl = Some (mkNode None (last_loc prev l) None).

Record rep f l : Prop := {
  rep_nodup : NoDup (l.*1 ++ [tail_ f]);
  rep_head : head_ f = hd_loc l (tail_ f);
  rep_chain : chain (nodes f) None l (tail_ f);
  rep_dom : ∀ p, is_Some (nodes f !! p) → p ∈ l.*1 ++ [tail_ f];
  rep_fresh : ∀ p, is_Some (nodes f !! p) → (p < fresh_ f)%positive;
}.

Lemma hd_loc_app l k tl : hd_loc (l ++ k) tl = hd_loc l (hd_loc k tl).
Proof. by destruct l as [|[]]. Qed.

Lemma last_loc_app prev l k : last_loc prev (l ++ k) = last_loc (last_loc prev l) k.
Proof. revert prev. induction l as [|[q d] l IH]; intros prev; simpl; auto. Qed.

Lemma seg_app h prev l k nx :
  seg h prev (l ++ k) nx ↔ seg h prev l (hd_loc k nx) ∧ seg h (last_loc prev l) k nx.
Proof.
  revert prev. induction l as [|[q d] l IH]; intros prev; simpl; [tauto|].
  rewrite IH, hd_loc_app. tauto.
Qed.

Lemma chain_app h prev l k tl :
  chain h prev (l ++ k) tl ↔
  seg h prev l (hd_loc k tl) ∧ chain h (last_loc prev l) k tl.
Proof. unfold chain. rewrite seg_app, last_loc_app. tauto. Qed.

(** ** The nodes of a segment are live *)

Lemma seg_live h prev l nx q : seg h prev l nx → q ∈ l.*1 → is_Some (h !! q).
Proof.
  revert prev. induction l as [|[r d] l IH]; intros prev; csimpl; [set_solver|].
  intros [Hr Hl] [->|Hq]%elem_of_cons; eauto.
Qed.

Lemma chain_live h prev l tl q :
  chain h prev l tl → q ∈ l.*1 ++ [tl] → is_Some (h !! q).
Proof.
  intros [Hs Ht] [Hq|Hq]%elem_of_app; [by eapply seg_live|].
  apply list_elem_of_singleton in Hq as ->. eauto.
Qed.

(** ** Frames: nodes outside a segment may change *)

Lemma seg_frame h h' prev l nx :
  (∀ q, q ∈ l.*1 → h' !! q = h !! q) → seg h prev l nx → seg h' prev l nx.
Proof.
  revert prev. induction l as [|[q d] l IH]; intros prev Hh; csimpl; [done|].
  intros [Hq Hl]. split; [|apply IH; [|done]].
  - rewrite Hh; [done|]. csimpl. set_solver.
  - intros q' Hq'. apply Hh. csimpl. set_solver.
Qed.

Lemma chain_frame h h' prev l tl :
  (∀ q, q ∈ l.*1 ++ [tl] → h' !! q = h !! q) → chain h prev l tl → chain h' prev l tl.
Proof.
  intros Hh [Hs Ht]. split.
  - eapply seg_frame; [|done]. intros q Hq. apply Hh. set_solver.
  - rewrite Hh; [done|set_solver].
Qed.

(** ** Relinking the two ends of a gap *)

(** The node a chain starts at can be given another predecessor. *)
Lemma chain_set_before h prev b l tl :
  NoDup (l.*1 ++ [tl]) → chain h prev l tl →
  ∃ n, h !! hd_loc l tl = Some n ∧
       chain (<[hd_loc l tl := with_before b n]> h) b l tl.
Proof.
  destruct l as [|[q d] l]; csimpl; intros Hnd [Hs Ht].
  - eexists. split; [done|]. split; [done|]. by rewrite lookup_insert_eq.
  - destruct Hs as [Hq Hs]. eexists. split; [done|].
    apply NoDup_cons in Hnd as [Hq' Hnd]. split; simpl.
    + rewrite lookup_insert_eq. split; [done|].
      eapply seg_frame; [|done]. intros r Hr. apply lookup_insert_ne. set_solver.
    + rewrite lookup_insert_ne by set_solver. done.
Qed.

(** The node a non-empty segment ends at can be given another successor. *)
Lemma seg_set_next h prev l q d nx nx' :
  NoDup ((l ++ [(q, d)]).*1) → seg h prev (l ++ [(q, d)]) nx →
  ∃ n, h !! q = Some n ∧
       seg (<[q := with_next (Some nx') n]> h) prev (l ++ [(q, d)]) nx'.
Proof.
  rewrite fmap_app. intros Hnd [Hl [Hq _]]%seg_app. csimpl.
  eexists. split; [done|]. apply seg_app. csimpl. split.
  - eapply seg_frame; [|done]. intros r Hr. apply lookup_insert_ne.
    apply NoDup_app in Hnd as (_ & Hnd & _). specialize (Hnd r Hr). csimpl in Hnd.
    set_solver.
  - by rewrite lookup_insert_eq.
Qed.

(** ** The heap accesses succeed on live nodes *)

Lemma load_ok p f n : nodes f !! p = Some n → load p f = Ok (n, f).
Proof. unfold load. by intros ->. Qed.

Lemma update_ok p g f n :
  nodes f !! p = Some n → update p g f = Ok (tt, set_nodes (<[p := g n]> (nodes f)) f).
Proof. intros Hp. unfold update. by rewrite (pbind_ok _ _ _ _ _ (load_ok _ _ _ Hp)). Qed.

Lemma delete_node_ok p f n :
  nodes f !! p = Some n → delete_node p f = Ok (tt, set_nodes (delete p (nodes f)) f).
Proof. unfold delete_node. by intros ->. Qed.

Lemma last_loc_snoc prev l q d : last_loc prev (l ++ [(q, d)]) = Some q.
Proof. by rewrite last_loc_app. Qed.

Lemma last_loc_elem l b : last_loc None l = Some b → b ∈ l.*1.
Proof.
  destruct l as [|[q d] l _] using rev_ind; [done|].
  rewrite last_loc_snoc, fmap_app. intros [= ->]. set_solver.
Qed.

Lemma hd_loc_elem l tl : hd_loc l tl ∈ l.*1 ++ [tl].
Proof. destruct l as [|[q d] l]; csimpl; set_solver. Qed.

(** ** Removing a node *)

(** The heap after the predecessor [bf] of a gap is linked to [nx]. *)
Definition link_next (bf : option loc) (nx : loc)
    (h : gmap loc FastFIFONode) : gmap loc FastFIFONode :=
  match bf with
  | Some b => alter (with_next (Some nx)) b h
  | None => h
  end.

Lemma seg_link_next h l q nx :
  NoDup l.*1 → seg h None l q → seg (link_next (last_loc None l) nx h) None l nx.
Proof.
  destruct l as [|[b d] l _] using rev_ind; intros Hnd Hs; [done|].
  rewrite last_loc_snoc. simpl.
  destruct (seg_set_next _ _ _ _ _ _ nx Hnd Hs) as (n & Hn & Hs').
  replace (alter _ b h) with (<[b:=with_next (Some nx) n]> h); [done|].
  apply map_eq. intros i. rewrite lookup_insert, lookup_alter.
  case_decide; subst; [by rewrite Hn|done].
Qed.

Lemma link_next_ne bf nx h p : bf ≠ Some p → link_next bf nx h !! p = h !! p.
Proof. destruct bf as [b|]; simpl; [|done]. intros. apply lookup_alter_ne. congruence. Qed.

(** The step that relinks the predecessor, in [push] and in [removeNode]. *)
Lemma link_next_ok bf nx f :
  (∀ b, bf = Some b → is_Some (nodes f !! b)) →
  (match bf with
   | Some b => update b (with_next (Some nx))
   | None => pret tt
   end) f = Ok (tt, set_nodes (link_next bf nx (nodes f)) f).
Proof.
  destruct bf as [b|]; simpl; intros Hb; [|by destruct f].
  destruct (Hb b eq_refl) as [n Hn]. rewrite (update_ok _ _ _ _ Hn).
  repeat f_equal. apply map_eq. intros i. rewrite lookup_insert, lookup_alter.
  case_decide; subst; [by rewrite Hn|done].
Qed.

Lemma removeNode_eq f p d bf nx n2 :
  nodes f !! p = Some (mkNode d bf (Some nx)) → nodes f !! nx = Some n2 →
  (∀ b, bf = Some b → is_Some (nodes f !! b)) →
  p ≠ nx → bf ≠ Some nx → bf ≠ Some p →
  removeNode (Some p) f =
    Ok (tt, mkFIFO (delete p (<[nx := with_before bf n2]> (link_next bf nx (nodes f))))
                   (tail_ f) (if bf is Some _ then head_ f else nx) (fresh_ f)).
Proof.
  intros Hp Hnx Hbf Hpnx Hbnx Hbp. unfold removeNode. prun. prun.
  erewrite pbind_ok by (by apply load_ok). cbn. prun. prun.
  destruct bf as [b|]; simpl in *.
  - erewrite pbind_ok by (by apply (link_next_ok (Some b))).
    erewrite pbind_ok; [|apply update_ok; simpl; rewrite lookup_alter_ne; [done|congruence]].
    erewrite delete_node_ok; [done|]. simpl.
    rewrite lookup_insert_ne by done. rewrite lookup_alter_ne; [done|congruence].
  - prun. erewrite pbind_ok by (by apply update_ok).
    erewrite delete_node_ok; [done|]. simpl. by rewrite lookup_insert_ne.
Qed.

Lemma removeNode_ok f l1 q d l2 :
  rep f (l1 ++ (q, d) :: l2) →
  ∃ f', removeNode (Some q) f = Ok (tt, f') ∧ rep f' (l1 ++ l2).
Proof.
  intros [Hnd Hhd Hch Hdom Hfr].
  apply chain_app in Hch as [Hs1 [Hs2 Htl]]. simpl in Hs1, Hs2, Htl.
  destruct Hs2 as [Hq Hs2]. pose proof (conj Hs2 Htl) as Hch2.
  rewrite fmap_app in Hnd. csimpl in Hnd. rewrite <-app_assoc in Hnd.
  apply NoDup_app_inv in Hnd as (Hnd1 & Hnd2 & Hdis).
  apply NoDup_cons in Hnd2 as [Hq2 Hnd2].
  pose proof (hd_loc_elem l2 (tail_ f)) as Hhdin.
  set (nx := hd_loc l2 (tail_ f)) in *. set (bf := last_loc None l1) in *.
  assert (Hbl : ∀ b, bf = Some b → b ∈ l1.*1) by (intros; by apply last_loc_elem).
  set (h1 := link_next bf nx (nodes f)).
  assert (Hch2' : chain h1 (Some q) l2 (tail_ f)).
  { eapply chain_frame; [|exact Hch2]. intros r Hr. apply link_next_ne.
    intros Hb. apply Hbl, Hdis in Hb. set_solver. }
  destruct (chain_set_before _ _ bf _ _ Hnd2 Hch2') as (n2 & Hn2 & Hch3).
  fold nx in Hn2, Hch3.
  assert (Hnxq : q ≠ nx) by set_solver.
  assert (Hbq : bf ≠ Some q) by (intros Hb; apply Hbl, Hdis in Hb; set_solver).
  assert (Hbnx : bf ≠ Some nx) by (intros Hb; apply Hbl, Hdis in Hb; set_solver).
  eexists. split.
  { eapply removeNode_eq; [exact Hq| |..]; [by rewrite <-(link_next_ne bf nx)| |done..].
    intros b Hb. apply Hbl in Hb.
    eapply seg_live; [exact Hs1|done]. }
  assert (Hold : ∀ r, is_Some (<[nx:=with_before bf n2]> h1 !! r) → is_Some (nodes f !! r)).
  { intros r [<-|Hr]%lookup_insert_is_Some'; [by eapply chain_live|].
    destruct (decide (bf = Some r)) as [Hb|]; [|by rewrite <-(link_next_ne bf nx)].
    eapply (seg_live _ _ _ _ _ Hs1), Hbl, Hb. }
  assert (NoDup (l1.*1 ++ l2.*1 ++ [tail_ f])) as Hnd'.
  { apply NoDup_app. split; [done|]. split; [|done]. set_solver. }
  split; simpl; [by rewrite fmap_app, <-app_assoc| | |..].
  - rewrite Hhd. destruct l1 as [|[r e] l1 _] using rev_ind; [done|].
    subst bf. rewrite last_loc_snoc. by rewrite <-!app_assoc, !hd_loc_app.
  - apply chain_app. split.
    + eapply seg_frame; [|by apply (seg_link_next (nodes f) l1 q nx)].
      intros r Hr. rewrite lookup_delete_ne by set_solver.
      by rewrite lookup_insert_ne by set_solver.
    + eapply chain_frame; [|exact Hch3]. intros r Hr. apply lookup_delete_ne. set_solver.
  - intros r [Hrq Hr]%lookup_delete_is_Some.
    apply Hold, Hdom in Hr. rewrite fmap_app in *. set_solver.
  - intros r [Hrq Hr]%lookup_delete_is_Some. by apply Hfr, Hold.
Qed.
(** ** [pop] and the constructor *)

Lemma new_ok s : rep (new s) [].
Proof.
  split; simpl; [by apply NoDup_singleton|done|..].
  - split; [done|]. by apply lookup_singleton_eq.
  - intros p [n [-> _]%lookup_singleton_Some]. set_solver.
  - intros p [n [-> _]%lookup_singleton_Some]. lia.
Qed.

Lemma pop_nil f : rep f [] → pop f = Ok (None, f).
Proof.
  intros [_ Hhd _ _ _]. unfold pop. prun. by rewrite decide_True.
Qed.

Lemma head_ne_tail f q d l : rep f ((q, d) :: l) → head_ f ≠ tail_ f.
Proof.
  intros [Hnd -> _ _ _]. csimpl in *. apply NoDup_cons in Hnd as [Hq _]. set_solver.
Qed.

Lemma pop_cons f q d l :
  rep f ((q, d) :: l) → ∃ f', pop f = Ok (Some d, f') ∧ rep f' l.
Proof.
  intros Hrep. pose proof (head_ne_tail _ _ _ _ Hrep) as Hne.
  destruct (removeNode_ok f [] q d l Hrep) as (f' & Hrem & Hrep').
  exists f'. split; [|done]. destruct Hrep as [_ Hhd [[Hq _] _] _ _].
  simpl in Hhd. unfold pop. prun. rewrite decide_False by done.
  rewrite Hhd. erewrite pbind_ok by (by apply load_ok). simpl. by prun.
Qed.

(** ** Pushing a node *)

Lemma push_eq f bf :
  nodes f !! tail_ f = Some (mkNode None bf None) → bf ≠ Some (tail_ f) →
  (∀ b, bf = Some b → is_Some (nodes f !! b)) →
  (∀ p, is_Some (nodes f !! p) → p ≠ fresh_ f) →
  ∀ d, push d f =
    Ok (fresh_ f,
        mkFIFO (<[tail_ f := mkNode None (Some (fresh_ f)) None]>
                 (link_next bf (fresh_ f)
                   (<[fresh_ f := mkNode d bf (Some (tail_ f))]> (nodes f))))
               (tail_ f) (if decide (head_ f = tail_ f) then fresh_ f else head_ f)
               (Pos.succ (fresh_ f))).
Proof.
  intros Ht Hbt Hb Hfr d. assert (fresh_ f ≠ tail_ f) by (apply not_eq_sym, Hfr; eauto).
  unfold push. prun. prun. cbn.
  erewrite pbind_ok by (apply load_ok; simpl; by rewrite lookup_insert_ne).
  erewrite pbind_ok by (apply update_ok; simpl; by rewrite lookup_insert_eq). simpl.
  erewrite pbind_ok by (apply update_ok; simpl; by rewrite lookup_insert_eq). simpl.
  rewrite !insert_insert_eq. unfold with_next, with_before. simpl.
  erewrite pbind_ok; [|apply (link_next_ok bf)]; simpl; cycle 1.
  { intros b Hbf. destruct (decide (b = fresh_ f)) as [->|].
    - rewrite lookup_insert_eq. eauto.
    - rewrite lookup_insert_ne by done. auto. }
  erewrite pbind_ok; [|apply update_ok; simpl; rewrite link_next_ne by done;
    by rewrite lookup_insert_ne by done]. simpl.
  case_decide; prun; done.
Qed.

Lemma push_ok f l d : rep f l →
  ∃ n f', push d f = Ok (n, f') ∧ n ∉ l.*1 ∧ rep f' (l ++ [(n, d)]).
Proof.
  intros Hrep. pose proof Hrep as [Hnd Hhd Hch Hdom Hfr].
  assert (Hlive : ∀ p, p ∈ l.*1 ++ [tail_ f] → p ≠ fresh_ f).
  { intros p Hp ->. pose proof (chain_live _ _ _ _ _ Hch Hp) as Hp'.
    specialize (Hfr _ Hp'). lia. }
  apply NoDup_app_inv in Hnd as (Hnd1 & _ & Hdis).
  destruct Hch as [Hs Ht].
  assert (Hbl : ∀ b, last_loc None l = Some b → b ∈ l.*1) by (intros; by apply last_loc_elem).
  assert (last_loc None l ≠ Some (tail_ f)) as Hlt
    by (intros Hb; apply Hbl, Hdis in Hb; set_solver).
  eexists _, _. split; [apply (push_eq f (last_loc None l)); try done|].
  { intros b Hb. eapply (seg_live _ _ _ _ _ Hs). auto. }
  { intros p Hp. specialize (Hfr _ Hp). lia. }
  assert (fresh_ f ∉ l.*1) as Hfl by (intros Hin; eapply (Hlive (fresh_ f)); set_solver).
  split; [done|].
  set (n := mkNode d (last_loc None l) (Some (tail_ f))).
  assert (Hfresht : fresh_ f ≠ tail_ f) by (apply not_eq_sym, Hlive; set_solver).
  split; simpl.
  - rewrite fmap_app. csimpl. apply NoDup_app. split.
    + apply NoDup_app. split; [done|]. split; [set_solver|apply NoDup_singleton].
    + split; [set_solver|apply NoDup_singleton].
  - rewrite Hhd. case_decide as Heq; destruct l as [|[q e] l]; csimpl in *; try done.
    set_solver.
  - apply chain_app. split.
    + eapply seg_frame; [|apply (seg_link_next (<[fresh_ f:=n]> (nodes f)) _ (tail_ f));
        [done|eapply seg_frame; [|done]]].
      * intros q Hq. simpl. by rewrite lookup_insert_ne by set_solver.
      * intros q Hq. rewrite lookup_insert_ne by set_solver. done.
    + split; [split; [|done]|simpl; by rewrite lookup_insert_eq].
      rewrite lookup_insert_ne by done. rewrite link_next_ne; [by rewrite lookup_insert_eq|].
      intros Hb. by apply Hbl in Hb.
  - intros p [<-|Hp]%lookup_insert_is_Some'; [set_solver|].
    rewrite fmap_app. csimpl.
    destruct (decide (last_loc None l = Some p)) as [Hb|]; [apply Hbl in Hb; set_solver|].
    rewrite link_next_ne in Hp by done.
    apply lookup_insert_is_Some' in Hp as [<-|Hp]; [set_solver|]. apply Hdom in Hp. set_solver.
  - intros p [<-|Hp]%lookup_insert_is_Some'; [apply Pos.lt_lt_succ, Hfr; eauto|].
    destruct (decide (last_loc None l = Some p)) as [Hb|].
    { apply Pos.lt_lt_succ, Hfr, (seg_live _ _ _ _ _ Hs). auto. }
    rewrite link_next_ne in Hp by done.
    apply lookup_insert_is_Some' in Hp as [<-|Hp]; [lia|]. by apply Pos.lt_lt_succ, Hfr.
Qed.

(** ** The destructor *)

(** Enough fuel is one more iteration than there are elements; what is left
    is the sentinel, which the destructor never deletes. *)
Lemma destroy_ok f l fuel : rep f l → length l < fuel →
  ∃ f', destroy fuel f = Ok (tt, f') ∧ rep f' [].
Proof.
  revert f l. induction fuel as [|fuel IH]; intros f l Hrep Hlen; [lia|]. simpl.
  destruct l as [|[q d] l].
  - rewrite (pbind_ok _ _ _ _ _ (pop_nil _ Hrep)). by exists f.
  - destruct (pop_cons _ _ _ _ Hrep) as (f' & Hpop & Hrep').
    rewrite (pbind_ok _ _ _ _ _ Hpop). simpl in Hlen. apply (IH _ l); [done|lia].
Qed.

Lemma rep_nil_nodes f : rep f [] → nodes f = {[tail_ f := mkNode None None None]}.
Proof.
  intros [_ _ [_ Ht] Hdom _]. simpl in *. apply map_eq. intros p.
  destruct (decide (p = tail_ f)) as [->|]; [by rewrite Ht, lookup_singleton_eq|].
  rewrite lookup_singleton_ne by done. apply eq_None_not_Some.
  intros Hp%Hdom. set_solver.
Qed.

Lemma rep_NoDup f l : rep f l → NoDup l.*1.
Proof. intros [Hnd _ _ _ _]. by apply NoDup_app_inv in Hnd as [Hnd _]. Qed.

(** ** The abstract FIFO and the refinement *)

Inductive op :=
  | OpPush (d : option T)
  | OpPop
  | OpRemove (q : loc).

Inductive result :=
  | RNode (n : loc)
  | RData (r : option (option T))
  | RUnit.

(** One call of a public method. *)
Definition exec (o : op) : prog FastFIFO result :=
  match o with
  | OpPush d => let! n := push d in pret (RNode n)
  | OpPop => let! r := pop in pret (RData r)
  | OpRemove q => removeNode (Some q) ;;; pret RUnit
  end.

(** A queue of handles: [push] appends an element under a new handle, [pop]
    takes the oldest one, [removeNode] takes the one its handle names. *)
Inductive spec_step : list (loc * option T) → op → result → list (loc * option T) → Prop :=
  | spec_push l d n : n ∉ l.*1 → spec_step l (OpPush d) (RNode n) (l ++ [(n, d)])
  | spec_pop_nil : spec_step [] OpPop (RData None) []
  | spec_pop_cons n d l : spec_step ((n, d) :: l) OpPop (RData (Some d)) l
  | spec_remove l1 n d l2 : spec_step (l1 ++ (n, d) :: l2) (OpRemove n) RUnit (l1 ++ l2).

(** The contract of [removeNode]: the node belongs to this FIFO. *)
Definition op_allowed (l : list (loc * option T)) (o : op) : Prop :=
  match o with
  | OpRemove q => q ∈ l.*1
  | _ => True
  end.

End fifo.
Arguments FastFIFONode : clear implicits.
Arguments FastFIFO : clear implicits.
Arguments op : clear implicits.
Arguments result : clear implicits.

(** [FastFIFO] implements the interface. *)
#[global] Instance fast_fifo {T} : FIFO (FastFIFO T) T := {|
  fifo_new := new;
  fifo_push := push;
  fifo_pop := pop;
  fifo_remove := removeNode;
  fifo_rep := rep;
|}.

#[global] Instance fast_fifo_laws {T} : FIFOLaws (FastFIFO T) T.
Proof.
  split; [apply new_ok|intros; by apply push_ok|apply pop_nil|apply pop_cons|
    apply removeNode_ok|apply rep_NoDup].
Qed.

Section properties.
Context {T : Type}.

(** C21: every method of [FastFIFO], called within its contract on a heap that
    represents a queue, runs without a fault and does exactly one step of the
    abstract queue of handles: [push] appends and returns a new handle, [pop]
    returns the oldest element or reports emptiness, [removeNode] takes out
    the element its handle names wherever it is. *)
Theorem exec_refines (f : FastFIFO T) l o :
  rep f l → op_allowed l o →
  ∃ r f' l', exec o f = Ok (r, f') ∧ spec_step l o r l' ∧ rep f' l'.
Proof.
  intros Hrep Hop. destruct o as [d| |q]; simpl in *.
  - destruct (push_ok _ _ d Hrep) as (n & f' & Hpush & Hn & Hrep').
    exists (RNode n), f', (l ++ [(n, d)]). rewrite (pbind_ok _ _ _ _ _ Hpush).
    split_and!; [done|by constructor|done].
  - destruct l as [|[n d] l].
    + eexists _, f, []; rewrite (pbind_ok _ _ _ _ _ (pop_nil _ Hrep)).
      split_and!; [done|constructor|done].
    + destruct (pop_cons _ _ _ _ Hrep) as (f' & Hpop & Hrep').
      eexists _, f', l. rewrite (pbind_ok _ _ _ _ _ Hpop).
      split_and!; [done|constructor|done].
  - apply list_elem_of_fmap in Hop as ([q' d] & -> & (l1 & l2 & ->)%list_elem_of_split).
    destruct (removeNode_ok _ _ _ _ _ Hrep) as (f' & Hrem & Hrep').
    eexists _, f', (l1 ++ l2). simpl. rewrite (pbind_ok _ _ _ _ _ Hrem).
    split_and!; [done|constructor|done].
Qed.

(** Misuse of [removeNode] is caught or undefined, never silently
    wrong: a null pointer and the sentinel fail an [assert], and a node that
    is not (or no longer) in the queue is a use after free. *)
Theorem removeNode_misuse (f : FastFIFO T) l q :
  rep f l →
  removeNode None f = Fault AssertFailure ∧
  removeNode (Some (tail_ f)) f = Fault AssertFailure ∧
  (q ∉ l.*1 → q ≠ tail_ f → removeNode (Some q) f = Fault UseAfterFree).
Proof.
  intros [_ _ [_ Ht] Hdom _]. split_and!; [done|..].
  - unfold removeNode. prun. prun. by erewrite pbind_ok by (by apply load_ok).
  - intros Hq Hqt. unfold removeNode. prun. prun. apply pbind_fault. unfold load.
    destruct (nodes f !! q) eqn:Hn; [|done].
    destruct (elem_of_app l.*1 [tail_ f] q) as [Hin _].
    destruct Hin as [?|?%list_elem_of_singleton]; [by apply Hdom; eauto|done|done].
Qed.

(** The destructor's loop terminates, one iteration per element and one
    for the empty queue, without a fault; the sentinel is then the only node
    left, and it is never deleted. *)
Theorem destroy_leaves_sentinel (f : FastFIFO T) l :
  rep f l →
  ∃ f', destroy (S (length l)) f = Ok (tt, f') ∧
        nodes f' = {[tail_ f' := mkNode None None None]}.
Proof.
  intros Hrep. destruct (destroy_ok _ _ (S (length l)) Hrep) as (f' & Hd & Hrep'); [lia|].
  exists f'. split; [done|]. by apply rep_nil_nodes.
Qed.

End properties.

(** A queue of two numbers, built by the code. *)
Definition two_elements : outcome (loc * FastFIFO nat) :=
  (let! _ := push (Some 10) in push (Some 20))%prog (new 1%positive).

Lemma two_elements_rep :
  ∃ f, two_elements = Ok (3%positive, f) ∧ rep f [(2%positive, Some 10); (3%positive, Some 20)].
Proof.
  destruct (push_ok (new 1%positive) [] (Some 10) (new_ok _)) as (n1 & f1 & H1 & _ & Hr1).
  destruct (push_ok f1 _ (Some 20) Hr1) as (n2 & f2 & H2 & _ & Hr2).
  exists f2. unfold two_elements. rewrite (pbind_ok _ _ _ _ _ H1), H2.
  vm_compute in H1. injection H1 as <- <-. vm_compute in H2. injection H2 as <- <-.
  split; [done|exact Hr2].
Defined.

Lemma exec_refines_witness :
  ∃ f : FastFIFO nat, two_elements = Ok (3%positive, f) ∧
    ∃ r f' l', exec (OpRemove 2%positive) f = Ok (r, f') ∧
      spec_step [(2%positive, Some 10); (3%positive, Some 20)] (OpRemove 2%positive) r l' ∧
      rep f' l'.
Proof.
  destruct two_elements_rep as (f & Hf & Hrep). exists f. split; [done|].
  apply exec_refines; [done|]. vm_compute. apply list_elem_of_here.
Defined.

Lemma removeNode_misuse_witness :
  ∃ f : FastFIFO nat, two_elements = Ok (3%positive, f) ∧
    removeNode None f = Fault AssertFailure ∧
    removeNode (Some (tail_ f)) f = Fault AssertFailure ∧
    (9%positive ∉ [2%positive; 3%positive] → 9%positive ≠ tail_ f →
     removeNode (Some 9%positive) f = Fault UseAfterFree).
Proof.
  destruct two_elements_rep as (f & Hf & Hrep). exists f. split; [done|].
  apply (removeNode_misuse f _ 9%positive Hrep).
Defined.

Lemma destroy_leaves_sentinel_witness :
  ∃ f f' : FastFIFO nat, two_elements = Ok (3%positive, f) ∧
    destroy 3 f = Ok (tt, f') ∧ nodes f' = {[tail_ f' := mkNode None None None]}.
Proof.
  destruct two_elements_rep as (f & Hf & Hrep).
  destruct (destroy_leaves_sentinel f _ Hrep) as (f' & Hd & Hn).
  exists f, f'. split_and!; [exact Hf|exact Hd|exact Hn].
Defined.

End FastFIFO.
