(* ===== verification/Cache.v ===== *)
(** webserver/cache.h and webserver/cache.cc: the reference-counted cache of
    the web server.

    The state is the C++ object ([sizeQuota_], [currentSize_], the hash map,
    the free list) with the heap blocks it works on: copies of the keys, data
    buffers, queued callbacks, and the nodes of the hash map, which the free
    list points into.  Callbacks are run synchronously in the middle of [put],
    [get] and [cancelReservation] and may call back into the cache, so these
    operations run in the state [W] of the whole program, of which the cache
    is a part ([CacheClient]).  The free list is any implementation of the
    interface [FIFO]. *)
From S2P Require Import Prelude FastFIFO.

(** What the platform does where C++ leaves the behaviour undefined and the
    cache depends on it: [usable n] bytes of an allocation of [n] bytes can be
    written ([malloc_usable_size]), and [freed_readable] tells whether the
    storage of a freed hash-map node still holds the entry when it is accessed
    immediately afterwards; if not, the access is a fault.  Nothing is assumed of
    either. *)
Class Platform := {
  usable : nat → nat;
  freed_readable : bool;
}.

Module Cache.

(** * Data *)

Section data.
Context {K : Type}.

(** A heap block: a NUL-terminated key, a data buffer, or a function object
    holding a closure of the client. *)
Inductive block :=
  | BName (s : string)
  | BData (s : string)
  | BCallback (k : K).

(** [struct CacheData], the argument of a callback. *)
Record CacheData := mkCacheData {
  cd_data : option loc;
  cd_size : Z;
  cd_isCached : bool;
}.

(** [struct Cache::CacheEntry]. *)
Record CacheEntry := mkEntry {
  name : option loc;
  data : option loc;
  size : Z;
  refCount : Z;
  freeListRef : option loc;
  isReserved : bool;
  queue : list loc;
}.

(** The constructor of a reserved entry and the constructor of a full one. *)
Definition CacheEntry_reserved (name : loc) : CacheEntry :=
  mkEntry (Some name) None 0 1 None true [].
Definition CacheEntry_full (name : loc) (data : option loc) (size : Z) : CacheEntry :=
  mkEntry (Some name) data size 1 None false [].

Definition with_data (d : option loc) (s : Z) (e : CacheEntry) : CacheEntry :=
  mkEntry (name e) d s (refCount e) (freeListRef e) (isReserved e) (queue e).
Definition with_refCount (r : Z) (e : CacheEntry) : CacheEntry :=
  mkEntry (name e) (data e) (size e) r (freeListRef e) (isReserved e) (queue e).
Definition with_freeListRef (r : option loc) (e : CacheEntry) : CacheEntry :=
  mkEntry (name e) (data e) (size e) (refCount e) r (isReserved e) (queue e).
Definition with_isReserved (b : bool) (e : CacheEntry) : CacheEntry :=
  mkEntry (name e) (data e) (size e) (refCount e) (freeListRef e) b (queue e).
Definition with_queue (q : list loc) (e : CacheEntry) : CacheEntry :=
  mkEntry (name e) (data e) (size e) (refCount e) (freeListRef e) (isReserved e) q.
Definition with_names (n d : option loc) (e : CacheEntry) : CacheEntry :=
  mkEntry n d (size e) (refCount e) (freeListRef e) (isReserved e) (queue e).

End data.
Arguments block : clear implicits.

(** The cache over callbacks [K] and a free list [F].  [entries] are the
    nodes of the hash map, by address, [freed] the storage of erased nodes,
    [heap] the live blocks and [brk] the next address of the allocator. *)
Record Cache {K F : Type} := mkCache {
  sizeQuota_ : Z;
  currentSize_ : Z;
  cacheMap_ : gmap string loc;
  freeList_ : F;
  entries : gmap loc CacheEntry;
  freed : gmap loc CacheEntry;
  heap : gmap loc (block K);
  brk : loc;
}.
Arguments Cache : clear implicits.

(** The program around the cache: where the cache is in its state, and how it
    runs the closure of a callback. *)
Class CacheClient (W K F : Type) := {
  cache_of : W → Cache K F;
  set_cache : Cache K F → W → W;
  run_callback : K → CacheData → prog W unit;
}.

(** * Operations on the cache's own state *)

Section local.
Context {K F : Type} `{HF : FIFO F loc} `{HP : Platform}.
Implicit Types (c : Cache K F) (e : CacheEntry).

Definition set_currentSize (z : Z) c : Cache K F :=
  mkCache _ _ (sizeQuota_ c) z (cacheMap_ c) (freeList_ c) (entries c) (freed c)
    (heap c) (brk c).
Definition set_freeList (l : F) c : Cache K F :=
  mkCache _ _ (sizeQuota_ c) (currentSize_ c) (cacheMap_ c) l (entries c) (freed c)
    (heap c) (brk c).
Definition set_entries (m : gmap loc CacheEntry) c : Cache K F :=
  mkCache _ _ (sizeQuota_ c) (currentSize_ c) (cacheMap_ c) (freeList_ c) m (freed c)
    (heap c) (brk c).
Definition set_freed (m : gmap loc CacheEntry) c : Cache K F :=
  mkCache _ _ (sizeQuota_ c) (currentSize_ c) (cacheMap_ c) (freeList_ c) (entries c) m
    (heap c) (brk c).
Definition set_heap (h : gmap loc (block K)) c : Cache K F :=
  mkCache _ _ (sizeQuota_ c) (currentSize_ c) (cacheMap_ c) (freeList_ c) (entries c)
    (freed c) h (brk c).

(** [Cache(size_t sizeQuota)], in a program whose heap is [h] so far. *)
Definition new_cache (sizeQuota : Z) (h : gmap loc (block K)) (b : loc) : Cache K F :=
  mkCache _ _ sizeQuota 0 ∅ (fifo_new 1%positive) ∅ ∅ h b.

(** ** The heap *)

Definition alloc (b : block K) : prog (Cache K F) loc := λ c,
  Ok (brk c, mkCache _ _ (sizeQuota_ c) (currentSize_ c) (cacheMap_ c) (freeList_ c)
               (entries c) (freed c) (<[brk c := b]> (heap c)) (Pos.succ (brk c))).

Definition load_block (p : loc) : prog (Cache K F) (block K) := λ c,
  match heap c !! p with
  | Some b => Ok (b, c)
  | None => Fault UseAfterFree
  end.

(** [free(p)], [delete p], [delete[] p]: nothing for [NULL]. *)
Definition free_block (p : option loc) : prog (Cache K F) unit := λ c,
  match p with
  | None => Ok (tt, c)
  | Some p =>
    match heap c !! p with
    | Some _ => Ok (tt, set_heap (delete p (heap c)) c)
    | None => Fault DoubleFree
    end
  end.

(** [strCpy]: [strlen(str)] bytes are allocated and one more is written. *)
Definition strCpy (str : string) : prog (Cache K F) loc :=
  let size := String.length str in
  let! copy := alloc (BName str) in
  if size <? usable size then pret copy else pfail HeapOverflow.

(** ** The nodes of the hash map *)

Definition load_entry (p : loc) : prog (Cache K F) CacheEntry := λ c,
  match entries c !! p with
  | Some e => Ok (e, c)
  | None =>
    match freed c !! p with
    | Some e => if freed_readable then Ok (e, c) else Fault UseAfterFree
    | None => Fault UseAfterFree
    end
  end.

(** A write to members of the entry at [p]. *)
Definition update_entry (p : loc) (g : CacheEntry → CacheEntry) : prog (Cache K F) unit :=
  let! e := load_entry p in
  pmodify (λ c, match entries c !! p with
                | Some _ => set_entries (<[p := g e]> (entries c)) c
                | None => set_freed (<[p := g e]> (freed c)) c
                end).

(** [cacheMap_.insert(make_pair(key, e))]: the node of the key and whether it
    is new.  Keys are compared by content ([EqCharPtr]). *)
Definition map_insert (key : string) (e : CacheEntry) : prog (Cache K F) (loc * bool) := λ c,
  match cacheMap_ c !! key with
  | Some p => Ok ((p, false), c)
  | None =>
    Ok ((brk c, true),
        mkCache _ _ (sizeQuota_ c) (currentSize_ c) (<[key := brk c]> (cacheMap_ c))
          (freeList_ c) (<[brk c := e]> (entries c)) (freed c) (heap c)
          (Pos.succ (brk c)))
  end.

Definition map_find (key : string) : prog (Cache K F) (option loc) := λ c,
  Ok (cacheMap_ c !! key, c).

(** [cacheMap_.erase(name)]: the node's storage is freed. *)
Definition map_erase (nm : loc) : prog (Cache K F) unit :=
  let! b := load_block nm in
  match b with
  | BName key =>
    pmodify (λ c,
      match cacheMap_ c !! key with
      | None => c
      | Some p =>
        mkCache _ _ (sizeQuota_ c) (currentSize_ c) (delete key (cacheMap_ c))
          (freeList_ c) (delete p (entries c))
          (match entries c !! p with
           | Some e => <[p := e]> (freed c)
           | None => freed c
           end) (heap c) (brk c)
      end)
  | _ => pfail UseAfterFree
  end.

(** ** The free list *)

Definition freeList {A} (m : prog F A) : prog (Cache K F) A := λ c,
  match m (freeList_ c) with
  | Ok (a, l) => Ok (a, set_freeList l c)
  | Fault x => Fault x
  end.

(** ** Methods that run no callback *)

Definition deallocate (p : loc) : prog (Cache K F) unit :=
  let! e := load_entry p in
  free_block (data e) ;;;
  free_block (name e) ;;;
  update_entry p (with_names None None).

(** The loop of [cleanup]; the result is [spaceFreed]. *)
Fixpoint cleanup_loop (fuel : nat) (space spaceFreed : Z) : prog (Cache K F) Z :=
  match fuel with
  | 0 => pfail OutOfFuel
  | S fuel =>
    if (spaceFreed <? space)%Z then
      let! r := freeList fifo_pop in
      match r with
      | None => pret spaceFreed
      | Some entry =>
        let! p := pnonnull entry in
        let! e := load_entry p in
        passert (refCount e =? 0)%Z ;;;
        let spaceFreed := wrap_size (spaceFreed + size e) in
        let! nm := pnonnull (name e) in
        map_erase nm ;;;
        deallocate p ;;;
        cleanup_loop fuel space spaceFreed
      end
    else pret spaceFreed
  end.

Definition cleanup (fuel : nat) (space : Z) : prog (Cache K F) unit :=
  let! spaceFreed := cleanup_loop fuel space 0 in
  pmodify (λ c, set_currentSize (wrap_size (currentSize_ c - spaceFreed)) c).

Definition reserve (key : string) : prog (Cache K F) bool :=
  let! keyCopy := strCpy key in
  let! result := map_insert key (CacheEntry_reserved keyCopy) in
  let '(p, inserted) := result in
  if (inserted : bool) then pret true
  else
    let! e := load_entry p in
    (if isReserved e then pret tt else update_entry p (with_isReserved true)) ;;;
    free_block (Some keyCopy) ;;;
    pret (negb (isReserved e)).

(** The first half of [doneWith]: one reference less. *)
Definition release (key : string) : prog (Cache K F) unit :=
  let! iter := map_find key in
  match iter with
  | Some p =>
    let! e := load_entry p in
    passert (0 <? refCount e)%Z ;;;
    update_entry p (with_refCount (wrap_size (refCount e - 1))) ;;;
    if (wrap_size (refCount e - 1) =? 0)%Z then
      let! n := freeList (fifo_push (Some p)) in
      update_entry p (with_freeListRef (Some n))
    else pret tt
  | None => passert false
  end.

Definition doneWith (fuel : nat) (key : string) : prog (Cache K F) unit :=
  release key ;;;
  let! c := pget in
  if (sizeQuota_ c <? currentSize_ c)%Z
  then cleanup fuel (wrap_size (currentSize_ c - sizeQuota_ c))
  else pret tt.

End local.

(** * Operations that run callbacks *)

Section client.
Context {W K F : Type} `{HF : FIFO F loc} `{HP : Platform} `{HC : !CacheClient W K F}.

Definition lift {A} (m : prog (Cache K F) A) : prog W A := λ w,
  match m (cache_of w) with
  | Ok (a, c) => Ok (a, set_cache c w)
  | Fault x => Fault x
  end.

(** Running the function object a [CacheCallback] pointer refers to. *)
Definition call (callback : loc) (d : CacheData) : prog W unit :=
  let! b := lift (load_block callback) in
  match b with
  | BCallback k => run_callback k d
  | _ => pfail UseAfterFree
  end.

(** The loop over [entry.queue] of [put].  A callback may append to the list
    while it is iterated, so the [i]-th element and the end are looked up in
    the current list in each iteration. *)
Fixpoint put_loop (fuel : nat) (p : loc) (i : nat) (d : CacheData) : prog W unit :=
  match fuel with
  | 0 => pfail OutOfFuel
  | S fuel =>
    let! e := lift (load_entry p) in
    match queue e !! i with
    | None => pret tt
    | Some callback =>
      lift (update_entry p (with_refCount (wrap_size (refCount e + 1)))) ;;;
      call callback d ;;;
      lift (free_block (Some callback)) ;;;
      put_loop fuel p (S i) d
    end
  end.

Definition put (fuel : nat) (key : string) (buf : option loc) (sz : Z) : prog W bool :=
  let! keyCopy := lift (strCpy key) in
  let! result := lift (map_insert key (CacheEntry_full keyCopy buf sz)) in
  let '(p, inserted) := result in
  if (inserted : bool) then
    lift (pmodify (λ c, set_currentSize (wrap_size (currentSize_ c + sz)) c)) ;;;
    pret true
  else
    let! e := lift (load_entry p) in
    (if isReserved e then
       lift (update_entry p (with_data buf sz)) ;;;
       put_loop fuel p 0 (mkCacheData buf sz true) ;;;
       lift (update_entry p (with_isReserved false))
     else pret tt) ;;;
    lift (free_block (Some keyCopy)) ;;;
    pret (isReserved e).

Definition get (key : string) (callback : option loc) : prog W bool :=
  let! iter := lift (map_find key) in
  match iter with
  | Some p =>
    let! e := lift (load_entry p) in
    match (isReserved e, callback) with
    | (true, Some cb) => lift (update_entry p (λ e, with_queue (queue e ++ [cb]) e))
    | _ =>
      let! cb := pnonnull callback in
      call cb (mkCacheData (data e) (size e) true) ;;;
      lift (update_entry p (λ e, with_refCount (wrap_size (refCount e + 1)) e)) ;;;
      let! e := lift (load_entry p) in
      match freeListRef e with
      | Some _ =>
        lift (freeList (fifo_remove (freeListRef e))) ;;;
        lift (update_entry p (with_freeListRef None))
      | None => pret tt
      end ;;;
      lift (free_block callback)
    end ;;;
    pret true
  | None =>
    lift (free_block callback) ;;;
    pret false
  end.

(** The loop over [entry.queue] of [cancelReservation]. *)
Fixpoint cancel_loop (fuel : nat) (p : loc) (i : nat) : prog W unit :=
  match fuel with
  | 0 => pfail OutOfFuel
  | S fuel =>
    let! e := lift (load_entry p) in
    match queue e !! i with
    | None => pret tt
    | Some callback =>
      call callback (mkCacheData None 0 false) ;;;
      lift (free_block (Some callback)) ;;;
      cancel_loop fuel p (S i)
    end
  end.

Definition cancelReservation (fuel : nat) (key : string) : prog W bool :=
  let! iter := lift (map_find key) in
  match iter with
  | Some p =>
    let! e := lift (load_entry p) in
    if isReserved e then
      lift (update_entry p (with_isReserved false)) ;;;
      cancel_loop fuel p 0 ;;;
      pret true
    else pret false
  | None => pret false
  end.

(** [~Cache]: [order] is the order in which the hash map is iterated. *)
Fixpoint destroy_entries (order : list (string * loc)) : prog (Cache K F) unit :=
  match order with
  | [] => pret tt
  | (_, p) :: order =>
    deallocate p ;;;
    let! e := load_entry p in
    match freeListRef e with
    | Some _ => freeList (fifo_remove (freeListRef e))
    | None => pret tt
    end ;;;
    destroy_entries order
  end.

(** The second loop of the destructor. *)
Fixpoint destroy_free_list (fuel : nat) : prog (Cache K F) unit :=
  match fuel with
  | 0 => pfail OutOfFuel
  | S fuel =>
    let! r := freeList fifo_pop in
    match r with
    | None => pret tt
    | Some entry =>
      let! p := pnonnull entry in
      let! e := load_entry p in
      free_block (data e) ;;;
      destroy_free_list fuel
    end
  end.

Definition destroy_cache (fuel : nat) (order : list (string * loc)) : prog (Cache K F) unit :=
  destroy_entries order ;;;
  destroy_free_list fuel.

End client.

(** * Well-formed caches *)

(** What a key's entry in the cache is ([None] if there is no node). *)
Definition view {K F} (c : Cache K F) (key : string) : option CacheEntry :=
  cacheMap_ c !! key ≫= λ p, entries c !! p.

(** The blocks an entry is responsible for: its key, its data and, while it
    is reserved, the callbacks that wait for the data. *)
Definition owned (e : CacheEntry) : list loc :=
  option_list (name e) ++ option_list (data e) ++
  (if isReserved e then queue e else []).

Section wf.
Context {K F : Type} `{HF : FIFO F loc} `{HL : !FIFOLaws F loc} `{HP : Platform}.
Implicit Types (c : Cache K F) (e : CacheEntry) (fl : list (loc * option loc)).

Record entry_ok (h : gmap loc (block K)) fl (key : string) (p : loc) e : Prop := {
  ok_name : ∃ nm, name e = Some nm ∧ h !! nm = Some (BName key);
  ok_data : ∀ b, data e = Some b → ∃ s, h !! b = Some (BData s);
  ok_queue : isReserved e = true → ∀ q, q ∈ queue e → ∃ k, h !! q = Some (BCallback k);
  ok_queue_nodup : isReserved e = true → NoDup (queue e);
  ok_ref : ∀ n, freeListRef e = Some n ↔ (n, Some p) ∈ fl;
  ok_zero : refCount e = 0%Z ↔ is_Some (freeListRef e);
  ok_size : is_size (refCount e) ∧ is_size (size e);
  ok_reserved : isReserved e = true → refCount e ≠ 0%Z;
}.

Record wf c fl : Prop := {
  wf_fifo : fifo_rep (freeList_ c) fl;
  wf_map : ∀ key p, cacheMap_ c !! key = Some p →
    ∃ e, entries c !! p = Some e ∧ entry_ok (heap c) fl key p e;
  wf_back : ∀ p, is_Some (entries c !! p) → ∃ key, cacheMap_ c !! key = Some p;
  wf_free : ∀ n d, (n, d) ∈ fl → ∃ p, d = Some p ∧ is_Some (entries c !! p);
  wf_disj : ∀ p1 p2 e1 e2 b, entries c !! p1 = Some e1 → entries c !! p2 = Some e2 →
    b ∈ owned e1 → b ∈ owned e2 → p1 = p2;
  wf_brk : ∀ l, (brk c ≤ l)%positive →
    heap c !! l = None ∧ entries c !! l = None ∧ freed c !! l = None;
  wf_size : is_size (currentSize_ c) ∧ is_size (sizeQuota_ c);
}.

(** No entry of the cache is responsible for the block [b]. *)
Definition unowned c (b : loc) : Prop :=
  ∀ p e, entries c !! p = Some e → b ∉ owned e.

Lemma owned_live h fl key p e b :
  entry_ok h fl key p e → b ∈ owned e → is_Some (h !! b).
Proof.
  intros He Hb. unfold owned in Hb. rewrite !elem_of_app in Hb.
  destruct Hb as [Hb|[Hb|Hb]].
  - destruct (ok_name _ _ _ _ _ He) as (nm & Hn & Hh). rewrite Hn in Hb.
    apply list_elem_of_singleton in Hb as ->. eauto.
  - destruct (data e) as [b'|] eqn:Hd; [|by apply elem_of_nil in Hb].
    apply list_elem_of_singleton in Hb as ->.
    destruct (ok_data _ _ _ _ _ He _ Hd) as [s ?]. eauto.
  - destruct (isReserved e) eqn:Hr; [|by apply elem_of_nil in Hb].
    destruct (ok_queue _ _ _ _ _ He Hr _ Hb) as [k ?]. eauto.
Qed.

Lemma wf_entry c fl p e :
  wf c fl → entries c !! p = Some e →
  ∃ key, cacheMap_ c !! key = Some p ∧ entry_ok (heap c) fl key p e.
Proof.
  intros Hwf He. destruct (wf_back _ _ Hwf p) as [key Hk]; [eauto|].
  exists key. split; [done|]. destruct (wf_map _ _ Hwf _ _ Hk) as (e' & He' & Hok).
  congruence.
Qed.

Lemma wf_inj c fl k1 k2 p :
  wf c fl → cacheMap_ c !! k1 = Some p → cacheMap_ c !! k2 = Some p → k1 = k2.
Proof.
  intros Hwf H1 H2. destruct (wf_map _ _ Hwf _ _ H1) as (e1 & He1 & Hok1).
  destruct (wf_map _ _ Hwf _ _ H2) as (e2 & He2 & Hok2).
  destruct (ok_name _ _ _ _ _ Hok1) as (n1 & Hn1 & Hh1).
  destruct (ok_name _ _ _ _ _ Hok2) as (n2 & Hn2 & Hh2). congruence.
Qed.

Lemma unowned_dead c fl b : wf c fl → heap c !! b = None → unowned c b.
Proof.
  intros Hwf Hb p e He Hin. destruct (wf_entry _ _ _ _ Hwf He) as (key & _ & Hok).
  destruct (owned_live _ _ _ _ _ _ Hok Hin) as [x Hx]. congruence.
Qed.

Lemma view_some c fl key e :
  wf c fl → view c key = Some e →
  ∃ p, cacheMap_ c !! key = Some p ∧ entries c !! p = Some e ∧
       entry_ok (heap c) fl key p e.
Proof.
  intros Hwf Hv. unfold view in Hv. destruct (cacheMap_ c !! key) as [p|] eqn:Hp; [|done].
  simpl in Hv. destruct (wf_map _ _ Hwf _ _ Hp) as (e' & He' & Hok).
  exists p. rewrite Hv in He'. by simplify_eq.
Qed.

Lemma view_none c fl key : wf c fl → view c key = None ↔ cacheMap_ c !! key = None.
Proof.
  intros Hwf. unfold view. destruct (cacheMap_ c !! key) as [p|] eqn:Hp; [|done]. simpl.
  destruct (wf_map _ _ Hwf _ _ Hp) as (e' & He' & _). by rewrite He'.
Qed.

Lemma wf_new quota h b :
  is_size quota → (∀ l, (b ≤ l)%positive → h !! l = None) →
  wf (new_cache quota h b : Cache K F) [].
Proof.
  intros Hq Hb. split; simpl; try done.
  - apply fifo_new_ok.
  - intros p [x Hx]. by rewrite lookup_empty in Hx.
  - intros n d Hin. by apply elem_of_nil in Hin.
  - intros l Hl. by rewrite Hb.
Qed.

(** ** The steps operations are made of preserve well-formedness *)

(** Only blocks and entries that no entry is responsible for may change. *)
Lemma entry_ok_heap h h' fl key p e :
  (∀ b, b ∈ owned e → h' !! b = h !! b) → entry_ok h fl key p e → entry_ok h' fl key p e.
Proof.
  intros Hh [Hn Hd Hq Hqn Hr Hz Hs Hres]. unfold owned in Hh. split; try done.
  - destruct Hn as (nm & Hn & Hh'). exists nm. split; [done|].
    rewrite Hh; [done|]. rewrite Hn. set_solver.
  - intros b Hb. rewrite Hh; [auto|]. rewrite Hb. set_solver.
  - intros Hr' q Hq'. rewrite Hh; [auto|]. rewrite Hr'. set_solver.
Qed.

Lemma wf_set_heap c fl h :
  wf c fl →
  (∀ b, ¬ unowned c b → h !! b = heap c !! b) →
  (∀ l, (brk c ≤ l)%positive → h !! l = None) →
  wf (set_heap h c) fl.
Proof.
  intros Hwf Hown Hbrk. destruct Hwf as [Hf Hm Hb Hfr Hd Hk Hs].
  split; simpl; try done.
  - intros key p Hp. destruct (Hm _ _ Hp) as (e & He & Hok). exists e. split; [done|].
    eapply entry_ok_heap; [|done]. intros b Hb'. apply Hown. intros Hu. by eapply Hu.
  - intros l Hl. destruct (Hk l Hl) as (_ & ? & ?). auto.
Qed.

Lemma wf_delete_block c fl b :
  wf c fl → unowned c b → wf (set_heap (delete b (heap c)) c) fl.
Proof.
  intros Hwf Hu. apply wf_set_heap; [done|..].
  - intros b' Hb'. apply lookup_delete_ne. naive_solver.
  - intros l Hl. apply lookup_delete_None. right. by apply (wf_brk _ _ Hwf).
Qed.

(** An entry may be changed as long as it stays correct and any block it
    takes over had no owner. *)
Lemma wf_update c fl key p e e' :
  wf c fl → cacheMap_ c !! key = Some p → entries c !! p = Some e →
  entry_ok (heap c) fl key p e' →
  (∀ b, b ∈ owned e' → b ∈ owned e ∨ unowned c b) →
  wf (set_entries (<[p := e']> (entries c)) c) fl.
Proof.
  intros Hwf Hp He Hok Hown. pose proof Hwf as [Hf Hm Hb Hfr Hd Hk Hs].
  split; simpl; try done.
  - intros key' p' Hp'. destruct (decide (p' = p)) as [->|Hne].
    + assert (key' = key) as -> by (by eapply wf_inj). rewrite lookup_insert_eq. eauto.
    + rewrite lookup_insert_ne by done. by apply Hm.
  - intros p' [Hp'|Hp']%lookup_insert_is_Some'; [subst p'; eauto|eauto].
  - intros n d Hn. destruct (Hfr _ _ Hn) as (p' & -> & Hp'). exists p'. split; [done|].
    apply lookup_insert_is_Some'. auto.
  - intros p1 p2 e1 e2 b H1 H2 Hb1 Hb2.
    rewrite lookup_insert in H1, H2.
    destruct (decide (p = p1)), (decide (p = p2)); simplify_eq; try done;
      [destruct (Hown _ Hb1) as [Ho|Ho]|destruct (Hown _ Hb2) as [Ho|Ho]|];
      try (exfalso; eapply Ho; by eauto); eauto.
  - intros l Hl. destruct (Hk l Hl) as (? & Hl2 & ?). split_and!; try done.
    rewrite lookup_insert_ne; [done|]. intros ->. congruence.
Qed.

Lemma view_update c fl key p e' :
  wf c fl → cacheMap_ c !! key = Some p →
  ∀ k, view (set_entries (<[p := e']> (entries c)) c) k =
       if decide (k = key) then Some e' else view c k.
Proof.
  intros Hwf Hp k. unfold view. simpl. case_decide as Hk.
  - subst. rewrite Hp. simpl. by rewrite lookup_insert_eq.
  - destruct (cacheMap_ c !! k) as [p'|] eqn:Hp'; [|done]. simpl.
    rewrite lookup_insert_ne; [done|]. intros ->. eauto using wf_inj.
Qed.

(** ** New blocks and new entries *)

(** The state after [new] put [b] at the address [brk c]. *)
Definition alloc_state (b : block K) c : Cache K F :=
  mkCache _ _ (sizeQuota_ c) (currentSize_ c) (cacheMap_ c) (freeList_ c)
    (entries c) (freed c) (<[brk c := b]> (heap c)) (Pos.succ (brk c)).

(** The state after a node for [key] was inserted in the hash map. *)
Definition insert_state (key : string) e c : Cache K F :=
  mkCache _ _ (sizeQuota_ c) (currentSize_ c) (<[key := brk c]> (cacheMap_ c))
    (freeList_ c) (<[brk c := e]> (entries c)) (freed c) (heap c) (Pos.succ (brk c)).

Lemma wf_brk_unowned c fl : wf c fl → unowned c (brk c).
Proof. intros Hwf. eapply unowned_dead; [done|]. apply (wf_brk _ _ Hwf). lia. Qed.

Lemma wf_alloc c fl b : wf c fl → wf (alloc_state b c) fl.
Proof.
  intros Hwf. pose proof (wf_brk_unowned _ _ Hwf) as Hu.
  destruct Hwf as [Hf Hm Hb Hfr Hd Hk Hs]. split; simpl; try done.
  - intros key p Hp. destruct (Hm _ _ Hp) as (e & He & Hok). exists e. split; [done|].
    eapply entry_ok_heap; [|done]. intros b' Hb'. apply lookup_insert_ne.
    intros <-. by eapply Hu.
  - intros l Hl. destruct (Hk l) as (? & ? & ?); [lia|].
    rewrite lookup_insert_ne by lia. auto.
Qed.

Lemma wf_insert c fl key e :
  wf c fl → cacheMap_ c !! key = None → entry_ok (heap c) fl key (brk c) e →
  (∀ b, b ∈ owned e → unowned c b) →
  wf (insert_state key e c) fl.
Proof.
  intros [Hf Hm Hb Hfr Hd Hk Hs] Hkey Hok Hown. split; simpl; try done.
  - intros key' p. rewrite lookup_insert. case_decide; [intros [= <-]; subst|].
    + rewrite lookup_insert_eq. eauto.
    + intros Hp. destruct (Hm _ _ Hp) as (e' & He' & Hok'). exists e'. split; [|done].
      rewrite lookup_insert_ne; [done|]. intros Hbp. rewrite <-Hbp in He'.
      destruct (Hk (brk c)) as (_ & ? & _); [lia|]. congruence.
  - intros p [Hp|Hp]%lookup_insert_is_Some'.
    + exists key. rewrite <-Hp. apply lookup_insert_eq.
    + destruct (Hb _ Hp) as [key' Hkey']. exists key'. rewrite lookup_insert_ne; congruence.
  - intros n d Hn. destruct (Hfr _ _ Hn) as (p & -> & Hp). exists p. split; [done|].
    apply lookup_insert_is_Some'. auto.
  - intros p1 p2 e1 e2 b H1 H2 Hb1 Hb2. rewrite lookup_insert in H1, H2.
    destruct (decide (brk c = p1)), (decide (brk c = p2)); simplify_eq; try done;
      try (exfalso; eapply Hown; by eauto); eauto.
  - intros l Hl. destruct (Hk l) as (? & ? & ?); [lia|].
    rewrite lookup_insert_ne by lia. auto.
Qed.

(** The entry of a node that was just constructed. *)
Lemma new_entry_ok c fl key nm buf sz (r : bool) :
  wf c fl → heap c !! nm = Some (BName key) → is_size sz →
  (∀ b, buf = Some b → ∃ s, heap c !! b = Some (BData s)) →
  entry_ok (heap c) fl key (brk c) (mkEntry (Some nm) buf sz 1 None r []).
Proof.
  intros Hwf Hnm Hsz Hbuf. split; simpl; eauto.
  - intros _ q Hq. by apply elem_of_nil in Hq.
  - intros _. apply NoDup_nil_2.
  - intros n. split; [done|]. intros Hin.
    destruct (wf_free _ _ Hwf _ _ Hin) as (p & [= <-] & [e He]).
    destruct (wf_brk _ _ Hwf (brk c)) as (_ & ? & _); [lia|]. congruence.
  - split; [done|]. by intros [].
  - done.
Qed.

Lemma view_insert c fl key e :
  wf c fl → cacheMap_ c !! key = None →
  ∀ k, view (insert_state key e c) k = if decide (k = key) then Some e else view c k.
Proof.
  intros Hwf Hkey k. unfold view. simpl. rewrite lookup_insert.
  destruct (decide (key = k)) as [->|Hne]; simpl.
  - rewrite decide_True by done. apply lookup_insert_eq.
  - rewrite decide_False by done. destruct (cacheMap_ c !! k) as [p|] eqn:Hp; [|done].
    simpl. apply lookup_insert_ne. intros <-.
    destruct (wf_map _ _ Hwf _ _ Hp) as (e' & He' & _).
    destruct (wf_brk _ _ Hwf (brk c)) as (_ & ? & _); [lia|]. congruence.
Qed.

(** ** The free list *)

(** The free list and the entry of one node change together. *)
Lemma wf_relist c fl fl' l key p e e' :
  wf c fl → cacheMap_ c !! key = Some p → entries c !! p = Some e →
  fifo_rep l fl' →
  (∀ q m, q ≠ p → (m, Some q) ∈ fl' ↔ (m, Some q) ∈ fl) →
  (∀ m d, (m, d) ∈ fl' → (m, d) ∈ fl ∨ d = Some p) →
  owned e' = owned e → entry_ok (heap c) fl' key p e' →
  wf (set_entries (<[p := e']> (entries c)) (set_freeList l c)) fl'.
Proof.
  intros Hwf Hp He Hl Hother Hin Hown Hok.
  pose proof Hwf as [Hf Hm Hb Hfr Hd Hk Hs]. split; simpl; try done.
  - intros key' q Hq. destruct (decide (q = p)) as [->|Hne].
    + assert (key' = key) as -> by (by eapply wf_inj). rewrite lookup_insert_eq. eauto.
    + rewrite lookup_insert_ne by done. destruct (Hm _ _ Hq) as (x & Hx & Hok').
      exists x. split; [done|]. destruct Hok'. split; try done. intros m.
      by rewrite Hother.
  - intros q [Hq|Hq]%lookup_insert_is_Some'; [subst; eauto|auto].
  - intros m d Hm'. destruct (Hin _ _ Hm') as [Hm''| ->].
    + destruct (Hfr _ _ Hm'') as (q & -> & Hq). exists q. split; [done|].
      apply lookup_insert_is_Some'. auto.
    + exists p. split; [done|]. apply lookup_insert_is_Some'. auto.
  - intros p1 p2 e1 e2 b H1 H2 Hb1 Hb2.
    assert (Hsame : ∀ q x, <[p:=e']> (entries c) !! q = Some x →
      ∃ y, entries c !! q = Some y ∧ owned x = owned y).
    { intros q x. rewrite lookup_insert. case_decide; [intros [= <-]; subst|]; eauto. }
    destruct (Hsame _ _ H1) as (y1 & ? & Ho1). destruct (Hsame _ _ H2) as (y2 & ? & Ho2).
    rewrite Ho1 in Hb1. rewrite Ho2 in Hb2. eauto.
  - intros q Hq. destruct (Hk q Hq) as (? & Hq2 & ?). split_and!; try done.
    rewrite lookup_insert_ne; [done|]. intros ->. congruence.
Qed.

(** A node no one refers to any more enters the free list. *)
Lemma wf_push c fl key p e n l :
  wf c fl → cacheMap_ c !! key = Some p → entries c !! p = Some e →
  isReserved e = false → n ∉ fl.*1 → fifo_rep l (fl ++ [(n, Some p)]) →
  freeListRef e = None →
  wf (set_entries (<[p := with_freeListRef (Some n) (with_refCount 0 e)]> (entries c))
       (set_freeList l c)) (fl ++ [(n, Some p)]).
Proof.
  intros Hwf Hp He Hr Hn Hl Hnone.
  destruct (wf_map _ _ Hwf _ _ Hp) as (e0 & He0 & Hok). rewrite He in He0.
  injection He0 as <-. eapply wf_relist; try done.
  - intros q m Hq. rewrite elem_of_app, list_elem_of_singleton. naive_solver.
  - intros m d. rewrite elem_of_app, list_elem_of_singleton. naive_solver.
  - destruct Hok as [On Od Oq Oqn Or Oz Os Ores].
    split; simpl; eauto; try congruence.
    + intros m. rewrite elem_of_app, list_elem_of_singleton. split; [naive_solver|].
      intros [Hm'|[= ->]]; [|done]. apply Or in Hm'. congruence.
    + split; [eauto|done].
    + split; [done|]. apply Os.
Qed.

(** A node of the free list is used again. *)
Lemma wf_unfree c l1 l2 key p e n l r :
  wf c (l1 ++ (n, Some p) :: l2) → cacheMap_ c !! key = Some p →
  entries c !! p = Some e → fifo_rep l (l1 ++ l2) → is_size r → r ≠ 0%Z →
  wf (set_entries (<[p := with_freeListRef None (with_refCount r e)]> (entries c))
       (set_freeList l c)) (l1 ++ l2).
Proof.
  intros Hwf Hp He Hl Hr Hr0.
  destruct (wf_map _ _ Hwf _ _ Hp) as (e0 & He0 & Hok). rewrite He in He0.
  injection He0 as <-.
  assert (Hsub : ∀ x, x ∈ l1 ++ l2 → x ∈ l1 ++ (n, Some p) :: l2) by set_solver.
  eapply wf_relist; try done.
  - intros q m Hq. rewrite !elem_of_app, elem_of_cons. naive_solver.
  - auto.
  - destruct Hok as [On Od Oq Oqn Or Oz Os Ores]. split; simpl; eauto.
    + intros m. split; [done|]. intros Hm. exfalso.
      assert (freeListRef e = Some m) as Hem by (apply Or; auto).
      assert (freeListRef e = Some n) as Hen by (apply Or; set_solver).
      assert (m = n) as -> by congruence.
      pose proof (fifo_rep_NoDup _ _ (wf_fifo _ _ Hwf)) as Hnd.
      rewrite fmap_app in Hnd. csimpl in Hnd. apply NoDup_app in Hnd as (_ & Hd & Hnd).
      apply NoDup_cons in Hnd as [Hn2 _]. 
      assert (n ∈ (l1 ++ l2).*1) as Hm1 by (apply list_elem_of_fmap; by eexists (n, _)).
      rewrite fmap_app, elem_of_app in Hm1.
      destruct Hm1 as [Hm1|Hm1]; [|done]. specialize (Hd _ Hm1). set_solver.
    + split; [done|]. by intros [].
    + split; [done|]. apply Os.
Qed.

End wf.
End Cache.
