(* ===== verification/CacheProps.v ===== *)
(** The contract of the cache: what [put], [get], [reserve],
    [cancelReservation], [doneWith] and [cleanup] of [Cache] do on a
    well-formed cache, branch by branch, for clients whose callbacks do not
    call back into the cache ([PassiveClient]). *)
From S2P Require Import Prelude FastFIFO Cache.

Module CacheProps.
Import Cache.

(** A client whose callbacks only record that they were called. *)
Class PassiveClient (W K F : Type) `{HC : !CacheClient W K F} := {
  log : W → list (K * CacheData);
  cache_of_set : ∀ c w, cache_of (set_cache c w) = c;
  log_set : ∀ c w, log (set_cache c w) = log w;
  run_passive : ∀ k d w, ∃ w', run_callback k d w = Ok (tt, w') ∧
    cache_of w' = cache_of w ∧ log w' = log w ++ [(k, d)];
}.

(** * Single steps *)

Section steps.
Context {K F : Type} `{HF : FIFO F loc} `{HP : Platform}.
Implicit Types (c : Cache K F) (e : CacheEntry).

Lemma load_entry_ok p c e : entries c !! p = Some e → load_entry p c = Ok (e, c).
Proof. unfold load_entry. by intros ->. Qed.

Lemma update_entry_ok p g c e :
  entries c !! p = Some e →
  update_entry p g c = Ok (tt, set_entries (<[p := g e]> (entries c)) c).
Proof.
  intros He. unfold update_entry. rewrite (pbind_ok _ _ _ _ _ (load_entry_ok _ _ _ He)).
  unfold pmodify. by rewrite He.
Qed.

Lemma load_block_ok p c b : heap c !! p = Some b → load_block p c = Ok (b, c).
Proof. unfold load_block. by intros ->. Qed.

Lemma free_block_ok p c b :
  heap c !! p = Some b → free_block (Some p) c = Ok (tt, set_heap (delete p (heap c)) c).
Proof. intros Hb. simpl. by rewrite Hb. Qed.

Lemma strCpy_ok key c :
  String.length key < usable (String.length key) →
  strCpy key c = Ok (brk c, alloc_state (BName key) c).
Proof.
  intros Hlen. unfold strCpy. prun. apply Nat.ltb_lt in Hlen. by rewrite Hlen.
Qed.

(** Without the spare byte the terminator is written past the block. *)
Lemma strCpy_fault key c :
  ¬ String.length key < usable (String.length key) → strCpy key c = Fault HeapOverflow.
Proof. intros Hlen. unfold strCpy. prun. by rewrite (proj2 (Nat.ltb_ge _ _)) by lia. Qed.

Lemma map_insert_new key e c :
  cacheMap_ c !! key = None → map_insert key e c = Ok ((brk c, true), insert_state key e c).
Proof. unfold map_insert. by intros ->. Qed.

Lemma map_insert_old key e c p :
  cacheMap_ c !! key = Some p → map_insert key e c = Ok ((p, false), c).
Proof. unfold map_insert. by intros ->. Qed.

End steps.

(** * Running operations in the state of a passive client *)

Section runs.
Context {W K F : Type} `{HF : FIFO F loc} `{HP : Platform}.
Context `{HC : !CacheClient W K F} `{HPC : !PassiveClient W K F}.
Implicit Types (c : Cache K F) (w : W).

(** [m] returns [a] with the cache in state [c] and the calls [l] logged. *)
Definition runs {A} (m : prog W A) w a c (l : list (K * CacheData)) : Prop :=
  ∃ w', m w = Ok (a, w') ∧ cache_of w' = c ∧ log w' = l.

Lemma runs_ret {A} (a : A) w : runs (pret a) w a (cache_of w) (log w).
Proof. by exists w. Qed.

Lemma runs_bind {A B} (m : prog W A) (k : A → prog W B) w a c l b c' l' :
  runs m w a c l →
  (∀ w1, cache_of w1 = c → log w1 = l → runs (k a) w1 b c' l') →
  runs (pbind m k) w b c' l'.
Proof.
  intros (w1 & Hm & Hc & Hl) Hk. destruct (Hk w1 Hc Hl) as (w2 & Hk2 & Hc2 & Hl2).
  exists w2. by rewrite (pbind_ok _ _ _ _ _ Hm).
Qed.

Lemma runs_lift {A} (m : prog (Cache K F) A) w a c :
  m (cache_of w) = Ok (a, c) → runs (lift m) w a c (log w).
Proof.
  intros Hm. exists (set_cache c w). unfold lift. rewrite Hm.
  by rewrite cache_of_set, log_set.
Qed.

(** The same with the final state and log given by equations. *)
Lemma runs_ret_eq {A} (a : A) w c l :
  cache_of w = c → log w = l → runs (pret a) w a c l.
Proof. intros <- <-. apply runs_ret. Qed.

Lemma runs_lift_eq {A} (m : prog (Cache K F) A) w a c l :
  m (cache_of w) = Ok (a, c) → log w = l → runs (lift m) w a c l.
Proof. intros Hm <-. by apply runs_lift. Qed.

Lemma runs_call cb d w k :
  heap (cache_of w) !! cb = Some (BCallback k) →
  runs (call cb d) w tt (cache_of w) (log w ++ [(k, d)]).
Proof.
  intros Hcb. unfold call. eapply runs_bind.
  { apply runs_lift. by apply load_block_ok. }
  intros w1 Hc Hl. destruct (run_passive k d w1) as (w2 & Hrun & Hc2 & Hl2).
  exists w2. rewrite Hrun, Hc2, Hl2. by rewrite Hc, Hl.
Qed.

(** ** The loops over a queue of callbacks *)

Definition delete_blocks (bs : list loc) (h : gmap loc (block K)) : gmap loc (block K) :=
  foldl (λ h b, delete b h) h bs.

(** The closures the callbacks of a queue hold. *)
Definition closures (h : gmap loc (block K)) (q : list loc) (ks : list K) : Prop :=
  Forall2 (λ cb k, h !! cb = Some (BCallback k)) q ks.

Lemma delete_blocks_lookup bs h b :
  delete_blocks bs h !! b = if decide (b ∈ bs) then None else h !! b.
Proof.
  revert h. induction bs as [|b' bs IH]; intros h; [done|]. simpl. rewrite IH.
  destruct (decide (b = b')) as [->|Hne].
  - rewrite lookup_delete_eq. repeat case_decide; first [done|set_solver].
  - rewrite lookup_delete_ne by done. repeat case_decide; first [done|set_solver].
Qed.

Lemma closures_delete h b q ks :
  b ∉ q → closures h q ks → closures (delete b h) q ks.
Proof.
  intros Hb Hks. induction Hks as [|cb k q ks Hcb Hks IH]; constructor.
  - rewrite lookup_delete_ne; [done|]. set_solver.
  - apply IH. set_solver.
Qed.

Lemma put_loop_runs d p q ks : ∀ fuel i w c e,
  cache_of w = c → entries c !! p = Some e → drop i (queue e) = q →
  closures (heap c) q ks → NoDup q → (length q < fuel)%nat →
  is_size (refCount e) → (refCount e + Z.of_nat (length q) < size_t_mod)%Z →
  runs (put_loop fuel p i d) w tt
    (set_heap (delete_blocks q (heap c))
      (set_entries (<[p := with_refCount (refCount e + Z.of_nat (length q)) e]> (entries c)) c))
    (log w ++ map (λ k, (k, d)) ks).
Proof.
  intros fuel. revert q ks. induction fuel as [|fuel IH];
    intros q ks i w c e Hc He Hq Hks Hnd Hfuel Hsz Hwrap; [lia|]. simpl.
  eapply runs_bind; [apply runs_lift; rewrite Hc; by apply load_entry_ok|].
  intros w1 Hc1 Hl1. destruct q as [|cb q].
  - assert (queue e !! i = None) as -> by (by rewrite <-(Nat.add_0_r i), <-lookup_drop, Hq).
    apply Forall2_nil_inv_l in Hks as ->. rewrite Z.add_0_r, app_nil_r.
    replace (set_heap _ _) with c; [rewrite <-Hc1, <-Hl1; apply runs_ret|].
    destruct e, c. unfold set_heap, set_entries. simpl in *. by rewrite insert_id.
  - assert (queue e !! i = Some cb) as -> by (by rewrite <-(Nat.add_0_r i), <-lookup_drop, Hq).
    apply Forall2_cons_inv_l in Hks as (k & ks' & Hcb & Hks' & ->).
    apply NoDup_cons in Hnd as [Hcbq Hnd]. csimpl in *.
    eapply runs_bind; [apply runs_lift; rewrite Hc1; by apply update_entry_ok|].
    intros w2 Hc2 Hl2. eapply runs_bind; [eapply runs_call; by rewrite Hc2|].
    intros w3 Hc3 Hl3. eapply runs_bind.
    { apply runs_lift. rewrite Hc3, Hc2. by eapply (free_block_ok cb). }
    intros w4 Hc4 Hl4.
    rewrite wrap_size_id in * by (unfold is_size in *; lia).
    specialize (IH q ks' (S i) w4 _ (with_refCount (refCount e + 1) e) eq_refl).
    rewrite Hc4 in IH. simpl in IH. rewrite lookup_insert_eq in IH.
    assert (Hdrop : drop (S i) (queue e) = q).
    { rewrite <-Nat.add_1_r, <-drop_drop, Hq. done. }
    destruct IH as (w5 & Hrun & Hc5 & Hl5); try done.
    { by apply closures_delete. } { lia. }
    { simpl. unfold is_size in *. lia. } { simpl. lia. }
    exists w5. split; [done|]. split.
    + rewrite Hc5. unfold set_heap, set_entries. simpl. rewrite insert_insert_eq.
      unfold with_refCount. simpl.
      by replace (refCount e + Z.of_nat (S (length q)))%Z
        with (refCount e + 1 + Z.of_nat (length q))%Z by lia.
    + rewrite Hl5, Hl4, Hl3, Hl2, Hl1. by rewrite <-app_assoc.
Qed.

Lemma cancel_loop_runs p q ks : ∀ fuel i w c e,
  cache_of w = c → entries c !! p = Some e → drop i (queue e) = q →
  closures (heap c) q ks → NoDup q → (length q < fuel)%nat →
  runs (cancel_loop fuel p i) w tt (set_heap (delete_blocks q (heap c)) c)
    (log w ++ map (λ k, (k, mkCacheData None 0 false)) ks).
Proof.
  intros fuel. revert q ks. induction fuel as [|fuel IH];
    intros q ks i w c e Hc He Hq Hks Hnd Hfuel; [lia|]. simpl.
  eapply runs_bind; [apply runs_lift; rewrite Hc; by apply load_entry_ok|].
  intros w1 Hc1 Hl1. destruct q as [|cb q].
  - assert (queue e !! i = None) as -> by (by rewrite <-(Nat.add_0_r i), <-lookup_drop, Hq).
    apply Forall2_nil_inv_l in Hks as ->. rewrite app_nil_r.
    replace (set_heap _ _) with c by (by destruct c).
    rewrite <-Hc1, <-Hl1. apply runs_ret.
  - assert (queue e !! i = Some cb) as -> by (by rewrite <-(Nat.add_0_r i), <-lookup_drop, Hq).
    apply Forall2_cons_inv_l in Hks as (k & ks' & Hcb & Hks' & ->).
    apply NoDup_cons in Hnd as [Hcbq Hnd]. csimpl in *.
    eapply runs_bind; [eapply runs_call; by rewrite Hc1|].
    intros w3 Hc3 Hl3. eapply runs_bind.
    { apply runs_lift. rewrite Hc3, Hc1. by eapply (free_block_ok cb). }
    intros w4 Hc4 Hl4.
    assert (Hdrop : drop (S i) (queue e) = q) by (by rewrite <-Nat.add_1_r, <-drop_drop, Hq).
    destruct (IH q ks' (S i) w4 _ e Hc4) as (w5 & Hrun & Hc5 & Hl5); try done.
    { by apply closures_delete. } { lia. }
    exists w5. split; [done|]. split; [by rewrite Hc5|].
    rewrite Hl5, Hl4, Hl3, Hl1. by rewrite <-app_assoc.
Qed.

Lemma reserved_closures c fl key p e :
  entry_ok (heap c) fl key p e → isReserved e = true →
  ∃ ks, closures (heap c) (queue e) ks.
Proof.
  intros Hok Hr. pose proof (ok_queue _ _ _ _ _ Hok Hr) as Hq. unfold closures.
  induction (queue e) as [|q l IH]; [exists []; constructor|].
  destruct (Hq q) as [k Hk]; [set_solver|].
  destruct IH as [ks Hks]; [intros; apply Hq; set_solver|].
  exists (k :: ks). by constructor.
Qed.

End runs.

(** * The operations, branch by branch *)

Section branches.
Context {W K F : Type} `{HF : FIFO F loc} `{HL : !FIFOLaws F loc} `{HP : Platform}.
Context `{HC : !CacheClient W K F} `{HPC : !PassiveClient W K F}.
Implicit Types (c : Cache K F) (w : W) (e : CacheEntry) (fl : list (loc * option loc)).

Lemma wf_delete_blocks c fl bs :
  wf c fl → (∀ b, b ∈ bs → unowned c b) → wf (set_heap (delete_blocks bs (heap c)) c) fl.
Proof.
  intros Hwf Hu. apply wf_set_heap; [done|..].
  - intros b Hb. rewrite delete_blocks_lookup. case_decide; [naive_solver|done].
  - intros l Hl. rewrite delete_blocks_lookup. case_decide; [done|].
    by apply (wf_brk _ _ Hwf).
Qed.

Lemma set_freeList_id c : set_freeList (freeList_ c) c = c.
Proof. by destruct c. Qed.

Lemma wf_set_currentSize c fl z : wf c fl → is_size z → wf (set_currentSize z c) fl.
Proof. intros [? ? ? ? ? ? [_ ?]] Hz. by split. Qed.

(** Giving back the copy of the key that [put] or [reserve] did not need. *)
Lemma free_copy_state c fl b :
  wf c fl → delete (brk c) (<[brk c := b]> (heap c)) = heap c.
Proof. intros Hwf. apply delete_insert_id. apply (wf_brk _ _ Hwf). lia. Qed.

(** The buffer handed to [put]: live, and no entry's yet. *)
Definition fresh_buffer c (buf : option loc) : Prop :=
  ∀ b, buf = Some b → unowned c b ∧ ∃ s, heap c !! b = Some (BData s).

(** The callback handed to [get]: live, and in no entry's queue. *)
Definition fresh_callback c (cb : loc) (k : K) : Prop :=
  unowned c cb ∧ heap c !! cb = Some (BCallback k).

Lemma fresh_buffer_alloc c fl x buf :
  wf c fl → fresh_buffer c buf → fresh_buffer (alloc_state x c) buf.
Proof.
  intros Hwf Hbuf b Hb. destruct (Hbuf b Hb) as [Hu [s Hs]]. split; [exact Hu|].
  exists s. simpl. rewrite lookup_insert_ne; [done|]. intros Heq.
  destruct (wf_brk _ _ Hwf (brk c)) as (Hn & _); [lia|]. congruence.
Qed.

(** The well-formed state after a node with a fresh name was inserted. *)
Lemma wf_insert_named c fl key buf sz r :
  wf c fl → cacheMap_ c !! key = None → is_size sz → fresh_buffer c buf →
  wf (insert_state key (mkEntry (Some (brk c)) buf sz 1 None r [])
       (alloc_state (BName key) c)) fl.
Proof.
  intros Hwf Hkey Hsz Hbuf. pose proof (wf_alloc _ _ (BName key) Hwf) as Hwf1.
  pose proof (fresh_buffer_alloc _ _ (BName key) _ Hwf Hbuf) as Hbuf1.
  apply wf_insert; [done|done|..].
  - eapply new_entry_ok; [done| |done|].
    + simpl. by rewrite lookup_insert_eq.
    + intros b Hb. by apply Hbuf1.
  - intros b. unfold owned. simpl. intros [->|Hb]%elem_of_cons.
    + by eapply (wf_brk_unowned c).
    + assert (b ∈ option_list buf) as Hb' by (destruct r; set_solver).
      destruct buf as [b'|]; [|by apply elem_of_nil in Hb'].
      apply list_elem_of_singleton in Hb' as ->. by apply Hbuf1.
Qed.

Lemma put_new_runs w fl fuel key buf sz :
  wf (cache_of w) fl → cacheMap_ (cache_of w) !! key = None →
  String.length key < usable (String.length key) →
  runs (put fuel key buf sz) w true
    (set_currentSize (wrap_size (currentSize_ (cache_of w) + sz))
      (insert_state key (CacheEntry_full (brk (cache_of w)) buf sz)
        (alloc_state (BName key) (cache_of w)))) (log w).
Proof.
  intros Hwf Hkey Hlen. unfold put.
  eapply runs_bind; [apply runs_lift; by apply strCpy_ok|]. intros w1 Hc1 Hl1.
  eapply runs_bind; [apply runs_lift; rewrite Hc1; by apply map_insert_new|].
  intros w2 Hc2 Hl2. eapply runs_bind; [by apply runs_lift|]. intros w3 Hc3 Hl3.
  rewrite <-Hl1, <-Hl2, <-Hl3. rewrite Hc2 in Hc3. simpl in Hc3. rewrite <-Hc3. apply runs_ret.
Qed.

(** An insertion that finds the key taken leaves the cache as it was, apart
    from the address the key's copy had. *)
Definition skip_address c : Cache K F :=
  mkCache _ _ (sizeQuota_ c) (currentSize_ c) (cacheMap_ c) (freeList_ c)
    (entries c) (freed c) (heap c) (Pos.succ (brk c)).

Lemma wf_skip_address c fl : wf c fl → wf (skip_address c) fl.
Proof.
  intros [? ? ? ? ? Hk ?]. split; try done. intros l Hl. apply Hk. simpl in Hl. lia.
Qed.

Lemma put_taken_runs w fl fuel key p e buf sz :
  wf (cache_of w) fl → cacheMap_ (cache_of w) !! key = Some p →
  entries (cache_of w) !! p = Some e → isReserved e = false →
  String.length key < usable (String.length key) →
  runs (put fuel key buf sz) w false (skip_address (cache_of w)) (log w).
Proof.
  intros Hwf Hp He Hr Hlen. unfold put.
  eapply runs_bind; [apply runs_lift; by apply strCpy_ok|]. intros w1 Hc1 Hl1.
  eapply runs_bind; [apply runs_lift; rewrite Hc1; by apply map_insert_old|].
  intros w2 Hc2 Hl2. eapply runs_bind; [apply runs_lift; rewrite Hc2; by apply load_entry_ok|].
  intros w3 Hc3 Hl3. rewrite Hr. eapply runs_bind; [apply runs_ret|].
  intros w4 Hc4 Hl4. eapply runs_bind.
  { apply runs_lift. rewrite Hc4, Hc3. eapply free_block_ok. simpl.
    by rewrite lookup_insert_eq. }
  intros w5 Hc5 Hl5. rewrite <-Hl1, <-Hl2, <-Hl3, <-Hl4, <-Hl5.
  replace (skip_address _) with (cache_of w5); [apply runs_ret|].
  rewrite Hc5. unfold set_heap, skip_address. simpl. by rewrite (free_copy_state _ fl).
Qed.

Definition filled e (buf : option loc) (sz : Z) : CacheEntry :=
  with_isReserved false
    (with_refCount (refCount e + Z.of_nat (length (queue e))) (with_data buf sz e)).

Lemma put_reserved_runs w fl fuel key p e buf sz ks :
  wf (cache_of w) fl → cacheMap_ (cache_of w) !! key = Some p →
  entries (cache_of w) !! p = Some e → isReserved e = true →
  String.length key < usable (String.length key) →
  closures (heap (cache_of w)) (queue e) ks → (length (queue e) < fuel)%nat →
  (refCount e + Z.of_nat (length (queue e)) < size_t_mod)%Z →
  runs (put fuel key buf sz) w true
    (set_heap (delete_blocks (queue e) (heap (cache_of w)))
      (set_entries (<[p := filled e buf sz]> (entries (cache_of w)))
        (skip_address (cache_of w))))
    (log w ++ map (λ k, (k, mkCacheData buf sz true)) ks).
Proof.
  intros Hwf Hp He Hr Hlen Hks Hfuel Hwrap.
  destruct (wf_map _ _ Hwf _ _ Hp) as (e0 & He0 & Hok). rewrite He in He0.
  injection He0 as <-. 
  assert (Hbq : brk (cache_of w) ∉ queue e).
  { intros Hin. destruct (ok_queue _ _ _ _ _ Hok Hr _ Hin) as [k Hk].
    destruct (wf_brk _ _ Hwf (brk (cache_of w))) as (Hn & _); [lia|]. congruence. }
  unfold put. eapply runs_bind; [apply runs_lift; by apply strCpy_ok|].
  intros w1 Hc1 Hl1.
  eapply runs_bind; [apply runs_lift; rewrite Hc1; by apply map_insert_old|].
  intros w2 Hc2 Hl2. eapply runs_bind; [apply runs_lift; rewrite Hc2; by apply load_entry_ok|].
  intros w3 Hc3 Hl3. rewrite Hr. eapply runs_bind.
  { eapply runs_bind; [apply runs_lift; rewrite Hc3; by apply update_entry_ok|].
    intros w4 Hc4 Hl4. eapply runs_bind.
    { apply (put_loop_runs _ p (queue e) ks fuel 0 w4 _ (with_data buf sz e) Hc4);
        try done; simpl.
      - by rewrite lookup_insert_eq.
      - unfold closures in *. eapply Forall2_impl; [done|].
        intros cb k Hcb. simpl. rewrite lookup_insert_ne; [done|]. intros <-.
        destruct (wf_brk _ _ Hwf (brk (cache_of w))) as (Hn & _); [lia|]. congruence.
      - by eapply ok_queue_nodup.
      - apply Hok. }
    intros w5 Hc5 Hl5. eapply runs_lift_eq.
    - rewrite Hc5. apply update_entry_ok. simpl. by rewrite lookup_insert_eq.
    - rewrite Hl5, Hl4, Hl3, Hl2, Hl1. reflexivity. }
  intros w6 Hc6 Hl6. eapply runs_bind.
  { eapply runs_lift_eq; [|exact Hl6]. rewrite Hc6. eapply free_block_ok. simpl.
    rewrite delete_blocks_lookup, decide_False by done. by rewrite lookup_insert_eq. }
  intros w7 Hc7 Hl7. apply runs_ret_eq; [|done]. rewrite Hc7.
  unfold set_heap, set_entries, skip_address. simpl.
  rewrite !insert_insert_eq. f_equal.
  apply map_eq. intros b. rewrite lookup_delete, !delete_blocks_lookup, lookup_insert.
  repeat case_decide; subst; try done. by destruct (wf_brk _ _ Hwf (brk (cache_of w))) as (-> & _); [lia|].
Qed.

(** Giving away a callback's block leaves every entry correct. *)
Lemma wf_take_callback c fl key p e cb k :
  wf c fl → cacheMap_ c !! key = Some p → entries c !! p = Some e → isReserved e = true →
  fresh_callback c cb k →
  wf (set_entries (<[p := with_queue (queue e ++ [cb]) e]> (entries c)) c) fl.
Proof.
  intros Hwf Hp He Hr [Hu Hcb].
  destruct (wf_map _ _ Hwf _ _ Hp) as (e0 & He0 & Hok). rewrite He in He0.
  injection He0 as <-. pose proof (Hu _ _ He) as Hnot. unfold owned in Hnot.
  eapply wf_update; try done.
  - destruct Hok as [On Od Oq Oqn Or Oz Os Ores]. split; simpl; eauto.
    + intros _ q [Hq| ->%list_elem_of_singleton]%elem_of_app; eauto.
    + intros _. apply NoDup_app. split; [auto|]. split; [|apply NoDup_singleton].
      intros q Hq ->%list_elem_of_singleton. rewrite Hr in Hnot. set_solver.
  - intros b. unfold owned. simpl. rewrite Hr, !elem_of_app, list_elem_of_singleton.
    naive_solver.
Qed.

Lemma get_miss_runs w fl key cb k :
  wf (cache_of w) fl → cacheMap_ (cache_of w) !! key = None →
  fresh_callback (cache_of w) cb k →
  runs (get key (Some cb)) w false
    (set_heap (delete cb (heap (cache_of w))) (cache_of w)) (log w).
Proof.
  intros Hwf Hkey [_ Hcb]. unfold get.
  eapply runs_bind; [by apply runs_lift|]. intros w1 Hc1 Hl1. rewrite Hkey.
  eapply runs_bind; [apply runs_lift; rewrite Hc1; by eapply free_block_ok|].
  intros w2 Hc2 Hl2. apply runs_ret_eq; congruence.
Qed.

Lemma get_reserved_runs w fl key p e cb :
  wf (cache_of w) fl → cacheMap_ (cache_of w) !! key = Some p →
  entries (cache_of w) !! p = Some e → isReserved e = true →
  runs (get key (Some cb)) w true
    (set_entries (<[p := with_queue (queue e ++ [cb]) e]> (entries (cache_of w)))
      (cache_of w)) (log w).
Proof.
  intros Hwf Hp He Hr. unfold get.
  eapply runs_bind; [by apply runs_lift|]. intros w1 Hc1 Hl1. rewrite Hp.
  eapply runs_bind; [apply runs_lift; rewrite Hc1; by apply load_entry_ok|].
  intros w2 Hc2 Hl2. rewrite Hr. eapply runs_bind.
  { apply runs_lift. rewrite Hc2. by apply update_entry_ok. }
  intros w3 Hc3 Hl3. apply runs_ret_eq; congruence.
Qed.

(** A hit: the callback runs once on the data, the entry gains a reference
    and leaves the free list. *)
Lemma get_hit_runs w fl key p e cb k :
  wf (cache_of w) fl → cacheMap_ (cache_of w) !! key = Some p →
  entries (cache_of w) !! p = Some e → isReserved e = false →
  fresh_callback (cache_of w) cb k → (refCount e + 1 < size_t_mod)%Z →
  ∃ l fl',
    runs (get key (Some cb)) w true
      (set_heap (delete cb (heap (cache_of w)))
        (set_entries (<[p := with_freeListRef None (with_refCount (refCount e + 1) e)]>
                        (entries (cache_of w)))
          (set_freeList l (cache_of w))))
      (log w ++ [(k, mkCacheData (data e) (size e) true)]) ∧
    sublist fl' fl ∧
    wf (set_entries (<[p := with_freeListRef None (with_refCount (refCount e + 1) e)]>
                       (entries (cache_of w)))
         (set_freeList l (cache_of w))) fl'.
Proof.
  intros Hwf Hp He Hr [Hu Hcb] Hwrap.
  destruct (wf_map _ _ Hwf _ _ Hp) as (e0 & He0 & Hok). rewrite He in He0.
  injection He0 as <-. pose proof (ok_size _ _ _ _ _ Hok) as [Hsz _].
  set (e1 := with_refCount (refCount e + 1) e).
  assert (Hw : wrap_size (refCount e + 1) = (refCount e + 1)%Z)
    by (apply wrap_size_id; unfold is_size in *; lia).
  set (c := cache_of w) in *.
  assert (Hpre : ∀ c' l',
    (∀ w5, cache_of w5 = set_entries (<[p := e1]> (entries c)) c →
      log w5 = log w ++ [(k, mkCacheData (data e) (size e) true)] →
      runs (let! e := lift (load_entry p) in
            match freeListRef e with
            | Some _ =>
              lift (freeList (fifo_remove (freeListRef e))) ;;;
              lift (update_entry p (with_freeListRef None))
            | None => pret tt
            end ;;;
            lift (free_block (Some cb))) w5 tt c' l') →
    runs (get key (Some cb)) w true c' l').
  { intros c' l' Hk'. unfold get.
    eapply runs_bind; [by apply runs_lift|]. intros w1 Hc1 Hl1. fold c. rewrite Hp.
    eapply runs_bind; [apply runs_lift; rewrite Hc1; by apply load_entry_ok|].
    intros w2 Hc2 Hl2. rewrite Hr. eapply runs_bind.
    { eapply runs_bind; [apply runs_ret|]. intros w3 Hc3 Hl3.
      eapply runs_bind; [eapply runs_call; rewrite Hc3, Hc2; done|]. intros w4 Hc4 Hl4.
      eapply runs_bind.
      { apply runs_lift. rewrite Hc4, Hc3, Hc2. by apply update_entry_ok. }
      intros w5 Hc5 Hl5. apply Hk'; [|congruence]. by rewrite Hc5, Hw. }
    intros w6 Hc6 Hl6. by apply runs_ret_eq. }
  destruct (freeListRef e) as [n|] eqn:Hn.
  - pose proof (proj1 (ok_ref _ _ _ _ _ Hok n) Hn) as (l1 & l2 & Hfl)%list_elem_of_split.
    rewrite Hfl in *.
    destruct (fifo_remove_ok _ _ _ _ _ (wf_fifo _ _ Hwf)) as (l & Hrem & Hl).
    exists l, (l1 ++ l2). split_and!; [apply Hpre; intros w5 Hc5 Hl5| |].
    + eapply runs_bind.
      { apply runs_lift. rewrite Hc5. apply load_entry_ok. simpl. by rewrite lookup_insert_eq. }
      intros w6 Hc6 Hl6. simpl. rewrite Hn. eapply runs_bind.
      { eapply runs_bind.
        { apply runs_lift. rewrite Hc6. unfold freeList. simpl. by rewrite Hrem. }
        intros w7 Hc7 Hl7. eapply runs_lift_eq; [|by rewrite Hl7, Hl6, Hl5].
        rewrite Hc7. apply update_entry_ok. simpl. by rewrite lookup_insert_eq. }
      intros w8 Hc8 Hl8. eapply runs_lift_eq; [|congruence].
      rewrite Hc8. simpl. rewrite insert_insert_eq. by rewrite Hcb.
    + apply sublist_app; [done|]. by apply sublist_cons.
    + eapply wf_unfree; try done; unfold is_size in *; lia.
  - exists (freeList_ c), fl. rewrite set_freeList_id. split_and!; [apply Hpre; intros w5 Hc5 Hl5|done|].
    + eapply runs_bind.
      { apply runs_lift. rewrite Hc5. apply load_entry_ok. simpl. by rewrite lookup_insert_eq. }
      intros w6 Hc6 Hl6. simpl. rewrite Hn. eapply runs_bind; [apply runs_ret|].
      intros w7 Hc7 Hl7. eapply runs_lift_eq; [|congruence].
      rewrite Hc7, Hc6. simpl. rewrite Hcb. unfold with_freeListRef, e1, with_refCount.
      simpl. by rewrite Hn.
    + eapply wf_update; try done; [|by left].
      destruct Hok as [On Od Oq Oqn Or Oz Os Ores]. split; simpl; eauto.
      * intros m. rewrite <-Or. by rewrite Hn.
      * split; [unfold is_size in *; lia|by intros []].
      * unfold is_size in *. split; [lia|apply Os].
      * intros _. unfold is_size in *. lia.
Qed.

Lemma put_reserved_wf c fl key p e buf sz :
  wf c fl → cacheMap_ c !! key = Some p → entries c !! p = Some e → isReserved e = true →
  fresh_buffer c buf → is_size sz →
  (refCount e + Z.of_nat (length (queue e)) < size_t_mod)%Z →
  wf (set_heap (delete_blocks (queue e) (heap c))
       (set_entries (<[p := filled e buf sz]> (entries c)) (skip_address c))) fl.
Proof.
  intros Hwf Hp He Hr Hbuf Hsz Hwrap.
  destruct (wf_map _ _ Hwf _ _ Hp) as (e0 & He0 & Hok). rewrite He in He0.
  injection He0 as <-.
  assert (wf (set_entries (<[p := filled e buf sz]> (entries c)) c) fl) as Hwf1.
  { eapply wf_update; try done.
    - destruct Hok as [On Od Oq Oqn Or Oz Os Ores]. specialize (Ores Hr).
      split; simpl; eauto; try done.
      + intros b Hb. by apply Hbuf.
      + rewrite <-Oz. unfold is_size in *. lia.
      + unfold is_size in *. lia.
    - intros b. unfold owned. simpl. intros [Hb|[Hb|Hb]%elem_of_app]%elem_of_app.
      + left. set_solver.
      + right. destruct buf as [b'|]; [|by apply elem_of_nil in Hb].
        apply list_elem_of_singleton in Hb as ->. by apply Hbuf.
      + by apply elem_of_nil in Hb. }
  apply wf_skip_address in Hwf1.
  apply (wf_delete_blocks _ _ (queue e) Hwf1). intros b Hb p' e' He' Hown. simpl in He'.
  assert (Hbe : b ∈ owned e) by (unfold owned; rewrite Hr; set_solver).
  rewrite lookup_insert in He'. case_decide as Hpp; [injection He' as <-|].
  - unfold owned in Hown. simpl in Hown.
    destruct (ok_queue _ _ _ _ _ Hok Hr _ Hb) as [k Hk].
    destruct (ok_name _ _ _ _ _ Hok) as (nm & Hnm & Hh). rewrite Hnm in Hown.
    apply elem_of_app in Hown as [->%list_elem_of_singleton|[Hown|Hown]%elem_of_app];
      [congruence| |by apply elem_of_nil in Hown].
    destruct buf as [b'|]; [|by apply elem_of_nil in Hown].
    apply list_elem_of_singleton in Hown as ->.
    destruct (Hbuf b' eq_refl) as [_ [s Hs]]. congruence.
  - apply Hpp. symmetry. by eapply (wf_disj _ _ Hwf).
Qed.

(** C22: [put] on every branch.  On a new key it stores the buffer with one
    reference, counts its size and returns [true]; on a key that is present
    and not reserved it returns [false] and changes nothing, the copy of the
    key being freed again; on a reserved key it stores the buffer, runs every
    waiting callback exactly once and in order on it, gives each a reference,
    deletes them, and returns [true] - but it leaves [currentSize_] as it was.
    All other keys, and well-formedness, are kept.  But all of this only if the
    allocator has given the copy of the key the byte that [strCpy] did not ask
    for: if not, every [put] writes past its copy, whatever the cache holds. *)
Theorem put_correct w fl fuel key buf sz :
  wf (cache_of w) fl → is_size sz → fresh_buffer (cache_of w) buf →
  (∀ e, view (cache_of w) key = Some e → (length (queue e) < fuel)%nat ∧
     (refCount e + Z.of_nat (length (queue e)) < size_t_mod)%Z) →
  if decide (usable (String.length key) ≤ String.length key)%nat
  then put fuel key buf sz w = Fault HeapOverflow
  else ∃ r c' calls,
    runs (put fuel key buf sz) w r c' (log w ++ calls) ∧ wf c' fl ∧
    (∀ k, k ≠ key → view c' k = view (cache_of w) k) ∧
    match view (cache_of w) key with
    | None =>
      r = true ∧ calls = [] ∧
      view c' key = Some (CacheEntry_full (brk (cache_of w)) buf sz) ∧
      currentSize_ c' = wrap_size (currentSize_ (cache_of w) + sz)
    | Some e =>
      r = isReserved e ∧ currentSize_ c' = currentSize_ (cache_of w) ∧
      if isReserved e then
        view c' key = Some (filled e buf sz) ∧
        heap c' = delete_blocks (queue e) (heap (cache_of w)) ∧
        ∃ ks, closures (heap (cache_of w)) (queue e) ks ∧
              calls = map (λ k, (k, mkCacheData buf sz true)) ks
      else view c' key = Some e ∧ heap c' = heap (cache_of w) ∧ calls = []
    end.
Proof.
  intros Hwf Hsz Hbuf Hq. case_decide as Hroom.
  { apply pbind_fault. unfold lift. by rewrite strCpy_fault by lia. }
  assert (String.length key < usable (String.length key)) as Hlen by lia. clear Hroom.
  destruct (view (cache_of w) key) as [e|] eqn:Hv.
  - destruct (Hq e eq_refl) as [Hfuel Hwrap].
    destruct (view_some _ _ _ _ Hwf Hv) as (p & Hp & He & Hok).
    destruct (isReserved e) eqn:Hr.
    + destruct (reserved_closures _ _ _ _ _ Hok Hr) as [ks Hks].
      pose proof (view_update _ _ _ _ (filled e buf sz) Hwf Hp) as Hvu.
      eexists _, _, _. split; [by eapply put_reserved_runs|].
      split; [by eapply put_reserved_wf|].
      split; [intros k Hk; etransitivity; [apply (Hvu k)|by rewrite decide_False]|].
      split_and!; [done|done| |done|eauto]. etransitivity; [apply (Hvu key)|by rewrite decide_True].
    + eexists _, _, []. rewrite app_nil_r. split; [by eapply put_taken_runs|].
      split; [by apply wf_skip_address|]. by split_and!.
  - apply (view_none _ _ _ Hwf) in Hv.
    pose proof (view_insert (alloc_state (BName key) (cache_of w)) fl key
      (CacheEntry_full (brk (cache_of w)) buf sz) (wf_alloc _ _ _ Hwf) Hv) as Hvi.
    eexists _, _, []. rewrite app_nil_r. split; [by eapply put_new_runs|]. split.
    { apply wf_set_currentSize; [by apply wf_insert_named|apply wrap_size_range]. }
    split; [intros k Hk; etransitivity; [apply (Hvi k)|by rewrite decide_False]|].
    split_and!; [done|done| |done]. etransitivity; [apply (Hvi key)|by rewrite decide_True].
Qed.

(** C23: [get] on every branch.  On an unknown key it returns [false] and
    deletes the callback without running it; on a reserved key it returns
    [true] and queues the callback behind those already waiting; otherwise it
    returns [true], runs the callback exactly once on the stored data, deletes
    it, adds a reference and takes the entry out of the free list.  All other
    keys, and well-formedness, are kept. *)
Theorem get_correct w fl key cb k :
  wf (cache_of w) fl → fresh_callback (cache_of w) cb k →
  (∀ e, view (cache_of w) key = Some e → (refCount e + 1 < size_t_mod)%Z) →
  ∃ r c' calls fl',
    runs (get key (Some cb)) w r c' (log w ++ calls) ∧ wf c' fl' ∧
    sublist fl' fl ∧ currentSize_ c' = currentSize_ (cache_of w) ∧
    (∀ k, k ≠ key → view c' k = view (cache_of w) k) ∧
    match view (cache_of w) key with
    | None =>
      r = false ∧ calls = [] ∧ view c' key = None ∧
      heap c' = delete cb (heap (cache_of w))
    | Some e =>
      r = true ∧
      if isReserved e then
        calls = [] ∧ view c' key = Some (with_queue (queue e ++ [cb]) e) ∧
        heap c' = heap (cache_of w)
      else
        calls = [(k, mkCacheData (data e) (size e) true)] ∧
        view c' key = Some (with_freeListRef None (with_refCount (refCount e + 1) e)) ∧
        heap c' = delete cb (heap (cache_of w))
    end.
Proof.
  intros Hwf Hcb Hwrap. destruct (view (cache_of w) key) as [e|] eqn:Hv.
  - destruct (view_some _ _ _ _ Hwf Hv) as (p & Hp & He & Hok).
    destruct (isReserved e) eqn:Hr.
    + pose proof (view_update _ _ _ _ (with_queue (queue e ++ [cb]) e) Hwf Hp) as Hvu.
      eexists _, _, [], fl. rewrite app_nil_r.
      split; [by eapply get_reserved_runs|]. split; [by eapply wf_take_callback|].
      split_and!; try done; [intros k' Hk'; etransitivity; [apply (Hvu k')|by rewrite decide_False]|].
      etransitivity; [apply (Hvu key)|by rewrite decide_True].
    + destruct (get_hit_runs w fl key p e cb k) as (l & fl' & Hrun & Hsub & Hwf'); eauto.
      pose proof (view_update _ _ _ _ (with_freeListRef None (with_refCount (refCount e + 1) e))
        Hwf Hp) as Hvu.
      eexists _, _, _, fl'. split; [exact Hrun|]. split.
      { apply (wf_delete_block _ _ cb Hwf'). intros p' e' He' Hin. simpl in He'.
        rewrite lookup_insert in He'. destruct Hcb as [Hu _].
        case_decide; [injection He' as <-|]; [by eapply (Hu p e)|by eapply Hu]. }
      split_and!; try done; [intros k' Hk'; etransitivity; [apply (Hvu k')|by rewrite decide_False]|].
      etransitivity; [apply (Hvu key)|by rewrite decide_True].
  - pose proof Hv as Hp. apply (view_none _ _ _ Hwf) in Hp.
    eexists _, _, [], fl. rewrite app_nil_r. split; [by eapply get_miss_runs|].
    split; [apply wf_delete_block; [done|by apply Hcb]|].
    split_and!; try done.
Qed.

(** ** [cancelReservation] *)

Lemma cancel_runs w fl fuel key p e ks :
  wf (cache_of w) fl → cacheMap_ (cache_of w) !! key = Some p →
  entries (cache_of w) !! p = Some e → isReserved e = true →
  closures (heap (cache_of w)) (queue e) ks → (length (queue e) < fuel)%nat →
  runs (cancelReservation fuel key) w true
    (set_heap (delete_blocks (queue e) (heap (cache_of w)))
      (set_entries (<[p := with_isReserved false e]> (entries (cache_of w))) (cache_of w)))
    (log w ++ map (λ k, (k, mkCacheData None 0 false)) ks).
Proof.
  intros Hwf Hp He Hr Hks Hfuel.
  destruct (wf_map _ _ Hwf _ _ Hp) as (e0 & He0 & Hok). rewrite He in He0.
  injection He0 as <-. unfold cancelReservation.
  eapply runs_bind; [by apply runs_lift|]. intros w1 Hc1 Hl1. rewrite Hp.
  eapply runs_bind; [apply runs_lift; rewrite Hc1; by apply load_entry_ok|].
  intros w2 Hc2 Hl2. rewrite Hr.
  eapply runs_bind; [apply runs_lift; rewrite Hc2; by apply update_entry_ok|].
  intros w3 Hc3 Hl3. eapply runs_bind.
  { apply (cancel_loop_runs p (queue e) ks fuel 0 w3 _ (with_isReserved false e) Hc3);
      try done; simpl; [by rewrite lookup_insert_eq|by eapply ok_queue_nodup]. }
  intros w4 Hc4 Hl4. apply runs_ret_eq; [done|congruence].
Qed.

(** Once an entry is not reserved any more its queue can be deleted. *)
Lemma wf_release_queue c fl key p e :
  wf c fl → cacheMap_ c !! key = Some p → entries c !! p = Some e → isReserved e = true →
  wf (set_heap (delete_blocks (queue e) (heap c))
       (set_entries (<[p := with_isReserved false e]> (entries c)) c)) fl.
Proof.
  intros Hwf Hp He Hr.
  destruct (wf_map _ _ Hwf _ _ Hp) as (e0 & He0 & Hok). rewrite He in He0.
  injection He0 as <-.
  assert (wf (set_entries (<[p := with_isReserved false e]> (entries c)) c) fl) as Hwf1.
  { eapply wf_update; try done.
    - destruct Hok. by split.
    - intros b. unfold owned. simpl. rewrite Hr. set_solver. }
  apply (wf_delete_blocks _ _ (queue e) Hwf1). intros b Hb p' e' He' Hown. simpl in He'.
  assert (Hbe : b ∈ owned e) by (unfold owned; rewrite Hr; set_solver).
  destruct (ok_queue _ _ _ _ _ Hok Hr _ Hb) as [k Hk].
  rewrite lookup_insert in He'. case_decide as Hpp; [injection He' as <-|].
  - unfold owned in Hown. simpl in Hown.
    destruct (ok_name _ _ _ _ _ Hok) as (nm & Hnm & Hh). rewrite Hnm in Hown.
    apply elem_of_app in Hown as [->%list_elem_of_singleton|[Hown|Hown]%elem_of_app];
      [congruence| |by apply elem_of_nil in Hown].
    destruct (data e) as [b'|] eqn:Hd; [|by apply elem_of_nil in Hown].
    apply list_elem_of_singleton in Hown as ->.
    destruct (ok_data _ _ _ _ _ Hok _ Hd) as [s Hs]. congruence.
  - apply Hpp. symmetry. by eapply (wf_disj _ _ Hwf).
Qed.

(** [cancelReservation] returns [true] exactly on reserved keys; it then
    runs every waiting callback once, in order, with no data and [isCached]
    false, deletes them, and makes the entry unreserved but keeps it in the
    map.  Otherwise nothing changes. *)
Theorem cancelReservation_correct w fl fuel key :
  wf (cache_of w) fl →
  (∀ e, view (cache_of w) key = Some e → (length (queue e) < fuel)%nat) →
  ∃ r c' calls,
    runs (cancelReservation fuel key) w r c' (log w ++ calls) ∧ wf c' fl ∧
    (∀ k, k ≠ key → view c' k = view (cache_of w) k) ∧
    match view (cache_of w) key with
    | Some e =>
      r = isReserved e ∧ view c' key = Some (with_isReserved false e) ∧
      if isReserved e then
        heap c' = delete_blocks (queue e) (heap (cache_of w)) ∧
        ∃ ks, closures (heap (cache_of w)) (queue e) ks ∧
              calls = map (λ k, (k, mkCacheData None 0 false)) ks
      else c' = cache_of w ∧ calls = []
    | None => r = false ∧ c' = cache_of w ∧ calls = []
    end.
Proof.
  intros Hwf Hq. destruct (view (cache_of w) key) as [e|] eqn:Hv.
  - specialize (Hq e eq_refl).
    destruct (view_some _ _ _ _ Hwf Hv) as (p & Hp & He & Hok).
    destruct (isReserved e) eqn:Hr.
    + destruct (reserved_closures _ _ _ _ _ Hok Hr) as [ks Hks].
      pose proof (view_update _ _ _ _ (with_isReserved false e) Hwf Hp) as Hvu.
      eexists _, _, _. split; [by eapply cancel_runs|].
      split; [by eapply wf_release_queue|].
      split; [intros k Hk; etransitivity; [apply (Hvu k)|by rewrite decide_False]|].
      split_and!; [done| |done|eauto].
      etransitivity; [apply (Hvu key)|by rewrite decide_True].
    + exists false, (cache_of w), []. rewrite app_nil_r. split.
      { unfold cancelReservation. eapply runs_bind; [by apply runs_lift|].
        intros w1 Hc1 Hl1. rewrite Hp.
        eapply runs_bind; [apply runs_lift; rewrite Hc1; by apply load_entry_ok|].
        intros w2 Hc2 Hl2. rewrite Hr. apply runs_ret_eq; congruence. }
      split_and!; try done. rewrite Hv. destruct e. simpl in *. by subst.
  - exists false, (cache_of w), []. rewrite app_nil_r. split.
    { apply (view_none _ _ _ Hwf) in Hv. unfold cancelReservation.
      eapply runs_bind; [by apply runs_lift|].
      intros w1 Hc1 Hl1. rewrite Hv. apply runs_ret_eq; congruence. }
    by split_and!.
Qed.

(** ** [reserve] *)

Lemma reserve_new key c :
  cacheMap_ c !! key = None → String.length key < usable (String.length key) →
  reserve key c = Ok (true, insert_state key (CacheEntry_reserved (brk c))
                              (alloc_state (BName key) c)).
Proof.
  intros Hkey Hlen. unfold reserve.
  rewrite (pbind_ok _ _ _ _ _ (strCpy_ok key c Hlen)). cbn beta.
  by erewrite pbind_ok by (by apply map_insert_new).
Qed.

Lemma reserve_old key c fl p e :
  wf c fl → cacheMap_ c !! key = Some p → entries c !! p = Some e →
  String.length key < usable (String.length key) →
  reserve key c = Ok (negb (isReserved e),
    skip_address (set_entries (<[p := with_isReserved true e]> (entries c)) c)).
Proof.
  intros Hwf Hp He Hlen. unfold reserve.
  rewrite (pbind_ok _ _ _ _ _ (strCpy_ok key c Hlen)). cbn beta.
  erewrite pbind_ok by (by apply map_insert_old). cbn beta iota.
  erewrite pbind_ok by (by apply load_entry_ok). cbn beta.
  assert (Hid : isReserved e = true → with_isReserved true e = e)
    by (destruct e; simpl; by intros ->).
  destruct (isReserved e) eqn:Hr; simpl.
  - prun. erewrite pbind_ok by (eapply free_block_ok; simpl; by rewrite lookup_insert_eq).
    unfold pret. rewrite Hid, insert_id by done. unfold set_heap, skip_address. simpl.
    by rewrite (free_copy_state _ fl).
  - erewrite pbind_ok by (by apply update_entry_ok).
    erewrite pbind_ok by (eapply free_block_ok; simpl; by rewrite lookup_insert_eq).
    unfold pret, set_heap, skip_address. simpl. by rewrite (free_copy_state _ fl).
Qed.

(** [reserve] returns [false] exactly when the key is already reserved,
    and then changes nothing.  On a new key it inserts a reserved entry with
    one reference and no data; on a present, unreserved key it only sets the
    reservation flag.  A cache in which nothing was re-reserved stays
    well-formed. *)
Theorem reserve_correct c fl key :
  wf c fl → String.length key < usable (String.length key) →
  ∃ r c', reserve key c = Ok (r, c') ∧ currentSize_ c' = currentSize_ c ∧
    (∀ k, k ≠ key → view c' k = view c k) ∧
    match view c key with
    | None => r = true ∧ view c' key = Some (CacheEntry_reserved (brk c)) ∧ wf c' fl
    | Some e => r = negb (isReserved e) ∧ heap c' = heap c ∧
        view c' key = Some (with_isReserved true e) ∧ (isReserved e = true → wf c' fl)
    end.
Proof.
  intros Hwf Hlen. destruct (view c key) as [e|] eqn:Hv.
  - destruct (view_some _ _ _ _ Hwf Hv) as (p & Hp & He & Hok).
    pose proof (view_update _ _ _ _ (with_isReserved true e) Hwf Hp) as Hvu.
    eexists _, _. split; [by eapply reserve_old|].
    split_and!; try done.
    + intros k Hk. etransitivity; [apply (Hvu k)|by rewrite decide_False].
    + etransitivity; [apply (Hvu key)|by rewrite decide_True].
    + intros Hr. apply wf_skip_address. replace (with_isReserved true e) with e
        by (destruct e; simpl in *; by subst).
      rewrite insert_id by done. by destruct c.
  - apply (view_none _ _ _ Hwf) in Hv.
    pose proof (view_insert (alloc_state (BName key) c) fl key
      (CacheEntry_reserved (brk c)) (wf_alloc _ _ _ Hwf) Hv) as Hvi.
    eexists _, _. split; [by apply reserve_new|]. split_and!; try done.
    + intros k Hk. etransitivity; [apply (Hvi k)|by rewrite decide_False].
    + etransitivity; [apply (Hvi key)|by rewrite decide_True].
    + by apply wf_insert_named.
Qed.

End branches.
End CacheProps.
