(* ===== verification/CacheEvict.v ===== *)
(** Releasing and evicting: [doneWith] and [cleanup] of the cache, what the
    eviction order is, and what the quota accounting does with entries that
    were reserved first. *)
From S2P Require Import Prelude FastFIFO Cache CacheProps.

Module CacheEvict.
Import Cache CacheProps.

(** * The specification of an eviction *)

(** How many of the free entries, given by size in eviction order, [cleanup]
    takes to have at least [space] bytes when [acc] are already freed. *)
Fixpoint evicted (space acc : Z) (szs : list Z) : nat :=
  match szs with
  | [] => 0
  | s :: szs =>
    if (acc <? space)%Z then S (evicted space (wrap_size (acc + s)) szs) else 0
  end.

Definition sum_size (szs : list Z) : Z := foldr Z.add 0%Z szs.

Lemma sum_size_app l k : sum_size (l ++ k) = (sum_size l + sum_size k)%Z.
Proof. induction l as [|x l IH]; csimpl; [done|]. unfold sum_size in *. simpl. lia. Qed.

Lemma sum_size_nonneg szs : Forall (λ s, 0 ≤ s)%Z szs → (0 ≤ sum_size szs)%Z.
Proof. unfold sum_size. induction 1; simpl; lia. Qed.

Lemma evicted_le space acc szs : evicted space acc szs ≤ length szs.
Proof.
  revert acc. induction szs as [|s szs IH]; intros acc; simpl; [done|].
  case_match; [|lia]. specialize (IH (wrap_size (acc + s))). lia.
Qed.

(** Without overflow, what is taken is enough, or everything. *)
Lemma evicted_enough space acc szs :
  (0 ≤ acc)%Z → Forall (λ s, 0 ≤ s)%Z szs → (acc + sum_size szs < size_t_mod)%Z →
  (space ≤ acc + sum_size (take (evicted space acc szs) szs))%Z ∨
  evicted space acc szs = length szs.
Proof.
  revert acc. induction szs as [|s szs IH]; intros acc Hacc Hpos Hsum; simpl; [by right|].
  apply Forall_cons in Hpos as [Hs Hpos]. csimpl in Hsum.
  pose proof (sum_size_nonneg _ Hpos) as Hnn.
  unfold sum_size in Hsum. simpl in Hsum. fold (sum_size szs) in Hsum.
  destruct (acc <? space)%Z eqn:Hlt.
  - rewrite wrap_size_id by (unfold is_size; lia).
    destruct (IH (acc + s)%Z) as [Hle|Heq]; [lia|done|lia|left|right; lia].
    unfold sum_size in *. simpl. lia.
  - left. apply Z.ltb_ge in Hlt. unfold sum_size. simpl. lia.
Qed.

(** And it is minimal: one entry less would not have been enough. *)
Lemma evicted_minimal space acc szs n :
  (0 ≤ acc)%Z → Forall (λ s, 0 ≤ s)%Z szs → (acc + sum_size szs < size_t_mod)%Z →
  n < evicted space acc szs → (acc + sum_size (take n szs) < space)%Z.
Proof.
  revert acc n. induction szs as [|s szs IH]; intros acc n Hacc Hpos Hsum Hn; simpl in *; [lia|].
  apply Forall_cons in Hpos as [Hs Hpos]. unfold sum_size in Hsum. simpl in Hsum.
  fold (sum_size szs) in Hsum.
  pose proof (sum_size_nonneg _ Hpos) as Hnn.
  destruct (acc <? space)%Z eqn:Hlt; [|lia]. apply Z.ltb_lt in Hlt.
  rewrite wrap_size_id in Hn by (unfold is_size; lia).
  destruct n as [|n]; [unfold sum_size; simpl; lia|].
  assert (acc + s + sum_size (take n szs) < space)%Z as Hlt'
    by (apply IH; [lia|done|lia|lia]).
  unfold sum_size in *. simpl. lia.
Qed.

Section evict.
Context {K F : Type} `{HF : FIFO F loc} `{HL : !FIFOLaws F loc} `{HP : Platform}.
Implicit Types (c : Cache K F) (e : CacheEntry) (fl : list (loc * option loc))
  (ks : list (string * CacheEntry)).

(** The keys and entries the free list stands for, in eviction order. *)
Definition free_entries c fl ks : Prop :=
  Forall2 (λ x y, ∃ p, x.2 = Some p ∧ cacheMap_ c !! y.1 = Some p ∧
                       entries c !! p = Some y.2) fl ks.

Lemma free_entries_exist c fl : wf c fl → ∃ ks, free_entries c fl ks.
Proof.
  intros Hwf. pose proof (wf_free _ _ Hwf) as Hfr. unfold free_entries.
  clear -Hwf Hfr HL. assert (Hsub : fl ⊆ fl) by done. revert Hfr Hsub.
  generalize fl at 1 2 4. intros k. induction k as [|[n d] k IH]; intros Hfr Hsub.
  { exists []. constructor. }
  destruct IH as [ks Hks]; [set_solver|set_solver|].
  destruct (Hfr n d) as (p & -> & [e He]); [set_solver|].
  destruct (wf_back _ _ Hwf p) as [key Hkey]; [eauto|].
  exists ((key, e) :: ks). constructor; [by exists p|done].
Qed.

(** The entries of the free list are the ones without references. *)
Lemma free_entry_zero c fl key p e :
  wf c fl → cacheMap_ c !! key = Some p → entries c !! p = Some e →
  (∃ n, (n, Some p) ∈ fl) ↔ refCount e = 0%Z.
Proof.
  intros Hwf Hp He. destruct (wf_map _ _ Hwf _ _ Hp) as (e0 & He0 & Hok).
  rewrite He in He0. injection He0 as <-. rewrite (ok_zero _ _ _ _ _ Hok).
  split; intros [n Hn]; exists n; by apply (ok_ref _ _ _ _ _ Hok).
Qed.

Lemma free_entries_sizes c fl l ks :
  wf c fl → free_entries c l ks → Forall (λ s, 0 ≤ s)%Z (map (size ∘ snd) ks).
Proof.
  intros Hwf Hks. induction Hks as [|x [k e] l ks Hx Hks IH]; [constructor|].
  constructor; [|done]. destruct Hx as (p & _ & Hp & He). simpl in *.
  destruct (wf_map _ _ Hwf _ _ Hp) as (e0 & He0 & Hok).
  rewrite He in He0. injection He0 as <-.
  pose proof (ok_size _ _ _ _ _ Hok) as [_ Hes]. unfold is_size in Hes. lia.
Qed.

(** ** One iteration of [cleanup] *)

Definition erase_state (key : string) (p : loc) e (nm : loc) (l : F) c : Cache K F :=
  mkCache _ _ (sizeQuota_ c) (currentSize_ c) (delete key (cacheMap_ c)) l
    (delete p (entries c)) (<[p := with_names None None e]> (freed c))
    (delete nm (delete_blocks (option_list (data e)) (heap c))) (brk c).

Lemma wf_erase c n p fl key e nm l :
  wf c ((n, Some p) :: fl) → cacheMap_ c !! key = Some p → entries c !! p = Some e →
  name e = Some nm → fifo_rep l fl → wf (erase_state key p e nm l c) fl.
Proof.
  intros Hwf Hp He Hnm Hl. pose proof Hwf as [Hf Hm Hb Hfr Hd Hk Hs].
  destruct (Hm _ _ Hp) as (e0 & He0 & Hok). rewrite He in He0. injection He0 as <-.
  assert (Hpnot : ∀ m, (m, Some p) ∉ fl).
  { intros m Hin. assert (freeListRef e = Some m) as H1 by (apply Hok; set_solver).
    assert (freeListRef e = Some n) as H2 by (apply Hok; set_solver).
    pose proof (fifo_rep_NoDup _ _ Hf) as Hnd. csimpl in Hnd.
    apply NoDup_cons in Hnd as [Hn _]. apply Hn. apply list_elem_of_fmap.
    exists (m, Some p). split; [simpl; congruence|done]. }
  split; simpl; try done.
  - intros key' q [Hkey' Hq]%lookup_delete_Some.
    assert (q ≠ p) as Hqp by (intros ->; eauto using wf_inj).
    destruct (Hm _ _ Hq) as (e' & He' & Hok'). exists e'.
    rewrite lookup_delete_ne by done. split; [done|].
    apply (entry_ok_heap (heap c)).
    + intros b Hb'. assert (b ∉ owned e) as Hbe by (intros Hb2; apply Hqp; by eapply Hd).
      unfold owned in Hbe. rewrite Hnm in Hbe. rewrite lookup_delete_ne by set_solver.
      rewrite delete_blocks_lookup, decide_False; [done|set_solver].
    + destruct Hok' as [? ? ? ? Or ? ? ?]. split; try done. intros m. rewrite Or.
      rewrite elem_of_cons. naive_solver.
  - intros q [Hqp Hq]%lookup_delete_is_Some. destruct (Hb _ Hq) as [key' Hkey'].
    exists key'. rewrite lookup_delete_ne; [done|]. intros <-. congruence.
  - intros m d Hin. destruct (Hfr m d) as (q & -> & Hq); [set_solver|]. exists q.
    split; [done|]. apply lookup_delete_is_Some. split; [|done]. intros <-. by eapply Hpnot.
  - intros p1 p2 e1 e2 b [_ H1]%lookup_delete_Some [_ H2]%lookup_delete_Some. by eapply Hd.
  - intros q Hq. destruct (Hk q Hq) as (? & Hq2 & ?). split_and!.
    + apply lookup_delete_None. right. rewrite delete_blocks_lookup. by case_decide.
    + apply lookup_delete_None. by right.
    + rewrite lookup_insert_ne; [done|]. intros ->. congruence.
Qed.

Lemma view_erase c fl key p e nm l k :
  wf c fl → cacheMap_ c !! key = Some p →
  view (erase_state key p e nm l c) k = if decide (k = key) then None else view c k.
Proof.
  intros Hwf Hp. unfold view. simpl. rewrite lookup_delete.
  destruct (decide (key = k)) as [->|Hne]; [by rewrite decide_True|].
  rewrite decide_False by done. destruct (cacheMap_ c !! k) as [q|] eqn:Hq; [|done].
  simpl. apply lookup_delete_ne. intros ->. eauto using wf_inj.
Qed.

(** What happens between the pop and the end of an iteration. *)
Lemma deallocate_freed p c e nm :
  freed_readable = true → entries c !! p = None → freed c !! p = Some e →
  name e = Some nm → is_Some (heap c !! nm) →
  (∀ b, data e = Some b → b ≠ nm ∧ is_Some (heap c !! b)) →
  deallocate p c = Ok (tt, set_freed (<[p := with_names None None e]> (freed c))
    (set_heap (delete nm (delete_blocks (option_list (data e)) (heap c))) c)).
Proof.
  intros Hfr He Hf Hnm [x Hx] Hd. unfold deallocate.
  assert (Hload : ∀ c1, entries c1 !! p = None → freed c1 !! p = Some e →
    load_entry p c1 = Ok (e, c1)).
  { intros c1 H1 H2. unfold load_entry. by rewrite H1, H2, Hfr. }
  erewrite pbind_ok by (by apply Hload). cbn beta. rewrite Hnm.
  destruct (data e) as [b|] eqn:Hb.
  - destruct (Hd b eq_refl) as [Hbn [y Hy]].
    erewrite pbind_ok by (by eapply free_block_ok). cbn beta.
    erewrite pbind_ok; [|eapply free_block_ok; simpl; by rewrite lookup_delete_ne]. cbn beta.
    unfold update_entry. erewrite pbind_ok by (by apply Hload).
    unfold pmodify. simpl. by rewrite He.
  - erewrite pbind_ok by done. cbn beta.
    erewrite pbind_ok by (by eapply free_block_ok). cbn beta.
    unfold update_entry. erewrite pbind_ok by (by apply Hload).
    unfold pmodify. simpl. by rewrite He.
Qed.

(** The fields of an iteration's result that are read later. *)
Definition same_quota c c' : Prop :=
  sizeQuota_ c' = sizeQuota_ c ∧ currentSize_ c' = currentSize_ c.

(** One iteration up to the access to the freed node. *)
Lemma cleanup_step_erase c n p fl key e :
  wf c ((n, Some p) :: fl) → cacheMap_ c !! key = Some p → entries c !! p = Some e →
  ∃ nm l,
    name e = Some nm ∧ heap c !! nm = Some (BName key) ∧ fifo_rep l fl ∧
    ∀ fuel space acc, (acc < space)%Z →
      cleanup_loop (S fuel) space acc c =
      (deallocate p ;;; cleanup_loop fuel space (wrap_size (acc + size e)))
        (mkCache _ _ (sizeQuota_ c) (currentSize_ c) (delete key (cacheMap_ c)) l
          (delete p (entries c)) (<[p := e]> (freed c)) (heap c) (brk c)).
Proof.
  intros Hwf Hp He. destruct (wf_map _ _ Hwf _ _ Hp) as (e0 & He0 & Hok).
  rewrite He in He0. injection He0 as <-.
  destruct (ok_name _ _ _ _ _ Hok) as (nm & Hnm & Hh).
  destruct (fifo_pop_cons _ _ _ _ (wf_fifo _ _ Hwf)) as (l & Hpop & Hl).
  exists nm, l. split_and!; try done. intros fuel space acc Hlt. simpl.
  apply Z.ltb_lt in Hlt. rewrite Hlt.
  erewrite pbind_ok by (unfold freeList; by rewrite Hpop). cbn beta iota.
  prun. erewrite pbind_ok by (by apply load_entry_ok). cbn beta.
  assert (refCount e = 0%Z) as Hz by (eapply free_entry_zero; try done; exists n; set_solver).
  erewrite pbind_ok by (apply passert_true; by rewrite Hz). cbn beta.
  rewrite Hnm. prun.
  erewrite (pbind_ok (map_erase nm)); cycle 1.
  { unfold map_erase. erewrite pbind_ok by (by apply load_block_ok). reflexivity. }
  cbn beta. simpl. rewrite Hp. simpl. by rewrite He.
Qed.

Lemma cleanup_step c n p fl key e :
  freed_readable = true →
  wf c ((n, Some p) :: fl) → cacheMap_ c !! key = Some p → entries c !! p = Some e →
  ∃ c',
    (∀ fuel space acc, (acc < space)%Z →
      cleanup_loop (S fuel) space acc c =
      cleanup_loop fuel space (wrap_size (acc + size e)) c') ∧
    wf c' fl ∧ same_quota c c' ∧
    entries c' = delete p (entries c) ∧ cacheMap_ c' = delete key (cacheMap_ c) ∧
    (∀ k, view c' k = if decide (k = key) then None else view c k).
Proof.
  intros Hfr Hwf Hp He.
  destruct (cleanup_step_erase _ _ _ _ _ _ Hwf Hp He) as (nm & l & Hnm & Hh & Hl & Hstep).
  destruct (wf_map _ _ Hwf _ _ Hp) as (e0 & He0 & Hok). rewrite He in He0.
  injection He0 as <-.
  exists (erase_state key p e nm l c). split_and!; try done.
  - intros fuel space acc Hlt. rewrite Hstep by done. erewrite pbind_ok; cycle 1.
    { apply (deallocate_freed p _ e nm); simpl.
      - done.
      - apply lookup_delete_eq.
      - apply lookup_insert_eq.
      - done.
      - by eexists.
      - intros b Hb. destruct (ok_data _ _ _ _ _ Hok _ Hb) as [s Hs].
        split; [intros ->; congruence|eauto]. }
    cbn beta. unfold set_freed, set_heap, erase_state. simpl. by rewrite insert_insert_eq.
  - by eapply wf_erase.
  - intros k. by eapply view_erase.
Qed.

(** The free list's entries, without the first. *)
Lemma free_entries_tail c c' n p fl key e ks :
  wf c ((n, Some p) :: fl) → cacheMap_ c !! key = Some p → entries c !! p = Some e →
  entries c' = delete p (entries c) → cacheMap_ c' = delete key (cacheMap_ c) →
  free_entries c fl ks → free_entries c' fl ks.
Proof.
  intros Hwf Hp He Hent Hmap Hks. unfold free_entries in *.
  assert (Hpnot : ∀ m, (m, Some p) ∉ fl).
  { intros m Hin. destruct (wf_map _ _ Hwf _ _ Hp) as (e0 & He0 & Hok).
    assert (freeListRef e0 = Some m) by (apply Hok; set_solver).
    assert (freeListRef e0 = Some n) by (apply Hok; set_solver).
    pose proof (fifo_rep_NoDup _ _ (wf_fifo _ _ Hwf)) as Hnd. csimpl in Hnd.
    apply NoDup_cons in Hnd as [Hn _]. apply Hn. apply list_elem_of_fmap.
    exists (m, Some p). split; [simpl; congruence|done]. }
  clear -Hks Hpnot Hent Hmap Hp HL. induction Hks as [|[m d] [k x] fl' ks Hx Hks IH].
  { constructor. }
  constructor; [|apply IH; intros m' Hin; apply (Hpnot m'); by right]. destruct Hx as (q & Hd & Hq & Hx). simpl in *.
  assert (q ≠ p) as Hqp by (intros ->; apply (Hpnot m); rewrite Hd; by left).
  exists q. rewrite Hmap, Hent. split_and!; [done| |by rewrite lookup_delete_ne].
  rewrite lookup_delete_ne; [done|]. intros <-. congruence.
Qed.

Lemma cleanup_loop_ok ks : ∀ fl c fuel space acc,
  let n := evicted space acc (map (size ∘ snd) ks) in
  freed_readable = true ∨ n = 0 → wf c fl → free_entries c fl ks → length ks < fuel →
  ∃ c', cleanup_loop fuel space acc c =
          Ok (foldl (λ a x, wrap_size (a + size x.2)) acc (take n ks), c') ∧
        wf c' (drop n fl) ∧ same_quota c c' ∧
        (∀ k, view c' k = if decide (k ∈ (take n ks).*1) then None else view c k).
Proof.
  induction ks as [|[key e] ks IH]; intros fl c fuel space acc n Hfr Hwf Hks Hfuel.
  - apply Forall2_nil_inv_r in Hks as ->. destruct fuel as [|fuel]; [simpl in Hfuel; lia|].
    exists c. split_and!; try done. simpl.
    destruct (acc <? space)%Z; [|done].
    rewrite (pbind_ok _ _ _ None c); [done|]. unfold freeList.
    rewrite (fifo_pop_nil _ (wf_fifo _ _ Hwf)). by rewrite set_freeList_id.
  - apply Forall2_cons_inv_r in Hks as ([m d] & fl' & (p & Hd & Hp & He) & Hks & ->).
    simpl in Hd, Hp, He, Hfuel. subst d. destruct fuel as [|fuel]; [lia|].
    subst n. cbn [map evicted] in *. change ((size ∘ snd) (key, e)) with (size e) in *.
    destruct (acc <? space)%Z eqn:Hlt; cycle 1.
    { exists c. simpl. rewrite Hlt. by split_and!. }
    destruct Hfr as [Hfr|]; [|done].
    destruct (cleanup_step _ _ _ _ _ _ Hfr Hwf Hp He)
      as (c1 & Hstep & Hwf1 & [Hq1 Hs1] & Hent & Hmap & Hv1).
    pose proof (free_entries_tail _ _ _ _ _ _ _ _ Hwf Hp He Hent Hmap Hks) as Hks1.
    destruct (IH fl' c1 fuel space (wrap_size (acc + size e)) (or_introl Hfr) Hwf1 Hks1)
      as (c2 & Hrun & Hwf2 & [Hq2 Hs2] & Hv2); [lia|].
    exists c2. apply Z.ltb_lt in Hlt. rewrite Hstep by done. csimpl.
    split_and!; [done|done|split; congruence|].
    intros k. rewrite Hv2, Hv1. repeat case_decide; first [done|set_solver].
Qed.

Lemma foldl_wrap_sum acc ks :
  is_size acc →
  foldl (λ a x, wrap_size (a + size x.2)) acc ks =
  wrap_size (acc + sum_size (map (size ∘ snd) ks)).
Proof.
  revert acc. induction ks as [|[k e] ks IH]; intros acc Hacc.
  - unfold sum_size. simpl. rewrite Z.add_0_r. by rewrite wrap_size_id.
  - cbn [foldl map]. rewrite IH by apply wrap_size_range. rewrite wrap_size_add_l.
    unfold sum_size. simpl. f_equal. lia.
Qed.

Lemma wrap_size_sub_r a b : wrap_size (a - wrap_size b) = wrap_size (a - b).
Proof. apply Zminus_mod_idemp_r. Qed.

(** [cleanup] on a well-formed cache, as a function of the free list. *)
Lemma cleanup_ok c fl ks fuel space :
  let szs := map (size ∘ snd) ks in
  let n := evicted space 0 szs in
  freed_readable = true ∨ n = 0 → wf c fl → free_entries c fl ks → length ks < fuel →
  ∃ c', cleanup fuel space c = Ok (tt, c') ∧ wf c' (drop n fl) ∧
    sizeQuota_ c' = sizeQuota_ c ∧
    currentSize_ c' = wrap_size (currentSize_ c - sum_size (take n szs)) ∧
    (∀ k, view c' k = if decide (k ∈ (take n ks).*1) then None else view c k).
Proof.
  intros szs n Hfr Hwf Hks Hfuel.
  destruct (cleanup_loop_ok ks fl c fuel space 0 Hfr Hwf Hks Hfuel)
    as (c1 & Hrun & Hwf1 & [Hq1 Hs1] & Hv1). fold szs n in Hrun, Hwf1, Hv1.
  eexists. unfold cleanup. split.
  { erewrite pbind_ok by exact Hrun. reflexivity. }
  split_and!; [apply wf_set_currentSize; [done|apply wrap_size_range]|done| |exact Hv1].
  simpl. rewrite foldl_wrap_sum by done. rewrite wrap_size_sub_r, Hs1.
  subst szs. by rewrite <-firstn_map.
Qed.

(** Giving a reference back: the last one sends the node to the end of the
    free list. *)
Lemma release_ok c fl key e :
  wf c fl → view c key = Some e → isReserved e = false → refCount e ≠ 0%Z →
  ∃ c1 fl1 e1,
    release key c = Ok (tt, c1) ∧ wf c1 fl1 ∧ same_quota c c1 ∧ heap c1 = heap c ∧
    (∀ k, view c1 k = if decide (k = key) then Some e1 else view c k) ∧
    refCount e1 = (refCount e - 1)%Z ∧ data e1 = data e ∧ size e1 = size e ∧
    (refCount e1 ≠ 0%Z → fl1 = fl) ∧
    (refCount e1 = 0%Z → ∃ n p, cacheMap_ c !! key = Some p ∧ fl1 = fl ++ [(n, Some p)]).
Proof.
  intros Hwf Hv Hr Hz. destruct (view_some _ _ _ _ Hwf Hv) as (p & Hp & He & Hok).
  pose proof (ok_size _ _ _ _ _ Hok) as [Hsz Hes].
  assert (Hw : wrap_size (refCount e - 1) = (refCount e - 1)%Z)
    by (apply wrap_size_id; unfold is_size in *; lia).
  assert (Hfl0 : freeListRef e = None).
  { destruct (freeListRef e) eqn:Hn; [|done].
    destruct Hz. apply Hok. rewrite Hn. eauto. }
  assert (Hassert : (0 <? refCount e)%Z = true)
    by (apply Z.ltb_lt; unfold is_size in *; lia).
  unfold release. erewrite pbind_ok by done. cbn beta. rewrite Hp.
  erewrite pbind_ok by (by apply load_entry_ok). cbn beta.
  erewrite pbind_ok by (by apply passert_true). cbn beta. rewrite Hw.
  erewrite pbind_ok by (by apply update_entry_ok). cbn beta.
  destruct (refCount e - 1 =? 0)%Z eqn:H1.
  - apply Z.eqb_eq in H1.
    destruct (fifo_push_ok _ _ (Some p) (wf_fifo _ _ Hwf)) as (n & l & Hpush & Hn & Hl).
    pose proof (wf_push _ _ _ _ _ _ _ Hwf Hp He Hr Hn Hl Hfl0) as Hwf1.
    eexists _, _, (with_freeListRef (Some n) (with_refCount 0 e)). rewrite H1.
    split; [|split; [exact Hwf1|]].
    + erewrite pbind_ok by (unfold freeList; simpl; by rewrite Hpush). cbn beta.
      erewrite update_entry_ok by (simpl; apply lookup_insert_eq). simpl.
      by rewrite insert_insert_eq.
    + split_and!; try done; [apply (view_update _ _ _ _ _ Hwf Hp)|]. intros _.
      by exists n, p.
  - apply Z.eqb_neq in H1.
    eexists _, fl, (with_refCount (refCount e - 1) e). split; [done|]. split.
    { eapply wf_update; try done; [|by left].
      destruct Hok as [On Od Oq Oqn Or Oz Os Ores]. split; simpl; eauto; try congruence.
      - rewrite Hfl0. split; [done|by intros []].
      - split; [|done]. unfold is_size in *. lia. }
    split_and!; try done. apply (view_update _ _ _ _ _ Hwf Hp).
Qed.

(** C24: [doneWith] on an entry that is not reserved: with no reference left,
    or on an unknown key, it fails its [assert]; otherwise it gives back one
    reference, the last one sending the entry to the end of the free list, and
    then runs [cleanup] for the excess over the quota, if there is any.  No
    block is freed before that, and all other keys are kept. *)
Theorem doneWith_correct c fl fuel key :
  wf c fl →
  (∀ e, view c key = Some e → isReserved e = false) →
  match view c key with
  | None => doneWith fuel key c = Fault AssertFailure
  | Some e =>
    if (refCount e =? 0)%Z then doneWith fuel key c = Fault AssertFailure
    else ∃ c1 fl1 e1,
      doneWith fuel key c =
        (if (sizeQuota_ c <? currentSize_ c)%Z
         then cleanup fuel (currentSize_ c - sizeQuota_ c) c1
         else Ok (tt, c1)) ∧
      wf c1 fl1 ∧ same_quota c c1 ∧ heap c1 = heap c ∧
      (∀ k, view c1 k = if decide (k = key) then Some e1 else view c k) ∧
      refCount e1 = (refCount e - 1)%Z ∧ data e1 = data e ∧ size e1 = size e ∧
      (refCount e1 ≠ 0%Z → fl1 = fl) ∧
      (refCount e1 = 0%Z → ∃ n p, cacheMap_ c !! key = Some p ∧ fl1 = fl ++ [(n, Some p)])
  end.
Proof.
  intros Hwf Hres. destruct (view c key) as [e|] eqn:Hv.
  - destruct (refCount e =? 0)%Z eqn:Hz; cycle 1.
    { apply Z.eqb_neq in Hz.
      destruct (release_ok _ _ _ _ Hwf Hv (Hres _ eq_refl) Hz)
        as (c1 & fl1 & e1 & Hrel & Hwf1 & [Hq Hs] & Hrest).
      exists c1, fl1, e1. split; [|by split].
      unfold doneWith. rewrite (pbind_ok _ _ _ _ _ Hrel). prun.
      rewrite Hq, Hs. destruct (sizeQuota_ c <? currentSize_ c)%Z eqn:Hlt; [|done].
      apply Z.ltb_lt in Hlt. pose proof (wf_size _ _ Hwf).
      rewrite wrap_size_id; [done|unfold is_size in *; lia]. }
    destruct (view_some _ _ _ _ Hwf Hv) as (p & Hp & He & Hok). apply Z.eqb_eq in Hz.
    apply pbind_fault. unfold release. erewrite pbind_ok by done. cbn beta. rewrite Hp.
    erewrite pbind_ok by (by apply load_entry_ok). cbn beta. apply pbind_fault.
    apply passert_false. by rewrite Hz.
  - apply (view_none _ _ _ Hwf) in Hv. apply pbind_fault. unfold release.
    erewrite pbind_ok by done. cbn beta. by rewrite Hv.
Qed.

(** With nothing to free, or nothing that can be freed, [cleanup] keeps the cache. *)
Lemma cleanup_nothing c fl ks fuel space :
  wf c fl → free_entries c fl ks → length ks < fuel → (space ≤ 0)%Z ∨ ks = [] →
  cleanup fuel space c = Ok (tt, set_currentSize (wrap_size (currentSize_ c)) c).
Proof.
  intros Hwf Hks Hfuel Hnone. destruct fuel as [|fuel]; [lia|].
  assert (cleanup_loop (S fuel) space 0 c = Ok (0%Z, c)) as Hl.
  { simpl. destruct (Z.ltb_spec 0 space); [|done]. destruct Hnone as [?| ->]; [lia|].
    apply Forall2_nil_inv_r in Hks as ->. rewrite (pbind_ok _ _ _ None c); [done|]. unfold freeList.
    rewrite (fifo_pop_nil _ (wf_fifo _ _ Hwf)). by rewrite set_freeList_id. }
  unfold cleanup. erewrite pbind_ok by exact Hl. unfold pmodify. by rewrite Z.sub_0_r.
Qed.

(** On a platform where the storage of an erased node cannot be read any
    more, every eviction is a use after free: [cleanup] erases the entry from
    the hash map and then deallocates through the pointer to it. *)
Theorem cleanup_use_after_free c n p fl fuel space :
  freed_readable = false → wf c ((n, Some p) :: fl) → (0 < space)%Z →
  cleanup (S fuel) space c = Fault UseAfterFree.
Proof.
  intros Hfr Hwf Hspace. apply pbind_fault.
  destruct (wf_free _ _ Hwf n (Some p)) as (p' & [= <-] & [e He]); [by left|].
  destruct (wf_back _ _ Hwf p) as [key Hp]; [eauto|].
  destruct (cleanup_step_erase _ _ _ _ _ _ Hwf Hp He) as (nm & l & _ & _ & _ & Hstep).
  rewrite Hstep by done. apply pbind_fault. unfold deallocate. apply pbind_fault.
  unfold load_entry. simpl. by rewrite lookup_delete_eq, lookup_insert_eq, Hfr.
Qed.

(** C25: [cleanup] on every branch.  It terminates with one iteration of fuel more
    than there are free entries.  If there is nothing to evict, it changes
    nothing.  If there is, the first eviction uses the node of the hash map that
    it has just freed; C++ leaves open what happens then.  Where the access fails
    ([freed_readable] is false) that is a fault.  Where the node still is what it
    was, exactly the first [n] entries are erased, in the order in which they
    became free, their sizes are subtracted from [currentSize_] modulo 2^64, and
    everything else is kept; without overflow, what was erased is at least
    [space] bytes unless all was erased, and [n] is the least number with that
    property. *)
Theorem cleanup_correct c fl ks fuel space :
  wf c fl → free_entries c fl ks → length ks < fuel →
  let szs := map (size ∘ snd) ks in
  if decide ((space ≤ 0)%Z ∨ ks = []) then
    cleanup fuel space c = Ok (tt, set_currentSize (wrap_size (currentSize_ c)) c)
  else if freed_readable then
    ∃ n c', cleanup fuel space c = Ok (tt, c') ∧ wf c' (drop n fl) ∧ 0 < n ∧
    currentSize_ c' = wrap_size (currentSize_ c - sum_size (take n szs)) ∧
    (∀ k, view c' k = if decide (k ∈ (take n ks).*1) then None else view c k) ∧
    ((sum_size szs < size_t_mod)%Z →
      ((space ≤ sum_size (take n szs))%Z ∨ n = length ks) ∧
      ∀ m, m < n → (sum_size (take m szs) < space)%Z)
  else cleanup fuel space c = Fault UseAfterFree.
Proof.
  intros Hwf Hks Hfuel szs. case_decide as Hnone; [by eapply cleanup_nothing|].
  destruct freed_readable eqn:Hfr.
  2:{ destruct ks as [|[key e] ks]; [exfalso; tauto|].
      apply Forall2_cons_inv_r in Hks as ([n d] & fl' & (p & Hd & _) & _ & ->). simpl in Hd. subst d.
      destruct fuel as [|fuel]; [simpl in Hfuel; lia|]. eapply cleanup_use_after_free; [done|exact Hwf|lia]. }
  destruct (cleanup_ok c fl ks fuel space) as (c' & Hrun & Hwf' & _ & Hs & Hv); [by left|done..|].
  fold szs in Hrun, Hwf', Hs, Hv.
  exists (evicted space 0 szs), c'. split_and!; try done.
  { destruct ks as [|x ks]; [exfalso; tauto|]. simpl. rewrite (proj2 (Z.ltb_lt _ _)) by lia. lia. }
  intros Hsum.
  assert (Hpos : Forall (λ s, 0 ≤ s)%Z szs).
  { exact (free_entries_sizes _ _ _ _ Hwf Hks). }
  split.
  - destruct (evicted_enough space 0 szs) as [Hle|Heq]; [done|done|lia|left; lia|right].
    rewrite Heq. apply length_map.
  - intros m Hm. assert (0 + sum_size (take m szs) < space)%Z; [|lia].
    apply evicted_minimal; [lia|done|lia|done].
Qed.

(** Eviction never takes data that a client still holds: an entry with
    references is the same after [cleanup] as before. *)
Theorem cleanup_keeps_referenced c fl fuel space key e :
  freed_readable = true → wf c fl → length fl < fuel →
  view c key = Some e → refCount e ≠ 0%Z →
  ∃ c', cleanup fuel space c = Ok (tt, c') ∧ view c' key = Some e.
Proof.
  intros Hfr Hwf Hfuel Hv Hz. destruct (free_entries_exist _ _ Hwf) as [ks Hks].
  destruct (cleanup_ok c fl ks fuel space (or_introl Hfr) Hwf Hks) as (c' & Hrun & _ & _ & _ & Hv').
  { by rewrite <-(Forall2_length _ _ _ Hks). }
  exists c'. split; [done|]. rewrite Hv', decide_False; [done|].
  intros ([key' x] & Hkey & Hin)%list_elem_of_fmap. simpl in Hkey. subst key'.
  apply elem_of_take in Hin as (i & Hi & _).
  destruct (Forall2_lookup_r _ _ _ _ _ Hks Hi) as ([m d] & Hfl & p & Hd & Hp & He).
  simpl in *. subst d. destruct (view_some _ _ _ _ Hwf Hv) as (p' & Hp' & He' & Hok).
  apply Hz. eapply free_entry_zero; [done|exact Hp'|done|]. exists m.
  assert (p' = p) as -> by congruence. by apply list_elem_of_lookup_2 in Hfl.
Qed.

End evict.
End CacheEvict.
