(* ===== verification/CacheKey.v ===== *)
(** webserver/cache.h and webserver/cache.cc: the keys of the hash map.
    [HashCharPtr] reads the key in little-endian words of four characters, a
    shorter one first, and folds them with [boost::hash_combine], which is a
    parameter here; [EqCharPtr] compares contents; [strCpy] copies a key. *)
From S2P Require Import Prelude FastFIFO Cache.
From Stdlib Require Import Ascii.

Module CacheKey.

(** * [HashCharPtr] *)

(** [c[i]]: the terminating NUL can be read, what follows it cannot. *)
Definition char_at (c : string) (i : nat) : outcome Z :=
  if i <? String.length c then
    match String.get i c with
    | Some a => Ok (Z.of_nat (nat_of_ascii a))
    | None => Fault OutOfRange
    end
  else if i =? String.length c then Ok 0%Z
  else Fault OutOfRange.

Definition MAX_LEN_TO_HASH : nat := 16.
Definition PADDING : Z := 0.
Definition MODULUS_MASK : nat := 3.

(** [union IntChar], on a little-endian machine. *)
Definition intVal (val1 val2 val3 val4 : Z) : Z :=
  (val1 + 2 ^ 8 * val2 + 2 ^ 16 * val3 + 2 ^ 24 * val4)%Z.

Definition obind {A B} (m : outcome A) (k : A → outcome B) : outcome B :=
  match m with
  | Ok a => k a
  | Fault e => Fault e
  end.

Section hash.
Context (hash_combine : Z → Z → Z).

(** The [switch] of one iteration: the word and the number of characters. *)
Definition read_word (c : string) (charsHashed toCopy : nat) : outcome (Z * nat) :=
  match toCopy with
  | 0 =>
    obind (char_at c charsHashed) (λ v1,
    obind (char_at c (charsHashed + 1)) (λ v2,
    obind (char_at c (charsHashed + 2)) (λ v3,
    obind (char_at c (charsHashed + 3)) (λ v4, Ok (intVal v1 v2 v3 v4, charsHashed + 4)))))
  | 1 =>
    obind (char_at c charsHashed) (λ v1,
    Ok (intVal v1 PADDING PADDING PADDING, charsHashed + 1))
  | 2 =>
    obind (char_at c charsHashed) (λ v1,
    obind (char_at c (charsHashed + 1)) (λ v2,
    Ok (intVal v1 v2 PADDING PADDING, charsHashed + 2)))
  | _ =>
    obind (char_at c charsHashed) (λ v1,
    obind (char_at c (charsHashed + 1)) (λ v2,
    obind (char_at c (charsHashed + 2)) (λ v3,
    Ok (intVal v1 v2 v3 PADDING, charsHashed + 3))))
  end.

Fixpoint hash_loop (fuel : nat) (c : string) (len charsHashed : nat) (hashSeed : Z)
    : outcome Z :=
  match fuel with
  | 0 => Fault OutOfFuel
  | S fuel =>
    if (charsHashed <? MAX_LEN_TO_HASH) && (charsHashed <? len) then
      let toCopy := Nat.land (len - charsHashed) MODULUS_MASK in
      obind (read_word c charsHashed toCopy) (λ '(v, charsHashed),
      hash_loop fuel c len charsHashed (hash_combine hashSeed v))
    else Ok hashSeed
  end.

(** [HashCharPtr::operator()]; at most five iterations are ever made, the
    sixth unit of fuel leaves the loop. *)
Definition HashCharPtr (c : string) : outcome Z :=
  hash_loop 6 c (String.length c) 0 0.

End hash.

(** [EqCharPtr::operator()]: [strcmp(lhs, rhs) == 0]. *)
Definition EqCharPtr (lhs rhs : string) : bool := String.eqb lhs rhs.

(** * The specification *)

(** The little-endian value of up to four characters. *)
Fixpoint le_word (l : list ascii) : Z :=
  match l with
  | [] => 0
  | a :: l => Z.of_nat (nat_of_ascii a) + 2 ^ 8 * le_word l
  end%Z.

(** The characters in groups of four, after a first group of [r]. *)
Fixpoint groups (n : nat) (r : nat) (l : list ascii) : list (list ascii) :=
  match n with
  | 0 => []
  | S n => take r l :: groups n 4 (drop r l)
  end.

(** The size of the first group and the number of groups. *)
Definition first_group (len : nat) : nat :=
  if len mod 4 =? 0 then 4 else len mod 4.

Definition group_count (len : nat) : nat :=
  if len =? 0 then 0
  else if len <? 16 then (len - first_group len) / 4 + 1
  else if first_group len =? 4 then 4 else 5.

(** How many characters the hash depends on. *)
Definition chars_hashed (len : nat) : nat :=
  if len <? 16 then len else 16 + len mod 4.

Definition hash_spec (hash_combine : Z → Z → Z) (c : string) : Z :=
  let len := String.length c in
  fold_left hash_combine
    (map le_word (groups (group_count len) (first_group len) (String.list_ascii_of_string c))) 0%Z.

(** * The loop computes the specification *)

Lemma chars_length c : length (String.list_ascii_of_string c) = String.length c.
Proof. induction c as [|a c IH]; simpl; auto. Qed.

Lemma chars_get c i : String.get i c = String.list_ascii_of_string c !! i.
Proof. revert i. induction c as [|a c IH]; intros [|i]; simpl; auto. Qed.

Lemma char_at_ok c i :
  i < String.length c →
  ∃ a, drop i (String.list_ascii_of_string c) =
         a :: drop (S i) (String.list_ascii_of_string c) ∧
       char_at c i = Ok (Z.of_nat (nat_of_ascii a)).
Proof.
  intros Hi. rewrite <-chars_length in Hi.
  destruct (lookup_lt_is_Some_2 _ _ Hi) as [a Ha]. exists a.
  split; [by apply drop_S|]. unfold char_at. rewrite chars_get, Ha.
  rewrite chars_length in Hi. apply Nat.ltb_lt in Hi. by rewrite Hi.
Qed.

(** One iteration reads the next [k] characters, and none after them. *)
Lemma read_word_ok c i k :
  1 ≤ k ≤ 4 → i + k ≤ String.length c →
  read_word c i (k mod 4) = Ok (le_word (take k (drop i (String.list_ascii_of_string c))), i + k).
Proof.
  intros Hk Hi.
  assert (Hchar : ∀ j, j < k → ∃ a,
    drop (i + j) (String.list_ascii_of_string c) =
      a :: drop (S (i + j)) (String.list_ascii_of_string c) ∧
    char_at c (i + j) = Ok (Z.of_nat (nat_of_ascii a))).
  { intros j Hj. apply char_at_ok. lia. }
  assert (Hk' : k = 1 ∨ k = 2 ∨ k = 3 ∨ k = 4) by lia.
  destruct (Hchar 0) as (a0 & Hd0 & Hc0); [lia|]. rewrite !Nat.add_0_r in *.
  destruct Hk' as [->|[->|[->| ->]]]; cbn [Nat.modulo Nat.divmod fst Nat.sub];
    repeat match goal with
    | H : ∀ j, j < ?n → _ |- _ =>
      try (destruct (H 1) as (a1 & Hd1 & Hc1); [lia|]; rewrite Nat.add_1_r in Hd1);
      try (destruct (H 2) as (a2 & Hd2 & Hc2); [lia|]; rewrite Nat.add_succ_r, Nat.add_1_r in Hd2);
      try (destruct (H 3) as (a3 & Hd3 & Hc3); [lia|];
           rewrite !Nat.add_succ_r, Nat.add_0_r in Hd3);
      clear H
    end; simpl; rewrite ?Hc0; simpl; rewrite ?Hc1; simpl; rewrite ?Hc2; simpl; rewrite ?Hc3;
    simpl; rewrite Hd0; simpl; rewrite ?Hd1; simpl; rewrite ?Hd2; simpl; rewrite ?Hd3; simpl;
    unfold intVal, PADDING;
    match goal with |- Ok (?a, _) = Ok (?b, _) => replace a with b by lia end; done.
Qed.

(** From the character [i] on, the loop makes [g] iterations of four. *)
Fixpoint remaining (len g i : nat) : Prop :=
  match g with
  | 0 => 16 ≤ i ∨ len ≤ i
  | S g => i < 16 ∧ i + 4 ≤ len ∧ remaining len g (i + 4)
  end.

Lemma land_mask n : Nat.land n MODULUS_MASK = n mod 4.
Proof. exact (Nat.land_ones n 2). Qed.

Lemma hash_loop_ok hc c g : ∀ fuel i seed,
  remaining (String.length c) g i → (String.length c - i) mod 4 = 0 → g < fuel →
  hash_loop hc fuel c (String.length c) i seed =
    Ok (fold_left hc (map le_word (groups g 4 (drop i (String.list_ascii_of_string c)))) seed).
Proof.
  induction g as [|g IH]; intros fuel i seed Hrem Hmod Hfuel;
    (destruct fuel as [|fuel]; [lia|]); simpl in Hrem |- *; unfold MAX_LEN_TO_HASH.
  - destruct Hrem as [Hi|Hi].
    + by rewrite (proj2 (Nat.ltb_ge _ _) Hi).
    + rewrite (proj2 (Nat.ltb_ge _ _) Hi). by rewrite andb_false_r.
  - destruct Hrem as (Hi & Hlen & Hrem). rewrite !(proj2 (Nat.ltb_lt _ _)) by lia. simpl.
    rewrite land_mask, Hmod. change 0 with (4 mod 4). rewrite read_word_ok by lia. simpl.
    rewrite IH; [by rewrite drop_drop|done| |lia].
    replace (String.length c - i) with (String.length c - (i + 4) + 1 * 4) in Hmod by lia.
    by rewrite Nat.Div0.mod_add in Hmod.
Qed.

Lemma first_group_facts len :
  0 < len → 1 ≤ first_group len ≤ 4 ∧ first_group len ≤ len ∧
    first_group len mod 4 = len mod 4 ∧ (len - first_group len) mod 4 = 0.
Proof.
  intros Hlen. unfold first_group. pose proof (Nat.mod_upper_bound len 4).
  pose proof (Nat.div_mod_eq len 4). destruct (len mod 4 =? 0) eqn:Hz.
  - apply Nat.eqb_eq in Hz. rewrite Hz. split_and!; [lia|lia|lia|done|].
    replace (len - 4) with ((len / 4 - 1) * 4) by lia. apply Nat.Div0.mod_mul.
  - apply Nat.eqb_neq in Hz. split_and!; [lia|lia|lia|apply Nat.Div0.mod_mod|].
    replace (len - len mod 4) with (len / 4 * 4) by lia. apply Nat.Div0.mod_mul.
Qed.

Lemma remaining_groups len :
  0 < len → remaining len (group_count len - 1) (first_group len) ∧
    1 ≤ group_count len ≤ 5.
Proof.
  intros Hlen. destruct (decide (len < 16)) as [Hlt|Hge].
  - clear -Hlen Hlt. do 16 (destruct len as [|len]; [vm_compute; lia|]). lia.
  - destruct (first_group_facts len Hlen) as (Hr & _ & _ & Hmod). unfold group_count.
    rewrite (proj2 (Nat.eqb_neq len 0)) by lia. rewrite (proj2 (Nat.ltb_ge len 16)) by lia.
    pose proof (Nat.div_mod_eq (len - first_group len) 4) as Hdiv. rewrite Hmod in Hdiv.
    destruct (first_group len =? 4) eqn:Hf; [apply Nat.eqb_eq in Hf|apply Nat.eqb_neq in Hf];
      simpl; lia.
Qed.

Lemma hash_loop_S hc fuel c len i seed :
  hash_loop hc (S fuel) c len i seed =
  if (i <? MAX_LEN_TO_HASH) && (i <? len) then
    obind (read_word c i (Nat.land (len - i) MODULUS_MASK)) (λ '(v, i),
    hash_loop hc fuel c len i (hc seed v))
  else Ok seed.
Proof. done. Qed.

Lemma hash_spec_eq hc c : HashCharPtr hc c = Ok (hash_spec hc c).
Proof.
  unfold HashCharPtr, hash_spec. destruct (decide (String.length c = 0)) as [Hz|Hnz].
  { rewrite Hz. done. }
  destruct (first_group_facts (String.length c)) as (Hr & Hle & Hmod & Hmod0); [lia|].
  destruct (remaining_groups (String.length c)) as [Hrem Hg]; [lia|].
  destruct (group_count (String.length c)) as [|g] eqn:Hgc; [lia|].
  change (S g - 1) with (g - 0) in Hrem. rewrite Nat.sub_0_r in Hrem.
  rewrite hash_loop_S. unfold MAX_LEN_TO_HASH.
  rewrite !(proj2 (Nat.ltb_lt _ _)) by lia. cbn [andb].
  rewrite land_mask, Nat.sub_0_r, <-Hmod.
  rewrite read_word_ok by lia. cbn [obind].
  rewrite (hash_loop_ok hc c g 5) by (done || lia). by rewrite drop_0.
Qed.

(** C27: [HashCharPtr] terminates within its five iterations, never reads past
    the terminating NUL, and is [hash_combine] folded over the little-endian
    words of the key's groups of four characters (a shorter group first);
    each iteration reads only characters that exist. *)
Theorem HashCharPtr_correct hash_combine c :
  HashCharPtr hash_combine c = Ok (hash_spec hash_combine c).
Proof. apply hash_spec_eq. Qed.

(** The comment on [HashCharPtr] says that only the first 16 characters
    are hashed; of a key of 19 characters all 19 are: two such keys that
    differ in the last one are told apart by an injective combination. *)
Theorem HashCharPtr_reads_nineteen :
  let hc := (λ seed v, seed * 2 ^ 32 + v)%Z in
  HashCharPtr hc "abcdefghijklmnopqrs" ≠ HashCharPtr hc "abcdefghijklmnopqrt" ∧
  String.substring 0 16 "abcdefghijklmnopqrs" = String.substring 0 16 "abcdefghijklmnopqrt".
Proof. split; [vm_compute; discriminate|reflexivity]. Qed.

(** * [strCpy] *)

Section strCpy.
Context {W K F : Type} `{HF : FIFO F loc} `{HP : Platform} `{HC : !Cache.CacheClient W K F}.

(** [strCpy] allocates [strlen(str)] bytes and writes one more.  With an
    allocator that hands out exactly what it is asked for the key, every [put] and
    every [reserve] of the key is therefore a heap overflow, whatever the
    state of the cache. *)
Lemma strCpy_overflows (w : W) (c : Cache.Cache K F) fuel key buf sz :
  usable (String.length key) = String.length key →
  Cache.reserve key c = Fault HeapOverflow ∧
  Cache.put fuel key buf sz w = Fault HeapOverflow.
Proof.
  intros Hexact.
  assert (Hcopy : ∀ c0 : Cache.Cache K F, Cache.strCpy key c0 = Fault HeapOverflow).
  { intros c0. unfold Cache.strCpy. prun. by rewrite Hexact, Nat.ltb_irrefl. }
  split; apply pbind_fault; [done|]. unfold Cache.lift. by rewrite Hcopy.
Qed.

End strCpy.

End CacheKey.
