(* ===== verification/CacheDefects.v ===== *)
(** What the contract of the cache does not hold for: sequences of calls whose
    outcome the comments of webserver/cache.h exclude, and a concrete client
    with the states on which the cache theorems are instantiated. *)
From S2P Require Import Prelude FastFIFO Cache CacheProps CacheEvict CacheKey.

Module CacheDefects.
Import Cache CacheProps CacheEvict.

Section defects.
Context {W K F : Type} `{HF : FIFO F loc} `{HL : !FIFOLaws F loc} `{HP : Platform}.
Context `{HC : !CacheClient W K F} `{HPC : !PassiveClient W K F}.
Implicit Types (c : Cache K F) (w : W) (e : CacheEntry) (fl : list (loc * option loc)).

(** The first queued callback of a re-reserved entry is dead. *)
Lemma cancel_dead_queue w fuel key p e cb q :
  cacheMap_ (cache_of w) !! key = Some p → entries (cache_of w) !! p = Some e →
  isReserved e = true → queue e = cb :: q → heap (cache_of w) !! cb = None →
  cancelReservation (S fuel) key w = Fault UseAfterFree.
Proof.
  intros Hp He Hr Hq Hcb. unfold cancelReservation.
  assert (Hlift : ∀ (A : Type) (m : prog (Cache K F) A) w0 a c (k : A → prog W bool),
    m (cache_of w0) = Ok (a, c) → pbind (lift m) k w0 = k a (set_cache c w0)).
  { intros A m w0 a c k Hm. apply pbind_ok. unfold lift. by rewrite Hm. }
  erewrite Hlift by done. rewrite Hp.
  erewrite Hlift by (rewrite cache_of_set; by apply load_entry_ok). rewrite Hr.
  erewrite Hlift by (rewrite !cache_of_set; by apply update_entry_ok).
  apply pbind_fault. simpl. erewrite pbind_ok; cycle 1.
  { unfold lift. rewrite !cache_of_set. erewrite load_entry_ok; [reflexivity|]. simpl.
    apply lookup_insert_eq. }
  cbn beta. simpl. rewrite Hq. simpl. apply pbind_fault. apply pbind_fault.
  unfold lift, load_block. rewrite !cache_of_set. simpl. by rewrite Hcb.
Qed.

(** C26: [put] deletes the callbacks that waited for a reserved key but leaves
    the pointers in the entry's queue: reserving the key again succeeds, and
    cancelling that reservation then calls a deleted callback. *)
Theorem requeue_use_after_free w fl fuel fuel' key buf sz e :
  wf (cache_of w) fl → String.length key < usable (String.length key) →
  view (cache_of w) key = Some e → isReserved e = true → queue e ≠ [] →
  length (queue e) < fuel → (refCount e + Z.of_nat (length (queue e)) < size_t_mod)%Z →
  is_size sz → fresh_buffer (cache_of w) buf →
  ∃ w1 w2, put fuel key buf sz w = Ok (true, w1) ∧
    lift (reserve key) w1 = Ok (true, w2) ∧
    cancelReservation (S fuel') key w2 = Fault UseAfterFree.
Proof.
  intros Hwf Hlen Hv Hr Hq Hfuel Hwrap Hsz Hbuf.
  destruct (view_some _ _ _ _ Hwf Hv) as (p & Hp & He & Hok).
  destruct (reserved_closures _ _ _ _ _ Hok Hr) as [ks Hks].
  destruct (put_reserved_runs w fl fuel key p e buf sz ks) as (w1 & Hput & Hc1 & _); try done.
  assert (Hwf1 : wf (cache_of w1) fl) by (rewrite Hc1; by eapply put_reserved_wf).
  assert (Hp1 : cacheMap_ (cache_of w1) !! key = Some p) by (by rewrite Hc1).
  assert (He1 : entries (cache_of w1) !! p = Some (filled e buf sz))
    by (rewrite Hc1; simpl; apply lookup_insert_eq).
  pose proof (reserve_old _ _ _ _ _ Hwf1 Hp1 He1 Hlen) as Hres. simpl in Hres.
  eexists w1, _. split; [done|]. split; [unfold lift; by rewrite Hres|].
  destruct (queue e) as [|cb q] eqn:Hqe; [done|].
  eapply (cancel_dead_queue _ _ _ p _ cb q); rewrite ?cache_of_set; simpl.
  - done.
  - apply lookup_insert_eq.
  - done.
  - done.
  - rewrite Hc1. change (delete_blocks (cb :: q) (heap (cache_of w)) !! cb = None).
    rewrite delete_blocks_lookup, decide_True; [done|by left].
Qed.

(** Cancelling the reservation of a key that never had data leaves an
    entry without data behind: the next [get] does not report a miss, it runs
    its callback on a null buffer with [isCached] true. *)
Theorem cancelled_key_hits w fl fuel key cb k e :
  wf (cache_of w) fl → view (cache_of w) key = Some e → isReserved e = true →
  data e = None → length (queue e) < fuel → (refCount e + 1 < size_t_mod)%Z →
  fresh_callback (cache_of w) cb k →
  ∃ w1 w2, cancelReservation fuel key w = Ok (true, w1) ∧
    get key (Some cb) w1 = Ok (true, w2) ∧
    log w2 = log w1 ++ [(k, mkCacheData None (size e) true)].
Proof.
  intros Hwf Hv Hr Hd Hfuel Hwrap [Hu Hcb].
  destruct (view_some _ _ _ _ Hwf Hv) as (p & Hp & He & Hok).
  destruct (reserved_closures _ _ _ _ _ Hok Hr) as [ks Hks].
  destruct (cancel_runs w fl fuel key p e ks) as (w1 & Hrun & Hc1 & _); try done.
  assert (Hcbq : cb ∉ queue e).
  { intros Hin. eapply Hu; [exact He|]. unfold owned. rewrite Hr. set_solver. }
  destruct (get_hit_runs w1 fl key p (with_isReserved false e) cb k)
    as (l & fl' & (w2 & Hget & _ & Hlog) & _ & _); try done.
  - rewrite Hc1. by eapply wf_release_queue.
  - by rewrite Hc1.
  - rewrite Hc1. simpl. apply lookup_insert_eq.
  - split; rewrite Hc1; simpl.
    + intros p' e' He' Hin. simpl in He'. rewrite lookup_insert in He'.
      case_decide; [injection He' as <-|by eapply Hu].
      eapply Hu; [exact He|]. unfold owned in *. simpl in Hin. set_solver.
    + rewrite delete_blocks_lookup, decide_False by done. done.
  - exists w1, w2. split_and!; [done|done|]. rewrite Hlog. simpl. by rewrite Hd.
Qed.

End defects.

(** * A concrete client *)

(** The cache of the server on its free list, and a log of the calls. *)
Definition testW : Type := Cache nat (FastFIFO.FastFIFO loc) * list (nat * CacheData).

#[export] Instance test_client : CacheClient testW nat (FastFIFO.FastFIFO loc) := {|
  cache_of := fst;
  set_cache c w := (c, snd w);
  run_callback k d w := Ok (tt, (fst w, snd w ++ [(k, d)]));
|}.

#[export] Instance test_passive : PassiveClient testW nat (FastFIFO.FastFIFO loc).
Proof.
  refine {| log := snd |}; try done. intros k d w. by eexists.
Defined.

(** An allocator that rounds up, with freed storage readable or not. *)
Definition test_platform (r : bool) : Platform :=
  {| usable n := n + 8; freed_readable := r |}.

(** A heap with two buffers (1, 2) and two callbacks (3, 4). *)
Definition test_heap : gmap loc (block nat) :=
  {[1%positive := BData "x"; 2%positive := BData "y";
    3%positive := BCallback 30; 4%positive := BCallback 40]}.

Definition test_cache : Cache nat (FastFIFO.FastFIFO loc) := new_cache 4 test_heap 5%positive.

Lemma test_wf : wf test_cache [].
Proof.
  apply wf_new; [done|]. intros l Hl. unfold test_heap.
  rewrite !lookup_insert_ne by lia. apply lookup_singleton_ne. lia.
Qed.

Lemma test_unowned b : unowned test_cache b.
Proof. intros p e He. simpl in He. by rewrite lookup_empty in He. Qed.

(** The quota is 4.  Five bytes are put under [a] directly, a hundred under
    [b] after a reservation; both are released.  [cleanup] wants one byte and
    evicts [b], whose 100 bytes were never counted: [currentSize_] wraps. *)
Definition underflow_run `{HP : Platform} : prog testW Z :=
  let! _ := put 9 "a" (Some 1%positive) 5 in
  let! _ := lift (reserve "b") in
  let! _ := put 9 "b" (Some 2%positive) 100 in
  lift (release "b") ;;;
  lift (doneWith 9 "a") ;;;
  let! w := pget in
  pret (currentSize_ (cache_of w)).

(** The bytes of an entry that was reserved first are never counted, but
    they are subtracted when it is evicted: here the counter of a cache with a
    quota of 4 bytes, holding one entry of 5 bytes, ends at 2^64 - 95. *)
Theorem currentSize_underflow :
  ∃ w, underflow_run (HP := test_platform true) (test_cache, []) =
    Ok ((size_t_mod - 95)%Z, w).
Proof. eexists. vm_compute. reflexivity. Qed.

(** * Instances of the cache theorems *)

Section witnesses.
#[local] Instance witness_platform : Platform := test_platform true.

Definition test_w : testW := (test_cache, []).

Lemma test_buffer : fresh_buffer test_cache (Some 1%positive).
Proof. intros ? [= <-]. split; [apply test_unowned|by eexists]. Qed.

(** After [reserve "k"] and one [get] with callback 3: a reserved entry with a
    waiting callback. *)
Definition reserved_entry : CacheEntry :=
  with_queue [3%positive] (CacheEntry_reserved 5%positive).
Definition reserved_cache : Cache nat (FastFIFO.FastFIFO loc) :=
  set_entries {[6%positive := reserved_entry]}
    (insert_state "k" (CacheEntry_reserved 5%positive)
      (alloc_state (BName "k") test_cache)).

Lemma reserved_cache_runs :
  (let! r := lift (reserve "k") in
   let! g := get "k" (Some 3%positive) in
   pret (r, g))%prog test_w = Ok ((true, true), (reserved_cache, [])).
Proof. vm_compute. reflexivity. Qed.

Lemma reserved_view : view reserved_cache "k" = Some reserved_entry.
Proof. reflexivity. Qed.

Lemma reserved_wf : wf reserved_cache [].
Proof.
  assert (Hwf : wf (insert_state "k" (CacheEntry_reserved 5%positive)
    (alloc_state (BName "k") test_cache)) []).
  { apply wf_insert_named; [apply test_wf|done|done|done]. }
  replace reserved_cache with
    (set_entries (<[6%positive := with_queue (queue (CacheEntry_reserved 5%positive) ++
       [3%positive]) (CacheEntry_reserved 5%positive)]>
       (entries (insert_state "k" (CacheEntry_reserved 5%positive)
         (alloc_state (BName "k") test_cache))))
      (insert_state "k" (CacheEntry_reserved 5%positive)
         (alloc_state (BName "k") test_cache))) by reflexivity.
  apply (wf_take_callback _ _ "k" _ _ _ 30 Hwf); try done. split; [|done].
  intros p e He Hin.
  cbn [entries insert_state alloc_state test_cache new_cache] in He.
  apply lookup_insert_Some in He as [[<- <-]|[_ He]]; [|done]. vm_compute in Hin. apply list_elem_of_singleton in Hin. done.
Qed.

Lemma reserved_owned p e b :
  entries reserved_cache !! p = Some e → b ∈ owned e → b = 5%positive ∨ b = 3%positive.
Proof.
  cbn [entries reserved_cache set_entries].
  intros [<- <-]%lookup_singleton_Some Hin. unfold owned in Hin. simpl in Hin. set_solver.
Qed.

Lemma put_correct_witness :
  ∃ r c' calls,
    runs (put 9 "k" (Some 1%positive) 1) (reserved_cache, []) r c' ([] ++ calls) ∧
    wf c' [] ∧ (∀ k, k ≠ "k" → view c' k = view reserved_cache k) ∧
    r = true ∧ calls = [(30, mkCacheData (Some 1%positive) 1 true)].
Proof.
  assert (is_size 1) as Hsz by (vm_compute; split; [discriminate|reflexivity]).
  assert (fresh_buffer reserved_cache (Some 1%positive)) as Hb.
  { intros b [= <-]. split; [|by eexists]. intros p e He Hin. by destruct (reserved_owned _ _ _ He Hin). }
  assert (∀ e, view reserved_cache "k" = Some e →
    length (queue e) < 9 ∧ (refCount e + Z.of_nat (length (queue e)) < size_t_mod)%Z) as Hq.
  { intros e He. rewrite reserved_view in He. injection He as <-. split; [simpl; lia|done]. }
  pose proof (put_correct (reserved_cache, []) [] 9 "k" (Some 1%positive) 1 reserved_wf Hsz Hb Hq) as H.
  rewrite decide_False in H by (apply (bool_decide_unpack _); vm_compute; exact I).
  destruct H as (r & c' & calls & Hrun & Hwf & Hother & Hcase).
  change (cache_of (reserved_cache, [])) with reserved_cache in Hcase.
  rewrite reserved_view in Hcase. destruct Hcase as (-> & _ & _ & _ & ks & Hks & ->).
  exists true, c', (map (λ k, (k, mkCacheData (Some 1%positive) 1 true)) ks).
  split_and!; [exact Hrun|exact Hwf|exact Hother|done|].
  apply Forall2_cons_inv_l in Hks as (k & ks' & Hk & Hks' & ->).
  apply Forall2_nil_inv_l in Hks' as ->. injection Hk as <-. done.
Defined.

Lemma get_correct_witness :
  ∃ r c' calls fl',
    runs (get "k" (Some 4%positive)) (reserved_cache, []) r c' ([] ++ calls) ∧
    wf c' fl' ∧ r = true ∧ calls = [].
Proof.
  destruct (get_correct (reserved_cache, []) [] "k" 4%positive 40)
    as (r & c' & calls & fl' & Hrun & Hwf & _ & _ & _ & Hcase).
  - apply reserved_wf.
  - split; [|done]. intros p e He Hin. by destruct (reserved_owned _ _ _ He Hin).
  - intros e He. cbn [cache_of test_client fst] in He.
    rewrite reserved_view in He. injection He as <-. done.
  - change (cache_of (reserved_cache, [])) with reserved_cache in Hcase.
    rewrite reserved_view in Hcase. destruct Hcase as (-> & -> & _).
    by exists true, c', [], fl'.
Defined.

Lemma cancelReservation_correct_witness :
  ∃ r c' calls,
    runs (cancelReservation 9 "k") (reserved_cache, []) r c' ([] ++ calls) ∧
    wf c' [] ∧ r = true ∧ view c' "k" = Some (with_isReserved false reserved_entry).
Proof.
  destruct (cancelReservation_correct (reserved_cache, []) [] 9 "k")
    as (r & c' & calls & Hrun & Hwf & _ & Hcase).
  - apply reserved_wf.
  - intros e He. cbn [cache_of test_client fst] in He.
    rewrite reserved_view in He. injection He as <-. simpl. lia.
  - change (cache_of (reserved_cache, [])) with reserved_cache in Hcase.
    rewrite reserved_view in Hcase. destruct Hcase as (-> & Hview & _).
    by exists true, c', calls.
Defined.

Lemma reserve_correct_witness :
  ∃ r c', reserve "k" test_cache = Ok (r, c') ∧ r = true ∧ wf c' [].
Proof.
  destruct (reserve_correct test_cache [] "k") as (r & c' & Hrun & _ & _ & Hcase).
  - apply test_wf.
  - vm_compute. lia.
  - change (view test_cache "k") with (@None CacheEntry) in Hcase.
    destruct Hcase as (-> & _ & Hwf). by exists true, c'.
Defined.

Lemma requeue_use_after_free_witness :
  ∃ w1 w2, put 9 "k" (Some 1%positive) 1 (reserved_cache, []) = Ok (true, w1) ∧
    lift (reserve "k") w1 = Ok (true, w2) ∧
    cancelReservation 10 "k" w2 = Fault UseAfterFree.
Proof.
  apply (requeue_use_after_free (reserved_cache, []) [] 9 9 "k" (Some 1%positive) 1
    reserved_entry); try done; try (vm_compute; lia).
  - apply reserved_wf.
  - intros b [= <-]. split; [|by eexists]. intros p e He Hin.
    by destruct (reserved_owned _ _ _ He Hin).
Defined.

Lemma cancelled_key_hits_witness :
  ∃ w1 w2, cancelReservation 9 "k" (reserved_cache, []) = Ok (true, w1) ∧
    get "k" (Some 4%positive) w1 = Ok (true, w2) ∧
    log w2 = log w1 ++ [(40, mkCacheData None 0 true)].
Proof.
  apply (cancelled_key_hits (reserved_cache, []) [] 9 "k" 4%positive 40 reserved_entry);
    try done; try (vm_compute; lia).
  - apply reserved_wf.
  - split; [|done]. intros p e He Hin. by destruct (reserved_owned _ _ _ He Hin).
Defined.

(** A cache of five bytes, over its quota of four. *)
Definition full_entry : CacheEntry := CacheEntry_full 5%positive (Some 1%positive) 5.
Definition full_cache : Cache nat (FastFIFO.FastFIFO loc) :=
  set_currentSize 5 (insert_state "k" full_entry (alloc_state (BName "k") test_cache)).

Lemma full_wf : wf full_cache [].
Proof.
  apply wf_set_currentSize; [|done].
  apply wf_insert_named; [apply test_wf|done|done|apply test_buffer].
Qed.

Lemma full_view : view full_cache "k" = Some full_entry.
Proof. reflexivity. Qed.

(** The same after the only reference was given back. *)
Lemma released_cache :
  ∃ c n p e, release "k" full_cache = Ok (tt, c) ∧ wf c [(n, Some p)] ∧
    view c "k" = Some e ∧ refCount e = 0%Z.
Proof.
  destruct (release_ok full_cache [] "k" full_entry full_wf full_view)
    as (c & fl & e & Hrun & Hwf & _ & _ & Hv & Hz & _ & _ & _ & Hfl); [done|done|].
  destruct (Hfl Hz) as (n & p & _ & ->).
  exists c, n, p, e. split_and!; [done|done|by rewrite Hv|done].
Qed.

Lemma doneWith_correct_witness :
  ∃ c1 fl1 e1,
    doneWith 9 "k" full_cache = cleanup 9 1 c1 ∧ wf c1 fl1 ∧ refCount e1 = 0%Z ∧
    view c1 "k" = Some e1.
Proof.
  pose proof (doneWith_correct full_cache [] 9 "k" full_wf) as Hcase.
  rewrite full_view in Hcase. destruct Hcase as (c1 & fl1 & e1 & Hrun & Hwf & _ & _ & Hv & Hz & _).
  - intros e [= <-]. done.
  - exists c1, fl1, e1. split_and!; [exact Hrun|exact Hwf|exact Hz|by rewrite Hv].
Defined.

Lemma cleanup_correct_witness :
  ∃ c (ks : list (string * CacheEntry)) n c', release "k" full_cache = Ok (tt, c) ∧ length ks = 1 ∧
    cleanup 9 1 c = Ok (tt, c') ∧
    (∀ k, view c' k = if decide (k ∈ (take n ks).*1) then None else view c k).
Proof.
  destruct released_cache as (c & n & p & e & Hrel & Hwf & _).
  destruct (free_entries_exist _ _ Hwf) as [ks Hks].
  pose proof (Forall2_length _ _ _ Hks) as Hlen. simpl in Hlen.
  pose proof (cleanup_correct c [(n, Some p)] ks 9 1 Hwf Hks ltac:(lia)) as H.
  rewrite decide_False in H by (intros [?| ->]; [lia|discriminate Hlen]).
  destruct H as (m & c' & Hrun & _ & _ & _ & Hv & _).
  by exists c, ks, m, c'.
Defined.

Lemma cleanup_keeps_referenced_witness :
  ∃ c', cleanup 9 1 full_cache = Ok (tt, c') ∧ view c' "k" = Some full_entry.
Proof.
  apply (cleanup_keeps_referenced full_cache [] 9 1 "k" full_entry);
    [done|apply full_wf|simpl; lia|apply full_view|done].
Defined.

End witnesses.

Lemma strCpy_overflows_witness :
  let HP := {| usable n := n; freed_readable := true |} in
  reserve "k" test_cache (HP := HP) = Fault HeapOverflow ∧
  put 9 "k" (Some 1%positive) 1 test_w (HP := HP) = Fault HeapOverflow.
Proof.
  apply (CacheKey.strCpy_overflows (HP := {| usable n := n; freed_readable := true |})
    test_w test_cache 9 "k" (Some 1%positive) 1). done.
Defined.

Lemma cleanup_use_after_free_witness :
  ∃ c, release "k" full_cache (HP := test_platform false) = Ok (tt, c) ∧
    cleanup (S 8) 1 c (HP := test_platform false) = Fault UseAfterFree.
Proof.
  destruct (released_cache) as (c & n & p & e & Hrel & Hwf & _).
  exists c. split; [exact Hrel|].
  apply (cleanup_use_after_free (HP := test_platform false) c n p []); [done|exact Hwf|done].
Defined.

End CacheDefects.
