(* ===== verification/CacheRun.v ===== *)
(** The operations of the cache in a program whose callbacks run code.

    [CacheProps] describes them for a client that only records the calls.  Here
    the program is a pair of the cache and a rest, and the callbacks are any
    operation on the pair: what [get] does on each branch, and a rule for each
    of the loops over the callbacks that wait for a key. *)
From S2P Require Import Prelude FastFIFO Cache CacheProps.

Module CacheRun.
Import Cache CacheProps.

Section run.
Context {K F R : Type} `{HF : FIFO F loc} `{HL : !FIFOLaws F loc} `{HP : Platform}.
Variable run : K → CacheData → prog (Cache K F * R) unit.
Implicit Types (c : Cache K F) (r : R) (w : Cache K F * R) (e : CacheEntry).

Instance running : CacheClient (Cache K F * R) K F := {|
  cache_of := fst;
  set_cache c w := (c, w.2);
  run_callback := run;
|}.

Lemma lift_run {A} (m : prog (Cache K F) A) c r a c' : m c = Ok (a, c') → lift m (c, r) = Ok (a, (c', r)).
Proof. unfold lift. simpl. by intros ->. Qed.

Lemma lift_bind {A B} (m : prog (Cache K F) A) (k : A → prog _ B) c r a c' :
  m c = Ok (a, c') → pbind (lift m) k (c, r) = k a (c', r).
Proof. intros H. apply pbind_ok. by apply lift_run. Qed.

Lemma call_run cb d k c r w :
  heap c !! cb = Some (BCallback k) → run k d (c, r) = Ok (tt, w) → call cb d (c, r) = Ok (tt, w).
Proof. intros Hcb Hr. unfold call. by rewrite (lift_bind _ _ _ _ _ _ (load_block_ok _ _ _ Hcb)). Qed.

(** ** [get] *)

Lemma get_miss key cb b c r :
  cacheMap_ c !! key = None → heap c !! cb = Some b →
  get key (Some cb) (c, r) = Ok (false, (set_heap (delete cb (heap c)) c, r)).
Proof.
  intros Hk Hb. unfold get. erewrite lift_bind by reflexivity. rewrite Hk.
  by rewrite (lift_bind _ _ _ _ _ _ (free_block_ok _ _ _ Hb)).
Qed.

Lemma get_wait key cb p e c r :
  cacheMap_ c !! key = Some p → entries c !! p = Some e → isReserved e = true →
  get key (Some cb) (c, r) =
    Ok (true, (set_entries (<[p := with_queue (queue e ++ [cb]) e]> (entries c)) c, r)).
Proof.
  intros Hk He Hr. unfold get. erewrite lift_bind by reflexivity. rewrite Hk.
  rewrite (lift_bind _ _ _ _ _ _ (load_entry_ok _ _ _ He)), Hr.
  by erewrite lift_bind by (apply update_entry_ok; exact He).
Qed.

Lemma get_hit key cb k p e c r r' :
  cacheMap_ c !! key = Some p → entries c !! p = Some e → isReserved e = false →
  freeListRef e = None → heap c !! cb = Some (BCallback k) →
  run k (mkCacheData (data e) (size e) true) (c, r) = Ok (tt, (c, r')) →
  get key (Some cb) (c, r) =
    Ok (true, (set_heap (delete cb (heap c))
                (set_entries (<[p := with_refCount (wrap_size (refCount e + 1)) e]> (entries c)) c), r')).
Proof.
  intros Hk He Hr Hfl Hcb Hrun. unfold get. erewrite lift_bind by reflexivity. rewrite Hk.
  rewrite (lift_bind _ _ _ _ _ _ (load_entry_ok _ _ _ He)), Hr.
  erewrite pbind_ok.
  2:{ erewrite pbind_ok by reflexivity. rewrite (pbind_ok _ _ _ _ _ (call_run _ _ _ _ _ _ Hcb Hrun)).
      rewrite (lift_bind _ _ _ _ _ _ (update_entry_ok _ _ _ _ He)).
      erewrite lift_bind by (apply load_entry_ok; simpl; apply lookup_insert_eq). simpl.
      rewrite Hfl. erewrite pbind_ok by reflexivity. apply lift_run. by eapply free_block_ok. }
  done.
Qed.

(** ** The loops over the waiting callbacks *)

(** [I q w]: the state when the callbacks [q] of the queue [Q] are left. *)
Lemma put_loop_rule (I : list loc → Cache K F * R → Prop) p d Q :
  (∀ cb q w, I (cb :: q) w → ∃ e k r1,
     entries w.1 !! p = Some e ∧ queue e = Q ∧ heap w.1 !! cb = Some (BCallback k) ∧
     let c1 := set_entries (<[p := with_refCount (wrap_size (refCount e + 1)) e]> (entries w.1)) w.1 in
     run k d (c1, w.2) = Ok (tt, (c1, r1)) ∧ I q (set_heap (delete cb (heap c1)) c1, r1)) →
  (∀ w, I [] w → ∃ e, entries w.1 !! p = Some e ∧ queue e = Q) →
  ∀ fuel i q w, drop i Q = q → length q < fuel → I q w →
    ∃ w', put_loop fuel p i d w = Ok (tt, w') ∧ I [] w'.
Proof.
  intros Hstep Hend. induction fuel as [|fuel IH]; intros i q [c r] Hq Hf HI; [lia|]. simpl.
  destruct q as [|cb q].
  - destruct (Hend _ HI) as (e & He & HQ). rewrite (lift_bind _ _ _ _ _ _ (load_entry_ok _ _ _ He)), HQ.
    rewrite <-(Nat.add_0_r i), <-lookup_drop, Hq. by exists (c, r).
  - destruct (Hstep _ _ _ HI) as (e & k & r1 & He & HQ & Hcb & Hrun & HI'). simpl in *.
    rewrite (lift_bind _ _ _ _ _ _ (load_entry_ok _ _ _ He)), HQ.
    rewrite <-(Nat.add_0_r i), <-lookup_drop, Hq. simpl.
    rewrite (lift_bind _ _ _ _ _ _ (update_entry_ok _ _ _ _ He)).
    erewrite pbind_ok by (eapply call_run; [exact Hcb|exact Hrun]).
    erewrite lift_bind by (eapply free_block_ok; exact Hcb).
    apply (IH _ q); [|simpl in *; lia|done].
    rewrite Nat.add_0_r, <-Nat.add_1_r, <-drop_drop, Hq. done.
Qed.

Lemma cancel_loop_rule (I : list loc → Cache K F * R → Prop) p Q :
  (∀ cb q w, I (cb :: q) w → ∃ e k w1 b,
     entries w.1 !! p = Some e ∧ queue e = Q ∧ heap w.1 !! cb = Some (BCallback k) ∧
     run k (mkCacheData None 0 false) w = Ok (tt, w1) ∧ heap w1.1 !! cb = Some b ∧
     I q (set_heap (delete cb (heap w1.1)) w1.1, w1.2)) →
  (∀ w, I [] w → ∃ e, entries w.1 !! p = Some e ∧ queue e = Q) →
  ∀ fuel i q w, drop i Q = q → length q < fuel → I q w →
    ∃ w', cancel_loop fuel p i w = Ok (tt, w') ∧ I [] w'.
Proof.
  intros Hstep Hend. induction fuel as [|fuel IH]; intros i q [c r] Hq Hf HI; [lia|]. simpl.
  destruct q as [|cb q].
  - destruct (Hend _ HI) as (e & He & HQ). rewrite (lift_bind _ _ _ _ _ _ (load_entry_ok _ _ _ He)), HQ.
    rewrite <-(Nat.add_0_r i), <-lookup_drop, Hq. by exists (c, r).
  - destruct (Hstep _ _ _ HI) as (e & k & [c1 r1] & b & He & HQ & Hcb & Hrun & Hb & HI'). simpl in *.
    rewrite (lift_bind _ _ _ _ _ _ (load_entry_ok _ _ _ He)), HQ.
    rewrite <-(Nat.add_0_r i), <-lookup_drop, Hq. simpl.
    erewrite pbind_ok by (eapply call_run; [exact Hcb|exact Hrun]).
    erewrite lift_bind by (eapply free_block_ok; exact Hb).
    apply (IH _ q); [|simpl in *; lia|done].
    rewrite Nat.add_0_r, <-Nat.add_1_r, <-drop_drop, Hq. done.
Qed.

(** ** [put] and [cancelReservation] on a reserved key *)

Lemma put_rule (I : list loc → Cache K F * R → Prop) fuel key d n p e c r :
  cacheMap_ c !! key = Some p → entries c !! p = Some e → isReserved e = true →
  String.length key < usable (String.length key) →
  (∀ cb q w, I (cb :: q) w → ∃ e1 k r1,
     entries w.1 !! p = Some e1 ∧ queue e1 = queue e ∧ heap w.1 !! cb = Some (BCallback k) ∧
     let c1 := set_entries (<[p := with_refCount (wrap_size (refCount e1 + 1)) e1]> (entries w.1)) w.1 in
     run k (mkCacheData d n true) (c1, w.2) = Ok (tt, (c1, r1)) ∧
     I q (set_heap (delete cb (heap c1)) c1, r1)) →
  (∀ w, I [] w → (∃ e1, entries w.1 !! p = Some e1 ∧ queue e1 = queue e) ∧
     heap w.1 !! brk c = Some (BName key)) →
  I (queue e) (set_entries (<[p := with_data d n e]> (entries c)) (alloc_state (BName key) c), r) →
  length (queue e) < fuel →
  ∃ w1 e1, I [] w1 ∧ entries w1.1 !! p = Some e1 ∧
    put fuel key d n (c, r) = Ok (true,
      (set_heap (delete (brk c) (heap w1.1))
         (set_entries (<[p := with_isReserved false e1]> (entries w1.1)) w1.1), w1.2)).
Proof.
  intros Hk He Hr Hlen Hstep Hend HI0 Hf. unfold put.
  rewrite (lift_bind _ _ _ _ _ _ (strCpy_ok _ _ Hlen)).
  erewrite lift_bind by (apply map_insert_old; exact Hk). cbn beta iota.
  erewrite lift_bind by (apply load_entry_ok; exact He). rewrite Hr.
  destruct (put_loop_rule I p (mkCacheData d n true) (queue e) Hstep (λ w H, proj1 (Hend w H))
    fuel 0 (queue e) _ eq_refl Hf HI0) as ([c1 r1] & Hl & HI).
  destruct (Hend _ HI) as [(e1 & He1 & _) Hb].
  exists (c1, r1), e1. split; [done|]. split; [done|]. simpl in *.
  erewrite pbind_ok.
  2:{ erewrite lift_bind by (apply update_entry_ok; exact He).
      rewrite (pbind_ok _ _ _ _ _ Hl). apply lift_run. apply update_entry_ok. exact He1. }
  by erewrite lift_bind by (eapply free_block_ok; exact Hb).
Qed.

(** [put] when one callback waits. *)
Lemma put_one fuel key d n p e cb k c r r' :
  cacheMap_ c !! key = Some p → entries c !! p = Some e → isReserved e = true →
  queue e = [cb] → heap c !! cb = Some (BCallback k) → heap c !! brk c = None →
  String.length key < usable (String.length key) → 1 < fuel → is_size (refCount e + 1) →
  (∀ c', (∀ b x, heap c !! b = Some x → heap c' !! b = Some x) →
     run k (mkCacheData d n true) (c', r) = Ok (tt, (c', r'))) →
  put fuel key d n (c, r) = Ok (true,
    (set_heap (delete cb (heap c)) (set_entries (<[p := filled e d n]> (entries c)) (skip_address c)), r')).
Proof.
  intros Hk He Hr Hq Hcb Hbrk Hlen Hf Hsz Hrun.
  assert (cb ≠ brk c) as Hne by congruence.
  set (c0 := set_entries (<[p := with_data d n e]> (entries c)) (alloc_state (BName key) c)).
  set (c1 := set_heap (delete cb (heap c0))
    (set_entries (<[p := with_refCount (refCount e + 1) (with_data d n e)]> (entries c)) c0)).
  set (I := λ q w, q = [cb] ∧ w = (c0, r) ∨ q = [] ∧ w = (c1, r')).
  destruct (put_rule I fuel key d n p e c r) as (w1 & e1 & HI & He1 & ->); try done.
  - intros cb' q w [[[= -> ->] ->]|[? _]]; [|done].
    exists (with_data d n e), k, r'. simpl. rewrite lookup_insert_eq, lookup_insert_ne by done.
    split_and!; try done.
    + apply Hrun. intros b x Hb. simpl. rewrite lookup_insert_ne by congruence. done.
    + right. split; [done|]. rewrite insert_insert_eq, wrap_size_id by done. done.
  - intros w [[? _]|[_ ->]]; [done|]. simpl. rewrite lookup_insert_eq.
    split; [by eexists|]. by rewrite lookup_delete_ne, lookup_insert_eq.
  - left. by rewrite Hq.
  - by rewrite Hq.
  - destruct HI as [[? _]|[_ ->]]; [done|]. simpl in *. rewrite lookup_insert_eq in He1. injection He1 as <-.
    unfold set_heap, set_entries, skip_address, filled. simpl. rewrite insert_insert_eq, Hq.
    rewrite delete_delete, delete_insert_id by done. done.
Qed.

Lemma cancel_rule (I : list loc → Cache K F * R → Prop) fuel key p e c r :
  cacheMap_ c !! key = Some p → entries c !! p = Some e → isReserved e = true →
  (∀ cb q w, I (cb :: q) w → ∃ e1 k w1 b,
     entries w.1 !! p = Some e1 ∧ queue e1 = queue e ∧ heap w.1 !! cb = Some (BCallback k) ∧
     run k (mkCacheData None 0 false) w = Ok (tt, w1) ∧ heap w1.1 !! cb = Some b ∧
     I q (set_heap (delete cb (heap w1.1)) w1.1, w1.2)) →
  (∀ w, I [] w → ∃ e1, entries w.1 !! p = Some e1 ∧ queue e1 = queue e) →
  I (queue e) (set_entries (<[p := with_isReserved false e]> (entries c)) c, r) →
  length (queue e) < fuel →
  ∃ w', cancelReservation fuel key (c, r) = Ok (true, w') ∧ I [] w'.
Proof.
  intros Hk He Hr Hstep Hend HI0 Hf. unfold cancelReservation.
  erewrite lift_bind by reflexivity. rewrite Hk.
  erewrite lift_bind by (apply load_entry_ok; exact He). rewrite Hr.
  erewrite lift_bind by (apply update_entry_ok; exact He).
  destruct (cancel_loop_rule I p (queue e) Hstep Hend fuel 0 (queue e) _ eq_refl Hf HI0) as (w' & Hl & HI).
  exists w'. split; [|done]. by rewrite (pbind_ok _ _ _ _ _ Hl).
Qed.

End run.

(** ** What the operations keep of the rest *)

Section keeps.
Context {K F R : Type} `{HF : FIFO F loc} `{HP : Platform}.
Variable run : K → CacheData → prog (Cache K F * R) unit.
#[local] Existing Instance running.
Variable Q : R → Prop.
Abbreviation kept := (keeps (λ w : Cache K F * R, Q w.2)).

Lemma keeps_lift {A} (m : prog (Cache K F) A) : kept (lift (HC := running run) m).
Proof.
  intros [c r] a [c' r'] Hr Hm. unfold lift in Hm. simpl in *. destruct (m c) as [[b c1]|]; [|done].
  by injection Hm as _ <- <-.
Qed.
#[local] Hint Resolve keeps_lift : keeps.

Hypothesis run_kept : ∀ k d, kept (run k d).
#[local] Hint Resolve run_kept : keeps.

Lemma call_kept cb d : kept (call (HC := running run) cb d).
Proof. unfold call, run_callback. simpl. keep. Qed.
#[local] Hint Resolve call_kept : keeps.

Lemma put_loop_kept fuel p i d : kept (put_loop (HC := running run) fuel p i d).
Proof. revert i. induction fuel as [|fuel IH]; intros i; simpl; keep. Qed.

Lemma cancel_loop_kept fuel p i : kept (cancel_loop (HC := running run) fuel p i).
Proof. revert i. induction fuel as [|fuel IH]; intros i; simpl; keep. Qed.
#[local] Hint Resolve put_loop_kept cancel_loop_kept : keeps.

Lemma put_kept fuel key d n : kept (put (HC := running run) fuel key d n).
Proof. unfold put. keep. Qed.

Lemma get_kept key cb : kept (get (HC := running run) key cb).
Proof. unfold get. keep. Qed.

Lemma cancelReservation_kept fuel key : kept (cancelReservation (HC := running run) fuel key).
Proof. unfold cancelReservation. keep. Qed.

End keeps.
End CacheRun.
