(* ===== verification/CacheCost.v ===== *)
(** What the operations of the cache spend of a potential of the callbacks.

    Every callback object in the heap has a weight; allocating one raises the
    potential, deleting it gives the weight back, and this pays for running the
    closure.  So the operations that run callbacks - [get], [put],
    [cancelReservation] - are free. *)
From S2P Require Import Prelude FastFIFO Cache CacheProps CacheRun.

Module CacheCost.
Import Cache CacheProps CacheRun.

Section heap.
Context {K F : Type} `{HF : FIFO F loc} `{HP : Platform}.
Variable cw : K → nat.
Implicit Types (c : Cache K F) (b : block K).

Definition block_weight b : nat := match b with BCallback k => cw k | _ => 0 end.
Definition heap_weight c : Z := Z.of_nat (map_weight block_weight (heap c)).

(** The allocator is ahead of all live blocks, and no block is ever changed. *)
Definition below c : Prop := ∀ l, is_Some (heap c !! l) → (l < brk c)%positive.
Definition old c c' : Prop :=
  (brk c ≤ brk c')%positive ∧ ∀ l b, heap c' !! l = Some b → (l < brk c)%positive → heap c !! l = Some b.

#[export] Instance old_preorder : PreOrder old.
Proof.
  split; [by split; [lia|]|]. intros c1 c2 c3 [H1 H2] [H3 H4]. split; [lia|].
  intros l b Hl Hlt. apply H2; [|done]. apply H4; [done|lia].
Qed.

Abbreviation spends := (spends below old heap_weight).

(** What leaves the heap alone is free. *)
Lemma spends_heap {A} (m : prog (Cache K F) A) :
  (∀ c a c', m c = Ok (a, c') → heap c' = heap c ∧ (brk c ≤ brk c')%positive) → spends m (λ _, 0%Z).
Proof.
  intros Hm c a c' Hc Hx. destruct (Hm _ _ _ Hx) as [E Hb]. unfold below, old, heap_weight. rewrite E.
  split; [|split; [split; [done|by intros l b ?]|lia]]. intros l Hl. specialize (Hc l Hl). lia.
Qed.

Lemma load_block_free p : spends (load_block p) (λ _, 0%Z).
Proof. apply spends_heap. intros c a c'. unfold load_block. destruct (heap c !! p); [|done]. by intros [= _ <-]. Qed.
Lemma load_entry_free p : spends (load_entry p) (λ _, 0%Z).
Proof. apply spends_heap. intros c a c'. unfold load_entry. repeat case_match; try done; by intros [= _ <-]. Qed.
Lemma map_insert_free key e : spends (map_insert key e) (λ _, 0%Z).
Proof. apply spends_heap. intros c a c'. unfold map_insert. case_match; intros [= _ <-]; simpl; split; [done|lia|done|lia]. Qed.
Lemma map_find_free key : spends (map_find key) (λ _, 0%Z).
Proof. apply spends_heap. by intros c a c' [= _ <-]. Qed.
Lemma freeList_free {A} (m : prog F A) : spends (freeList m) (λ _, 0%Z).
Proof. apply spends_heap. intros c a c'. unfold freeList. destruct (m (freeList_ c)) as [[x l]|]; [|done]. by intros [= _ <-]. Qed.
Lemma modify_free f : (∀ c, heap (f c) = heap c ∧ (brk c ≤ brk (f c))%positive) → spends (pmodify f) (λ _, 0%Z).
Proof. intros Hf. apply spends_heap. intros c a c' [= _ <-]. apply Hf. Qed.

Lemma free_block_free p : spends (free_block p) (λ _, 0%Z).
Proof.
  intros c a c' Hc. unfold free_block. destruct p as [p|]; [|intros [= _ <-]; split_and!; [done..|lia]].
  destruct (heap c !! p) as [b|] eqn:Hb; [|done]. intros [= _ <-]. split; [|split].
  - intros l. simpl. intros [x [_ Hx]%lookup_delete_Some]. apply Hc. by exists x.
  - split; [done|]. simpl. by intros l x [_ Hx]%lookup_delete_Some.
  - unfold heap_weight. simpl. rewrite (map_weight_delete block_weight _ _ _ Hb). lia.
Qed.

(** Deleting a callback gives its weight back. *)
Lemma free_callback c0 p k :
  below c0 → heap c0 !! p = Some (BCallback k) →
  Prelude.spends (λ c, below c ∧ old c0 c) old heap_weight (free_block (Some p)) (λ _, - Z.of_nat (cw k))%Z.
Proof.
  intros Hc0 Hp c a c' [Hc Hold] Hx. destruct (free_block_free _ _ _ _ Hc Hx) as (H1 & H2 & _).
  unfold free_block in Hx. destruct (heap c !! p) as [b|] eqn:Hb; [|done]. injection Hx as _ <-.
  split; [split; [done|by etrans]|]. split; [done|]. unfold heap_weight. simpl.
  rewrite (map_weight_delete block_weight _ _ _ Hb).
  assert (b = BCallback k) as ->; [|simpl; lia].
  destruct Hold as [_ Hold]. specialize (Hold p b Hb). rewrite Hp in Hold. by injection Hold; [|apply Hc0; by eexists].
Qed.

Lemma alloc_spends b : spends (alloc b) (λ _, Z.of_nat (block_weight b)).
Proof.
  intros c a c' Hc [= <- <-]. assert (heap c !! brk c = None) as Hn.
  { destruct (heap c !! brk c) as [x|] eqn:E; [|done]. specialize (Hc (brk c) ltac:(by rewrite E)). lia. }
  split; [|split].
  - intros l. simpl. intros [x [[<- _]|[_ Hx]]%lookup_insert_Some]; [lia|]. assert (is_Some (heap c !! l)) as ?%Hc by by exists x. lia.
  - split; simpl; [lia|]. intros l x [[<- _]|[_ Hx]]%lookup_insert_Some ?; [lia|done].
  - unfold heap_weight. simpl. rewrite map_weight_insert by done. lia.
Qed.

Lemma alloc_free b : block_weight b = 0 → spends (alloc b) (λ _, 0%Z).
Proof. intros E. eapply spends_le; [|apply alloc_spends]. intros ?. simpl. by rewrite E. Qed.

#[local] Hint Resolve load_block_free load_entry_free map_insert_free map_find_free freeList_free free_block_free : spends.
#[local] Hint Extern 2 (Prelude.spends _ _ _ (pmodify _) _) =>
  (apply modify_free; intros ?; repeat case_match; simpl; (split; [done|lia])) : spends.
#[local] Hint Extern 2 (Prelude.spends _ _ _ (alloc _) _) => (apply alloc_free; done) : spends.

Lemma strCpy_free s : spends (strCpy s) (λ _, 0%Z).
Proof. unfold strCpy. spend. Qed.
Lemma update_entry_free p g : spends (update_entry p g) (λ _, 0%Z).
Proof. unfold update_entry. spend. Qed.
Lemma map_erase_free p : spends (map_erase p) (λ _, 0%Z).
Proof. unfold map_erase. spend. Qed.
#[local] Hint Resolve strCpy_free update_entry_free map_erase_free : spends.

Lemma deallocate_free p : spends (deallocate p) (λ _, 0%Z).
Proof. unfold deallocate. spend. Qed.
#[local] Hint Resolve deallocate_free : spends.
Lemma cleanup_loop_free fuel space freed : spends (cleanup_loop fuel space freed) (λ _, 0%Z).
Proof. revert freed. induction fuel as [|fuel IH]; intros freed; simpl; spend. Qed.
#[local] Hint Resolve cleanup_loop_free : spends.
Lemma reserve_free key : spends (reserve key) (λ _, 0%Z).
Proof. unfold reserve. spend. Qed.
Lemma release_free key : spends (release key) (λ _, 0%Z).
Proof. unfold release. spend. Qed.
#[local] Hint Resolve release_free : spends.
Lemma doneWith_free fuel key : spends (doneWith fuel key) (λ _, 0%Z).
Proof. unfold doneWith, cleanup. spend. Qed.

End heap.

#[export] Hint Resolve load_block_free load_entry_free map_insert_free map_find_free freeList_free free_block_free
  strCpy_free update_entry_free reserve_free doneWith_free : spends.
#[export] Hint Extern 2 (Prelude.spends _ _ _ (pmodify _) _) =>
  (apply modify_free; intros ?; repeat case_match; simpl; (split; [done|lia])) : spends.
#[export] Hint Extern 2 (Prelude.spends _ _ _ (alloc _) _) => (apply alloc_free; done) : spends.

(** ** With callbacks that run code *)

Section run.
Context {K F R : Type} `{HF : FIFO F loc} `{HP : Platform}.
Variable cw : K → nat.
Variable run : K → CacheData → prog (Cache K F * R) unit.
#[local] Existing Instance running.
Implicit Types (w : Cache K F * R) (k : K).

(** The potential of the rest, and what is kept of it. *)
Variable rest_ok : R → Prop.
Variable rest_weight : R → Z.
Definition both_ok w : Prop := below w.1 ∧ rest_ok w.2.
Definition grown w w' : Prop := old w.1 w'.1.
Definition weight w : Z := (heap_weight cw w.1 + rest_weight w.2)%Z.

#[export] Instance grown_preorder : PreOrder grown.
Proof.
  unfold grown. split; [intros w; reflexivity|intros w1 w2 w3 ? ?; by transitivity w2.1].
Qed.

Abbreviation spends := (spends both_ok grown weight).
Abbreviation after w0 := (Prelude.spends (λ w, both_ok w ∧ grown w0 w) grown weight).

Lemma lift_spends {A} (m : prog (Cache K F) A) b :
  Prelude.spends below old (heap_weight cw) m b → spends (lift (HC := running run) m) b.
Proof.
  intros Hm [c r] a [c' r'] [Hc Hr] Hx. unfold lift in Hx. simpl in *. destruct (m c) as [[x c1]|] eqn:E; [|done].
  injection Hx as -> <- <-. destruct (Hm _ _ _ Hc E) as (? & ? & ?). split; [done|]. split; [done|]. unfold weight. simpl. lia.
Qed.

#[local] Hint Extern 3 (Prelude.spends _ _ _ (lift _) _) => (apply lift_spends; solve [auto with spends]) : spends.
#[local] Hint Extern 4 (Prelude.spends (λ w, both_ok w ∧ grown _ w) _ _ _ _) =>
  (apply spends_from; [tc_solve|solve [auto with spends]]) : spends.

Section callback.
Variables (w0 : Cache K F * R) (cb : loc) (k : K).
Hypothesis Hw0 : below w0.1.
Hypothesis Hcb : heap w0.1 !! cb = Some (BCallback k).

Lemma known_callback w x : grown w0 w → heap w.1 !! cb = Some x → x = BCallback k.
Proof. intros [_ Hold] Hx. specialize (Hold cb x Hx). rewrite Hcb in Hold. by injection Hold; [|apply Hw0; by eexists]. Qed.

Lemma free_known : after w0 (lift (HC := running run) (free_block (Some cb))) (λ _, - Z.of_nat (cw k))%Z.
Proof.
  intros [c r] a [c' r'] [[Hc Hr] Hg] Hx. unfold lift in Hx. cbn [cache_of running fst snd] in *.
  destruct (free_block (Some cb) c) as [[x c1]|] eqn:E; [|done]. injection Hx as <- <- <-.
  destruct (free_callback cw w0.1 cb k Hw0 Hcb c x c1) as ([? ?] & ? & ?); [by split|done|].
  split; [done|]. split; [done|]. unfold weight. simpl. lia.
Qed.

Hypothesis run_spends : ∀ d, spends (run k d) (λ _, Z.of_nat (cw k)).

Lemma call_known d : after w0 (call (HC := running run) cb d) (λ _, Z.of_nat (cw k)).
Proof.
  intros w a w' [Hw Hg] Hx. unfold call in Hx. apply pbind_inv in Hx as (x & w1 & H1 & H2).
  unfold lift, load_block in H1. simpl in H1. destruct (heap w.1 !! cb) as [b|] eqn:Hb; [|done]. injection H1 as <- <-.
  rewrite (known_callback w b Hg Hb) in H2. destruct w as [c r]. simpl in H2.
  destruct (run_spends _ _ _ _ Hw H2) as (? & ? & ?). split; [split; [done|by etrans]|]. done.
Qed.

End callback.

Hypothesis run_spends : ∀ k d, spends (run k d) (λ _, Z.of_nat (cw k)).

(** Running a waiting callback and deleting it is free. *)
Lemma call_free {A} cb d (m : prog (Cache K F * R) A) b :
  spends m b → spends (call (HC := running run) cb d ;;; lift (HC := running run) (free_block (Some cb)) ;;; m) b.
Proof.
  intros Hm w a w' Hw Hx. destruct (heap w.1 !! cb) as [x|] eqn:Hb.
  2:{ unfold call, pbind, lift, load_block in Hx. simpl in Hx. by rewrite Hb in Hx. }
  assert (∃ k, x = BCallback k) as [k ->].
  { destruct x as [s|s|k]; [..|by exists k]; unfold call, pbind, lift, load_block in Hx; simpl in Hx; rewrite Hb in Hx; done. }
  assert (after w (call (HC := running run) cb d ;;; lift (HC := running run) (free_block (Some cb)) ;;; m) b) as H.
  { eapply spends_bind; [tc_solve|exact (call_known _ _ _ (proj1 Hw) Hb (run_spends k) d)|]. intros ?.
    eapply spends_bind; [tc_solve|exact (free_known _ _ _ (proj1 Hw) Hb)|]. intros ?.
    eapply spends_le; [|apply spends_from; [tc_solve|exact Hm]]. intros c. simpl. lia. }
  destruct (H w a w') as ([? _] & ? & ?); [done..|]. done.
Qed.

Lemma put_loop_free fuel p i d : spends (put_loop (HC := running run) fuel p i d) (λ _, 0%Z).
Proof.
  revert i. induction fuel as [|fuel IH]; intros i; simpl; [spend|].
  apply spends_then; [tc_solve|spend|]. intros e. destruct (queue e !! i) as [cb|]; [|spend].
  apply spends_then; [tc_solve|spend|]. intros _. by apply call_free.
Qed.

Lemma cancel_loop_free fuel p i : spends (cancel_loop (HC := running run) fuel p i) (λ _, 0%Z).
Proof.
  revert i. induction fuel as [|fuel IH]; intros i; simpl; [spend|].
  apply spends_then; [tc_solve|spend|]. intros e. destruct (queue e !! i) as [cb|]; [by apply call_free|spend].
Qed.
#[local] Hint Resolve put_loop_free cancel_loop_free : spends.

Lemma put_free fuel key d n : spends (put (HC := running run) fuel key d n) (λ _, 0%Z).
Proof. unfold put. spend. Qed.

Lemma cancelReservation_free fuel key : spends (cancelReservation (HC := running run) fuel key) (λ _, 0%Z).
Proof. unfold cancelReservation. spend. Qed.

(** [get] gives the weight of its callback back if there is no entry. *)
Lemma get_spends w0 key cb k :
  below w0.1 → heap w0.1 !! cb = Some (BCallback k) →
  after w0 (get (HC := running run) key (Some cb)) (λ hit, if hit : bool then 0 else - Z.of_nat (cw k))%Z.
Proof.
  intros Hb Hcb. unfold get. apply spends_then; [tc_solve|spend|]. intros [p|].
  2:{ eapply spends_bind; [tc_solve|exact (free_known _ _ _ Hb Hcb)|]. intros ?. apply spends_ret; [tc_solve|]. simpl. lia. }
  apply spends_then; [tc_solve|spend|]. intros e. apply spends_then; [tc_solve| |intros _; spend].
  assert (after w0 (let! cb := pret cb in
      call (HC := running run) cb (mkCacheData (data e) (size e) true) ;;;
      lift (HC := running run) (update_entry p (λ e, with_refCount (wrap_size (refCount e + 1)) e)) ;;;
      let! e := lift (HC := running run) (load_entry p) in
      match freeListRef e with
      | Some _ =>
        lift (HC := running run) (freeList (fifo_remove (freeListRef e))) ;;;
        lift (HC := running run) (update_entry p (with_freeListRef None))
      | None => pret tt
      end ;;;
      lift (HC := running run) (free_block (Some cb))) (λ _, 0%Z)) as Hcall.
  { apply spends_ret_bind. eapply spends_bind; [tc_solve|exact (call_known _ _ _ Hb Hcb (run_spends k) _)|]. intros ?.
    do 3 (apply spends_then; [tc_solve|spend|intros ?]).
    eapply spends_le; [|exact (free_known _ _ _ Hb Hcb)]. simpl. lia. }
  destruct (isReserved e); [spend|exact Hcall].
Qed.

(** A new callback is known to what follows. *)
Lemma alloc_callback {A} k (m : loc → prog (Cache K F * R) A) b :
  (∀ w0 cb, below w0.1 → heap w0.1 !! cb = Some (BCallback k) → after w0 (m cb) (λ a, b a - Z.of_nat (cw k))%Z) →
  spends (pbind (lift (HC := running run) (alloc (BCallback k))) m) b.
Proof.
  intros Hm w a w' Hw (cb & w1 & H1 & H2)%pbind_inv.
  destruct (lift_spends _ _ (alloc_spends cw (BCallback k)) _ _ _ Hw H1) as (Hw1 & Hg & Hle).
  assert (heap w1.1 !! cb = Some (BCallback k)) as Hcb by (injection H1 as <- <-; simpl; apply lookup_insert_eq).
  destruct (Hm w1 cb (proj1 Hw1) Hcb w1 a w') as ([? _] & ? & ?); [done..|].
  split; [done|]. split; [by etrans|]. simpl in *. lia.
Qed.

End run.
End CacheCost.
