(* ===== verification/Thread.v ===== *)
(** lib/thread.cc: [makeThread] and what the new thread does with its copy of the
    body.  Whether [pthread_create] succeeds is the choice of a step. *)
From S2P Require Import Prelude.

Module Thread.

Section thread.
Context {B : Type}.

(** Where [threadFunction] is, with its argument: before the call of the body,
    inside it, before the deletion. *)
Inductive pc := TCall (c : loc) | TBody (c : loc) | TDelete (c : loc) | TDone.

(** The heap of copies, the threads, and whether [exit] was called; [started] is a
    log of the bodies that were called, with their threads. *)
Record process := mkProcess {
  copies : gmap loc B;
  next : loc;
  threads : gmap loc pc;
  exited : option Z;
  started : list (loc * B);
}.
Implicit Types (s : process) (t c : loc) (b : B).

Definition new_process : process := mkProcess ∅ 1%positive ∅ None [].

Definition copy b : prog process loc := λ s,
  Ok (next s, mkProcess (<[next s := b]> (copies s)) (Pos.succ (next s)) (threads s) (exited s) (started s)).
Definition load c : prog process B := λ s,
  match copies s !! c with Some b => Ok (b, s) | None => Fault UseAfterFree end.
Definition delete_copy c : prog process unit := λ s,
  match copies s !! c with
  | Some _ => Ok (tt, mkProcess (delete c (copies s)) (next s) (threads s) (exited s) (started s))
  | None => Fault DoubleFree
  end.
Definition goto t (p : pc) : prog process unit :=
  pmodify (λ s, mkProcess (copies s) (next s) (<[t := p]> (threads s)) (exited s) (started s)).
Definition log_start t b : prog process unit :=
  pmodify (λ s, mkProcess (copies s) (next s) (threads s) (exited s) (started s ++ [(t, b)])).
Definition exit_process (code : Z) : prog process unit :=
  pmodify (λ s, mkProcess (copies s) (next s) (threads s) (Some code) (started s)).

(** [pthread_create]: the identity of the new thread, if there is one; that of
    its argument serves as well. *)
Definition pthread_create (created : bool) c : prog process (option loc) :=
  if created then goto c (TCall c) ;;; pret (Some c) else pret None.

Definition makeThread (created : bool) b : prog process (option loc) :=
  let! c := copy b in
  let! thread := pthread_create created c in
  match thread with
  | Some t => pret (Some t)
  | None => delete_copy c ;;; exit_process 1 ;;; pret None
  end.

(** The next step of thread [t] in [threadFunction]; [TBody] is the return of the
    body. *)
Definition threadFunction t (p : pc) : prog process unit :=
  match p with
  | TCall c => let! b := load c in log_start t b ;;; goto t (TBody c)
  | TBody c => goto t (TDelete c)
  | TDelete c => delete_copy c ;;; goto t TDone
  | TDone => pret tt
  end.

Inductive event := Make (created : bool) (b : B) | Run (t : loc).

(** A process that has exited takes no more steps. *)
Definition step (e : event) s : outcome (unit * process) :=
  match exited s with
  | Some _ => Ok (tt, s)
  | None =>
    match e with
    | Make created b => match makeThread created b s with Ok (_, s') => Ok (tt, s') | Fault f => Fault f end
    | Run t => match threads s !! t with Some p => threadFunction t p s | None => Ok (tt, s) end
    end
  end.

Inductive reachable : process → Prop :=
  | reachable_new : reachable new_process
  | reachable_step s e s' : reachable s → step e s = Ok (tt, s') → reachable s'.

(** * The invariant *)

Definition argument (p : pc) : option loc := match p with TCall c | TBody c | TDelete c => Some c | TDone => None end.
Definition running (p : pc) : bool := match p with TCall _ => false | _ => true end.

Record inv s : Prop := {
  in_arg t p c : threads s !! t = Some p → argument p = Some c → t = c;
  in_live c : is_Some (copies s !! c) ↔ ∃ p, threads s !! c = Some p ∧ argument p = Some c;
  in_next t : is_Some (threads s !! t) → (t < next s)%positive;
  in_started t : (∃ b, (t, b) ∈ started s) ↔ ∃ p, threads s !! t = Some p ∧ running p = true;
  in_once : NoDup (started s).*1;
}.

Lemma inv_new : inv new_process.
Proof.
  split; simpl; try done.
  - intros c. split; [by intros [? ?%lookup_empty_Some]|by intros (? & ?%lookup_empty_Some & _)].
  - by intros t [? ?%lookup_empty_Some].
  - intros t. split; [by intros [? ?%not_elem_of_nil]|by intros (? & ?%lookup_empty_Some & _)].
  - constructor.
Qed.

Lemma threadFunction_ok t p s :
  inv s → threads s !! t = Some p → ∃ s', threadFunction t p s = Ok (tt, s') ∧ inv s'.
Proof.
  intros [H1 H2 H3 H4 H5] Ht. assert (∀ c, argument p = Some c → t = c ∧ ∃ b, copies s !! c = Some b) as Hc.
  { intros c Hp. pose proof (H1 _ _ _ Ht Hp) as <-. split; [done|]. apply (H2 t). by exists p. }
  assert (t < next s)%positive as Hlt by (apply H3; by exists p).
  assert (∀ p' u q, <[t := p']> (threads s) !! u = Some q → (u = t ∧ q = p') ∨ (u ≠ t ∧ threads s !! u = Some q)) as Hup.
  { intros p' u q [[<- <-]|[? ?]]%lookup_insert_Some; [by left|right; split; [congruence|done]]. }
  assert (∀ p', argument p' = argument p → ∀ c,
    is_Some (copies s !! c) ↔ ∃ q, <[t := p']> (threads s) !! c = Some q ∧ argument q = Some c) as Hlive.
  { intros p' E c. rewrite H2. destruct (decide (c = t)) as [->|Hne].
    - rewrite lookup_insert_eq. split.
      + intros (q & Hq & Ha). exists p'. split; [done|]. congruence.
      + intros (q & [= <-] & Ha). exists p. split; [done|congruence].
    - by rewrite lookup_insert_ne. }
  destruct p as [c|c|c|]; [destruct (Hc c eq_refl) as [<- [b Hb]]..|exists s; by split]; simpl.
  - unfold load. unfold pbind. rewrite Hb. eexists. split; [done|]. split; simpl.
    + intros u q c [[-> ->]|[_ Hu]]%Hup Hq; [by injection Hq|by eapply H1].
    + by apply Hlive.
    + intros u [q [[-> _]|[_ Hu]]%Hup]; [done|]. apply H3. by exists q.
    + intros u. destruct (decide (u = t)) as [->|Hne].
      * rewrite lookup_insert_eq. split; [by exists (TBody t)|]. intros _. exists b. apply elem_of_app. right. by left.
      * rewrite lookup_insert_ne by done. rewrite <-H4. setoid_rewrite elem_of_app. setoid_rewrite list_elem_of_singleton.
        split; [intros [b' [?|[= -> _]]]; [by exists b'|done]|intros [b' ?]; exists b'; by left].
    + rewrite fmap_app. simpl. apply NoDup_app. split; [done|]. split; [|apply NoDup_singleton].
      intros u Hu ->%list_elem_of_singleton. apply list_elem_of_fmap in Hu as ([u b'] & -> & Hin).
      destruct (proj1 (H4 u)) as (q & Hq & Hr); [by exists b'|]. simpl in *. rewrite Ht in Hq. by injection Hq as <-.
  - eexists. split; [done|]. split; simpl.
    + intros u q c [[-> ->]|[_ Hu]]%Hup Hq; [by injection Hq|by eapply H1].
    + by apply Hlive.
    + intros u [q [[-> _]|[_ Hu]]%Hup]; [done|]. apply H3. by exists q.
    + intros u. rewrite H4. destruct (decide (u = t)) as [->|Hne]; [rewrite lookup_insert_eq, Ht; split; intros _; eexists; split; done|by rewrite lookup_insert_ne].
    + done.
  - unfold delete_copy, pbind. rewrite Hb. eexists. split; [done|]. split; simpl.
    + intros u q c [[-> ->]|[_ Hu]]%Hup Hq; [done|by eapply H1].
    + intros c. destruct (decide (c = t)) as [->|Hne].
      * rewrite lookup_delete_eq, lookup_insert_eq. split; [by intros [? ?]|by intros (q & [= <-] & ?)].
      * rewrite lookup_delete_ne, lookup_insert_ne by done. apply H2.
    + intros u [q [[-> _]|[_ Hu]]%Hup]; [done|]. apply H3. by exists q.
    + intros u. rewrite H4. destruct (decide (u = t)) as [->|Hne]; [rewrite lookup_insert_eq, Ht; split; intros _; eexists; split; done|by rewrite lookup_insert_ne].
    + done.
Qed.

Lemma makeThread_ok created b s :
  inv s → ∃ r s', makeThread created b s = Ok (r, s') ∧ inv s' ∧
    if created then r = Some (next s) ∧ threads s' = <[next s := TCall (next s)]> (threads s) ∧ exited s' = exited s
    else r = None ∧ threads s' = threads s ∧ copies s' = copies s ∧ exited s' = Some 1%Z.
Proof.
  intros [H1 H2 H3 H4 H5].
  assert (threads s !! next s = None) as Hn.
  { destruct (threads s !! next s) as [p|] eqn:E; [|done]. specialize (H3 (next s)). rewrite E in H3. pose proof (H3 ltac:(done)). lia. }
  assert (copies s !! next s = None) as Hm.
  { destruct (copies s !! next s) as [b'|] eqn:E; [|done]. destruct (proj1 (H2 (next s))) as (p & Hp & _); [by exists b'|congruence]. }
  destruct created; unfold makeThread, copy, pbind; simpl.
  - eexists _, _. split; [done|]. split; [|done]. split; simpl.
    + intros t p c [[<- <-]|[_ Ht]]%lookup_insert_Some Hc; [by injection Hc|by eapply H1].
    + intros c. destruct (decide (next s = c)) as [<-|Hne].
      * rewrite !lookup_insert_eq. split; [by exists (TCall (next s))|done].
      * rewrite !lookup_insert_ne by done. apply H2.
    + intros t [p [[<- _]|[_ Ht]]%lookup_insert_Some]; [lia|]. assert (is_Some (threads s !! t)) as ?%H3 by (by exists p). lia.
    + intros t. rewrite H4. destruct (decide (next s = t)) as [<-|Hne]; [rewrite lookup_insert_eq, Hn; split; [by intros (? & ? & _)|by intros (? & [= <-] & ?)]|by rewrite lookup_insert_ne].
    + done.
  - unfold delete_copy. simpl. rewrite lookup_insert_eq. eexists _, _. split; [done|]. simpl. rewrite delete_insert_id by done.
    split; [|done]. split; simpl; try done. intros t Ht. specialize (H3 t Ht). lia.
Qed.

Lemma thread_inv_step e s : inv s → ∃ s', step e s = Ok (tt, s') ∧ inv s'.
Proof.
  intros Hs. unfold step. destruct (exited s); [by exists s|]. destruct e as [created b|t].
  - destruct (makeThread_ok created b s Hs) as (r & s' & -> & Hs' & _). by exists s'.
  - destruct (threads s !! t) as [p|] eqn:Ht; [by apply threadFunction_ok|by exists s].
Qed.

Lemma thread_inv_reachable s : reachable s → inv s.
Proof.
  induction 1 as [|s e s' _ IH Hx]; [apply inv_new|]. destruct (thread_inv_step e s IH) as (s1 & E & Hs1). congruence.
Qed.

(** The copy of a body has one owner.  No step faults - no copy is used or
    deleted after it is gone; a copy is live exactly as long as the thread that
    was made for it has not come to its end, so that none is left when all threads
    have; each thread calls its body once; and when no thread can be made the copy
    is deleted at once and the process exits. *)
Theorem thread_owns_copy s :
  reachable s →
  (∀ e, ∃ s', step e s = Ok (tt, s')) ∧
  (∀ c, is_Some (copies s !! c) ↔ ∃ p, threads s !! c = Some p ∧ argument p = Some c) ∧
  ((∀ t p, threads s !! t = Some p → p = TDone) → copies s = ∅) ∧
  (∀ t, threads s !! t = Some TDone → ∃ b, (t, b) ∈ started s) ∧ NoDup (started s).*1 ∧
  (∀ b, exited s = None → ∃ s', step (Make false b) s = Ok (tt, s') ∧ copies s' = copies s ∧ exited s' = Some 1%Z).
Proof.
  intros Hs%thread_inv_reachable. pose proof Hs as [H1 H2 H3 H4 H5]. split_and!; try done.
  - intros e. destruct (thread_inv_step e s Hs) as (s' & ? & _). by exists s'.
  - intros Hd. apply map_empty. intros c. destruct (copies s !! c) as [b|] eqn:E; [|done].
    destruct (proj1 (H2 c)) as (p & Hp & Ha); [by exists b|]. by rewrite (Hd _ _ Hp) in Ha.
  - intros t Ht. apply H4. by exists TDone.
  - intros b He. unfold step. rewrite He. destruct (makeThread_ok false b s Hs) as (r & s' & -> & _ & _ & _ & Hc & Hx). by exists s'.
Qed.

End thread.

(** A thread that has called its body, and one that has come to its end. *)
Definition demo_events : list (event (B := nat)) :=
  [Make true 7; Make true 8; Run 1%positive; Run 2%positive; Run 2%positive; Run 2%positive].

Fixpoint steps (l : list (event (B := nat))) (s : process) : process :=
  match l with [] => s | e :: l => match step e s with Ok (_, s') => steps l s' | Fault _ => s end end.

Lemma thread_steps_reachable l s : reachable s → reachable (steps l s).
Proof.
  revert s. induction l as [|e l IH]; intros s Hs; [done|]. simpl.
  destruct (step e s) as [[[] s']|] eqn:E; [|done]. apply IH. by eapply reachable_step.
Qed.

Lemma thread_owns_copy_witness :
  threads (steps demo_events new_process) !! 2%positive = Some TDone ∧
  ∃ b, (2%positive, b) ∈ started (steps demo_events new_process).
Proof.
  split; [by vm_compute|]. destruct (thread_owns_copy (steps demo_events new_process)) as (_ & _ & _ & H & _);
    [apply thread_steps_reachable; constructor|]. apply H. by vm_compute.
Defined.

End Thread.
