(* ===== verification/EventDispatcher.v ===== *)
(** lib/unit_task.cc, lib/inc/event_dispatcher_interface.h and
    lib/event_dispatcher.cc, without threads: the state of an event dispatcher
    and the pieces of code between two lock operations, and whole calls as
    sequences of pieces.  [EventLoop] puts the pieces into threads;
    [MPEventDispatcher] and [Dispatcher] use the whole calls, through the
    interface class. *)
From S2P Require Import Prelude.

(** * [UnitTask] *)

Module UnitTask.

(** [struct UnitTask] with a body of type [T]. *)
Record UnitTask {T : Type} := mkUnitTask {
  id : Z;
  task : T;
}.
Arguments UnitTask : clear implicits.
Arguments mkUnitTask {T}.

Definition DEFAULT_ID : Z := 0.

(** The constructor without and with a group. *)
Definition new_default {T} (task : T) : UnitTask T := mkUnitTask DEFAULT_ID task.
Definition new {T} (task : T) (id : Z) : UnitTask T := mkUnitTask id task.

(** The live tasks.  Every dispatcher of the process sees the same ones. *)
Abbreviation heap T := (gmap loc (UnitTask T)).

Section heap.
Context {T D : Type}.

Definition load_task (t : loc) : prog (heap T * D) (UnitTask T) := λ w,
  match w.1 !! t with
  | Some u => Ok (u, w)
  | None => Fault UseAfterFree
  end.

Definition delete_task (t : loc) : prog (heap T * D) unit := λ w,
  match w.1 !! t with
  | Some _ => Ok (tt, (delete t w.1, w.2))
  | None => Fault DoubleFree
  end.

(** The members of the dispatcher. *)
Definition get : prog (heap T * D) D := λ w, Ok (w.2, w).
Definition modify (f : D → D) : prog (heap T * D) unit := λ w, Ok (tt, (w.1, f w.2)).

Lemma load_task_live h d t u : h !! t = Some u → load_task t (h, d) = Ok (u, (h, d)).
Proof. unfold load_task. simpl. by intros ->. Qed.

Lemma delete_task_live h d t u : h !! t = Some u → delete_task t (h, d) = Ok (tt, (delete t h, d)).
Proof. unfold delete_task. simpl. by intros ->. Qed.

End heap.

(** The group of a live task, and the tasks of one group among those of [q]. *)
Definition group_of {T} (h : heap T) (t : loc) : option Z := id <$> h !! t.
Definition in_group {T} (h : heap T) (g : Z) (q : list loc) : list loc :=
  filter (λ t, group_of h t = Some g) q.

Lemma group_of_live {T} (h : heap T) t u : h !! t = Some u → group_of h t = Some (id u).
Proof. unfold group_of. by intros ->. Qed.

Lemma in_group_app {T} (h : heap T) g q q' :
  in_group h g (q ++ q') = in_group h g q ++ in_group h g q'.
Proof. apply filter_app. Qed.

(** A task that is not in the list does not matter for its groups. *)
Lemma in_group_ext {T} (h h' : heap T) g q :
  (∀ t, t ∈ q → h' !! t = h !! t) → in_group h' g q = in_group h g q.
Proof.
  unfold in_group. induction q as [|t q IH]; intros Hq; [done|].
  rewrite !filter_cons, IH by (intros; apply Hq; by right).
  unfold group_of. by rewrite Hq by (by left).
Qed.

Lemma in_group_delete {T} (h : heap T) t g q :
  t ∉ q → in_group (delete t h) g q = in_group h g q.
Proof.
  intros Ht. apply in_group_ext. intros t' Ht'. apply lookup_delete_ne. by intros ->.
Qed.

Lemma in_group_insert {T} (h : heap T) t u g q :
  t ∉ q → in_group (<[t := u]> h) g q = in_group h g q.
Proof.
  intros Ht. apply in_group_ext. intros t' Ht'. apply lookup_insert_ne. by intros ->.
Qed.

End UnitTask.

(** * The interface *)

(** [EventDispatcherInterface]: the virtual methods, and the terms in which
    the contract is stated: [edi_ok] is the implementation's invariant,
    [edi_owned] the tasks whose ownership it has, and [edi_group] the pending
    tasks of one group, in the order in which they will run. *)
Class EventDispatcherInterface (T D : Type) := {
  edi_enqueueTask : option loc → prog (UnitTask.heap T * D) bool;
  edi_stop : prog (UnitTask.heap T * D) unit;
  edi_resume : prog (UnitTask.heap T * D) unit;
  edi_getSize : Z → prog (UnitTask.heap T * D) Z;
  edi_ok : UnitTask.heap T → D → Prop;
  edi_owned : D → gset loc;
  edi_group : UnitTask.heap T → D → Z → list loc;
}.

(** What enqueueing [t] of group [g] may do: the dispatcher takes it over at
    the end of its group, and no other group changes, or it deletes it and no
    group changes. *)
Inductive enqueued {T D} `{EventDispatcherInterface T D} (h : UnitTask.heap T) (d : D)
    (t : loc) (g : Z) : UnitTask.heap T → D → Prop :=
  | enqueued_taken d' :
    edi_owned d' = {[t]} ∪ edi_owned d →
    edi_group h d' g = edi_group h d g ++ [t] →
    (∀ g', g' ≠ g → edi_group h d' g' = edi_group h d g') →
    enqueued h d t g h d'
  | enqueued_discarded d' :
    edi_owned d' = edi_owned d →
    (∀ g', edi_group h d' g' = edi_group h d g') →
    enqueued h d t g (delete t h) d'.

Class EventDispatcherLaws (T D : Type) `{EventDispatcherInterface T D} := {
  edi_enqueue_spec h d t u :
    edi_ok h d → h !! t = Some u → t ∉ edi_owned d →
    (Z.of_nat (size (edi_owned d)) + 1 < size_t_mod)%Z →
    ∃ h' d', edi_enqueueTask (Some t) (h, d) = Ok (true, (h', d')) ∧ edi_ok h' d' ∧
      enqueued h d t (UnitTask.id u) h' d';
  edi_ok_delete h d t : edi_ok h d → t ∉ edi_owned d → edi_ok (delete t h) d;
  edi_group_delete h d t g :
    t ∉ edi_owned d → edi_group (delete t h) d g = edi_group h d g;
}.

(** * [EventDispatcher] *)

Module EventDispatcher.
Import UnitTask.

(** The members of the C++ object other than the locks, the condition
    variable and the thread. *)
Record EventDispatcher := mkED {
  taskQueue_ : list loc;
  isExecuting_ : bool;
  taskCount_ : gmap Z Z;
  isStopped_ : bool;
  isDying_ : bool;
}.

Definition set_taskQueue (q : list loc) (d : EventDispatcher) : EventDispatcher :=
  mkED q (isExecuting_ d) (taskCount_ d) (isStopped_ d) (isDying_ d).
Definition set_isExecuting (b : bool) (d : EventDispatcher) : EventDispatcher :=
  mkED (taskQueue_ d) b (taskCount_ d) (isStopped_ d) (isDying_ d).
Definition set_taskCount (m : gmap Z Z) (d : EventDispatcher) : EventDispatcher :=
  mkED (taskQueue_ d) (isExecuting_ d) m (isStopped_ d) (isDying_ d).
Definition set_isStopped (b : bool) (d : EventDispatcher) : EventDispatcher :=
  mkED (taskQueue_ d) (isExecuting_ d) (taskCount_ d) b (isDying_ d).
Definition set_isDying (b : bool) (d : EventDispatcher) : EventDispatcher :=
  mkED (taskQueue_ d) (isExecuting_ d) (taskCount_ d) (isStopped_ d) b.

(** The members set by the constructor. *)
Definition new_dispatcher : EventDispatcher := mkED [] false ∅ false false.

Section ed.
Context {T : Type}.
Implicit Types (h : heap T) (d : EventDispatcher) (t : loc).

Abbreviation M A := (prog (heap T * EventDispatcher) A).

(** [taskCount_[id]]: a missing entry counts as zero. *)
Definition task_count (m : gmap Z Z) (i : Z) : Z := default 0%Z (m !! i).

(** ** [enqueueTask] *)

(** [taskQueue_.push(newTask)]. *)
Definition push t : M unit := modify (λ d, set_taskQueue (taskQueue_ d ++ [t]) d).

(** [taskCount_[newTask->id]++] and [taskCount_[nextTask->id]--]. *)
Definition add_count (i n : Z) (m : gmap Z Z) : gmap Z Z :=
  <[i := wrap_size (task_count m i + n)]> m.
Definition count_up t : M unit :=
  let! u := load_task t in
  modify (λ d, set_taskCount (add_count (id u) 1 (taskCount_ d)) d).
Definition count_down t : M unit :=
  let! u := load_task t in
  modify (λ d, set_taskCount (add_count (id u) (-1) (taskCount_ d)) d).

(** The answer is [true] on every branch. *)
Definition enqueueTask (newTask : option loc) : M bool :=
  let! d := get in
  match newTask with
  | Some t =>
    if negb (isStopped_ d) then push t ;;; count_up t ;;; pret true
    else delete_task t ;;; pret true
  | None => pret true
  end.

(** ** The control methods *)

Definition stop : M unit := modify (set_isStopped true).

Definition resume : M unit :=
  let! d := get in
  if isDying_ d then pret tt else modify (set_isStopped false).

Definition busy : M bool :=
  let! d := get in
  pret (match taskQueue_ d with [] => false | _ => true end).

(** The sum over the counters, in [size_t]. *)
Definition pendingTasks : M Z :=
  let! d := get in
  pret (map_fold (λ _ n count, wrap_size (count + n)) 0%Z (taskCount_ d)).

Definition getSize (i : Z) : M Z := pendingTasks.

(** ** The pieces of [eventLoop] *)

(** [nextTask = taskQueue_.front()], undefined on an empty queue; the flag is
    set before the lock is given back. *)
Definition front : M loc :=
  let! d := get in
  match taskQueue_ d with
  | [] => pfail OutOfRange
  | t :: _ => modify (set_isExecuting true) ;;; pret t
  end.

(** [taskQueue_.pop()], undefined on an empty queue. *)
Definition pop : M unit :=
  let! d := get in
  match taskQueue_ d with
  | [] => pfail OutOfRange
  | _ :: q => modify (set_taskQueue q) ;;; modify (set_isExecuting false)
  end.

(** * Well-formedness *)

(** Queued tasks are live and different, and every counter is right. *)
Record ok h d : Prop := {
  ok_nodup : NoDup (taskQueue_ d);
  ok_live : ∀ t, t ∈ taskQueue_ d → is_Some (h !! t);
  ok_count : ∀ g, task_count (taskCount_ d) g = Z.of_nat (length (in_group h g (taskQueue_ d)));
  ok_bound : (Z.of_nat (length (taskQueue_ d)) < size_t_mod)%Z;
}.

Lemma ok_new h : ok h new_dispatcher.
Proof.
  split; simpl; [constructor|set_solver|done|done].
Qed.

Lemma task_count_add m i n g :
  task_count (add_count i n m) g =
    if decide (g = i) then wrap_size (task_count m g + n) else task_count m g.
Proof.
  unfold add_count, task_count. case_decide as Hg.
  - rewrite Hg, lookup_insert_eq. done.
  - by rewrite lookup_insert_ne.
Qed.

Lemma in_group_length h g q : length (in_group h g q) ≤ length q.
Proof. apply length_filter. Qed.

Lemma in_group_cons h g t u q :
  h !! t = Some u →
  in_group h g (t :: q) = (if decide (g = id u) then [t] else []) ++ in_group h g q.
Proof.
  intros Hu. unfold in_group. rewrite filter_cons, (group_of_live h t u Hu).
  repeat case_decide; simplify_eq; done.
Qed.

(** ** The sum of the counters *)

Definition sum_counts (m : gmap Z Z) : Z := map_fold (λ _ n count, count + n)%Z 0%Z m.

Lemma sum_counts_insert m g v :
  sum_counts (<[g := v]> m) = (sum_counts m - task_count m g + v)%Z.
Proof.
  unfold sum_counts. rewrite <-insert_delete_eq.
  rewrite map_fold_insert_L by (lia || apply lookup_delete_eq).
  unfold task_count. destruct (m !! g) as [w|] eqn:Hg; simpl.
  - rewrite <-(insert_delete_id m g w) at 2 by done.
    rewrite map_fold_insert_L by (lia || apply lookup_delete_eq). lia.
  - rewrite delete_id by done. lia.
Qed.

Lemma sum_counts_zero m : (∀ g, task_count m g = 0%Z) → sum_counts m = 0%Z.
Proof.
  induction m as [|g v m Hg IH] using map_ind; intros Hm; [done|].
  rewrite sum_counts_insert. pose proof (Hm g) as Hv. unfold task_count in *.
  rewrite lookup_insert_eq in Hv. simpl in Hv. rewrite Hg. simpl. rewrite IH; [lia|].
  intros g'. destruct (decide (g' = g)) as [->|]; [by rewrite Hg|].
  specialize (Hm g'). by rewrite lookup_insert_ne in Hm.
Qed.

Lemma wrapped_sum m :
  map_fold (λ _ n count, wrap_size (count + n)) 0%Z m = wrap_size (sum_counts m).
Proof.
  induction m as [|g v m Hg IH] using map_ind; [done|].
  unfold sum_counts in *. rewrite !map_fold_insert_L; try done; try lia.
  - by rewrite IH, wrap_size_add_l.
  - intros. rewrite !wrap_size_add_l. f_equal. lia.
Qed.

(** Counting the tasks of a list group by group counts the list. *)
Lemma sum_counts_length h q m :
  (∀ t, t ∈ q → is_Some (h !! t)) →
  (∀ g, task_count m g = Z.of_nat (length (in_group h g q))) →
  sum_counts m = Z.of_nat (length q).
Proof.
  revert m. induction q as [|t q IH]; intros m Hlive Hm.
  { apply sum_counts_zero. intros g. by rewrite Hm. }
  destruct (Hlive t) as [u Hu]; [by left|].
  assert (IH' := IH (<[id u := (task_count m (id u) - 1)%Z]> m)).
  rewrite sum_counts_insert in IH'. simpl.
  rewrite Nat2Z.inj_succ, <-IH'; [lia|intros; apply Hlive; by right|].
  intros g. pose proof (Hm g) as Hmg. rewrite (in_group_cons _ _ _ u) in Hmg by done.
  rewrite length_app in Hmg. unfold task_count in *.
  destruct (decide (g = id u)) as [->|Hne]; simpl in Hmg.
  - rewrite lookup_insert_eq. simpl. lia.
  - rewrite lookup_insert_ne by done. lia.
Qed.

Lemma pendingTasks_eq h d :
  ok h d → pendingTasks (h, d) = Ok (Z.of_nat (length (taskQueue_ d)), (h, d)).
Proof.
  intros [Hnd Hlive Hcount Hb]. unfold pendingTasks. prun. unfold pret. simpl.
  rewrite wrapped_sum, (sum_counts_length h (taskQueue_ d)) by done.
  rewrite wrap_size_id; [done|]. unfold is_size. lia.
Qed.

(** ** Whole calls *)

Definition accept (u : UnitTask T) t d : EventDispatcher :=
  set_taskCount (add_count (id u) 1 (taskCount_ d)) (set_taskQueue (taskQueue_ d ++ [t]) d).

Lemma enqueueTask_eq h d t u :
  h !! t = Some u →
  enqueueTask (Some t) (h, d) =
    Ok (true, if isStopped_ d then (delete t h, d) else (h, accept u t d)).
Proof.
  intros Hu. unfold enqueueTask. prun. simpl. destruct (isStopped_ d); simpl.
  - erewrite pbind_ok by (by apply (delete_task_live h d t u)). done.
  - unfold push. prun. unfold count_up. rewrite pbind_assoc.
    erewrite pbind_ok by (by apply (load_task_live h _ t u)). done.
Qed.

Lemma ok_accept h d t u :
  ok h d → h !! t = Some u → t ∉ taskQueue_ d →
  (Z.of_nat (length (taskQueue_ d)) + 1 < size_t_mod)%Z →
  ok h (accept u t d).
Proof.
  intros [Hnd Hlive Hcount Hb] Hu Ht Hb'. split; simpl.
  - apply NoDup_app. split_and!; [done| |apply NoDup_singleton]. set_solver.
  - intros t'. rewrite elem_of_app, list_elem_of_singleton. intros [?| ->]; eauto.
  - intros g. rewrite task_count_add, in_group_app, length_app, Hcount.
    rewrite (in_group_cons h g t u []) by done. rewrite app_nil_r.
    pose proof (in_group_length h g (taskQueue_ d)). case_decide; simpl; [|lia].
    rewrite wrap_size_id; unfold is_size; lia.
  - rewrite length_app. simpl. lia.
Qed.

Lemma ok_delete h d t : ok h d → t ∉ taskQueue_ d → ok (delete t h) d.
Proof.
  intros [Hnd Hlive Hcount Hb] Ht. split; try done.
  - intros t' Ht'. rewrite lookup_delete_ne by (by intros ->). eauto.
  - intros g. by rewrite in_group_delete.
Qed.

(** ** The interface *)

#[global] Instance event_dispatcher : EventDispatcherInterface T EventDispatcher := {
  edi_enqueueTask := enqueueTask;
  edi_stop := stop;
  edi_resume := resume;
  edi_getSize := getSize;
  edi_ok := ok;
  edi_owned d := list_to_set (taskQueue_ d);
  edi_group h d g := in_group h g (taskQueue_ d);
}.

#[global] Instance event_dispatcher_laws : EventDispatcherLaws T EventDispatcher.
Proof.
  split; simpl.
  - intros h d t u Hok Hu Ht Hb. rewrite elem_of_list_to_set in Ht.
    rewrite size_list_to_set in Hb by apply Hok.
    rewrite (enqueueTask_eq h d t u Hu). destruct (isStopped_ d).
    + exists (delete t h), d. split_and!; [done|by apply ok_delete|by apply enqueued_discarded].
    + exists h, (accept u t d). split_and!; [done|by apply ok_accept|].
      apply enqueued_taken; simpl.
      * rewrite list_to_set_app_L. simpl. set_solver.
      * rewrite in_group_app, (in_group_cons h _ t u) by done. by rewrite decide_True.
      * intros g' Hg. rewrite in_group_app, (in_group_cons h _ t u) by done.
        by rewrite decide_False, app_nil_r.
  - intros h d t Hok Ht. rewrite elem_of_list_to_set in Ht. by apply ok_delete.
  - intros h d t g Ht. rewrite elem_of_list_to_set in Ht. by apply in_group_delete.
Qed.

End ed.
End EventDispatcher.
