(* ===== verification/EventLoop.v ===== *)
(** lib/event_dispatcher.cc with its threads: one event loop thread and any
    number of client threads inside the methods, interleaved at every lock
    operation and at every access to a shared member.

    A state has the dispatcher's members, the live tasks, the owners of the
    three mutexes and the program point of every thread; [step] is one step of
    one thread, and a reachable state is one that some schedule leads to.
    [newTaskCond_.signal()] is not a step: the loop waits with a timeout and
    tests its condition again, so that it may wake up at any time.  The
    unlocked reads of [isStopped_] and [isDying_] read the current value. *)
From S2P Require Import Prelude EventDispatcher.

Module EventLoop.
Import UnitTask EventDispatcher.
(** * The threads *)

(** The event loop is thread 0; the calls a task body makes are its, too. *)
Abbreviation tid := nat.

Section loop.
Context {T : Type}.

Inductive mutex := MQueue | MTaskCount | MStopped.
#[global] Instance mutex_eq_dec : EqDecision mutex.
Proof. solve_decision. Defined.

(** Where a call of a method is.  A point is named after what the thread does
    next, with the local variables it needs. *)
Inductive call_pc :=
  (** enqueueTask *)
  | ELock (newTask : option loc)
  | ETest (newTask : option loc)
  | EPush (newTask : loc)
  | EDiscard (newTask : loc)
  | ECountLock (newTask : loc)
  | ECount (newTask : loc)
  | ERelease
  (** stop, resume, busy, pendingTasks *)
  | SLock | SSet
  | RLock | RTest | RSet
  | BLock | BRead
  | PLock | PSum
  (** the destructor *)
  | DLock | DStop | DDie | DJoin.

(** Where [eventLoop] is. *)
Inductive loop_pc :=
  | LLock
  | LWhile
  | LWait
  | LIf
  | LFront
  | LDying (nextTask : loc)
  | LExec (nextTask : loc)
  | LPopLock (nextTask : loc)
  | LPop (nextTask : loc)
  | LCountLock (nextTask : loc)
  | LCount (nextTask : loc)
  | LDelete (nextTask : loc)
  | LDone.

(** [accepted], [executed] and [retired] are logs of the tasks pushed, started
    and popped, oldest first, and [answers] of what [pendingTasks] returned,
    newest first; the program does not have them. *)
Record sys := mkSys {
  owner : mutex → option tid;
  tasks : heap T;
  disp : EventDispatcher;
  loop : loop_pc;
  calls : gmap tid call_pc;
  next : loc;
  accepted : list loc;
  executed : list loc;
  retired : list loc;
  answers : list (tid * Z);
}.
Implicit Types (s : sys) (i j : tid) (t : loc).

Definition init : sys :=
  mkSys (λ _, None) ∅ new_dispatcher LLock ∅ 1%positive [] [] [] [].

Definition set_owner (m : mutex) (o : option tid) s : sys :=
  mkSys (λ m', if decide (m' = m) then o else owner s m') (tasks s) (disp s) (loop s)
    (calls s) (next s) (accepted s) (executed s) (retired s) (answers s).
Definition set_data (w : heap T * EventDispatcher) s : sys :=
  mkSys (owner s) w.1 w.2 (loop s) (calls s) (next s)
    (accepted s) (executed s) (retired s) (answers s).
Definition set_loop (l : loop_pc) s : sys :=
  mkSys (owner s) (tasks s) (disp s) l (calls s) (next s)
    (accepted s) (executed s) (retired s) (answers s).
Definition set_calls (cs : gmap tid call_pc) s : sys :=
  mkSys (owner s) (tasks s) (disp s) (loop s) cs (next s)
    (accepted s) (executed s) (retired s) (answers s).
Definition log_accepted t s : sys :=
  mkSys (owner s) (tasks s) (disp s) (loop s) (calls s) (next s)
    (accepted s ++ [t]) (executed s) (retired s) (answers s).
Definition log_executed t s : sys :=
  mkSys (owner s) (tasks s) (disp s) (loop s) (calls s) (next s)
    (accepted s) (executed s ++ [t]) (retired s) (answers s).
Definition log_retired t s : sys :=
  mkSys (owner s) (tasks s) (disp s) (loop s) (calls s) (next s)
    (accepted s) (executed s) (retired s ++ [t]) (answers s).
Definition log_answer i n s : sys :=
  mkSys (owner s) (tasks s) (disp s) (loop s) (calls s) (next s)
    (accepted s) (executed s) (retired s) ((i, n) :: answers s).
Definition new_task (u : UnitTask T) s : sys :=
  mkSys (owner s) (<[next s := u]> (tasks s)) (disp s) (loop s) (calls s) (Pos.succ (next s))
    (accepted s) (executed s) (retired s) (answers s).

(** * Steps *)

(** A step is not possible ([None]), faults, or leads to a state. *)
Abbreviation result := (option (outcome sys)).

Definition goto i (c : call_pc) s : sys := set_calls (<[i := c]> (calls s)) s.
Definition return_ i s : sys := set_calls (delete i (calls s)) s.
Definition unlock (m : mutex) s : sys := set_owner m None s.

Definition move s : result := Some (Ok s).

(** Take the mutex, or wait for it. *)
Definition lock (m : mutex) i (k : sys → sys) s : result :=
  match owner s m with
  | None => Some (Ok (k (set_owner m (Some i) s)))
  | Some _ => None
  end.

(** Run a piece of the sequential code. *)
Definition exec {A} (m : prog (heap T * EventDispatcher) A) (k : A → sys → sys) s : result :=
  match m (tasks s, disp s) with
  | Ok (a, w) => Some (Ok (k a (set_data w s)))
  | Fault e => Some (Fault e)
  end.

Definition call_step i (c : call_pc) s : result :=
  match c with
  | ELock p => lock MQueue i (goto i (ETest p)) s
  | ETest (Some t) => move (goto i (if negb (isStopped_ (disp s)) then EPush t else EDiscard t) s)
  | ETest None => move (goto i ERelease s)
  | EPush t => exec (push t) (λ _ s, goto i (ECountLock t) (log_accepted t s)) s
  | EDiscard t => exec (delete_task t) (λ _, goto i ERelease) s
  | ECountLock t => lock MTaskCount i (goto i (ECount t)) s
  | ECount t => exec (count_up t) (λ _ s, goto i ERelease (unlock MTaskCount s)) s
  | ERelease => move (return_ i (unlock MQueue s))
  | SLock => lock MStopped i (goto i SSet) s
  | SSet => exec stop (λ _ s, return_ i (unlock MStopped s)) s
  | RLock => lock MStopped i (goto i RTest) s
  | RTest => move (if isDying_ (disp s) then return_ i (unlock MStopped s) else goto i RSet s)
  | RSet => exec (modify (set_isStopped false)) (λ _ s, return_ i (unlock MStopped s)) s
  | BLock => lock MQueue i (goto i BRead) s
  | BRead => exec busy (λ _ s, return_ i (unlock MQueue s)) s
  | PLock => lock MTaskCount i (goto i PSum) s
  | PSum => exec pendingTasks (λ n s, return_ i (log_answer i n (unlock MTaskCount s))) s
  | DLock => lock MStopped i (goto i DStop) s
  | DStop => exec (modify (set_isStopped true)) (λ _, goto i DDie) s
  | DDie => exec (modify (set_isDying true)) (λ _ s, goto i DJoin (unlock MStopped s)) s
  | DJoin => match loop s with LDone => move (return_ i s) | _ => None end
  end.

Definition queue_empty s : bool := match taskQueue_ (disp s) with [] => true | _ => false end.

(** [eventLoop].  At [LExec] the body of the task runs: this step is its
    return; a call it makes is a call of thread 0. *)
Definition loop_step s : result :=
  match loop s with
  | LLock => lock MQueue 0 (set_loop LWhile) s
  | LWhile =>
    move (if queue_empty s && negb (isDying_ (disp s))
          then set_loop LWait (unlock MQueue s) else set_loop LIf s)
  | LWait => lock MQueue 0 (set_loop LWhile) s
  | LIf =>
    move (if isDying_ (disp s) && queue_empty s
          then set_loop LDone (unlock MQueue s) else set_loop LFront s)
  | LFront => exec front (λ t s, set_loop (LDying t) (unlock MQueue s)) s
  | LDying t =>
    if negb (isDying_ (disp s))
    then exec (load_task t) (λ _ s, set_loop (LExec t) (log_executed t s)) s
    else move (set_loop (LPopLock t) s)
  | LExec t => move (set_loop (LPopLock t) s)
  | LPopLock t => lock MQueue 0 (set_loop (LPop t)) s
  | LPop t => exec pop (λ _ s, set_loop (LCountLock t) (log_retired t s)) s
  | LCountLock t => lock MTaskCount 0 (set_loop (LCount t)) s
  | LCount t =>
    exec (count_down t) (λ _ s, set_loop (LDelete t) (unlock MQueue (unlock MTaskCount s))) s
  | LDelete t => exec (delete_task t) (λ _, set_loop LLock) s
  | LDone => None
  end.

(** One step of thread [i], if it is in a method or the loop. *)
Definition run i s : result :=
  match calls s !! i with
  | Some c => call_step i c s
  | None => if decide (i = 0) then loop_step s else None
  end.

Inductive method :=
  | Enqueue (newTask : option (UnitTask T))
  | Stop | Resume | Busy | PendingTasks | Destroy.

Definition in_body s : bool := match loop s with LExec _ => true | _ => false end.

(** Whether thread [i] may call: it is in no other method, thread 0 calls only
    from the body of a task, and does not destroy its own dispatcher.  A task
    is allocated for the call; there is room for less than 2^64 of them. *)
Definition may_call i (m : method) s : bool :=
  bool_decide (calls s !! i = None) &&
  (bool_decide (i ≠ 0) || in_body s) &&
  match m with
  | Enqueue (Some _) => bool_decide (Z.of_nat (size (tasks s)) + 1 < size_t_mod)%Z
  | Destroy => bool_decide (i ≠ 0)
  | _ => true
  end.

Definition call i (m : method) s : result :=
  if may_call i m s then
    move match m with
         | Enqueue (Some u) => goto i (ELock (Some (next s))) (new_task u s)
         | Enqueue None => goto i (ELock None) s
         | Stop => goto i SLock s
         | Resume => goto i RLock s
         | Busy => goto i BLock s
         | PendingTasks => goto i PLock s
         | Destroy => goto i DLock s
         end
  else None.

Inductive action :=
  | Call (i : tid) (m : method)
  | Run (i : tid).

Definition step (a : action) s : result :=
  match a with
  | Call i m => call i m s
  | Run i => run i s
  end.

Inductive reachable : sys → Prop :=
  | reachable_init : reachable init
  | reachable_step s a s' : reachable s → step a s = Some (Ok s') → reachable s'.

(** A schedule, for concrete runs. *)
Fixpoint steps (l : list action) s : result :=
  match l with
  | [] => move s
  | a :: l =>
    match step a s with
    | Some (Ok s') => steps l s'
    | r => r
    end
  end.

(** * What a program point says *)

Definition call_holds (c : call_pc) (m : mutex) : bool :=
  match m, c with
  | MQueue, (ETest _ | EPush _ | EDiscard _ | ECountLock _ | ECount _ | ERelease | BRead) => true
  | MTaskCount, (ECount _ | PSum) => true
  | MStopped, (SSet | RTest | RSet | DStop | DDie) => true
  | _, _ => false
  end.

Definition loop_holds (l : loop_pc) (m : mutex) : bool :=
  match m, l with
  | MQueue, (LWhile | LIf | LFront | LPop _ | LCountLock _ | LCount _) => true
  | MTaskCount, LCount _ => true
  | _, _ => false
  end.

(** Thread [i] is between the lock and the unlock of [m]. *)
Definition holds s i (m : mutex) : bool :=
  match calls s !! i with
  | Some c => call_holds c m
  | None => if decide (i = 0) then loop_holds (loop s) m else false
  end.

(** The task a call has not yet handed over, and the one it has pushed and not
    yet counted. *)
Definition call_task (c : call_pc) : option loc :=
  match c with
  | ELock p | ETest p => p
  | EPush t | EDiscard t => Some t
  | _ => None
  end.
Definition call_uncounted (c : call_pc) : option loc :=
  match c with ECountLock t | ECount t => Some t | _ => None end.

(** The task the loop has fetched and not yet popped; popped and not yet
    uncounted; popped and not yet deleted; started. *)
Definition loop_front (l : loop_pc) : option loc :=
  match l with LDying t | LExec t | LPopLock t | LPop t => Some t | _ => None end.
Definition loop_uncounted (l : loop_pc) : option loc :=
  match l with LCountLock t | LCount t => Some t | _ => None end.
Definition loop_popped (l : loop_pc) : option loc :=
  match l with LCountLock t | LCount t | LDelete t => Some t | _ => None end.
Definition loop_started (l : loop_pc) : list loc :=
  match l with LExec t | LPopLock t | LPop t => [t] | _ => [] end.

(** The tasks of group [g] in the queue that [taskCount_] lacks: the thread in
    the queue's critical section may have pushed or popped one. *)
Definition one_in_group (h : heap T) (g : Z) (p : option loc) : Z :=
  if decide (p ≫= group_of h = Some g) then 1 else 0.
Definition uncounted s (g : Z) : Z :=
  match owner s MQueue with
  | None => 0
  | Some i =>
    match calls s !! i with
    | Some c => one_in_group (tasks s) g (call_uncounted c)
    | None => - one_in_group (tasks s) g (loop_uncounted (loop s))
    end
  end.

(** * The invariant *)

Record locks_ok s : Prop := {
  lo_owner m i : owner s m = Some i ↔ holds s i m = true;
  lo_body : is_Some (calls s !! 0) → ∃ t, loop s = LExec t;
}.

Definition destroys (c : call_pc) : bool :=
  match c with DLock | DStop | DDie | DJoin => true | _ => false end.

Record flags_ok s : Prop := {
  fl_self c : calls s !! 0 = Some c → destroys c = false;
  fl_dying : isDying_ (disp s) = true → isStopped_ (disp s) = true;
  fl_resume i : calls s !! i = Some RSet → isDying_ (disp s) = false;
  fl_die i : calls s !! i = Some DDie → isStopped_ (disp s) = true;
  fl_join i : calls s !! i = Some DJoin → isDying_ (disp s) = true;
  fl_done : loop s = LDone → isDying_ (disp s) = true ∧ taskQueue_ (disp s) = [];
  fl_push i t : calls s !! i = Some (EPush t) → loop s ≠ LDone;
}.

Record queue_ok s : Prop := {
  qu_front t : loop_front (loop s) = Some t → head (taskQueue_ (disp s)) = Some t;
  qu_lif : loop s = LIf → taskQueue_ (disp s) = [] → isDying_ (disp s) = true;
  qu_lfront : loop s = LFront → taskQueue_ (disp s) ≠ [];
  qu_exec : isExecuting_ (disp s) = bool_decide (is_Some (loop_front (loop s)));
  qu_accepted : accepted s = retired s ++ taskQueue_ (disp s);
  qu_executed : isDying_ (disp s) = false → executed s = retired s ++ loop_started (loop s);
  qu_prefix : executed s `prefix_of` accepted s;
}.

(** A live task is in exactly one place. *)
Record own_ok s : Prop := {
  ow_nodup : NoDup (accepted s);
  ow_next t : t ∈ accepted s → (t < next s)%positive;
  ow_fresh t : is_Some (tasks s !! t) → (t < next s)%positive;
  ow_size : (Z.of_nat (size (tasks s)) < size_t_mod)%Z;
  ow_popped t : loop_popped (loop s) = Some t → t ∈ retired s;
  ow_call i c t : calls s !! i = Some c → call_task c = Some t → t ∉ accepted s;
  ow_inj i j c c' t : calls s !! i = Some c → calls s !! j = Some c' →
    call_task c = Some t → call_task c' = Some t → i = j;
  ow_uncounted i c t : calls s !! i = Some c → call_uncounted c = Some t →
    t ∈ taskQueue_ (disp s);
  ow_live t : is_Some (tasks s !! t) ↔
    t ∈ taskQueue_ (disp s) ∨ loop_popped (loop s) = Some t ∨
    ∃ i c, calls s !! i = Some c ∧ call_task c = Some t;
}.

Definition count_ok s : Prop :=
  ∀ g, (task_count (taskCount_ (disp s)) g + uncounted s g)%Z
       = Z.of_nat (length (in_group (tasks s) g (taskQueue_ (disp s)))).

Record inv s : Prop := {
  inv_locks : locks_ok s;
  inv_flags : flags_ok s;
  inv_queue : queue_ok s;
  inv_own : own_ok s;
  inv_count : count_ok s;
}.

(** ** Inversion of steps *)

Lemma exec_inv {A} (m : prog (heap T * EventDispatcher) A) k s s' :
  exec m k s = Some (Ok s') →
  ∃ a h d, m (tasks s, disp s) = Ok (a, (h, d)) ∧ s' = k a (set_data (h, d) s).
Proof. unfold exec. destruct (m _) as [[a [h d]]|e] eqn:Hm; naive_solver. Qed.

Lemma lock_inv m i k s s' :
  lock m i k s = Some (Ok s') → owner s m = None ∧ s' = k (set_owner m (Some i) s).
Proof. unfold lock. destruct (owner s m); naive_solver. Qed.

Lemma push_inv t h d a h' d' :
  push (T := T) t (h, d) = Ok (a, (h', d')) → h' = h ∧ d' = set_taskQueue (taskQueue_ d ++ [t]) d.
Proof. by intros [= <- <- <-]. Qed.

Lemma delete_task_inv t h (d : EventDispatcher) a h' d' :
  delete_task (T := T) t (h, d) = Ok (a, (h', d')) →
  is_Some (h !! t) ∧ h' = delete t h ∧ d' = d.
Proof. unfold delete_task. simpl. destruct (h !! t) eqn:?; naive_solver. Qed.

Lemma load_task_inv t h (d : EventDispatcher) u h' d' :
  load_task (T := T) t (h, d) = Ok (u, (h', d')) → h !! t = Some u ∧ h' = h ∧ d' = d.
Proof. unfold load_task. simpl. destruct (h !! t) eqn:?; naive_solver. Qed.

Lemma count_up_inv t h d a h' d' :
  count_up (T := T) t (h, d) = Ok (a, (h', d')) →
  ∃ u, h !! t = Some u ∧ h' = h ∧ d' = set_taskCount (add_count (id u) 1 (taskCount_ d)) d.
Proof.
  unfold count_up. intros H. pinv H as (u & [h1 d1] & H1 & H2).
  apply load_task_inv in H1 as (Hu & -> & ->). exists u. by injection H2 as <- <- <-.
Qed.

Lemma count_down_inv t h d a h' d' :
  count_down (T := T) t (h, d) = Ok (a, (h', d')) →
  ∃ u, h !! t = Some u ∧ h' = h ∧ d' = set_taskCount (add_count (id u) (-1) (taskCount_ d)) d.
Proof.
  unfold count_down. intros H. pinv H as (u & [h1 d1] & H1 & H2).
  apply load_task_inv in H1 as (Hu & -> & ->). exists u. by injection H2 as <- <- <-.
Qed.

Lemma front_inv h d t h' d' :
  front (T := T) (h, d) = Ok (t, (h', d')) →
  head (taskQueue_ d) = Some t ∧ h' = h ∧ d' = set_isExecuting true d.
Proof.
  unfold front. intros H. pinv H as (d1 & w1 & [= <- <-] & H). simpl in *.
  destruct (taskQueue_ d); [done|]. by injection H as <- <- <-.
Qed.

Lemma pop_inv h d a h' d' :
  pop (T := T) (h, d) = Ok (a, (h', d')) →
  ∃ t q, taskQueue_ d = t :: q ∧ h' = h ∧ d' = set_isExecuting false (set_taskQueue q d).
Proof.
  unfold pop. intros H. pinv H as (d1 & w1 & [= <- <-] & H). simpl in *.
  destruct (taskQueue_ d) as [|t q]; [done|]. injection H as <- <- <-. by exists t, q.
Qed.

Lemma busy_inv h d b h' d' : busy (T := T) (h, d) = Ok (b, (h', d')) → h' = h ∧ d' = d.
Proof. by intros [= <- <- <-]. Qed.

Lemma pendingTasks_inv h d n h' d' :
  pendingTasks (T := T) (h, d) = Ok (n, (h', d')) → h' = h ∧ d' = d.
Proof. by intros [= <- <- <-]. Qed.

Lemma modify_inv f h d a h' d' :
  modify (T := T) (D := EventDispatcher) f (h, d) = Ok (a, (h', d')) → h' = h ∧ d' = f d.
Proof. by intros [= <- <- <-]. Qed.

Definition entry (c : call_pc) : Prop :=
  c = ELock None ∨ c = SLock ∨ c = RLock ∨ c = BLock ∨ c = PLock ∨ c = DLock.

Lemma call_inv i m s s' :
  call i m s = Some (Ok s') →
  calls s !! i = None ∧ (i = 0 → ∃ t, loop s = LExec t) ∧
  ((∃ u, (Z.of_nat (size (tasks s)) + 1 < size_t_mod)%Z ∧
      s' = goto i (ELock (Some (next s))) (new_task u s)) ∨
   (∃ c, entry c ∧ (c = DLock → i ≠ 0) ∧ s' = goto i c s)).
Proof.
  unfold call, may_call, in_body, entry. intros H. case_match eqn:Hm; [|done].
  apply andb_prop in Hm as [[Hi Hb]%andb_prop Hm].
  apply bool_decide_eq_true in Hi.
  split_and!; [done| |].
  - intros ->. simpl in Hb. destruct (loop s); naive_solver.
  - destruct m as [[u|]| | | | |]; injection H as <-.
    { left. exists u. split; [|done]. by apply bool_decide_eq_true in Hm. }
    all: right; eexists; split_and!; [| |reflexivity]; [tauto|].
    all: try discriminate. intros _. by apply bool_decide_eq_true in Hm.
Qed.

(** The program point of the thread that runs. *)
Lemma run_inv i s r :
  run i s = Some r →
  (∃ c, calls s !! i = Some c ∧ call_step i c s = Some r) ∨
  (calls s !! 0 = None ∧ i = 0 ∧ loop_step s = Some r).
Proof. unfold run. destruct (calls s !! i) eqn:Hi; [|case_decide; [subst|]]; naive_solver. Qed.

Lemma entry_plain c :
  entry c → (∀ m, call_holds c m = false) ∧ call_task c = None ∧ call_uncounted c = None ∧
    c ≠ RSet ∧ c ≠ DDie ∧ c ≠ DJoin ∧ (∀ t, c ≠ EPush t) ∧ (destroys c = true → c = DLock).
Proof. intros [-> | [-> | [-> | [-> | [-> | ->]]]]]; split_and!; try done; by intros []. Qed.

End loop.
Arguments sys : clear implicits.
Arguments action : clear implicits.
Arguments method : clear implicits.

(** Split [H : step a s = Some (Ok s')] into one goal per kind of step. *)
Ltac piece_inv H :=
  first
  [ apply push_inv in H as [-> ->]
  | apply delete_task_inv in H as (? & -> & ->)
  | apply load_task_inv in H as (? & -> & ->)
  | apply count_up_inv in H as (? & ? & -> & ->)
  | apply count_down_inv in H as (? & ? & -> & ->)
  | apply front_inv in H as (? & -> & ->)
  | apply pop_inv in H as (? & ? & ? & -> & ->)
  | apply busy_inv in H as [-> ->]
  | apply pendingTasks_inv in H as [-> ->]
  | apply modify_inv in H as [-> ->] ].

Ltac leaf_inv H :=
  lazymatch type of H with
  | lock _ _ _ _ = _ => apply lock_inv in H as [? ->]
  | exec _ _ _ = _ =>
    let E := fresh "E" in apply exec_inv in H as (? & ? & ? & E & ->); piece_inv E
  | move _ = _ => injection H as <-
  end.

Ltac run_cases H :=
  apply run_inv in H as [(c & ? & H) | (? & -> & H)];
  [ destruct c
  | unfold loop_step in H;
    match type of H with context [loop ?s] => destruct (loop s) eqn:? end ];
  simpl in H; try case_match; try discriminate H; leaf_inv H; try case_match.

Ltac step_cases H :=
  lazymatch type of H with
  | step ?a _ = _ => destruct a as [?i ?m|?i]; simpl in H
  end;
  [apply call_inv in H as (? & ? & [(? & ? & ->) | (? & ? & ? & ->)]) | run_cases H].

Ltac step_all H :=
  step_cases H;
  repeat match goal with H : entry _ |- _ =>
    apply entry_plain in H as (? & ? & ? & ? & ? & ? & ? & ?) end.

(** Split the lookups in an updated map of calls. *)
Ltac calls_inv :=
  repeat match goal with
  | H : <[_ := _]> _ !! _ = Some _ |- _ =>
    apply lookup_insert_Some in H as [[? ?] | [? H]]; simplify_eq
  | H : delete _ _ !! _ = Some _ |- _ => apply lookup_delete_Some in H as [? H]
  end.

Section invariant.
Context {T : Type}.
Implicit Types (s : sys T) (a : action T) (i j : nat) (t : loc).

(** ** Mutual exclusion *)

Definition opt_holds (oc : option call_pc) (m : mutex) : bool :=
  match oc with Some c => call_holds c m | None => false end.

Lemma holds_call s i :
  (i = 0 → ∃ t, loop s = LExec t) → ∀ m, holds s i m = opt_holds (calls s !! i) m.
Proof.
  intros Hi m. unfold holds, opt_holds. destruct (calls s !! i); [done|].
  case_decide; [|done]. destruct Hi as [t ->]; [done|]. by destruct m.
Qed.

Lemma locks_ok_call s s' i oc oc' :
  locks_ok s → calls s !! i = oc → (i = 0 → ∃ t, loop s = LExec t) →
  loop s' = loop s → calls s' = partial_alter (λ _, oc') i (calls s) →
  (∀ m, owner_change i (opt_holds oc m) (opt_holds oc' m) (owner s m) (owner s' m)) →
  locks_ok s'.
Proof.
  intros Hok Hi Hbody Hl Hc Hm.
  assert (Hi' : calls s' !! i = oc') by (by rewrite Hc, lookup_partial_alter_eq).
  assert (Hj : ∀ j, j ≠ i → calls s' !! j = calls s !! j)
    by (intros; rewrite Hc; by apply lookup_partial_alter_ne).
  split.
  - intros m j. destruct (owner_change_ok i _ _ _ _ j (Hm m)) as [H1 H2].
    { rewrite (lo_owner s Hok m i), (holds_call s i), Hi by done. done. }
    destruct (decide (j = i)) as [->|Hne].
    + rewrite H1. unfold holds. rewrite Hi', Hl. unfold opt_holds. destruct oc'; [done|].
      case_decide as H0; [|done]. destruct (Hbody H0) as [t ->]. by destruct m.
    + rewrite H2, (lo_owner s Hok m j) by done. unfold holds. by rewrite Hj, Hl.
  - rewrite Hl. intros H0. destruct (decide (i = 0)) as [->|Hne]; [by apply Hbody|].
    apply Hok. by rewrite <-(Hj 0).
Qed.

Lemma locks_ok_loop s s' :
  locks_ok s → calls s !! 0 = None → calls s' = calls s →
  (∀ m, owner_change 0 (loop_holds (loop s) m) (loop_holds (loop s') m)
    (owner s m) (owner s' m)) →
  locks_ok s'.
Proof.
  intros Hok H0 Hc Hm. split.
  - intros m j.
    destruct (owner_change_ok 0 _ _ _ _ j (Hm m)) as [H1 H2].
    { rewrite (lo_owner s Hok m 0). unfold holds. by rewrite H0, decide_True by done. }
    destruct (decide (j = 0)) as [->|Hne].
    + rewrite H1. unfold holds. by rewrite Hc, H0, decide_True by done.
    + rewrite H2, (lo_owner s Hok m j) by done. unfold holds. rewrite Hc.
      destruct (calls s !! j); [done|]. by rewrite !decide_False by done.
  - rewrite Hc, H0. by intros [].
Qed.

Lemma locks_ok_step s a s' : locks_ok s → step a s = Some (Ok s') → locks_ok s'.
Proof.
  intros Hok H. step_cases H.
  1-2: eapply (locks_ok_call s _ i None (Some _)); try done; intros m'.
  1: by destruct m'.
  1: unfold entry in *; destruct m'; naive_solver.
  all: first
    [ eapply (locks_ok_call s _ i (Some _) (Some _)); [done|eassumption| |done|reflexivity|]
    | eapply (locks_ok_call s _ i (Some _) None); [done|eassumption| |done|reflexivity|]
    | eapply locks_ok_loop; [done|done|done|] ].
  all: try (by intros ->; apply (lo_body s Hok); eexists).
  all: intros m'; destruct m'; simpl; unfold owner_change;
    repeat match goal with H : loop _ = _ |- _ => rewrite H end; done.
Qed.

Lemma holds_exclusive s m i j : locks_ok s → holds s i m = true → holds s j m = true → i = j.
Proof. intros Hok Hi%(lo_owner s Hok) Hj%(lo_owner s Hok). congruence. Qed.

Lemma call_exclusive s m i j c c' :
  locks_ok s → calls s !! i = Some c → calls s !! j = Some c' →
  call_holds c m = true → call_holds c' m = true → i = j.
Proof.
  intros Hok Hi Hj Hc Hc'. apply (holds_exclusive s m); [done| |];
    unfold holds; by rewrite ?Hi, ?Hj.
Qed.

Lemma loop_exclusive s m i c :
  locks_ok s → calls s !! 0 = None → loop_holds (loop s) m = true →
  calls s !! i = Some c → call_holds c m = false.
Proof.
  intros Hok H0 Hl Hi. destruct (call_holds c m) eqn:Hc; [|done].
  assert (i = 0); [|congruence].
  apply (holds_exclusive s m); [done| |]; unfold holds; [by rewrite Hi|].
  by rewrite H0, decide_True by done.
Qed.

(** ** The flags *)

Lemma flags_ok_step s a s' :
  locks_ok s → flags_ok s → step a s = Some (Ok s') → flags_ok s'.
Proof.
  intros Hl Hok H. step_all H.
  all: destruct Hok as [Hse Hdy Hre Hdi Hjo Hdo Hpu].
  all: split; simpl; intros; calls_inv; simpl in *; eauto; try congruence.
  all: try match goal with
  | H : calls ?s !! ?i = Some RSet, H' : calls ?s !! ?j = Some _ |- _ =>
    pose proof (call_exclusive s MStopped i j _ _ Hl H H' eq_refl eq_refl);
    specialize (Hre _ H); congruence
  | H : calls _ !! _ = Some RSet |- _ => specialize (Hre _ H); congruence
  | H : calls _ !! _ = Some (EPush ?t) |- _ => specialize (Hpu _ _ H); congruence
  end.
  all: try match goal with H : calls _ !! 0 = Some _ |- true = false => by specialize (Hse _ H) end.
  - destruct (destroys c); [|done]. exfalso. by apply H2; [apply H9|].
  - intros Hd. destruct (Hdo Hd) as [Hy%Hdy _]. by rewrite Hy in H.
  - split; [done|]. by apply Hdo.
  - apply andb_prop in H1 as [Hd He]. unfold queue_empty in He.
    by destruct (taskQueue_ (disp s)).
  - intros _. pose proof (loop_exclusive s MQueue i (EPush t) Hl H0) as Hx.
    rewrite Heql in Hx. specialize (Hx eq_refl H). done.
Qed.

(** ** The queue and the logs *)

Lemma queue_ok_step s a s' :
  locks_ok s → queue_ok s → step a s = Some (Ok s') → queue_ok s'.
Proof.
  intros Hl Hok H. step_all H.
  all: destruct Hok as [Hfr Hif Hlf Hex Hac Hxe Hpr].
  all: try match goal with H : loop _ = ?l |- _ =>
    rewrite H in Hfr, Hif, Hlf, Hex, Hxe; lazymatch l with LDone => rewrite <-H in * | _ => idtac end end.
  all: split; simpl in *; intros; simplify_eq; eauto; try congruence.
  - destruct (taskQueue_ (disp s)); [by apply Hfr in H|]. by apply Hfr in H.
  - destruct (taskQueue_ (disp s)); discriminate.
  - by destruct (taskQueue_ (disp s)).
  - by rewrite Hac, (assoc_L (++)).
  - by apply prefix_app_r.
  - unfold queue_empty in *. destruct (isDying_ (disp s)); [done|].
    by destruct (taskQueue_ (disp s)).
  - unfold queue_empty in *. destruct (isDying_ (disp s)); simpl in *.
    + by destruct (taskQueue_ (disp s)).
    + intros Hq. by specialize (Hif eq_refl Hq).
  - rewrite Hxe by (by destruct (isDying_ (disp s))). by rewrite app_nil_r.
  - rewrite Hxe, app_nil_r, Hac by (by destruct (isDying_ (disp s))).
    specialize (Hfr nextTask eq_refl). destruct (taskQueue_ (disp s)) as [|t q]; [done|].
    simplify_eq/=. exists q. by rewrite <-(assoc_L (++)).
  - by destruct (isDying_ (disp s)).
  - rewrite H in Hfr. specialize (Hfr _ eq_refl). simplify_eq/=.
    by rewrite Hac, H, <-(assoc_L (++)).
  - rewrite app_nil_r. by apply Hxe.
Qed.

(** ** Ownership *)

(** A call that moves on with the same task and without another one. *)
Lemma own_ok_move s s' i c c' :
  own_ok s → calls s !! i = Some c → calls s' = <[i := c']> (calls s) →
  call_task c' = call_task c → (∀ t, call_uncounted c' = Some t → call_uncounted c = Some t) →
  tasks s' = tasks s → taskQueue_ (disp s') = taskQueue_ (disp s) → loop s' = loop s →
  next s' = next s → accepted s' = accepted s → retired s' = retired s →
  own_ok s'.
Proof.
  intros [Hnd Hnx Hfr Hsz Hpo Hca Hin Hun Hli] Hi Ec Ht Hu Et Eq El En Ea Er.
  split; rewrite ?Ec, ?Et, ?Eq, ?El, ?En, ?Ea, ?Er; try done.
  - intros; calls_inv; [|by eauto]. eapply Hca; [done|congruence].
  - intros; calls_inv; try done; eauto; eapply Hin; try done; congruence.
  - intros; calls_inv; eauto.
  - intros t. rewrite (Hli t). do 2 f_equiv. split.
    + intros (j & cj & Hj & Htj). destruct (decide (j = i)) as [->|Hne].
      * exists i, c'. rewrite lookup_insert_eq. split; [done|congruence].
      * exists j, cj. by rewrite lookup_insert_ne.
    + intros (j & cj & Hj & Htj). calls_inv; [|by eauto]. eexists _, _; split; [done|congruence].
Qed.

(** A call that returns without a task. *)
Lemma own_ok_return s s' i c :
  own_ok s → calls s !! i = Some c → call_task c = None →
  calls s' = delete i (calls s) →
  tasks s' = tasks s → taskQueue_ (disp s') = taskQueue_ (disp s) → loop s' = loop s →
  next s' = next s → accepted s' = accepted s → retired s' = retired s →
  own_ok s'.
Proof.
  intros [Hnd Hnx Hfr Hsz Hpo Hca Hin Hun Hli] Hi Ht Ec Et Eq El En Ea Er.
  split; rewrite ?Ec, ?Et, ?Eq, ?El, ?En, ?Ea, ?Er; try done.
  1-3: intros; calls_inv; eauto.
  intros t. rewrite (Hli t). do 2 f_equiv. split.
  - intros (j & cj & Hj & Htj). exists j, cj. rewrite lookup_delete_ne; [done|].
    intros ->. congruence.
  - intros (j & cj & Hj & Htj). calls_inv. by exists j, cj.
Qed.

(** The loop moves on with the same popped task. *)
Lemma own_ok_loop s s' :
  own_ok s → loop_popped (loop s') = loop_popped (loop s) →
  calls s' = calls s → tasks s' = tasks s →
  taskQueue_ (disp s') = taskQueue_ (disp s) →
  next s' = next s → accepted s' = accepted s → retired s' = retired s →
  own_ok s'.
Proof.
  intros [Hnd Hnx Hfr Hsz Hpo Hca Hin Hun Hli] El Ec Et Eq En Ea Er.
  split; rewrite ?Ec, ?Et, ?Eq, ?El, ?En, ?Ea, ?Er; done.
Qed.

(** A call that begins without a task. *)
Lemma own_ok_begin s i c :
  own_ok s → calls s !! i = None → call_task c = None → call_uncounted c = None →
  own_ok (goto i c s).
Proof.
  intros [Hnd Hnx Hfr Hsz Hpo Hca Hin Hun Hli] Hi Ht Hu. split; simpl; try done.
  1-3: intros; calls_inv; congruence || eauto.
  intros t. rewrite (Hli t). do 2 f_equiv. split.
  - intros (j & cj & Hj & Htj). exists j, cj. rewrite lookup_insert_ne; [done|].
    intros ->. congruence.
  - intros (j & cj & Hj & Htj). calls_inv. by exists j, cj.
Qed.

Lemma own_ok_new s i u :
  own_ok s → calls s !! i = None → (Z.of_nat (size (tasks s)) + 1 < size_t_mod)%Z →
  own_ok (goto i (ELock (Some (next s))) (new_task u s)).
Proof.
  intros [Hnd Hnx Hfr Hsz Hpo Hca Hin Hun Hli] Hi Hb.
  assert (Hnext : tasks s !! next s = None).
  { apply eq_None_not_Some. intros Hx%Hfr. lia. }
  assert (Hne : ∀ j c t, calls s !! j = Some c → call_task c = Some t → t ≠ next s).
  { intros j c t Hj Ht ->. assert (is_Some (tasks s !! next s)) as Hx%Hfr; [|lia].
    apply Hli. eauto 10. }
  split; simpl; try done.
  - intros t Ht%Hnx. lia.
  - intros t. rewrite lookup_insert_is_Some'. intros [->|Ht%Hfr]; lia.
  - rewrite map_size_insert_None by done. lia.
  - intros j c t Hj Ht. calls_inv; [|by eauto]. simplify_eq/=. intros Hx%Hnx. lia.
  - intros j k c c' t Hj Hk Ht Ht'. calls_inv; simplify_eq/=; try done; eauto.
    + exfalso. by eapply Hne.
    + exfalso. by eapply Hne.
  - intros j c t Hj Ht. calls_inv; try done. eauto.
  - intros t. rewrite lookup_insert_is_Some', (Hli t). split.
    + intros [<-|[?|[?|(j & c & Hj & Ht)]]]; [|tauto..|].
      * right; right. eexists i, _. by rewrite lookup_insert_eq.
      * right; right. exists j, c. rewrite lookup_insert_ne; [done|]. intros ->. congruence.
    + intros [?|[?|(j & c & Hj & Ht)]]; [tauto..|]. calls_inv; simplify_eq/=; eauto 10.
Qed.

Lemma own_ok_push s i t :
  queue_ok s → own_ok s → calls s !! i = Some (EPush t) →
  own_ok (goto i (ECountLock t) (log_accepted t
    (set_data (tasks s, set_taskQueue (taskQueue_ (disp s) ++ [t]) (disp s)) s))).
Proof.
  intros Hq [Hnd Hnx Hfr Hsz Hpo Hca Hin Hun Hli] Hi.
  assert (Ht := Hca i _ t Hi eq_refl).
  assert (Hne : ∀ j c t', j ≠ i → calls s !! j = Some c → call_task c = Some t' → t' ≠ t).
  { intros j c t' Hj Hc Ht' ->. by apply Hj, (Hin j i c _ t Hc Hi). }
  split; simpl; try done.
  - apply NoDup_app. split_and!; [done| |apply NoDup_singleton]. set_solver.
  - intros t'. rewrite elem_of_app, list_elem_of_singleton. intros [?| ->]; [by auto|].
    apply Hfr, Hli. eauto 10.
  - intros j c t' Hj Ht'. calls_inv; try done. rewrite not_elem_of_app, list_elem_of_singleton.
    split; [by eauto|]. by eapply Hne.
  - intros j k c c' t' Hj Hk Hc Hc'. calls_inv; try done. by eapply Hin.
  - intros j c t' Hj Ht'. rewrite elem_of_app, list_elem_of_singleton.
    calls_inv; [by right; simplify_eq/=|]. left. by eauto.
  - intros t'. rewrite elem_of_app, list_elem_of_singleton, (Hli t'). split.
    + intros [?|[?|(j & c & Hj & Ht')]]; [tauto..|].
      destruct (decide (j = i)) as [->|Hji]; [left; right; naive_solver|].
      right; right. exists j, c. by rewrite lookup_insert_ne.
    + intros [[?| ->]|[?|(j & c & Hj & Ht')]]; [tauto| |tauto|].
      * eauto 10.
      * calls_inv; try done. eauto 10.
Qed.

Lemma own_ok_discard s i t :
  queue_ok s → own_ok s → calls s !! i = Some (EDiscard t) →
  own_ok (goto i ERelease (set_data (delete t (tasks s), disp s) s)).
Proof.
  intros Hq [Hnd Hnx Hfr Hsz Hpo Hca Hin Hun Hli] Hi.
  assert (Ht := Hca i _ t Hi eq_refl).
  assert (Hne : ∀ j c t', j ≠ i → calls s !! j = Some c → call_task c = Some t' → t' ≠ t).
  { intros j c t' Hj Hc Ht' ->. by apply Hj, (Hin j i c _ t Hc Hi). }
  split; simpl; try done.
  - intros t'. rewrite lookup_delete_is_Some. intros [_ ?]. by auto.
  - rewrite map_size_delete. destruct (tasks s !! t); simpl; lia.
  - intros; calls_inv; try done. by eauto.
  - intros; calls_inv; try done. by eapply Hin.
  - intros; calls_inv; try done. by eauto.
  - rewrite (qu_accepted s Hq) in *. rewrite not_elem_of_app in Ht.
    intros t'. rewrite lookup_delete_is_Some, (Hli t'). split.
    + intros [Hne' [?|[?|(j & c & Hj & Ht')]]]; [tauto..|]. right; right. exists j, c.
      rewrite lookup_insert_ne; [done|]. intros ->. naive_solver.
    + intros [Hin'|[Hp|(j & c & Hj & Ht')]].
      * split; [|tauto]. intros ->. tauto.
      * split; [|tauto]. intros ->. apply Hpo in Hp. tauto.
      * calls_inv; try done. split; [|by eauto 10]. intros ->. by eapply Hne.
Qed.

Lemma own_ok_pop s t q :
  locks_ok s → queue_ok s → own_ok s → calls s !! 0 = None → loop s = LPop t →
  taskQueue_ (disp s) = t :: q →
  own_ok (set_loop (LCountLock t) (log_retired t
    (set_data (tasks s, set_isExecuting false (set_taskQueue q (disp s))) s))).
Proof.
  intros Hl Hq [Hnd Hnx Hfr Hsz Hpo Hca Hin Hun Hli] H0 Hlp Hqu.
  split; simpl; try done.
  - intros t' [= ->]. rewrite elem_of_app, list_elem_of_singleton. by right.
  - intros j c t' Hj Hc. pose proof (loop_exclusive s MQueue j c Hl H0) as Hx.
    rewrite Hlp in Hx. specialize (Hx eq_refl Hj). by destruct c.
  - intros t'. rewrite (Hli t'), Hqu, Hlp. simpl. rewrite elem_of_cons. naive_solver.
Qed.

Lemma own_ok_delete s t :
  queue_ok s → own_ok s → loop s = LDelete t →
  own_ok (set_loop LLock (set_data (delete t (tasks s), disp s) s)).
Proof.
  intros Hq [Hnd Hnx Hfr Hsz Hpo Hca Hin Hun Hli] Hlp.
  assert (Hret : t ∈ retired s) by (apply Hpo; by rewrite Hlp).
  split; simpl; try done.
  - intros t'. rewrite lookup_delete_is_Some. intros [_ ?]. by auto.
  - rewrite map_size_delete. destruct (tasks s !! t); simpl; lia.
  - rewrite (qu_accepted s Hq) in *. apply NoDup_app in Hnd as (_ & Hdis & _).
    intros t'. rewrite lookup_delete_is_Some, (Hli t'), Hlp. simpl. split.
    + intros [Hne [?|[?|?]]]; [tauto|congruence|tauto].
    + intros [Hin'|[?|(j & c & Hj & Ht')]]; [|done|].
      * split; [|tauto]. intros <-. by apply (Hdis t).
      * split; [|by eauto 10]. intros <-. specialize (Hca _ _ _ Hj Ht'). set_solver.
Qed.

Lemma own_ok_step s a s' :
  locks_ok s → queue_ok s → own_ok s → step a s = Some (Ok s') → own_ok s'.
Proof.
  intros Hl Hq Hok H. step_all H.
  all: try (eapply (own_ok_move s _ i); first [eassumption|done]; fail).
  all: try (by eapply own_ok_return; eauto).
  all: try (by eapply own_ok_loop; eauto; match goal with H : loop _ = _ |- _ => rewrite H end).
  - by apply own_ok_new.
  - by apply own_ok_begin.
  - by apply own_ok_push.
  - by apply own_ok_discard.
  - pose proof (qu_front s Hq) as Hfr. rewrite Heql in Hfr. specialize (Hfr _ eq_refl).
    rewrite H in Hfr. simplify_eq/=. by apply own_ok_pop.
  - by apply own_ok_delete.
Qed.

(** ** The counters *)

Lemma uncounted_call s i c g :
  locks_ok s → calls s !! i = Some c → call_holds c MQueue = true →
  uncounted s g = one_in_group (tasks s) g (call_uncounted c).
Proof.
  intros Hl Hi Hc. unfold uncounted.
  assert (owner s MQueue = Some i) as ->; [|by rewrite Hi].
  apply Hl. unfold holds. by rewrite Hi.
Qed.

Lemma uncounted_loop s g :
  locks_ok s → calls s !! 0 = None → loop_holds (loop s) MQueue = true →
  uncounted s g = (- one_in_group (tasks s) g (loop_uncounted (loop s)))%Z.
Proof.
  intros Hl H0 Hc. unfold uncounted.
  assert (owner s MQueue = Some 0) as ->; [|by rewrite H0].
  apply Hl. unfold holds. by rewrite H0, decide_True.
Qed.

Lemma uncounted_free s g : owner s MQueue = None → uncounted s g = 0%Z.
Proof. unfold uncounted. by intros ->. Qed.

Definition is_uncounted s t : Prop :=
  (∃ j c, calls s !! j = Some c ∧ call_uncounted c = Some t) ∨
  loop_uncounted (loop s) = Some t.

Lemma one_in_group_ext (h h' : heap T) g p :
  (∀ t, p = Some t → h' !! t = h !! t) → one_in_group h' g p = one_in_group h g p.
Proof.
  intros Hp. unfold one_in_group, group_of. destruct p as [t|]; [|done]. simpl.
  by rewrite Hp.
Qed.

(** A step of a thread outside the queue's critical section. *)
Lemma uncounted_other s s' i g :
  locks_ok s → owner s' MQueue = owner s MQueue → holds s i MQueue = false →
  (∀ j, j ≠ i → calls s' !! j = calls s !! j) → (i ≠ 0 → loop s' = loop s) →
  (∀ t, is_uncounted s t → tasks s' !! t = tasks s !! t) →
  uncounted s' g = uncounted s g.
Proof.
  intros Hl Ho Hi Hj Hlp Ht. unfold uncounted. rewrite Ho.
  destruct (owner s MQueue) as [j|] eqn:Hown; [|done].
  apply (lo_owner s Hl) in Hown. assert (Hne : j ≠ i) by congruence.
  rewrite Hj by done. unfold holds in Hown.
  destruct (calls s !! j) as [c|] eqn:Hc.
  - apply one_in_group_ext. intros t Hu. apply Ht. left. eauto.
  - case_decide; [subst|done]. rewrite Hlp by done. f_equal. apply one_in_group_ext.
    intros t Hu. apply Ht. by right.
Qed.

Lemma count_ok_same s s' :
  count_ok s → taskCount_ (disp s') = taskCount_ (disp s) →
  taskQueue_ (disp s') = taskQueue_ (disp s) → tasks s' = tasks s →
  (∀ g, uncounted s' g = uncounted s g) → count_ok s'.
Proof. intros Hc E1 E2 E3 E4 g. by rewrite E1, E2, E3, E4. Qed.

Lemma uncounted_live s t : own_ok s → is_uncounted s t → is_Some (tasks s !! t).
Proof.
  intros Hok [(j & c & Hj & Hc)|Hc]; apply (ow_live s Hok).
  - left. by eapply ow_uncounted.
  - right; left. by destruct (loop s).
Qed.

Lemma one_in_group_None (h : heap T) g : one_in_group h g None = 0%Z.
Proof. done. Qed.

(** Rewrite the [uncounted] of a state whose queue mutex is free or held by a
    known thread. *)
Ltac uncounted_known :=
  first
  [ rewrite uncounted_free by done
  | erewrite uncounted_call by (first [done | eassumption | apply lookup_insert_eq])
  | rewrite uncounted_loop by
      (simpl; repeat match goal with H : loop _ = _ |- _ => rewrite H end; done) ];
  simpl; repeat match goal with H : loop _ = _ |- _ => rewrite H end;
  rewrite ?one_in_group_None.

Lemma live_length s (q : list loc) :
  NoDup q → (∀ t, t ∈ q → is_Some (tasks s !! t)) → length q ≤ size (tasks s).
Proof.
  intros Hnd Hq.
  rewrite <-(size_list_to_set (C := gset loc)), <-(size_dom (D := gset loc)) by done.
  apply subseteq_size. intros t. rewrite elem_of_list_to_set, elem_of_dom. apply Hq.
Qed.

Lemma queue_nodup s : queue_ok s → own_ok s → NoDup (taskQueue_ (disp s)).
Proof.
  intros Hq Ho. pose proof (ow_nodup s Ho) as Hnd. rewrite (qu_accepted s Hq) in Hnd.
  by apply NoDup_app in Hnd as (_ & _ & Hnd).
Qed.

Lemma popped_not_queued s t :
  queue_ok s → own_ok s → loop_popped (loop s) = Some t → t ∉ taskQueue_ (disp s).
Proof.
  intros Hq Ho Hp%(ow_popped s Ho). pose proof (ow_nodup s Ho) as Hnd.
  rewrite (qu_accepted s Hq) in Hnd. apply NoDup_app in Hnd as (_ & Hnd & _). by apply Hnd.
Qed.

Lemma queue_size s :
  own_ok s → queue_ok s → length (taskQueue_ (disp s)) ≤ size (tasks s).
Proof.
  intros Ho Hq. apply live_length; [by apply queue_nodup|].
  intros t Ht. apply (ow_live s Ho). by left.
Qed.

Lemma count_range s g :
  own_ok s → queue_ok s →
  is_size (Z.of_nat (length (in_group (tasks s) g (taskQueue_ (disp s))))).
Proof.
  intros Hok Hq. pose proof (queue_size s Hok Hq).
  pose proof (in_group_length (tasks s) g (taskQueue_ (disp s))).
  pose proof (ow_size s Hok). unfold is_size. lia.
Qed.

Lemma one_in_group_live (h : heap T) g t u :
  h !! t = Some u → one_in_group h g (Some t) = if decide (g = id u) then 1%Z else 0%Z.
Proof.
  intros Hu. unfold one_in_group. simpl. rewrite (group_of_live h t u Hu).
  repeat case_decide; congruence.
Qed.

Lemma count_ok_new s i u :
  locks_ok s → queue_ok s → own_ok s → count_ok s → calls s !! i = None →
  (i = 0 → ∃ t, loop s = LExec t) →
  count_ok (goto i (ELock (Some (next s))) (new_task u s)).
Proof.
  intros Hl Hq Hown Hok Hi H0 g. simpl.
  assert (Hnext : ∀ t, is_Some (tasks s !! t) → t ≠ next s).
  { intros t Ht%(ow_fresh s Hown) ->. lia. }
  rewrite (uncounted_other s _ i g); simpl; try done.
  - rewrite in_group_insert; [apply Hok|]. intros Hin.
    apply (Hnext (next s)); [|done]. apply (ow_live s Hown). by left.
  - rewrite (holds_call s i H0). by rewrite Hi.
  - intros j Hj. by rewrite lookup_insert_ne.
  - intros t Ht%uncounted_live; [|done]. rewrite lookup_insert_ne; [done|].
    intros E. by apply (Hnext t).
Qed.

Lemma count_ok_delete s t :
  locks_ok s → queue_ok s → own_ok s → count_ok s → calls s !! 0 = None →
  loop s = LDelete t →
  count_ok (set_loop LLock (set_data (delete t (tasks s), disp s) s)).
Proof.
  intros Hl Hq Hown Hok H0 Hlp g. simpl.
  assert (Hin : t ∉ taskQueue_ (disp s)).
  { apply popped_not_queued; [done..|]. by rewrite Hlp. }
  rewrite (uncounted_other s _ 0 g); simpl; try done.
  - rewrite in_group_delete by done. apply Hok.
  - unfold holds. by rewrite H0, Hlp, decide_True by done.
  - intros t' Ht'. rewrite lookup_delete_ne; [done|]. intros <-.
    destruct Ht' as [(j & c & Hj & Hc)|Hc]; [|by rewrite Hlp in Hc].
    by apply Hin, (ow_uncounted s Hown j c).
Qed.

Lemma count_ok_step s a s' :
  locks_ok s → queue_ok s → own_ok s → count_ok s → step a s = Some (Ok s') → count_ok s'.
Proof.
  intros Hl Hq Hown Hok H. pose proof (locks_ok_step _ _ _ Hl H) as Hl'. step_all H.
  all: try (eapply count_ok_same; [exact Hok|done|done|done|]; intros g;
    first
    [ eapply (uncounted_other _ _ i); [done|done| |simpl; intros; by rewrite ?lookup_insert_ne, ?lookup_delete_ne|done|done];
      unfold holds; match goal with H : calls _ !! _ = Some _ |- _ => by rewrite H end
    | eapply (uncounted_other _ _ 0); [done|done| |done|done|done];
      unfold holds; match goal with H : calls _ !! _ = None, H' : loop _ = _ |- _ =>
        rewrite H, H'; by case_decide end
    | by do 2 uncounted_known ]; fail).
  - by apply count_ok_new.
  - eapply count_ok_same; [exact Hok|done..|]. intros g.
    eapply (uncounted_other _ _ i); try done; [|by intros; simpl; rewrite lookup_insert_ne].
    rewrite (holds_call s i) by done. by rewrite H.
  - intros g. specialize (Hok g). uncounted_known.
    rewrite (uncounted_call _ _ _ g Hl H0 eq_refl) in Hok. simpl in Hok.
    rewrite one_in_group_None in Hok.
    destruct (ow_live s Hown newTask) as [_ [u Hu]]; [by eauto 10|].
    rewrite (one_in_group_live _ _ _ u) by done.
    rewrite in_group_app, length_app, Nat2Z.inj_add, <-Hok, (in_group_cons _ _ _ u []) by done.
    rewrite app_nil_r. case_decide; simpl; lia.
  - intros g. specialize (Hok g). uncounted_known.
    rewrite (uncounted_call _ _ _ g Hl H0 eq_refl) in Hok. simpl in Hok.
    rewrite in_group_delete; [done|]. pose proof (ow_call _ Hown _ _ _ H0 eq_refl) as Hn.
    rewrite (qu_accepted s Hq), not_elem_of_app in Hn. tauto.
  - intros g. pose proof (count_range s g Hown Hq). specialize (Hok g). uncounted_known.
    rewrite (uncounted_call _ _ _ g Hl H0 eq_refl) in Hok. simpl in Hok.
    rewrite (one_in_group_live _ _ _ _ H) in Hok. rewrite task_count_add.
    case_decide; [rewrite wrap_size_id; unfold is_size in *; lia|lia].
  - intros g. specialize (Hok g). uncounted_known.
    rewrite (uncounted_loop _ g Hl H0), Heql in Hok by (by rewrite Heql). simpl in Hok.
    rewrite one_in_group_None in Hok.
    pose proof (qu_front s Hq nextTask) as Hfr. rewrite Heql, H in Hfr.
    specialize (Hfr eq_refl). simplify_eq/=.
    destruct (ow_live s Hown nextTask) as [_ [u Hu]]; [left; rewrite H; by left|].
    rewrite (one_in_group_live _ _ _ u) by done.
    rewrite H, (in_group_cons _ _ _ u), length_app in Hok by done.
    case_decide; simpl in Hok; lia.
  - intros g. pose proof (count_range s g Hown Hq). specialize (Hok g). uncounted_known.
    rewrite (uncounted_loop _ g Hl H0), Heql in Hok by (by rewrite Heql). simpl in Hok.
    rewrite (one_in_group_live _ _ _ _ H) in Hok. rewrite task_count_add.
    case_decide; [rewrite wrap_size_id; unfold is_size in *; lia|lia].
  - by apply count_ok_delete.
Qed.

(** ** Reachable states *)

Lemma inv_init : inv (init (T := T)).
Proof.
  split.
  - split; [|by intros []]. intros m i. unfold holds. simpl.
    rewrite lookup_empty. case_decide; by destruct m.
  - split; try done; simpl; intros; simplify_map_eq.
  - split; done.
  - split; simpl; intros; simplify_map_eq; try (by constructor).
    + by apply not_elem_of_nil in H.
    + by apply is_Some_None in H.
    + split; [by intros []|]. intros [?|[?|(i & c & ? & ?)]]; simplify_map_eq.
      by apply not_elem_of_nil in H.
  - done.
Qed.

Lemma inv_step s a s' : inv s → step a s = Some (Ok s') → inv s'.
Proof.
  intros [Hl Hf Hq Ho Hc] H. split.
  - by eapply locks_ok_step.
  - by eapply flags_ok_step.
  - by eapply queue_ok_step.
  - by eapply own_ok_step.
  - by eapply count_ok_step.
Qed.

Lemma inv_reachable s : reachable s → inv s.
Proof. induction 1; [apply inv_init|by eapply inv_step]. Qed.

Lemma steps_app l1 l2 s s' :
  steps l1 s = Some (Ok s') → steps (l1 ++ l2) s = steps l2 s'.
Proof.
  revert s. induction l1 as [|a l1 IH]; intros s H; simpl in *; [by injection H as ->|].
  destruct (step a s) as [[s1|]|]; [by apply IH|done..].
Qed.

Lemma reachable_steps l s s' : reachable s → steps l s = Some (Ok s') → reachable s'.
Proof.
  revert s. induction l as [|a l IH]; intros s Hr H; simpl in *; [by injection H as <-|].
  destruct (step a s) as [[s1|]|] eqn:Hs; [|done..]. eapply IH; [|done].
  by eapply reachable_step.
Qed.

End invariant.
End EventLoop.
