(* ===== verification/EventLoopProps.v ===== *)
(** What the threads of an event dispatcher guarantee, for every schedule:
    memory safety, first-in first-out execution, ownership of the tasks,
    [pendingTasks], absence of deadlocks, and termination of the destructor;
    and that a call without interference is the sequential one. *)
From S2P Require Import Prelude EventDispatcher EventLoop.

Module EventLoopProps.
Import UnitTask EventDispatcher EventLoop.
Section props.
Context {T : Type}.
Implicit Types (s : sys T) (a : action T) (i j : tid) (t : loc).

(** * Safety *)

Lemma exec_fault {A} (m : prog (heap T * EventDispatcher) A) k s e :
  exec m k s = Some (Fault e) → m (tasks s, disp s) = Fault e.
Proof. unfold exec. destruct (m _) as [[a w]|e']; naive_solver. Qed.

Lemma delete_task_fault h (d : EventDispatcher) t e :
  is_Some (h !! t) → delete_task (T := T) t (h, d) ≠ Fault e.
Proof. intros [u Hu]. by rewrite (delete_task_live h d t u Hu). Qed.

Lemma load_task_fault h (d : EventDispatcher) t e :
  is_Some (h !! t) → load_task (T := T) t (h, d) ≠ Fault e.
Proof. intros [u Hu]. by rewrite (load_task_live h d t u Hu). Qed.

Lemma count_up_fault h d t e : is_Some (h !! t) → count_up (T := T) t (h, d) ≠ Fault e.
Proof.
  intros [u Hu]. unfold count_up. by rewrite (pbind_ok _ _ _ _ _ (load_task_live h d t u Hu)).
Qed.

Lemma count_down_fault h d t e : is_Some (h !! t) → count_down (T := T) t (h, d) ≠ Fault e.
Proof.
  intros [u Hu]. unfold count_down. by rewrite (pbind_ok _ _ _ _ _ (load_task_live h d t u Hu)).
Qed.

Lemma step_no_fault s a e : inv s → step a s ≠ Some (Fault e).
Proof.
  intros [Hl Hf Hq Ho Hc] H.
  destruct a as [i m|i]; simpl in H.
  { unfold call, move in H. by destruct (may_call i m s). }
  apply run_inv in H as [(c & Hi & H)|(H0 & -> & H)].
  - destruct c; simpl in H; unfold lock, move in H; try case_match; try discriminate H;
      apply exec_fault in H; try discriminate H.
    + by eapply delete_task_fault, H; apply (ow_live s Ho); eauto 10.
    + eapply (count_up_fault _ _ newTask), H. apply (ow_live s Ho). left.
      by eapply ow_uncounted.
  - unfold loop_step in H.
    assert (Hlive : ∀ t, loop_popped (loop s) = Some t → is_Some (tasks s !! t)).
    { intros t Ht. apply (ow_live s Ho). tauto. }
    assert (Hfr : ∀ t, loop_front (loop s) = Some t →
      ∃ q, taskQueue_ (disp s) = t :: q ∧ is_Some (tasks s !! t)).
    { intros t Ht%(qu_front s Hq). destruct (taskQueue_ (disp s)) as [|t' q] eqn:Hqu; [done|].
      simplify_eq/=. exists q. split; [done|]. apply (ow_live s Ho). left. rewrite Hqu. by left. }
    pose proof (qu_lfront s Hq) as Hlf.
    destruct (loop s); simpl in H; unfold lock, move in H; try case_match; try discriminate H;
      apply exec_fault in H.
    + unfold front in H. simpl in H. specialize (Hlf eq_refl).
      unfold pbind in H. simpl in H. by destruct (taskQueue_ (disp s)).
    + by eapply load_task_fault, H; edestruct Hfr as (? & ? & ?).
    + destruct (Hfr nextTask eq_refl) as (q & Hqu & _).
      unfold pop, pbind in H. simpl in H. by rewrite Hqu in H.
    + by eapply (count_down_fault _ _ nextTask), H; apply Hlive.
    + by eapply delete_task_fault, H; apply Hlive.
Qed.

(** C8: no thread ever dereferences or deletes a task that is not live, deletes
    a task twice, or takes the front of an empty queue: no step of a reachable
    state faults, whatever the schedule and the calls the task bodies make. *)
Theorem event_loop_safe s a e : reachable s → step a s ≠ Some (Fault e).
Proof. intros Hs%inv_reachable. by apply step_no_fault. Qed.

(** * Locking discipline *)

(** C15: two threads are never between the lock and the unlock of the same
    mutex, and a thread changes a member only while it holds the mutex that
    the class declaration names as its guard. *)
Theorem guarded_by s i s' :
  reachable s → step (Run i) s = Some (Ok s') →
  (∀ m j k, holds s j m = true → holds s k m = true → j = k) ∧
  (taskQueue_ (disp s') ≠ taskQueue_ (disp s) ∨
   isExecuting_ (disp s') ≠ isExecuting_ (disp s) → holds s i MQueue = true) ∧
  (taskCount_ (disp s') ≠ taskCount_ (disp s) → holds s i MTaskCount = true) ∧
  (isStopped_ (disp s') ≠ isStopped_ (disp s) ∨
   isDying_ (disp s') ≠ isDying_ (disp s) → holds s i MStopped = true).
Proof.
  intros [Hl _ _ _ _]%inv_reachable H. simpl in H.
  split; [by intros; eapply holds_exclusive|].
  run_cases H; unfold holds; simplify_map_eq;
    repeat match goal with H : calls _ !! _ = _ |- _ => rewrite H; clear H end;
    repeat match goal with H : loop _ = _ |- _ => rewrite H; clear H end;
    simpl; tauto.
Qed.

(** * Order *)

(** C13: tasks leave the queue in the order in which they were pushed, nothing
    is lost between the two, and no task is pushed twice; as long as the
    dispatcher is not being destroyed the tasks whose bodies were started are
    those that left the queue, with the one being executed, and afterwards they
    are still the first ones pushed; and [isExecuting_] is true exactly from
    the fetching of a task until it is popped. *)
Theorem executes_fifo s :
  reachable s →
  accepted s = retired s ++ taskQueue_ (disp s) ∧ NoDup (accepted s) ∧
  executed s `prefix_of` accepted s ∧
  (isDying_ (disp s) = false → executed s = retired s ++ loop_started (loop s)) ∧
  isExecuting_ (disp s) = bool_decide (is_Some (loop_front (loop s))).
Proof.
  intros [_ _ Hq Ho _]%inv_reachable. split_and!; [apply Hq|apply Ho|apply Hq..].
Qed.

(** * Ownership *)

(** C17: a live task is in exactly one place: in the queue, in the hands of the
    loop after it was popped, or in the hands of exactly one call that has not
    decided about it. *)
Theorem task_owner s t :
  reachable s → is_Some (tasks s !! t) →
  let queued := t ∈ taskQueue_ (disp s) in
  let popped := loop_popped (loop s) = Some t in
  let handed i := ∃ c, calls s !! i = Some c ∧ call_task c = Some t in
  (queued ∧ ¬ popped ∧ ∀ i, ¬ handed i) ∨
  (¬ queued ∧ popped ∧ ∀ i, ¬ handed i) ∨
  (¬ queued ∧ ¬ popped ∧ ∃ i, handed i ∧ ∀ j, handed j → j = i).
Proof.
  intros [_ _ Hq Ho _]%inv_reachable Ht queued popped handed.
  assert (Hacc : queued ∨ popped → t ∈ accepted s).
  { rewrite (qu_accepted s Hq), elem_of_app.
    intros [?|?]; [by right|left; by apply (ow_popped s Ho)]. }
  assert (Hh : ∀ i, handed i → t ∉ accepted s) by (intros i (c & Hi & Hc); by eapply ow_call).
  assert (Hx : queued → ¬ popped).
  { intros Hqt Hp. by apply (popped_not_queued s t). }
  apply (ow_live s Ho) in Ht as [Hqt|[Hp|(i & c & Hi & Hc)]].
  - left. split_and!; [done|by apply Hx|]. intros i Hi%Hh. tauto.
  - right; left. split_and!; [by intros ?%Hx|done|]. intros i Hi%Hh. tauto.
  - right; right. assert (Hi' : handed i) by (by exists c). specialize (Hh i Hi').
    split_and!; [tauto..|]. exists i. split; [done|].
    intros j (c' & Hj & Hc'). by eapply (ow_inj s Ho j i c' c t).
Qed.

(** * [pendingTasks] *)

(** How many tasks of the queue [taskCount_] does not count yet, less those it
    still counts. *)
Definition in_flight s : Z :=
  match owner s MQueue with
  | None => 0
  | Some j =>
    match calls s !! j with
    | Some c => match call_uncounted c with Some _ => 1 | None => 0 end
    | None => match loop_uncounted (loop s) with Some _ => -1 | None => 0 end
    end
  end.

Lemma sum_counts_one m g n : 
  sum_counts (<[g := (task_count m g + n)%Z]> m) = (sum_counts m + n)%Z.
Proof. rewrite sum_counts_insert. lia. Qed.

Lemma task_count_insert m g v g' :
  task_count (<[g := v]> m) g' = if decide (g' = g) then v else task_count m g'.
Proof. 
  unfold task_count. case_decide as Hg; [by rewrite Hg, lookup_insert_eq|by rewrite lookup_insert_ne].
Qed.

(** The sum of the counters is the length of the queue up to the task in
    flight. *)
Lemma sum_counts_flight s n p :
  inv s → (∀ t, p = Some t → is_Some (tasks s !! t)) →
  (∀ g, uncounted s g = (n * one_in_group (tasks s) g p)%Z) →
  sum_counts (taskCount_ (disp s)) =
    (Z.of_nat (length (taskQueue_ (disp s))) - match p with Some _ => n | None => 0 end)%Z.
Proof.
  intros [Hl _ Hq Ho Hc] Hp Hun.
  assert (Hlive : ∀ t, t ∈ taskQueue_ (disp s) → is_Some (tasks s !! t)).
  { intros t Ht. apply (ow_live s Ho). by left. }
  destruct p as [t|].
  - destruct (Hp t eq_refl) as [u Hu].
    rewrite <-(sum_counts_length (tasks s) (taskQueue_ (disp s))
      (<[id u := (task_count (taskCount_ (disp s)) (id u) + n)%Z]> (taskCount_ (disp s))) Hlive).
    + rewrite sum_counts_one. lia.
    + intros g. specialize (Hc g). rewrite Hun, (one_in_group_live _ _ _ u) in Hc by done.
      rewrite task_count_insert. case_decide; simplify_eq; lia.
  - rewrite <-(sum_counts_length (tasks s) (taskQueue_ (disp s)) (taskCount_ (disp s)) Hlive);
      [lia|].
    intros g. specialize (Hc g). rewrite Hun, one_in_group_None in Hc. lia.
Qed.

Lemma sum_counts_queue s :
  inv s → sum_counts (taskCount_ (disp s)) = (Z.of_nat (length (taskQueue_ (disp s))) - in_flight s)%Z.
Proof.
  intros Hinv. pose proof (inv_own s Hinv) as Ho. unfold in_flight.
  destruct (owner s MQueue) as [j|] eqn:Hown.
  - destruct (calls s !! j) as [c|] eqn:Hj.
    + apply (sum_counts_flight s 1 (call_uncounted c)); [done| |].
      * intros t Ht. apply (ow_live s Ho). left. by eapply ow_uncounted.
      * intros g. unfold uncounted. rewrite Hown, Hj. lia.
    + apply (sum_counts_flight s (-1) (loop_uncounted (loop s))); [done| |].
      * intros t Ht. apply (ow_live s Ho). right; left. by destruct (loop s).
      * intros g. unfold uncounted. rewrite Hown, Hj. lia.
  - apply (sum_counts_flight s 0 None); [done..|]. intros g. unfold uncounted. by rewrite Hown.
Qed.

Lemma in_flight_range s :
  inv s → is_size (Z.of_nat (length (taskQueue_ (disp s))) - in_flight s).
Proof.
  intros [Hl _ Hq Ho Hc]. pose proof (queue_size s Ho Hq). pose proof (ow_size s Ho).
  unfold in_flight, is_size.
  destruct (owner s MQueue) as [j|]; [|lia]. destruct (calls s !! j) as [c|] eqn:Hj.
  - destruct (call_uncounted c) as [t|] eqn:Ht; [|lia].
    pose proof (ow_uncounted s Ho j c t Hj Ht) as Hin.
    destruct (taskQueue_ (disp s)); [by apply not_elem_of_nil in Hin|]. simpl in *. lia.
  - destruct (loop_uncounted (loop s)) as [t|] eqn:Ht; [|lia].
    assert (Hp : loop_popped (loop s) = Some t) by (by destruct (loop s)).
    assert (length (t :: taskQueue_ (disp s)) ≤ size (tasks s)); [|simpl in *; lia].
    apply live_length.
    + constructor; [by apply popped_not_queued|by apply queue_nodup].
    + intros t'. rewrite elem_of_cons. intros [->|?]; apply (ow_live s Ho); tauto.
Qed.

(** C18: what [pendingTasks] answers: the length of the queue at that moment,
    one less if another thread has pushed a task it has not counted yet, one
    more if the loop has popped one that is still counted; the sum does not
    wrap around, and it is exact when no thread is in the queue's critical
    section. *)
Theorem pendingTasks_answer s i s' :
  reachable s → calls s !! i = Some PSum → step (Run i) s = Some (Ok s') →
  ∃ n, answers s' = (i, n) :: answers s ∧
    n = (Z.of_nat (length (taskQueue_ (disp s))) - in_flight s)%Z ∧
    (owner s MQueue = None → n = Z.of_nat (length (taskQueue_ (disp s)))).
Proof.
  intros Hinv%inv_reachable Hi H. simpl in H. unfold run in H. rewrite Hi in H. simpl in H.
  apply exec_inv in H as (n & h & d & Hp & ->). unfold pendingTasks, pbind, pret in Hp.
  simpl in Hp. injection Hp as <- <- <-. eexists. split; [done|].
  rewrite wrapped_sum, (sum_counts_queue s) by done.
  rewrite wrap_size_id by (by apply in_flight_range). split; [done|].
  intros Ho. unfold in_flight. rewrite Ho. lia.
Qed.

(** * No deadlock *)

Definition can_run s i : Prop := ∃ s', step (Run i) s = Some (Ok s').

(** The mutex a program point waits for. *)
Definition call_waits (c : call_pc) : option mutex :=
  match c with
  | ELock _ | BLock => Some MQueue
  | ECountLock _ | PLock => Some MTaskCount
  | SLock | RLock | DLock => Some MStopped
  | _ => None
  end.
Definition loop_waits (l : loop_pc) : option mutex :=
  match l with
  | LLock | LWait | LPopLock _ => Some MQueue
  | LCountLock _ => Some MTaskCount
  | _ => None
  end.

Lemma run_not_none s i : inv s → run i s ≠ None → can_run s i.
Proof.
  intros Hinv H. unfold can_run. simpl. destruct (run i s) as [[s'|e]|] eqn:Hr; [eauto| |done].
  by destruct (step_no_fault s (Run i) e).
Qed.

Lemma call_runs s i c :
  inv s → calls s !! i = Some c → c ≠ DJoin →
  (∀ m, call_waits c = Some m → owner s m = None) → can_run s i.
Proof.
  intros Hinv Hi Hc Hw. apply run_not_none; [done|]. unfold run. rewrite Hi.
  destruct c; simpl in *; unfold lock, move, exec; rewrite ?Hw by done;
    repeat case_match; done.
Qed.

Lemma loop_runs s :
  inv s → calls s !! 0 = None → loop s ≠ LDone →
  (∀ m, loop_waits (loop s) = Some m → owner s m = None) → can_run s 0.
Proof.
  intros Hinv Hi Hc Hw. apply run_not_none; [done|]. unfold run. rewrite Hi.
  case_decide; [|done]. unfold loop_step.
  destruct (loop s); simpl in *; unfold lock, move, exec; rewrite ?Hw by done;
    repeat case_match; done.
Qed.

(** A thread in a critical section can run, or waits for [taskCountMutex_]. *)
Lemma holder_cases s j m :
  inv s → owner s m = Some j →
  can_run s j ∨ (m = MQueue ∧ ∃ k, owner s MTaskCount = Some k).
Proof.
  intros Hinv Ho. pose proof (proj1 (lo_owner s (inv_locks s Hinv) m j) Ho) as Hh.
  destruct (owner s MTaskCount) as [k|] eqn:Hk.
  - destruct (decide (m = MQueue)) as [->|Hm]; [by eauto|]. left.
    unfold holds in Hh. destruct (calls s !! j) as [c|] eqn:Hj.
    + apply (call_runs s j c); [done|done|by intros ->; destruct m|].
      by destruct c, m.
    + case_decide; [subst|done]. apply loop_runs; [done|done|by intros E; rewrite E in Hh; destruct m|].
      by destruct (loop s), m.
  - left. unfold holds in Hh. destruct (calls s !! j) as [c|] eqn:Hj.
    + apply (call_runs s j c); [done|done|by intros ->; destruct m|].
      destruct c, m; try done; by intros m' [= <-].
    + case_decide; [subst|done]. apply loop_runs; [done|done|by intros E; rewrite E in Hh; destruct m|].
      destruct (loop s), m; try done; by intros m' [= <-].
Qed.

Lemma blocked_runs s m j :
  inv s → owner s m = Some j → ∃ k m', owner s m' = Some k ∧ can_run s k.
Proof.
  intros Hinv Ho. destruct (holder_cases s j m Hinv Ho) as [?|[-> [k Hk]]]; [by eauto|].
  exists k, MTaskCount. split; [done|].
  by destruct (holder_cases s k MTaskCount Hinv Hk) as [?|[? _]].
Qed.

(** C14: there is no deadlock: a thread in a method that cannot take its next
    step waits for the loop to end, in the destructor, or for a mutex, and then
    some owner of a mutex can take a step; and the loop, unless it is done or
    the body of a task is in a method, cannot be stuck in another way, either. *)
Theorem no_deadlock s i :
  reachable s →
  (is_Some (calls s !! i) ∧ calls s !! i ≠ Some DJoin ∨
   calls s !! i = None ∧ i = 0 ∧ loop s ≠ LDone) →
  can_run s i ∨ ∃ k m, owner s m = Some k ∧ can_run s k.
Proof.
  intros Hinv%inv_reachable [[[c Hi] Hc]|(Hi & -> & Hl)].
  - destruct (call_waits c) as [m|] eqn:Hw; [destruct (owner s m) as [j|] eqn:Ho|].
    + right. by eapply blocked_runs.
    + left. apply (call_runs s i c); [done|done|congruence|]. naive_solver.
    + left. apply (call_runs s i c); [done|done|congruence|]. naive_solver.
  - destruct (loop_waits (loop s)) as [m|] eqn:Hw; [destruct (owner s m) as [j|] eqn:Ho|].
    + right. by eapply blocked_runs.
    + left. apply loop_runs; [done..|]. naive_solver.
    + left. apply loop_runs; [done..|]. naive_solver.
Qed.

(** * Termination *)

Definition call_weight (c : call_pc) : nat :=
  match c with
  | ELock _ => 22 | ETest _ => 21 | EPush _ => 20 | EDiscard _ => 2
  | ECountLock _ => 3 | ECount _ => 2 | ERelease => 1
  | SLock => 2 | SSet => 1
  | RLock => 3 | RTest => 2 | RSet => 1
  | BLock => 2 | BRead => 1
  | PLock => 2 | PSum => 1
  | DLock => 4 | DStop => 3 | DDie => 2 | DJoin => 1
  end.

Definition loop_weight (l : loop_pc) : nat :=
  match l with
  | LCountLock _ => 10 | LCount _ => 9 | LDelete _ => 8
  | LLock | LWait => 7 | LWhile => 6 | LIf => 5 | LFront => 4
  | LDying _ => 3 | LExec _ => 2 | LPopLock _ => 1 | LPop _ => 0
  | LDone => 0
  end.

(** A bound on the steps the threads still take if nobody begins a new call
    and the loop does not go back to waiting. *)
Definition measure s : nat :=
  map_weight call_weight (calls s) + 16 * length (taskQueue_ (disp s)) + loop_weight (loop s).

(** The loop finds nothing to do and goes back to waiting. *)
Definition idles s : Prop :=
  loop s = LWhile ∧ taskQueue_ (disp s) = [] ∧ isDying_ (disp s) = false.

Lemma measure_run s i s' :
  step (Run i) s = Some (Ok s') → measure s' < measure s ∨ (idles s ∧ i = 0 ∧ measure s' = S (measure s)).
Proof.
  intros H. simpl in H. run_cases H; unfold measure; simpl.
  all: match goal with
  | H : calls _ !! _ = Some _ |- context [<[_ := ?c']> _] =>
    left; pose proof (map_weight_move call_weight _ _ _ c' H); simpl in *; rewrite ?length_app; simpl; lia
  | H : calls _ !! _ = Some _ |- context [delete _ _] =>
    left; rewrite (map_weight_delete call_weight _ _ _ H); simpl; lia
  | H : loop _ = _, H' : taskQueue_ _ = _ |- _ => left; rewrite H, H'; simpl; lia
  | H : loop _ = _ |- _ => try (left; rewrite H; simpl; lia)
  end.
  right. unfold idles, queue_empty in *.
  destruct (isDying_ (disp s)), (taskQueue_ (disp s)); try done. split_and!; try done.
  match goal with E : loop s = _ |- _ => rewrite E end. simpl. lia.
Qed.

Lemma dying_run s i s' :
  step (Run i) s = Some (Ok s') → isDying_ (disp s) = true → isDying_ (disp s') = true.
Proof. intros H Hd. simpl in H. run_cases H; simpl; done. Qed.

Lemma measure_dying s l s' :
  isDying_ (disp s) = true → steps (Run <$> l) s = Some (Ok s') →
  isDying_ (disp s') = true ∧ length l + measure s' ≤ measure s.
Proof.
  revert s. induction l as [|i l IH]; intros s Hd H; simpl in H.
  { injection H as <-. simpl. split; [done|lia]. }
  destruct (run i s) as [[s1|]|] eqn:Hs; [|done..].
  destruct (IH s1) as [Hd' IH']; [by eapply (dying_run s i)|done|].
  destruct (measure_run s i s1) as [?|[(_ & _ & ?) _]]; [done| |congruence].
  simpl. split; [done|lia].
Qed.

(** With the loop done, no calls and nothing queued, nothing is live. *)
Lemma nothing_live s :
  own_ok s → taskQueue_ (disp s) = [] → loop_popped (loop s) = None → calls s = ∅ →
  tasks s = ∅.
Proof.
  intros Ho Hq Hp Hc. apply map_empty. intros t. apply eq_None_not_Some.
  rewrite (ow_live s Ho), Hq, Hp, Hc. intros [Ht|[?|(i & c & Hi & _)]].
  - by apply not_elem_of_nil in Ht.
  - done.
  - by rewrite lookup_empty in Hi.
Qed.

(** Some thread can run, or none. *)
Lemma can_run_dec s : (∃ i, can_run s i) ∨ (∀ i, ¬ can_run s i).
Proof.
  pose (runnable i := match run i s with Some (Ok _) => true | _ => false end).
  assert (Hrun : ∀ i, can_run s i ↔ runnable i = true).
  { intros i. unfold runnable, can_run. simpl. destruct (run i s) as [[]|]; naive_solver. }
  destruct (decide (Exists (λ i, runnable i = true) (0 :: elements (dom (calls s))))) as [He|Hn].
  - left. apply Exists_exists in He as (i & _ & Hi). exists i. by apply Hrun.
  - right. intros i Hi. apply Hn, Exists_exists. exists i. split; [|by apply Hrun].
    destruct Hi as [s' Hi]. simpl in Hi. apply run_inv in Hi as [(c & Hc & _)|(_ & -> & _)].
    + right. apply elem_of_elements, elem_of_dom. by rewrite Hc.
    + left.
Qed.

Lemma run_until_stuck s :
  isDying_ (disp s) = true →
  ∃ l s', steps (Run <$> l) s = Some (Ok s') ∧ ∀ i, ¬ can_run s' i.
Proof.
  remember (measure s) as n eqn:Hn. revert s Hn.
  induction n as [n IH] using lt_wf_ind; intros s -> Hd.
  destruct (can_run_dec s) as [(i & s1 & H1)|Hno]; [|by exists [], s].
  destruct (measure_run s i s1 H1) as [Hlt|[(_ & _ & ?) _]]; [|congruence].
  destruct (IH _ Hlt s1 eq_refl) as (l & s' & Hl & Hst); [by eapply dying_run|].
  exists (i :: l), s'. split; [|done]. simpl in *. by rewrite H1.
Qed.

(** A state in which no thread can run is one in which all of them are done. *)
Lemma stuck_done s :
  inv s → (∀ i, ¬ can_run s i) → loop s = LDone ∧ calls s = ∅ ∧ tasks s = ∅.
Proof.
  intros Hinv Hst. pose proof Hinv as [Hl Hf Hq Ho _].
  assert (Hfree : ∀ m, owner s m = None).
  { intros m. destruct (owner s m) as [j|] eqn:Hj; [|done].
    destruct (blocked_runs s m j Hinv Hj) as (k & m' & _ & Hk). by destruct (Hst k). }
  assert (Hjoin : ∀ i c, calls s !! i = Some c → c = DJoin).
  { intros i c Hi. destruct (call_waits c) eqn:Hw; destruct c; try done; exfalso;
      apply (Hst i), (call_runs s i _ Hinv Hi); done. }
  assert (Hdone : loop s = LDone).
  { destruct (calls s !! 0) as [c|] eqn:H0.
    - pose proof (Hjoin 0 c H0) as ->. by apply (fl_self s Hf) in H0.
    - destruct (loop s) eqn:Hlp; try done; exfalso; apply (Hst 0), loop_runs; rewrite ?Hlp; done. }
  assert (Hempty : calls s = ∅).
  { apply map_empty. intros i. destruct (calls s !! i) as [c|] eqn:Hi; [|done].
    pose proof (Hjoin i c Hi) as ->. exfalso. apply (Hst i), run_not_none; [done|].
    unfold run. rewrite Hi. simpl. by rewrite Hdone. }
  split_and!; [done..|]. apply nothing_live; [done|by apply (fl_done s Hf)|by rewrite Hdone|done].
Qed.

(** C9: the destructor does not hang and leaks nothing: once the dispatcher is
    dying, and if task bodies return and no new calls begin, every schedule of
    the threads is finite, with a bound known in advance; when no thread can
    run the loop has returned, all calls have, [pthread_join] included, and no
    task is live any more. *)
Theorem destroy_terminates s :
  reachable s → isDying_ (disp s) = true →
  (∀ l s', steps (Run <$> l) s = Some (Ok s') → length l ≤ measure s ∧
    ((∀ i, ¬ can_run s' i) → loop s' = LDone ∧ calls s' = ∅ ∧ tasks s' = ∅)) ∧
  (∃ l s', steps (Run <$> l) s = Some (Ok s') ∧
    loop s' = LDone ∧ calls s' = ∅ ∧ tasks s' = ∅).
Proof.
  intros Hr Hd. split.
  - intros l s' H. split; [destruct (measure_dying s l s'); [done..|lia]|].
    apply stuck_done, inv_reachable. by eapply reachable_steps.
  - destruct (run_until_stuck s) as (l & s' & H & Hst); [done..|].
    exists l, s'. split; [done|]. apply stuck_done; [|done].
    apply inv_reachable. by eapply reachable_steps.
Qed.

Lemma quiet_run s i s' :
  calls s = ∅ → step (Run i) s = Some (Ok s') →
  i = 0 ∧ calls s' = ∅ ∧ accepted s' = accepted s ∧
  (isDying_ (disp s) = false → isDying_ (disp s') = false).
Proof.
  intros Hc H. simpl in H. run_cases H;
    try match goal with H : calls _ !! _ = Some _ |- _ => by rewrite Hc, lookup_empty in H end.
  all: by simpl.
Qed.

Lemma quiet_can_run s :
  inv s → calls s = ∅ → loop s ≠ LDone → can_run s 0.
Proof.
  intros Hinv Hc Hl. assert (H0 : calls s !! 0 = None) by (by rewrite Hc).
  apply loop_runs; [done..|]. intros m Hm. apply eq_None_not_Some. intros [j Hj].
  apply (lo_owner s (inv_locks s Hinv)) in Hj. unfold holds in Hj.
  rewrite Hc, lookup_empty in Hj. case_decide; [|done]. by destruct (loop s), m.
Qed.

(** C10: every task that is pushed runs, once and in order: if the dispatcher is
    not being destroyed and nobody calls it any more, the loop alone executes
    all the tasks accepted so far, empties the queue and deletes every task, in
    a number of steps that is known in advance, whatever the state the callers
    have left it in. *)
Theorem loop_drains s :
  reachable s → calls s = ∅ → isDying_ (disp s) = false →
  ∃ n s', n ≤ measure s ∧ steps (Run <$> replicate n 0) s = Some (Ok s') ∧
    executed s' = accepted s ∧ taskQueue_ (disp s') = [] ∧ tasks s' = ∅.
Proof.
  intros Hr. pose proof (inv_reachable s Hr) as Hinv. clear Hr.
  remember (measure s) as n eqn:Hn. revert s Hn Hinv.
  induction n as [n IH] using lt_wf_ind; intros s -> Hinv Hc Hd.
  pose proof Hinv as [_ Hf Hq Ho _].
  assert (loop s = LWhile ∧ taskQueue_ (disp s) = [] ∨
    ¬ (loop s = LWhile ∧ taskQueue_ (disp s) = [])) as [[Hl Hqu]|Hbusy].
  { destruct (loop s), (taskQueue_ (disp s)); naive_solver. }
  { exists 0, s. split_and!; [lia|done| |done|].
    - by rewrite (qu_executed s Hq Hd), (qu_accepted s Hq), Hl, Hqu.
    - apply nothing_live; [done|done|by rewrite Hl|done]. }
  destruct (quiet_can_run s) as [s1 H1]; [done..| |].
  { intros Hl. destruct (fl_done s Hf Hl). congruence. }
  destruct (quiet_run s 0 s1) as (_ & Hc1 & Ha1 & Hd1); [done..|].
  destruct (measure_run s 0 s1 H1) as [Hlt|[(? & ? & _) _]]; [|tauto].
  destruct (IH _ Hlt s1 eq_refl) as (n & s' & Hn & Hs & He & Hrest);
    [by eapply inv_step|done|by apply Hd1|].
  exists (S n), s'. split_and!; [lia| |congruence|tauto..]. simpl in *. by rewrite H1.
Qed.

(** * A call without interference *)

Lemma run_at s i c : calls s !! i = Some c → run i s = call_step i c s.
Proof. unfold run. by intros ->. Qed.

(** Run the steps of one thread whose mutexes are free. *)
Ltac solo Hfree Hst :=
  simpl; repeat (erewrite run_at by apply lookup_insert_eq; simpl; unfold lock, exec; simpl;
    rewrite ?Hfree, ?Hst; unfold delete_task, count_up, pbind, load_task; simpl;
    rewrite ?lookup_insert_eq; simpl).

(** C16: [enqueueTask] refines its sequential definition: when no thread is in a
    critical section and the calling thread alone runs until its call returns,
    members and live tasks are those that the sequential [enqueueTask] computes
    on the new task, and all mutexes are free again.  A stopped dispatcher
    discards the task. *)
Theorem enqueue_uninterrupted s i u :
  reachable s → (∀ m, owner s m = None) → may_call i (Enqueue (Some u)) s = true →
  ∃ n s', steps (Call i (Enqueue (Some u)) :: (Run <$> replicate n i)) s = Some (Ok s') ∧
    enqueueTask (Some (next s)) (<[next s := u]> (tasks s), disp s)
      = Ok (true, (tasks s', disp s')) ∧
    calls s' = calls s ∧ loop s' = loop s ∧ (∀ m, owner s' m = None) ∧
    accepted s' = accepted s ++ (if isStopped_ (disp s) then [] else [next s]).
Proof.
  intros _ Hfree Hm.
  assert (Hi : calls s !! i = None).
  { unfold may_call in Hm. repeat (apply andb_prop in Hm as [Hm _]).
    by apply bool_decide_eq_true in Hm. }
  rewrite (enqueueTask_eq _ _ _ u) by apply lookup_insert_eq.
  destruct (isStopped_ (disp s)) eqn:Hst; [exists 4|exists 6]; eexists;
    (split; [simpl; unfold call; rewrite Hm; solo Hfree Hst; reflexivity|]); simpl;
    rewrite ?insert_insert_eq, ?delete_insert_id, ?app_nil_r by done; split_and!; try done;
    try by rewrite delete_insert_id.
  all: intros []; simpl; repeat case_decide; done || apply Hfree.
Qed.

End props.

(** * Concrete runs *)

(** The state a schedule leads to. *)
Definition demo (l : list (action unit)) : sys unit :=
  match steps l init with Some (Ok s) => s | _ => init end.

Lemma demo_reachable l : reachable (demo l).
Proof.
  unfold demo. destruct (steps l init) as [[s|]|] eqn:H; try constructor.
  eapply reachable_steps; [|done]. constructor.
Qed.

(** The state after a step that is possible. *)
Definition after (a : action unit) (s : sys unit) : sys unit :=
  match step a s with Some (Ok s') => s' | _ => s end.

Lemma after_ok a s :
  match step a s with Some (Ok _) => true | _ => false end = true →
  step a s = Some (Ok (after a s)).
Proof. unfold after. by destruct (step a s) as [[]|]. Qed.

(** Two clients enqueue a task each, the loop starts the first, whose body
    begins to enqueue a third; thread 3 is about to answer [pendingTasks]. *)
Definition demo_calls : list (action unit) :=
  Call 1 (Enqueue (Some (new () 7))) :: (Run <$> replicate 6 1) ++
  Call 2 (Enqueue (Some (new () 8))) :: (Run <$> replicate 6 2).
Definition demo_run : list (action unit) :=
  demo_calls ++ (Run <$> replicate 5 0) ++
  Call 0 (Enqueue (Some (new () 7))) :: (Run <$> replicate 3 0) ++
  [Call 3 PendingTasks; Run 3].

(** Thread 5 destroys the dispatcher while the loop executes a task. *)
Definition demo_destroy : list (action unit) :=
  demo_calls ++ (Run <$> replicate 5 0) ++ Call 5 Destroy :: (Run <$> replicate 3 5).

Lemma event_loop_safe_witness :
  loop (demo demo_run) = LExec 1%positive ∧ step (Run 0) (demo demo_run) ≠ Some (Fault UseAfterFree).
Proof. split; [by vm_compute|apply event_loop_safe, demo_reachable]. Defined.

Lemma guarded_by_witness :
  let s := demo (demo_calls ++ (Run <$> replicate 3 0)) in
  loop s = LFront ∧ isExecuting_ (disp (after (Run 0) s)) = true ∧ holds s 0 MQueue = true.
Proof.
  split; [by vm_compute|]. split; [by vm_compute|].
  eapply guarded_by; [apply demo_reachable|apply after_ok; by vm_compute|].
  right. vm_compute. discriminate.
Defined.

Lemma executes_fifo_witness :
  let s := demo demo_run in
  (accepted s = [1; 2; 3] ∧ executed s = [1])%positive ∧
  (isDying_ (disp s) = false → executed s = retired s ++ loop_started (loop s)).
Proof. split; [by vm_compute|apply (executes_fifo (demo demo_run)), demo_reachable]. Defined.

Lemma task_owner_witness :
  let s := demo (demo_calls ++ [Call 4 (Enqueue (Some (new () 7)))]) in
  is_Some (tasks s !! 3%positive) ∧ ¬ loop_popped (loop s) = Some 3%positive.
Proof.
  set (s := demo _). assert (Hs : is_Some (tasks s !! 3%positive)) by (vm_compute; eauto).
  split; [done|]. pose proof (demo_reachable _ : reachable s) as Hr.
  destruct (task_owner s 3%positive Hr Hs) as [(_ & H & _)|[(H & _ & Hc)|(_ & H & _)]];
    [exact H| |exact H].
  by vm_compute.
Defined.

Lemma pendingTasks_answer_witness :
  let s := demo demo_run in
  length (taskQueue_ (disp s)) = 3 ∧ in_flight s = 1%Z ∧
  ∃ n, answers (after (Run 3) s) = (3, n) :: answers s ∧
    n = (Z.of_nat (length (taskQueue_ (disp s))) - in_flight s)%Z.
Proof.
  split; [by vm_compute|]. split; [by vm_compute|].
  destruct (pendingTasks_answer (demo demo_run) 3 (after (Run 3) (demo demo_run)))
    as (n & H1 & H2 & _); [apply demo_reachable|by vm_compute|apply after_ok; by vm_compute|].
  exists n. split; [exact H1|exact H2].
Defined.

Lemma no_deadlock_witness :
  calls (demo demo_run) !! 0 = Some (ECountLock 3%positive) ∧
  (can_run (demo demo_run) 0 ∨ ∃ k m, owner (demo demo_run) m = Some k ∧ can_run (demo demo_run) k).
Proof.
  split; [by vm_compute|]. apply no_deadlock; [apply demo_reachable|].
  left. split; [vm_compute; eauto|by vm_compute].
Defined.

Lemma destroy_terminates_witness :
  ∃ l s', steps (Run <$> l) (demo demo_destroy) = Some (Ok s') ∧
    loop s' = LDone ∧ calls s' = ∅ ∧ tasks s' = ∅.
Proof. apply destroy_terminates; [apply demo_reachable|by vm_compute]. Defined.

Lemma loop_drains_witness :
  ∃ n s', n ≤ measure (demo demo_calls) ∧
    steps (Run <$> replicate n 0) (demo demo_calls) = Some (Ok s') ∧
    executed s' = accepted (demo demo_calls) ∧ taskQueue_ (disp s') = [] ∧ tasks s' = ∅.
Proof. apply loop_drains; [apply demo_reachable|by vm_compute..]. Defined.

Lemma enqueue_uninterrupted_witness :
  ∃ n s', steps (Call 4 (Enqueue (Some (new () 9))) :: (Run <$> replicate n 4)) (demo demo_calls)
      = Some (Ok s') ∧ accepted s' = [1; 2; 3]%positive.
Proof.
  destruct (enqueue_uninterrupted (demo demo_calls) 4 (new () 9)) as (n & s' & H & _ & _ & _ & _ & Ha);
    [apply demo_reachable|by intros []|by vm_compute|].
  exists n, s'. split; [exact H|]. by rewrite Ha.
Defined.

End EventLoopProps.
