(* ===== verification/MPEventDispatcher.v ===== *)
(** lib/mp_event_dispatcher.cc: several event dispatchers, one thread each, and
    the choice of one for every task group, by hashing (the build the Makefile
    makes) or in turn.  The proofs use an event dispatcher only through its
    interface. *)
From S2P Require Import Prelude EventDispatcher.

Module MPEventDispatcher.
Import UnitTask EventDispatcher.

(** Whether [USE_HASHING] is defined, and [std::tr1::hash<int>], of which the
    standard only says that it is a function to [size_t]. *)
Class Build := {
  use_hashing : bool;
  hash_int : Z → Z;
  hash_int_size x : is_size (hash_int x);
}.

(** The conversion of a group, an [unsigned long], to [int]. *)
Definition to_int (z : Z) : Z := ((z + 2 ^ 31) mod 2 ^ 32 - 2 ^ 31)%Z.

(** [taskIDTable_] and [roundRobinToken_] are members only of the build without
    hashing; the build with hashing leaves them alone. *)
Record MPEventDispatcher := mkMP {
  dispatchers_ : list EventDispatcher;
  concurrentTaskCount_ : Z;
  taskIDTable_ : gmap Z Z;
  roundRobinToken_ : Z;
}.

Section mp.
Context `{HB : Build} {T : Type}.
Implicit Types (h : heap T) (d : EventDispatcher) (p : MPEventDispatcher) (t : loc).

Abbreviation M A := (prog (heap T * MPEventDispatcher) A).

Definition new_mp (concurrentTaskCount : nat) : MPEventDispatcher :=
  mkMP (replicate concurrentTaskCount new_dispatcher) (Z.of_nat concurrentTaskCount) ∅ 0.

Definition set_dispatchers (l : list EventDispatcher) p : MPEventDispatcher :=
  mkMP l (concurrentTaskCount_ p) (taskIDTable_ p) (roundRobinToken_ p).

(** [dispatchers_[k]->m()]: undefined out of range. *)
Definition call_nth {A} (k : Z) (m : prog (heap T * EventDispatcher) A) : M A := λ w,
  match dispatchers_ w.2 !! Z.to_nat k with
  | Some d =>
    match m (w.1, d) with
    | Ok (a, (h', d')) =>
      Ok (a, (h', set_dispatchers (<[Z.to_nat k := d']> (dispatchers_ w.2)) w.2))
    | Fault e => Fault e
    end
  | None => Fault OutOfRange
  end.

(** [hasher_(id) % concurrentTaskCount_]. *)
Definition hashed (i : Z) : M Z :=
  let! p := get in
  if decide (concurrentTaskCount_ p = 0)%Z then pfail DivByZero
  else pret (hash_int (to_int i) mod concurrentTaskCount_ p)%Z.

(** Lines 40 to 52: the dispatcher the group has, or the next one in turn. *)
Definition in_turn (i : Z) : M Z :=
  let! p := get in
  match taskIDTable_ p !! i with
  | Some k => pret k
  | None =>
    let k := roundRobinToken_ p in
    let token := wrap_size (k + 1) in
    modify (λ p, mkMP (dispatchers_ p) (concurrentTaskCount_ p) (<[i := k]> (taskIDTable_ p))
      (if decide (concurrentTaskCount_ p ≤ token)%Z then 0%Z else token)) ;;;
    pret k
  end.

Definition destination (i : Z) : M Z := if use_hashing then hashed i else in_turn i.

(** The answer of the inner call is dropped. *)
Definition enqueueTask (newTask : option loc) : M bool :=
  let! t := pnonnull newTask in
  let! u := load_task t in
  let! taskDestination := destination (id u) in
  let! _ := call_nth taskDestination (edi_enqueueTask (Some t)) in
  pret true.

Definition stop : M unit := pret tt.
Definition resume : M unit := pret tt.

(** The loop of [busy], from the [k]-th dispatcher on. *)
Fixpoint busy_loop (n k : nat) : M bool :=
  match n with
  | O => pret false
  | S n =>
    let! b := call_nth (Z.of_nat k) busy in
    if (b : bool) then pret true else busy_loop n (S k)
  end.
Definition busy : M bool := let! p := get in busy_loop (length (dispatchers_ p)) 0.

Definition getSize (i : Z) : M Z :=
  if use_hashing then
    let! destination := hashed i in
    call_nth destination pendingTasks
  else pret 0%Z.

(** * The invariant *)

(** The dispatcher of a group, once it has one. *)
Definition home p (g : Z) : option nat :=
  if use_hashing then Some (Z.to_nat (hash_int (to_int g) mod concurrentTaskCount_ p))
  else Z.to_nat <$> taskIDTable_ p !! g.

(** Every dispatcher is well formed, no task has two owners, and the tasks of a
    group are all in its home. *)
Record ok h p : Prop := {
  mp_length : Z.of_nat (length (dispatchers_ p)) = concurrentTaskCount_ p;
  mp_some : (0 < concurrentTaskCount_ p < size_t_mod)%Z;
  mp_each k d : dispatchers_ p !! k = Some d → edi_ok h d;
  mp_disjoint j k d d' : dispatchers_ p !! j = Some d → dispatchers_ p !! k = Some d' →
    j ≠ k → edi_owned (T := T) d ## edi_owned (T := T) d';
  mp_home k d g : dispatchers_ p !! k = Some d → edi_group h d g ≠ [] → home p g = Some k;
  mp_token : (0 ≤ roundRobinToken_ p < concurrentTaskCount_ p)%Z;
  mp_table g k : taskIDTable_ p !! g = Some k → (0 ≤ k < concurrentTaskCount_ p)%Z;
}.

(** What the multi-dispatcher owns, and the pending tasks of a group: the
    concatenation over the dispatchers, of which only the home has any. *)
Definition owned p : gset loc := ⋃ (edi_owned (T := T) <$> dispatchers_ p).
Definition group h p (g : Z) : list loc := dispatchers_ p ≫= λ d, edi_group h d g.

(** ** Lists of dispatchers *)

Lemma bind_at {A B} (f : A → list B) (l : list A) k a :
  l !! k = Some a → (∀ j b, l !! j = Some b → j ≠ k → f b = []) → l ≫= f = f a.
Proof.
  revert k. induction l as [|b l IH]; intros k Hk Hj; [done|]. csimpl.
  destruct k as [|k]; simplify_eq/=.
  - assert (l ≫= f = []) as ->; [|by rewrite app_nil_r].
    assert (Hl : ∀ b, b ∈ l → f b = []).
    { intros b [j Hb]%list_elem_of_lookup. by apply (Hj (S j) b). }
    clear -Hl. induction l as [|b l IH]; [done|]. csimpl. rewrite IH by set_solver.
    by rewrite (Hl b) by set_solver.
  - rewrite (Hj 0 b) by done. simpl. apply (IH k); [done|].
    intros j b' Hb Hne. apply (Hj (S j) b'); [done|congruence].
Qed.

Lemma bind_insert_same {A B} (f : A → list B) (l : list A) k a a' :
  l !! k = Some a → f a' = f a → <[k := a']> l ≫= f = l ≫= f.
Proof.
  revert k. induction l as [|b l IH]; intros [|k] Hk Hf; simplify_eq/=; csimpl.
  - by rewrite Hf.
  - by rewrite (IH k).
Qed.

Lemma lookup_insert_cases {A} (l : list A) k a j b :
  <[k := a]> l !! j = Some b → (j = k ∧ b = a) ∨ (j ≠ k ∧ l !! j = Some b).
Proof. intros H%list_lookup_insert_Some. naive_solver. Qed.

Lemma elem_of_owned p t :
  t ∈ owned p ↔ ∃ k d, dispatchers_ p !! k = Some d ∧ t ∈ edi_owned (T := T) d.
Proof.
  unfold owned. rewrite elem_of_union_list. split.
  - intros (X & (d & -> & Hd)%list_elem_of_fmap & Ht).
    apply list_elem_of_lookup in Hd as [k Hk]. eauto.
  - intros (k & d & Hk & Ht). exists (edi_owned (T := T) d). split; [|done].
    apply list_elem_of_fmap. exists d. split; [done|]. by eapply list_elem_of_lookup_2.
Qed.

(** ** Groups and homes *)

Lemma group_home h p g k d :
  ok h p → home p g = Some k → dispatchers_ p !! k = Some d → group h p g = edi_group h d g.
Proof.
  intros Hok Hh Hk. apply (bind_at (λ d, edi_group h d g) _ k); [done|]. intros j d' Hj Hne.
  destruct (edi_group h d' g) eqn:Hg; [done|]. exfalso. apply Hne.
  assert (Hn : edi_group h d' g ≠ []) by (by rewrite Hg).
  pose proof (mp_home h p Hok j d' g Hj Hn). congruence.
Qed.

Lemma dispatcher_at h p (k : Z) :
  ok h p → (0 ≤ k < concurrentTaskCount_ p)%Z → ∃ d, dispatchers_ p !! Z.to_nat k = Some d.
Proof.
  intros Hok Hk. apply lookup_lt_is_Some. pose proof (mp_length h p Hok). lia.
Qed.

(** What the choice of a dispatcher needs. *)
Record routed p : Prop := {
  rt_some : (0 < concurrentTaskCount_ p < size_t_mod)%Z;
  rt_token : (0 ≤ roundRobinToken_ p < concurrentTaskCount_ p)%Z;
  rt_table g k : taskIDTable_ p !! g = Some k → (0 ≤ k < concurrentTaskCount_ p)%Z;
}.

Lemma ok_routed h p : ok h p → routed p.
Proof. by intros [_ ? _ _ _ ? ?]. Qed.

(** The choice of a dispatcher: it exists, it becomes the home of the group,
    and the homes of all groups stay. *)
Lemma destination_routed h p i :
  routed p →
  ∃ k p', destination i (h, p) = Ok (k, (h, p')) ∧ routed p' ∧ dispatchers_ p' = dispatchers_ p ∧
    concurrentTaskCount_ p' = concurrentTaskCount_ p ∧ (0 ≤ k < concurrentTaskCount_ p)%Z ∧
    home p' i = Some (Z.to_nat k) ∧ (∀ g j, home p g = Some j → home p' g = Some j).
Proof.
  intros [Hsome Htok Htab]. unfold destination, home. destruct use_hashing eqn:Hb.
  - eexists _, p. unfold hashed. prun. simpl. rewrite decide_False by lia.
    split; [reflexivity|]. split_and!; try done; try by apply Z.mod_pos_bound; lia.
  - unfold in_turn. prun. simpl. destruct (taskIDTable_ p !! i) as [k|] eqn:Hi.
    + exists k, p. split; [done|]. split_and!; [done..|by apply (Htab i)|by apply (Htab i)| |done].
      by rewrite Hi.
    + prun. eexists _, _. split; [reflexivity|]. simpl. split_and!; try done; try lia.
      * split; simpl; try done.
        -- case_decide; [lia|]. rewrite wrap_size_id in * by (unfold is_size; lia). lia.
        -- intros g k. rewrite lookup_insert_Some. naive_solver.
      * by rewrite lookup_insert_eq.
      * intros g j Hg. rewrite lookup_insert_ne; [done|]. intros <-. by rewrite Hi in Hg.
Qed.

Lemma destination_ok h p i :
  ok h p →
  ∃ k p', destination i (h, p) = Ok (k, (h, p')) ∧ ok h p' ∧
    dispatchers_ p' = dispatchers_ p ∧ (0 ≤ k < concurrentTaskCount_ p)%Z ∧
    home p' i = Some (Z.to_nat k) ∧ (∀ g j, home p g = Some j → home p' g = Some j).
Proof.
  intros Hok.
  destruct (destination_routed h p i) as (k & p' & H & [H1 H2 H3] & Hd & Hc & Hk & Hi & Hh); [by eapply ok_routed|].
  exists k, p'. split; [done|]. split; [|done]. destruct Hok as [Hlen Hsome Heach Hdis Hhome _ _].
  split; rewrite ?Hd; try done; [by rewrite Hc|]. intros j d g Hj Hg. by eapply Hh, Hhome.
Qed.

Lemma routed_home p g k : routed p → home p g = Some k → k < Z.to_nat (concurrentTaskCount_ p).
Proof.
  intros [Hsome _ Htab]. unfold home. destruct use_hashing.
  - intros [= <-]. pose proof (Z.mod_pos_bound (hash_int (to_int g)) (concurrentTaskCount_ p)). lia.
  - intros (z & Hz & ->)%fmap_Some. pose proof (Htab g z Hz). lia.
Qed.

Lemma bind_ext_in {A B} (f g : A → list B) (l : list A) :
  (∀ a, a ∈ l → f a = g a) → l ≫= f = l ≫= g.
Proof.
  induction l as [|a l IH]; intros Hfg; [done|]. csimpl.
  by rewrite IH, Hfg by set_solver.
Qed.

(** ** Enqueueing *)

Lemma call_nth_at {A} (k : Z) (m : prog (heap T * EventDispatcher) A) h p d a h' d' :
  dispatchers_ p !! Z.to_nat k = Some d → m (h, d) = Ok (a, (h', d')) →
  call_nth k m (h, p) =
    Ok (a, (h', set_dispatchers (<[Z.to_nat k := d']> (dispatchers_ p)) p)).
Proof. unfold call_nth. simpl. by intros -> ->. Qed.

(** The dispatcher at the home of the new task's group has enqueued it; the
    others see at most that a task they do not own is gone. *)
Lemma ok_enqueued h p k d t g h' d' :
  ok h p → dispatchers_ p !! k = Some d → t ∉ owned p → home p g = Some k →
  edi_ok h' d' → enqueued h d t g h' d' →
  ok h' (set_dispatchers (<[k := d']> (dispatchers_ p)) p).
Proof.
  intros [Hlen Hsome Heach Hdis Hhome Htok Htab] Hk Ht Hg Hok' Hen.
  assert (Hother : ∀ j dj, dispatchers_ p !! j = Some dj → t ∉ edi_owned (T := T) dj).
  { intros j dj Hj Hin. apply Ht, elem_of_owned. eauto. }
  assert (Hown : edi_owned (T := T) d' ⊆ {[t]} ∪ edi_owned (T := T) d).
  { destruct Hen as [d' -> _ _|d' -> _]; set_solver. }
  assert (Hframe : ∀ j dj, dispatchers_ p !! j = Some dj → edi_ok h dj →
    edi_ok h' dj ∧ ∀ g, edi_group h' dj g = edi_group h dj g).
  { intros j dj Hj Hdj. destruct Hen; [done|]. specialize (Hother j dj Hj).
    split; [by apply edi_ok_delete|]. intros g'. by apply edi_group_delete. }
  split; cbn [dispatchers_ set_dispatchers concurrentTaskCount_]; try done.
  - by rewrite length_insert.
  - intros j dj [[-> ->]|[Hne Hj]]%lookup_insert_cases; [done|]. eapply Hframe; eauto.
  - intros i j di dj [[-> ->]|[Hi' Hi]]%lookup_insert_cases [[-> ->]|[Hj' Hj]]%lookup_insert_cases Hne;
      try done.
    + specialize (Hdis _ _ _ _ Hk Hj Hne). specialize (Hother _ _ Hj). set_solver.
    + specialize (Hdis _ _ _ _ Hi Hk Hne). specialize (Hother _ _ Hi). set_solver.
    + by eapply Hdis.
  - intros j dj g' [[-> ->]|[Hne Hj]]%lookup_insert_cases Hg'.
    + destruct (decide (g' = g)) as [->|Hgg]; [done|]. apply (Hhome k d g' Hk).
      destruct Hen as [d' _ _ Hgr|d' Ho Hgr]; [by rewrite <-Hgr|].
      rewrite edi_group_delete, Hgr in Hg'; [done|]. rewrite Ho. by eauto.
    + apply (Hhome j dj g' Hj). destruct (Hframe j dj Hj) as [_ Hf]; [by eauto|].
      by rewrite <-Hf.
Qed.

(** [enqueueTask] on a live task is one call on the home of its group. *)
Lemma enqueueTask_mp h p t u :
  ok h p → h !! t = Some u → t ∉ owned p →
  (Z.of_nat (size (owned p)) + 1 < size_t_mod)%Z →
  ∃ k d h' d' p0,
    home p0 (id u) = Some k ∧ (∀ g j, home p g = Some j → home p0 g = Some j) ∧
    dispatchers_ p0 = dispatchers_ p ∧ dispatchers_ p !! k = Some d ∧ ok h p0 ∧
    edi_enqueueTask (Some t) (h, d) = Ok (true, (h', d')) ∧
    enqueued h d t (id u) h' d' ∧
    enqueueTask (Some t) (h, p) =
      Ok (true, (h', set_dispatchers (<[k := d']> (dispatchers_ p)) p0)) ∧
    ok h' (set_dispatchers (<[k := d']> (dispatchers_ p)) p0).
Proof.
  intros Hok Hu Ht Hb.
  destruct (destination_ok h p (id u) Hok) as (k & p0 & Hdest & Hok0 & Hd0 & Hk & Hh & Hhs).
  destruct (dispatcher_at h p k Hok Hk) as [d Hd].
  assert (Htd : t ∉ edi_owned (T := T) d).
  { intros Hin. apply Ht, elem_of_owned. eauto. }
  destruct (edi_enqueue_spec h d t u) as (h' & d' & Hrun & Hok' & Hen).
  { by eapply (mp_each h p Hok). }
  { done. } { done. }
  { assert (edi_owned (T := T) d ⊆ owned p) as Hsub%subseteq_size; [|lia].
    intros t' Ht'. apply elem_of_owned. eauto. }
  exists (Z.to_nat k), d, h', d', p0. rewrite <-Hd0 in Hd.
  split_and!; try done.
  - by rewrite <-Hd0.
  - unfold enqueueTask. rewrite (pbind_ok _ _ _ t (h, p)) by done.
    rewrite (pbind_ok _ _ _ _ _ (load_task_live h p t u Hu)).
    rewrite (pbind_ok _ _ _ _ _ Hdest). rewrite <-Hd0.
    by rewrite (pbind_ok _ _ _ _ _ (call_nth_at k _ h p0 d true h' d' Hd Hrun)).
  - rewrite <-Hd0. eapply ok_enqueued; [done|done| |done|done|done].
    unfold owned. rewrite Hd0. apply Ht.
Qed.

Lemma group_insert h p k d d' g :
  dispatchers_ p !! k = Some d → edi_group h d' g = edi_group h d g →
  group h (set_dispatchers (<[k := d']> (dispatchers_ p)) p) g = group h p g.
Proof. intros Hk Hg. by apply (bind_insert_same (λ d, edi_group h d g) _ k d). Qed.

#[global] Instance mp_event_dispatcher : EventDispatcherInterface T MPEventDispatcher := {
  edi_enqueueTask := enqueueTask;
  edi_stop := stop;
  edi_resume := resume;
  edi_getSize := getSize;
  edi_ok := ok;
  edi_owned := owned;
  edi_group := group;
}.

Lemma owned_same p k d d' :
  dispatchers_ p !! k = Some d → edi_owned (T := T) d' = edi_owned (T := T) d →
  owned (set_dispatchers (<[k := d']> (dispatchers_ p)) p) = owned p.
Proof.
  intros Hk Ho. unfold owned. cbn [dispatchers_ set_dispatchers]. f_equal.
  rewrite list_fmap_insert. apply list_insert_id. by rewrite list_lookup_fmap, Hk, Ho.
Qed.

Lemma owned_insert p k d d' t :
  dispatchers_ p !! k = Some d → edi_owned (T := T) d' = {[t]} ∪ edi_owned (T := T) d →
  owned (set_dispatchers (<[k := d']> (dispatchers_ p)) p) = {[t]} ∪ owned p.
Proof.
  intros Hk Ho. apply set_eq. intros x. rewrite elem_of_union, !elem_of_owned.
  cbn [dispatchers_ set_dispatchers]. split.
  - intros (j & dj & [[-> ->]|[Hne Hj]]%lookup_insert_cases & Hx); [|by eauto].
    rewrite Ho in Hx. apply elem_of_union in Hx as [?|?]; eauto.
  - assert (Hlt : k < length (dispatchers_ p)) by (by eapply lookup_lt_Some).
    intros [Hx|(j & dj & Hj & Hx)].
    + exists k, d'. rewrite list_lookup_insert_eq by done. set_solver.
    + destruct (decide (j = k)) as [->|Hne].
      * exists k, d'. rewrite list_lookup_insert_eq by done. simplify_eq. set_solver.
      * exists j, dj. by rewrite list_lookup_insert_ne.
Qed.

#[global] Instance mp_event_dispatcher_laws : EventDispatcherLaws T MPEventDispatcher.
Proof.
  split; cbn [edi_ok edi_owned edi_group edi_enqueueTask mp_event_dispatcher].
  - intros h p t u Hok Hu Ht Hb.
    destruct (enqueueTask_mp h p t u) as (k & d & h' & d' & p0 & Hh & Hhs & Hd0 & Hk & Hok0 & _ & Hen & Hrun & Hok');
      [done..|].
    exists h', (set_dispatchers (<[k := d']> (dispatchers_ p)) p0). split_and!; [done..|].
    assert (Hgd : ∀ g, group h p0 g = group h p g) by (intros; unfold group; by rewrite Hd0).
    assert (Hod : owned p0 = owned p) by (unfold owned; by rewrite Hd0).
    rewrite <-Hd0 in Hk |- *. destruct Hen as [d' Ho Hg Hgs|d' Ho Hgs].
    + apply enqueued_taken; cbn [edi_owned edi_group mp_event_dispatcher].
      * rewrite <-Hod. by eapply owned_insert.
      * erewrite group_home; [| |exact Hh|apply list_lookup_insert_eq; by eapply lookup_lt_Some];
          [|by rewrite Hd0 in *].
        rewrite Hg, <-Hgd. f_equal. symmetry. by eapply group_home.
      * intros g' Hne. rewrite <-Hgd. eapply group_insert; eauto.
    + apply enqueued_discarded; cbn [edi_owned edi_group mp_event_dispatcher].
      * rewrite <-Hod. by eapply owned_same.
      * intros g'. rewrite <-Hgd. eapply group_insert; eauto.
  - intros h p t Hok Ht.
    assert (Hin : ∀ k d, dispatchers_ p !! k = Some d → t ∉ edi_owned (T := T) d).
    { intros k d Hk Hx. apply Ht, elem_of_owned. eauto. }
    destruct Hok as [Hlen Hsome Heach Hdis Hhome Htok Htab]. split; try done.
    + intros k d Hk. apply edi_ok_delete; eauto.
    + intros k d g Hk. rewrite edi_group_delete by eauto. by apply Hhome.
  - intros h p t g Ht. unfold group.
    assert (Hin : ∀ d, d ∈ dispatchers_ p → t ∉ edi_owned (T := T) d).
    { intros d [k Hk]%list_elem_of_lookup Hx. apply Ht, elem_of_owned. eauto. }
    apply bind_ext_in. intros d Hd. apply edi_group_delete. by apply Hin.
Qed.

(** * Properties *)

(** Nothing in a multi-dispatcher ever stops its dispatchers. *)
Definition running p : Prop := ∀ d, d ∈ dispatchers_ p → isStopped_ d = false.

(** Enqueue tasks one after the other. *)
Fixpoint enqueue_all (ts : list loc) : M unit :=
  match ts with
  | [] => pret tt
  | t :: ts => let! _ := enqueueTask (Some t) in enqueue_all ts
  end.

Lemma ok_new_mp h n : 0 < n → (Z.of_nat n < size_t_mod)%Z → ok h (new_mp n).
Proof.
  intros Hn Hb.
  assert (Hd : ∀ k d, dispatchers_ (new_mp n) !! k = Some d → d = new_dispatcher).
  { intros k d. simpl. rewrite lookup_replicate. tauto. }
  split; try done; simpl.
  - by rewrite length_replicate.
  - lia.
  - intros k d ->%Hd. apply ok_new.
  - intros j k d d' ->%Hd ->%Hd _. set_solver.
  - intros k d g ->%Hd. done.
  - lia.
Qed.

Lemma running_new n : running (new_mp n).
Proof. intros d. simpl. intros Hd%elem_of_replicate. by destruct Hd as [-> _]. Qed.

(** One call when nothing is stopped. *)
Lemma enqueueTask_running h p t u :
  ok h p → running p → h !! t = Some u → t ∉ owned p →
  (Z.of_nat (size (owned p)) + 1 < size_t_mod)%Z →
  ∃ p', enqueueTask (Some t) (h, p) = Ok (true, (h, p')) ∧ ok h p' ∧ running p' ∧
    owned p' = {[t]} ∪ owned p ∧ (∀ g j, home p g = Some j → home p' g = Some j) ∧
    concurrentTaskCount_ p' = concurrentTaskCount_ p ∧
    (∀ g, group h p' g = group h p g ++ in_group h g [t]).
Proof.
  intros Hok Hrun Hu Ht Hb.
  destruct (enqueueTask_mp h p t u) as (k & d & h' & d' & p0 & Hh & Hhs & Hd0 & Hk & Hok0 & He & Hen & Hr & Hok');
    [done..|].
  simpl in He. rewrite (EventDispatcher.enqueueTask_eq h d t u Hu) in He.
  rewrite (Hrun d) in He by (by eapply list_elem_of_lookup_2). injection He as <- <-.
  assert (Hlt : k < length (dispatchers_ p)) by (by eapply lookup_lt_Some).
  eexists. split; [exact Hr|]. split_and!; [done| | |done| |].
  - intros dj [j Hj]%list_elem_of_lookup. cbn [dispatchers_ set_dispatchers] in Hj.
    apply lookup_insert_cases in Hj as [[_ ->]|[_ Hj]]; simpl.
    + apply Hrun. by eapply list_elem_of_lookup_2.
    + apply Hrun. by eapply list_elem_of_lookup_2.
  - rewrite <-Hd0. erewrite owned_insert; [|by rewrite Hd0|].
    + f_equal. unfold owned. by rewrite Hd0.
    + simpl. rewrite list_to_set_app_L. simpl. set_solver.
  - cbn [concurrentTaskCount_ set_dispatchers].
    rewrite <-(mp_length h p0 Hok0), Hd0. apply (mp_length h p Hok).
  - intros g. rewrite <-Hd0. assert (Hgd : group h p0 g = group h p g) by (unfold group; by rewrite Hd0).
    rewrite (in_group_cons h g t u []), app_nil_r by done.
    destruct (decide (g = id u)) as [->|Hne].
    + rewrite <-Hgd. rewrite <-Hd0 in Hk, Hlt.
      rewrite (group_home h _ (id u) k (accept u t d)); [|by rewrite Hd0 in *|exact Hh|].
      2: { cbn [dispatchers_ set_dispatchers]. by apply list_lookup_insert_eq. }
      rewrite (group_home h p0 (id u) k d) by done. simpl.
      rewrite in_group_app, (in_group_cons h _ t u []), decide_True by done. done.
    + rewrite <-Hgd. rewrite <-Hd0 in Hk. rewrite (group_insert h p0 k d); [by rewrite app_nil_r|done|].
      simpl. rewrite in_group_app, (in_group_cons h _ t u []), decide_False by done. apply app_nil_r.
Qed.

Lemma in_group_cons_app h g t ts : in_group h g (t :: ts) = in_group h g [t] ++ in_group h g ts.
Proof. apply (in_group_app h g [t] ts). Qed.

Lemma enqueue_all_ok h p ts :
  ok h p → running p → NoDup ts → (∀ t, t ∈ ts → is_Some (h !! t) ∧ t ∉ owned p) →
  (Z.of_nat (size (owned p) + length ts) < size_t_mod)%Z →
  ∃ p', enqueue_all ts (h, p) = Ok (tt, (h, p')) ∧ ok h p' ∧ running p' ∧
    (∀ g j, home p g = Some j → home p' g = Some j) ∧
    concurrentTaskCount_ p' = concurrentTaskCount_ p ∧
    (∀ g, group h p' g = group h p g ++ in_group h g ts).
Proof.
  revert p. induction ts as [|t ts IH]; intros p Hok Hrun Hnd Hts Hb.
  { exists p. split_and!; try done. intros g. by rewrite app_nil_r. }
  apply NoDup_cons in Hnd as [Hnt Hnd].
  destruct (Hts t) as [[u Hu] Ht]; [by left|]. simpl in Hb.
  destruct (enqueueTask_running h p t u) as (p1 & H1 & Hok1 & Hrun1 & Ho1 & Hh1 & Hc1 & Hg1);
    [done..|lia|].
  destruct (IH p1) as (p' & H' & Hok' & Hrun' & Hh' & Hc' & Hg'); [done..| | |].
  { intros t' Ht'. destruct (Hts t') as [? ?]; [by right|]. split; [done|].
    rewrite Ho1. set_solver. }
  { rewrite Ho1, size_union, size_singleton by set_solver. lia. }
  exists p'. split.
  { simpl. by rewrite (pbind_ok _ _ _ _ _ H1). }
  split_and!; [done|done|by eauto|congruence|].
  intros g. by rewrite Hg', Hg1, (in_group_cons_app h g t ts), (assoc_L (++)).
Qed.

Lemma home_lt h p g k : ok h p → home p g = Some k → k < length (dispatchers_ p).
Proof.
  intros Hok Hk. pose proof (mp_length h p Hok).
  pose proof (routed_home p g k (ok_routed h p Hok) Hk). lia.
Qed.

(** All pending tasks of a group are in one of the dispatchers. *)
Lemma group_at h p g :
  ok h p → ∃ k d, dispatchers_ p !! k = Some d ∧ in_group h g (taskQueue_ d) = group h p g ∧
    ∀ j d', dispatchers_ p !! j = Some d' → j ≠ k → in_group h g (taskQueue_ d') = [].
Proof.
  intros Hok.
  assert (Hnil : ∀ j d', dispatchers_ p !! j = Some d' → home p g ≠ Some j →
    in_group h g (taskQueue_ d') = []).
  { intros j d' Hj Hne. destruct (in_group h g (taskQueue_ d')) eqn:E; [done|].
    destruct Hne. apply (mp_home h p Hok j d' g Hj). simpl. by rewrite E. }
  assert (∃ k, k < length (dispatchers_ p) ∧ ∀ j, j ≠ k → home p g ≠ Some j) as (k & Hlt & Hne).
  { destruct (home p g) as [k|] eqn:Hk.
    - exists k. split; [by eapply home_lt|congruence].
    - exists 0. split; [|done]. pose proof (mp_length h p Hok). pose proof (mp_some h p Hok). lia. }
  destruct (lookup_lt_is_Some_2 _ _ Hlt) as [d Hd].
  exists k, d. split_and!; [done| |by eauto].
  symmetry. apply (bind_at (λ d, in_group h g (taskQueue_ d)) _ k); eauto.
Qed.

(** Tasks of one group are executed one after the other: however many tasks
    of however many groups are enqueued in a new multi-dispatcher, none is lost
    and each group is, completely and in the order of the calls, in the queue
    of a single event dispatcher, in both builds. *)
Theorem group_in_one_queue h n ts :
  0 < n → (Z.of_nat n < size_t_mod)%Z → NoDup ts → (∀ t, t ∈ ts → is_Some (h !! t)) →
  (Z.of_nat (length ts) < size_t_mod)%Z →
  ∃ p, enqueue_all ts (h, new_mp n) = Ok (tt, (h, p)) ∧ length (dispatchers_ p) = n ∧
    ∀ g, ∃ k d, dispatchers_ p !! k = Some d ∧
      in_group h g (taskQueue_ d) = in_group h g ts ∧
      ∀ j d', dispatchers_ p !! j = Some d' → j ≠ k → in_group h g (taskQueue_ d') = [].
Proof.
  intros Hn Hnb Hnd Hts Hb.
  assert (Hnew : ∀ k d, dispatchers_ (new_mp n) !! k = Some d → d = new_dispatcher).
  { intros k d. simpl. rewrite lookup_replicate. tauto. }
  assert (Hown : owned (new_mp n) = ∅).
  { apply set_eq. intros t. rewrite elem_of_owned. split; [|set_solver].
    by intros (k & d & ->%Hnew & Ht). }
  destruct (enqueue_all_ok h (new_mp n) ts) as (p & Hp & Hok & _ & _ & Hc & Hg);
    [by apply ok_new_mp|by apply running_new|done| |by rewrite Hown, size_empty|].
  { intros t Ht. rewrite Hown. split; [by apply Hts|set_solver]. }
  assert (Hlen : length (dispatchers_ p) = n).
  { pose proof (mp_length h p Hok). simpl in Hc. lia. }
  exists p. split_and!; [done|done|]. intros g.
  assert (Hgt : group h p g = in_group h g ts).
  { rewrite Hg. assert (group h (new_mp n) g = []) as ->; [|done].
    unfold group. clear. induction n; [done|]. by csimpl in *. }
  destruct (group_at h p g Hok) as (k & d & Hk & Hd & Hother).
  exists k, d. split_and!; [done|congruence|done].
Qed.

(** The destinations of a sequence of groups. *)
Fixpoint destinations (gs : list Z) : M (list Z) :=
  match gs with
  | [] => pret []
  | g :: gs =>
    let! k := destination g in
    let! ks := destinations gs in
    pret (k :: ks)
  end.

Lemma in_turn_new h p g :
  use_hashing = false → ok h p → taskIDTable_ p !! g = None →
  ∃ p', destination g (h, p) = Ok (roundRobinToken_ p, (h, p')) ∧ ok h p' ∧
    concurrentTaskCount_ p' = concurrentTaskCount_ p ∧
    taskIDTable_ p' = <[g := roundRobinToken_ p]> (taskIDTable_ p) ∧
    roundRobinToken_ p' = ((roundRobinToken_ p + 1) mod concurrentTaskCount_ p)%Z.
Proof.
  intros Hb Hok Hg. destruct (destination_ok h p g Hok) as (k & p' & Hd & Hok' & _).
  exists p'. pose proof (mp_token h p Hok). pose proof (mp_some h p Hok).
  unfold destination in Hd |- *. rewrite Hb in Hd |- *. unfold in_turn in Hd |- *.
  unfold pbind, get, modify, pret in Hd |- *. simpl in *. rewrite Hg in Hd |- *.
  injection Hd as <- <-. simpl. split_and!; try done.
  clear Hok'. rewrite wrap_size_id by (unfold is_size; lia). case_decide.
  - replace (roundRobinToken_ p + 1)%Z with (concurrentTaskCount_ p) by lia. by rewrite Z_mod_same_full.
  - symmetry. apply Z.mod_small. lia.
Qed.

(** Without hashing, new groups are given dispatchers in turn: the j-th new
    group, counted from 0, gets dispatcher (token + j) mod count, where token
    is the value of [roundRobinToken_] before the first of them. *)
Theorem round_robin h p gs :
  use_hashing = false → ok h p → NoDup gs → (∀ g, g ∈ gs → taskIDTable_ p !! g = None) →
  ∃ p', destinations gs (h, p) =
      Ok ((λ j, (roundRobinToken_ p + Z.of_nat j) mod concurrentTaskCount_ p)%Z <$> seq 0 (length gs),
        (h, p')).
Proof.
  intros Hb. revert p. induction gs as [|g gs IH]; intros p Hok Hnd Hnew; [by exists p|].
  apply NoDup_cons in Hnd as [Hg Hnd].
  destruct (in_turn_new h p g Hb Hok) as (p1 & H1 & Hok1 & Hc1 & Ht1 & Hr1); [apply Hnew; by left|].
  destruct (IH p1 Hok1 Hnd) as [p' H'].
  { intros g' Hg'. rewrite Ht1, lookup_insert_ne by (by intros ->). apply Hnew. by right. }
  exists p'. simpl. rewrite (pbind_ok _ _ _ _ _ H1), (pbind_ok _ _ _ _ _ H'). unfold pret.
  pose proof (mp_token h p Hok). pose proof (mp_some h p Hok).
  do 2 f_equal. simpl. rewrite Z.add_0_r, (Z.mod_small (roundRobinToken_ p)) by lia. f_equal.
  rewrite <-(fmap_S_seq 0), <-list_fmap_compose. apply list_fmap_ext. intros _ j _. simpl.
  rewrite Hr1, Hc1, Z.add_mod_idemp_l by lia. f_equal. lia.
Qed.

(** Where a multi-dispatcher goes wrong: it dereferences a NULL task, which
    a single dispatcher ignores; and with no dispatchers it divides by zero
    (with hashing) or calls a dispatcher that does not exist. *)
Theorem mp_enqueue_faults h p t u d :
  h !! t = Some u →
  enqueueTask None (h, p) = Fault NullDeref ∧
  EventDispatcher.enqueueTask None (h, d) = Ok (true, (h, d)) ∧
  enqueueTask (Some t) (h, new_mp 0) = Fault (if use_hashing then DivByZero else OutOfRange).
Proof.
  intros Hu. split_and!; [done|done|]. unfold enqueueTask.
  rewrite (pbind_ok _ _ _ t (h, new_mp 0)) by done.
  rewrite (pbind_ok _ _ _ _ _ (load_task_live h (new_mp 0) t u Hu)).
  unfold destination. by destruct use_hashing.
Qed.

Lemma call_nth_busy h p k d :
  dispatchers_ p !! k = Some d →
  call_nth (Z.of_nat k) EventDispatcher.busy (h, p) =
    Ok (match taskQueue_ d with [] => false | _ => true end, (h, p)).
Proof.
  intros Hk. rewrite (call_nth_at _ _ h p d (match taskQueue_ d with [] => false | _ => true end) h d);
    rewrite ?Nat2Z.id; [|done|done].
  rewrite list_insert_id by done. by destruct p.
Qed.

(** [busy] is true if and only if some task is pending in some dispatcher;
    with hashing, [getSize] is the number of all tasks pending in the
    dispatcher of the group, and without it is 0 whatever is pending. *)
Lemma mp_queries h p g :
  ok h p →
  busy (h, p) = Ok (existsb (λ d, negb (bool_decide (taskQueue_ d = []))) (dispatchers_ p), (h, p)) ∧
  if use_hashing
  then ∃ k d, home p g = Some k ∧ dispatchers_ p !! k = Some d ∧
    getSize g (h, p) = Ok (Z.of_nat (length (taskQueue_ d)), (h, p))
  else getSize g (h, p) = Ok (0%Z, (h, p)).
Proof.
  intros Hok. split.
  - unfold busy. prun. simpl.
    assert (Hgen : ∀ n k, k + n = length (dispatchers_ p) →
      busy_loop n k (h, p) =
        Ok (existsb (λ d, negb (bool_decide (taskQueue_ d = []))) (drop k (dispatchers_ p)), (h, p))).
    { induction n as [|n IH]; intros k Hk; [by rewrite drop_ge by lia|].
      destruct (lookup_lt_is_Some_2 (dispatchers_ p) k) as [d Hd]; [lia|].
      simpl. rewrite (pbind_ok _ _ _ _ _ (call_nth_busy h p k d Hd)).
      rewrite (drop_S _ d k) by done. simpl. destruct (taskQueue_ d); [|done].
      simpl. by apply IH; lia. }
    rewrite Hgen by done. by rewrite drop_0.
  - destruct use_hashing eqn:Hb; [|unfold getSize; by rewrite Hb].
    destruct (destination_ok h p g Hok) as (k & p' & Hd & _ & _ & Hk & Hh & _).
    unfold destination in Hd. rewrite Hb in Hd.
    destruct (dispatcher_at h p k Hok Hk) as [d Hdk].
    unfold getSize. rewrite Hb, (pbind_ok _ _ _ _ _ Hd).
    assert (p' = p) as ->.
    { unfold hashed, pbind, get, pret in Hd. simpl in Hd. destruct (decide _); [done|]. by injection Hd. }
    exists (Z.to_nat k), d. split_and!; [done|done|].
    rewrite (call_nth_at k _ h p d _ h d Hdk
      (pendingTasks_eq h d (mp_each h p Hok _ _ Hdk))), list_insert_id by done.
    by destruct p.
Qed.

End mp.

(** * Concrete builds *)

Lemma demo_hash_size x : is_size (wrap_size x).
Proof. apply wrap_size_range. Qed.

Definition hashing_build : Build := {| use_hashing := true; hash_int := wrap_size; hash_int_size := demo_hash_size |}.
Definition turn_build : Build := {| use_hashing := false; hash_int := wrap_size; hash_int_size := demo_hash_size |}.

Definition demo_heap : heap unit :=
  {[ 1%positive := new () 5; 2%positive := new () 6; 3%positive := new () 5 ]}.

Lemma group_in_one_queue_witness :
  ∃ p, enqueue_all (HB := hashing_build) [1; 2; 3]%positive (demo_heap, new_mp 2) = Ok (tt, (demo_heap, p)) ∧
    length (dispatchers_ p) = 2.
Proof.
  destruct (group_in_one_queue (HB := hashing_build) demo_heap 2 [1; 2; 3]%positive)
    as (p & Hp & Hl & _); [lia|by vm_compute| | |by vm_compute|].
  - repeat constructor; set_solver.
  - intros t. rewrite !elem_of_cons, elem_of_nil.
    intros [->|[->|[->|[]]]]; by vm_compute; eauto.
  - by exists p.
Defined.

Lemma round_robin_witness :
  ∃ p', destinations (HB := turn_build) [5; 6; 9]%Z (demo_heap, new_mp 2) =
    Ok ([0; 1; 0]%Z, (demo_heap, p')).
Proof.
  destruct (round_robin (HB := turn_build) demo_heap (new_mp 2) [5; 6; 9]%Z) as [p' Hp];
    [done|apply ok_new_mp; [lia|by vm_compute]| |done|].
  - repeat constructor; set_solver.
  - exists p'. exact Hp.
Defined.

Lemma mp_enqueue_faults_witness :
  enqueueTask (HB := turn_build) (Some 1%positive) (demo_heap, new_mp 0) = Fault OutOfRange.
Proof.
  apply (mp_enqueue_faults (HB := turn_build) demo_heap (new_mp 0) 1%positive (new () 5)
    new_dispatcher). by vm_compute.
Defined.

Lemma mp_queries_witness :
  busy (demo_heap, new_mp 2) = Ok (false, (demo_heap, new_mp 2)).
Proof.
  apply (mp_queries (HB := hashing_build) demo_heap (new_mp 2) 5).
  apply ok_new_mp; [lia|by vm_compute].
Defined.

End MPEventDispatcher.
