(* ===== verification/MPLoop.v ===== *)
(** lib/mp_event_dispatcher.cc with its threads: several event dispatchers, each
    with the threads of [EventLoop], any number of clients, and the destructor,
    which deletes the dispatchers one after the other.

    A part is an event dispatcher with its loop and the calls inside it.  Threads
    have numbers: [g] is the loop of part [g] if there is one, and a client
    otherwise; [local k g] is what part [k] calls thread [g].  The choice of a
    dispatcher is one step: it is made under both mutexes of the table. *)
From S2P Require Import Prelude EventDispatcher EventLoop EventLoopProps MPEventDispatcher.

Module MPLoop.
Import UnitTask EventLoop EventLoopProps.

Section mp.
Context `{HB : MPEventDispatcher.Build} {T : Type}.
Abbreviation sys := (sys T).
Implicit Types (d : sys) (g i k : tid) (t : loc) (u : UnitTask T).

Definition local k g : tid := if decide (g = k) then 0 else S g.

(** Where [~MPEventDispatcher] is, in thread [g]: about to delete the next
    dispatcher, or inside its destructor. *)
Inductive dying := Alive | Deleting (g : tid) | Joining (g : tid) | Gone.
#[global] Instance dying_eq_dec : EqDecision dying.
Proof. solve_decision. Defined.

(** [threads] are the threads inside a method, with the part they have called;
    the first [deleted] parts are deleted.  [names] is a log of the groups of all
    tasks that were handed to a part; the program does not have it. *)
Record mpsys := mkMPSys {
  parts : list sys;
  taskIDTable_ : gmap Z Z;
  roundRobinToken_ : Z;
  threads : gmap tid nat;
  deleted : nat;
  destructor : dying;
  names : gmap (nat * loc) Z;
}.
Implicit Types (s : mpsys).

Definition new_system (concurrentTaskCount : nat) : mpsys :=
  mkMPSys (replicate concurrentTaskCount init) ∅ 0 ∅ 0 Alive ∅.

Definition set_part k d s : mpsys :=
  mkMPSys (<[k := d]> (parts s)) (taskIDTable_ s) (roundRobinToken_ s) (threads s) (deleted s) (destructor s) (names s).
Definition set_threads (m : gmap tid nat) s : mpsys :=
  mkMPSys (parts s) (taskIDTable_ s) (roundRobinToken_ s) m (deleted s) (destructor s) (names s).
Definition set_dying n (y : dying) s : mpsys :=
  mkMPSys (parts s) (taskIDTable_ s) (roundRobinToken_ s) (threads s) n y (names s).
Definition set_routing (p : MPEventDispatcher.MPEventDispatcher) s : mpsys :=
  mkMPSys (parts s) (MPEventDispatcher.taskIDTable_ p) (MPEventDispatcher.roundRobinToken_ p)
    (threads s) (deleted s) (destructor s) (names s).
Definition log_name k t (i : Z) s : mpsys :=
  mkMPSys (parts s) (taskIDTable_ s) (roundRobinToken_ s) (threads s) (deleted s) (destructor s)
    (<[(k, t) := i]> (names s)).

(** The members of the class. *)
Definition members s : MPEventDispatcher.MPEventDispatcher :=
  MPEventDispatcher.mkMP (disp <$> parts s) (Z.of_nat (length (parts s))) (taskIDTable_ s) (roundRobinToken_ s).

(** * Steps *)

Abbreviation result := (option (outcome mpsys)).

(** A step of part [k]; [f] is what it changes outside. *)
Definition on_part k (m : sys → option (outcome sys)) (f : sys → mpsys → mpsys) s : result :=
  match parts s !! k with
  | None => Some (Fault OutOfRange)
  | Some d =>
    if decide (k < deleted s) then Some (Fault UseAfterFree)
    else match m d with
         | Some (Ok d') => Some (Ok (f d (set_part k d' s)))
         | Some (Fault e) => Some (Fault e)
         | None => None
         end
  end.

(** Lines 33 to 54 of [enqueueTask], and line 80: the dispatcher of a group. *)
Definition choose (f : prog (heap T * MPEventDispatcher.MPEventDispatcher) Z) s : outcome (nat * mpsys) :=
  match f (∅, members s) with
  | Ok (k, (_, p)) => Ok (Z.to_nat k, set_routing p s)
  | Fault e => Fault e
  end.

Definition enter g k s : mpsys := set_threads (<[g := k]> (threads s)) s.

Inductive mp_method :=
  | MPEnqueue (newTask : option (UnitTask T))
  | MPGetSize (i : Z)
  | MPDestroy.

Definition body_runs g s : bool := match parts s !! g with Some d => in_body d | None => true end.

(** Whether thread [g] may begin a method: it is in no other, and a loop calls
    only from the body of a task and does not destroy its own dispatcher. *)
Definition may_begin g (m : mp_method) s : bool :=
  bool_decide (threads s !! g = None) && body_runs g s &&
  match destructor s with Deleting g' | Joining g' => bool_decide (g ≠ g') | _ => true end &&
  match m with MPDestroy => bool_decide (length (parts s) ≤ g) | _ => true end.

Definition begin g (m : mp_method) s : result :=
  if may_begin g m s then
    match destructor s with
    | Gone => Some (Fault UseAfterFree)
    | _ =>
      match m with
      | MPEnqueue None => Some (Fault NullDeref)
      | MPEnqueue (Some u) =>
        match choose (MPEventDispatcher.destination (id u)) s with
        | Ok (k, s1) =>
          on_part k (call (local k g) (Enqueue (Some u))) (λ d s, log_name k (next d) (id u) (enter g k s)) s1
        | Fault e => Some (Fault e)
        end
      | MPGetSize i =>
        if MPEventDispatcher.use_hashing then
          match choose (MPEventDispatcher.hashed i) s with
          | Ok (k, s1) => on_part k (call (local k g) PendingTasks) (λ _, enter g k) s1
          | Fault e => Some (Fault e)
          end
        else Some (Ok s)
      | MPDestroy => Some (Ok (set_dying (deleted s) (Deleting g) s))
      end
    end
  else None.

(** A step of thread [i] inside part [k].  A loop whose task is in a method of
    another part waits for it. *)
Definition inner k i s : result :=
  match parts s !! k with
  | None => None
  | Some d =>
    if decide (k < deleted s) then
      match calls d !! i with Some _ => Some (Fault UseAfterFree) | None => None end
    else if decide (i = 0 ∧ calls d !! 0 = None ∧ is_Some (threads s !! k)) then None
    else on_part k (run i) (λ _ s, s) s
  end.

(** The inner call has returned, and so does the method. *)
Definition leave g s : result :=
  match threads s !! g with
  | None => None
  | Some k =>
    match parts s !! k with
    | None => None
    | Some d =>
      if decide (calls d !! local k g = None)
      then Some (Ok (set_threads (delete g (threads s)) s)) else None
    end
  end.

(** [~MPEventDispatcher]: [deleteObj] on each dispatcher in turn. *)
Definition destruct_step s : result :=
  match destructor s with
  | Deleting g =>
    match parts s !! deleted s with
    | None => Some (Ok (set_dying (deleted s) Gone s))
    | Some _ =>
      on_part (deleted s) (call (local (deleted s) g) Destroy) (λ _, set_dying (deleted s) (Joining g)) s
    end
  | Joining g =>
    match parts s !! deleted s with
    | None => None
    | Some d =>
      if decide (calls d !! local (deleted s) g = None)
      then Some (Ok (set_dying (S (deleted s)) (Deleting g) s)) else None
    end
  | _ => None
  end.

Inductive mp_action :=
  | Begin (g : tid) (m : mp_method)
  | Inner (k i : tid)
  | Leave (g : tid)
  | Destruct.

Definition mp_step (a : mp_action) s : result :=
  match a with
  | Begin g m => begin g m s
  | Inner k i => inner k i s
  | Leave g => leave g s
  | Destruct => destruct_step s
  end.

(** What a client may do: it gives no NULL task, begins nothing once the object
    is being destroyed, and destroys it when no call is under way. *)
Definition allowed (a : mp_action) s : Prop :=
  match a with
  | Begin g m => destructor s = Alive ∧
    match m with MPEnqueue None => False | MPDestroy => threads s = ∅ | _ => True end
  | _ => True
  end.

Inductive mp_reachable (n : nat) : mpsys → Prop :=
  | mp_reachable_new : mp_reachable n (new_system n)
  | mp_reachable_step s a s' :
    mp_reachable n s → allowed a s → mp_step a s = Some (Ok s') → mp_reachable n s'.

Fixpoint mp_steps (l : list mp_action) s : result :=
  match l with
  | [] => Some (Ok s)
  | a :: l => match mp_step a s with Some (Ok s') => mp_steps l s' | r => r end
  end.

(** * What a step of a part keeps *)

Lemma run_tasks d i d' t u : step (Run i) d = Some (Ok d') → tasks d' !! t = Some u → tasks d !! t = Some u.
Proof.
  intros H. simpl in H. run_cases H; simpl; try done; intros Ht; by apply lookup_delete_Some in Ht as [_ Ht].
Qed.

Lemma run_calls d i d' j c' :
  step (Run i) d = Some (Ok d') → calls d' !! j = Some c' →
  ∃ c, calls d !! j = Some c ∧ destroys c' = destroys c.
Proof.
  intros H. simpl in H. run_cases H; simpl; intros Hj; calls_inv; eauto.
Qed.

Lemma run_done d i d' : step (Run i) d = Some (Ok d') → loop d = LDone → loop d' = LDone.
Proof. intros H. simpl in H. run_cases H; simpl; congruence. Qed.

(** The destructor of a part returns only from [pthread_join]. *)
Lemma run_joined d i d' j x :
  step (Run i) d = Some (Ok d') → calls d !! j = Some x → destroys x = true → calls d' !! j = None →
  loop d' = LDone.
Proof.
  intros H. simpl in H. run_cases H; simpl; intros Hj Hc Hn; try congruence.
  all: try (apply lookup_insert_None in Hn as [? ?]; congruence).
  all: apply lookup_delete_None in Hn as [->|?]; [|congruence]; simplify_eq; done.
Qed.

Lemma run_accepted d i d' t :
  inv d → step (Run i) d = Some (Ok d') → t ∈ accepted d' → t ∈ accepted d ∨ is_Some (tasks d !! t).
Proof.
  intros [_ _ _ Ho _] H. simpl in H. run_cases H; simpl; try (by left).
  intros [?|E%list_elem_of_singleton]%elem_of_app; [by left|]. subst t. right. apply (ow_live d Ho). eauto 10.
Qed.

(** * The invariant *)

Abbreviation home s i := (MPEventDispatcher.home (members s) i).

(** Every part keeps its invariant, and the tasks of a group are handed to its home. *)
Record routing_ok s : Prop := {
  ro_parts k d : parts s !! k = Some d → inv d;
  ro_routed : MPEventDispatcher.routed (members s);
  ro_names k t (i : Z) : names s !! (k, t) = Some i → home s i = Some k;
  ro_live k d t u : parts s !! k = Some d → tasks d !! t = Some u → names s !! (k, t) = Some (id u);
  ro_accepted k d t : parts s !! k = Some d → t ∈ accepted d → is_Some (names s !! (k, t));
}.

(** Who is inside the parts, and what the destructor has done. *)
Record life_ok s : Prop := {
  li_calls k d i c : parts s !! k = Some d → calls d !! i = Some c →
    ∃ g, i = local k g ∧ (threads s !! g = Some k ∨ (destructor s = Joining g ∧ k = deleted s ∧ destroys c = true));
  li_alive : destructor s = Alive → deleted s = 0;
  li_threads : destructor s ≠ Alive → threads s = ∅;
  li_deleted k d : parts s !! k = Some d → k < deleted s → loop d = LDone;
  li_joined g d : destructor s = Joining g → parts s !! deleted s = Some d →
    calls d !! local (deleted s) g = None → loop d = LDone;
  li_range : deleted s ≤ length (parts s);
  li_gone : destructor s = Gone → deleted s = length (parts s);
  li_joining g : destructor s = Joining g → deleted s < length (parts s);
  li_client g : destructor s = Deleting g ∨ destructor s = Joining g → length (parts s) ≤ g;
}.

Definition mp_inv s : Prop := routing_ok s ∧ life_ok s.

Lemma local_inj k g g' : local k g = local k g' → g = g'.
Proof. unfold local. repeat case_decide; congruence. Qed.

Lemma set_part_lookup s k d j d' :
  parts (set_part k d s) !! j = Some d' → (j = k ∧ d' = d) ∨ (j ≠ k ∧ parts s !! j = Some d').
Proof. apply MPEventDispatcher.lookup_insert_cases. Qed.

Lemma home_set_part s k d (i : Z) : home (set_part k d s) i = home s i.
Proof.
  unfold MPEventDispatcher.home. cbn [members set_part parts taskIDTable_ MPEventDispatcher.concurrentTaskCount_ MPEventDispatcher.taskIDTable_].
  by rewrite length_insert.
Qed.

Lemma routed_set_part s k d : MPEventDispatcher.routed (members s) → MPEventDispatcher.routed (members (set_part k d s)).
Proof.
  intros [H1 H2 H3]. split;
    cbn [members set_part parts taskIDTable_ roundRobinToken_ MPEventDispatcher.concurrentTaskCount_
      MPEventDispatcher.taskIDTable_ MPEventDispatcher.roundRobinToken_] in *; by rewrite length_insert.
Qed.

(** A step of a part. *)
Lemma routing_part s k d d' :
  routing_ok s → parts s !! k = Some d → inv d' →
  (∀ t u, tasks d' !! t = Some u → tasks d !! t = Some u) →
  (∀ t, t ∈ accepted d' → t ∈ accepted d ∨ is_Some (tasks d !! t)) →
  routing_ok (set_part k d' s).
Proof.
  intros [H1 H2 H3 H4 H5] Hk Hd Ht Ha. split; simpl.
  - intros j dj [[-> ->]|[_ Hj]]%set_part_lookup; eauto.
  - by apply routed_set_part.
  - intros j t i Hn. rewrite home_set_part. by eapply H3.
  - intros j dj t u [[-> ->]|[_ Hj]]%set_part_lookup; eauto.
  - intros j dj t [[-> ->]|[_ Hj]]%set_part_lookup; [|by eauto].
    intros [?|[u Hu]]%Ha; [by eauto|]. eexists. by eapply H4.
Qed.

Lemma routing_eq s s' :
  parts s' = parts s → taskIDTable_ s' = taskIDTable_ s → roundRobinToken_ s' = roundRobinToken_ s →
  names s' = names s → routing_ok s → routing_ok s'.
Proof.
  intros E1 E2 E3 E4 [H1 H2 H3 H4 H5].
  assert (members s' = members s) as E by (unfold members; by rewrite E1, E2, E3).
  split; rewrite ?E, ?E1, ?E4; eauto.
Qed.

(** The choice of a part. *)
Lemma choose_ok s (i : Z) :
  mp_inv s →
  ∃ k d s1, choose (MPEventDispatcher.destination i) s = Ok (k, s1) ∧ parts s1 = parts s ∧ parts s !! k = Some d ∧
    names s1 = names s ∧ threads s1 = threads s ∧ deleted s1 = deleted s ∧ destructor s1 = destructor s ∧
    mp_inv s1 ∧ home s1 i = Some k ∧ (∀ z j, home s z = Some j → home s1 z = Some j).
Proof.
  intros [[H1 H2 H3 H4 H5] Hl].
  destruct (MPEventDispatcher.destination_routed (∅ : heap T) (members s) i H2)
    as (k & p' & Hp & Hr & Hd & Hc & Hk & Hi & Hh).
  assert (members (set_routing p' s) = p') as E.
  { unfold members. simpl. destruct p'. simpl in *. subst. done. }
  destruct (lookup_lt_is_Some_2 (parts s) (Z.to_nat k)) as [d Hd']; [simpl in Hk; lia|].
  exists (Z.to_nat k), d, (set_routing p' s). unfold choose. rewrite Hp. split_and!; try done; [split|by rewrite E..].
  - split; rewrite ?E; eauto.
  - destruct Hl. by split.
Qed.

Lemma hashed_ok s (i : Z) :
  mp_inv s → MPEventDispatcher.use_hashing = true →
  ∃ k d s1, choose (MPEventDispatcher.hashed i) s = Ok (k, s1) ∧ parts s1 = parts s ∧ parts s !! k = Some d ∧
    names s1 = names s ∧ threads s1 = threads s ∧ deleted s1 = deleted s ∧ destructor s1 = destructor s ∧ mp_inv s1.
Proof.
  intros Hs Hb. destruct (choose_ok s i Hs) as (k & d & s1 & Hk & H).
  exists k, d, s1. unfold MPEventDispatcher.destination in Hk. rewrite Hb in Hk. naive_solver.
Qed.

(** ** Steps keep it *)

Lemma life_log s k t (i : Z) : life_ok s → life_ok (log_name k t i s).
Proof. intros []. by split. Qed.

Lemma life_enter s g k d d' c :
  life_ok s → destructor s = Alive → threads s !! g = None → parts s !! k = Some d →
  calls d' = <[local k g := c]> (calls d) → life_ok (enter g k (set_part k d' s)).
Proof.
  intros [H1 H2 H3 H4 H5 H6 H7 H9 H8] Ha Hg Hk Hc. specialize (H2 Ha). split; simpl; try congruence; try lia.
  2:{ intros g' [?|?]; congruence. }
  intros j dj i c' Hj Hi. assert (∀ g', threads s !! g' = Some j → <[g := k]> (threads s) !! g' = Some j) as Hold.
  { intros g' Hg'. rewrite lookup_insert_ne; [done|]. congruence. }
  apply set_part_lookup in Hj as [[-> ->]|[_ Hj]].
  - rewrite Hc in Hi. apply lookup_insert_Some in Hi as [[<- _]|[_ Hi]].
    + exists g. split; [done|]. left. by apply lookup_insert_eq.
    + destruct (H1 k d i c' Hk Hi) as (g' & -> & [?|[? _]]); [|congruence]. eauto.
  - destruct (H1 j dj i c' Hj Hi) as (g' & -> & [?|[? _]]); [|congruence]. eauto.
Qed.

Lemma life_inner s k i d d' :
  life_ok s → parts s !! k = Some d → ¬ k < deleted s → step (Run i) d = Some (Ok d') →
  life_ok (set_part k d' s).
Proof.
  intros [H1 H2 H3 H4 H5 H6 H7 H9 H8] Hk Hlt Hr. split; simpl; rewrite ?length_insert; try done.
  - intros j dj i' c [[-> ->]|[_ Hj]]%set_part_lookup Hi; [|by eauto].
    destruct (run_calls _ _ _ _ _ Hr Hi) as (c0 & Hc0 & E). rewrite E. by eapply H1.
  - intros j dj [[-> ->]|[_ Hj]]%set_part_lookup ?; [done|by eauto].
  - intros g dj Hg [[E ->]|[_ Hj]]%set_part_lookup Hn; [|by eauto]. rewrite E in Hn.
    destruct (calls d !! local k g) as [c|] eqn:Hc.
    + eapply run_joined; [exact Hr|exact Hc| |exact Hn].
      destruct (H1 k d _ c Hk Hc) as (g' & _ & [Ht|(_ & _ & ?)]); [|done].
      rewrite H3 in Ht by congruence. by rewrite lookup_empty in Ht.
    + eapply run_done; [exact Hr|]. apply (H5 g); rewrite ?E; done.
Qed.

Lemma life_leave s g k d :
  life_ok s → threads s !! g = Some k → parts s !! k = Some d → calls d !! local k g = None →
  life_ok (set_threads (delete g (threads s)) s).
Proof.
  intros [H1 H2 H3 H4 H5 H6 H7 H9 H8] Hg Hk Hc. split; simpl; try done.
  - intros j dj i c Hj Hi. destruct (H1 j dj i c Hj Hi) as (g' & -> & [Ht|?]); [|by eauto].
    exists g'. split; [done|]. left. rewrite lookup_delete_ne; [done|]. intros <-. congruence.
  - intros Ha. by rewrite (H3 Ha), delete_empty.
Qed.

Lemma on_part_call s g k (m : method T) f s' :
  routing_ok s → on_part k (call (local k g) m) f s = Some (Ok s') →
  ∃ d d', parts s !! k = Some d ∧ ¬ k < deleted s ∧ call (local k g) m d = Some (Ok d') ∧ inv d' ∧ s' = f d (set_part k d' s).
Proof.
  intros Hro. unfold on_part. destruct (parts s !! k) as [d|] eqn:Hk; [|done]. case_decide as Hlt; [done|].
  destruct (call _ _ d) as [[d'|]|] eqn:Hc; [|done..]. intros [= <-].
  exists d, d'. split_and!; try done. by eapply (inv_step d (Call _ _)), Hc; eapply ro_parts.
Qed.

(** Part [k] gets a new task of a group whose home it is. *)
Lemma routing_enqueue s k g d u :
  routing_ok s → parts s !! k = Some d → home s (id u) = Some k →
  inv (goto (local k g) (ELock (Some (next d))) (new_task u d)) →
  routing_ok (log_name k (next d) (id u) (enter g k (set_part k (goto (local k g) (ELock (Some (next d))) (new_task u d)) s))).
Proof.
  intros [H1 H2 H3 H4 H5] Hk Hh Hd'. pose proof (inv_own d (H1 k d Hk)) as Ho. split.
  - intros j dj [[-> ->]|[_ Hj]]%set_part_lookup; eauto.
  - apply (routed_set_part s k _ H2).
  - intros j t z Hn. etrans; [apply (home_set_part s)|]. simpl in Hn.
    apply lookup_insert_Some in Hn as [[[= <- <-] <-]|[_ Hn]]; eauto.
  - intros j dj t v [[-> ->]|[Hne Hj]]%set_part_lookup Ht; simpl in *.
    + apply lookup_insert_Some in Ht as [[<- <-]|[Hne Ht]]; [by apply lookup_insert_eq|].
      rewrite lookup_insert_ne by congruence. by eapply H4.
    + rewrite lookup_insert_ne by congruence. by eapply H4.
  - intros j dj t Hj Ht. simpl. apply lookup_insert_is_Some'. right.
    apply set_part_lookup in Hj as [[-> ->]|[_ Hj]]; eauto.
Qed.

Lemma begin_ok s g m s' :
  mp_inv s → allowed (Begin g m) s → begin g m s = Some (Ok s') → mp_inv s'.
Proof.
  intros Hs [Ha Hm] H. unfold begin in H. destruct (may_begin g m s) eqn:Hmay; [|done]. rewrite Ha in H.
  unfold may_begin in Hmay. apply andb_prop in Hmay as [[[Hg _]%andb_prop _]%andb_prop Hcl].
  apply bool_decide_eq_true in Hg. destruct m as [[u|]|i|]; [|done|..].
  - destruct (choose_ok s (id u) Hs) as (k & d & s1 & E & Ep & Hk & En & Et & Ed & Ey & [Hro Hli] & Hh & _).
    rewrite E in H. apply on_part_call in H as (d0 & d' & Hk1 & _ & Hc & Hd' & ->); [|done].
    unfold call in Hc. case_match; [|done]. injection Hc as <-. split; [by apply routing_enqueue|].
    apply life_log. eapply life_enter; [exact Hli|congruence|congruence|exact Hk1|done].
  - destruct MPEventDispatcher.use_hashing eqn:Hb; [|by injection H as <-].
    destruct (hashed_ok s i Hs Hb) as (k & d & s1 & E & Ep & Hk & En & Et & Ed & Ey & [Hro Hli]).
    rewrite E in H. apply on_part_call in H as (d0 & d' & Hk1 & _ & Hc & Hd' & ->); [|done].
    unfold call in Hc. case_match; [|done]. injection Hc as <-. split.
    + eapply (routing_eq (set_part k _ s1)); [done..|]. eapply routing_part; [done|exact Hk1|done|done|by left].
    + eapply life_enter; [exact Hli|congruence|congruence|exact Hk1|done].
  - injection H as <-. pose proof Hs as [Hro [H1 H2 H3 H4 H5 H6 H7 H9 H8]]. split; [by eapply (routing_eq s)|].
    split; simpl; try done.
    + intros j dj i c Hj Hi. destruct (H1 j dj i c Hj Hi) as (g' & -> & [?|[? _]]); [by eauto|congruence].
    + intros g' [[= <-]|?]; [|done]. by apply bool_decide_eq_true in Hcl.
Qed.

Lemma inner_ok s k i s' :
  mp_inv s → inner k i s = Some (Ok s') →
  ∃ d d', parts s !! k = Some d ∧ ¬ k < deleted s ∧ step (Run i) d = Some (Ok d') ∧ s' = set_part k d' s ∧ mp_inv s'.
Proof.
  intros [Hro Hli]. unfold inner. destruct (parts s !! k) as [d|] eqn:Hk; [|done].
  case_decide as Hlt; [by case_match|]. case_decide; [done|]. unfold on_part. rewrite Hk, decide_False by done.
  destruct (run i d) as [[d'|]|] eqn:Hr; [|done..]. intros [= <-].
  pose proof (ro_parts s Hro k d Hk) as Hd. exists d, d'. split_and!; try done. split.
  - eapply routing_part; [done|exact Hk|by eapply (inv_step d (Run i))|intros t u; by apply (run_tasks d i)|].
    intros t. by eapply run_accepted.
  - by eapply life_inner.
Qed.

Lemma leave_ok s g s' : mp_inv s → leave g s = Some (Ok s') → mp_inv s'.
Proof.
  intros [Hro Hli]. unfold leave. destruct (threads s !! g) as [k|] eqn:Hg; [|done].
  destruct (parts s !! k) as [d|] eqn:Hk; [|done]. case_decide; [|done]. intros [= <-].
  split; [by eapply (routing_eq s)|by eapply life_leave].
Qed.

Lemma destruct_ok s s' : mp_inv s → destruct_step s = Some (Ok s') → mp_inv s'.
Proof.
  intros [Hro Hli]. pose proof Hli as [H1 H2 H3 H4 H5 H6 H7 H9 H8]. unfold destruct_step.
  destruct (destructor s) as [|g|g|] eqn:Hy; [done|..|done]; specialize (H3 ltac:(done)).
  - destruct (parts s !! deleted s) as [d|] eqn:Hk.
    + intros (d0 & d' & Hk' & _ & Hc & Hd' & ->)%on_part_call; [|done]. assert (d0 = d) as -> by congruence.
      unfold call in Hc. case_match eqn:Hmay; [|done]. injection Hc as <-. split.
      { eapply (routing_eq (set_part (deleted s) _ s)); [done..|].
        eapply routing_part; [done|exact Hk|done|done|by left]. }
      split; simpl; rewrite ?length_insert; try done.
      * intros j dj i c [[-> ->]|[_ Hj]]%set_part_lookup Hi; simpl in *.
        -- apply lookup_insert_Some in Hi as [[<- <-]|[_ Hi]]; [by eauto 10|].
           destruct (H1 _ d i c Hk Hi) as (g' & _ & [Ht|[? _]]); [|done]. by rewrite H3, lookup_empty in Ht.
        -- destruct (H1 j dj i c Hj Hi) as (g' & _ & [Ht|[? _]]); [|done]. by rewrite H3, lookup_empty in Ht.
      * intros j dj [[-> ->]|[_ Hj]]%set_part_lookup ?; [lia|by eauto].
      * intros g' dj [= <-] [[_ ->]|[? _]]%set_part_lookup Hn; [|done]. simpl in Hn. by rewrite lookup_insert_eq in Hn.
      * intros _ _. by eapply lookup_lt_Some.
      * intros g' [?|[= <-]]; [done|]. apply H8. by left.
    + intros [= <-]. apply lookup_ge_None in Hk. split; [by eapply (routing_eq s)|]. split; simpl; try done; [|lia|by intros ? [?|?]].
      intros j dj i c Hj Hi. destruct (H1 j dj i c Hj Hi) as (g' & _ & [Ht|[? _]]); [|done].
      by rewrite H3, lookup_empty in Ht.
  - destruct (parts s !! deleted s) as [d|] eqn:Hk; [|done]. case_decide as Hn; [|done]. intros [= <-].
    pose proof (lookup_lt_Some _ _ _ Hk). split; [by eapply (routing_eq s)|]. split; simpl; try done.
    + intros j dj i c Hj Hi. destruct (H1 j dj i c Hj Hi) as (g' & -> & [Ht|([= <-] & -> & _)]); [by rewrite H3, lookup_empty in Ht|].
      congruence.
    + intros j dj Hj Hlt. destruct (decide (j = deleted s)) as [->|]; [|apply (H4 j); [done|lia]].
      apply (H5 g); congruence.
    + intros g' [[= <-]|?]; [|done]. apply H8. by right.
Qed.

Lemma mp_inv_step s a s' : mp_inv s → allowed a s → mp_step a s = Some (Ok s') → mp_inv s'.
Proof.
  intros Hs Ha H. destruct a as [g m|k i|g|]; simpl in H.
  - by eapply begin_ok.
  - by apply inner_ok in H as (_ & _ & _ & _ & _ & _ & ?).
  - by eapply leave_ok.
  - by eapply destruct_ok.
Qed.

Lemma mp_inv_new n : 0 < n → (Z.of_nat n < size_t_mod)%Z → mp_inv (new_system n).
Proof.
  intros Hn Hb. assert (∀ k d, parts (new_system n) !! k = Some d → d = init) as Hd.
  { intros k d. simpl. rewrite lookup_replicate. tauto. }
  split; split; try done.
  - intros k d ->%Hd. apply inv_init.
  - split; simpl; rewrite ?length_replicate; try lia; done.
  - intros k d t u ->%Hd Ht. done.
  - intros k d t ->%Hd Ht. by apply not_elem_of_nil in Ht.
  - intros k d i c ->%Hd Hc. done.
  - simpl. intros k d _. lia.
  - simpl. lia.
  - by intros ? [?|?].
Qed.

Lemma mp_inv_reachable n s : 0 < n → (Z.of_nat n < size_t_mod)%Z → mp_reachable n s → mp_inv s.
Proof. intros Hn Hb. induction 1; [by apply mp_inv_new|by eapply mp_inv_step]. Qed.

(** * Safety and order *)

Lemma call_no_fault (m : method T) i d e : call i m d ≠ Some (Fault e).
Proof. unfold call. by case_match. Qed.

Lemma on_part_no_fault s k d m f e :
  parts s !! k = Some d → ¬ k < deleted s → (∀ e, m d ≠ Some (Fault e)) → on_part k m f s ≠ Some (Fault e).
Proof.
  intros Hk Hlt Hm. unfold on_part. rewrite Hk, decide_False by done.
  destruct (m d) as [[d'|e']|] eqn:E; [done| |done]. by destruct (Hm e').
Qed.

Lemma mp_no_fault s a e : mp_inv s → allowed a s → mp_step a s ≠ Some (Fault e).
Proof.
  intros Hs Ha. pose proof Hs as [Hro [H1 H2 H3 H4 H5 H6 H7 H9 H8]]. destruct a as [g m|k i|g|]; simpl.
  - destruct Ha as [Ha Hm]. unfold begin. destruct (may_begin g m s); [|done]. rewrite Ha. specialize (H2 Ha). destruct m as [[u|]|i|]; try done.
    + destruct (choose_ok s (id u) Hs) as (k & d & s1 & -> & Ep & Hk & _ & _ & Ed & _).
      apply (on_part_no_fault _ _ d); [by rewrite Ep|lia|intros ?; apply call_no_fault].
    + destruct MPEventDispatcher.use_hashing eqn:Hb; [|done].
      destruct (hashed_ok s i Hs Hb) as (k & d & s1 & -> & Ep & Hk & _ & _ & Ed & _).
      apply (on_part_no_fault _ _ d); [by rewrite Ep|lia|intros ?; apply call_no_fault].
  - unfold inner. destruct (parts s !! k) as [d|] eqn:Hk; [|done]. case_decide as Hlt.
    + destruct (calls d !! i) as [c|] eqn:Hi; [|done]. exfalso.
      destruct (H1 k d i c Hk Hi) as (g & _ & [Ht|(_ & -> & _)]); [|lia].
      destruct (decide (destructor s = Alive)) as [Hy|Hy]; [specialize (H2 Hy); lia|].
      by rewrite (H3 Hy), lookup_empty in Ht.
    + case_decide; [done|]. apply (on_part_no_fault _ _ d); [done..|].
      intros e'. apply (step_no_fault d (Run i)). by eapply ro_parts.
  - unfold leave. repeat case_match; done.
  - unfold destruct_step. destruct (destructor s) as [|g|g|]; try done; [|by repeat case_match].
    destruct (parts s !! deleted s) as [d|] eqn:Hk; [|done].
    apply (on_part_no_fault _ _ d); [done|lia|intros ?; apply call_no_fault].
Qed.

(** No schedule faults: whatever threads enqueue, ask and destroy, as long as
    they do what [allowed] says, no step - of a thread inside a dispatcher, of a
    loop, or of the destructor - uses a dispatcher that is deleted or a task that
    is not live, or chooses a dispatcher that does not exist. *)
Theorem mp_safe n s a e :
  0 < n → (Z.of_nat n < size_t_mod)%Z → mp_reachable n s → allowed a s → mp_step a s ≠ Some (Fault e).
Proof. intros Hn Hb Hr. by apply mp_no_fault, (mp_inv_reachable n). Qed.

(** C11: Tasks of a group run one after the other, in the order in which they were
    accepted, although the dispatchers run in parallel: no two loops are in tasks
    of one group; all tasks of a group that were ever handed over went to one and
    the same dispatcher; and each dispatcher has executed the first of the tasks
    it accepted, none of them twice, and is in a task that is live. *)
Theorem same_group_serial n s :
  0 < n → (Z.of_nat n < size_t_mod)%Z → mp_reachable n s →
  (∀ j k d1 d2 t1 t2 u1 u2, parts s !! j = Some d1 → parts s !! k = Some d2 →
     loop d1 = LExec t1 → loop d2 = LExec t2 → tasks d1 !! t1 = Some u1 → tasks d2 !! t2 = Some u2 →
     id u1 = id u2 → j = k ∧ t1 = t2) ∧
  (∀ j k t1 t2 (i : Z), names s !! (j, t1) = Some i → names s !! (k, t2) = Some i → j = k) ∧
  (∀ k d, parts s !! k = Some d → executed d `prefix_of` accepted d ∧ NoDup (accepted d) ∧
     (∀ t, t ∈ accepted d → ∃ i : Z, names s !! (k, t) = Some i) ∧
     (∀ t, loop d = LExec t → ∃ u, tasks d !! t = Some u ∧ names s !! (k, t) = Some (id u))).
Proof.
  intros Hn Hb Hr. destruct (mp_inv_reachable n s Hn Hb Hr) as [[H1 H2 H3 H4 H5] _].
  assert (∀ j k t1 t2 (i : Z), names s !! (j, t1) = Some i → names s !! (k, t2) = Some i → j = k) as Hone.
  { intros j k t1 t2 i Hj%H3 Hk%H3. congruence. }
  split; [|split; [done|]].
  - intros j k d1 d2 t1 t2 u1 u2 Hj Hk L1 L2 T1 T2 E.
    assert (j = k) as -> by (apply (Hone j k t1 t2 (id u1)); [by eapply H4|rewrite E; by eapply H4]).
    split; [done|]. congruence.
  - intros k d Hk. destruct (H1 k d Hk) as [_ _ Hq Ho _]. split_and!; [apply Hq|apply Ho| |].
    + intros t Ht. destruct (H5 k d t Hk Ht) as [i Hi]. by exists i.
    + intros t Ht. assert (t ∈ EventDispatcher.taskQueue_ (disp d)) as Hin.
      { pose proof (qu_front d Hq t) as Hf. rewrite Ht in Hf. specialize (Hf eq_refl).
        destruct (EventDispatcher.taskQueue_ (disp d)); [done|]. injection Hf as ->. by left. }
      destruct (proj2 (ow_live d Ho t)) as [u Hu]; [by left|]. exists u. split; [done|by eapply H4].
Qed.

(** * The destructor *)

Definition quiet (a : mp_action) : Prop := match a with Begin _ _ => False | _ => True end.

Lemma quiet_allowed a s : quiet a → allowed a s.
Proof. by destruct a. Qed.

(** ** A bound on its steps *)

(** A step of a loop that finds nothing to do and goes back to waiting. *)
Definition idle_step (a : mp_action) s : bool :=
  match a with
  | Inner k 0 =>
    match parts s !! k with
    | Some d => match loop d with LWhile => queue_empty d && negb (EventDispatcher.isDying_ (disp d)) | _ => false end
    | None => false
    end
  | _ => false
  end.

Fixpoint idle_steps (l : list mp_action) s : nat :=
  match l with
  | [] => 0
  | a :: l => match mp_step a s with Some (Ok s') => (if idle_step a s then 1 else 0) + idle_steps l s' | _ => 0 end
  end.

Definition dying_weight s : nat :=
  match destructor s with
  | Deleting _ => 7 * (length (parts s) - deleted s) + 1
  | Joining _ => 7 * (length (parts s) - deleted s) - 4
  | _ => 0
  end.
Definition mp_measure s : nat := sum_list (measure <$> parts s) + dying_weight s.

Lemma sum_insert (l : list nat) k x y : l !! k = Some x → sum_list (<[k := y]> l) + x = sum_list l + y.
Proof.
  revert k. induction l as [|z l IH]; intros [|k] Hk; simplify_eq/=; [lia|]. specialize (IH k Hk). lia.
Qed.

Lemma measure_part s k d d' :
  parts s !! k = Some d →
  sum_list (measure <$> parts (set_part k d' s)) + measure d = sum_list (measure <$> parts s) + measure d'.
Proof. intros Hk. simpl. rewrite list_fmap_insert. apply sum_insert. by rewrite list_lookup_fmap, Hk. Qed.

Lemma measure_quiet s a s' :
  mp_inv s → destructor s ≠ Alive → quiet a → mp_step a s = Some (Ok s') →
  destructor s' ≠ Alive ∧ S (mp_measure s') ≤ mp_measure s + (if idle_step a s then 2 else 0).
Proof.
  intros Hs Hy Ha H. pose proof Hs as [Hro Hli]. destruct a as [g m|k i|g|]; [done|simpl in H..].
  - apply inner_ok in H as (d & d' & Hk & _ & Hr & -> & _); [|done]. split; [done|].
    unfold mp_measure. pose proof (measure_part s k d d' Hk) as Hm.
    assert (dying_weight (set_part k d' s) = dying_weight s) as ->.
    { unfold dying_weight. simpl. by rewrite length_insert. }
    destruct (measure_run d i d' Hr) as [?|[(L & Q & D) [-> ?]]]; [destruct (idle_step _ _); lia|].
    simpl idle_step. rewrite Hk, L. unfold queue_empty. rewrite Q, D. simpl in *. lia.
  - unfold leave in H. by rewrite (li_threads s Hli Hy), lookup_empty in H.
  - pose proof (li_range s Hli) as Hlt. unfold destruct_step in H. unfold mp_measure, dying_weight at 2. simpl idle_step.
    destruct (destructor s) as [|g|g|] eqn:E; [done|..|done].
    + destruct (parts s !! deleted s) as [d|] eqn:Hk.
      * apply on_part_call in H as (d0 & d' & Hk' & _ & Hc & _ & ->); [|done]. assert (d0 = d) as -> by congruence.
        split; [done|]. pose proof (measure_part s _ d d' Hk) as Hm. pose proof (lookup_lt_Some _ _ _ Hk).
        unfold call in Hc. case_match eqn:Hmay; [|done]. injection Hc as <-.
        apply andb_prop in Hmay as [[Hi%bool_decide_eq_true _]%andb_prop _].
        assert (measure (goto (local (deleted s) g) DLock d) = 4 + measure d) as E4.
        { unfold measure. simpl. rewrite map_weight_insert by done. simpl. lia. }
        unfold dying_weight. simpl in *. rewrite length_insert. lia.
      * injection H as <-. split; [done|]. unfold dying_weight. simpl. lia.
    + destruct (parts s !! deleted s) as [d|] eqn:Hk; [|done]. case_decide; [|done]. injection H as <-.
      split; [done|]. pose proof (lookup_lt_Some _ _ _ Hk). unfold dying_weight. simpl. lia.
Qed.

Lemma steps_quiet l s s' :
  mp_inv s → destructor s ≠ Alive → Forall quiet l → mp_steps l s = Some (Ok s') →
  mp_inv s' ∧ destructor s' ≠ Alive ∧ length l + mp_measure s' ≤ mp_measure s + 2 * idle_steps l s.
Proof.
  revert s. induction l as [|a l IH]; intros s Hs Hy Hq H; simpl in H; [injection H as <-; simpl; split_and!; [done..|lia]|].
  apply Forall_cons in Hq as [Ha Hq]. destruct (mp_step a s) as [[s1|]|] eqn:H1; [|done..].
  destruct (measure_quiet s a s1) as [Hy1 Hm]; [done..|].
  destruct (IH s1) as (Hs' & Hy' & Hl); [by eapply mp_inv_step, H1; [|apply quiet_allowed]|done..|].
  split_and!; [done..|]. simpl. rewrite H1. destruct (idle_step a s); lia.
Qed.

(** ** It ends *)

Lemma mp_steps_app l1 l2 s s' : mp_steps l1 s = Some (Ok s') → mp_steps (l1 ++ l2) s = mp_steps l2 s'.
Proof.
  revert s. induction l1 as [|a l1 IH]; intros s H; simpl in *; [by injection H as ->|].
  destruct (mp_step a s) as [[s1|]|]; [by apply IH|done..].
Qed.

(** The steps of one part, when no thread is outside. *)
Lemma inner_steps l s k d d' :
  parts s !! k = Some d → ¬ k < deleted s → threads s = ∅ → steps (Run <$> l) d = Some (Ok d') →
  mp_steps (Inner k <$> l) s = Some (Ok (set_part k d' s)).
Proof.
  revert s d. induction l as [|i l IH]; intros s d Hk Hlt Ht H; simpl in H.
  { injection H as ->. simpl. unfold set_part. rewrite list_insert_id by done. by destruct s. }
  destruct (run i d) as [[d1|]|] eqn:Hr; [|done..].
  assert (inner k i s = Some (Ok (set_part k d1 s))) as E.
  { unfold inner. rewrite Hk, decide_False, decide_False by (first [done|rewrite Ht, lookup_empty; by intros (_ & _ & [? ?])]).
    unfold on_part. by rewrite Hk, decide_False, Hr by done. }
  rewrite fmap_cons. cbn [mp_steps mp_step]. rewrite E. pose proof (lookup_lt_Some _ _ _ Hk).
  rewrite (IH (set_part k d1 s) d1); [|by apply list_lookup_insert_eq|done..].
  unfold set_part. simpl. by rewrite list_insert_insert_eq.
Qed.

(** A thread that has begun to destroy a part, which nobody else uses, gets to
    the point from which the part dies. *)
Lemma destroyer_dies d i c :
  inv d → calls d = {[i := c]} → destroys c = true →
  ∃ l d', steps (Run <$> l) d = Some (Ok d') ∧ EventDispatcher.isDying_ (disp d') = true.
Proof.
  intros Hd Hc Hx.
  assert (owner d MStopped = None ∨ c = DStop ∨ c = DDie) as Hown.
  { destruct (owner d MStopped) as [j|] eqn:Ho; [right|by left].
    apply (lo_owner d (inv_locks d Hd)) in Ho. unfold holds in Ho. rewrite Hc in Ho.
    destruct (decide (i = j)) as [<-|Hne]; [rewrite lookup_singleton_eq in Ho; by destruct c; auto|].
    rewrite lookup_singleton_ne in Ho by done. case_decide; [|done]. by destruct (loop d). }
  assert (∀ d0 c0, calls d0 = {[i := c0]} → run i d0 = call_step i c0 d0) as Hrun.
  { intros d0 c0 E. apply run_at. by rewrite E, lookup_singleton_eq. }
  destruct c; try done; [destruct Hown as [Ho|[?|?]]; [|done..]; exists [i; i; i]|exists [i; i]|exists [i]|exists []].
  1-3: eexists; split; [simpl; rewrite (Hrun d _ Hc); simpl; unfold lock; rewrite ?Ho;
    repeat (erewrite run_at by (simpl; apply lookup_insert_eq); simpl); reflexivity|done].
  exists d. split; [done|]. apply (fl_join d (inv_flags d Hd) i). by rewrite Hc, lookup_singleton_eq.
Qed.

Lemma steps_inv l d d' : inv d → steps l d = Some (Ok d') → inv d'.
Proof.
  revert d. induction l as [|a l IH]; intros d Hd H; simpl in H; [by injection H as <-|].
  destruct (step a d) as [[d1|]|] eqn:E; [|done..]. eapply IH; [|exact H]. by eapply inv_step.
Qed.

(** Such a part can be brought to an end. *)
Lemma part_ends d i :
  inv d → (∀ j c, calls d !! j = Some c → j = i ∧ destroys c = true) → is_Some (calls d !! i) →
  ∃ l d', steps (Run <$> l) d = Some (Ok d') ∧ calls d' = ∅.
Proof.
  intros Hd Hc [c Hi]. assert (calls d = {[i := c]}) as E.
  { apply map_eq. intros j. destruct (decide (i = j)) as [<-|Hne]; [by rewrite lookup_singleton_eq|].
    rewrite lookup_singleton_ne by done. destruct (calls d !! j) as [c'|] eqn:Hj; [|done].
    by destruct (Hc j c' Hj) as [-> _]. }
  destruct (destroyer_dies d i c) as (l1 & d1 & H1 & Hdy); [done|done|by eapply Hc|].
  destruct (run_until_stuck d1 Hdy) as (l2 & d2 & H2 & Hst).
  exists (l1 ++ l2), d2. rewrite fmap_app, (steps_app _ _ _ _ H1). split; [done|].
  by destruct (stuck_done d2) as (_ & ? & _); [eapply steps_inv, H2; by eapply steps_inv, H1|..].
Qed.

(** What the destructor leaves. *)
Definition all_done s : Prop :=
  ∀ k d, parts s !! k = Some d → k < deleted s ∧ loop d = LDone ∧ calls d = ∅ ∧ tasks d = ∅.

Lemma gone_done s : mp_inv s → destructor s = Gone → all_done s.
Proof.
  intros [Hro [H1 H2 H3 H4 H5 H6 H7 H9 H8]] Hy k d Hk. pose proof (lookup_lt_Some _ _ _ Hk).
  assert (k < deleted s) as Hlt by (rewrite H7 by done; done).
  assert (calls d = ∅) as Hc.
  { apply map_empty. intros i. destruct (calls d !! i) as [c|] eqn:Hi; [|done].
    destruct (H1 k d i c Hk Hi) as (g & _ & [Ht|(? & _)]); [|congruence].
    by rewrite H3, lookup_empty in Ht by congruence. }
  pose proof (ro_parts s Hro k d Hk) as [_ Hf _ Ho _]. pose proof (H4 k d Hk Hlt) as Hl.
  split_and!; [done..|]. apply nothing_live; [done|by apply (fl_done d Hf)|by rewrite Hl|done].
Qed.

Lemma destroy_progress s :
  mp_inv s → destructor s ≠ Alive → destructor s ≠ Gone →
  ∃ l s', Forall quiet l ∧ mp_steps l s = Some (Ok s') ∧
    match destructor s, destructor s' with
    | Deleting _, (Joining _ | Gone) => deleted s' = deleted s
    | Joining _, Deleting _ => deleted s' = S (deleted s)
    | _, _ => False
    end ∧ length (parts s') = length (parts s).
Proof.
  intros Hs Hy Hg. pose proof Hs as [Hro Hli]. pose proof (li_range s Hli).
  destruct (destructor s) as [|g|g|] eqn:E; [done|..|done].
  - exists [Destruct]. destruct (parts s !! deleted s) as [d|] eqn:Hk.
    + pose proof (lookup_lt_Some _ _ _ Hk). pose proof (li_client s Hli g (or_introl E)).
      assert (call (local (deleted s) g) Destroy d = Some (Ok (goto (local (deleted s) g) DLock d))) as Hc.
      { unfold call, may_call, local. rewrite decide_False by lia.
        destruct (calls d !! S g) as [c|] eqn:Hc; [|done].
        destruct (li_calls s Hli _ _ _ _ Hk Hc) as (g' & _ & [Ht|(? & _)]); [|congruence].
        by rewrite (li_threads s Hli), lookup_empty in Ht by congruence. }
      eexists. split; [by repeat constructor|]. split.
      * simpl. unfold destruct_step, on_part. rewrite E, Hk, decide_False, Hc by lia. reflexivity.
      * split; [done|]. simpl. apply length_insert.
    + eexists. split; [by repeat constructor|]. split; [simpl; unfold destruct_step; rewrite E, Hk; reflexivity|done].
  - pose proof (li_joining s Hli g E) as Hlt. destruct (lookup_lt_is_Some_2 _ _ Hlt) as [d Hk].
    assert (threads s = ∅) as Ht by (apply (li_threads s Hli); congruence).
    assert (∃ l d', steps (Run <$> l) d = Some (Ok d') ∧ calls d' !! local (deleted s) g = None) as (l & d' & Hl & Hn).
    { destruct (calls d !! local (deleted s) g) as [c|] eqn:Hc; [|by exists [], d].
      destruct (part_ends d (local (deleted s) g)) as (l & d' & Hl & Hn); [by eapply ro_parts| |by rewrite Hc|].
      - intros i c' Hi. destruct (li_calls s Hli _ _ _ _ Hk Hi) as (g' & -> & [Hg'|(E' & _ & ?)]).
        + by rewrite Ht, lookup_empty in Hg'.
        + split; [congruence|done].
      - exists l, d'. by rewrite Hn, lookup_empty. }
    exists ((Inner (deleted s) <$> l) ++ [Destruct]). eexists. split; [|split].
    + apply Forall_app. split; [|by repeat constructor]. apply Forall_fmap, Forall_forall. done.
    + erewrite mp_steps_app by (eapply inner_steps; [exact Hk|lia|done|exact Hl]).
      simpl. unfold destruct_step. simpl. rewrite E, list_lookup_insert_eq, decide_True by done. reflexivity.
    + split; [done|]. simpl. apply length_insert.
Qed.

Lemma destroy_ends s :
  mp_inv s → destructor s ≠ Alive →
  ∃ l s', Forall quiet l ∧ mp_steps l s = Some (Ok s') ∧ destructor s' = Gone.
Proof.
  pose (left s := match destructor s with
    | Deleting _ => 2 * (length (parts s) - deleted s) + 1 | Joining _ => 2 * (length (parts s) - deleted s) | _ => 0 end).
  remember (left s) as n eqn:Hn. revert s Hn. induction n as [n IH] using lt_wf_ind. intros s -> Hs Hy.
  destruct (decide (destructor s = Gone)) as [Hg|Hg]; [by exists [], s|].
  destruct (destroy_progress s Hs Hy Hg) as (l & s1 & Hq & Hl & Hs1 & Elen).
  destruct (steps_quiet l s s1) as (Hi1 & Hy1 & _); [done..|].
  destruct (IH (left s1)) with (s := s1) as (l' & s' & Hq' & Hl' & Hg'); [|done..|].
  { pose proof (li_range s (proj2 Hs)). pose proof (li_range s1 (proj2 Hi1)). unfold left. rewrite Elen in *.
    pose proof (li_joining s (proj2 Hs)) as Hj.
    destruct (destructor s) eqn:E, (destructor s1) eqn:E1; try done; try specialize (Hj _ eq_refl); lia. }
  exists (l ++ l'), s'. split; [by apply Forall_app|]. by rewrite (mp_steps_app _ _ _ _ Hl).
Qed.

(** C12: [~MPEventDispatcher] does not hang and leaks nothing, if its clients begin
    no calls any more: every schedule has at most a number of steps that is known
    in advance, up to those in which the loop of a dispatcher whose turn has not
    come wakes up and finds nothing to do; from every state on the way it can be
    brought to its end; and then every dispatcher is deleted, its loop has
    returned, no call is under way in it and none of its tasks is live. *)
Theorem mp_destroy_terminates n s :
  0 < n → (Z.of_nat n < size_t_mod)%Z → mp_reachable n s → destructor s ≠ Alive →
  (∀ l s', Forall quiet l → mp_steps l s = Some (Ok s') →
     length l ≤ mp_measure s + 2 * idle_steps l s ∧
     (destructor s' = Gone → all_done s') ∧
     ∃ l' s'', Forall quiet l' ∧ mp_steps l' s' = Some (Ok s'') ∧ destructor s'' = Gone).
Proof.
  intros Hn Hb Hr%mp_inv_reachable Hy l s' Hq Hl; [|done..].
  destruct (steps_quiet l s s') as (Hs' & Hy' & Hm); [done..|].
  split_and!; [lia|by apply gone_done|by apply destroy_ends].
Qed.

(** A call that begins while the dispatchers are being deleted, from the body of a
    task of one that is still alive, uses the deleted one if that is the home of
    the group. *)
Theorem mp_destroy_use_after_free n s g u k :
  0 < n → (Z.of_nat n < size_t_mod)%Z → mp_reachable n s → destructor s ≠ Gone →
  may_begin g (MPEnqueue (Some u)) s = true → home s (id u) = Some k → k < deleted s →
  mp_step (Begin g (MPEnqueue (Some u))) s = Some (Fault UseAfterFree).
Proof.
  intros Hn Hb Hr%mp_inv_reachable Hg Hmay Hh Hlt; [|done..]. simpl. unfold begin. rewrite Hmay.
  destruct (choose_ok s (id u) Hr) as (j & d & s1 & -> & Ep & Hj & _ & _ & Ed & _ & _ & Hh1 & Hh2).
  apply Hh2 in Hh. assert (j = k) as -> by congruence.
  unfold on_part. rewrite Ep, Hj, Ed, decide_True by done. by destruct (destructor s).
Qed.

(** * Concrete runs *)

#[export] Instance allowed_dec a s : Decision (allowed a s).
Proof. destruct a as [g [[u|]|i|]| | |]; simpl; apply _. Defined.

Fixpoint mp_run (l : list mp_action) s : option mpsys :=
  match l with
  | [] => Some s
  | a :: l =>
    if decide (allowed a s) then match mp_step a s with Some (Ok s') => mp_run l s' | _ => None end else None
  end.

Lemma mp_run_reachable n l s s' : mp_reachable n s → mp_run l s = Some s' → mp_reachable n s'.
Proof.
  revert s. induction l as [|a l IH]; intros s Hr H; simpl in H; [by injection H as <-|].
  case_decide; [|done]. destruct (mp_step a s) as [[s1|]|] eqn:E; [|done..].
  eapply IH; [|exact H]. by eapply mp_reachable_step.
Qed.

End mp.

Section demo.
#[local] Instance demo_build : MPEventDispatcher.Build := MPEventDispatcher.hashing_build.

(** Client [g] enqueues a task of group [z] in part [k]. *)
Definition t_enqueue g k z : list (mp_action (T := unit)) :=
  Begin g (MPEnqueue (Some (new () z))) :: replicate 6 (Inner k (S g)) ++ [Leave g].

(** Clients 2 and 3 enqueue tasks of the groups 0 and 1; both loops start them. *)
Definition t_parallel : list (mp_action (T := unit)) :=
  t_enqueue 2 0 0 ++ t_enqueue 3 1 1 ++ replicate 5 (Inner 0 0) ++ replicate 5 (Inner 1 0).

(** Client 5 destroys the object; the first dispatcher comes to its end while the
    loop of the second is in a task. *)
Definition t_destroying : list (mp_action (T := unit)) :=
  t_parallel ++ [Begin 5 MPDestroy; Destruct] ++ replicate 3 (Inner 0 6) ++ replicate 9 (Inner 0 0) ++ [Inner 0 6; Destruct].

Definition t_state l : mpsys (T := unit) := default (new_system 2) (mp_run l (new_system 2)).

Lemma t_reachable l : mp_reachable 2 (t_state l).
Proof.
  unfold t_state. destruct (mp_run l (new_system 2)) as [s|] eqn:E; [|constructor].
  eapply mp_run_reachable, E. constructor.
Qed.

Lemma mp_safe_witness :
  allowed (Begin 2 (MPEnqueue (Some (new () 7)))) (t_state t_parallel) ∧
  mp_step (Begin 2 (MPEnqueue (Some (new () 7)))) (t_state t_parallel) ≠ Some (Fault UseAfterFree).
Proof.
  assert (allowed (Begin 2 (MPEnqueue (Some (new () 7)))) (t_state t_parallel)) as Ha by (by vm_compute).
  split; [exact Ha|]. apply (mp_safe 2); [lia|by vm_compute|apply t_reachable|exact Ha].
Defined.

Lemma same_group_serial_witness :
  ∃ d0 d1 u0 u1, parts (t_state t_parallel) !! 0 = Some d0 ∧ parts (t_state t_parallel) !! 1 = Some d1 ∧
    loop d0 = LExec 1%positive ∧ loop d1 = LExec 1%positive ∧
    tasks d0 !! 1%positive = Some u0 ∧ tasks d1 !! 1%positive = Some u1 ∧ id u0 ≠ id u1.
Proof.
  destruct (same_group_serial 2 (t_state t_parallel)) as (H & _ & H3); [lia|by vm_compute|apply t_reachable|].
  destruct (parts (t_state t_parallel) !! 0) as [d0|] eqn:E0; [|vm_compute in E0; discriminate E0].
  destruct (parts (t_state t_parallel) !! 1) as [d1|] eqn:E1; [|vm_compute in E1; discriminate E1].
  assert (loop d0 = LExec 1%positive) as L0 by (vm_compute in E0; injection E0 as <-; reflexivity).
  assert (loop d1 = LExec 1%positive) as L1 by (vm_compute in E1; injection E1 as <-; reflexivity).
  destruct (H3 0 d0 E0) as (_ & _ & _ & Hl0). destruct (Hl0 _ L0) as (u0 & T0 & _).
  destruct (H3 1 d1 E1) as (_ & _ & _ & Hl1). destruct (Hl1 _ L1) as (u1 & T1 & _).
  exists d0, d1, u0, u1. split; [reflexivity|]. split; [reflexivity|]. split; [exact L0|]. split; [exact L1|].
  split; [exact T0|]. split; [exact T1|]. intros E.
  destruct (H 0 1 d0 d1 _ _ u0 u1 E0 E1 L0 L1 T0 T1 E) as [[=] _].
Defined.

Lemma mp_destroy_terminates_witness :
  destructor (t_state t_destroying) = Deleting 5 ∧
  ∃ l s', mp_steps l (t_state t_destroying) = Some (Ok s') ∧ destructor s' = Gone.
Proof.
  split; [by vm_compute|].
  destruct (mp_destroy_terminates 2 (t_state t_destroying)) with (l := @nil (mp_action (T := unit))) (s' := t_state t_destroying)
    as (_ & _ & l & s' & _ & Hl & Hg);
    [lia|by vm_compute|apply t_reachable|by vm_compute|constructor|reflexivity|].
  exists l, s'. split; [exact Hl|exact Hg].
Defined.

Lemma mp_destroy_use_after_free_witness :
  mp_step (Begin 1 (MPEnqueue (Some (new () 0)))) (t_state t_destroying) = Some (Fault UseAfterFree).
Proof.
  apply (mp_destroy_use_after_free 2 (t_state t_destroying) 1 (new () 0) 0);
    [lia|by vm_compute|apply t_reachable|by vm_compute|by vm_compute|by vm_compute|by vm_compute].
Defined.

End demo.
End MPLoop.
