(* ===== verification/Dispatcher.v ===== *)
(** lib/dispatcher.cc: the facade, a process-wide object in front of a single
    or a multiple event dispatcher. *)
From S2P Require Import Prelude EventDispatcher MPEventDispatcher.

Module Dispatcher.
Import UnitTask.

(** The object behind [eventDispatcher_], a pointer to the interface: which of
    the two classes it has is what a virtual call looks at. *)
Inductive implementation :=
  | Single (d : EventDispatcher.EventDispatcher)
  | Multiple (p : MPEventDispatcher.MPEventDispatcher).

(** The state is the static member [instance_]; a heap of tasks is next to it. *)
Record Dispatcher := mkDispatcher {
  eventDispatcher_ : implementation;
}.

Section dispatcher.
Context `{HB : MPEventDispatcher.Build} {T : Type}.
Implicit Types (h : heap T) (t : loc).

(** A virtual call. *)
Definition virtual {A}
    (single : prog (heap T * EventDispatcher.EventDispatcher) A)
    (multiple : prog (heap T * MPEventDispatcher.MPEventDispatcher) A)
    : prog (heap T * implementation) A := λ w,
  match w.2 with
  | Single d =>
    match single (w.1, d) with
    | Ok (a, (h, d)) => Ok (a, (h, Single d))
    | Fault e => Fault e
    end
  | Multiple p =>
    match multiple (w.1, p) with
    | Ok (a, (h, p)) => Ok (a, (h, Multiple p))
    | Fault e => Fault e
    end
  end.

Lemma virtual_single {A} (m : prog (heap T * _) A) m' h d a h' d' :
  m (h, d) = Ok (a, (h', d')) → virtual m m' (h, Single d) = Ok (a, (h', Single d')).
Proof. unfold virtual. simpl. by intros ->. Qed.

Lemma virtual_multiple {A} m (m' : prog (heap T * _) A) h p a h' p' :
  m' (h, p) = Ok (a, (h', p')) → virtual m m' (h, Multiple p) = Ok (a, (h', Multiple p')).
Proof. unfold virtual. simpl. by intros ->. Qed.

#[global] Instance implementation_interface : EventDispatcherInterface T implementation := {
  edi_enqueueTask newTask := virtual (edi_enqueueTask newTask) (edi_enqueueTask newTask);
  edi_stop := virtual edi_stop edi_stop;
  edi_resume := virtual edi_resume edi_resume;
  edi_getSize i := virtual (edi_getSize i) (edi_getSize i);
  edi_ok h i := match i with Single d => edi_ok h d | Multiple p => edi_ok h p end;
  edi_owned i := match i with
    | Single d => edi_owned (T := T) d | Multiple p => edi_owned (T := T) p end;
  edi_group h i g := match i with Single d => edi_group h d g | Multiple p => edi_group h p g end;
}.

(** ** The members *)

(** The constructor. *)
Definition new_dispatcher (concurrentDispatchers : nat) (multiprocessorMode : bool) : Dispatcher :=
  mkDispatcher
    (if multiprocessorMode then Multiple (MPEventDispatcher.new_mp concurrentDispatchers)
     else Single EventDispatcher.new_dispatcher).

Abbreviation M A := (prog (heap T * option Dispatcher) A).

(** [init] and [init(void)]; [instance()] is NULL before either. *)
Definition init (concurrentDispatchers : nat) (multiProcessorMode : bool) : M unit :=
  modify (λ _, Some (new_dispatcher concurrentDispatchers multiProcessorMode)).
Definition init_default : M unit := init 1 false.
Definition instance : M (option Dispatcher) := get.

(** [Dispatcher::instance()->m()]. *)
Definition on_instance {A} (m : prog (heap T * implementation) A) : M A :=
  let! o := instance in
  let! this := pnonnull o in
  λ w, match m (w.1, eventDispatcher_ this) with
       | Ok (a, (h, i)) => Ok (a, (h, Some (mkDispatcher i)))
       | Fault e => Fault e
       end.

Definition enqueue (newTask : option loc) : M bool := on_instance (edi_enqueueTask newTask).
Definition getSize (i : Z) : M Z := on_instance (edi_getSize i).

(** The two classes satisfy the contract of the interface, and so does a
    pointer to either. *)
#[global] Instance implementation_laws : EventDispatcherLaws T implementation.
Proof.
  split.
  - intros h [d|p] t u Hok Hu Ht Hb.
    + destruct (edi_enqueue_spec h d t u Hok Hu Ht Hb) as (h' & d' & Hr & Hok' & He).
      exists h', (Single d'). split_and!; [|done|].
      * by apply virtual_single.
      * destruct He; [by apply enqueued_taken|by apply enqueued_discarded].
    + destruct (edi_enqueue_spec h p t u Hok Hu Ht Hb) as (h' & p' & Hr & Hok' & He).
      exists h', (Multiple p'). split_and!; [|done|].
      * by apply virtual_multiple.
      * destruct He; [by apply enqueued_taken|by apply enqueued_discarded].
  - intros h [d|p] t.
    + exact (edi_ok_delete h d t).
    + exact (edi_ok_delete h p t).
  - intros h [d|p] t g.
    + exact (edi_group_delete h d t g).
    + exact (edi_group_delete h p t g).
Qed.

(** Enqueueing through the facade, whichever class is behind it: the answer
    is [true], the invariant of the dispatcher is kept, and the task is at the
    end of its group or has been deleted, while every other group stays as it
    was. *)
Theorem enqueue_contract h i t u :
  edi_ok h i → h !! t = Some u → t ∉ edi_owned (T := T) i →
  (Z.of_nat (size (edi_owned (T := T) i)) + 1 < size_t_mod)%Z →
  ∃ h' i', enqueue (Some t) (h, Some (mkDispatcher i)) = Ok (true, (h', Some (mkDispatcher i'))) ∧
    edi_ok h' i' ∧
    (h' = h ∧ edi_group h' i' (id u) = edi_group h i (id u) ++ [t] ∨
     h' = delete t h ∧ edi_group h' i' (id u) = edi_group h i (id u)) ∧
    ∀ g, g ≠ id u → edi_group h' i' g = edi_group h i g.
Proof.
  intros Hok Hu Ht Hb.
  destruct (edi_enqueue_spec h i t u Hok Hu Ht Hb) as (h' & i' & Hr & Hok' & He).
  exists h', i'. split_and!; [|done|..].
  - unfold enqueue, on_instance, instance, pbind, get, pnonnull, pret. cbn -[edi_enqueueTask].
    by rewrite Hr.
  - destruct He as [i' _ Hg _|i' Ho Hg]; [by left|right]. split; [done|].
    rewrite edi_group_delete; [done|]. by rewrite Ho.
  - intros g Hne. destruct He as [i' _ _ Hg|i' Ho Hg]; [by apply Hg|].
    rewrite edi_group_delete; [done|]. by rewrite Ho.
Qed.

(** After [init] the facade works and before it does not: [enqueue] on a
    NULL instance is a NULL dereference, and a dispatcher made by [init] is well
    formed (with one worker at least), whatever was there before. *)
Theorem init_enables h o n mp t :
  0 < n → (Z.of_nat n < size_t_mod)%Z →
  enqueue (Some t) (h, None) = Fault NullDeref ∧
  ∃ i, init n mp (h, o) = Ok (tt, (h, Some (mkDispatcher i))) ∧ edi_ok h i ∧
    ∀ g, edi_group h i g = [].
Proof.
  intros Hn Hb. split; [done|]. eexists. split; [reflexivity|].
  destruct mp; simpl.
  - split; [by apply MPEventDispatcher.ok_new_mp|]. intros g.
    unfold MPEventDispatcher.group. clear. induction n; [done|]. by csimpl in *.
  - split; [apply EventDispatcher.ok_new|done].
Qed.

End dispatcher.

Lemma enqueue_contract_witness :
  let i := eventDispatcher_ (new_dispatcher 2 true) in
  let h := MPEventDispatcher.demo_heap in
  ∃ h' i', enqueue (HB := MPEventDispatcher.hashing_build) (Some 1%positive) (h, Some (mkDispatcher i))
    = Ok (true, (h', Some (mkDispatcher i'))).
Proof.
  set (i := Multiple (MPEventDispatcher.new_mp 2)). set (h := MPEventDispatcher.demo_heap).
  destruct (enqueue_contract (HB := MPEventDispatcher.hashing_build) h i 1%positive (new () 5))
    as (h' & i' & H & _).
  - apply MPEventDispatcher.ok_new_mp; [lia|by vm_compute].
  - by vm_compute.
  - apply (bool_decide_unpack _). by vm_compute.
  - by vm_compute.
  - exists h', i'. exact H.
Defined.

Lemma init_enables_witness :
  ∃ i, init 2 true (MPEventDispatcher.demo_heap, None)
    = Ok (tt, (MPEventDispatcher.demo_heap, Some (mkDispatcher i))).
Proof.
  destruct (init_enables (HB := MPEventDispatcher.hashing_build) MPEventDispatcher.demo_heap None 2
    true 1%positive) as [_ (i & H & _)]; [lia|by vm_compute|]. by exists i.
Defined.

End Dispatcher.
