(* ===== verification/AioWrapper.v ===== *)
(** lib/aio_wrapper.cc: asynchronous reads and writes whose result is posted to
    the dispatcher.  Without [LIBEVENT_USE_SIG], the build the Makefile makes,
    a task of the dispatcher polls the operation until it is done; with it, a
    signal handler is told.

    The POSIX calls are a parameter.  A post to the dispatcher is an entry at
    the end of the list [posted]; that the dispatcher runs the posts of a group
    in that order is what [EventLoopProps] and [MPEventDispatcher] show. *)
From S2P Require Import Prelude EventDispatcher.

Module AioWrapper.
Import UnitTask.

(** The members of [struct aiocb] that the code sets; its other bytes are 0. *)
Record aiocb := mkAiocb {
  aio_buf : Z;
  aio_fildes : Z;
  aio_nbytes : Z;
  aio_offset : Z;
}.

Inductive operation := OpRead | OpWrite.

(** The asynchronous I/O of the operating system.  [aio_submit] is the call
    [::aio_read] or [::aio_write]; every call may change the system's state.
    [os_errno] is the thread's [errno]. *)
Class AIO (OS : Type) := {
  aio_submit : operation → loc → aiocb → OS → Z * OS;
  aio_error : loc → OS → Z * OS;
  aio_return : loc → OS → Z * OS;
  os_printf : OS → OS;
  os_errno : OS → Z;
}.

(** [EINPROGRESS] and [SIGIO] on Linux. *)
Definition EINPROGRESS : Z := 115.
Definition SIGIO : Z := 29.

(** [IOCallback]: the two function objects are heap objects of their own. *)
Record IOCallback := mkIOCallback {
  id : Z;
  okCB : option loc;
  errCB : option loc;
}.

(** The two constructors. *)
Definition new_IOCallback_default (ok err : option loc) : IOCallback := mkIOCallback DEFAULT_ID ok err.
Definition new_IOCallback (ok err : option loc) (id : Z) : IOCallback := mkIOCallback id ok err.

Record AIOSigHandlerInfo := mkInfo {
  info_callback : option loc;
  info_aioCB : loc;
}.

(** What [bind] makes for the dispatcher; function objects are copied. *)
Inductive aio_task (F : Type) :=
  | CheckIOProgress (aioCB : loc) (callback : option loc)
  | RunOk (f : F) (fd buf result : Z)
  | RunErr (f : F) (fd status : Z).
Arguments CheckIOProgress {F}.
Arguments RunOk {F}.
Arguments RunErr {F}.

Record world (F OS : Type) := mkWorld {
  aiocbs : gmap loc aiocb;
  callbacks : gmap loc IOCallback;
  functions : gmap loc F;
  infos : gmap loc AIOSigHandlerInfo;
  next : loc;
  os : OS;
  posted : list (UnitTask (aio_task F));
}.
Arguments mkWorld {F OS}.
Arguments aiocbs {F OS}.
Arguments callbacks {F OS}.
Arguments functions {F OS}.
Arguments infos {F OS}.
Arguments next {F OS}.
Arguments os {F OS}.
Arguments posted {F OS}.

Section aio.
Context {F OS : Type} `{HA : AIO OS}.
Implicit Types (w : world F OS).

Abbreviation M A := (prog (world F OS) A).

Definition set_aiocbs h w : world F OS := mkWorld h (callbacks w) (functions w) (infos w) (next w) (os w) (posted w).
Definition set_callbacks h w : world F OS := mkWorld (aiocbs w) h (functions w) (infos w) (next w) (os w) (posted w).
Definition set_functions h w : world F OS := mkWorld (aiocbs w) (callbacks w) h (infos w) (next w) (os w) (posted w).
Definition set_infos h w : world F OS := mkWorld (aiocbs w) (callbacks w) (functions w) h (next w) (os w) (posted w).
Definition set_next n w : world F OS := mkWorld (aiocbs w) (callbacks w) (functions w) (infos w) n (os w) (posted w).
Definition set_os o w : world F OS := mkWorld (aiocbs w) (callbacks w) (functions w) (infos w) (next w) o (posted w).
Definition set_posted q w : world F OS := mkWorld (aiocbs w) (callbacks w) (functions w) (infos w) (next w) (os w) q.

(** ** Primitives *)

Definition load {A} (h : world F OS → gmap loc A) (l : loc) : M A := λ w,
  match h w !! l with Some a => Ok (a, w) | None => Fault UseAfterFree end.
Definition free {A} (h : world F OS → gmap loc A) (set : gmap loc A → world F OS → world F OS)
    (l : loc) : M unit := λ w,
  match h w !! l with Some _ => Ok (tt, set (delete l (h w)) w) | None => Fault DoubleFree end.
Definition sys (f : OS → Z * OS) : M Z := λ w, let '(r, o) := f (os w) in Ok (r, set_os o w).

(** [Dispatcher::instance()->enqueue(new UnitTask(task, id))]. *)
Definition post (task : aio_task F) (id : Z) : M unit :=
  pmodify (λ w, set_posted (posted w ++ [new task id]) w).

(** [delete] of a possibly NULL function object, and [~IOCallback]. *)
Definition delete_function (p : option loc) : M unit :=
  match p with Some f => free functions set_functions f | None => pret tt end.
Definition delete_IOCallback (c : loc) : M unit :=
  let! cb := load callbacks c in
  delete_function (okCB cb) ;;;
  delete_function (errCB cb) ;;;
  free callbacks set_callbacks c.

Definition delete_aiocb (a : loc) : M unit := free aiocbs set_aiocbs a.

(** ** Notification *)

(** The two posts: the function object and the fields of the control block
    are copied into the task. *)
Definition post_ok (cb : IOCallback) (f : loc) (aioCB : loc) : M unit :=
  let! ioResult := sys (aio_return aioCB) in
  let! fn := load functions f in
  let! a := load aiocbs aioCB in
  post (RunOk fn (aio_fildes a) (aio_buf a) ioResult) (id cb).
Definition post_err (cb : IOCallback) (f : loc) (aioCB : loc) (status : Z) : M unit :=
  let! fn := load functions f in
  let! a := load aiocbs aioCB in
  post (RunErr fn (aio_fildes a) status) (id cb).

Definition checkIOProgress (aioCB : loc) (callback : option loc) : M unit :=
  let! _ := load aiocbs aioCB in
  let! status := sys (aio_error aioCB) in
  if decide (status = EINPROGRESS) then
    let! c := pnonnull callback in
    let! cb := load callbacks c in
    post (CheckIOProgress aioCB callback) (id cb)
  else
    match callback with
    | Some c =>
      let! cb := load callbacks c in
      (if decide (status = 0)%Z then
         match okCB cb with Some f => post_ok cb f aioCB | None => pret tt end
       else
         match errCB cb with Some f => post_err cb f aioCB status | None => pret tt end) ;;;
      delete_IOCallback c
    | None => pret tt
    end ;;;
    delete_aiocb aioCB.

(** [~AIOSigHandlerInfo] and its release. *)
Definition delete_info (i : loc) : M unit :=
  let! info := load infos i in
  match info_callback info with Some c => delete_IOCallback c | None => pret tt end ;;;
  delete_aiocb (info_aioCB info) ;;;
  free infos set_infos i.

(** [aioDone]; [aio_done] has the same body behind a test of the signal. *)
Definition aioDone (origInfo : loc) : M unit :=
  let! info := load infos origInfo in
  let aioCB := info_aioCB info in
  let! _ := load aiocbs aioCB in
  let! status := sys (aio_error aioCB) in
  match info_callback info with
  | Some c =>
    let! cb := load callbacks c in
    if decide (status = 0)%Z then
      match okCB cb with Some f => post_ok cb f aioCB | None => pret tt end
    else
      match errCB cb with Some f => post_err cb f aioCB status | None => pret tt end
  | None => pret tt
  end ;;;
  delete_info origInfo.

Definition aio_done (si_signo : Z) (origInfo : loc) : M unit :=
  if decide (si_signo = SIGIO) then aioDone origInfo else pret tt.

(** ** Submission *)

Definition new_aiocb (a : aiocb) : M loc := λ w,
  Ok (next w, set_next (Pos.succ (next w)) (set_aiocbs (<[next w := a]> (aiocbs w)) w)).
Definition new_info (i : AIOSigHandlerInfo) : M loc := λ w,
  Ok (next w, set_next (Pos.succ (next w)) (set_infos (<[next w := i]> (infos w)) w)).

(** The failure branch without signals. *)
Definition submit_failed (aioCB : loc) (callback : option loc) : M unit :=
  match callback with
  | Some c =>
    let! cb := load callbacks c in
    match errCB cb with
    | Some f => let! w := pget in post_err cb f aioCB (os_errno (os w))
    | None => pret tt
    end ;;;
    delete_IOCallback c
  | None => pret tt
  end ;;;
  delete_aiocb aioCB.

(** [use_sig]: whether [LIBEVENT_USE_SIG] is defined. *)
Definition aioSkeletonFunction (use_sig : bool) (aio_func : operation)
    (fd buff len offset : Z) (callback : option loc) : M Z :=
  let a := mkAiocb buff fd len offset in
  let! aioCB := new_aiocb a in
  let! info := if use_sig then
      let! i := new_info (mkInfo callback aioCB) in pret (Some i)
    else pret None in
  let! ret := sys (aio_submit aio_func aioCB a) in
  (if decide (0 ≤ ret)%Z then
     match info with
     | Some _ => pret tt
     | None => checkIOProgress aioCB callback
     end
   else
     pmodify (λ w, set_os (os_printf (os w)) w) ;;;
     match info with
     | Some i => delete_info i
     | None => submit_failed aioCB callback
     end) ;;;
  pret ret.

Definition aio_read (use_sig : bool) := aioSkeletonFunction use_sig OpRead.
Definition aio_write (use_sig : bool) := aioSkeletonFunction use_sig OpWrite.

(** ** The dispatcher's side *)

(** Run the oldest post, if it is a poll; the callbacks of the client are its
    own business and are taken off the list by it. *)
Definition poll : M unit :=
  let! w := pget in
  match posted w with
  | [] => pret tt
  | u :: q =>
    pmodify (set_posted q) ;;;
    match task u with
    | CheckIOProgress aioCB callback => checkIOProgress aioCB callback
    | _ => pret tt
    end
  end.
(** * Specification *)

(** A callback with its function objects. *)
Record live w (c : loc) (cb : IOCallback) : Prop := {
  live_cb : callbacks w !! c = Some cb;
  live_ok f : okCB cb = Some f → is_Some (functions w !! f);
  live_err f : errCB cb = Some f → is_Some (functions w !! f);
  live_ne f : okCB cb = Some f → errCB cb ≠ Some f;
}.

Definition delete_opt {A} (p : option loc) (h : gmap loc A) : gmap loc A :=
  match p with Some l => delete l h | None => h end.

(** The callback and its function objects are gone. *)
Definition release (c : loc) (cb : IOCallback) w : world F OS :=
  set_callbacks (delete c (callbacks w))
    (set_functions (delete_opt (errCB cb) (delete_opt (okCB cb) (functions w))) w).

Definition post_opt (o : option (UnitTask (aio_task F))) w : world F OS :=
  set_posted (posted w ++ match o with Some u => [u] | None => [] end) w.

(** The notification of a finished operation, and the system's state after
    its result has been asked for. *)
Definition notification w (cb : IOCallback) (a : loc) (ab : aiocb) (status : Z) :
    option (UnitTask (aio_task F)) :=
  if decide (status = 0)%Z then
    f ← okCB cb; fn ← functions w !! f;
    Some (new (RunOk fn (aio_fildes ab) (aio_buf ab) (aio_return a (os w)).1) (id cb))
  else
    f ← errCB cb; fn ← functions w !! f;
    Some (new (RunErr fn (aio_fildes ab) status) (id cb)).

Definition result_taken w (cb : IOCallback) (a : loc) (status : Z) : OS :=
  if decide (status = 0)%Z then
    match okCB cb with Some _ => (aio_return a (os w)).2 | None => os w end
  else os w.

Lemma load_at {A} (h : world F OS → gmap loc A) l a w : h w !! l = Some a → load h l w = Ok (a, w).
Proof. unfold load. by intros ->. Qed.

Lemma sys_ok f w : sys f w = Ok ((f (os w)).1, set_os (f (os w)).2 w).
Proof. unfold sys. by destruct (f (os w)). Qed.

Lemma delete_function_ok p w :
  (∀ f, p = Some f → is_Some (functions w !! f)) →
  delete_function p w = Ok (tt, set_functions (delete_opt p (functions w)) w).
Proof.
  intros Hp. destruct p as [f|]; simpl; [|by destruct w].
  unfold free. by destruct (Hp f eq_refl) as [fn ->].
Qed.

Lemma delete_IOCallback_ok w c cb : live w c cb → delete_IOCallback c w = Ok (tt, release c cb w).
Proof.
  intros [Hc Hok Herr Hne]. unfold delete_IOCallback.
  rewrite (pbind_ok _ _ _ _ _ (load_at _ _ _ _ Hc)).
  rewrite (pbind_ok _ _ _ _ _ (delete_function_ok _ _ Hok)).
  erewrite pbind_ok; [|apply delete_function_ok].
  - unfold free. simpl. by rewrite Hc.
  - intros f Hf. simpl. destruct (okCB cb) as [g|]; simpl; [|by apply Herr].
    rewrite lookup_delete_ne; [by apply Herr|]. intros ->. by apply (Hne f).
Qed.

Lemma delete_aiocb_ok w a ab :
  aiocbs w !! a = Some ab → delete_aiocb a w = Ok (tt, set_aiocbs (delete a (aiocbs w)) w).
Proof. unfold delete_aiocb, free. by intros ->. Qed.

(** The part of the handlers that decides whom to tell. *)
Definition notify (cb : IOCallback) (aioCB : loc) (status : Z) : M unit :=
  if decide (status = 0)%Z then
    match okCB cb with Some f => post_ok cb f aioCB | None => pret tt end
  else
    match errCB cb with Some f => post_err cb f aioCB status | None => pret tt end.

Lemma post_opt_None w : post_opt None w = w.
Proof. unfold post_opt. rewrite app_nil_r. by destruct w. Qed.

Lemma notify_ok w c cb a ab st :
  live w c cb → aiocbs w !! a = Some ab →
  notify cb a st w =
    Ok (tt, post_opt (notification w cb a ab st) (set_os (result_taken w cb a st) w)).
Proof.
  intros [Hc Hok Herr Hne] Ha. unfold notify, notification, result_taken.
  destruct (decide (st = 0)%Z).
  - destruct (okCB cb) as [f|]; simpl; [|rewrite post_opt_None; by destruct w].
    destruct (Hok f eq_refl) as [fn Hf]. rewrite Hf. unfold post_ok.
    rewrite (pbind_ok _ _ _ _ _ (sys_ok _ _)).
    rewrite (pbind_ok _ _ _ fn (set_os (aio_return a (os w)).2 w)) by by apply load_at.
    by rewrite (pbind_ok _ _ _ ab (set_os (aio_return a (os w)).2 w)) by by apply load_at.
  - destruct (errCB cb) as [f|]; simpl; [|rewrite post_opt_None; by destruct w].
    destruct (Herr f eq_refl) as [fn Hf]. rewrite Hf. unfold post_err.
    rewrite (pbind_ok _ _ _ fn w) by by apply load_at.
    rewrite (pbind_ok _ _ _ ab w) by by apply load_at. by destruct w.
Qed.

Lemma live_post w c cb o s : live w c cb → live (post_opt o (set_os s w)) c cb.
Proof. by intros []. Qed.

Lemma live_os w c cb s : live w c cb → live (set_os s w) c cb.
Proof. by intros []. Qed.

(** A finished operation: tell the client, release everything. *)
Definition finish (cb : IOCallback) (c a : loc) (ab : aiocb) (st : Z) w : world F OS :=
  let w' := release c cb (post_opt (notification w cb a ab st) (set_os (result_taken w cb a st) w)) in
  set_aiocbs (delete a (aiocbs w')) w'.

Lemma checkIOProgress_eq w a ab c cb :
  live w c cb → aiocbs w !! a = Some ab →
  let st := (aio_error a (os w)).1 in
  let w1 := set_os (aio_error a (os w)).2 w in
  checkIOProgress a (Some c) w = Ok (tt,
    if decide (st = EINPROGRESS) then post_opt (Some (new (CheckIOProgress a (Some c)) (id cb))) w1
    else finish cb c a ab st w1).
Proof. 
  intros Hl Ha st w1. pose proof (live_os w c cb (aio_error a (os w)).2 Hl) as Hl1.
  unfold checkIOProgress. rewrite (pbind_ok _ _ _ _ _ (load_at _ _ _ _ Ha)).
  rewrite (pbind_ok _ _ _ _ _ (sys_ok _ _)). fold st w1. destruct (decide (st = EINPROGRESS)).
  - rewrite (pbind_ok _ _ _ c w1) by done.
    by rewrite (pbind_ok _ _ _ cb w1) by apply load_at, Hl1.
  - rewrite pbind_assoc. rewrite (pbind_ok _ _ _ cb w1) by apply load_at, Hl1.
    rewrite pbind_assoc. fold (notify cb a st).
    rewrite (pbind_ok _ _ _ _ _ (notify_ok w1 c cb a ab st Hl1 Ha)).
    rewrite (pbind_ok _ _ _ _ _ (delete_IOCallback_ok _ c cb (live_post _ _ _ _ _ Hl1))).
    by apply (delete_aiocb_ok _ a ab).
Qed.

(** One look at an operation: still in progress, another look is posted in
    the group of the callback and nothing else happens; finished, the callback
    that the status asks for, if the client gave one, is posted once, in its
    group, with the operation's descriptor, buffer and result, and control
    block, callback and function objects are released. *)
Theorem checkIOProgress_correct w a ab c cb :
  live w c cb → aiocbs w !! a = Some ab →
  let st := (aio_error a (os w)).1 in
  let w1 := set_os (aio_error a (os w)).2 w in
  checkIOProgress a (Some c) w = Ok (tt,
    if decide (st = EINPROGRESS) then post_opt (Some (new (CheckIOProgress a (Some c)) (id cb))) w1
    else finish cb c a ab st w1).
Proof. apply checkIOProgress_eq. Qed.

(** ** A whole operation *)

(** The system answers [n] times that the operation [a] is in progress, then
    that its status is [st]. *)
Inductive completes (a : loc) : nat → Z → OS → OS → Prop :=
  | completes_now o st o' :
    aio_error a o = (st, o') → st ≠ EINPROGRESS → completes a 0 st o o'
  | completes_later n st o o1 o' :
    aio_error a o = (EINPROGRESS, o1) → completes a n st o1 o' → completes a (S n) st o o'.

Fixpoint poll_n (n : nat) : M unit :=
  match n with O => pret tt | S n => poll ;;; poll_n n end.

(** What the client is owed: one call of the callback for the status. *)
Definition owed (cb : IOCallback) (fns : gmap loc F) (ab : aiocb) (st result : Z) :
    list (UnitTask (aio_task F)) :=
  match (if decide (st = 0)%Z then okCB cb else errCB cb) with
  | Some f =>
    match fns !! f with
    | Some fn =>
      [new (if decide (st = 0)%Z then RunOk fn (aio_fildes ab) (aio_buf ab) result
            else RunErr fn (aio_fildes ab) st) (id cb)]
    | None => []
    end
  | None => []
  end.

Lemma notification_owed w cb a ab st :
  match notification w cb a ab st with Some u => [u] | None => [] end =
  owed cb (functions w) ab st (aio_return a (os w)).1.
Proof.
  unfold notification, owed. destruct (decide (st = 0)%Z).
  - destruct (okCB cb) as [f|]; [|done]. simpl. by destruct (functions w !! f).
  - destruct (errCB cb) as [f|]; [|done]. simpl. by destruct (functions w !! f).
Qed.

Lemma finish_posted cb c a ab st w :
  posted (finish cb c a ab st w) = posted w ++ owed cb (functions w) ab st (aio_return a (os w)).1.
Proof. unfold finish. simpl. f_equal. apply notification_owed. Qed.

(** Polling until the operation is done. *)
Lemma poll_completes n a st o o' w c cb ab :
  completes a n st o o' → os w = o → posted w = [] → live w c cb → aiocbs w !! a = Some ab →
  ∃ w1, checkIOProgress a (Some c) w = Ok (tt, w1) ∧
    poll_n n w1 = Ok (tt, finish cb c a ab st (set_os o' w)).
Proof.
  intros Hn. revert w. induction Hn as [o st o' He Hst|n st o o1 o' He _ IH]; intros w Ho Hp Hl Ha.
  - eexists. rewrite (checkIOProgress_eq w a ab c cb Hl Ha), Ho, He. simpl.
    rewrite decide_False by done. split; [done|]. done.
  - destruct (IH (set_os o1 w)) as (w1 & H1 & Hn); [done|done|by apply live_os|done|].
    eexists. rewrite (checkIOProgress_eq w a ab c cb Hl Ha), Ho, He. simpl.
    split; [done|]. simpl. unfold poll at 1.
    rewrite pbind_assoc. rewrite (pbind_ok _ _ _ _ _ eq_refl). simpl. rewrite Hp. simpl.
    rewrite !pbind_assoc. rewrite (pbind_ok _ _ _ tt (set_os o1 w)).
    + simpl. by rewrite (pbind_ok _ _ _ _ _ H1).
    + unfold pmodify. simpl. do 2 f_equal. unfold post_opt, set_posted, set_os. simpl. by rewrite <-Hp.
Qed.

Lemma live_new_aiocb w c cb a : live w c cb → live (set_aiocbs a w) c cb.
Proof. by intros []. Qed.

(** ** Submission *)

(** The world after the control block has been made and handed to the system. *)
Definition submitted (ab : aiocb) (o : OS) w : world F OS :=
  set_os o (set_next (Pos.succ (next w)) (set_aiocbs (<[next w := ab]> (aiocbs w)) w)).

Lemma skeleton_polling op fd buf len off p w :
  let ab := mkAiocb buf fd len off in
  let r := aio_submit op (next w) ab (os w) in
  aioSkeletonFunction false op fd buf len off p w =
    ((if decide (0 ≤ r.1)%Z then checkIOProgress (next w) p
      else pmodify (λ w, set_os (os_printf (os w)) w) ;;; submit_failed (next w) p) ;;; pret r.1)
      (submitted ab r.2 w).
Proof.
  unfold aioSkeletonFunction. rewrite (pbind_ok _ _ _ _ _ eq_refl).
  rewrite (pbind_ok _ _ _ _ _ eq_refl). by rewrite (pbind_ok _ _ _ _ _ (sys_ok _ _)).
Qed.

Definition signalled (ab : aiocb) (p : option loc) (o : OS) w : world F OS :=
  set_os o (set_next (Pos.succ (Pos.succ (next w)))
    (set_infos (<[Pos.succ (next w) := mkInfo p (next w)]> (infos w))
      (set_aiocbs (<[next w := ab]> (aiocbs w)) w))).

Lemma skeleton_signal op fd buf len off p w :
  let ab := mkAiocb buf fd len off in
  let r := aio_submit op (next w) ab (os w) in
  aioSkeletonFunction true op fd buf len off p w =
    ((if decide (0 ≤ r.1)%Z then pret tt
      else pmodify (λ w, set_os (os_printf (os w)) w) ;;; delete_info (Pos.succ (next w))) ;;; pret r.1)
      (signalled ab p r.2 w).
Proof.
  intros ab r. unfold aioSkeletonFunction, pbind, new_aiocb, new_info, pret, sys. simpl.
  fold ab. unfold r. by destruct (aio_submit op (next w) ab (os w)).
Qed.

Lemma delete_info_ok w i a ab c cb :
  infos w !! i = Some (mkInfo (Some c) a) → live w c cb → aiocbs w !! a = Some ab →
  delete_info i w = Ok (tt, set_infos (delete i (infos w))
    (set_aiocbs (delete a (aiocbs w)) (release c cb w))).
Proof.
  intros Hi Hl Ha. unfold delete_info. rewrite (pbind_ok _ _ _ _ _ (load_at _ _ _ _ Hi)).
  rewrite (pbind_ok _ _ _ _ _ (delete_IOCallback_ok w c cb Hl)).
  rewrite (pbind_ok _ _ _ _ _ (delete_aiocb_ok (release c cb w) a ab Ha)).
  unfold free. simpl. by rewrite Hi.
Qed.

Lemma live_signalled w c cb ab p o : live w c cb → live (signalled ab p o w) c cb.
Proof. by intros []. Qed.

(** Nothing of the operation is left. *)
Definition cleaned w (c : loc) (cb : IOCallback) w' : Prop :=
  aiocbs w' = aiocbs w ∧ callbacks w' = delete c (callbacks w) ∧
  functions w' = delete_opt (errCB cb) (delete_opt (okCB cb) (functions w)).

(** C28: an operation that the system accepts is reported to its client exactly
    once: whatever the number of times it is still in progress when looked at,
    after as many further polls one callback is posted, the one that the final
    status asks for (none if the client did not give that one), with the
    result of the operation, and every object made or taken over for it has
    been released. *)
Theorem io_notified_once op fd buf len off w c cb n st o' :
  let ab := mkAiocb buf fd len off in
  let r := aio_submit op (next w) ab (os w) in
  live w c cb → posted w = [] → aiocbs w !! next w = None →
  (0 ≤ r.1)%Z → completes (next w) n st r.2 o' →
  ∃ w1 w2, aioSkeletonFunction false op fd buf len off (Some c) w = Ok (r.1, w1) ∧
    poll_n n w1 = Ok (tt, w2) ∧
    posted w2 = owed cb (functions w) ab st (aio_return (next w) o').1 ∧ cleaned w c cb w2.
Proof.
  intros ab r Hl Hp Ha Hr Hn.
  destruct (poll_completes n (next w) st r.2 o' (submitted ab r.2 w) c cb ab)
    as (w1 & H1 & H2); [done|done|done| |by apply lookup_insert_eq|].
  { by destruct Hl. }
  exists w1. eexists. split_and!; [|exact H2| |].
  - rewrite skeleton_polling. fold ab r. rewrite decide_True by done.
    by rewrite (pbind_ok _ _ _ _ _ H1).
  - rewrite finish_posted. simpl. by rewrite Hp.
  - unfold cleaned, finish. simpl. by rewrite delete_insert_id.
Qed.

(** What the polling build posts for a refused operation. *)
Definition refusal (cb : IOCallback) (fns : gmap loc F) (ab : aiocb) (e : Z) : list (UnitTask (aio_task F)) :=
  match errCB cb with
  | Some f => match fns !! f with Some fn => [new (RunErr fn (aio_fildes ab) e) (id cb)] | None => [] end
  | None => []
  end.

Lemma submit_failed_ok w a ab c cb :
  live w c cb → aiocbs w !! a = Some ab →
  ∃ w', submit_failed a (Some c) w = Ok (tt, w') ∧
    posted w' = posted w ++ refusal cb (functions w) ab (os_errno (os w)) ∧
    aiocbs w' = delete a (aiocbs w) ∧ callbacks w' = delete c (callbacks w) ∧
    functions w' = delete_opt (errCB cb) (delete_opt (okCB cb) (functions w)).
Proof.
  intros Hl Ha. unfold submit_failed.
  set (w0 := set_posted (posted w ++ refusal cb (functions w) ab (os_errno (os w))) w).
  assert (live w0 c cb) as Hl0 by (by destruct Hl). eexists. split_and!.
  - rewrite pbind_assoc. rewrite (pbind_ok _ _ _ cb w) by apply load_at, Hl.
    rewrite pbind_assoc.
    assert (match errCB cb with
            | Some f => let! w0 := pget in post_err cb f a (os_errno (os w0))
            | None => pret tt end w =
            Ok (tt, w0)) as Heq.
    { unfold w0, refusal. destruct (errCB cb) as [f|] eqn:Hf; [|rewrite app_nil_r; by destruct w].
      destruct (live_err _ _ _ Hl f Hf) as [fn Hfn]. rewrite Hfn. rewrite (pbind_ok _ _ _ _ _ eq_refl).
      unfold post_err. rewrite (pbind_ok _ _ _ _ _ (load_at _ _ _ _ Hfn)), (pbind_ok _ _ _ _ _ (load_at _ _ _ _ Ha)).
      by destruct w. }
    rewrite (pbind_ok _ _ w tt _ Heq).
    rewrite (pbind_ok _ _ _ _ _ (delete_IOCallback_ok w0 c cb Hl0)).
    apply (delete_aiocb_ok (release c cb w0) a ab). exact Ha.
  - done.
  - done.
  - done.
  - done.
Qed.

(** The signal of a finished operation. *)
Lemma aioDone_eq w i a ab c cb st o' :
  infos w !! i = Some (mkInfo (Some c) a) → live w c cb → aiocbs w !! a = Some ab →
  aio_error a (os w) = (st, o') →
  aioDone i w = Ok (tt, set_infos (delete i (infos w)) (finish cb c a ab st (set_os o' w))).
Proof.
  intros Hi Hl Ha He. unfold aioDone. rewrite (pbind_ok _ _ _ _ _ (load_at _ _ _ _ Hi)).
  rewrite (pbind_ok _ _ _ _ _ (load_at _ _ _ _ Ha)), (pbind_ok _ _ _ _ _ (sys_ok _ _)). simpl info_aioCB. rewrite He.
  simpl info_callback. cbn iota. rewrite pbind_assoc.
  rewrite (pbind_ok _ _ _ cb (set_os o' w)) by apply load_at, Hl. fold (notify cb a st).
  rewrite (pbind_ok _ _ _ _ _ (notify_ok (set_os o' w) c cb a ab st (live_os _ _ _ _ Hl) Ha)).
  apply (delete_info_ok (post_opt _ (set_os _ (set_os o' w))) i a ab c cb); [exact Hi|by destruct Hl|exact Ha].
Qed.

(** C29: what the two builds tell the client.  If the system accepts the operation
    they agree: let the polling build find it in progress any number of times, and
    then done, and let the signal be handled at a moment at which the system
    reports the same; then the same callback is posted, once, the one for the
    status, and the same objects are left; before the signal nothing is posted,
    and a handler that is run for another signal does nothing.  If the system
    refuses the operation they differ: both return the negative result and release
    everything, but only the polling build posts the error callback. *)
Theorem builds_compared op fd buf len off w c cb :
  let ab := mkAiocb buf fd len off in
  let r := aio_submit op (next w) ab (os w) in
  live w c cb → posted w = [] → aiocbs w !! next w = None → infos w !! Pos.succ (next w) = None →
  ∃ w1 w2, aioSkeletonFunction false op fd buf len off (Some c) w = Ok (r.1, w1) ∧
    aioSkeletonFunction true op fd buf len off (Some c) w = Ok (r.1, w2) ∧ posted w2 = [] ∧
    if decide (0 ≤ r.1)%Z then
      (∀ n st o1 o', completes (next w) n st r.2 o' → aio_error (next w) o1 = (st, o') →
         ∃ w3 w4, poll_n n w1 = Ok (tt, w3) ∧ aio_done SIGIO (Pos.succ (next w)) (set_os o1 w2) = Ok (tt, w4) ∧
           posted w3 = owed cb (functions w) ab st (aio_return (next w) o').1 ∧ posted w4 = posted w3 ∧
           cleaned w c cb w3 ∧ cleaned w c cb w4 ∧ infos w4 = infos w ∧ os w4 = os w3) ∧
      ∀ signo, signo ≠ SIGIO → aio_done signo (Pos.succ (next w)) w2 = Ok (tt, w2)
    else
      posted w1 = refusal cb (functions w) ab (os_errno (os_printf r.2)) ∧ cleaned w c cb w1 ∧ cleaned w c cb w2.
Proof.
  intros ab r Hl Hp Ha Hi. case_decide as Hr.
  - destruct (checkIOProgress (next w) (Some c) (submitted ab r.2 w)) as [[[] w1]|e1] eqn:H1.
    2:{ rewrite (checkIOProgress_eq _ _ ab c cb) in H1; [done|by destruct Hl|apply lookup_insert_eq]. }
    exists w1, (signalled ab (Some c) r.2 w). split_and!; [|by rewrite skeleton_signal, decide_True|done| |].
    + rewrite skeleton_polling. fold ab r. rewrite decide_True by done. by rewrite (pbind_ok _ _ _ _ _ H1).
    + intros n st o1 o' Hn He.
      destruct (poll_completes n (next w) st r.2 o' (submitted ab r.2 w) c cb ab Hn) as (w1' & H1' & H3);
        [done|done|by destruct Hl|apply lookup_insert_eq|]. assert (w1' = w1) as -> by congruence.
      assert (live (set_os o1 (signalled ab (Some c) r.2 w)) c cb) as Hl2 by (by destruct Hl).
      eexists _, _. split; [exact H3|]. split.
      { unfold aio_done. rewrite decide_True by done.
        apply (aioDone_eq (set_os o1 (signalled ab (Some c) r.2 w)) _ (next w) ab c cb st o');
          [apply lookup_insert_eq|exact Hl2|apply lookup_insert_eq|exact He]. }
      split; [rewrite finish_posted; simpl; by rewrite Hp|]. split; [done|].
      unfold cleaned, finish. simpl. rewrite !delete_insert_id by done. by split_and!.
    + intros signo Hs. unfold aio_done. by rewrite decide_False.
  - destruct (submit_failed_ok (set_os (os_printf r.2) (submitted ab r.2 w)) (next w) ab c cb)
      as (w1 & H1 & Hpo & Hai & Hca & Hfu); [by destruct Hl|apply lookup_insert_eq|].
    eexists w1, _. split.
    { rewrite skeleton_polling. fold ab r. rewrite decide_False by done.
      rewrite pbind_assoc, (pbind_ok _ _ _ _ _ eq_refl). by rewrite (pbind_ok _ _ _ _ _ H1). }
    split.
    { rewrite skeleton_signal. fold ab r. rewrite decide_False by done.
      rewrite pbind_assoc, (pbind_ok _ _ _ _ _ eq_refl). erewrite pbind_ok; [done|].
      by apply (delete_info_ok _ _ (next w) ab c cb); [apply lookup_insert_eq|destruct Hl|apply lookup_insert_eq]. }
    split; [done|]. split; [rewrite Hpo; simpl; by rewrite Hp|]. split.
    + unfold cleaned. rewrite Hai, Hca, Hfu. simpl. by rewrite delete_insert_id.
    + unfold cleaned. simpl. by rewrite delete_insert_id.
Qed.

(** without a callback the polling build has a NULL dereference waiting: as
    soon as the operation is still in progress when it is looked at, the group
    of the callback is read through the NULL pointer, although the code for a
    finished operation allows there to be no callback. *)
Lemma null_callback op fd buf len off w o' :
  let ab := mkAiocb buf fd len off in
  let r := aio_submit op (next w) ab (os w) in
  (0 ≤ r.1)%Z → aio_error (next w) r.2 = (EINPROGRESS, o') →
  aioSkeletonFunction false op fd buf len off None w = Fault NullDeref ∧
  ∀ st o'' w1 a, aio_error a (os w1) = (st, o'') → st ≠ EINPROGRESS →
    is_Some (aiocbs w1 !! a) →
    checkIOProgress a None w1 = Ok (tt, set_aiocbs (delete a (aiocbs w1)) (set_os o'' w1)).
Proof.
  intros ab r Hr He. split.
  - rewrite skeleton_polling. fold ab r. rewrite decide_True by done.
    apply pbind_fault. unfold checkIOProgress.
    rewrite (pbind_ok _ _ _ ab (submitted ab r.2 w)) by (apply load_at, lookup_insert_eq).
    rewrite (pbind_ok _ _ _ _ _ (sys_ok _ _)). change (os (submitted ab r.2 w)) with r.2.
    rewrite He. simpl fst. by destruct (decide _).
  - intros st o'' w1 a He1 Hst [ab1 Ha1]. unfold checkIOProgress.
    rewrite (pbind_ok _ _ _ _ _ (load_at _ _ _ _ Ha1)), (pbind_ok _ _ _ _ _ (sys_ok _ _)), He1.
    simpl. rewrite decide_False by done. rewrite (pbind_ok _ _ _ _ _ eq_refl).
    by apply (delete_aiocb_ok (set_os o'' w1) a ab1).
Qed.

End aio.

(** * A concrete system *)

(** It accepts or refuses according to the first component, answers with the
    statuses of the list one after the other, and transfers 42 bytes. *)
Definition script : Type := Z * list Z.
Definition scripted : AIO script := {|
  aio_submit _ _ _ o := (o.1, o);
  aio_error _ o := match o.2 with [] => (0%Z, o) | st :: l => (st, (o.1, l)) end;
  aio_return _ o := (42%Z, o);
  os_printf o := o;
  os_errno _ := 9%Z;
|}.
#[local] Existing Instance scripted.

(** A client with both callbacks, in group 7. *)
Definition demo_cb : IOCallback := new_IOCallback (Some 2%positive) (Some 3%positive) 7.
Definition demo_world (o : script) : world nat script :=
  mkWorld ∅ {[ 1%positive := demo_cb ]} {[ 2%positive := 0; 3%positive := 1 ]} ∅ 4%positive o [].

Lemma demo_live o : live (demo_world o) 1%positive demo_cb.
Proof. split; [done|intros f [= <-]; by eexists|intros f [= <-]; by eexists|by intros f [= <-]]. Qed.

Lemma checkIOProgress_correct_witness :
  let w := set_aiocbs {[ 4%positive := mkAiocb 100 8 512 0 ]} (demo_world (0%Z, [EINPROGRESS])) in
  checkIOProgress 4%positive (Some 1%positive) w =
    Ok (tt, post_opt (Some (new (CheckIOProgress 4%positive (Some 1%positive)) 7%Z)) (set_os (0%Z, []) w)).
Proof.
  set (w := set_aiocbs _ _).
  exact (checkIOProgress_correct w 4%positive (mkAiocb 100 8 512 0) 1%positive demo_cb
    (live_new_aiocb _ _ _ _ (demo_live _)) eq_refl).
Defined.

Lemma io_notified_once_witness :
  ∃ w1 w2, aio_read false 8 100 512 0 (Some 1%positive) (demo_world (0%Z, [EINPROGRESS; EINPROGRESS])) =
      Ok (0%Z, w1) ∧ poll_n 2 w1 = Ok (tt, w2) ∧ posted w2 = [new (RunOk 0 8 100 42) 7%Z].
Proof.
  destruct (io_notified_once OpRead 8 100 512 0 (demo_world (0%Z, [EINPROGRESS; EINPROGRESS]))
    1%positive demo_cb 2 0 (0%Z, [])) as (w1 & w2 & H1 & H2 & H3 & _).
  - apply demo_live.
  - done.
  - done.
  - done.
  - eapply completes_later; [done|]. eapply completes_later; [done|]. by apply completes_now.
  - exists w1, w2. split; [exact H1|]. split; [exact H2|]. by rewrite H3.
Defined.

Lemma builds_compared_witness :
  ∃ w1 w2 w3 w4, aio_read false 8 100 512 0 (Some 1%positive) (demo_world (0%Z, [EINPROGRESS; 5%Z])) = Ok (0%Z, w1) ∧
    aio_read true 8 100 512 0 (Some 1%positive) (demo_world (0%Z, [EINPROGRESS; 5%Z])) = Ok (0%Z, w2) ∧
    poll_n 1 w1 = Ok (tt, w3) ∧ aio_done SIGIO 5%positive (set_os (0, [5])%Z w2) = Ok (tt, w4) ∧
    posted w3 = [new (RunErr 1 8 5) 7%Z] ∧ posted w4 = posted w3.
Proof.
  destruct (builds_compared OpRead 8 100 512 0 (demo_world (0%Z, [EINPROGRESS; 5%Z])) 1%positive demo_cb)
    as (w1 & w2 & H1 & H2 & _ & H3); [apply demo_live|done..|].
  rewrite decide_True in H3 by (by vm_compute). destruct H3 as [H3 _].
  destruct (H3 1 5%Z (0, [5])%Z (0, [])%Z) as (w3 & w4 & H4 & H5 & H6 & H7 & _); [|done|].
  - eapply completes_later; [done|]. by apply completes_now.
  - exists w1, w2, w3, w4. split; [exact H1|]. split; [exact H2|]. split; [exact H4|]. split; [exact H5|].
    split; [by rewrite H6|exact H7].
Defined.

Lemma null_callback_witness :
  aio_read false 8 100 512 0 None (demo_world (0%Z, [EINPROGRESS])) = Fault NullDeref.
Proof.
  by apply (null_callback OpRead 8 100 512 0 (demo_world (0%Z, [EINPROGRESS])) (0%Z, [])).
Defined.

End AioWrapper.
