(* ===== verification/Copy.v ===== *)
(** sample/copy.cc: a program that copies a file with [aio_read] and [aio_write].

    [main] starts the read and spins; the dispatcher runs what is posted, which
    are the polls of [AioWrapper] and the callbacks [copyTo], [copyDone] and
    [errOccured].  The kernel, which fills the buffers and writes the files, is
    a parameter; what POSIX says of it are the laws [KernelLaws]. *)
From Stdlib Require Import Ascii.
From S2P Require Import Prelude EventDispatcher AioWrapper.

Module Copy.
Import UnitTask AioWrapper.

Abbreviation chars := (list ascii).
Definition NUL : ascii := "000"%char.

(** The function objects that the program makes. *)
Inductive callback := CopyTo (destFd : Z) | CopyDone | ErrOccured.

(** The memory that [new char[]] gives, the kernel, what was printed, and the
    argument of [exit]. *)
Record process (K : Type) := mkProcess {
  mem : gmap Z chars;
  mem_next : Z;
  kernel : K;
  printed : chars;
  exited : option Z;
}.
Arguments mkProcess {K}.
Arguments mem {K}.
Arguments mem_next {K}.
Arguments kernel {K}.
Arguments printed {K}.
Arguments exited {K}.

(** [open] for reading and for writing, [close], and the size that [fstat] gives;
    [fresh] is what is in a new array. *)
Class Files (K : Type) := {
  k_open : string → bool → K → Z * K;
  k_close : Z → K → K;
  k_fstat : Z → K → Z;
  fresh : nat → chars;
}.

Section copy.
Context {K : Type} `{HA : AIO (process K)} `{HF : Files K}.
Abbreviation world := (world callback (process K)).
Abbreviation M A := (prog world A).
Implicit Types (w : world) (p : process K) (t : chars).

(** ** C strings and arrays *)

Definition set_mem (m : gmap Z chars) p := mkProcess m (mem_next p) (kernel p) (printed p) (exited p).
Definition set_kernel (k : K) p := mkProcess (mem p) (mem_next p) k (printed p) (exited p).
Definition set_printed t p := mkProcess (mem p) (mem_next p) (kernel p) t (exited p).
Definition set_exited (e : option Z) p := mkProcess (mem p) (mem_next p) (kernel p) (printed p) e.

(** The characters before the first NUL. *)
Fixpoint cstr t : chars :=
  match t with [] => [] | a :: t => if decide (a = NUL) then [] else a :: cstr t end.

Definition change (f : process K → process K) : M unit := pmodify (λ w, set_os (f (os w)) w).

Definition load_array (b : Z) : M chars := λ w,
  match mem (os w) !! b with Some t => Ok (t, w) | None => Fault UseAfterFree end.
Definition store_array (b : Z) t : M unit := change (λ p, set_mem (<[b := t]> (mem p)) p).

Definition new_array (n : nat) : M Z := λ w,
  let p := os w in
  Ok (mem_next p, set_os (mkProcess (<[mem_next p := fresh n]> (mem p)) (mem_next p + 1) (kernel p) (printed p) (exited p)) w).
Definition delete_array (b : Z) : M unit :=
  let! _ := load_array b in change (λ p, set_mem (delete b (mem p)) p).

Definition memset (b : Z) (n : nat) : M unit :=
  let! t := load_array b in
  if decide (n ≤ length t) then store_array b (replicate n NUL ++ drop n t) else pfail HeapOverflow.

(** [strncpy] reads up to a NUL or [n] characters, and fills up with NULs. *)
Definition strncpy (dst src : Z) (n : nat) : M unit :=
  let! s := load_array src in
  let! d := load_array dst in
  if decide ((n ≤ length s ∨ NUL ∈ s) ∧ n ≤ length d) then
    let c := take n (cstr s) in store_array dst (c ++ replicate (n - length c) NUL ++ drop n d)
  else pfail HeapOverflow.

Definition success : chars := String.list_ascii_of_string "Successfully written: ".
Definition endl : chars := ["010"%char].

(** [cout << "Successfully written: " << data << endl]: the characters of [data]
    up to a NUL. *)
Definition print (b : Z) : M unit :=
  let! t := load_array b in
  if decide (NUL ∈ t) then change (λ p, set_printed (printed p ++ success ++ cstr t ++ endl) p) else pfail HeapOverflow.

(** ** System calls and objects *)

Definition open (name : string) (write : bool) : M Z := λ w,
  let r := k_open name write (kernel (os w)) in Ok (r.1, set_os (set_kernel r.2 (os w)) w).
Definition close (fd : Z) : M unit := change (λ p, set_kernel (k_close fd (kernel p)) p).
Definition exit (n : Z) : M unit := change (set_exited (Some n)).

Definition new_function (f : callback) : M loc := λ w,
  Ok (next w, set_next (Pos.succ (next w)) (set_functions (<[next w := f]> (functions w)) w)).
Definition new_callback (c : IOCallback) : M loc := λ w,
  Ok (next w, set_next (Pos.succ (next w)) (set_callbacks (<[next w := c]> (callbacks w)) w)).

(** ** The program *)

Definition errOccured (fd err : Z) : M unit :=
  close fd ;;; exit 0.

Definition copyDone (fd contents len : Z) : M unit :=
  passert (bool_decide (0 ≤ len)%Z) ;;;
  let! data := new_array (Z.to_nat len) in
  memset data (Z.to_nat len) ;;;
  strncpy data contents (Z.to_nat len) ;;;
  print data ;;;
  delete_array contents ;;;
  delete_array data ;;;
  close fd ;;;
  exit 0.

Definition copyTo (destFd srcFd contents len : Z) : M unit :=
  passert (bool_decide (0 ≤ len)%Z) ;;;
  let! writeOkCB := new_function CopyDone in
  let! errCB := new_function ErrOccured in
  let! ioCB := new_callback (new_IOCallback_default (Some writeOkCB) (Some errCB)) in
  let! ret := aio_write false destFd contents len 0 (Some ioCB) in
  passert (bool_decide (ret = 0)%Z) ;;;
  close srcFd.

(** What [main] returns; [None]: it spins until [exit] is called. *)
Definition main (argc : nat) (srcFile destFile : string) : M (option Z) :=
  if decide (argc ≠ 3) then pret (Some (-1)%Z)
  else
    let! sourceFd := open srcFile false in
    passert (bool_decide (0 < sourceFd)%Z) ;;;
    let! destFd := open destFile true in
    passert (bool_decide (0 < destFd)%Z) ;;;
    let! readOkCB := new_function (CopyTo destFd) in
    let! errCB := new_function ErrOccured in
    let! ioCB := new_callback (new_IOCallback_default (Some readOkCB) (Some errCB)) in
    let! w := pget in
    let fileSize := k_fstat sourceFd (kernel (os w)) in
    let! data := new_array (Z.to_nat fileSize) in
    memset data (Z.to_nat fileSize) ;;;
    let! ret := aio_read false sourceFd data fileSize 0 (Some ioCB) in
    passert (bool_decide (ret = 0)%Z) ;;;
    pret None.

(** The dispatcher runs the oldest post, until the program has ended. *)
Definition run_posted (t : aio_task callback) : M unit :=
  match t with
  | CheckIOProgress aioCB callback => checkIOProgress aioCB callback
  | RunOk (CopyTo destFd) fd buf result => copyTo destFd fd buf result
  | RunOk CopyDone fd buf result => copyDone fd buf result
  | RunErr ErrOccured fd status => errOccured fd status
  | _ => pfail OutOfRange
  end.
Definition run_next : M unit :=
  let! w := pget in
  match exited (os w), posted w with
  | None, u :: q => pmodify (set_posted q) ;;; run_posted (task u)
  | _, _ => pret tt
  end.

End copy.

(** * The kernel *)

(** What is in the file of a descriptor, which descriptors are open, and the
    operations that are under way and that are done. *)
Class KernelLaws (K : Type) `{AIO (process K)} `{Files K} := {
  file : K → Z → chars;
  opened : K → Z → Prop;
  pending : K → loc → option (operation * aiocb);
  finished : K → loc → option nat;
  fresh_length n : length (fresh n) = n;
  open_law name wr k : (0 ≤ (k_open name wr k).1)%Z → ¬ opened k (k_open name wr k).1 ∧ opened (k_open name wr k).2 (k_open name wr k).1;
  close_law fd k fd' : fd' ≠ fd → file (k_close fd k) fd' = file k fd';
  close_pending fd k a op ab : pending k a = Some (op, ab) → aio_fildes ab ≠ fd → pending (k_close fd k) a = Some (op, ab);
  fstat_law fd k : k_fstat fd k = Z.of_nat (length (file k fd));
  (** An operation is refused, or it is under way; nothing is read or written yet. *)
  submit_law op a ab p r p' :
    aio_submit op a ab p = (r, p') →
    p' = set_kernel (kernel p') p ∧
    (r = 0%Z ∧ pending (kernel p') a = Some (op, ab) ∧ file (kernel p') = file (kernel p) ∨
     r = (-1)%Z ∧ os_errno (os_printf p') ≠ 0%Z);
  (** A read changes its buffer, but no file; when it is done, the buffer has the
      next bytes of the file, as many as were asked for or as there are. *)
  read_law a ab p st p' t :
    pending (kernel p) a = Some (OpRead, ab) → aio_error a p = (st, p') →
    mem p !! aio_buf ab = Some t → (aio_nbytes ab ≤ Z.of_nat (length t))%Z →
    file (kernel p') = file (kernel p) ∧
    ∃ t', length t' = length t ∧ p' = set_kernel (kernel p') (set_mem (<[aio_buf ab := t']> (mem p)) p) ∧
    (st = EINPROGRESS → pending (kernel p') a = Some (OpRead, ab)) ∧
    (st = 0%Z → ∃ n, finished (kernel p') a = Some n ∧
       n = Z.to_nat (aio_nbytes ab) `min` length (drop (Z.to_nat (aio_offset ab)) (file (kernel p) (aio_fildes ab))) ∧
       take n t' = take n (drop (Z.to_nat (aio_offset ab)) (file (kernel p) (aio_fildes ab))));
  (** A write changes no memory; when it is done, a first part of the buffer is in
      the file. *)
  write_law a ab p st p' t :
    pending (kernel p) a = Some (OpWrite, ab) → aio_error a p = (st, p') → mem p !! aio_buf ab = Some t →
    p' = set_kernel (kernel p') p ∧
    (st = EINPROGRESS → pending (kernel p') a = Some (OpWrite, ab)) ∧
    (st = 0%Z → ∃ n, finished (kernel p') a = Some n ∧ (Z.of_nat n ≤ aio_nbytes ab)%Z ∧
       take n (drop (Z.to_nat (aio_offset ab)) (file (kernel p') (aio_fildes ab))) = take n t);
  return_law a p n :
    finished (kernel p) a = Some n →
    ∃ k, aio_return a p = (Z.of_nat n, set_kernel k p) ∧ file k = file (kernel p);
}.

Section theorems.
Context {K : Type} `{HA : AIO (process K)} `{HF : !Files K} `{HK : !KernelLaws K}.
Abbreviation world := (world callback (process K)).
Implicit Types (w : world) (p : process K) (t S : chars).

(** ** Characters *)

Lemma cstr_nul t : NUL ∉ t → cstr t = t.
Proof. induction t as [|a t IH]; [done|]. intros [Ha Ht]%not_elem_of_cons. simpl. rewrite decide_False by congruence. by rewrite IH. Qed.

Lemma cstr_short t n : NUL ∈ take n t → length (take n (cstr t)) < n.
Proof.
  revert n. induction t as [|a t IH]; intros [|n] Hn; simpl in *; try by apply not_elem_of_nil in Hn.
  case_decide as Ha; simpl; [lia|]. apply elem_of_cons in Hn as [Hn|Hn]; [congruence|]. specialize (IH _ Hn). lia.
Qed.

Lemma cstr_take t n : NUL ∉ take n t → take n (cstr t) = take n t.
Proof.
  revert n. induction t as [|a t IH]; intros [|n]; simpl; [done..|]. intros [Ha Ht]%not_elem_of_cons.
  rewrite decide_False by congruence. simpl. by rewrite IH.
Qed.

Lemma take_cstr t n : NUL ∉ take n (cstr t).
Proof.
  revert n. induction t as [|a t IH]; intros [|n]; simpl; try (by apply not_elem_of_nil).
  case_decide; simpl; [apply not_elem_of_nil|]. apply not_elem_of_cons. by split.
Qed.

Lemma cstr_app t t' : NUL ∉ t → cstr (t ++ NUL :: t') = t.
Proof.
  induction t as [|a t IH]; simpl; [done|]. intros [Ha Ht]%not_elem_of_cons.
  rewrite decide_False by congruence. by rewrite IH.
Qed.

(** What [strncpy] makes of zeros: it has a NUL if there is one among what is copied. *)
Definition copied S (m : nat) : chars := take m (cstr S) ++ replicate (m - length (take m (cstr S))) NUL.

Lemma copied_nul S m : m ≤ length S → NUL ∈ copied S m ↔ NUL ∈ take m S.
Proof.
  intros Hm. unfold copied. destruct (decide (NUL ∈ take m S)) as [H|Hn].
  - pose proof (cstr_short S m H) as Hl. split; [done|]. intros _. apply elem_of_app. right. apply elem_of_replicate. split; [done|lia].
  - rewrite cstr_take, length_take, Nat.min_l, Nat.sub_diag, app_nil_r by done. done.
Qed.

Lemma cstr_copied S m : NUL ∈ take m S → cstr (copied S m) = cstr (take m S).
Proof.
  intros H. pose proof (cstr_short S m H) as Hl. unfold copied.
  destruct (m - length (take m (cstr S))) as [|j] eqn:Ej; [lia|]. simpl. rewrite cstr_app by apply take_cstr.
  clear Ej. revert m H Hl. induction S as [|a S IH]; intros [|m] H Hl; simpl in *; try by apply not_elem_of_nil in H.
  case_decide; [done|]. simpl in *. f_equal. apply IH; [|lia]. apply elem_of_cons in H as [H|H]; [congruence|done].
Qed.

(** ** An operation *)

Definition user (ok : callback) (w : world) (c : loc) : Prop :=
  ∃ f1 f2, f1 ≠ f2 ∧ callbacks w = {[ c := new_IOCallback_default (Some f1) (Some f2) ]} ∧
    functions w = {[ f1 := ok; f2 := ErrOccured ]}.

(** Only the operation is left of it. *)
Definition waiting (op : operation) (ok : callback) (fd buf len : Z) w : Prop :=
  ∃ a c, posted w = [new_default (CheckIOProgress a (Some c))] ∧ user ok w c ∧
    aiocbs w = {[ a := mkAiocb buf fd len 0 ]} ∧ pending (kernel (os w)) a = Some (op, mkAiocb buf fd len 0).

(** Only a task for the client is left. *)
Definition told (u : aio_task callback) w : Prop :=
  posted w = [new_default u] ∧ callbacks w = ∅ ∧ functions w = ∅ ∧ aiocbs w = ∅.

Lemma user_live ok w c :
  user ok w c → ∃ f1 f2, live w c (new_IOCallback_default (Some f1) (Some f2)) ∧
    functions w !! f1 = Some ok ∧ functions w !! f2 = Some ErrOccured ∧
    delete c (callbacks w) = ∅ ∧ delete_opt (Some f2) (delete_opt (Some f1) (functions w)) = ∅.
Proof.
  intros (f1 & f2 & Hne & Hc & Hf). exists f1, f2.
  assert (functions w !! f1 = Some ok ∧ functions w !! f2 = Some ErrOccured) as [H1 H2].
  { rewrite Hf. split; [by rewrite lookup_insert_eq|]. rewrite lookup_insert_ne by done. apply lookup_insert_eq. }
  split; [|split_and!; [done|done|rewrite Hc; by rewrite delete_singleton_eq|]].
  - split; simpl; [rewrite Hc; apply lookup_insert_eq|by intros f [= <-]; exists ok|by intros f [= <-]; exists ErrOccured|by intros f [= <-] [= E]].
  - rewrite Hf. simpl. rewrite delete_insert_id; [by rewrite delete_singleton_eq|]. by rewrite lookup_singleton_ne.
Qed.

(** A look at an operation: it goes on, or one of the callbacks is posted, and
    everything else is gone. *)
Lemma look op ok fd buf len a c w :
  posted w = [] → user ok w c → aiocbs w = {[ a := mkAiocb buf fd len 0 ]} →
  let st := (aio_error a (os w)).1 in let p := (aio_error a (os w)).2 in
  (st = EINPROGRESS → pending (kernel p) a = Some (op, mkAiocb buf fd len 0)) →
  ∃ w', checkIOProgress a (Some c) w = Ok (tt, w') ∧
    (if decide (st = EINPROGRESS) then waiting op ok fd buf len w' ∧ os w' = p
     else if decide (st = 0%Z) then told (RunOk ok fd buf (aio_return a p).1) w' ∧ os w' = (aio_return a p).2
     else told (RunErr ErrOccured fd st) w' ∧ os w' = p).
Proof.
  intros Hpo Hu Ha st p Hpend. destruct (user_live ok w c Hu) as (f1 & f2 & Hl & H1 & H2 & Hd1 & Hd2).
  eexists. split; [apply (checkIOProgress_eq w a (mkAiocb buf fd len 0) c _ Hl); rewrite Ha; apply lookup_insert_eq|].
  cbv zeta. fold st p. destruct (decide (st = EINPROGRESS)) as [E|E].
  - split; [|done]. exists a, c. simpl. rewrite Hpo. split; [done|]. split; [exact Hu|]. split; [done|by apply Hpend].
  - unfold told, finish. simpl. rewrite Hpo, Hd1, Ha, delete_singleton_eq. simpl in Hd2. rewrite Hd2.
    unfold notification, result_taken. simpl. rewrite H1, H2. simpl. by destruct (decide (st = 0%Z)).
Qed.

(** ** The phases of the program *)

Definition running (buf : Z) t w : Prop :=
  mem (os w) = {[ buf := t ]} ∧ (buf < mem_next (os w))%Z ∧ exited (os w) = None ∧ printed (os w) = [].

Variables (S : chars) (sfd dfd : Z).
Abbreviation size := (Z.of_nat (length S)).

(** [S] is copied from [sfd] to [dfd]. *)
Inductive phase w : Prop :=
  | Reading buf t :
      waiting OpRead (CopyTo dfd) sfd buf size w → running buf t w → length t = length S →
      file (kernel (os w)) sfd = S → phase w
  | HasRead buf : told (RunOk (CopyTo dfd) sfd buf size) w → running buf S w → phase w
  | Writing buf : waiting OpWrite CopyDone dfd buf size w → running buf S w → phase w
  | Written buf m :
      told (RunOk CopyDone dfd buf (Z.of_nat m)) w → running buf S w → m ≤ length S →
      take m (file (kernel (os w)) dfd) = take m S → phase w
  | Failed fd st : told (RunErr ErrOccured fd st) w → exited (os w) = None → phase w
  | Ended : posted w = [] → callbacks w = ∅ → functions w = ∅ → aiocbs w = ∅ → exited (os w) = Some 0%Z → phase w.

Hypothesis other : sfd ≠ dfd.

Lemma look_read a c buf t w :
  posted w = [] → user (CopyTo dfd) w c → aiocbs w = {[ a := mkAiocb buf sfd size 0 ]} →
  pending (kernel (os w)) a = Some (OpRead, mkAiocb buf sfd size 0) →
  running buf t w → length t = length S → file (kernel (os w)) sfd = S →
  ∃ w', checkIOProgress a (Some c) w = Ok (tt, w') ∧ phase w'.
Proof.
  intros Hpo Hu Ha Hpend (Hm & Hb & He & Hpr) Ht HS.
  destruct (aio_error a (os w)) as [st p] eqn:Ee.
  destruct (read_law a _ (os w) st p t Hpend Ee) as (Hfile & t' & Ht' & Hp & Hgo & Hdone);
    [simpl; rewrite Hm; apply lookup_insert_eq|simpl; lia|].
  simpl in *. rewrite HS in Hdone. rewrite Hm, insert_singleton_eq in Hp.
  destruct (look OpRead (CopyTo dfd) sfd buf size a c w Hpo Hu Ha) as (w' & Hx & Hc); [by rewrite Ee|].
  exists w'. split; [done|]. rewrite Ee in Hc. simpl in Hc. case_decide as E1; [|case_decide as E2].
  - destruct Hc as [Hc Ho]. apply (Reading _ buf t'); [done|by unfold running; rewrite Ho, Hp|congruence|by rewrite Ho, Hfile].
  - destruct (Hdone E2) as (n & Hn & -> & Htk). rewrite drop_0, Nat2Z.id, Nat.min_id in *.
    assert (t' = S) as -> by (rewrite <-(firstn_all t'), Ht', Ht, Htk; apply firstn_all).
    destruct (return_law a p _ Hn) as (k & Hr & _). rewrite Hr in Hc. simpl in Hc. destruct Hc as [Hc Ho].
    apply (HasRead _ buf); [done|]. unfold running. by rewrite Ho, Hp.
  - destruct Hc as [Hc Ho]. eapply Failed; [done|]. by rewrite Ho, Hp.
Qed.

Definition closed w : world := set_os (set_kernel (k_close sfd (kernel (os w))) (os w)) w.

Lemma look_write a c buf w :
  posted w = [] → user CopyDone w c → aiocbs w = {[ a := mkAiocb buf dfd size 0 ]} →
  pending (kernel (os w)) a = Some (OpWrite, mkAiocb buf dfd size 0) → running buf S w →
  ∃ w', checkIOProgress a (Some c) w = Ok (tt, w') ∧ phase w' ∧ phase (closed w').
Proof.
  intros Hpo Hu Ha Hpend (Hm & Hb & He & Hpr).
  destruct (aio_error a (os w)) as [st p] eqn:Ee.
  destruct (write_law a _ (os w) st p S Hpend Ee) as (Hp & Hgo & Hdone); [simpl; rewrite Hm; apply lookup_insert_eq|].
  simpl in *. destruct (look OpWrite CopyDone dfd buf size a c w Hpo Hu Ha) as (w' & Hx & Hc); [by rewrite Ee|].
  exists w'. split; [done|]. rewrite Ee in Hc. simpl in Hc. case_decide as E1; [|case_decide as E2].
  - destruct Hc as [Hc Ho]. assert (running buf S w') as Hr by (unfold running; by rewrite Ho, Hp).
    split; apply (Writing _ buf); [done|done| |done].
    destruct Hc as (a1 & c1 & ? & ? & ? & ?). exists a1, c1. split_and!; [done..|]. simpl. by apply close_pending.
  - destruct (Hdone E2) as (n & Hn & Hle & Htk). rewrite drop_0 in Htk.
    destruct (return_law a p _ Hn) as (k & Hr & Hk). rewrite Hr in Hc. simpl in Hc. destruct Hc as [Hc Ho].
    assert (running buf S w') as Hr' by (unfold running; by rewrite Ho, Hp).
    split; (apply (Written _ buf n); [done|done|lia|]).
    + rewrite Ho. simpl. by rewrite Hk.
    + simpl. rewrite close_law by done. rewrite Ho. simpl. by rewrite Hk.
  - destruct Hc as [Hc Ho]. split; (eapply Failed; [done|]); simpl; by rewrite Ho, Hp.
Qed.

(** Starting an operation. *)
Lemma submit op ok fd buf len c w :
  posted w = [] → user ok w c → aiocbs w = ∅ →
  let ab := mkAiocb buf fd len 0 in let r := aio_submit op (next w) ab (os w) in
  (r.1 = 0%Z ∧ aioSkeletonFunction false op fd buf len 0 (Some c) w =
     (checkIOProgress (next w) (Some c) ;;; pret 0%Z) (submitted ab r.2 w)) ∨
  (r.1 = (-1)%Z ∧ ∃ w', aioSkeletonFunction false op fd buf len 0 (Some c) w = Ok ((-1)%Z, w')).
Proof.
  intros Hpo Hu Ha ab r. destruct (submit_law op (next w) ab (os w) r.1 r.2) as (_ & [(Hr & _)|(Hr & He)]); [apply surjective_pairing|..].
  - left. split; [done|]. rewrite skeleton_polling. fold ab r. rewrite Hr. simpl. done.
  - right. split; [done|]. destruct (user_live ok w c Hu) as (f1 & f2 & Hl & _).
    destruct (submit_failed_ok (set_os (os_printf r.2) (submitted ab r.2 w)) (next w) ab c
      (new_IOCallback_default (Some f1) (Some f2))) as (w' & Hs & _); [by destruct Hl|apply lookup_insert_eq|].
    exists w'. rewrite skeleton_polling. fold ab r. rewrite Hr. rewrite decide_False by lia.
    rewrite pbind_assoc, (pbind_ok _ _ _ _ _ eq_refl). by rewrite (pbind_ok _ _ _ _ _ Hs).
Qed.

(** ** The callbacks *)

Definition empty w : Prop := posted w = [] ∧ callbacks w = ∅ ∧ functions w = ∅ ∧ aiocbs w = ∅.

(** The objects of [copyTo] and of [main]. *)
Definition armed (ok : callback) w : world :=
  let f1 := next w in let f2 := Pos.succ f1 in let c := Pos.succ f2 in
  mkWorld (aiocbs w) (<[c := new_IOCallback_default (Some f1) (Some f2)]> (callbacks w))
    (<[f2 := ErrOccured]> (<[f1 := ok]> (functions w))) (infos w) (Pos.succ c) (os w) (posted w).

Lemma armed_user ok w : empty w → posted (armed ok w) = [] ∧ user ok (armed ok w) (Pos.succ (Pos.succ (next w))) ∧ aiocbs (armed ok w) = ∅.
Proof.
  intros (Hp & Hc & Hf & Ha). split; [done|]. split; [|done]. exists (next w), (Pos.succ (next w)).
  assert (next w ≠ Pos.succ (next w)) by lia. split; [done|]. simpl. rewrite Hc, Hf. split; [done|]. by rewrite insert_insert_ne.
Qed.

Lemma arm ok {A} (m : loc → prog world A) w :
  (let! f1 := new_function ok in let! f2 := new_function ErrOccured in
   let! c := new_callback (new_IOCallback_default (Some f1) (Some f2)) in m c) w = m (Pos.succ (Pos.succ (next w))) (armed ok w).
Proof. done. Qed.

Lemma copyTo_step buf w :
  empty w → running buf S w →
  (∃ w', copyTo dfd sfd buf size w = Ok (tt, w') ∧ phase w') ∨
  copyTo dfd sfd buf size w = Fault AssertFailure ∧ ∃ a, (aio_submit OpWrite a (mkAiocb buf dfd size 0) (os w)).1 = (-1)%Z.
Proof.
  intros Hw Hr. destruct (armed_user CopyDone w Hw) as (Hp & Hu & Ha).
  unfold copyTo. rewrite (bool_decide_eq_true_2 (0 ≤ size)%Z) by lia. rewrite (pbind_ok _ _ w tt w) by done.
  rewrite arm. unfold aio_write.
  destruct (submit OpWrite CopyDone dfd buf size _ _ Hp Hu Ha) as [[Er Ex]|[Er [w' Ex]]].
  - set (ab := mkAiocb buf dfd size 0) in *. destruct (submit_law OpWrite (next (armed CopyDone w)) ab (os (armed CopyDone w)) _ _ (surjective_pairing _))
      as (Hs & [(_ & Hpend & _)|[E _]]); [|congruence].
    destruct (look_write (next (armed CopyDone w)) (Pos.succ (Pos.succ (next w))) buf
      (submitted ab (aio_submit OpWrite (next (armed CopyDone w)) ab (os (armed CopyDone w))).2 (armed CopyDone w))) as (w' & Hl & _ & Hph).
    + done.
    + destruct Hu as (f1 & f2 & ? & ? & ?). exists f1, f2. done.
    + simpl. simpl in Ha. by rewrite Ha.
    + done.
    + unfold running. simpl. simpl in Hs. rewrite Hs. exact Hr.
    + left. exists (closed w'). split; [|done].
      erewrite pbind_ok; [|rewrite Ex; by rewrite (pbind_ok _ _ _ _ _ Hl)]. done.
  - right. split; [|eexists; exact Er]. by rewrite (pbind_ok _ _ _ _ _ Ex).
Qed.

Lemma array_at b t w {A} (k : chars → prog world A) : mem (os w) !! b = Some t → (let! x := load_array b in k x) w = k t w.
Proof. intros H. unfold load_array, pbind. by rewrite H. Qed.

(** After [copyDone] has made and filled its array. *)
Definition filled buf m w : world :=
  set_os (mkProcess (<[mem_next (os w) := copied S m]> {[ buf := S ]}) (mem_next (os w) + 1) (kernel (os w)) [] None) w.

Lemma fill_data {A} (k : Z → prog world A) buf m w :
  running buf S w → m ≤ length S →
  (let! data := new_array m in memset data m ;;; strncpy data buf m ;;; k data) w = k (mem_next (os w)) (filled buf m w).
Proof.
  intros (Hm & Hb & He & Hpr) Hle. set (data := mem_next (os w)). assert (data ≠ buf) as Hne by lia.
  rewrite (pbind_ok _ _ w data _ eq_refl). unfold memset, strncpy.
  erewrite pbind_ok; [|rewrite (array_at data (fresh m)) by apply lookup_insert_eq;
    rewrite decide_True by (by rewrite fresh_length); reflexivity].
  erewrite pbind_ok; [reflexivity|].
  rewrite (array_at buf S) by (simpl; rewrite !lookup_insert_ne, Hm by done; apply lookup_insert_eq).
  rewrite (array_at data (replicate m NUL ++ drop m (fresh m))) by apply lookup_insert_eq.
  rewrite decide_True by (split; [by left|]; rewrite length_app, length_replicate; lia).
  unfold store_array, change, pmodify, filled, set_mem, set_os. simpl. fold data.
  rewrite !insert_insert_eq, Hm, He, Hpr. unfold copied.
  rewrite (drop_ge (_ ++ _)), app_nil_r; [done|].
  rewrite length_app, length_replicate, length_drop, fresh_length. lia.
Qed.

Lemma copyDone_step buf m w :
  empty w → running buf S w → m ≤ length S →
  if decide (NUL ∈ take m S) then
    ∃ w', copyDone dfd buf (Z.of_nat m) w = Ok (tt, w') ∧ empty w' ∧ mem (os w') = ∅ ∧
      printed (os w') = success ++ cstr (take m S) ++ endl ∧ exited (os w') = Some 0%Z
  else copyDone dfd buf (Z.of_nat m) w = Fault HeapOverflow.
Proof.
  intros Hw Hr Hm. pose proof Hr as (_ & Hb & _). set (data := mem_next (os w)) in *. assert (data ≠ buf) as Hne by lia.
  unfold copyDone. rewrite (bool_decide_eq_true_2 (0 ≤ Z.of_nat m)%Z) by lia. rewrite (pbind_ok _ _ w tt w) by done.
  rewrite Nat2Z.id, (fill_data _ buf m w Hr Hm). fold data. set (w1 := filled buf m w).
  assert (mem (os w1) !! data = Some (copied S m)) as Hd by apply lookup_insert_eq.
  assert (print data w1 = if decide (NUL ∈ take m S) then
    Ok (tt, set_os (set_printed (success ++ cstr (take m S) ++ endl) (os w1)) w1) else Fault HeapOverflow) as Hp.
  { unfold print. rewrite (array_at _ _ _ _ Hd). destruct (decide (NUL ∈ take m S)) as [H|H].
    - rewrite decide_True by by apply copied_nul. unfold change, pmodify. simpl. by rewrite cstr_copied.
    - by rewrite decide_False by (by rewrite copied_nul). }
  case_decide; [|by rewrite (pbind_fault _ _ _ _ Hp)]. eexists. split; [|split_and!].
  - rewrite (pbind_ok _ _ _ _ _ Hp). unfold delete_array.
    erewrite pbind_ok; [|rewrite (array_at buf S) by (simpl; rewrite lookup_insert_ne by done; apply lookup_insert_eq); reflexivity].
    erewrite pbind_ok; [|rewrite (array_at data (copied S m)) by (simpl; rewrite lookup_delete_ne by done; apply lookup_insert_eq); reflexivity].
    reflexivity.
  - exact Hw.
  - simpl. rewrite delete_insert_ne by done. rewrite delete_singleton_eq. by rewrite insert_empty, delete_singleton_eq.
  - done.
  - done.
Qed.

(** ** The dispatcher *)

Lemma run_told u w :
  told u w → exited (os w) = None → run_next w = run_posted u (set_posted [] w) ∧ empty (set_posted [] w).
Proof. intros (Hp & ? & ? & ?) He. unfold run_next, pbind, pget. rewrite He, Hp. done. Qed.

Lemma next_step w :
  phase w →
  (∃ w', run_next w = Ok (tt, w') ∧ phase w') ∨
  (run_next w = Fault AssertFailure ∧ ∃ buf, told (RunOk (CopyTo dfd) sfd buf size) w ∧
     ∃ a, (aio_submit OpWrite a (mkAiocb buf dfd size 0) (os w)).1 = (-1)%Z) ∨
  (run_next w = Fault HeapOverflow ∧ ∃ buf m, told (RunOk CopyDone dfd buf (Z.of_nat m)) w ∧ NUL ∉ take m S).
Proof.
  intros [buf t Hw Hr Ht HS|buf Hw Hr|buf Hw Hr|buf m Hw Hr Hm Hf|fd st Hw He|Hp Hc Hfn Ha He].
  - left. destruct Hw as (a & c & Hp & Hu & Ha & Hpend).
    destruct (look_read a c buf t (set_posted [] w)) as (w' & Hx & Hph); try done. exists w'. split; [|done].
    unfold run_next, pbind, pget. destruct Hr as (_ & _ & -> & _). rewrite Hp. exact Hx.
  - destruct (run_told _ _ Hw (proj1 (proj2 (proj2 Hr)))) as [-> He]. simpl.
    destruct (copyTo_step buf _ He Hr) as [?|[? ?]]; [by left|]. right. left. split; [done|]. by exists buf.
  - left. destruct Hw as (a & c & Hp & Hu & Ha & Hpend).
    destruct (look_write a c buf (set_posted [] w)) as (w' & Hx & Hph & _); try done. exists w'. split; [|done].
    unfold run_next, pbind, pget. destruct Hr as (_ & _ & -> & _). rewrite Hp. exact Hx.
  - destruct (run_told _ _ Hw (proj1 (proj2 (proj2 Hr)))) as [-> He]. simpl.
    pose proof (copyDone_step buf m _ He Hr Hm) as Hd. case_decide as Hn.
    + left. destruct Hd as (w' & Hx & (? & ? & ? & ?) & _ & _ & ?). exists w'. split; [done|]. by apply Ended.
    + right. right. split; [done|]. by exists buf, m.
  - left. destruct (run_told _ _ Hw He) as [-> (? & ? & ? & ?)]. eexists. split; [reflexivity|]. by apply Ended.
  - left. exists w. split; [|by apply Ended]. unfold run_next, pbind, pget. by rewrite He.
Qed.

Inductive runs (w1 : world) : world → Prop :=
  | runs_none : runs w1 w1
  | runs_more w w' : runs w1 w → run_next w = Ok (tt, w') → runs w1 w'.

Lemma runs_phase w1 w : phase w1 → runs w1 w → phase w.
Proof.
  intros H1. induction 1 as [|w w' _ IH Hx]; [done|].
  destruct (next_step w IH) as [(w2 & E & ?)|[[E _]|[E _]]]; congruence.
Qed.

Lemma told_written u fd buf r w :
  phase w → told u w → u = RunOk CopyDone fd buf r →
  ∃ m, fd = dfd ∧ r = Z.of_nat m ∧ m ≤ length S ∧ running buf S w ∧ take m (file (kernel (os w)) dfd) = take m S.
Proof.
  intros Hph (Hp & _) ->.
  destruct Hph as [? ? (? & ? & E & _)|? (E & _)|? (? & ? & E & _)|buf2 m (E & _) Hr Hm Hf|? ? (E & _)|E]; rewrite Hp in E; simplify_eq.
  exists m. done.
Qed.

End theorems.

(** ** The whole program *)

Section program.
Context {K : Type} `{HA : AIO (process K)} `{HF : !Files K} `{HK : !KernelLaws K}.
Abbreviation world := (world callback (process K)).
Implicit Types (w : world).

Definition started w : Prop := empty w ∧ mem (os w) = ∅ ∧ exited (os w) = None ∧ printed (os w) = [].

Lemma passert_ok {W A} (b : bool) (m : prog W A) (x : W) r :
  (passert b ;;; m) x = Ok r → b = true ∧ m x = Ok r.
Proof. destruct b; [done|]. by intros ?. Qed.

Lemma main_phase srcFile destFile w0 r w1 :
  started w0 → main 3 srcFile destFile w0 = Ok (r, w1) →
  let k0 := kernel (os w0) in let src := k_open srcFile false k0 in let dst := k_open destFile true src.2 in
  r = None ∧ src.1 ≠ dst.1 ∧ phase (file dst.2 src.1) src.1 dst.1 w1.
Proof.
  intros (He & Hm & Hex & Hpr) Hx k0 src dst. unfold main in Hx. rewrite decide_False in Hx by (intros []; done).
  rewrite (pbind_ok _ _ w0 src.1 (set_os (set_kernel src.2 (os w0)) w0)) in Hx by done.
  apply passert_ok in Hx as [Hs%bool_decide_eq_true Hx].
  rewrite (pbind_ok _ _ _ dst.1 (set_os (set_kernel dst.2 (os w0)) w0)) in Hx by done.
  apply passert_ok in Hx as [Hd%bool_decide_eq_true Hx].
  set (S := file dst.2 src.1). set (w2 := set_os (set_kernel dst.2 (os w0)) w0) in *.
  assert (src.1 ≠ dst.1) as Hne.
  { intros E. destruct (open_law srcFile false k0) as [_ Ho]; [fold src; lia|]. fold src in Ho.
    destruct (open_law destFile true src.2) as [Hno _]; [fold dst; lia|]. fold dst in Hno. congruence. }
  assert (empty w2) as He2 by exact He. destruct (armed_user (CopyTo dst.1) w2 He2) as (Hp & Hu & Ha).
  rewrite arm in Hx. rewrite (pbind_ok _ _ _ (armed (CopyTo dst.1) w2) (armed (CopyTo dst.1) w2)) in Hx by done.
  cbv beta zeta in Hx. simpl kernel in Hx. rewrite fstat_law in Hx. fold S in Hx. rewrite Nat2Z.id in Hx. set (buf := mem_next (os w0)) in *.
  set (w3 := set_os (mkProcess {[ buf := replicate (length S) NUL ]} (buf + 1) dst.2 [] None) (armed (CopyTo dst.1) w2)).
  erewrite (pbind_ok (new_array (length S))) in Hx by reflexivity. fold buf in Hx.
  rewrite (pbind_ok _ _ _ tt w3) in Hx.
  2:{ unfold memset. rewrite (array_at buf (fresh (length S))) by apply lookup_insert_eq.
      rewrite decide_True by (by rewrite fresh_length). unfold store_array, change, pmodify, w3, set_mem, set_os. simpl.
      rewrite Hm, Hex, Hpr, insert_insert_eq, insert_empty, drop_ge, app_nil_r by (by rewrite fresh_length). done. }
  assert (user (CopyTo dst.1) w3 (Pos.succ (Pos.succ (next w2)))) as Hu3 by exact Hu.
  unfold aio_read in Hx. destruct (submit OpRead (CopyTo dst.1) src.1 buf (Z.of_nat (length S)) _ w3 Hp Hu3 Ha) as [[Er Ex]|[Er [w' Ex]]].
  2:{ rewrite (pbind_ok _ _ _ _ _ Ex) in Hx. done. }
  set (ab := mkAiocb buf src.1 (Z.of_nat (length S)) 0) in *.
  destruct (submit_law OpRead (next w3) ab (os w3) _ _ (surjective_pairing _)) as (Hsub & [(_ & Hpend & Hfile)|[E _]]); [|congruence].
  destruct (look_read S src.1 dst.1 (next w3) (Pos.succ (Pos.succ (next w2))) buf (replicate (length S) NUL)
    (submitted ab (aio_submit OpRead (next w3) ab (os w3)).2 w3)) as (w' & Hl & Hph).
  - done.
  - exact Hu3.
  - simpl. simpl in Ha. by rewrite Ha.
  - done.
  - unfold running. simpl. simpl in Hsub. rewrite Hsub. simpl. split_and!; [done|lia|done|done].
  - apply length_replicate.
  - simpl. simpl in Hfile. rewrite Hfile. done.
  - assert (aioSkeletonFunction false OpRead src.1 buf (Z.of_nat (length S)) 0 (Some (Pos.succ (Pos.succ (next w2)))) w3 = Ok (0%Z, w')) as Ex'
      by (rewrite Ex; by rewrite (pbind_ok _ _ _ _ _ Hl)).
    rewrite (pbind_ok _ _ _ _ _ Ex') in Hx. by injection Hx as <- <-.
Qed.

(** C30: The sample copies.  When [main] has started the read of a file with the
    contents [S], then whatever the dispatcher has run since, and however often
    it has polled: if [copyDone] is due, the first [m] characters of [S] are the
    first of the destination, where [m] is what the kernel says was written.  If
    there is a NUL among them it prints what is before it, releases everything and
    ends the program; otherwise - for any ordinary text - it prints past the
    end of its array.  This, and the assertion of [copyTo] when the
    write is refused, are the only faults. *)
Theorem copy_correct srcFile destFile w0 r w1 w :
  started w0 → main 3 srcFile destFile w0 = Ok (r, w1) → runs w1 w →
  let src := k_open srcFile false (kernel (os w0)) in let dst := k_open destFile true src.2 in
  let S := file dst.2 src.1 in
  r = None ∧
  (∀ fd buf len, told (RunOk CopyDone fd buf len) w → ∃ m,
     fd = dst.1 ∧ len = Z.of_nat m ∧ m ≤ length S ∧ take m (file (kernel (os w)) fd) = take m S ∧
     if decide (NUL ∈ take m S) then
       ∃ w', run_next w = Ok (tt, w') ∧ empty w' ∧ mem (os w') = ∅ ∧ printed (os w') = success ++ cstr (take m S) ++ endl ∧ exited (os w') = Some 0%Z
     else run_next w = Fault HeapOverflow) ∧
  (∀ e, run_next w = Fault e →
     e = HeapOverflow ∧ (∃ buf m, told (RunOk CopyDone dst.1 buf (Z.of_nat m)) w ∧ NUL ∉ take m S) ∨
     e = AssertFailure ∧ ∃ a buf, (aio_submit OpWrite a (mkAiocb buf dst.1 (Z.of_nat (length S)) 0) (os w)).1 = (-1)%Z).
Proof.
  intros H0 Hx Hr src dst S. destruct (main_phase _ _ _ _ _ H0 Hx) as (Er & Hne & Hph1). fold src dst in Hne, Hph1. fold S in Hph1.
  pose proof (runs_phase S src.1 dst.1 Hne w1 w Hph1 Hr) as Hph. split; [done|]. split.
  - intros fd buf len Ht. destruct (told_written S src.1 dst.1 Hne _ fd buf len w Hph Ht eq_refl) as (m & -> & -> & Hm & Hrun & Hf).
    exists m. split_and!; [done..|]. destruct (run_told _ _ Ht (proj1 (proj2 (proj2 Hrun)))) as [-> He].
    exact (copyDone_step S dst.1 buf m _ He Hrun Hm).
  - intros e He. destruct (next_step S src.1 dst.1 Hne w Hph) as [(w' & E & _)|[(E & buf & _ & a & Ha)|(E & Hd)]].
    + congruence.
    + right. split; [congruence|]. by exists a, buf.
    + left. split; [congruence|done].
Qed.

End program.

(** * A concrete kernel *)

(** Files by descriptor, operations, and how often it answers that an operation is
    under way before it does it. *)
Record demo := mkDemo {
  d_files : Z → chars;
  d_next : Z;
  d_pending : gmap loc (operation * aiocb);
  d_finished : gmap loc nat;
  d_wait : nat;
}.

Definition d_content (name : string) : chars := if decide (name = "a") then String.list_ascii_of_string "hello" else [].
Definition d_done (a : loc) (n : nat) (f : Z → chars) (k : demo) : demo :=
  mkDemo f (d_next k) (d_pending k) (<[a := n]> (d_finished k)) (d_wait k).
Definition put_file (fd : Z) t (f : Z → chars) : Z → chars := λ fd', if decide (fd' = fd) then t else f fd'.

Definition d_error (a : loc) (p : process demo) : Z * process demo :=
  let k := kernel p in
  match d_wait k with
  | S n => (EINPROGRESS, set_kernel (mkDemo (d_files k) (d_next k) (d_pending k) (d_finished k) n) p)
  | O =>
    match d_pending k !! a with
    | Some (op, ab) =>
      let off := Z.to_nat (aio_offset ab) in
      match mem p !! aio_buf ab with
      | Some t =>
        match op with
        | OpRead =>
          let data := take (Z.to_nat (aio_nbytes ab)) (drop off (d_files k (aio_fildes ab))) in
          (0%Z, set_kernel (d_done a (length data) (d_files k) k)
                  (set_mem (<[aio_buf ab := data ++ drop (length data) t]> (mem p)) p))
        | OpWrite =>
          if decide (0 ≤ aio_nbytes ab)%Z then
            let data := take (Z.to_nat (aio_nbytes ab)) t in
            let old := d_files k (aio_fildes ab) in
            (0%Z, set_kernel (d_done a (length data)
                    (put_file (aio_fildes ab) (take off (old ++ replicate off NUL) ++ data ++ drop (off + length data) old) (d_files k)) k) p)
          else (22%Z, p)
        end
      | None => (14%Z, p)
      end
    | None => (22%Z, p)
    end
  end.

#[export] Instance demo_aio : AIO (process demo) := {|
  aio_submit op a ab p := (0%Z, set_kernel
    (let k := kernel p in mkDemo (d_files k) (d_next k) (<[a := (op, ab)]> (d_pending k)) (d_finished k) (d_wait k)) p);
  aio_error := d_error;
  aio_return a p := (Z.of_nat (default 0 (d_finished (kernel p) !! a)), p);
  os_printf p := p;
  os_errno _ := 9%Z;
|}.

#[export] Instance demo_files : Files demo := {|
  k_open name wr k := (d_next k, mkDemo (put_file (d_next k) (if (wr : bool) then [] else d_content name) (d_files k))
    (d_next k + 1) (d_pending k) (d_finished k) (d_wait k));
  k_close _ k := k;
  k_fstat fd k := Z.of_nat (length (d_files k fd));
  fresh n := replicate n "?"%char;
|}.

Lemma demo_read_law a ab p st p' t :
  d_pending (kernel p) !! a = Some (OpRead, ab) → d_error a p = (st, p') →
  mem p !! aio_buf ab = Some t → (aio_nbytes ab ≤ Z.of_nat (length t))%Z →
  d_files (kernel p') = d_files (kernel p) ∧
  ∃ t', length t' = length t ∧ p' = set_kernel (kernel p') (set_mem (<[aio_buf ab := t']> (mem p)) p) ∧
  (st = EINPROGRESS → d_pending (kernel p') !! a = Some (OpRead, ab)) ∧
  (st = 0%Z → ∃ n, d_finished (kernel p') !! a = Some n ∧
     n = Z.to_nat (aio_nbytes ab) `min` length (drop (Z.to_nat (aio_offset ab)) (d_files (kernel p) (aio_fildes ab))) ∧
     take n t' = take n (drop (Z.to_nat (aio_offset ab)) (d_files (kernel p) (aio_fildes ab)))).
Proof.
  intros Hp He Hb Hn. unfold d_error in He. rewrite Hp, Hb in He.
  destruct (d_wait (kernel p)) as [|n]; injection He as <- <-; simpl.
  - split; [done|]. set (f := drop (Z.to_nat (aio_offset ab)) (d_files (kernel p) (aio_fildes ab))). set (data := take _ f).
    assert (length data = Z.to_nat (aio_nbytes ab) `min` length f) as Hl by apply length_take.
    eexists. split; [|split; [reflexivity|split; [done|]]].
    + rewrite length_app, length_drop. lia.
    + intros _. exists (length data). rewrite lookup_insert_eq. split; [done|]. split; [done|].
      rewrite take_app_length. unfold data. rewrite length_take. by rewrite <-take_take, (take_ge f (length f)) by lia.
  - split; [done|]. exists t. split; [done|]. split; [|done]. destruct p. unfold set_kernel, set_mem. simpl in *. by rewrite insert_id.
Qed.

Lemma demo_write_law a ab p st p' t :
  d_pending (kernel p) !! a = Some (OpWrite, ab) → d_error a p = (st, p') → mem p !! aio_buf ab = Some t →
  p' = set_kernel (kernel p') p ∧
  (st = EINPROGRESS → d_pending (kernel p') !! a = Some (OpWrite, ab)) ∧
  (st = 0%Z → ∃ n, d_finished (kernel p') !! a = Some n ∧ (Z.of_nat n ≤ aio_nbytes ab)%Z ∧
     take n (drop (Z.to_nat (aio_offset ab)) (d_files (kernel p') (aio_fildes ab))) = take n t).
Proof.
  intros Hp He Hb. unfold d_error in He. rewrite Hp, Hb in He.
  destruct (d_wait (kernel p)) as [|n]; [|injection He as <- <-; done].
  case_decide; injection He as <- <-; simpl; [|by destruct p].
  split; [done|]. split; [done|]. intros _. set (data := take (Z.to_nat (aio_nbytes ab)) t).
  assert (length data ≤ Z.to_nat (aio_nbytes ab)) as Hl by (unfold data; rewrite length_take; lia).
  exists (length data). rewrite lookup_insert_eq. split; [done|]. split; [lia|].
  unfold put_file. rewrite decide_True by done. rewrite drop_app_length', take_app_length.
  - unfold data. rewrite length_take. by rewrite <-take_take, (take_ge t (length t)) by lia.
  - rewrite length_take, length_app, length_replicate. lia.
Qed.

#[export, program] Instance demo_laws : KernelLaws demo := {|
  file := d_files;
  opened k fd := (0 ≤ fd < d_next k)%Z;
  pending k a := d_pending k !! a;
  finished k a := d_finished k !! a;
  read_law := demo_read_law;
  write_law := demo_write_law;
|}.
Next Obligation. intros n. apply length_replicate. Qed.
Next Obligation. intros name wr k Hk. simpl in *. lia. Qed.
Next Obligation. done. Qed.
Next Obligation. done. Qed.
Next Obligation. done. Qed.
Next Obligation.
  intros op a ab p r p' [= <- <-]. split; [done|]. left. simpl. split; [done|]. by rewrite lookup_insert_eq.
Qed.
Next Obligation. intros a p n Hn. exists (kernel p). simpl. rewrite Hn. by destruct p. Qed.

Definition demo_start (n : nat) : world callback (process demo) :=
  mkWorld ∅ ∅ ∅ ∅ 1%positive (mkProcess ∅ 1000 (mkDemo (λ _, []) 3 ∅ ∅ n) [] None) [].
Definition demo_run {A} (m : prog (world callback (process demo)) A) (w : world callback (process demo)) :=
  match m w with Ok (_, w') => w' | Fault _ => w end.

(** The file [a] is copied; after two steps of the dispatcher [copyDone] is due. *)
Definition demo_main := demo_run (main 3 "a" "b") (demo_start 1).
Definition demo_due := demo_run run_next (demo_run run_next demo_main).

Lemma copy_correct_witness :
  take 5 (file (kernel (os demo_due)) 4) = String.list_ascii_of_string "hello" ∧ run_next demo_due = Fault HeapOverflow.
Proof.
  assert (main 3 "a" "b" (demo_start 1) = Ok (None, demo_main)) as H0 by (vm_compute; reflexivity).
  assert (run_next demo_main = Ok (tt, demo_run run_next demo_main)) as H1 by (vm_compute; reflexivity).
  assert (run_next (demo_run run_next demo_main) = Ok (tt, demo_due)) as H2 by (vm_compute; reflexivity).
  assert (started (demo_start 1)) as Hs by (repeat split).
  destruct (copy_correct "a" "b" (demo_start 1) None demo_main demo_due Hs H0) as (_ & H & _).
  { eapply runs_more; [eapply runs_more; [apply runs_none|exact H1]|exact H2]. }
  destruct (H 4%Z 1000%Z 5%Z) as (m & _ & E & _ & Hf & Hx); [repeat split; vm_compute; reflexivity|].
  assert (m = 5) as -> by lia. split; [exact Hf|]. revert Hx. 
  destruct (decide _) as [Hn|Hn]; [|intros Hx; exact Hx]. exfalso. revert Hn. apply (bool_decide_unpack _). vm_compute. exact I.
Defined.

End Copy.
