(* ===== verification/DelayedTask.v ===== *)
(** lib/delayed_task.cc: a task that a POSIX timer hands to the dispatcher.

    The client's calls, the expiry of the timer and the handler thread that the
    expiry starts (SIGEV_THREAD) are the steps; the destructor and the handler
    lock [mutex_] over their whole bodies, so that each is one step.  Of POSIX
    timers the model has what the code uses: one timer, armed, disarmed or
    deleted; arming with a zero time disarms; the interval is 0, so that an
    expiry disarms; and a call on a deleted timer or with a time out of range
    fails. *)
From S2P Require Import Prelude.

Module DelayedTask.

Record timespec := mkTimespec { tv_sec : Z; tv_nsec : Z }.

(** The members [task_] and [hasCompleted_] of a live object. *)
Record DelayedTask := mkDelayedTask {
  task_ : loc;
  hasCompleted_ : bool;
}.

Inductive timer := Armed | Disarmed | Deleted.
#[global] Instance timer_eq_dec : EqDecision timer.
Proof. solve_decision. Defined.

(** The object while it lives, the timer [id_], the handler threads that have
    been started and have not run yet, the live tasks this object owns or has
    handed over, and what has been enqueued. *)
Record world := mkWorld {
  object : option DelayedTask;
  timer_state : timer;
  handlers : nat;
  tasks : gset loc;
  enqueued : list loc;
}.
Implicit Types (w : world) (t : loc) (d : timespec).

Definition set_object o w := mkWorld o (timer_state w) (handlers w) (tasks w) (enqueued w).
Definition set_timer s w := mkWorld (object w) s (handlers w) (tasks w) (enqueued w).
Definition set_handlers n w := mkWorld (object w) (timer_state w) n (tasks w) (enqueued w).
Definition set_tasks ts w := mkWorld (object w) (timer_state w) (handlers w) ts (enqueued w).
Definition set_enqueued l w := mkWorld (object w) (timer_state w) (handlers w) (tasks w) l.

(** ** POSIX timers *)

Definition valid_time d : bool :=
  bool_decide (0 ≤ tv_sec d)%Z && bool_decide (0 ≤ tv_nsec d < 1000000000)%Z.
Definition zero_time d : bool := bool_decide (tv_sec d = 0%Z) && bool_decide (tv_nsec d = 0%Z).

(** [timer_settime(id_, 0, &timerSpec, NULL)]: 0 or -1. *)
Definition timer_settime d : prog world Z := λ w,
  if bool_decide (timer_state w = Deleted) || negb (valid_time d) then Ok ((-1)%Z, w)
  else Ok (0%Z, set_timer (if zero_time d then Disarmed else Armed) w).

Definition timer_delete : prog world unit := pmodify (set_timer Deleted).

(** ** The class *)

(** [this->member]. *)
Definition this : prog world DelayedTask := λ w,
  match object w with Some o => Ok (o, w) | None => Fault UseAfterFree end.

Definition delete_task t : prog world unit := λ w,
  if decide (t ∈ tasks w) then Ok (tt, set_tasks (tasks w ∖ {[t]}) w) else Fault DoubleFree.

(** [Dispatcher::instance()->enqueue(task)]: ownership is passed on. *)
Definition enqueue t : prog world unit := pmodify (λ w, set_enqueued (enqueued w ++ [t]) w).

(** The constructor; [timer_create] makes a disarmed timer, or fails. *)
Definition new_DelayedTask (created : bool) (newTask : loc) (delay : timespec) : prog world unit :=
  pmodify (set_object (Some (mkDelayedTask newTask false))) ;;;
  passert created ;;;
  pmodify (set_timer Disarmed) ;;;
  let! r := timer_settime delay in
  passert (bool_decide (r = 0%Z)).

Definition complete : prog world unit :=
  let! o := this in
  pmodify (set_object (Some (mkDelayedTask (task_ o) true))).

(** The destructor; afterwards the object is gone. *)
Definition destroy : prog world unit :=
  let! o := this in
  (if negb (hasCompleted_ o) then
     timer_delete ;;; delete_task (task_ o) ;;; complete
   else pret tt) ;;;
  pmodify (set_object None).

Definition resetTimer (newDelay : timespec) : prog world unit :=
  let! _ := this in
  let! r := timer_settime newDelay in
  passert (bool_decide (r = 0%Z)).

Definition timeoutHandler : prog world unit :=
  let! o := this in
  if negb (hasCompleted_ o) then
    enqueue (task_ o) ;;; timer_delete ;;; complete
  else pret tt.

(** ** Steps *)

Inductive event :=
  | Expire
  | Handler
  | Reset (newDelay : timespec)
  | Destroy.

Definition exec (m : prog world unit) w : option (outcome world) :=
  Some (match m w with Ok (_, w') => Ok w' | Fault e => Fault e end).

(** [None]: not now.  The client calls methods of a live object only. *)
Definition step (e : event) w : option (outcome world) :=
  match e with
  | Expire =>
    match timer_state w with
    | Armed => Some (Ok (set_timer Disarmed (set_handlers (S (handlers w)) w)))
    | _ => None
    end
  | Handler =>
    match handlers w with
    | S n => exec timeoutHandler (set_handlers n w)
    | O => None
    end
  | Reset d => match object w with Some _ => exec (resetTimer d) w | None => None end
  | Destroy => match object w with Some _ => exec destroy w | None => None end
  end.

(** The world in which a client has made a task and no object yet. *)
Definition init t : world := mkWorld None Deleted 0 {[t]} [].

Inductive reachable t : world → Prop :=
  | reachable_new created d w : new_DelayedTask created t d (init t) = Ok (tt, w) → reachable t w
  | reachable_step w e w' : reachable t w → step e w = Some (Ok w') → reachable t w'.

Fixpoint steps (l : list event) w : option (outcome world) :=
  match l with
  | [] => Some (Ok w)
  | e :: l => match step e w with Some (Ok w') => steps l w' | r => r end
  end.

(** * Properties *)

(** The three situations: waiting, handed to the dispatcher, cancelled. *)
Inductive situation t w : Prop :=
  | waiting :
    object w = Some (mkDelayedTask t false) → timer_state w ≠ Deleted →
    tasks w = {[t]} → enqueued w = [] → situation t w
  | handed_over :
    (object w = Some (mkDelayedTask t true) ∨ object w = None) → timer_state w = Deleted →
    tasks w = {[t]} → enqueued w = [t] → situation t w
  | cancelled :
    object w = None → timer_state w = Deleted → tasks w = ∅ → enqueued w = [] → situation t w.

Ltac run := unfold exec, new_DelayedTask, timeoutHandler, destroy, resetTimer, complete, this,
  timer_settime, timer_delete, delete_task, enqueue, passert, pbind, pmodify, pret, pfail in *; simpl in *.

(** Reads of the object at [H]. *)
Ltac run_at Ho H := repeat (rewrite Ho in H; simpl in H).

Lemma situation_new created t d w : new_DelayedTask created t d (init t) = Ok (tt, w) → situation t w ∧ handlers w = 0.
Proof.
  intros H. run. destruct created; simpl in H; [|done]. destruct (valid_time d); simpl in H; [|done]. injection H as <-. split; [|done].
  apply waiting; try done. simpl. by destruct (zero_time d).
Qed.

Lemma situation_step t w e w' : situation t w → step e w = Some (Ok w') → situation t w'.
Proof.
  intros Hw H. destruct e; simpl in H.
  - destruct (timer_state w) eqn:Ht; [|done..]. injection H as <-.
    destruct Hw as [Ho _ Hts He|Ho Ht' Hts He|Ho Ht' Hts He]; try congruence. by apply waiting.
  - destruct (handlers w) as [|n]; [done|].
    destruct Hw as [Ho Ht Hts He|[Ho|Ho] Ht Hts He|Ho Ht Hts He]; run; run_at Ho H;
      try done; injection H as <-; simpl.
    + apply handed_over; simpl; try done; [by left|by rewrite He].
    + apply handed_over; simpl; try done. by left.
  - destruct (object w) eqn:E; [clear E|done].
    destruct Hw as [Ho Ht Hts He|[Ho|Ho] Ht Hts He|Ho Ht Hts He]; [| |run; by run_at Ho H..].
    + run. run_at Ho H. rewrite bool_decide_eq_false_2 in H by done.
      destruct (valid_time newDelay); simpl in H; [|done]. injection H as <-.
      apply waiting; simpl; try done; try congruence. by destruct (zero_time newDelay).
    + run. rewrite Ho in H. simpl in H. by rewrite bool_decide_eq_true_2 in H by done.
  - destruct (object w) eqn:E; [clear E|done].
    destruct Hw as [Ho Ht Hts He|[Ho|Ho] Ht Hts He|Ho Ht Hts He]; run; run_at Ho H; try done.
    + rewrite decide_True in H by (rewrite Hts; set_solver). run_at Ho H. simpl in H. run_at Ho H. injection H as <-.
      apply cancelled; simpl; try done. rewrite Hts. set_solver.
    + injection H as <-. apply handed_over; simpl; try done. by right.
Qed.

Lemma situation_reachable t w : reachable t w → situation t w.
Proof. induction 1; [by eapply situation_new|by eapply situation_step]. Qed.

(** C31: ownership of the task: at every moment it is waiting for the timer, or
    it has been handed to the dispatcher, once, and is not deleted by this
    object, or it was deleted by the destructor and never reaches the
    dispatcher; and once it is not waiting any more the timer is deleted. *)
Theorem task_handed_over_once t w :
  reachable t w → situation t w.
Proof. apply situation_reachable. Qed.

(** What can go wrong after construction, where [timer_create] or the first
    [timer_settime] may have failed its assertion: a handler thread that runs after
    the object is gone uses it after its release, and [resetTimer] fails its
    assertion if the task has already been handed over or the time is not
    valid; nothing else does. *)
Theorem delayed_task_faults t w e f :
  reachable t w →
  step e w = Some (Fault f) ↔
  (e = Handler ∧ 0 < handlers w ∧ object w = None ∧ f = UseAfterFree) ∨
  (∃ d, e = Reset d ∧ is_Some (object w) ∧ f = AssertFailure ∧
    (enqueued w = [t] ∨ valid_time d = false)).
Proof.
  intros Hw%situation_reachable. destruct e; simpl.
  - destruct (timer_state w); naive_solver.
  - destruct (handlers w) as [|n]; [split; [done|]; intros [?|?]; [lia|naive_solver]|].
    destruct Hw as [Ho Ht Hts He|[Ho|Ho] Ht Hts He|Ho Ht Hts He]; run; do 2 (rewrite ?Ho; simpl).
    1-2: split; [done|naive_solver].
    all: split; [intros [= <-]; left; split_and!; done || lia|naive_solver].
  - destruct Hw as [Ho Ht Hts He|[Ho|Ho] Ht Hts He|Ho Ht Hts He]; rewrite Ho; run; rewrite ?Ho; simpl.
    + rewrite bool_decide_eq_false_2 by done. destruct (valid_time newDelay) eqn:Hv; simpl.
      * split; [done|]. intros [[? _]|(d & [= <-] & _ & _ & [?|?])]; congruence.
      * split; [|naive_solver]. intros [= <-]. right. exists newDelay. eauto.
    + rewrite bool_decide_eq_true_2 by done. simpl. split; [|naive_solver].
      intros [= <-]. right. exists newDelay. eauto.
    + split; [done|]. intros [[? _]|(d & _ & Hs & _)]; [done|by apply is_Some_None in Hs].
    + split; [done|]. intros [[? _]|(d & _ & Hs & _)]; [done|by apply is_Some_None in Hs].
  - split; [|naive_solver].
    destruct Hw as [Ho Ht Hts He|[Ho|Ho] Ht Hts He|Ho Ht Hts He]; rewrite Ho; run; rewrite ?Ho; simpl; try done.
    rewrite decide_True by (rewrite Hts; set_solver). simpl. by rewrite Ho.
Qed.

(** Events after which no new time has been set. *)
Definition no_reset (e : event) : bool := match e with Reset _ => false | _ => true end.

(** Nothing is under way. *)
Lemma idle_steps t l w w' :
  object w = Some (mkDelayedTask t false) ∨ object w = None → timer_state w ≠ Armed → handlers w = 0 →
  forallb no_reset l = true → steps l w = Some (Ok w') → enqueued w' = enqueued w.
Proof.
  revert w. induction l as [|e l IH]; intros w Ho Ht Hh Hl H; simpl in H; [by injection H as <-|].
  simpl in Hl. apply andb_prop in Hl as [He Hl].
  destruct e; simpl in H; try done.
  - by destruct (timer_state w).
  - by rewrite Hh in H.
  - destruct Ho as [Ho|Ho]; rewrite Ho in H; [|done]. run. rewrite Ho in H. simpl in H.
    destruct (decide (t ∈ tasks w)); [|done]. simpl in H. rewrite Ho in H. simpl in H.
    apply IH in H; simpl; eauto.
Qed.

(** when the task runs: with a time other than zero, the expiry of the timer
    and the handler thread it starts hand the task to the dispatcher; with the
    time zero, which disarms the timer, the task is never handed over unless a
    time is set again, contrary to the documented contract, which bounds the
    delay only from below. *)
Lemma delayed_task_fires created t d w :
  new_DelayedTask created t d (init t) = Ok (tt, w) →
  (zero_time d = false →
   ∃ w', steps [Expire; Handler] w = Some (Ok w') ∧ enqueued w' = [t]) ∧
  (zero_time d = true →
   ∀ l w', forallb no_reset l = true → steps l w = Some (Ok w') → enqueued w' = []).
Proof.
  intros H. pose proof H as Hnew. run. destruct created; simpl in H; [|done]. destruct (valid_time d) eqn:Hv; simpl in H; [|done].
  injection H as <-. split; intros Hz; rewrite Hz.
  - eexists. by split.
  - intros l w' Hl Hs. eapply (idle_steps t) in Hs; simpl; eauto.
Qed.

(** * A concrete run *)

Definition demo (l : list event) : world :=
  match new_DelayedTask true 1%positive (mkTimespec 1 0) (init 1%positive) with
  | Ok (_, w) => match steps l w with Some (Ok w') => w' | _ => w end
  | Fault _ => init 1%positive
  end.

Lemma steps_reachable t l w w' : reachable t w → steps l w = Some (Ok w') → reachable t w'.
Proof.
  revert w. induction l as [|e l IH]; intros w Hw H; simpl in H; [by injection H as <-|].
  destruct (step e w) as [[w1|]|] eqn:He; [|done..]. eapply IH; [|done]. by eapply reachable_step.
Qed.

Lemma demo_timer_reachable l : reachable 1%positive (demo l).
Proof.
  unfold demo. destruct (new_DelayedTask _ _ _ _) as [[[] w]|] eqn:H; [|done].
  apply reachable_new in H. destruct (steps l w) as [[w'|]|] eqn:Hs; [|done..].
  by eapply steps_reachable.
Qed.

Lemma task_handed_over_once_witness :
  let w := demo [Expire; Reset (mkTimespec 2 0); Handler] in
  enqueued w = [1%positive] ∧ situation 1%positive w.
Proof. split; [by vm_compute|]. apply task_handed_over_once, demo_timer_reachable. Defined.

(** The object is destroyed between the expiry and the handler thread. *)
Lemma delayed_task_faults_witness :
  step Handler (demo [Expire; Destroy]) = Some (Fault UseAfterFree).
Proof.
  apply (delayed_task_faults 1%positive); [apply demo_timer_reachable|].
  left. split; [done|]. split; [vm_compute; lia|]. by split.
Defined.

Lemma delayed_task_fires_witness :
  ∃ w', steps [Expire; Handler] (demo []) = Some (Ok w') ∧ enqueued w' = [1%positive].
Proof. by apply (delayed_task_fires true 1%positive (mkTimespec 1 0) (demo [])). Defined.

End DelayedTask.
