(* ===== verification/Sync.v ===== *)
(** lib/inc/lock.h: the semaphore and the timed wait of the condition variable.
    [Mutex] and [ConditionVar] are the POSIX objects behind them: a mutex is
    its owner, and a condition variable the set of the threads that wait. *)
From S2P Require Import Prelude.

(** * [Semaphore] *)

Module Semaphore.

Abbreviation tid := nat.

(** [int] has 32 bits, and its overflow is undefined. *)
Definition INT_MAX : Z := (2 ^ 31 - 1)%Z.
Definition INT_MIN : Z := (- 2 ^ 31)%Z.
Definition is_int (z : Z) : Prop := (INT_MIN ≤ z ≤ INT_MAX)%Z.

(** Where a call of [up] or [down] is.  [DownTest woken] is at the head of the
    loop, for the first time or after [wait] has returned; a thread that was
    signalled is [Woken] until it has the mutex again. *)
Inductive pc :=
  | UpLock | UpBody | UpSignal | UpUnlock
  | DownLock | DownTest (woken : bool) | Waiting | Woken | DownUnlock.

#[global] Instance pc_eq_dec : EqDecision pc.
Proof. solve_decision. Defined.

Record sem := mkSem {
  val_ : Z;
  owner : option tid;
  calls : gmap tid pc;
  ups : nat;
  downs : nat;
}.
Implicit Types (s : sem) (i j : tid).

(** The constructor; [ups] and [downs] count what has been done to [val_] and
    are not in the program. *)
Definition new_semaphore (initVal : Z) : sem := mkSem initVal None ∅ 0 0.

Definition goto i (c : pc) s : sem := mkSem (val_ s) (owner s) (<[i := c]> (calls s)) (ups s) (downs s).
Definition return_ i s : sem := mkSem (val_ s) None (delete i (calls s)) (ups s) (downs s).
Definition set_owner o s : sem := mkSem (val_ s) o (calls s) (ups s) (downs s).

Definition lock i (c : pc) s : option (outcome sem) :=
  match owner s with
  | None => Some (Ok (goto i c (set_owner (Some i) s)))
  | Some _ => None
  end.

(** [cond_.signal()]: if threads wait, one of them, which the system chooses,
    is woken. *)
Definition signal (choice : option tid) s : option (outcome sem) :=
  match choice with
  | Some j => match calls s !! j with Some Waiting => Some (Ok (goto j Woken s)) | _ => None end
  | None => if decide (map_Forall (λ _ c, c ≠ Waiting) (calls s)) then Some (Ok s) else None
  end.

(** One step of thread [i]; [choice] is whom a signal wakes. *)
Definition run i (choice : option tid) s : option (outcome sem) :=
  match calls s !! i with
  | Some UpLock => lock i UpBody s
  | Some UpBody =>
    if decide (val_ s < INT_MAX)%Z then
      Some (Ok (goto i (if decide (0 < val_ s + 1)%Z then UpSignal else UpUnlock)
        (mkSem (val_ s + 1) (owner s) (calls s) (S (ups s)) (downs s))))
    else Some (Fault OutOfRange)
  | Some UpSignal => signal choice (goto i UpUnlock s)
  | Some UpUnlock => Some (Ok (return_ i s))
  | Some DownLock => lock i (DownTest false) s
  | Some (DownTest _) =>
    if decide (val_ s ≤ 0)%Z then Some (Ok (goto i Waiting (set_owner None s)))
    else if decide (INT_MIN < val_ s)%Z then
      Some (Ok (goto i DownUnlock (mkSem (val_ s - 1) (owner s) (calls s) (ups s) (S (downs s)))))
    else Some (Fault OutOfRange)
  | Some Woken => lock i (DownTest true) s
  | Some DownUnlock => Some (Ok (return_ i s))
  | Some Waiting | None => None
  end.

Inductive event :=
  | Up (i : tid)
  | Down (i : tid)
  | Run (i : tid) (choice : option tid)
  | Spurious (i : tid).

(** [Spurious]: POSIX lets [pthread_cond_wait] return without a signal. *)
Definition step (e : event) s : option (outcome sem) :=
  match e with
  | Up i => match calls s !! i with None => Some (Ok (goto i UpLock s)) | _ => None end
  | Down i => match calls s !! i with None => Some (Ok (goto i DownLock s)) | _ => None end
  | Run i choice => run i choice s
  | Spurious i =>
    match calls s !! i with Some Waiting => Some (Ok (goto i Woken s)) | _ => None end
  end.

Inductive reachable (initVal : Z) : sem → Prop :=
  | reachable_new : reachable initVal (new_semaphore initVal)
  | reachable_step s e s' :
    reachable initVal s → step e s = Some (Ok s') → reachable initVal s'.

(** * Invariant *)

Definition holds (c : pc) : bool :=
  match c with UpBody | UpSignal | UpUnlock | DownTest _ | DownUnlock => true | _ => false end.
(** Threads that have been woken and have not tested [val_] since, or that are
    about to wake one. *)
Definition awake (c : pc) : nat := match c with Woken | DownTest true | UpSignal => 1 | _ => 0 end.

(** The owner of the mutex is the thread that is between lock and unlock. *)
Definition mutex_ok s : Prop :=
  ∀ i, owner s = Some i ↔ ∃ c, calls s !! i = Some c ∧ holds c = true.

Record inv (initVal : Z) s : Prop := {
  inv_owner : mutex_ok s;
  inv_val : val_ s = (initVal + Z.of_nat (ups s) - Z.of_nat (downs s))%Z;
  inv_int : is_int (val_ s);
  inv_low : (Z.min initVal 0 ≤ val_ s)%Z;
  inv_wakeup : (∃ i, calls s !! i = Some Waiting) →
    (val_ s ≤ Z.of_nat (map_weight awake (calls s)))%Z;
}.

Definition opt_holds (oc : option pc) : bool := match oc with Some c => holds c | None => false end.

(** The mutex part, for a step that takes thread [i] from [oc] to [oc']. *)
Lemma owner_step s s' i oc oc' :
  mutex_ok s → calls s !! i = oc → calls s' = partial_alter (λ _, oc') i (calls s) →
  owner_change i (opt_holds oc) (opt_holds oc') (owner s) (owner s') →
  mutex_ok s'.
Proof.
  assert (Hopt : ∀ oc, opt_holds oc = true ↔ ∃ c, oc = Some c ∧ holds c = true).
  { intros [c|]; naive_solver. }
  intros Hown Hi Hc Ho j. rewrite <-(Hopt (calls s' !! j)), Hc.
  destruct (owner_change_ok _ _ _ _ _ j Ho) as [H1 H2].
  { rewrite (Hown i), Hi. by rewrite Hopt. }
  destruct (decide (j = i)) as [->|Hne].
  - by rewrite lookup_partial_alter_eq.
  - by rewrite lookup_partial_alter_ne, H2, (Hown j), Hopt by done.
Qed.
Lemma waiting_move s i c c' :
  calls s !! i = Some c → c' ≠ Waiting →
  (∃ j, <[i := c']> (calls s) !! j = Some Waiting) → ∃ j, calls s !! j = Some Waiting.
Proof.
  intros Hi Hc [j Hj]. apply lookup_insert_Some in Hj as [[-> ?]|[_ Hj]]; [done|eauto].
Qed.

Ltac owner_tac Hown Hi :=
  eapply owner_step; [exact Hown|exact Hi|reflexivity|simpl; try done].

Lemma sem_inv_new initVal : is_int initVal → inv initVal (new_semaphore initVal).
Proof.
  intros Hi. split; simpl; try done; try lia.
  - intros i. simpl. rewrite lookup_empty. naive_solver.
  - intros [i H]. by rewrite lookup_empty in H.
Qed.

Lemma sem_inv_signal initVal s choice s' :
  mutex_ok s →
  val_ s = (initVal + Z.of_nat (ups s) - Z.of_nat (downs s))%Z → is_int (val_ s) →
  (Z.min initVal 0 ≤ val_ s)%Z →
  ((∃ i, calls s !! i = Some Waiting) → (val_ s ≤ Z.of_nat (map_weight awake (calls s)) + 1)%Z) →
  signal choice s = Some (Ok s') → inv initVal s'.
Proof.
  intros Hown Hval Hint Hlow Hw H. unfold signal in H. destruct choice as [j|].
  - destruct (calls s !! j) as [[]|] eqn:Hj; try done. injection H as <-.
    split; simpl; try done; [by owner_tac Hown Hj|].
    intros _. pose proof (map_weight_move awake _ _ _ Woken Hj) as Hm. simpl in Hm.
    specialize (Hw (ex_intro _ j Hj)). lia.
  - case_decide as Hn; [|done]. injection H as <-. split; try done.
    intros [i Hi]. by destruct (Hn i Waiting Hi).
Qed.

Lemma sem_inv_step initVal s e s' : inv initVal s → step e s = Some (Ok s') → inv initVal s'.
Proof.
  intros [Hown Hval Hint Hlow Hw] H.
  assert (Hlock : ∀ i c c', calls s !! i = Some c → holds c = false → holds c' = true →
    awake c' = awake c → c' ≠ Waiting → lock i c' s = Some (Ok s') → inv initVal s').
  { intros i c c' Hi Hc Hc' Ha Hne Hl. unfold lock in Hl. destruct (owner s) eqn:Ho; [done|].
    injection Hl as <-. split; simpl; try done.
    - owner_tac Hown Hi. by rewrite Hc, Hc'.
    - intros Hx. apply (waiting_move s i c c' Hi Hne) in Hx. specialize (Hw Hx).
      pose proof (map_weight_move awake _ _ _ c' Hi). lia. }
  destruct e as [i|i|i choice|i]; simpl in H.
  - destruct (calls s !! i) eqn:Hi; [done|]. injection H as <-. split; simpl; try done.
    + owner_tac Hown Hi.
    + intros [j Hj]. apply lookup_insert_Some in Hj as [[_ ?]|[_ Hj]]; [done|].
      rewrite map_weight_insert by done. specialize (Hw (ex_intro _ j Hj)). simpl. lia.
  - destruct (calls s !! i) eqn:Hi; [done|]. injection H as <-. split; simpl; try done.
    + owner_tac Hown Hi.
    + intros [j Hj]. apply lookup_insert_Some in Hj as [[_ ?]|[_ Hj]]; [done|].
      rewrite map_weight_insert by done. specialize (Hw (ex_intro _ j Hj)). simpl. lia.
  - unfold run in H. destruct (calls s !! i) as [[]|] eqn:Hi; try done.
    + by apply (Hlock i UpLock UpBody).
    + case_decide as Hlt; [|done]. injection H as <-. split; simpl; unfold is_int in *; try lia.
      * case_decide; owner_tac Hown Hi.
      * intros Hx. case_decide.
        -- pose proof (map_weight_move awake _ _ _ UpSignal Hi) as Hm. simpl in Hm.
           apply (waiting_move s i _ _ Hi) in Hx; [|done]. specialize (Hw Hx). lia.
        -- lia.
    + eapply (sem_inv_signal _ (goto i UpUnlock s)); try done; simpl.
      * owner_tac Hown Hi.
      * intros Hx. apply (waiting_move s i _ _ Hi) in Hx; [|done]. specialize (Hw Hx).
        pose proof (map_weight_move awake _ _ _ UpUnlock Hi) as Hm. simpl in Hm. lia.
    + injection H as <-. split; simpl; try done; [owner_tac Hown Hi|].
      intros [j Hj]. apply lookup_delete_Some in Hj as [_ Hj]. specialize (Hw (ex_intro _ j Hj)).
      rewrite (map_weight_delete awake _ _ _ Hi) in Hw. simpl in Hw. lia.
    + by apply (Hlock i DownLock (DownTest false)).
    + case_decide as Hle; [|case_decide; [|done]]; injection H as <-; unfold is_int in *.
      * split; simpl; try done; [owner_tac Hown Hi|]. intros _. lia.
      * split; simpl; unfold is_int in *; try lia; [owner_tac Hown Hi|].
        intros Hx. apply (waiting_move s i _ _ Hi) in Hx; [|done]. specialize (Hw Hx).
        pose proof (map_weight_move awake _ _ _ DownUnlock Hi) as Hm.
        destruct woken; simpl in Hm; lia.
    + by apply (Hlock i Woken (DownTest true)).
    + injection H as <-. split; simpl; try done; [owner_tac Hown Hi|].
      intros [j Hj]. apply lookup_delete_Some in Hj as [_ Hj]. specialize (Hw (ex_intro _ j Hj)).
      rewrite (map_weight_delete awake _ _ _ Hi) in Hw. simpl in Hw. lia.
  - destruct (calls s !! i) as [[]|] eqn:Hi; try done. injection H as <-. split; simpl; try done.
    + owner_tac Hown Hi.
    + intros _. specialize (Hw (ex_intro _ i Hi)).
      pose proof (map_weight_move awake _ _ _ Woken Hi) as Hm. simpl in Hm. lia.
Qed.

Lemma sem_inv_reachable initVal s : is_int initVal → reachable initVal s → inv initVal s.
Proof. intros Hi. induction 1; [by apply sem_inv_new|by eapply sem_inv_step]. Qed.

(** * Properties *)

(** C38: the value of the semaphore is its initial value plus the completed
    increments minus the completed decrements; it never falls below the lesser
    of the initial value and 0, so that a decrement never overflows, whatever
    the initial value; and the only step that is undefined is an increment at
    the greatest value. *)
Theorem semaphore_value initVal s e f :
  is_int initVal → reachable initVal s →
  val_ s = (initVal + Z.of_nat (ups s) - Z.of_nat (downs s))%Z ∧
  (Z.min initVal 0 ≤ val_ s)%Z ∧
  (step e s = Some (Fault f) →
    val_ s = INT_MAX ∧ ∃ i choice, e = Run i choice ∧ calls s !! i = Some UpBody).
Proof.
  intros Hi Hr. destruct (sem_inv_reachable initVal s Hi Hr) as [_ Hval Hint Hlow _].
  split_and!; [done..|]. intros H.
  destruct e as [i|i|i choice|i]; simpl in H; try by repeat case_match.
  unfold run in H. destruct (calls s !! i) as [[]|] eqn:Hc; unfold lock, signal in H;
    try by repeat case_match.
  - case_decide; [done|]. unfold is_int in Hint. split; [lia|]. by exists i, choice.
  - case_decide; [done|]. case_decide; [done|]. unfold INT_MIN in *. lia.
Qed.

(** C40: no wake-up is lost: while the value is positive and threads wait, some
    thread that has been woken, or is about to wake one, has yet to look at the
    value; in particular the system never rests in a state in which a thread
    waits although it could take the semaphore. *)
Theorem no_lost_wakeup initVal s i :
  is_int initVal → reachable initVal s → calls s !! i = Some Waiting → (0 < val_ s)%Z →
  (val_ s ≤ Z.of_nat (map_weight awake (calls s)))%Z ∧
  ∃ j c, calls s !! j = Some c ∧ awake c = 1.
Proof.
  intros Hi Hr Hw Hv. destruct (sem_inv_reachable initVal s Hi Hr) as [_ _ _ _ Hwake].
  specialize (Hwake (ex_intro _ i Hw)). split; [done|].
  destruct (decide (map_Exists (λ _ c, awake c = 1) (calls s))) as [He|Hn].
  - apply map_Exists_lookup in He as (j & c & Hj & Hc). eauto.
  - exfalso. rewrite map_weight_zero in Hwake; [lia|].
    intros j c Hj. destruct (awake c) as [|[|n]] eqn:Hc; [done| |by destruct c as [| | | | |[]| | |]].
    destruct Hn. apply map_Exists_lookup. eauto.
Qed.

(** * Concrete runs *)

Fixpoint steps (l : list event) s : option (outcome sem) :=
  match l with
  | [] => Some (Ok s)
  | e :: l => match step e s with Some (Ok s') => steps l s' | r => r end
  end.

Definition demo_sem (l : list event) : sem :=
  match steps l (new_semaphore 0) with Some (Ok s) => s | _ => new_semaphore 0 end.

Lemma demo_sem_reachable l : reachable 0 (demo_sem l).
Proof.
  assert (∀ s s', reachable 0 s → steps l s = Some (Ok s') → reachable 0 s') as Hl.
  { induction l as [|e l IH]; intros s s' Hs H; simpl in H; [by injection H as <-|].
    destruct (step e s) as [[s1|]|] eqn:He; [|done..]. eapply IH; [|done]. by eapply reachable_step. }
  unfold demo_sem. destruct (steps l _) as [[s|]|] eqn:H; try constructor.
  eapply Hl; [|done]. constructor.
Qed.

(** Thread 1 waits; thread 2 is about to signal. *)
Definition demo_events : list event :=
  [Down 1; Run 1 None; Run 1 None; Up 2; Run 2 None; Run 2 None].

Lemma semaphore_value_witness :
  val_ (demo_sem demo_events) = 1%Z ∧ ups (demo_sem demo_events) = 1 ∧
  (Z.min 0 0 ≤ val_ (demo_sem demo_events))%Z.
Proof.
  split; [by vm_compute|]. split; [by vm_compute|].
  apply (semaphore_value 0 (demo_sem demo_events) (Up 3) OutOfRange);
    [by vm_compute|apply demo_sem_reachable].
Defined.

Lemma no_lost_wakeup_witness :
  ∃ j c, calls (demo_sem demo_events) !! j = Some c ∧ awake c = 1.
Proof.
  apply (no_lost_wakeup 0 (demo_sem demo_events) 1);
    [by vm_compute|apply demo_sem_reachable|by vm_compute|by vm_compute].
Defined.

End Semaphore.

(** * [ConditionVar] *)

Module ConditionVar.

(** [timeval] and the deadline that [timedWait(mutex, timeout)] computes; times
    in nanoseconds. *)
Record timeval := mkTimeval { tv_sec : Z; tv_usec : Z }.
Definition nanos (s n : Z) : Z := (s * 1000000000 + n)%Z.
Definition timedWait_deadline (now : timeval) (timeout : Z) : Z := nanos (tv_sec now + timeout) 0.

(** A timed wait of [timeout] seconds ends up to a second early: its
    deadline is never later than [timeout] seconds from now and always later
    than [timeout - 1] seconds, and the whole second is lost up to a
    microsecond when the clock is about to change seconds. *)
Theorem timedWait_early now timeout :
  (0 ≤ tv_usec now < 1000000)%Z →
  let start := nanos (tv_sec now) (tv_usec now * 1000) in
  (start + nanos (timeout - 1) 0 < timedWait_deadline now timeout ≤ start + nanos timeout 0)%Z ∧
  timedWait_deadline (mkTimeval (tv_sec now) 999999) timeout =
    (nanos (tv_sec now) (999999 * 1000) + nanos (timeout - 1) 1000)%Z.
Proof. unfold timedWait_deadline, nanos. simpl. lia. Qed.

Lemma timedWait_early_witness :
  (timedWait_deadline (mkTimeval 100 999999) 1 ≤ nanos 100 999999000 + nanos 1 0)%Z.
Proof. apply (timedWait_early (mkTimeval 100 999999) 1). simpl. lia. Defined.

End ConditionVar.
