(* ===== verification/Lock.v ===== *)
(** lib/inc/lock.h: [Mutex] and [ScopedLock], and what the type of a mutex
    matters.

    [Mutex] means to make a recursive mutex, but sets the type in attributes that
    were never initialised, so that POSIX does not say which type it gets.  The
    theorems show when the type matters, and that it does not for the event
    dispatcher and the semaphore: no thread ever locks a mutex that it has. *)
From S2P Require Import Prelude EventDispatcher EventLoop EventLoopProps Sync.

(** [pthread_mutexattr_t].  [mutexattr_settype] does what it says only on
    attributes that are initialised. *)
Inductive mutex_kind := NORMAL | ERRORCHECK | RECURSIVE.
Class MutexAttr := {
  mutexattr : Type;
  mutexattr_ready : mutexattr → Prop;
  mutexattr_settype : mutexattr → mutex_kind → mutexattr;
  mutexattr_kind : mutexattr → mutex_kind;
  mutexattr_law a k : mutexattr_ready a → mutexattr_kind (mutexattr_settype a k) = k;
}.

Module Mutex.

Abbreviation tid := nat.

(** A POSIX mutex: its type, who has it, and how often. *)
Record Mutex := mkMutex { kind : mutex_kind; owner : option tid; depth : nat }.
Implicit Types (i j : tid) (x : Mutex).

Definition free (k : mutex_kind) : Mutex := mkMutex k None 0.

(** The constructor; [m_attr] is what was on the stack. *)
Definition new_mutex `{MutexAttr} (m_attr : mutexattr) : Mutex :=
  free (mutexattr_kind (mutexattr_settype m_attr RECURSIVE)).

(** The error numbers. *)
Inductive error := OK | EDEADLK | EPERM.

(** [lock]: [None] if the thread waits - for itself, if the mutex is [NORMAL] and
    it has it already. *)
Definition lock i x : option (error * Mutex) :=
  match owner x with
  | None => Some (OK, mkMutex (kind x) (Some i) 1)
  | Some j =>
    if decide (j = i) then
      match kind x with
      | RECURSIVE => Some (OK, mkMutex (kind x) (owner x) (S (depth x)))
      | ERRORCHECK => Some (EDEADLK, x)
      | NORMAL => None
      end
    else None
  end.

(** [unlock]: the thread must have the mutex; if not, a [NORMAL] one is undefined
    and the others report it. *)
Definition unlock i x : outcome (error * Mutex) :=
  if decide (owner x = Some i) then
    match depth x with
    | S (S n) => Ok (OK, mkMutex (kind x) (owner x) (S n))
    | _ => Ok (OK, free (kind x))
    end
  else match kind x with NORMAL => Fault OutOfRange | _ => Ok (EPERM, x) end.

(** * [ScopedLock] *)

(** The mutexes of a program by number; the constructor locks, the destructor
    unlocks, and both drop the answer. *)
Abbreviation mutexes := (gmap nat Mutex).
Implicit Types (ms : mutexes) (m : nat).

Definition scope_enter i m ms : option (outcome mutexes) :=
  match ms !! m with
  | None => Some (Fault UseAfterFree)
  | Some x => match lock i x with Some (_, x') => Some (Ok (<[m := x']> ms)) | None => None end
  end.

Definition scope_exit i m ms : outcome mutexes :=
  match ms !! m with
  | None => Fault UseAfterFree
  | Some x => match unlock i x with Ok (_, x') => Ok (<[m := x']> ms) | Fault e => Fault e end
  end.

(** Code with scoped locks. *)
Inductive block := Work | Seq (b1 b2 : block) | Scope (m : nat) (b : block).

(** What thread [i] alone makes of it; [None]: it waits for ever. *)
Fixpoint run i (b : block) ms : option (outcome mutexes) :=
  match b with
  | Work => Some (Ok ms)
  | Seq b1 b2 => match run i b1 ms with Some (Ok ms1) => run i b2 ms1 | r => r end
  | Scope m b =>
    match scope_enter i m ms with
    | Some (Ok ms1) => match run i b ms1 with Some (Ok ms2) => Some (scope_exit i m ms2) | r => r end
    | r => r
    end
  end.

(** The mutexes of a block, and that no scope is inside one of the same mutex. *)
Fixpoint uses (b : block) : gset nat :=
  match b with Work => ∅ | Seq b1 b2 => uses b1 ∪ uses b2 | Scope m b => {[m]} ∪ uses b end.
Fixpoint no_reentry (b : block) : bool :=
  match b with
  | Work => true
  | Seq b1 b2 => no_reentry b1 && no_reentry b2
  | Scope m b => bool_decide (m ∉ uses b) && no_reentry b
  end.

(** A mutex that a thread can take. *)
Definition takes i x : Prop := x = free (kind x) ∨ kind x = RECURSIVE ∧ owner x = Some i ∧ 0 < depth x.

(** Whatever the types, scoped locks that are not reentrant run to their end and
    leave every mutex as it was; recursive mutexes may be taken again. *)
Theorem scoped_balanced i b ms :
  (∀ m, m ∈ uses b → ∃ x, ms !! m = Some x ∧ takes i x) →
  no_reentry b = true ∨ (∀ m x, m ∈ uses b → ms !! m = Some x → kind x = RECURSIVE) →
  run i b ms = Some (Ok ms).
Proof.
  revert ms. induction b as [|b1 IH1 b2 IH2|m b IH]; intros ms Hu Hr; simpl in *; [done|..].
  - rewrite IH1, IH2; [done|..]; try (intros m Hm; apply Hu; set_solver).
    + destruct Hr as [[_ ?]%andb_prop|?]; [by left|right; set_solver].
    + destruct Hr as [[? _]%andb_prop|?]; [by left|right; set_solver].
  - destruct (Hu m) as (x & Hx & Ht); [set_solver|]. unfold scope_enter. rewrite Hx.
    assert (∃ x', lock i x = Some (OK, x') ∧ kind x' = kind x ∧ owner x' = Some i ∧ unlock i x' = Ok (OK, x) ∧ 0 < depth x')
      as (x' & Hl & Hk & Ho & Hul & Hd).
    { destruct Ht as [E|(E & Eo & Hd)]; destruct x as [k o n]; simpl in *.
      - injection E as -> ->. eexists. split; [done|]. unfold unlock. simpl. rewrite decide_True by done. split_and!; [done..|lia].
      - subst. unfold lock. simpl. rewrite decide_True by done. eexists. split; [done|]. unfold unlock. simpl.
        rewrite decide_True by done. destruct n; [lia|]. split_and!; [done..|lia]. }
    rewrite Hl, IH.
    + unfold scope_exit. rewrite lookup_insert_eq, Hul, insert_insert_eq, insert_id by done. done.
    + intros m' Hm'. destruct (decide (m = m')) as [<-|Hne].
      * rewrite lookup_insert_eq. exists x'. split; [done|]. right. split; [|done].
        destruct Hr as [[Hn%bool_decide_eq_true _]%andb_prop|Hr]; [done|]. rewrite Hk. apply (Hr m); [set_solver|done].
      * rewrite lookup_insert_ne by done. apply Hu. set_solver.
    + destruct Hr as [[_ ?]%andb_prop|Hr]; [by left|]. right. intros m' y Hm' Hy.
      apply lookup_insert_Some in Hy as [[<- <-]|[_ Hy]]; [rewrite Hk; apply (Hr m); [set_solver|done]|].
      apply (Hr m'); [set_solver|done].
Qed.

(** Which type [Mutex] gets: the one it asks for, if the attributes happened to be
    initialised; otherwise any type, by some system that keeps the law. *)
Lemma new_mutex_kind `{MutexAttr} a : mutexattr_ready a → new_mutex a = free RECURSIVE.
Proof. intros Ha. unfold new_mutex. by rewrite mutexattr_law. Qed.

Definition some_attr (k : mutex_kind) : MutexAttr.
Proof.
  by refine {| mutexattr := option mutex_kind; mutexattr_ready a := a ≠ None;
    mutexattr_settype a k' := match a with Some _ => Some k' | None => None end; mutexattr_kind a := default k a |};
  intros [].
Defined.

Lemma new_mutex_any k : ∃ (A : MutexAttr) a, new_mutex a = free k.
Proof. by exists (some_attr k), None. Qed.

(** What a scope inside one of the same mutex does: with a recursive mutex
    nothing, with a normal one the thread waits for itself, and with an
    error-checking one the inner scope gives the mutex back, so that the rest of
    the outer one runs without it. *)
Lemma reentry_normal i m b ms : ms !! m = Some (free NORMAL) → run i (Scope m (Seq (Scope m Work) b)) ms = None.
Proof.
  intros Hm. simpl. unfold scope_enter. rewrite Hm. simpl. rewrite lookup_insert_eq. unfold lock. simpl.
  by rewrite decide_True.
Qed.

Lemma reentry_errorcheck i m b ms :
  ms !! m = Some (free ERRORCHECK) →
  run i (Scope m (Seq (Scope m Work) b)) ms =
    match run i b ms with Some (Ok ms') => Some (scope_exit i m ms') | r => r end.
Proof.
  intros Hm. simpl. unfold scope_enter. rewrite Hm. simpl. rewrite lookup_insert_eq. unfold lock. simpl.
  rewrite decide_True by done. unfold scope_exit at 1. rewrite !lookup_insert_eq. unfold unlock. simpl.
  rewrite decide_True by done. by rewrite !insert_insert_eq, insert_id.
Qed.

End Mutex.

(** * The threads of this program *)

Module NoReentry.

(** The mutex of a model with owners as one of POSIX, of the type [k]. *)
Definition typed (k : mutex_kind) (o : option nat) : Mutex.Mutex :=
  Mutex.mkMutex k o (match o with Some _ => 1 | None => 0 end).

(** What thread [i] does to a mutex in a step, from the owner [o] to [o']:
    nothing, or a [lock] or [unlock] that a mutex of type [k] answers with
    success. *)
Definition posix_step (k : mutex_kind) (i : nat) (o o' : option nat) : Prop :=
  o' = o ∨ Mutex.lock i (typed k o) = Some (Mutex.OK, typed k o') ∨ Mutex.unlock i (typed k o) = Ok (Mutex.OK, typed k o').
(** A [lock] by thread [i] waits. *)
Definition posix_waits (k : mutex_kind) (i : nat) (o : option nat) : Prop := Mutex.lock i (typed k o) = None.

Lemma posix_lock k i : posix_step k i None (Some i).
Proof. right. by left. Qed.
Lemma posix_unlock k i : posix_step k i (Some i) None.
Proof. right. right. unfold Mutex.unlock. simpl. by rewrite decide_True. Qed.
Lemma posix_other k i o j : o = Some j → j ≠ i → posix_waits k i o.
Proof. intros -> Hne. unfold posix_waits, Mutex.lock. simpl. by rewrite decide_False. Qed.
#[local] Hint Resolve posix_lock posix_unlock : core.

Section loop.
Context {T : Type}.
Implicit Types (s : EventLoop.sys T).
Import EventLoop EventLoopProps.

(** A step of a method, or of the loop, locks what is free, and unlocks what
    the thread has. *)
Lemma call_posix s s' i c k m :
  inv s → calls s !! i = Some c → call_step i c s = Some (Ok s') → posix_step k i (owner s m) (owner s' m).
Proof.
  intros Hs%inv_locks Hc Hx. assert (∀ m, call_holds c m = true → owner s m = Some i) as Ho.
  { intros m2 H2. apply (lo_owner s Hs). unfold holds. by rewrite Hc. }
  destruct c; simpl in Hx; unfold lock, move, exec in Hx; repeat case_match; simplify_eq; simpl;
    try (by left); repeat case_decide; subst; try (by left); try (rewrite Ho by done; by auto);
    match goal with H : owner s _ = None |- _ => rewrite H end; auto.
Qed.

Lemma loop_posix s s' k m :
  inv s → calls s !! 0 = None → loop_step s = Some (Ok s') → posix_step k 0 (owner s m) (owner s' m).
Proof.
  intros Hs%inv_locks Hc Hx. assert (∀ m, loop_holds (loop s) m = true → owner s m = Some 0) as Ho.
  { intros m2 H2. apply (lo_owner s Hs). unfold holds. by rewrite Hc. }
  unfold loop_step in Hx. destruct (loop s); simpl in Hx; unfold lock, move, exec in Hx; repeat case_match; simplify_eq; simpl;
    try (by left); repeat case_decide; subst; try (by left); try (rewrite Ho by done; by auto);
    match goal with H : owner s _ = None |- _ => rewrite H end; auto.
Qed.

(** A thread that cannot go on waits for a mutex that another one has. *)
Lemma call_waits_other s i c :
  inv s → calls s !! i = Some c → c ≠ DJoin → run i s = None →
  ∃ m j, call_waits c = Some m ∧ owner s m = Some j ∧ j ≠ i.
Proof.
  intros Hs Hc Hj Hn. assert (¬ can_run s i) as Hno by (intros [s' Hs']; simpl in Hs'; congruence).
  destruct (call_waits c) as [m|] eqn:Hw; [|by destruct Hno; eapply call_runs; naive_solver].
  destruct (owner s m) as [j|] eqn:Ho; [|by destruct Hno; eapply call_runs; naive_solver].
  exists m, j. split; [done|]. split; [done|]. intros ->. apply (lo_owner s (inv_locks s Hs)) in Ho.
  unfold holds in Ho. rewrite Hc in Ho. by destruct c, m.
Qed.

Lemma loop_waits_other s :
  inv s → calls s !! 0 = None → loop s ≠ LDone → run 0 s = None →
  ∃ m j, loop_waits (loop s) = Some m ∧ owner s m = Some j ∧ j ≠ 0.
Proof.
  intros Hs Hc Hd Hn. assert (¬ can_run s 0) as Hno by (intros [s' Hs']; simpl in Hs'; congruence).
  destruct (loop_waits (loop s)) as [m|] eqn:Hw; [|by destruct Hno; eapply loop_runs; naive_solver].
  destruct (owner s m) as [j|] eqn:Ho; [|by destruct Hno; eapply loop_runs; naive_solver].
  exists m, j. split; [done|]. split; [done|]. intros ->. apply (lo_owner s (inv_locks s Hs)) in Ho.
  unfold holds in Ho. rewrite Hc in Ho. simpl in Ho. by destruct (loop s), m.
Qed.
End loop.

Lemma sem_posix z x x' i ch k :
  Semaphore.inv z x → Semaphore.run i ch x = Some (Ok x') → posix_step k i (Semaphore.owner x) (Semaphore.owner x').
Proof.
  intros Hs Hx. pose proof (Semaphore.inv_owner z x Hs i) as Ho. unfold Semaphore.run in Hx.
  assert (∀ c, Semaphore.calls x !! i = Some c → Semaphore.holds c = true → Semaphore.owner x = Some i) as Hown
    by (intros c Hc Hh; apply Ho; eauto).
  destruct (Semaphore.calls x !! i) as [c|]; [|done]. specialize (Hown c eq_refl).
  destruct c; simpl in *; unfold Semaphore.lock, Semaphore.signal in Hx; repeat case_match; simplify_eq; simpl;
    try (by left); try (rewrite Hown by done; by auto); auto.
Qed.

(** C39: The type of the mutexes, which [Mutex] leaves open, does not matter.  Let
    the mutexes of the event dispatcher and of a semaphore be POSIX mutexes of
    any type.  Every step of a thread, at whatever point of whatever method under
    whatever schedule, that changes one is a [lock] or an [unlock] that succeeds
    for every type, with the same effect; and a thread that cannot take its next
    step waits for the loop to end, in the destructor, or for the very mutex that
    it wants next, and a [lock] of it waits for every type.  No thread ever locks
    a mutex that it has already, or unlocks one that it has not. *)
Theorem mutex_type_irrelevant {T : Type} (s : EventLoop.sys T) (z : Z) (x : Semaphore.sem) i k :
  EventLoop.reachable s → Semaphore.is_int z → Semaphore.reachable z x →
  (∀ s' m, EventLoop.run i s = Some (Ok s') → posix_step k i (EventLoop.owner s m) (EventLoop.owner s' m)) ∧
  (∀ c, EventLoop.calls s !! i = Some c → c ≠ EventLoop.DJoin → EventLoop.run i s = None →
     ∃ m, EventLoopProps.call_waits c = Some m ∧ posix_waits k i (EventLoop.owner s m)) ∧
  (EventLoop.calls s !! 0 = None → EventLoop.loop s ≠ EventLoop.LDone → EventLoop.run 0 s = None →
     ∃ m, EventLoopProps.loop_waits (EventLoop.loop s) = Some m ∧ posix_waits k 0 (EventLoop.owner s m)) ∧
  (∀ ch x', Semaphore.run i ch x = Some (Ok x') → posix_step k i (Semaphore.owner x) (Semaphore.owner x')) ∧
  (∀ c ch, Semaphore.calls x !! i = Some c → c ≠ Semaphore.Waiting → c ≠ Semaphore.UpSignal →
     Semaphore.run i ch x = None → posix_waits k i (Semaphore.owner x)).
Proof.
  intros Hs%EventLoop.inv_reachable Hz Hx. pose proof (Semaphore.sem_inv_reachable z x Hz Hx) as Hi. split_and!.
  - intros s' m Hr. unfold EventLoop.run in Hr. destruct (EventLoop.calls s !! i) as [c|] eqn:Hc; [by eapply call_posix|].
    case_decide; [subst i; by apply loop_posix|done].
  - intros c Hc Hj Hn. destruct (call_waits_other s i c Hs Hc Hj Hn) as (m & j & Hw & Ho & Hne).
    exists m. split; [done|]. by eapply posix_other.
  - intros Hc Hd Hn. destruct (loop_waits_other s Hs Hc Hd Hn) as (m & j & Hw & Ho & Hne).
    exists m. split; [done|]. by eapply posix_other.
  - intros ch x' Hr. by eapply sem_posix.
  - intros c ch Hc H1 H2 Hn. pose proof (Semaphore.inv_owner z x Hi i) as Hown.
    unfold Semaphore.run in Hn. rewrite Hc in Hn.
    assert (∀ j, Semaphore.holds c = false → Semaphore.owner x = Some j → j ≠ i) as Hne.
    { intros j Hh Ho ->. apply Hown in Ho as (c' & Hc' & Hh'). congruence. }
    destruct c; try done; unfold Semaphore.lock in Hn;
      try (destruct (Semaphore.owner x) as [j|]; [by apply (posix_other k i _ j), Hne|done]);
      repeat case_match; done.
Qed.

(** Two clients want the queue: the second waits for it, whatever its type. *)
Lemma mutex_type_irrelevant_witness :
  let s := EventLoopProps.demo [EventLoop.Call 1 (EventLoop.Enqueue None); EventLoop.Run 1; EventLoop.Call 2 EventLoop.Busy] in
  EventLoop.run 2 s = None ∧ posix_waits NORMAL 2 (EventLoop.owner s EventLoop.MQueue).
Proof.
  set (s := EventLoopProps.demo _). split; [by vm_compute|].
  destruct (mutex_type_irrelevant s 0 (Semaphore.demo_sem Semaphore.demo_events) 2 NORMAL) as (_ & H & _);
    [apply EventLoopProps.demo_reachable|by vm_compute|apply Semaphore.demo_sem_reachable|].
  destruct (H EventLoop.BLock) as (m & Hm & Hw); [by vm_compute|discriminate|by vm_compute|].
  injection Hm as <-. exact Hw.
Defined.

End NoReentry.
