(* ===== verification/Connection.v ===== *)
(** webserver/svr_tcp_ip.h, webserver/svr_tcp_ip.cc and webserver/websvrd.cc:
    the connections of the web server.

    A [Conn] is a socket with a state; the connections that were accepted from a
    listening one are counted in its [nc].  The socket calls of the system, and
    those on files that the rest of the server makes, are the parameter [OS]. *)
From S2P Require Import Prelude.

(** The calls of the operating system on its state [S]; the results are those
    of the C functions.  [os_time] and [os_stat] give the texts of the present
    time and of a file's last change, and the size of the file. *)
Class OS (S : Type) := {
  os_socket : S → Z * S;
  os_setsockopt : Z → S → Z * S;
  os_bind : Z → S → Z * S;
  os_listen : Z → S → Z * S;
  os_accept : Z → S → Z * S;
  os_connect : Z → S → Z * S;
  os_close : Z → S → Z * S;
  os_open : string → S → Z * S;
  os_time : S → string;
  os_stat : Z → S → string * Z;
}.

(** What is documented of descriptors: [os_fds] are the open ones.  A call that
    makes one gives a number that is not in use, and a failed call makes none;
    [close] of an open descriptor closes it if it succeeds, and no other. *)
Class OSLaws (S : Type) `{OS S} := {
  os_fds : S → gset Z;
  os_socket_law s : let '(r, s') := os_socket s in
    if decide (0 ≤ r)%Z then r ∉ os_fds s ∧ os_fds s' = {[r]} ∪ os_fds s else os_fds s' = os_fds s;
  os_accept_law fd s : let '(r, s') := os_accept fd s in
    if decide (0 ≤ r)%Z then r ∉ os_fds s ∧ os_fds s' = {[r]} ∪ os_fds s else os_fds s' = os_fds s;
  os_setsockopt_law fd s : os_fds (os_setsockopt fd s).2 = os_fds s;
  os_bind_law fd s : os_fds (os_bind fd s).2 = os_fds s;
  os_listen_law fd s : os_fds (os_listen fd s).2 = os_fds s;
  os_connect_law fd s : os_fds (os_connect fd s).2 = os_fds s;
  os_close_law fd s : let '(r, s') := os_close fd s in
    if decide (0 ≤ r)%Z then fd ∈ os_fds s ∧ os_fds s' = os_fds s ∖ {[fd]}
    else os_fds s ∖ {[fd]} ⊆ os_fds s' ⊆ os_fds s;
}.

Module Connection.

(** [enum ConnST] and [enum ErrConn] with the numbers of its members. *)
Inductive ConnST :=
  CS_LISTENING | CS_CONNECTING | CS_CONNECTED | CS_CLOSING_R | CS_CLOSING_W | CS_CLOSING | CS_CLOSED.
Inductive ErrConn :=
  ERRCONN_OK | ERRCONN_CR | ERRCONN_BI | ERRCONN_LI | ERRCONN_AC | ERRCONN_CL | ERRCONN_CO | ERRCONN_KA.

#[global] Instance ConnST_eq_dec : EqDecision ConnST.
Proof. solve_decision. Defined.
#[global] Instance ErrConn_eq_dec : EqDecision ErrConn.
Proof. solve_decision. Defined.

Definition ErrConn_code (e : ErrConn) : Z :=
  match e with
  | ERRCONN_OK => 0 | ERRCONN_CR => 1 | ERRCONN_BI => 2 | ERRCONN_LI => 3
  | ERRCONN_AC => 4 | ERRCONN_CL => 5 | ERRCONN_CO => 6 | ERRCONN_KA => 7
  end.

(** [Conn]: the members besides the lock, the address and the debug
    information. *)
Record Conn := mkConn {
  cst : ConnST;
  cfd : Z;
  cpp : option loc;
  nc : Z;
}.

Definition with_cst s c := mkConn s (cfd c) (cpp c) (nc c).
Definition with_cfd d c := mkConn (cst c) d (cpp c) (nc c).
Definition with_cpp p c := mkConn (cst c) (cfd c) p (nc c).
Definition with_nc n c := mkConn (cst c) (cfd c) (cpp c) n.

Definition MaxACCEPT : Z := 1024.

Section connection.
Context {S : Type} `{HO : OS S}.

(** The connections, the next address, and the system. *)
Record net := mkNet { conns : gmap loc Conn; cnext : loc; os : S }.
Implicit Types (w : net) (cn : loc) (c : Conn).

Definition set_conns m w := mkNet m (cnext w) (os w).
Definition set_os s w := mkNet (conns w) (cnext w) s.

Definition load_conn cn : prog net Conn := λ w,
  match conns w !! cn with Some c => Ok (c, w) | None => Fault UseAfterFree end.
Definition update_conn cn (f : Conn → Conn) : prog net unit := λ w,
  match conns w !! cn with
  | Some c => Ok (tt, set_conns (<[cn := f c]> (conns w)) w)
  | None => Fault UseAfterFree
  end.

(** A call of the system. *)
Definition syscall (f : S → Z * S) : prog net Z := λ w, Ok ((f (os w)).1, set_os (f (os w)).2 w).

(** [Conn(parent)].  It leaves [cst] and [cfd] indeterminate: [junk]. *)
Definition new_conn (junk : ConnST * Z) (parent : option loc) : prog net loc :=
  match parent with
  | Some p => update_conn p (λ c, with_nc (wrap_size (nc c + 1)) c)
  | None => pret tt
  end ;;;
  λ w, Ok (cnext w, mkNet (<[cnext w := mkConn junk.1 junk.2 parent 0]> (conns w))
                      (Pos.succ (cnext w)) (os w)).

(** [~Conn] and the release of the object. *)
Definition delete_conn cn : prog net unit :=
  let! c := load_conn cn in
  match cpp c with
  | Some p => update_conn p (λ c, with_nc (wrap_size (nc c - 1)) c)
  | None => pret tt
  end ;;;
  pmodify (λ w, set_conns (delete cn (conns w)) w).

Definition socketSetBlockingAndTimeout (fd : Z) : prog net Z :=
  let! ret := syscall (os_setsockopt fd) in
  pret (if (ret <? 0)%Z then (-1)%Z else 0%Z).

Definition svr_conn_listen cn : prog net ErrConn :=
  let! listenfd := syscall os_socket in
  if (listenfd <? 0)%Z then pret ERRCONN_CR
  else
    let! _ := syscall (os_setsockopt listenfd) in
    let! r := syscall (os_bind listenfd) in
    if (r <? 0)%Z then
      let! _ := syscall (os_close listenfd) in
      pret ERRCONN_BI
    else
      let! r := syscall (os_listen listenfd) in
      if (r <? 0)%Z then pret ERRCONN_LI
      else
        update_conn cn (λ c, with_cpp None (with_cfd listenfd (with_cst CS_LISTENING c))) ;;;
        pret ERRCONN_OK.

(** [svr_conn_accept] up to the new connection.  [None]: the limit is exceeded,
    the function sleeps and looks again. *)
Definition accept_conn junk (cn : option loc) : prog net (option (ErrConn * option loc)) :=
  match cn with
  | None => pret (Some (ERRCONN_AC, None))
  | Some cn =>
    let! c := load_conn cn in
    if decide (cst c ≠ CS_LISTENING) then pret (Some (ERRCONN_AC, None))
    else if decide (MaxACCEPT < nc c)%Z then pret None
    else
      let! connfd := syscall (os_accept (cfd c)) in
      if (connfd <? 0)%Z then pret (Some (ERRCONN_AC, None))
      else
        let! r := socketSetBlockingAndTimeout connfd in
        if (r <? 0)%Z then pret (Some (ERRCONN_AC, None))
        else
          let! pn := new_conn junk (Some cn) in
          update_conn pn (with_cfd connfd) ;;;
          update_conn pn (with_cst CS_CONNECTED) ;;;
          pret (Some (ERRCONN_OK, Some pn))
  end.

Definition svr_conn_connect (pn : option loc) : prog net ErrConn :=
  match pn with
  | None => pret ERRCONN_CO
  | Some pn =>
    update_conn pn (with_cst CS_CONNECTING) ;;;
    let! c := load_conn pn in
    let! r := syscall (os_connect (cfd c)) in
    if (r <? 0)%Z then pret ERRCONN_CO
    else update_conn pn (with_cst CS_CONNECTED) ;;; pret ERRCONN_OK
  end.

Definition svr_conn_close cn : prog net ErrConn :=
  let! c := load_conn cn in
  let! r := syscall (os_close (cfd c)) in
  if (r <? 0)%Z then pret ERRCONN_CL
  else update_conn cn (with_cst CS_CLOSED) ;;; delete_conn cn ;;; pret ERRCONN_OK.

(** [svr_stop] and the beginning of [svr_start]; the result is [svrC], which
    [svr_conn_close] sets to NULL when it succeeds.  The rest of [svr_start]
    calls [svr_conn_accept] for ever. *)
Definition svr_stop (svrC : option loc) : prog net (option loc) :=
  match svrC with
  | None => pret None
  | Some cn =>
    let! e := svr_conn_close cn in
    pret (if decide (e = ERRCONN_OK) then None else Some cn)
  end.

Definition svr_start junk : prog net (option loc) :=
  let! svrC := new_conn junk None in
  let! e := svr_conn_listen svrC in
  if (ErrConn_code e <? 0)%Z then svr_stop (Some svrC) else pret (Some svrC).

Lemma load_conn_ok cn w c : conns w !! cn = Some c → load_conn cn w = Ok (c, w).
Proof. unfold load_conn. by intros ->. Qed.

Lemma update_conn_ok cn f w c :
  conns w !! cn = Some c → update_conn cn f w = Ok (tt, set_conns (<[cn := f c]> (conns w)) w).
Proof. unfold update_conn. by intros ->. Qed.

Lemma syscall_run {B} f (k : Z → prog net B) w :
  pbind (syscall f) k w = k (f (os w)).1 (set_os (f (os w)).2 w).
Proof. done. Qed.

(** ** Counting connections *)

(** The number of connections that were accepted from [p]. *)
Definition child_of (p : loc) (c : Conn) : nat := if decide (cpp c = Some p) then 1 else 0.
Definition children (m : gmap loc Conn) (p : loc) : nat := map_weight (child_of p) m.

Context `{HL : !OSLaws S}.

(** Every connection counts its children; the parent of a child is live, and a
    child has an open descriptor of its own. *)
Record net_ok w : Prop := {
  nk_next : ∀ l, is_Some (conns w !! l) → (l < cnext w)%positive;
  nk_count : ∀ l c, conns w !! l = Some c → nc c = wrap_size (Z.of_nat (children (conns w) l));
  nk_parent : ∀ l c p, conns w !! l = Some c → cpp c = Some p → is_Some (conns w !! p) ∧ p ≠ l;
  nk_open : ∀ l c p, conns w !! l = Some c → cpp c = Some p → cfd c ∈ os_fds (os w);
  nk_own : ∀ l1 l2 c1 c2 p1 p2, conns w !! l1 = Some c1 → conns w !! l2 = Some c2 →
    cpp c1 = Some p1 → cpp c2 = Some p2 → cfd c1 = cfd c2 → l1 = l2;
}.

Lemma net_ok_fresh w : net_ok w → conns w !! cnext w = None.
Proof.
  intros Hw. destruct (conns w !! cnext w) eqn:E; [|done].
  pose proof (nk_next _ Hw _ (mk_is_Some _ _ E)). lia.
Qed.

Lemma children_update m l c c' p :
  m !! l = Some c → cpp c' = cpp c → children (<[l := c']> m) p = children m p.
Proof.
  intros Hl Hc. pose proof (map_weight_move (child_of p) m l c c' Hl) as E.
  unfold children. unfold child_of in E at 2 4. rewrite Hc in E. lia.
Qed.

Lemma wrap_size_sub_l a b : wrap_size (wrap_size a - b) = wrap_size (a - b).
Proof. apply Zminus_mod_idemp_l. Qed.

(** Adding a child, and taking one away. *)
Lemma net_ok_add w cn c fd s :
  net_ok w → conns w !! cn = Some c → fd ∉ os_fds (os w) → {[fd]} ∪ os_fds (os w) = os_fds s →
  net_ok (mkNet (<[cnext w := mkConn CS_CONNECTED fd (Some cn) 0]>
                  (<[cn := with_nc (wrap_size (nc c + 1)) c]> (conns w))) (Pos.succ (cnext w)) s).
Proof.
  intros Hw Hcn Hfd Hs. pose proof (net_ok_fresh _ Hw) as Hfr.
  assert (cn ≠ cnext w) as Hne by congruence.
  assert (<[cn := with_nc (wrap_size (nc c + 1)) c]> (conns w) !! cnext w = None) as Hfr'
    by by rewrite lookup_insert_ne.
  assert (∀ p, children (<[cnext w := mkConn CS_CONNECTED fd (Some cn) 0]>
    (<[cn := with_nc (wrap_size (nc c + 1)) c]> (conns w))) p =
    (if decide (cn = p) then 1 else 0) + children (conns w) p) as Hch.
  { intros p. unfold children at 1. rewrite map_weight_insert by done. fold (children
      (<[cn := with_nc (wrap_size (nc c + 1)) c]> (conns w)) p).
    rewrite (children_update _ _ c) by done. unfold child_of. simpl.
    repeat case_decide; naive_solver. }
  assert (children (conns w) (cnext w) = 0) as Hzero.
  { apply map_weight_zero. intros l c0 Hl. unfold child_of. case_decide as Hp; [|done].
    destruct (nk_parent _ Hw _ _ _ Hl Hp) as [[? ?] _]. congruence. }
  constructor; simpl.
  - intros l. rewrite !lookup_insert_is_Some'. intros [<-|[<-|Hl]]; [lia| |].
    + pose proof (nk_next _ Hw _ (mk_is_Some _ _ Hcn)). lia.
    + pose proof (nk_next _ Hw _ Hl). lia.
  - intros l c0. rewrite Hch. intros [[<- <-]|[Hl [[<- <-]|[Hl' Hc0]]%lookup_insert_Some]]%lookup_insert_Some.
    + rewrite Hzero, decide_False by done. done.
    + rewrite decide_True by done. simpl. rewrite (nk_count _ Hw _ _ Hcn), wrap_size_add_l.
      f_equal. lia.
    + rewrite decide_False by done. by apply (nk_count _ Hw).
  - intros l c0 p. intros [[<- <-]|[Hl [[<- <-]|[Hl' Hc0]]%lookup_insert_Some]]%lookup_insert_Some Hp.
    + injection Hp as <-. split; [|done]. rewrite lookup_insert_ne, lookup_insert_eq by done. by eexists.
    + destruct (nk_parent _ Hw _ _ _ Hcn Hp) as [? ?]. split; [|done]. by rewrite !lookup_insert_is_Some'; auto.
    + destruct (nk_parent _ Hw _ _ _ Hc0 Hp) as [? ?]. split; [|done]. by rewrite !lookup_insert_is_Some'; auto.
  - rewrite <-Hs. intros l c0 p. intros [[<- <-]|[Hl [[<- <-]|[Hl' Hc0]]%lookup_insert_Some]]%lookup_insert_Some Hp;
      apply elem_of_union; [left; by apply elem_of_singleton|right..]; [by apply (nk_open _ Hw _ _ _ Hcn Hp)|by apply (nk_open _ Hw _ _ _ Hc0 Hp)].
  - assert (∀ l c0 p, <[cn := with_nc (wrap_size (nc c + 1)) c]> (conns w) !! l = Some c0 →
      cpp c0 = Some p → ∃ c1, conns w !! l = Some c1 ∧ cpp c1 = Some p ∧ cfd c1 = cfd c0) as Hold.
    { intros l c0 p [[<- <-]|[Hl Hc0]]%lookup_insert_Some Hp; eauto. }
    intros l1 l2 c1 c2 p1 p2 [[<- <-]|[Hl1 H1]]%lookup_insert_Some [[<- <-]|[Hl2 H2]]%lookup_insert_Some Hp1 Hp2 Hf; simpl in *; try done.
    + destruct (Hold _ _ _ H2 Hp2) as (c3 & Hc3 & Hp3 & Hf3).
      pose proof (nk_open _ Hw _ _ _ Hc3 Hp3). congruence.
    + destruct (Hold _ _ _ H1 Hp1) as (c3 & Hc3 & Hp3 & Hf3).
      pose proof (nk_open _ Hw _ _ _ Hc3 Hp3). congruence.
    + destruct (Hold _ _ _ H1 Hp1) as (c3 & Hc3 & Hp3 & Hf3), (Hold _ _ _ H2 Hp2) as (c4 & Hc4 & Hp4 & Hf4).
      eapply (nk_own _ Hw l1 l2); eauto. congruence.
Qed.

Lemma net_ok_remove w cn c p cp s :
  net_ok w → conns w !! cn = Some c → cpp c = Some p → conns w !! p = Some cp →
  children (conns w) cn = 0 → os_fds s = os_fds (os w) ∖ {[cfd c]} →
  net_ok (mkNet (delete cn (<[p := with_nc (wrap_size (nc cp - 1)) cp]> (conns w))) (cnext w) s).
Proof.
  intros Hw Hcn Hp Hcp Hzero Hs. destruct (nk_parent _ Hw _ _ _ Hcn Hp) as [_ Hne].
  set (m := <[p := with_nc (wrap_size (nc cp - 1)) cp]> (conns w)).
  assert (∀ l c0, delete cn m !! l = Some c0 → l ≠ cn ∧ ∃ c1, conns w !! l = Some c1 ∧
    cpp c1 = cpp c0 ∧ cfd c1 = cfd c0) as Hold.
  { intros l c0 [Hl Hc0]%lookup_delete_Some. split; [done|].
    apply lookup_insert_Some in Hc0 as [[<- <-]|[_ Hc0]]; eauto. }
  assert (∀ q, q ≠ cn → children m q = (if decide (p = q) then 1 else 0) + children (delete cn m) q) as Hch.
  { intros q Hq. unfold children. rewrite (map_weight_delete _ m cn c) by (unfold m; by rewrite lookup_insert_ne).
    f_equal. unfold child_of. rewrite Hp. repeat case_decide; naive_solver. }
  assert (∀ q, children m q = children (conns w) q) as Hm by (intros q; by apply (children_update _ _ cp)).
  assert (∀ l c0, conns w !! l = Some c0 → cpp c0 ≠ Some cn) as Hnone.
  { intros l c0 Hl Hc0. pose proof (map_weight_elem (child_of cn) _ _ _ Hl) as E.
    unfold children in Hzero. rewrite Hzero in E. unfold child_of in E. rewrite decide_True in E by done. lia. }
  constructor; simpl.
  - intros l [c0 [_ (c1 & Hc1 & _)]%Hold]. by apply (nk_next _ Hw _ (mk_is_Some _ _ Hc1)).
  - intros l c0 Hl. pose proof (Hold _ _ Hl) as [Hlc _]. pose proof (Hch l Hlc) as E. rewrite Hm in E.
    apply lookup_delete_Some in Hl as [_ [[<- <-]|[Hpl Hl]]%lookup_insert_Some].
    + simpl. rewrite (nk_count _ Hw _ _ Hcp), wrap_size_sub_l, E, decide_True by done. f_equal. lia.
    + rewrite decide_False in E by done. rewrite (nk_count _ Hw _ _ Hl), E. done.
  - intros l c0 q [Hl (c1 & Hc1 & Hp1 & _)]%Hold Hq. rewrite <-Hp1 in Hq.
    destruct (nk_parent _ Hw _ _ _ Hc1 Hq) as [Hlive ?]. split; [|done].
    rewrite lookup_delete_ne by (intros <-; by eapply Hnone).
    unfold m. rewrite lookup_insert_is_Some'. by right.
  - intros l c0 q [Hl (c1 & Hc1 & Hp1 & Hf1)]%Hold Hq. rewrite <-Hp1 in Hq. rewrite Hs, <-Hf1.
    apply elem_of_difference. split; [by apply (nk_open _ Hw _ _ _ Hc1 Hq)|].
    rewrite elem_of_singleton. intros E. apply Hl. by eapply (nk_own _ Hw l cn).
  - intros l1 l2 c1 c2 q1 q2 [_ (d1 & Hd1 & Hp1 & Hf1)]%Hold [_ (d2 & Hd2 & Hp2 & Hf2)]%Hold Hq1 Hq2 E.
    apply (nk_own _ Hw l1 l2 d1 d2 q1 q2); congruence.
Qed.

(** C35: [svr_conn_accept] on every branch, on a listening connection.  Above the
    limit it changes nothing.  Otherwise it makes a connected connection with
    the accepted descriptor and counts it in the listening one, or it reports
    [ERRCONN_AC] and makes none; in the latter case the accepted descriptor
    stays open without an owner if the time-out cannot be set.  Always every
    connection counts its children, and each of them has an open descriptor of
    its own. *)
Theorem accept_correct junk w cn c :
  net_ok w → conns w !! cn = Some c → cst c = CS_LISTENING →
  ∃ r w', accept_conn junk (Some cn) w = Ok (r, w') ∧ net_ok w' ∧
    match r with
    | None => (MaxACCEPT < nc c)%Z ∧ w' = w
    | Some (e, Some pn) => e = ERRCONN_OK ∧ (nc c ≤ MaxACCEPT)%Z ∧ conns w !! pn = None ∧
        ∃ fd, fd ∉ os_fds (os w) ∧ os_fds (os w') = {[fd]} ∪ os_fds (os w) ∧
          conns w' = <[pn := mkConn CS_CONNECTED fd (Some cn) 0]>
                       (<[cn := with_nc (wrap_size (nc c + 1)) c]> (conns w))
    | Some (e, None) => e = ERRCONN_AC ∧ conns w' = conns w ∧
        if decide (0 ≤ (os_accept (cfd c) (os w)).1)%Z
        then ∃ fd, fd ∉ os_fds (os w) ∧ os_fds (os w') = {[fd]} ∪ os_fds (os w)
        else os_fds (os w') = os_fds (os w)
    end.
Proof.
  intros Hw Hcn Hst. unfold accept_conn. rewrite (pbind_ok _ _ _ _ _ (load_conn_ok _ _ _ Hcn)).
  rewrite decide_False by (intros []; done). case_decide as Hmax; [by exists None, w|].
  rewrite syscall_run. pose proof (os_accept_law (cfd c) (os w)) as Hacc.
  destruct (os_accept (cfd c) (os w)) as [fd s1] eqn:Ea. simpl in *.
  assert (∀ s, os_fds (os w) ⊆ os_fds s → net_ok (set_os s w)) as Hmono.
  { intros s Hs. destruct Hw as [H1 H2 H3 H4 H5]. constructor; simpl; try done.
    intros l c0 p Hl Hp. apply Hs. by eapply H4. }
  destruct (Z.ltb_spec fd 0).
  { rewrite decide_False in Hacc by lia. eexists _, _. split; [done|].
    split; [apply Hmono; by rewrite Hacc|]. by rewrite decide_False by lia. }
  rewrite decide_True in Hacc by lia. destruct Hacc as [Hfd Hs1].
  unfold socketSetBlockingAndTimeout. rewrite pbind_assoc, syscall_run. simpl.
  pose proof (os_setsockopt_law fd s1) as Hs2. destruct (os_setsockopt fd s1) as [r s2]. simpl in *.
  rewrite (pbind_ok (pret _) _ _ _ _ eq_refl). destruct (r <? 0)%Z.
  { eexists _, _. split; [done|]. split; [apply Hmono; set_solver|]. rewrite decide_True by lia.
    repeat (split; [done|]). exists fd. simpl. by rewrite Hs2. }
  pose proof (net_ok_fresh _ Hw) as Hfr. assert (cn ≠ cnext w) by congruence.
  simpl. unfold new_conn. rewrite pbind_assoc.
  erewrite pbind_ok by (apply update_conn_ok; exact Hcn). simpl.
  erewrite pbind_ok by reflexivity. simpl.
  erewrite pbind_ok by (apply update_conn_ok; simpl; apply lookup_insert_eq). simpl.
  erewrite pbind_ok by (apply update_conn_ok; simpl; apply lookup_insert_eq). simpl.
  eexists _, _. split; [done|]. unfold set_conns. simpl. rewrite !insert_insert_eq. simpl.
  split; [eapply (net_ok_add w cn c fd s2); try done; congruence|].
  split; [done|]. split; [lia|]. split; [done|]. exists fd. simpl. by rewrite Hs2.
Qed.

(** [svr_conn_close] of an accepted connection, step by step. *)
Lemma close_eq w cn c p cp :
  conns w !! cn = Some c → cpp c = Some p → conns w !! p = Some cp → cn ≠ p →
  svr_conn_close cn w =
    let '(r, s) := os_close (cfd c) (os w) in
    if (r <? 0)%Z then Ok (ERRCONN_CL, set_os s w)
    else Ok (ERRCONN_OK, mkNet (delete cn (<[p := with_nc (wrap_size (nc cp - 1)) cp]> (<[cn := with_cst CS_CLOSED c]> (conns w))))
                           (cnext w) s).
Proof.
  intros Hcn Hp Hcp Hne. unfold svr_conn_close.
  rewrite (pbind_ok _ _ _ _ _ (load_conn_ok _ _ _ Hcn)), syscall_run.
  destruct (os_close (cfd c) (os w)) as [r s]. simpl. destruct (r <? 0)%Z; [done|].
  erewrite pbind_ok by (apply update_conn_ok; exact Hcn). unfold delete_conn. erewrite pbind_ok; [done|].
  erewrite pbind_ok by (apply load_conn_ok, lookup_insert_eq). simpl. rewrite Hp.
  erewrite pbind_ok by (apply update_conn_ok; simpl; by rewrite lookup_insert_ne). reflexivity.
Qed.

(** It needs nothing but that the connection and its parent are live. *)
Lemma close_runs w cn c p :
  conns w !! cn = Some c → cpp c = Some p → is_Some (conns w !! p) → cn ≠ p →
  ∃ e w', svr_conn_close cn w = Ok (e, w') ∧
    (e = ERRCONN_OK ∧ conns w' !! cn = None ∨ e = ERRCONN_CL ∧ conns w' = conns w).
Proof.
  intros Hcn Hp [cp Hcp] Hne. erewrite close_eq by done. destruct (os_close (cfd c) (os w)) as [r s].
  case_match; (eexists _, _; split; [done|]); [by right|]. left. split; [done|]. apply lookup_delete_eq.
Qed.

(** [svr_conn_close] of an accepted connection: if the system closes the
    descriptor, the connection is deleted and no longer counted by its parent,
    and the descriptor is closed; if not, [ERRCONN_CL] is the only effect on
    the connections. *)
Theorem close_correct w cn c p :
  net_ok w → conns w !! cn = Some c → cpp c = Some p → children (conns w) cn = 0 →
  ∃ e w', svr_conn_close cn w = Ok (e, w') ∧
    if decide (0 ≤ (os_close (cfd c) (os w)).1)%Z then
      e = ERRCONN_OK ∧ net_ok w' ∧ os_fds (os w') = os_fds (os w) ∖ {[cfd c]} ∧
      conns w' = delete cn (alter (λ cp, with_nc (wrap_size (nc cp - 1)) cp) p (conns w)) ∧
      children (conns w) p = children (conns w') p + 1
    else e = ERRCONN_CL ∧ conns w' = conns w.
Proof.
  intros Hw Hcn Hp Hzero. destruct (nk_parent _ Hw _ _ _ Hcn Hp) as [[cp Hcp] Hne].
  erewrite close_eq by done. pose proof (os_close_law (cfd c) (os w)) as Hcl.
  destruct (os_close (cfd c) (os w)) as [r s] eqn:Ec. simpl in *.
  destruct (Z.ltb_spec r 0); [eexists _, _; rewrite decide_False by lia; done|].
  rewrite decide_True in Hcl by lia. destruct Hcl as [_ Hs].
  eexists _, _. split; [done|]. rewrite decide_True by lia. split; [done|]. simpl.
  rewrite insert_insert_ne by done. rewrite delete_insert_eq.
  pose proof (net_ok_remove w cn c p cp s Hw Hcn Hp Hcp Hzero Hs) as Hok.
  assert (alter (λ cp, with_nc (wrap_size (nc cp - 1)) cp) p (conns w) =
    <[p := with_nc (wrap_size (nc cp - 1)) cp]> (conns w)) as ->.
  { apply map_eq. intros l. destruct (decide (l = p)) as [->|Hl].
    - by rewrite lookup_alter_eq, Hcp, lookup_insert_eq.
    - by rewrite lookup_alter_ne, lookup_insert_ne by done. }
  split; [done|]. split; [done|]. split; [done|].
  rewrite <-(children_update (conns w) p cp (with_nc (wrap_size (nc cp - 1)) cp) p Hcp eq_refl).
  unfold children. rewrite (map_weight_delete _ (<[p:=_]> _) cn c) by by rewrite lookup_insert_ne.
  unfold child_of at 1. rewrite decide_True by done. apply Nat.add_comm.
Qed.

(** [svr_conn_listen] on every branch.  A socket that cannot be bound is closed;
    one that cannot be listened on stays open, and no connection has it. *)
Lemma listen_correct w cn c :
  conns w !! cn = Some c →
  ∃ e w', svr_conn_listen cn w = Ok (e, w') ∧
    match e with
    | ERRCONN_OK => ∃ fd, (0 ≤ fd)%Z ∧ fd ∉ os_fds (os w) ∧ os_fds (os w') = {[fd]} ∪ os_fds (os w) ∧
        conns w' = <[cn := mkConn CS_LISTENING fd None (nc c)]> (conns w)
    | ERRCONN_CR => os_fds (os w') = os_fds (os w) ∧ conns w' = conns w
    | ERRCONN_BI => os_fds (os w) ⊆ os_fds (os w') ∧ conns w' = conns w
    | ERRCONN_LI => conns w' = conns w ∧
        ∃ fd, fd ∉ os_fds (os w) ∧ os_fds (os w') = {[fd]} ∪ os_fds (os w)
    | _ => False
    end.
Proof.
  intros Hcn. unfold svr_conn_listen. rewrite syscall_run.
  pose proof (os_socket_law (os w)) as Hs. destruct (os_socket (os w)) as [fd s1]. simpl in *.
  destruct (Z.ltb_spec fd 0); [rewrite decide_False in Hs by lia; by eexists _, _|].
  rewrite decide_True in Hs by lia. destruct Hs as [Hfd Hs1].
  rewrite syscall_run. simpl. pose proof (os_setsockopt_law fd s1) as Hs2.
  destruct (os_setsockopt fd s1) as [r1 s2]. simpl in *.
  rewrite syscall_run. simpl. pose proof (os_bind_law fd s2) as Hs3.
  destruct (os_bind fd s2) as [r2 s3]. simpl in *. destruct (r2 <? 0)%Z.
  { rewrite syscall_run. simpl. eexists _, _. split; [done|]. simpl. split; [|done].
    pose proof (os_close_law fd s3) as Hs4. destruct (os_close fd s3) as [r4 s4]. simpl.
    case_decide; set_solver. }
  rewrite syscall_run. simpl. pose proof (os_listen_law fd s3) as Hs4.
  destruct (os_listen fd s3) as [r3 s4]. simpl in *. destruct (r3 <? 0)%Z.
  { eexists _, _. split; [done|]. split; [done|]. exists fd. simpl. split; [done|]. congruence. }
  erewrite pbind_ok by (apply update_conn_ok; exact Hcn). eexists _, _. split; [done|].
  exists fd. simpl. split_and!; [done|done|congruence|done].
Qed.

(** [svr_start] tests the result of [svr_conn_listen] for being negative, which
    no member of [ErrConn] is: whatever happens it goes on to accept, after a
    failure on a connection whose state was never set. *)
Definition started junk (e : ErrConn) w : Conn :=
  if decide (e = ERRCONN_OK) then mkConn CS_LISTENING (os_socket (os w)).1 None 0 else mkConn junk.1 junk.2 None 0.

Lemma start_never_stops junk w :
  ∃ e w1 w', svr_start junk w = Ok (Some (cnext w), w') ∧
    new_conn junk None w = Ok (cnext w, w1) ∧ svr_conn_listen (cnext w) w1 = Ok (e, w') ∧
    conns w' = <[cnext w := started junk e w]> (conns w) ∧ cnext w' = Pos.succ (cnext w).
Proof.
  unfold svr_start, new_conn. erewrite pbind_ok by reflexivity. simpl.
  set (w1 := mkNet (<[cnext w := mkConn junk.1 junk.2 None 0]> (conns w)) (Pos.succ (cnext w)) (os w)).
  assert (conns w1 !! cnext w = Some (mkConn junk.1 junk.2 None 0)) as Hc by apply lookup_insert_eq.
  assert (∃ e w', svr_conn_listen (cnext w) w1 = Ok (e, w') ∧
    conns w' = <[cnext w := started junk e w]> (conns w) ∧ cnext w' = Pos.succ (cnext w)) as (e & w' & He & Hw').
  { unfold svr_conn_listen. rewrite syscall_run.
    destruct (_ <? 0)%Z; [by eexists _, _|]. rewrite !syscall_run.
    destruct (_ <? 0)%Z; [rewrite syscall_run; by eexists _, _|]. rewrite syscall_run.
    destruct (_ <? 0)%Z; [by eexists _, _|].
    erewrite pbind_ok by (apply update_conn_ok; exact Hc). eexists _, _. split; [done|]. simpl.
    split; [apply insert_insert_eq|done]. }
  exists e, w1, w'. rewrite (pbind_ok _ _ _ _ _ He). by destruct e.
Qed.

End connection.
Arguments net : clear implicits.

(** ** Witnesses *)

(** A system whose state is the list of open descriptors; every call succeeds,
    and [fstat] finds files of five bytes. *)
Definition fd_new (s : list Z) : Z := (foldr Z.max 0 s + 1)%Z.

#[global] Instance list_os : OS (list Z) := {|
  os_socket s := (fd_new s, fd_new s :: s);
  os_setsockopt _ s := (0%Z, s);
  os_bind _ s := (0%Z, s);
  os_listen _ s := (0%Z, s);
  os_accept _ s := (fd_new s, fd_new s :: s);
  os_connect _ s := (0%Z, s);
  os_close fd s := if decide (fd ∈ s) then (0%Z, filter (.≠ fd) s) else ((-1)%Z, s);
  os_open _ s := (fd_new s, fd_new s :: s);
  os_time _ := "";
  os_stat _ _ := ("", 5%Z);
|}.

Lemma fd_new_fresh s : (0 ≤ fd_new s)%Z ∧ fd_new s ∉ (list_to_set s : gset Z).
Proof.
  assert (∀ l, (0 ≤ foldr Z.max 0 l)%Z ∧ ∀ x, x ∈ l → (x ≤ foldr Z.max 0 l)%Z) as H.
  { induction l as [|y l [IH0 IH]]; simpl; [split; [done|]; by intros x ?%not_elem_of_nil|].
    split; [lia|]. intros x [->|Hx]%elem_of_cons; [lia|]. specialize (IH x Hx). lia. }
  destruct (H s) as [H0 Hs]. unfold fd_new. split; [lia|]. rewrite elem_of_list_to_set.
  intros Hin%Hs. lia.
Qed.

#[global] Instance list_os_laws : OSLaws (list Z).
Proof.
  refine {| os_fds s := list_to_set s |}; try done; simpl.
  - intros s. destruct (fd_new_fresh s). by rewrite decide_True.
  - intros _ s. destruct (fd_new_fresh s). by rewrite decide_True.
  - intros fd s. case_decide as Hfd; simpl; [|set_solver].
    split; [by apply elem_of_list_to_set|]. apply set_eq. intros x.
    rewrite elem_of_difference, !elem_of_list_to_set, list_elem_of_filter, elem_of_singleton. naive_solver.
Defined.

(** A listening connection with a descriptor, and the same with one child. *)
Definition test_listener : Conn := mkConn CS_LISTENING 3 None 0.
Definition test_net : net (list Z) := mkNet {[1%positive := test_listener]} 2%positive [3%Z].
Definition test_child : Conn := mkConn CS_CONNECTED 4 (Some 1%positive) 0.
Definition test_net1 : net (list Z) :=
  mkNet (<[2%positive := test_child]> {[1%positive := with_nc 1 test_listener]}) 3%positive [4; 3]%Z.

Lemma test_net_ok : net_ok test_net.
Proof.
  constructor; simpl.
  - intros l [c [<- <-]%lookup_singleton_Some]. lia.
  - intros l c [<- <-]%lookup_singleton_Some. done.
  - intros l c p [<- <-]%lookup_singleton_Some. done.
  - intros l c p [<- <-]%lookup_singleton_Some. done.
  - intros l1 l2 c1 c2 p1 p2 [<- <-]%lookup_singleton_Some [<- <-]%lookup_singleton_Some. done.
Qed.

Lemma test_net1_ok : net_ok test_net1.
Proof.
  pose proof (net_ok_add test_net 1 test_listener 4 [4; 3]%Z test_net_ok) as H.
  apply H; [done|apply (bool_decide_unpack _); by vm_compute|done].
Qed.

Lemma accept_correct_witness :
  ∃ r w', accept_conn (CS_CLOSED, 0%Z) (Some 1%positive) test_net = Ok (r, w') ∧ net_ok w'.
Proof.
  destruct (accept_correct (CS_CLOSED, 0%Z) test_net 1 test_listener test_net_ok eq_refl eq_refl)
    as (r & w' & H & Hok & _). by exists r, w'.
Defined.

Lemma close_correct_witness :
  ∃ w', svr_conn_close 2 test_net1 = Ok (ERRCONN_OK, w') ∧ net_ok w' ∧ conns w' !! 2%positive = None.
Proof.
  destruct (close_correct test_net1 2 test_child 1 test_net1_ok eq_refl eq_refl)
    as (e & w' & H & He); [by vm_compute|].
  rewrite decide_True in He by (by vm_compute). destruct He as (-> & Hok & _ & Hc & _).
  exists w'. rewrite Hc. by rewrite lookup_delete_eq.
Defined.

End Connection.
