(* ===== verification/HttpParse.v ===== *)
(** webserver/svr_http.h and webserver/svr_http.cc: the packages of a connection,
    the parser of requests, [svr_http_parse], and the end of a request,
    [svr_http_final].

    A connection has a package without a parent that reads and parses; every
    GET it finds becomes a child package, the children are linked as siblings,
    and only the first is posted for fetching: [svr_http_final] posts the next.
    The buffer is the bytes of [chead.p], and C strings are read byte by byte
    up to their NUL; a read outside of the buffer is a fault. *)
From Stdlib Require Export Ascii.
From S2P Require Import Prelude Connection.

Module HttpParse.
Import Connection.

Abbreviation text := (list ascii).

Definition NUL : ascii := "000"%char.
Definition CR : ascii := "013"%char.
Definition LF : ascii := "010"%char.
Definition CRLF : text := [CR; LF].
Definition GET : text := ["G"; "E"; "T"; " "]%char.

(** The enumerations of svr_http.h. *)
Inductive HttpSN := N_200 | N_404 | N_400 | N_UNO.
Inductive HttpST := HS_READING | HS_PARSING | HS_FETCHING | HS_WRITING | HS_UNKNOWN.
Inductive HttpWST := WS_HEAD | WS_BODY | WS_UNO.

#[global] Instance HttpSN_eq_dec : EqDecision HttpSN.
Proof. solve_decision. Defined.
#[global] Instance HttpST_eq_dec : EqDecision HttpST.
Proof. solve_decision. Defined.
#[global] Instance HttpWST_eq_dec : EqDecision HttpWST.
Proof. solve_decision. Defined.

(** [charn]: a buffer of the C heap, its size, and whether the cache owns it. *)
Record charn := mkCharn { ch_p : option loc; ch_n : Z; ch_cached : bool }.
Definition new_charn : charn := mkCharn None 0 false.

(** What [~charn] gives to [free]. *)
Definition delete_charn (b : charn) : list loc := if ch_cached b then [] else option_list (ch_p b).

(** The members of [HPKG] with which a request is answered.  The keys are the
    strings they hold; a key that is NULL is [None]. *)
Record reply := mkReply {
  hsn : HttpSN;
  wst : HttpWST;
  vern : nat;
  chead : charn;
  headkey : option string;
  cbody : charn;
  bodykey : option string;
  hfd : Z;
  tr_offset : Z;
}.

(** [HPKG].  Of [met], [uri] and [ver] only the bytes matter: a [charn] that is
    not NULL is its bytes. *)
Record HPKG := mkHPKG {
  hst : HttpST;
  met : option text;
  uri : option text;
  ver : option text;
  rsp : reply;
  cpn : loc;
  ppg : option loc;
  lcg : option loc;
  nsg : option loc;
}.

(** The tasks that are posted to the dispatcher. *)
Inductive task := Fetch (pk : loc) | Read (pk : loc).

#[global] Instance task_eq_dec : EqDecision task.
Proof. solve_decision. Defined.

Section parse.
Context {OSt : Type} `{HO : OS OSt}.

(** The packages, the connections, the posted tasks, and the pointers that were
    given to [free]. *)
Record world := mkWorld {
  pkgs : gmap loc HPKG;
  next : loc;
  wnet : net OSt;
  tasks : list task;
  garbage : list loc;
}.
Implicit Types (w : world) (l pk : loc) (b : text) (i n : nat).

Definition set_pkgs h w := mkWorld h (next w) (wnet w) (tasks w) (garbage w).
Definition set_net m w := mkWorld (pkgs w) (next w) m (tasks w) (garbage w).

Definition on_net {A} (m : prog (net OSt) A) : prog world A := λ w,
  match m (wnet w) with Ok (a, x) => Ok (a, set_net x w) | Fault e => Fault e end.

(** ** Packages *)

(** The constructor [HPKG(cn)].  The members it leaves indeterminate, [hsn] and
    [wst], start as [N_UNO] and [WS_UNO]; they are set before they are read. *)
Definition new_reply : reply := mkReply N_UNO WS_UNO 1 new_charn None new_charn None (-1) 0.
Definition empty_pkg (cn : loc) : HPKG := mkHPKG HS_UNKNOWN None None None new_reply cn None None None.
Definition new_pkg (cn : loc) : prog world loc := λ w,
  Ok (next w, mkWorld (<[next w := empty_pkg cn]> (pkgs w)) (Pos.succ (next w)) (wnet w) (tasks w) (garbage w)).

Definition load_pkg l : prog world HPKG := λ w,
  match pkgs w !! l with Some k => Ok (k, w) | None => Fault UseAfterFree end.
Definition update_pkg l (f : HPKG → HPKG) : prog world unit := λ w,
  match pkgs w !! l with
  | Some k => Ok (tt, set_pkgs (<[l := f k]> (pkgs w)) w)
  | None => Fault UseAfterFree
  end.

(** [~HPKG]: the file is closed, and what the members own is freed. *)
Definition close_hfd (k : HPKG) (m : net OSt) : net OSt :=
  if decide (hfd (rsp k) = (-1)%Z) then m else set_os (os_close (hfd (rsp k)) (os m)).2 m.
Definition frees (k : HPKG) : list loc :=
  delete_charn (chead (rsp k)) ++ delete_charn (cbody (rsp k)).
Definition delete_pkg l : prog world unit := λ w,
  match pkgs w !! l with
  | Some k =>
    Ok (tt, mkWorld (delete l (pkgs w)) (next w)
              (close_hfd k (wnet w)) (tasks w) (garbage w ++ frees k))
  | None => Fault DoubleFree
  end.

Definition with_hst s k := mkHPKG s (met k) (uri k) (ver k) (rsp k) (cpn k) (ppg k) (lcg k) (nsg k).
Definition with_met t k := mkHPKG (hst k) t (uri k) (ver k) (rsp k) (cpn k) (ppg k) (lcg k) (nsg k).
Definition with_uri t k := mkHPKG (hst k) (met k) t (ver k) (rsp k) (cpn k) (ppg k) (lcg k) (nsg k).
Definition with_ver t k := mkHPKG (hst k) (met k) (uri k) t (rsp k) (cpn k) (ppg k) (lcg k) (nsg k).
Definition with_rsp r k := mkHPKG (hst k) (met k) (uri k) (ver k) r (cpn k) (ppg k) (lcg k) (nsg k).
Definition with_ppg p k := mkHPKG (hst k) (met k) (uri k) (ver k) (rsp k) (cpn k) p (lcg k) (nsg k).
Definition with_lcg p k := mkHPKG (hst k) (met k) (uri k) (ver k) (rsp k) (cpn k) (ppg k) p (nsg k).
Definition with_nsg p k := mkHPKG (hst k) (met k) (uri k) (ver k) (rsp k) (cpn k) (ppg k) (lcg k) p.

(** [Dispatcher::enqueue]: the task is posted. *)
Definition enqueue (t : task) : prog world unit :=
  pmodify (λ w, mkWorld (pkgs w) (next w) (wnet w) (tasks w ++ [t]) (garbage w)).

(** [(cn->cst == CS_CLOSING) || (cn->cst == CS_CLOSING_W)]. *)
Definition closing (c : Conn) : Prop := cst c = CS_CLOSING ∨ cst c = CS_CLOSING_W.
#[global] Instance closing_dec c : Decision (closing c).
Proof. unfold closing. apply _. Defined.

(** [pk->cpn] and what it points to. *)
Definition load_conn_of pk : prog world Conn :=
  let! k := load_pkg pk in on_net (load_conn (cpn k)).

(** ** C strings *)

Definition lift {A} (o : outcome A) : prog world A := λ w,
  match o with Ok a => Ok (a, w) | Fault e => Fault e end.

Definition char_at b i : outcome ascii :=
  match b !! i with Some a => Ok a | None => Fault HeapOverflow end.

(** [strchr(s, c)] and [strstr(s, CRLF)] on the bytes from [s] on: an offset. *)
Fixpoint strchr (s : text) (c : ascii) : outcome (option nat) :=
  match s with
  | [] => Fault HeapOverflow
  | a :: s =>
    if decide (a = c) then Ok (Some 0)
    else if decide (a = NUL) then Ok None
    else match strchr s c with Ok o => Ok (S <$> o) | Fault e => Fault e end
  end.
Fixpoint strstr_crlf (s : text) : outcome (option nat) :=
  match s with
  | [] => Fault HeapOverflow
  | a :: s' =>
    if decide (a = NUL) then Ok None
    else if decide (a = CR ∧ head s' = Some LF) then Ok (Some 0)
    else match strstr_crlf s' with Ok o => Ok (S <$> o) | Fault e => Fault e end
  end.

(** [strncmp(s, t, strlen(t)) == 0] *)
Fixpoint strncmp (s t : text) : outcome bool :=
  match t, s with
  | [], _ => Ok true
  | _ :: _, [] => Fault HeapOverflow
  | c :: t, a :: s => if decide (a = c) then strncmp s t else Ok false
  end.

(** [memcpy] of [n] bytes from index [i]. *)
Definition copy b i n : outcome text :=
  if decide (i + n ≤ length b) then Ok (take n (drop i b)) else Fault HeapOverflow.

(** ** The functions *)

(** [svr_http_final]: the package is deleted; the parent goes on reading after
    its last child, and the next sibling is fetched after any other. *)
Definition svr_http_final pk : prog world unit :=
  let! k := load_pkg pk in
  delete_pkg pk ;;;
  match ppg k with
  | None => let! _ := on_net (svr_conn_close (cpn k)) in pret tt
  | Some park =>
    match nsg k with
    | None => update_pkg park (with_lcg None) ;;; enqueue (Read park)
    | Some fget => enqueue (Fetch fget)
    end
  end.

(** "uri" and "ver": [ph] is after "GET ", [pt] the end of the line; the new
    position. *)
Definition parse_uri b gk (ph pt : nat) : prog world nat :=
  let! ps := lift (strchr (drop ph b) " "%char) in
  let ps := (λ o, ph + o) <$> ps in
  let! a := lift (char_at b ph) in
  let ph := if decide (a = "/"%char) then S ph else ph in
  match ps with
  | Some ps =>
    if decide (ps < pt) then
      let! u := lift (copy b ph (ps - ph)) in
      update_pkg gk (with_uri (Some u)) ;;;
      let ph := ps + 1 in
      (if decide (ph ≤ pt) then
         let! v := lift (copy b ph (pt - ph)) in
         update_pkg gk (with_ver (Some v))
       else pret tt) ;;;
      pret ph
    else pret ph
  | None => pret ph
  end.

(** "ordering": the first child is what is fetched, the others are siblings. *)
Definition link_child pk gk (fget : option loc) : prog world (option loc) :=
  update_pkg gk (with_ppg (Some pk)) ;;;
  let! k := load_pkg pk in
  match lcg k with
  | None => update_pkg pk (with_lcg (Some gk)) ;;; pret (Some gk)
  | Some last =>
    update_pkg last (with_nsg (Some gk)) ;;;
    update_pkg pk (with_lcg (Some gk)) ;;;
    pret fget
  end.

(** A GET at [ph]; the new position and the first child. *)
Definition parse_get b pk (fget : option loc) (ph pt : nat) : prog world (nat * option loc) :=
  let! k := load_pkg pk in
  let! gk := new_pkg (cpn k) in
  update_pkg gk (with_met (Some (take 3 GET))) ;;;
  let! ph := parse_uri b gk (ph + 4) pt in
  let! fget := link_child pk gk fget in
  pret (ph, fget).

(** One iteration: a line, or the rest of one. *)
Definition parse_line b pk (pe : nat) (fget : option loc) (ph : nat) : prog world (nat * option loc) :=
  let! o := lift (strstr_crlf (drop ph b)) in
  let pt := match o with Some o => ph + o | None => pe end in
  let! g := lift (strncmp (drop ph b) GET) in
  if (g : bool) then parse_get b pk fget ph pt
  else pret (pt + length CRLF, fget).

Fixpoint parse_loop (fuel : nat) b pk (pe : nat) (fget : option loc) (ph : nat) :
    prog world (option loc) :=
  match fuel with
  | O => pfail OutOfFuel
  | S fuel =>
    if decide (ph < pe) then
      let! r := parse_line b pk pe fget ph in
      parse_loop fuel b pk pe r.2 r.1
    else pret fget
  end.

(** [svr_http_parse] on the buffer [b] with [chead.n = n]. *)
Definition svr_http_parse b (n : nat) pk : prog world unit :=
  let! c := load_conn_of pk in
  if decide (closing c) then svr_http_final pk
  else
    update_pkg pk (with_hst HS_PARSING) ;;;
    let! fget := parse_loop (S n) b pk n None 0 in
    match fget with
    | Some fget => enqueue (Fetch fget)
    | None => enqueue (Read pk)
    end.

(** ** C strings: they are read up to their NUL *)

Lemma strchr_total s c :
  NUL ∈ s → ∃ o, strchr s c = Ok o ∧ ∀ i, o = Some i → s !! i = Some c.
Proof.
  induction s as [|a s IH]; intros Hs; [by apply not_elem_of_nil in Hs|]. simpl.
  destruct (decide (a = c)) as [->|Hc]; [exists (Some 0); split; [done|]; by intros i [= <-]|].
  destruct (decide (a = NUL)) as [->|Hn]; [by exists None|].
  apply elem_of_cons in Hs as [Hs|Hs]; [congruence|].
  destruct (IH Hs) as (o & -> & Ho).
  exists (S <$> o). split; [done|]. intros i Hi. destruct o as [j|]; [|done].
  injection Hi as <-. simpl. eauto.
Qed.

Lemma strstr_total s :
  NUL ∈ s → ∃ o, strstr_crlf s = Ok o ∧ ∀ i, o = Some i → i + 1 < length s.
Proof.
  induction s as [|a s IH]; intros Hs; [by apply not_elem_of_nil in Hs|]. simpl.
  destruct (decide (a = NUL)) as [->|Hn]; [by exists None|].
  case_decide as Hd.
  { destruct Hd as [_ Hd]. exists (Some 0). split; [done|]. intros i [= <-].
    destruct s; [done|]. simpl. lia. }
  apply elem_of_cons in Hs as [Hs|Hs]; [congruence|].
  destruct (IH Hs) as (o & -> & Ho).
  exists (S <$> o). split; [done|]. intros i Hi. destruct o as [j|]; [|done].
  injection Hi as <-. specialize (Ho j eq_refl). lia.
Qed.

Lemma strncmp_total s t :
  NUL ∈ s → NUL ∉ t →
  ∃ r, strncmp s t = Ok r ∧ (r = true → ∃ s', s = t ++ s' ∧ NUL ∈ s').
Proof.
  revert s. induction t as [|c t IH]; intros s Hs Ht; [exists true; destruct s; eauto|].
  destruct s as [|a s]; [by apply not_elem_of_nil in Hs|]. simpl.
  case_decide as Hd; [|by exists false]. subst a.
  apply not_elem_of_cons in Ht as [Hc Ht].
  apply elem_of_cons in Hs as [Hs|Hs]; [congruence|].
  destruct (IH s Hs Ht) as (r & -> & Hr).
  exists r. split; [done|]. intros Hr'. destruct (Hr Hr') as (s' & -> & ?). eauto.
Qed.

Lemma strchr_app s c r : NUL ∉ s → c ∉ s → strchr (s ++ c :: r) c = Ok (Some (length s)).
Proof.
  induction s as [|a s IH]; intros Hn Hc; simpl.
  - by rewrite decide_True.
  - apply not_elem_of_cons in Hn as [? ?], Hc as [? ?].
    rewrite !decide_False by congruence. by rewrite IH.
Qed.

Lemma strstr_app s r : NUL ∉ s → CR ∉ s → strstr_crlf (s ++ CRLF ++ r) = Ok (Some (length s)).
Proof.
  induction s as [|a s IH]; intros Hn Hc; [done|]. cbn [app strstr_crlf length].
  apply not_elem_of_cons in Hn as [? ?], Hc as [? ?].
  rewrite !decide_False by (try intros [-> _]; congruence). by rewrite IH.
Qed.

Lemma strncmp_same t r : strncmp (t ++ r) t = Ok true.
Proof. induction t as [|c t IH]; simpl; [by destruct r|]. by rewrite decide_True. Qed.

Lemma NUL_drop b i n : NUL ∈ drop n b → i ≤ n → NUL ∈ drop i b.
Proof.
  intros Hn Hi. replace n with (i + (n - i)) in Hn by lia. rewrite <-drop_drop in Hn.
  eapply subseteq_drop, Hn.
Qed.

(** ** The family of a reading package *)

(** The position after a GET and what it is given, [uri] and [ver], by the offset
    of the space and the first byte. *)
Definition fields b ph pt (o : option nat) (a : ascii) : nat * (option text * option text) :=
  let ph1 := if decide (a = "/"%char) then S ph else ph in
  match o with
  | Some o =>
    let ps := ph + o in
    if decide (ps < pt)
    then (ps + 1, (Some (take (ps - ph1) (drop ph1 b)), Some (take (pt - (ps + 1)) (drop (ps + 1) b))))
    else (ph1, (None, None))
  | None => (ph1, (None, None))
  end.

Definition child (cn pk : loc) (r : option text * option text) (sib : option loc) : HPKG :=
  mkHPKG HS_UNKNOWN (Some (take 3 GET)) r.1 r.2 new_reply cn (Some pk) None sib.

(** [gs]: the children of [pk] in the order of the buffer, each linked to the
    next; everything else is as in [w0]. *)
Record family w0 pk (k0 : HPKG) (gs : list (loc * (option text * option text))) w : Prop := {
  fa_children : ∀ i l r, gs !! i = Some (l, r) →
    pkgs w !! l = Some (child (cpn k0) pk r (fst <$> gs !! S i));
  fa_parent : pkgs w !! pk = Some (with_lcg (fst <$> last gs) (with_hst HS_PARSING k0));
  fa_rest : ∀ l, l ∉ gs.*1 → l ≠ pk → pkgs w !! l = pkgs w0 !! l;
  fa_nodup : NoDup gs.*1;
  fa_new : ∀ l, l ∈ gs.*1 → pkgs w0 !! l = None ∧ l ≠ pk;
  fa_next : ∀ l, is_Some (pkgs w !! l) → (l < next w)%positive;
  fa_net : wnet w = wnet w0;
  fa_tasks : tasks w = tasks w0;
  fa_garbage : garbage w = garbage w0;
}.

Definition heap_ok w : Prop := ∀ l, is_Some (pkgs w !! l) → (l < next w)%positive.

Lemma fresh_pkg w : heap_ok w → pkgs w !! next w = None.
Proof.
  intros Hw. destruct (pkgs w !! next w) eqn:E; [|done].
  specialize (Hw (next w) ltac:(eauto)). lia.
Qed.

Lemma load_pkg_ok l w k : pkgs w !! l = Some k → load_pkg l w = Ok (k, w).
Proof. unfold load_pkg. by intros ->. Qed.

Lemma update_pkg_ok l f w k :
  pkgs w !! l = Some k → update_pkg l f w = Ok (tt, set_pkgs (<[l := f k]> (pkgs w)) w).
Proof. unfold update_pkg. by intros ->. Qed.

Lemma delete_pkg_ok l w k :
  pkgs w !! l = Some k →
  delete_pkg l w = Ok (tt, mkWorld (delete l (pkgs w)) (next w) (close_hfd k (wnet w)) (tasks w)
                             (garbage w ++ frees k)).
Proof. unfold delete_pkg. by intros ->. Qed.

Definition add_pkg w (k : HPKG) : world :=
  mkWorld (<[next w := k]> (pkgs w)) (Pos.succ (next w)) (wnet w) (tasks w) (garbage w).

Lemma update_add w k f : update_pkg (next w) f (add_pkg w k) = Ok (tt, add_pkg w (f k)).
Proof.
  rewrite (update_pkg_ok _ _ _ k) by apply lookup_insert_eq.
  unfold add_pkg, set_pkgs; simpl. by rewrite insert_insert_eq.
Qed.

Lemma copy_ok b i n w : i + n ≤ length b → lift (copy b i n) w = Ok (take n (drop i b), w).
Proof. intros. unfold copy. by rewrite decide_True. Qed.

Lemma parse_uri_add b ph pt o a w k :
  strchr (drop ph b) " "%char = Ok o → b !! ph = Some a → pt ≤ length b →
  (∀ i, o = Some i → drop ph b !! i = Some " "%char) →
  uri k = None → ver k = None →
  parse_uri b (next w) ph pt (add_pkg w k) =
  Ok ((fields b ph pt o a).1,
      add_pkg w (with_ver (fields b ph pt o a).2.2 (with_uri (fields b ph pt o a).2.1 k))).
Proof.
  intros Ho Ha Hpt Hsp Hu Hv. unfold parse_uri.
  erewrite pbind_ok by (unfold lift; rewrite Ho; reflexivity). cbn beta iota.
  erewrite pbind_ok by (unfold lift, char_at; rewrite Ha; reflexivity). cbn beta iota.
  unfold fields. set (ph1 := if decide (a = "/"%char) then S ph else ph).
  assert (with_ver None (with_uri None k) = k) as Hk by (destruct k; simpl in *; by subst).
  destruct o as [o|]; cbn -[with_uri with_ver]; [|by rewrite Hk].
  case_decide as Hd; cbn -[with_uri with_ver]; [|by rewrite Hk].
  assert (ph1 ≤ ph + o) as Hph1.
  { subst ph1. case_decide; [|lia]. destruct o as [|o]; [|lia].
    specialize (Hsp 0 eq_refl). rewrite lookup_drop, Nat.add_0_r in Hsp. congruence. }
  erewrite pbind_ok by (apply copy_ok; lia). cbn beta iota.
  rewrite (pbind_ok _ _ _ _ _ (update_add w _ _)). rewrite decide_True by lia.
  rewrite (pbind_ok _ _ _ tt (add_pkg w (with_ver (Some (take (pt - (ph + o + 1)) (drop (ph + o + 1) b)))
    (with_uri (Some (take (ph + o - ph1) (drop ph1 b))) k)))); [done|].
  erewrite pbind_ok by (apply copy_ok; lia). apply update_add.
Qed.

Lemma parse_get_add b pk k0 k fget ph pt o a w :
  pkgs w !! pk = Some k → cpn k = cpn k0 →
  strchr (drop (ph + 4) b) " "%char = Ok o → b !! (ph + 4) = Some a → pt ≤ length b →
  (∀ i, o = Some i → drop (ph + 4) b !! i = Some " "%char) →
  parse_get b pk fget ph pt w =
  pbind (link_child pk (next w) fget) (λ f, pret ((fields b (ph + 4) pt o a).1, f))
    (add_pkg w (with_ppg None (child (cpn k0) pk (fields b (ph + 4) pt o a).2 None))).
Proof.
  intros Hpk Hcn Ho Ha Hpt Hsp. unfold parse_get. rewrite (pbind_ok _ _ _ _ _ (load_pkg_ok _ _ _ Hpk)), Hcn.
  erewrite pbind_ok by reflexivity. cbn beta iota. fold (add_pkg w (empty_pkg (cpn k0))).
  rewrite (pbind_ok _ _ _ _ _ (update_add w _ _)).
  by rewrite (pbind_ok _ _ _ _ _ (parse_uri_add b (ph + 4) pt o a w (with_met (Some (take 3 GET)) (empty_pkg (cpn k0)))
    Ho Ha Hpt Hsp eq_refl eq_refl)).
Qed.

Lemma lookup_snoc_Some {A} (gs : list A) g i x :
  (gs ++ [g]) !! i = Some x → (gs !! i = Some x) ∨ (i = length gs ∧ x = g).
Proof.
  rewrite lookup_app. destruct (gs !! i) eqn:E; [naive_solver|].
  apply lookup_ge_None in E. intros H. right.
  destruct (i - length gs) as [|n] eqn:En; [|by destruct n]. split; [lia|naive_solver].
Qed.

Lemma family_fresh w0 pk k0 gs w :
  family w0 pk k0 gs w → (next w ∉ gs.*1) ∧ next w ≠ pk ∧ pkgs w0 !! next w = None ∧
  (∀ l, l ∈ gs.*1 → l ≠ next w).
Proof.
  intros F. pose proof (fresh_pkg w (fa_next _ _ _ _ _ F)) as Hn.
  assert (∀ l, l ∈ gs.*1 → l ≠ next w) as Hl.
  { intros l ([l' r] & -> & [i Hi]%list_elem_of_lookup)%list_elem_of_fmap Hl. simpl in Hl. subst.
    rewrite (fa_children _ _ _ _ _ F _ _ _ Hi) in Hn. done. }
  assert (next w ≠ pk) by (intros <-; by rewrite (fa_parent _ _ _ _ _ F) in Hn).
  split_and!; [naive_solver|done| |done].
  rewrite <-(fa_rest _ _ _ _ _ F); naive_solver.
Qed.

Lemma elem_fst {A B} (gs : list (A * B)) i (x : A) (r : B) : gs !! i = Some (x, r) → x ∈ gs.*1.
Proof.
  intros Hi. apply list_elem_of_fmap. exists (x, r). split; [done|]. by eapply list_elem_of_lookup_2.
Qed.

Lemma link_first w0 pk k0 r w :
  family w0 pk k0 [] w → lcg k0 = None →
  ∃ w', link_child pk (next w) None (add_pkg w (with_ppg None (child (cpn k0) pk r None)))
        = Ok (Some (next w), w') ∧ family w0 pk k0 [(next w, r)] w'.
Proof.
  intros F Hk0. destruct (family_fresh _ _ _ _ _ F) as (Hn & Hpk & Hw0 & Hl).
  unfold link_child. rewrite (pbind_ok _ _ _ _ _ (update_add _ _ _)).
  erewrite pbind_ok.
  2:{ apply load_pkg_ok. simpl. rewrite lookup_insert_ne by done. exact (fa_parent _ _ _ _ _ F). }
  simpl. erewrite pbind_ok.
  2:{ apply update_pkg_ok. simpl. rewrite lookup_insert_ne by done. exact (fa_parent _ _ _ _ _ F). }
  eexists. split; [done|]. destruct F as [Hc Hp Hr Hd Hnew Hnx Hnet Htk Hg].
  constructor; simpl; try done.
  - intros [|i] l r' Hi; [|done]. injection Hi as <- <-.
    rewrite lookup_insert_ne by done. by rewrite lookup_insert_eq.
  - by rewrite lookup_insert_eq.
  - intros l Hnin Hne. rewrite !lookup_insert_ne by set_solver. apply Hr; set_solver.
  - apply NoDup_singleton.
  - intros l ->%list_elem_of_singleton. done.
  - intros l. rewrite !lookup_insert_is_Some'. intros [<-|[<-|Hs]].
    + assert (pk < next w)%positive; [|lia]. apply Hnx. rewrite Hp. by eexists.
    + lia.
    + specialize (Hnx l Hs). lia.
Qed.

(** A family after one more child, which the last one is linked to. *)
Lemma family_extend w0 pk k0 gs last r' r w :
  let hs := gs ++ [(last, r')] in
  family w0 pk k0 hs w →
  family w0 pk k0 (hs ++ [(next w, r)])
    (mkWorld (<[pk := with_lcg (Some (next w)) (with_lcg (fst <$> list.last hs) (with_hst HS_PARSING k0))]>
      (<[last := with_nsg (Some (next w)) (child (cpn k0) pk r' None)]>
        (<[next w := child (cpn k0) pk r None]> (pkgs w)))) (Pos.succ (next w)) (wnet w) (tasks w) (garbage w)).
Proof.
  intros hs F. destruct (family_fresh _ _ _ _ _ F) as (Hn & Hpk & Hw0 & Hl).
  assert (hs !! length gs = Some (last, r')) as Hlast.
  { subst hs. rewrite lookup_app_r, Nat.sub_diag by lia. done. }
  pose proof (elem_fst _ _ _ _ Hlast) as Hin.
  assert (length hs = S (length gs)) as Hlen by (subst hs; rewrite length_app; simpl; lia).
  destruct F as [Hc Hp Hr Hd Hnew Hnx Hnet Htk Hg]. destruct (Hnew last Hin) as [_ Hlpk].
  constructor; simpl; try done.
  - intros i l q Hi. apply lookup_snoc_Some in Hi as [Hi|[-> [= -> ->]]].
    + rewrite lookup_insert_ne by (intros <-; by destruct (Hnew pk (elem_fst _ _ _ _ Hi))).
      pose proof (Hc i l q Hi) as Hk. assert (i < S (length gs)) by (rewrite <-Hlen; by eapply lookup_lt_Some).
      destruct (decide (i = length gs)) as [->|Hne].
      * rewrite Hi in Hlast. injection Hlast as -> ->. rewrite lookup_insert_eq.
        rewrite (lookup_app_r hs), Hlen, Nat.sub_diag by lia. done.
      * assert (l ≠ last) by (intros ->; apply Hne;
          eapply (NoDup_lookup _ i (length gs) last Hd); by rewrite list_lookup_fmap, ?Hi, ?Hlast).
        rewrite lookup_insert_ne by done. rewrite lookup_insert_ne by (apply not_eq_sym, Hl, (elem_fst _ _ _ _ Hi)).
        rewrite lookup_app_l by lia. done.
    + rewrite !lookup_insert_ne by (try done; by apply Hl).
      rewrite lookup_insert_eq. rewrite lookup_ge_None_2; [done|]. rewrite length_app. simpl. lia.
  - rewrite lookup_insert_eq, last_snoc. done.
  - intros l. rewrite fmap_app. intros Hnin Hne.
    rewrite !lookup_insert_ne by set_solver. apply Hr; set_solver.
  - rewrite fmap_app. apply NoDup_app. split_and!; [done|set_solver|apply NoDup_singleton].
  - intros l. rewrite fmap_app. intros [Hi|Hi]%elem_of_app; [by apply Hnew|].
    by apply list_elem_of_singleton in Hi as ->.
  - intros l. rewrite !lookup_insert_is_Some'. intros [<-|[<-|[<-|Hs]]].
    + assert (pk < next w)%positive; [|lia]. apply Hnx. rewrite Hp. by eexists.
    + assert (last < next w)%positive; [|lia]. apply Hnx. rewrite (Hc _ _ _ Hlast). by eexists.
    + lia.
    + specialize (Hnx l Hs). lia.
Qed.

Lemma link_next w0 pk k0 gs last r' r w :
  family w0 pk k0 (gs ++ [(last, r')]) w →
  ∃ w', link_child pk (next w) (fst <$> head (gs ++ [(last, r')]))
          (add_pkg w (with_ppg None (child (cpn k0) pk r None)))
        = Ok (fst <$> head (gs ++ [(last, r')]), w') ∧
        family w0 pk k0 ((gs ++ [(last, r')]) ++ [(next w, r)]) w'.
Proof.
  intros F. destruct (family_fresh _ _ _ _ _ F) as (Hn & Hpk & Hw0 & Hl).
  assert ((gs ++ [(last, r')]) !! length gs = Some (last, r')) as Hlast.
  { rewrite lookup_app_r, Nat.sub_diag by lia. done. }
  pose proof (elem_fst _ _ _ _ Hlast) as Hin.
  destruct (fa_new _ _ _ _ _ F last Hin) as [_ Hlpk].
  pose proof (fa_children _ _ _ _ _ F _ _ _ Hlast) as Hk.
  rewrite lookup_ge_None_2 in Hk by (rewrite length_app; simpl; lia).
  eexists. split; [|apply (family_extend _ _ _ _ _ _ r), F].
  unfold link_child. rewrite (pbind_ok _ _ _ _ _ (update_add _ _ _)).
  erewrite pbind_ok.
  2:{ apply load_pkg_ok. simpl. rewrite lookup_insert_ne by done. exact (fa_parent _ _ _ _ _ F). }
  rewrite last_snoc. simpl.
  erewrite pbind_ok.
  2:{ apply update_pkg_ok. simpl. rewrite lookup_insert_ne by (apply not_eq_sym, Hl, Hin). exact Hk. }
  erewrite pbind_ok.
  2:{ apply update_pkg_ok. simpl. rewrite !lookup_insert_ne by done. exact (fa_parent _ _ _ _ _ F). }
  by rewrite last_snoc.
Qed.

(** Both cases: a new child is put at the end. *)
Lemma link_family w0 pk k0 gs r w :
  family w0 pk k0 gs w → lcg k0 = None →
  ∃ w', link_child pk (next w) (fst <$> head gs) (add_pkg w (with_ppg None (child (cpn k0) pk r None)))
        = Ok (fst <$> head (gs ++ [(next w, r)]), w') ∧ family w0 pk k0 (gs ++ [(next w, r)]) w'.
Proof.
  intros F Hk0. destruct gs as [|[last r'] gs _] using rev_ind; [by apply link_first|].
  destruct (link_next _ _ _ _ _ _ r _ F) as (w' & Hw' & F'). exists w'.
  split; [|done]. rewrite Hw'. by destruct gs.
Qed.

(** ** Lines *)

Definition line_end (pe ph : nat) (o : option nat) : nat :=
  match o with Some o => ph + o | None => pe end.

Lemma parse_line_get b pk k0 n ph ot os a w0 gs w :
  family w0 pk k0 gs w → lcg k0 = None →
  strstr_crlf (drop ph b) = Ok ot → strncmp (drop ph b) GET = Ok true →
  strchr (drop (ph + 4) b) " "%char = Ok os → b !! (ph + 4) = Some a →
  (∀ i, os = Some i → drop (ph + 4) b !! i = Some " "%char) →
  line_end n ph ot ≤ length b →
  let f := fields b (ph + 4) (line_end n ph ot) os a in
  ∃ w', parse_line b pk n (fst <$> head gs) ph w
        = Ok ((f.1, fst <$> head (gs ++ [(next w, f.2)])), w') ∧
        family w0 pk k0 (gs ++ [(next w, f.2)]) w'.
Proof.
  intros F Hk0 Hot Hget Hos Ha Hsp Hpt f.
  destruct (link_family _ _ _ _ f.2 _ F Hk0) as (w' & Hw' & F').
  exists w'. split; [|done]. unfold parse_line.
  erewrite pbind_ok by (unfold lift; rewrite Hot; reflexivity). cbn beta iota.
  erewrite pbind_ok by (unfold lift; rewrite Hget; reflexivity). cbn beta iota.
  rewrite (parse_get_add _ _ k0 _ _ _ _ _ _ _ (fa_parent _ _ _ _ _ F) eq_refl Hos Ha Hpt Hsp).
  by rewrite (pbind_ok _ _ _ _ _ Hw').
Qed.

Lemma parse_line_skip b pk n ph ot fget w :
  strstr_crlf (drop ph b) = Ok ot → strncmp (drop ph b) GET = Ok false →
  parse_line b pk n fget ph w = Ok ((line_end n ph ot + 2, fget), w).
Proof.
  intros Hot Hget. unfold parse_line.
  erewrite pbind_ok by (unfold lift; rewrite Hot; reflexivity). cbn beta iota.
  by erewrite pbind_ok by (unfold lift; rewrite Hget; reflexivity).
Qed.

Lemma fields_advances b ph pt o a : ph ≤ (fields b ph pt o a).1.
Proof. unfold fields. repeat case_match; simpl; lia. Qed.

(** Every line is handled within the buffer, and the position goes forward. *)
Lemma parse_line_family b pk k0 n ph w0 gs w :
  family w0 pk k0 gs w → lcg k0 = None → NUL ∈ drop n b → ph < n →
  ∃ ph' gs' w', parse_line b pk n (fst <$> head gs) ph w = Ok ((ph', fst <$> head gs'), w') ∧
    ph < ph' ∧ family w0 pk k0 gs' w'.
Proof.
  intros F Hk0 Hn Hph.
  assert (n < length b) as Hlen.
  { destruct (decide (n < length b)); [done|]. rewrite drop_ge in Hn by lia.
    by apply not_elem_of_nil in Hn. }
  pose proof (NUL_drop b ph n Hn ltac:(lia)) as Hd.
  destruct (strstr_total _ Hd) as (ot & Hot & Hlt).
  assert (ph ≤ line_end n ph ot ≤ length b) as Hpt.
  { destruct ot as [i|]; simpl; [|lia]. specialize (Hlt i eq_refl). rewrite length_drop in Hlt. lia. }
  destruct (strncmp_total _ GET Hd) as ([|] & Hget & Hs).
  { unfold GET, NUL. by repeat (apply not_elem_of_cons; split; [done|]); apply not_elem_of_nil. }
  - destruct (Hs eq_refl) as (s & Hs' & Hnul).
    assert (drop (ph + 4) b = s) as Hd4 by (by rewrite <-drop_drop, Hs').
    destruct s as [|a s]; [by apply not_elem_of_nil in Hnul|]. rewrite <-Hd4 in Hnul.
    destruct (strchr_total _ " "%char Hnul) as (os & Hos & Hsp).
    assert (b !! (ph + 4) = Some a) as Ha.
    { rewrite <-(Nat.add_0_r (ph + 4)), <-lookup_drop, Hd4. done. }
    destruct (parse_line_get b pk k0 n ph ot os a w0 gs w) as (w' & Hw' & F'); try done; [lia|].
    eexists _, _, _. split; [exact Hw'|]. split; [|done].
    pose proof (fields_advances b (ph + 4) (line_end n ph ot) os a). lia.
  - exists (line_end n ph ot + 2), gs, w. rewrite (parse_line_skip _ _ _ _ ot) by done.
    split; [done|]. split; [lia|done].
Qed.

Lemma parse_loop_family fuel b pk k0 n ph w0 gs w :
  family w0 pk k0 gs w → lcg k0 = None → NUL ∈ drop n b → n - ph < fuel →
  ∃ gs' w', parse_loop fuel b pk n (fst <$> head gs) ph w = Ok (fst <$> head gs', w') ∧
    family w0 pk k0 gs' w'.
Proof.
  revert ph gs w. induction fuel as [|fuel IH]; intros ph gs w F Hk0 Hn Hf; [lia|]. simpl.
  case_decide as Hph; [|by exists gs, w].
  destruct (parse_line_family b pk k0 n ph w0 gs w) as (ph' & gs' & w' & Hl & Hlt & F'); try done.
  rewrite (pbind_ok _ _ _ _ _ Hl). simpl. apply IH; [done..|lia].
Qed.

(** ** Well-formed requests *)

Record request := mkRequest { rq_uri : text; rq_ver : text; rq_headers : list text }.

Definition clean (t : text) : Prop := (NUL ∉ t) ∧ (CR ∉ t).
Definition header_ok (h : text) : Prop := clean h ∧ take 4 h ≠ GET.
Definition request_ok (r : request) : Prop :=
  clean (rq_uri r) ∧ (" "%char ∉ rq_uri r) ∧ header_ok (rq_ver r) ∧ Forall header_ok (rq_headers r).

(** "GET /uri ver", the header lines and an empty line. *)
Definition render_line (h : text) : text := h ++ CRLF.
Definition render (r : request) : text :=
  GET ++ "/"%char :: rq_uri r ++ " "%char :: render_line (rq_ver r) ++
  concat (render_line <$> rq_headers r) ++ CRLF.

Lemma GET_clean : clean GET.
Proof. split; apply (bool_decide_unpack _); by vm_compute. Qed.

Lemma strncmp_diff t h s :
  CR ∉ t → (take (length t) h ≠ t) → strncmp (h ++ CR :: s) t = Ok false.
Proof.
  revert h. induction t as [|c t IH]; intros h Hc Ht; [by destruct h|].
  apply not_elem_of_cons in Hc as [Hc Hct]. destruct h as [|a h]; simpl.
  - by rewrite decide_False.
  - case_decide as Ha; [|done]. subst a. apply IH; [done|]. intros E. apply Ht. simpl. by rewrite E.
Qed.

Section lines.
Context (b pad : text) (n : nat) (pk : loc) (k0 : HPKG) (w0 : world).
Hypothesis Hk0 : lcg k0 = None.

(** The text that is left at a position. *)
Definition left_at (ph : nat) (s : text) : Prop :=
  drop ph b = s ++ NUL :: pad ∧ ph + length s = S n.

Lemma left_at_app ph s1 s2 : left_at ph (s1 ++ s2) → left_at (ph + length s1) s2.
Proof.
  intros [Hd Hl]. rewrite length_app in Hl. split; [|lia].
  by rewrite <-drop_drop, Hd, <-app_assoc, drop_app_length.
Qed.

Lemma loop_skip fuel fget ph h s w :
  left_at ph (render_line h ++ s) → header_ok h → n - ph < fuel →
  ∃ fuel' ph', parse_loop fuel b pk n fget ph w = parse_loop fuel' b pk n fget ph' w ∧
    n - ph' < fuel' ∧ left_at ph' s.
Proof.
  intros Hat [[Hn Hc] Hg] Hf. pose proof (left_at_app _ _ _ Hat) as Hat'.
  destruct Hat as [Hd Hl]. unfold render_line in *. rewrite !length_app in Hl. simpl in Hl.
  destruct fuel as [|fuel]; [lia|]. exists fuel, (ph + length (h ++ CRLF)).
  rewrite <-!app_assoc in Hd. rewrite length_app in *. simpl in *.
  split; [|split; [lia|done]]. rewrite decide_True by lia.
  rewrite (pbind_ok _ _ _ _ _ (parse_line_skip b pk n ph (Some (length h)) fget w
    ltac:(rewrite Hd; by apply (strstr_app h (s ++ NUL :: pad))) ltac:(rewrite Hd; apply strncmp_diff; [apply GET_clean|done]))).
  simpl. f_equal. lia.
Qed.

Lemma loop_headers hs fuel fget ph s w :
  left_at ph (concat (render_line <$> hs) ++ s) → Forall header_ok hs → n - ph < fuel →
  ∃ fuel' ph', parse_loop fuel b pk n fget ph w = parse_loop fuel' b pk n fget ph' w ∧
    n - ph' < fuel' ∧ left_at ph' s.
Proof.
  revert fuel ph. induction hs as [|h hs IH]; intros fuel ph Hat Hhs Hf; [by exists fuel, ph|].
  inversion_clear Hhs as [|?? Hh Hhs']. simpl in Hat. rewrite <-app_assoc in Hat.
  destruct (loop_skip fuel fget ph h _ w Hat Hh Hf) as (fuel1 & ph1 & -> & Hf1 & Hat1).
  by apply IH.
Qed.

(** Texts that are equal up to the association of [++]. *)
Ltac text_eq := repeat (progress (cbn; rewrite <-?app_assoc)); reflexivity.

Lemma fields_line ph pt u v r :
  drop ph b = "/"%char :: u ++ " "%char :: v ++ r → pt = ph + 2 + length u + length v →
  fields b ph pt (Some (S (length u))) "/"%char = (ph + length u + 2, (Some u, Some v)).
Proof.
  intros Hd ->. unfold fields. rewrite !decide_True by (done || lia).
  f_equal; [lia|]. f_equal; f_equal.
  - replace (ph + S (length u) - S ph) with (length u) by lia.
    replace (S ph) with (ph + 1) by lia. rewrite <-drop_drop, Hd. simpl.
    by rewrite drop_0, take_app_length.
  - replace (ph + 2 + length u + length v - (ph + S (length u) + 1)) with (length v) by lia.
    replace (ph + S (length u) + 1) with (ph + length ("/"%char :: u ++ [" "%char]))
      by (simpl; rewrite length_app; simpl; lia).
    rewrite <-drop_drop, Hd.
    replace ("/"%char :: u ++ " "%char :: v ++ r) with (("/"%char :: u ++ [" "%char]) ++ v ++ r)
      by text_eq.
    by rewrite drop_app_length, take_app_length.
Qed.

(** The line of a GET makes a child; its version is left over as a line of its own. *)
Lemma loop_get_line fuel ph gs u v s w :
  left_at ph (GET ++ "/"%char :: u ++ " "%char :: render_line v ++ s) →
  clean u → (" "%char ∉ u) → clean v → family w0 pk k0 gs w → n - ph < fuel →
  ∃ fuel' ph' w', parse_loop fuel b pk n (fst <$> head gs) ph w =
      parse_loop fuel' b pk n (fst <$> head (gs ++ [(next w, (Some u, Some v))])) ph' w' ∧
    n - ph' < fuel' ∧ left_at ph' (render_line v ++ s) ∧
    family w0 pk k0 (gs ++ [(next w, (Some u, Some v))]) w'.
Proof.
  intros Hat [Hun Huc] Hus [Hvn Hvc] F Hf.
  set (line := GET ++ "/"%char :: u ++ " "%char :: v).
  assert (drop ph b = line ++ CRLF ++ s ++ NUL :: pad) as Hd.
  { rewrite (proj1 Hat). subst line. unfold render_line. text_eq. }
  assert (drop (ph + 4) b = ("/"%char :: u) ++ " "%char :: v ++ CRLF ++ s ++ NUL :: pad) as Hd4.
  { rewrite <-drop_drop, Hd. text_eq. }
  assert (length line = 6 + length u + length v) as Hline.
  { subst line. cbn. rewrite length_app. simpl. lia. }
  assert (clean line) as [Hln Hlc].
  { subst line. destruct GET_clean. unfold clean. rewrite !not_elem_of_app, !not_elem_of_cons.
    rewrite !not_elem_of_app, !not_elem_of_cons. done. }
  assert (left_at (ph + 4 + 1 + length u + 1) (render_line v ++ s)) as Hat'.
  { replace (ph + 4 + 1 + length u + 1) with (ph + length (GET ++ "/"%char :: u ++ [" "%char])).
    - apply left_at_app. cbn in Hat |- *. by rewrite <-app_assoc.
    - cbn. rewrite length_app. simpl. lia. }
  destruct (parse_line_get b pk k0 n ph (Some (length line)) (Some (S (length u))) "/"%char w0 gs w)
    as (w' & Hw' & F'); try done.
  { rewrite Hd. by apply strstr_app. }
  { rewrite Hd. unfold line. rewrite <-app_assoc. apply strncmp_same. }
  { rewrite Hd4. apply (strchr_app ("/"%char :: u)); by apply not_elem_of_cons. }
  { by rewrite <-(Nat.add_0_r (ph + 4)), <-lookup_drop, Hd4. }
  { intros i [= <-]. rewrite Hd4. rewrite lookup_app_r by (simpl; lia). simpl. by rewrite Nat.sub_diag. }
  { simpl. assert (length (drop ph b) = length (line ++ CRLF ++ s ++ NUL :: pad)) as E by by rewrite Hd.
    rewrite length_drop, length_app in E. simpl in E. lia. }
  rewrite (fields_line (ph + 4) (line_end n ph (Some (length line))) u v _ Hd4) in Hw', F'
    by (unfold line_end; lia).
  assert (ph + 8 ≤ S n) as Hphn.
  { destruct Hat as [_ Hl]. cbn in Hl. unfold render_line in Hl. rewrite !length_app in Hl.
    cbn in Hl. rewrite !length_app in Hl. cbn in Hl. lia. }
  destruct fuel as [|fuel]; [lia|].
  exists fuel, (ph + 4 + length u + 2), w'. simpl in Hw'.
  split_and!; [|lia|by replace (ph + 4 + length u + 2) with (ph + 4 + 1 + length u + 1) by lia|done].
  cbn [parse_loop]. rewrite decide_True by lia. by rewrite (pbind_ok _ _ _ _ _ Hw').
Qed.

Lemma loop_request fuel ph gs r s w :
  left_at ph (render r ++ s) → request_ok r → family w0 pk k0 gs w → n - ph < fuel →
  ∃ fuel' ph' l w', parse_loop fuel b pk n (fst <$> head gs) ph w =
      parse_loop fuel' b pk n (fst <$> head (gs ++ [(l, (Some (rq_uri r), Some (rq_ver r)))])) ph' w' ∧
    n - ph' < fuel' ∧ left_at ph' s ∧
    family w0 pk k0 (gs ++ [(l, (Some (rq_uri r), Some (rq_ver r)))]) w'.
Proof.
  intros Hat (Hu & Hus & Hv & Hh) F Hf.
  destruct (loop_get_line fuel ph gs (rq_uri r) (rq_ver r)
    (concat (render_line <$> rq_headers r) ++ render_line [] ++ s) w)
    as (f1 & ph1 & w1 & -> & Hf1 & Hat1 & F1); try done; [|apply Hv|].
  { replace (GET ++ _) with (render r ++ s); [done|]. unfold render, render_line. text_eq. }
  destruct (loop_skip f1 (fst <$> head (gs ++ [(next w, (Some (rq_uri r), Some (rq_ver r)))]))
    _ _ _ w1 Hat1 Hv Hf1) as (f2 & ph2 & -> & Hf2 & Hat2).
  destruct (loop_headers (rq_headers r) f2 (fst <$> head (gs ++ [(next w, (Some (rq_uri r), Some (rq_ver r)))]))
    _ _ w1 Hat2 Hh Hf2) as (f3 & ph3 & -> & Hf3 & Hat3).
  destruct (loop_skip f3 (fst <$> head (gs ++ [(next w, (Some (rq_uri r), Some (rq_ver r)))]))
    _ [] _ w1 Hat3) as (f4 & ph4 & -> & Hf4 & Hat4); [|done|].
  { split; [|done]. split; apply not_elem_of_nil. }
  by exists f4, ph4, (next w), w1.
Qed.

Lemma loop_requests rs fuel ph gs w :
  left_at ph (concat (render <$> rs)) → Forall request_ok rs →
  family w0 pk k0 gs w → n - ph < fuel →
  ∃ hs w', parse_loop fuel b pk n (fst <$> head gs) ph w = Ok (fst <$> head (gs ++ hs), w') ∧
    hs.*2 = (λ r, (Some (rq_uri r), Some (rq_ver r))) <$> rs ∧ family w0 pk k0 (gs ++ hs) w'.
Proof.
  revert fuel ph gs w. induction rs as [|r rs IH]; intros fuel ph gs w Hat Hrs F Hf.
  - exists [], w. rewrite app_nil_r. split; [|done]. destruct Hat as [_ Hl].
    destruct fuel as [|fuel]; [lia|]. simpl in *. by rewrite decide_False by lia.
  - inversion_clear Hrs as [|?? Hr Hrs'].
    destruct (loop_request fuel ph gs r _ w Hat Hr F Hf) as (f1 & ph1 & l & w1 & -> & Hf1 & Hat1 & F1).
    destruct (IH f1 ph1 _ w1 Hat1 Hrs' F1 Hf1) as (hs & w' & E & Hhs & F').
    exists ((l, (Some (rq_uri r), Some (rq_ver r))) :: hs), w'.
    rewrite <-app_assoc in E, F'. split; [done|]. split; [|done]. rewrite !fmap_cons. by f_equal.
Qed.

End lines.

(** ** The children are fetched one after another *)

(** What follows when [rest] are the children that are left. *)
Definition next_task pk (rest : list (loc * (option text * option text))) : task :=
  match rest with [] => Read pk | (l, _) :: _ => Fetch l end.

(** The heap when [rest] are left and the ones before are finished. *)
Record serving w0 pk (k0 : HPKG) (rest : list (loc * (option text * option text))) w : Prop := {
  sv_children : ∀ i l r, rest !! i = Some (l, r) →
    pkgs w !! l = Some (child (cpn k0) pk r (fst <$> rest !! S i));
  sv_parent : ∃ last, pkgs w !! pk = Some (with_lcg last (with_hst HS_PARSING k0)) ∧
    (rest = [] → last = None);
  sv_rest : ∀ l, l ∉ rest.*1 → l ≠ pk → pkgs w !! l = pkgs w0 !! l;
  sv_nodup : NoDup rest.*1;
  sv_new : ∀ l, l ∈ rest.*1 → pkgs w0 !! l = None ∧ l ≠ pk;
}.

(** The end of the requests [ls], in this order. *)
Fixpoint finish (ls : list loc) : prog world unit :=
  match ls with [] => pret tt | l :: ls => svr_http_final l ;;; finish ls end.

Lemma family_serving w0 pk k0 gs w e w' :
  family w0 pk k0 gs w → enqueue e w = Ok (tt, w') → serving w0 pk k0 gs w'.
Proof.
  intros [Hc Hp Hr Hd Hnew _ _ _ _] [= <-]. constructor; simpl; try done.
  eexists. split; [exact Hp|]. by intros ->.
Qed.

Lemma final_serving w0 pk k0 l r rest w :
  serving w0 pk k0 ((l, r) :: rest) w →
  ∃ w', svr_http_final l w = Ok (tt, w') ∧ serving w0 pk k0 rest w' ∧
    tasks w' = tasks w ++ [next_task pk rest].
Proof.
  intros [Hc (last & Hp & _) Hr Hd Hnew].
  pose proof (Hc 0 l r eq_refl) as Hl. simpl in Hl.
  destruct (Hnew l) as [Hl0 Hlpk]; [simpl; apply list_elem_of_here|].
  rewrite fmap_cons in Hd. apply NoDup_cons in Hd as [Hnin Hd].
  assert (∀ i l' r', rest !! i = Some (l', r') →
    delete l (pkgs w) !! l' = Some (child (cpn k0) pk r' (fst <$> rest !! S i))) as Hc'.
  { intros i l' r' Hi. rewrite lookup_delete_ne; [by apply (Hc (S i))|].
    intros <-. apply Hnin. by eapply elem_fst. }
  assert (∀ l', l' ∉ rest.*1 → l' ≠ pk → delete l (pkgs w) !! l' = pkgs w0 !! l') as Hr'.
  { intros l' Hn' Hne. destruct (decide (l' = l)) as [->|Hll]; [by rewrite lookup_delete_eq, Hl0|].
    rewrite lookup_delete_ne by done. apply Hr; [|done]. rewrite fmap_cons. by apply not_elem_of_cons. }
  assert (∀ l', l' ∈ rest.*1 → pkgs w0 !! l' = None ∧ l' ≠ pk) as Hnew'.
  { intros l' Hl'. apply Hnew. rewrite fmap_cons. by apply list_elem_of_further. }
  assert (delete l (pkgs w) !! pk = Some (with_lcg last (with_hst HS_PARSING k0))) as Hp'
    by by rewrite lookup_delete_ne.
  unfold svr_http_final. rewrite (pbind_ok _ _ _ _ _ (load_pkg_ok _ _ _ Hl)).
  rewrite (pbind_ok _ _ _ _ _ (delete_pkg_ok _ _ _ Hl)). simpl.
  destruct rest as [|[l' r'] rest]; simpl.
  - erewrite pbind_ok by (apply update_pkg_ok; exact Hp'). eexists. split; [done|].
    split; [|done]. constructor; simpl; try done.
    + exists None. by rewrite lookup_insert_eq.
    + intros l' Hn' Hne. rewrite lookup_insert_ne by done. by apply Hr'.
  - eexists. split; [done|]. split; [|done]. constructor; simpl; try done. by exists last.
Qed.

Lemma finish_serving w0 pk k0 rest ev w k :
  serving w0 pk k0 rest w → tasks w = ev ++ [next_task pk rest] → k ≤ length rest →
  ∃ w', finish (take k rest.*1) w = Ok (tt, w') ∧ serving w0 pk k0 (drop k rest) w' ∧
    tasks w' = ev ++ take (S k) ((Fetch <$> rest.*1) ++ [Read pk]).
Proof.
  revert rest ev w. induction k as [|k IH]; intros rest ev w S Htk Hk.
  { exists w. rewrite drop_0. split; [done|]. split; [done|]. rewrite Htk. by destruct rest as [|[]]. }
  destruct rest as [|[l r] rest]; simpl in Hk; [lia|].
  destruct (final_serving _ _ _ _ _ _ _ S) as (w1 & Hf & S1 & Htk1).
  destruct (IH rest (ev ++ [Fetch l]) w1 S1) as (w' & Hw' & S' & Htk').
  { by rewrite Htk1, Htk. } { lia. }
  exists w'. rewrite fmap_cons. simpl. rewrite (pbind_ok _ _ _ _ _ Hf).
  split; [done|]. split; [done|]. rewrite Htk', <-app_assoc. done.
Qed.

Lemma serving_end w0 pk k0 w :
  serving w0 pk k0 [] w → lcg k0 = None →
  pkgs w = <[pk := with_hst HS_PARSING k0]> (pkgs w0).
Proof.
  intros [_ (last & Hp & Hl) Hr _ _] Hk0. rewrite Hl in Hp by done. apply map_eq. intros l.
  destruct (decide (l = pk)) as [->|Hne].
  - rewrite lookup_insert_eq, Hp. destruct k0; simpl in *. by subst.
  - rewrite lookup_insert_ne by done. apply Hr; [apply not_elem_of_nil|done].
Qed.

(** ** What the parser guarantees *)

(** A package that may be parsed: that of a connection, without children. *)
Record parent_ok w pk (k0 : HPKG) (c : Conn) : Prop := {
  po_live : pkgs w !! pk = Some k0;
  po_parent : ppg k0 = None;
  po_child : lcg k0 = None;
  po_conn : conns (wnet w) !! cpn k0 = Some c;
  po_heap : heap_ok w;
}.

Lemma load_conn_of_ok pk w k c :
  pkgs w !! pk = Some k → conns (wnet w) !! cpn k = Some c → load_conn_of pk w = Ok (c, w).
Proof.
  intros Hk Hc. unfold load_conn_of. rewrite (pbind_ok _ _ _ _ _ (load_pkg_ok _ _ _ Hk)).
  unfold on_net. rewrite (load_conn_ok _ _ _ Hc). by destruct w.
Qed.

Lemma family_start w pk k0 c :
  parent_ok w pk k0 c →
  family w pk k0 [] (set_pkgs (<[pk := with_hst HS_PARSING k0]> (pkgs w)) w).
Proof.
  intros [Hl Hpp Hc _ Hw]. constructor; simpl; try done.
  - rewrite lookup_insert_eq. destruct k0; simpl in *. by subst.
  - intros l _ Hne. by rewrite lookup_insert_ne.
  - apply NoDup_nil_2.
  - intros l Hl'. by apply not_elem_of_nil in Hl'.
  - intros l. rewrite lookup_insert_is_Some'. intros [<-|Hs]; apply Hw; [by eexists|done].
Qed.

Lemma parse_from_loop b n pk k0 c w gs w1 :
  parent_ok w pk k0 c → ¬ closing c →
  parse_loop (S n) b pk n None 0 (set_pkgs (<[pk := with_hst HS_PARSING k0]> (pkgs w)) w)
    = Ok (fst <$> head gs, w1) →
  svr_http_parse b n pk w = enqueue (next_task pk gs) w1.
Proof.
  intros Hp Hc Hl. unfold svr_http_parse. rewrite (pbind_ok _ _ _ _ _ (load_conn_of_ok _ _ _ _ (po_live _ _ _ _ Hp) (po_conn _ _ _ _ Hp))).
  rewrite decide_False by done.
  rewrite (pbind_ok _ _ _ _ _ (update_pkg_ok _ _ _ _ (po_live _ _ _ _ Hp))).
  rewrite (pbind_ok _ _ _ _ _ Hl). by destruct gs as [|[]].
Qed.

Lemma parse_family b n pk k0 c w :
  NUL ∈ drop n b → parent_ok w pk k0 c → ¬ closing c →
  ∃ gs w1, family w pk k0 gs w1 ∧ svr_http_parse b n pk w = enqueue (next_task pk gs) w1.
Proof.
  intros Hn Hp Hc. destruct (parse_loop_family (S n) b pk k0 n 0 w [] _ (family_start _ _ _ _ Hp)
    (po_child _ _ _ _ Hp) Hn ltac:(lia)) as (gs & w1 & Hl & F).
  exists gs, w1. split; [done|]. by eapply parse_from_loop.
Qed.

(** The connection of the package was accepted from another one that is live. *)
Definition accepted w k (c : Conn) : Prop :=
  ∃ p, cpp c = Some p ∧ cpn k ≠ p ∧ is_Some (conns (wnet w) !! p).


(** C33: Parsing inverts rendering: from a buffer of well-formed pipelined
    requests ("GET /uri version", header lines, an empty line) the parser makes
    one child per request, in order, with exactly its [uri] and [ver].
    [chead.n] is one less than the number of bytes, as [svr_http_parse_aio] sets
    it. *)
Theorem parse_render rs pad n pk k0 c w :
  Forall request_ok rs → length (concat (render <$> rs)) = S n →
  parent_ok w pk k0 c → ¬ closing c →
  ∃ gs w1, gs.*2 = (λ r, (Some (rq_uri r), Some (rq_ver r))) <$> rs ∧ family w pk k0 gs w1 ∧
    svr_http_parse (concat (render <$> rs) ++ NUL :: pad) n pk w = enqueue (next_task pk gs) w1.
Proof.
  intros Hrs Hlen Hp Hc.
  destruct (loop_requests (concat (render <$> rs) ++ NUL :: pad) pad n pk k0 w (po_child _ _ _ _ Hp)
    rs (S n) 0 [] _ (conj eq_refl Hlen) Hrs (family_start _ _ _ _ Hp) ltac:(lia))
    as (gs & w1 & Hl & Hgs & F).
  exists gs, w1. split; [done|]. split; [done|]. by eapply parse_from_loop.
Qed.

(** C34: Requests are served one after another, and reading goes on after the
    last one.  Let [ls] be the children that a parse made.  After the parse and
    [svr_http_final] of the first [k] of them exactly [k + 1] tasks were posted:
    the fetches of the children in order, and at the end the next read.  Then
    all children are deleted, and the heap is as it was, so that the package may
    be parsed again. *)
Theorem requests_served b n pk k0 c w :
  NUL ∈ drop n b → parent_ok w pk k0 c → ¬ closing c →
  ∃ ls w1, svr_http_parse b n pk w = Ok (tt, w1) ∧
    (∀ k, k ≤ length ls → ∃ wk, finish (take k ls) w1 = Ok (tt, wk) ∧
      tasks wk = tasks w ++ take (S k) ((Fetch <$> ls) ++ [Read pk])) ∧
    ∃ w2, finish ls w1 = Ok (tt, w2) ∧ pkgs w2 = <[pk := with_hst HS_PARSING k0]> (pkgs w).
Proof.
  intros Hn Hp Hc.
  destruct (parse_loop_family (S n) b pk k0 n 0 w [] _ (family_start _ _ _ _ Hp)
    (po_child _ _ _ _ Hp) Hn ltac:(lia)) as (gs & w0 & Hl & F).
  pose proof (parse_from_loop b n pk k0 c w gs w0 Hp Hc Hl) as He.
  assert (enqueue (next_task pk gs) w0 = Ok (tt, mkWorld (pkgs w0) (next w0) (wnet w0)
    (tasks w0 ++ [next_task pk gs]) (garbage w0))) as Hem by done.
  pose proof (family_serving _ _ _ _ _ _ _ F Hem) as Hs. rewrite Hem in He.
  exists gs.*1, (mkWorld (pkgs w0) (next w0) (wnet w0) (tasks w0 ++ [next_task pk gs]) (garbage w0)).
  rewrite length_fmap.
  assert (∀ k, k ≤ length gs → ∃ wk, finish (take k gs.*1) (mkWorld (pkgs w0) (next w0) (wnet w0)
    (tasks w0 ++ [next_task pk gs]) (garbage w0)) = Ok (tt, wk) ∧ serving w pk k0 (drop k gs) wk ∧
    tasks wk = tasks w ++ take (S k) ((Fetch <$> gs.*1) ++ [Read pk])) as Hk.
  { intros k Hk. eapply finish_serving; [done| |done]. simpl. by rewrite (fa_tasks _ _ _ _ _ F). }
  split; [done|]. split; [intros k Hle; destruct (Hk k Hle) as (wk & ? & _ & ?); eauto|].
  destruct (Hk (length gs) (le_n _)) as (w2 & Hw2 & Hs2 & _).
  rewrite drop_ge in Hs2 by done. rewrite take_ge in Hw2 by (rewrite length_fmap; done).
  exists w2. split; [done|]. apply serving_end; [done|]. apply Hp.
Qed.

End parse.

(** ** Witnesses *)

Definition txt (s : string) : text := String.list_ascii_of_string s.
Definition w_requests : list request :=
  [mkRequest (txt "a.html") (txt "HTTP/1.1") [txt "Host: localhost"; txt "Accept: x"];
   mkRequest (txt "") (txt "HTTP/1.0") []; mkRequest (txt "b/c") (txt "HTTP/1.1") [txt ""]].
Definition w_text : text := Eval vm_compute in concat (render <$> w_requests).
Definition w_pad : text := [NUL; NUL].
Definition w_pkg : HPKG := mkHPKG HS_READING None None None new_reply 2 None None None.
Definition w_world : world := mkWorld {[1%positive := w_pkg]} 2%positive test_net1 [] [].

#[global] Instance clean_dec t : Decision (clean t).
Proof. unfold clean. apply _. Defined.
#[global] Instance header_ok_dec h : Decision (header_ok h).
Proof. unfold header_ok. apply _. Defined.
#[global] Instance request_ok_dec r : Decision (request_ok r).
Proof. unfold request_ok. apply _. Defined.

Lemma w_parent : parent_ok w_world 1%positive w_pkg test_child.
Proof.
  constructor; [done..|]. intros l. simpl. rewrite lookup_singleton_is_Some. by intros <-.
Qed.

Lemma w_open : ¬ closing test_child.
Proof. by intros [|]. Qed.

Lemma w_nul : NUL ∈ drop (pred (length w_text)) (w_text ++ w_pad).
Proof. apply (bool_decide_unpack _). by vm_compute. Qed.

Lemma w_accepted : accepted w_world w_pkg test_child.
Proof. exists 1%positive. split; [done|]. split; [done|]. by eexists. Qed.


Lemma parse_render_witness :
  ∃ gs w1, gs.*2 = [(Some (txt "a.html"), Some (txt "HTTP/1.1")); (Some (txt ""), Some (txt "HTTP/1.0"));
      (Some (txt "b/c"), Some (txt "HTTP/1.1"))] ∧
    family w_world 1%positive w_pkg gs w1 ∧
    svr_http_parse (w_text ++ w_pad) (pred (length w_text)) 1%positive w_world =
    enqueue (next_task 1%positive gs) w1.
Proof.
  apply (parse_render w_requests [NUL] _ _ _ test_child);
    [apply (bool_decide_unpack _); by vm_compute|by vm_compute|apply w_parent|apply w_open].
Defined.

Lemma requests_served_witness :
  ∃ ls w1, svr_http_parse (w_text ++ w_pad) (pred (length w_text)) 1%positive w_world = Ok (tt, w1) ∧
    (∀ k, k ≤ length ls → ∃ wk, finish (take k ls) w1 = Ok (tt, wk) ∧
      tasks wk = [] ++ take (S k) ((Fetch <$> ls) ++ [Read 1%positive])) ∧
    ∃ w2, finish ls w1 = Ok (tt, w2) ∧
      pkgs w2 = <[1%positive := with_hst HS_PARSING w_pkg]> {[1%positive := w_pkg]}.
Proof.
  apply (requests_served _ _ _ w_pkg test_child w_world); [apply w_nul|apply w_parent|apply w_open].
Defined.

(** The run of the witnesses: three children, in the order of the buffer. *)
Example parse_run :
  match svr_http_parse (w_text ++ w_pad) (pred (length w_text)) 1%positive w_world with
  | Ok (_, w) => (uri <$> pkgs w !! 2%positive, nsg <$> pkgs w !! 3%positive, tasks w)
  | Fault _ => (None, None, [])
  end = (Some (Some (txt "a.html")), Some (Some 4%positive), [Fetch 2%positive]).
Proof. by vm_compute. Qed.

(** The number of bytes that [svr_http_parse_aio] passes leaves out the last
    byte that was read, and not a NUL as its comment says: of a request that
    ends without a line break the last character of the version is lost. *)
Example last_byte_lost :
  match svr_http_parse (txt "GET /a HTTP/1.1" ++ w_pad) (pred (length (txt "GET /a HTTP/1.1")))
    1%positive w_world with
  | Ok (_, w) => pkgs w !! 2%positive ≫= ver
  | Fault _ => None
  end = Some (txt "HTTP/1.").
Proof. by vm_compute. Qed.

End HttpParse.
