(* ===== verification/HttpHandlers.v ===== *)
(** webserver/svr_http.cc: the handlers of the web server.

    A request is answered by handlers that run one after another: each posts a
    task, starts an asynchronous operation, or leaves a callback in the cache,
    and the next one runs when that is done.  The state is the cache, whose heap
    is that of [malloc], and the rest: packages, connections and posted tasks
    ([HttpParse.world]), and the asynchronous operations that were started.
    [exec] runs one task, completes one operation, or accepts a connection. *)
From stdpp Require Export pretty.
From S2P Require Import Prelude FastFIFO Cache CacheRun Connection HttpParse.

Module HttpHandlers.
Import Connection HttpParse Cache CacheRun.

Definition MAXCSIZE : Z := 1048576.
Definition MAXKEYS : nat := 256.
Definition MAXRH : nat := Z.to_nat 8192.
Definition MAXWB : Z := 65536.

(** The closures that are given to the cache. *)
Inductive closure := HeaderWio (pk : loc) | BodyWio (pk : loc).

(** An operation that [aio_read] or [aio_write] started: the handler that is
    called with the number of bytes, its package, and the arguments.  The
    handler for errors is [svr_http_final_aio] in all of them. *)
Inductive ok_callback := ParseAio | HeaderToBodyAio | BodyRio | BodyPio.
#[global] Instance ok_callback_eq_dec : EqDecision ok_callback.
Proof. solve_decision. Defined.

Record io := mkIo {
  io_ok : ok_callback;
  io_pk : loc;
  io_fd : Z;
  io_buf : option loc;
  io_len : Z;
  io_off : Z;
}.

Section handlers.
Context {OSt F : Type} `{HO : OS OSt} `{HF : FIFO F loc} `{HP : Platform}.

Record rest := mkRest { web : world (OSt := OSt); ios : gmap loc io; io_next : loc }.
Definition server : Type := Cache closure F * rest.
Implicit Types (w : server) (pk : loc) (k : HPKG).

(** Running a closure of the cache inside of an operation of the cache; see
    [run_closure]. *)
Variable run : closure → CacheData → prog server unit.
#[local] Instance server_client : CacheClient server closure F := running run.

(** ** Access to the parts of the state *)

Definition set_web (x : world) (r : rest) : rest := mkRest x (ios r) (io_next r).
Definition no_garbage (x : world (OSt := OSt)) : world := mkWorld (pkgs x) (next x) (wnet x) (tasks x) [].

Fixpoint free_all (ls : list loc) : prog (Cache closure F) unit :=
  match ls with [] => pret tt | l :: ls => free_block (Some l) ;;; free_all ls end.

(** An operation on packages and connections; what it gives to [free] is freed. *)
Definition on_web {A} (m : prog (world (OSt := OSt)) A) : prog server A := λ w,
  match m (web w.2) with
  | Ok (a, x) =>
    match free_all (garbage x) w.1 with
    | Ok (_, c) => Ok (a, (c, set_web (no_garbage x) w.2))
    | Fault e => Fault e
    end
  | Fault e => Fault e
  end.

Definition on_cache {A} (m : prog (Cache closure F) A) : prog server A := lift m.

(** The bytes of a buffer up to the zeros at its end are replaced. *)
Definition write_block (b : loc) (t : string) : prog (Cache closure F) unit :=
  let! _ := load_block b in
  pmodify (λ c, set_heap (<[b := BData t]> (heap c)) c).

Definition load pk : prog server HPKG := on_web (load_pkg pk).
Definition update pk (f : HPKG → HPKG) : prog server unit := on_web (update_pkg pk f).
Definition update_rsp pk (f : reply → reply) : prog server unit := update pk (λ k, with_rsp (f (rsp k)) k).
Definition conn_of pk : prog server Conn := on_web (load_conn_of pk).
Definition set_cst pk (s : ConnST) : prog server unit :=
  on_web (let! k := load_pkg pk in on_net (update_conn (cpn k) (with_cst s))).
Definition sys (f : OSt → Z * OSt) : prog server Z := on_web (on_net (syscall f)).

Definition with_hsn x (r : reply) :=
  mkReply x (wst r) (vern r) (chead r) (headkey r) (cbody r) (bodykey r) (hfd r) (tr_offset r).
Definition with_wst x (r : reply) :=
  mkReply (hsn r) x (vern r) (chead r) (headkey r) (cbody r) (bodykey r) (hfd r) (tr_offset r).
Definition with_vern x (r : reply) :=
  mkReply (hsn r) (wst r) x (chead r) (headkey r) (cbody r) (bodykey r) (hfd r) (tr_offset r).
Definition with_chead x (r : reply) :=
  mkReply (hsn r) (wst r) (vern r) x (headkey r) (cbody r) (bodykey r) (hfd r) (tr_offset r).
Definition with_headkey x (r : reply) :=
  mkReply (hsn r) (wst r) (vern r) (chead r) x (cbody r) (bodykey r) (hfd r) (tr_offset r).
Definition with_cbody x (r : reply) :=
  mkReply (hsn r) (wst r) (vern r) (chead r) (headkey r) x (bodykey r) (hfd r) (tr_offset r).
Definition with_bodykey x (r : reply) :=
  mkReply (hsn r) (wst r) (vern r) (chead r) (headkey r) (cbody r) x (hfd r) (tr_offset r).
Definition with_hfd x (r : reply) :=
  mkReply (hsn r) (wst r) (vern r) (chead r) (headkey r) (cbody r) (bodykey r) x (tr_offset r).
Definition with_tr_offset x (r : reply) :=
  mkReply (hsn r) (wst r) (vern r) (chead r) (headkey r) (cbody r) (bodykey r) (hfd r) x.
Definition with_ch_p x (b : charn) := mkCharn x (ch_n b) (ch_cached b).
Definition with_ch_n x (b : charn) := mkCharn (ch_p b) x (ch_cached b).
Definition with_ch_cached x (b : charn) := mkCharn (ch_p b) (ch_n b) x.

(** [pk->hst = s; pk->wst = t]. *)
Definition status pk (s : HttpST) (t : HttpWST) : prog server unit :=
  update pk (λ k, with_hst s (with_rsp (with_wst t (rsp k)) k)).

(** [aio_read] or [aio_write] on a new [IOCallback]. *)
Definition start (o : io) : prog server unit :=
  pmodify (λ w, (w.1, mkRest (web w.2) (<[io_next w.2 := o]> (ios w.2)) (Pos.succ (io_next w.2)))).

(** The loops of the cache over the callbacks that wait for a key need one
    iteration more than there are, the loop of [cleanup] one more than there
    are entries. *)
Definition queue_fuel (key : string) (x : Cache closure F) : nat :=
  match view x key with Some e => S (length (queue e)) | None => 1 end.
Definition cache_put (key : string) (buf : option loc) (n : Z) : prog server bool :=
  λ w, put (queue_fuel key w.1) key buf n w.
Definition cache_cancel (key : string) : prog server bool :=
  λ w, cancelReservation (queue_fuel key w.1) key w.
Definition cache_doneWith (key : string) : prog server unit :=
  λ w, on_cache (doneWith (S (base.size (entries w.1))) key) w.

(** ** C strings *)

(** The bytes of a buffer up to its NUL. *)
Fixpoint cstr (t : text) : string :=
  match t with
  | [] => EmptyString
  | a :: t => if decide (a = NUL) then EmptyString else String a (cstr t)
  end.

Definition CRLFs : string := String CR (String LF EmptyString).
Definition sline_200 (vern : nat) : string := if vern then "HTTP/1.0 200 OK" else "HTTP/1.1 200 OK".
Definition sline_400 : string := "HTTP/1.1 400 Bad Request".
Definition sline_404 (vern : nat) : string :=
  if vern then "HTTP/1.0 404 Not Found" else "HTTP/1.1 404 Not Found".
Definition websvrd : string := "Rain/1.1".

(** The keys of a header and of a block of the body: at most [MAXKEYS - 1]
    characters. *)
Definition head_key (u : text) : string := String.substring 0 (MAXKEYS - 1) (cstr u).
Definition body_key (u : text) (off : Z) : string :=
  String.substring 0 (MAXKEYS - 1) (cstr u ++ "#" ++ pretty (Z.to_N off)).

Lemma substring_length n s : String.length (String.substring 0 n s) ≤ n.
Proof. revert s. induction n as [|n IH]; intros [|a s]; simpl; try lia. specialize (IH s). lia. Qed.

Lemma head_key_length u : String.length (head_key u) < MAXKEYS.
Proof. pose proof (substring_length (MAXKEYS - 1) (cstr u)). unfold head_key, MAXKEYS in *. lia. Qed.

Lemma body_key_length u off : String.length (body_key u off) < MAXKEYS.
Proof. unfold body_key. pose proof (substring_length (MAXKEYS - 1)). unfold MAXKEYS in *. apply Nat.lt_succ_r, H. Qed.

(** Blocks for keys have a byte to spare; see [HttpRoom]. *)
Definition keys_fit : Prop := ∀ n, n < MAXKEYS → n < usable n.

(** The text of a header that was made for an existing file.  The buffers of
    svr_http.cc ([MAXWH] and [MAXWHL] bytes) are larger than the text and its
    dates, so that nothing is cut. *)
Definition header_200 (vern : nat) (date lastmod : string) (size : Z) : string :=
  sline_200 vern ++ CRLFs ++ "Date: " ++ date ++ CRLFs ++ "Server: " ++ websvrd ++ CRLFs ++
  "Last-Modified: " ++ lastmod ++ CRLFs ++ "Content-Type: " ++ "text/plain" ++ CRLFs ++
  "Content-Length: " ++ pretty (Z.to_N size) ++ CRLFs ++ CRLFs.

(** ** The handlers *)

Definition final pk : prog server unit := on_web (svr_http_final pk).

Definition svr_http_read pk : prog server unit :=
  let! k := load pk in
  let! c := conn_of pk in
  if decide (cst c = CS_CLOSING ∨ cst c = CS_CLOSING_R) then final pk
  else
    update pk (with_hst HS_READING) ;;;
    match ch_p (chead (rsp k)) with
    | None =>
      let! b := on_cache (alloc (BData EmptyString)) in
      update_rsp pk (λ r, with_chead (with_ch_n 0 (with_ch_p (Some b) (chead r))) r)
    | Some _ => pret tt
    end ;;;
    let! k := load pk in
    let! b := pnonnull (ch_p (chead (rsp k))) in
    on_cache (write_block b EmptyString) ;;;
    start (mkIo ParseAio pk (cfd c) (ch_p (chead (rsp k))) (Z.of_nat MAXRH - 1) 0).

Definition svr_http_final_aio pk : prog server unit :=
  let! k := load pk in
  let! c := conn_of pk in
  passert (bool_decide (cst c ≠ CS_CLOSING)) ;;;
  match hst k with
  | HS_READING | HS_PARSING =>
    set_cst pk (if decide (cst c = CS_CLOSING_W) then CS_CLOSING else CS_CLOSING_R) ;;;
    final pk
  | HS_WRITING | HS_FETCHING =>
    set_cst pk (if decide (cst c = CS_CLOSING_R) then CS_CLOSING else CS_CLOSING_W) ;;;
    if decide (hst k = HS_FETCHING ∧ wst (rsp k) = WS_BODY) then
      let! key := pnonnull (bodykey (rsp k)) in
      let! _ := cache_cancel key in
      pret tt
    else
      (if decide (hst k = HS_WRITING ∧ wst (rsp k) = WS_HEAD) then
         passert (bool_decide (headkey (rsp k) ≠ None)) ;;;
         let! key := pnonnull (headkey (rsp k)) in
         cache_doneWith key
       else pret tt) ;;;
      (if decide (hst k = HS_WRITING ∧ wst (rsp k) = WS_BODY) then
         passert (bool_decide (bodykey (rsp k) ≠ None)) ;;;
         let! key := pnonnull (bodykey (rsp k)) in
         cache_doneWith key
       else pret tt) ;;;
      final pk
  | HS_UNKNOWN => final pk
  end.

(** [data]: the bytes that were read into the zeroed buffer. *)
Definition svr_http_parse_aio pk (buf : option loc) (data : text) : prog server unit :=
  let! k := load pk in
  let! c := conn_of pk in
  passert (bool_decide (ch_p (chead (rsp k)) = buf)) ;;;
  if decide (closing c) then final pk
  else
    update pk (with_hst HS_PARSING) ;;;
    update_rsp pk (λ r, with_chead (mkCharn buf (wrap_size (Z.of_nat (length data) - 1))
                                      (ch_cached (chead r))) r) ;;;
    if decide (length data = 0) then svr_http_final_aio pk
    else on_web (svr_http_parse (data ++ replicate (MAXRH - length data) NUL) (length data - 1) pk).

(** The callback of the cache with a header. *)
Definition svr_http_header_wio pk (cd : CacheData) : prog server unit :=
  status pk HS_WRITING WS_HEAD ;;;
  let! c := conn_of pk in
  if decide (closing c) then final pk
  else
    let! data := pnonnull (cd_data cd) in
    let! b := on_cache (load_block data) in
    match b with
    | BData s =>
      if String.length s <? 9 then pfail HeapOverflow
      else
        let loc := String.substring 9 3 s in
        update_rsp pk (with_hsn (if String.eqb loc "200" then N_200
                                 else if String.eqb loc "404" then N_404 else N_UNO)) ;;;
        start (mkIo HeaderToBodyAio pk (cfd c) (Some data) (cd_size cd) 0)
    | _ => pfail UseAfterFree
    end.

(** The callback of the cache with a block of the body. *)
Definition svr_http_body_wio pk (cd : CacheData) : prog server unit :=
  let! c := conn_of pk in
  match cd_data cd with
  | None => final pk
  | Some _ =>
    if decide (closing c) then svr_http_final_aio pk
    else
      status pk HS_WRITING WS_BODY ;;;
      start (mkIo BodyRio pk (cfd c) (cd_data cd) (cd_size cd) 0)
  end.

Definition svr_http_body pk : prog server unit :=
  status pk HS_FETCHING WS_BODY ;;;
  let! c := conn_of pk in
  if decide (closing c) then final pk
  else
    let! k := load pk in
    let! u := pnonnull (uri k) in
    let key := body_key u (tr_offset (rsp k)) in
    update_rsp pk (with_bodykey (Some key)) ;;;
    let! cCB := on_cache (alloc (BCallback (BodyWio pk))) in
    let! hit := get key (Some cCB) in
    if (hit : bool) then pret tt
    else
      let! rsvp := on_cache (reserve key) in
      passert rsvp ;;;
      let! cCB := on_cache (alloc (BCallback (BodyWio pk))) in
      let! iscac := get key (Some cCB) in
      passert iscac ;;;
      let! b := on_cache (alloc (BData EmptyString)) in
      update_rsp pk (λ r, with_cbody (with_ch_p (Some b) (cbody r)) r) ;;;
      (if decide (hfd (rsp k) = (-1)%Z) then
         let! fd := sys (os_open (cstr u)) in update_rsp pk (with_hfd fd)
       else pret tt) ;;;
      let! k := load pk in
      start (mkIo BodyPio pk (hfd (rsp k)) (Some b) MAXWB (tr_offset (rsp k))).

Definition svr_http_header_to_body_aio pk : prog server unit :=
  status pk HS_UNKNOWN WS_HEAD ;;;
  let! k := load pk in
  if decide (hsn (rsp k) = N_200) then svr_http_body pk else final pk.

(** Putting a header into the cache: the end of both branches of
    [svr_http_header_rio]. *)
Definition put_header pk (s : string) : prog server unit :=
  let! b := on_cache (alloc (BData s)) in
  update_rsp pk (λ r, with_chead (with_ch_n (wrap_size (Z.of_nat (String.length s)))
                                    (with_ch_p (Some b) (chead r))) r) ;;;
  let! k := load pk in
  let! key := pnonnull (headkey (rsp k)) in
  let! isput := cache_put key (Some b) (wrap_size (Z.of_nat (String.length s))) in
  passert isput ;;;
  update_rsp pk (λ r, with_chead (with_ch_cached isput (chead r)) r).

Definition svr_http_header_rio pk : prog server unit :=
  status pk HS_FETCHING WS_HEAD ;;;
  let! k := load pk in
  let! u := pnonnull (uri k) in
  (if decide (hfd (rsp k) = (-1)%Z) then
     let! fd := sys (os_open (cstr u)) in update_rsp pk (with_hfd fd)
   else pret tt) ;;;
  let! k := load pk in
  if decide (hfd (rsp k) < 0)%Z then
    update_rsp pk (with_hsn N_404) ;;;
    put_header pk (sline_404 (vern (rsp k)) ++ CRLFs ++ CRLFs)
  else
    update_rsp pk (λ r, with_tr_offset 0 (with_hsn N_200 r)) ;;;
    let! w := pget in
    let s := os (wnet (web w.2)) in
    passert (bool_decide (ch_p (chead (rsp k)) = None)) ;;;
    put_header pk (header_200 (vern (rsp k)) (os_time s) (os_stat (hfd (rsp k)) s).1
                     (os_stat (hfd (rsp k)) s).2).

Definition svr_http_header pk : prog server unit :=
  status pk HS_FETCHING WS_HEAD ;;;
  let! c := conn_of pk in
  if decide (closing c) then final pk
  else
    let! cCB := on_cache (alloc (BCallback (HeaderWio pk))) in
    let! k := load pk in
    let! u := pnonnull (uri k) in
    let key := head_key u in
    update_rsp pk (with_headkey (Some key)) ;;;
    let! hit := get key (Some cCB) in
    if (hit : bool) then pret tt
    else
      let! rsvp := on_cache (reserve key) in
      passert rsvp ;;;
      let! cCB := on_cache (alloc (BCallback (HeaderWio pk))) in
      let! iscac := get key (Some cCB) in
      passert iscac ;;;
      svr_http_header_rio pk.

Definition svr_http_write_400 pk : prog server unit :=
  status pk HS_WRITING WS_HEAD ;;;
  update_rsp pk (with_hsn N_400) ;;;
  let! c := conn_of pk in
  if decide (closing c) then final pk
  else
    let s := (sline_400 ++ CRLFs ++ CRLFs)%string in
    let! b := on_cache (alloc (BData s)) in
    update_rsp pk (λ r, with_chead (with_ch_n (wrap_size (Z.of_nat (String.length s)))
                                      (with_ch_p (Some b) (chead r))) r) ;;;
    start (mkIo BodyRio pk (cfd c) (Some b) (wrap_size (Z.of_nat (String.length s))) 0).

Definition svr_http_fetch pk : prog server unit :=
  let! c := conn_of pk in
  if decide (closing c) then final pk
  else
    status pk HS_FETCHING WS_HEAD ;;;
    update_rsp pk (with_hsn N_UNO) ;;;
    let! k := load pk in
    match met k, ver k, uri k with
    | Some _, Some v, Some _ =>
      if String.eqb (cstr v) "HTTP/1.0" then
        update_rsp pk (with_vern 0) ;;; svr_http_header pk
      else if String.eqb (cstr v) "HTTP/1.1" then
        update_rsp pk (with_vern 1) ;;; svr_http_header pk
      else svr_http_write_400 pk
    | _, _, _ => svr_http_write_400 pk
    end.

Definition svr_http_body_rio pk (nbytes : Z) : prog server unit :=
  let! k := load pk in
  if decide (wst (rsp k) = WS_BODY) then
    match bodykey (rsp k) with
    | Some key => cache_doneWith key
    | None => pret tt
    end ;;;
    if decide (0 < nbytes)%Z then
      update_rsp pk (λ r, with_tr_offset (tr_offset r + nbytes) r) ;;;
      svr_http_body pk
    else
      update_rsp pk (with_wst WS_UNO) ;;;
      final pk
  else final pk.

Definition svr_http_body_pio pk (buf : option loc) (nbytes : Z) : prog server unit :=
  let! k := load pk in
  let! key := pnonnull (bodykey (rsp k)) in
  let! iscac := cache_put key buf nbytes in
  passert iscac ;;;
  update_rsp pk (λ r, with_cbody (with_ch_cached iscac (cbody r)) r).

(** [svr_conn_accept] and what it starts. *)
Definition svr_conn_accept (junk : ConnST * Z) (cn : loc) : prog server unit :=
  let! r := on_web (on_net (accept_conn junk (Some cn))) in
  match r with
  | Some (ERRCONN_OK, Some pn) =>
    let! pk := on_web (new_pkg pn) in
    svr_http_read pk
  | _ => pret tt
  end.

End handlers.

Arguments keys_fit : clear implicits.
Arguments rest OSt : clear implicits.
Arguments server OSt F : clear implicits.

(** ** The program *)

Section program.
Context {OSt F : Type} `{HO : OS OSt} `{HF : FIFO F loc} `{HP : Platform}.
Abbreviation server := (server OSt F).
Implicit Types (w : server) (pk : loc).

(** Calling a closure.  A callback may call the cache, which calls closures:
    [svr_http_body_wio] on a connection that is being closed cancels the
    reservation, and the callbacks that this runs get no data, with which they
    call nothing.  So a depth of 2 is enough. *)
Fixpoint run_closure (depth : nat) (f : closure) (cd : CacheData) : prog server unit :=
  match depth with
  | O => pfail OutOfFuel
  | S depth =>
    match f with
    | HeaderWio pk => svr_http_header_wio (run_closure depth) pk cd
    | BodyWio pk => svr_http_body_wio (run_closure depth) pk cd
    end
  end.
Definition call_closure : closure → CacheData → prog server unit := run_closure 2.

(** What the dispatcher runs for a posted task. *)
Definition run_task (t : task) : prog server unit :=
  match t with
  | Fetch pk => svr_http_fetch call_closure pk
  | Read pk => svr_http_read call_closure pk
  end.

(** How an operation ends: the bytes it read, or as many as it wrote, or an
    error. *)
Inductive completion := Done (data : text) | Failed.

(** A completed read has put its bytes into the buffer. *)
Definition fill (buf : option loc) (data : text) : prog server unit :=
  let! b := pnonnull buf in
  on_cache call_closure (write_block b (String.string_of_list_ascii data)).

Definition run_io (o : io) (r : completion) : prog server unit :=
  match r with
  | Failed => svr_http_final_aio call_closure (io_pk o)
  | Done data =>
    match io_ok o with
    | ParseAio => fill (io_buf o) data ;;; svr_http_parse_aio call_closure (io_pk o) (io_buf o) data
    | HeaderToBodyAio => svr_http_header_to_body_aio call_closure (io_pk o)
    | BodyRio => svr_http_body_rio call_closure (io_pk o) (Z.of_nat (length data))
    | BodyPio =>
      fill (io_buf o) data ;;;
      svr_http_body_pio call_closure (io_pk o) (io_buf o) (Z.of_nat (length data))
    end
  end.

(** One step of the server: a task that is posted, an operation that is done, a
    connection on the listening one. *)
Inductive choice :=
  | RunTask (i : nat)
  | Complete (id : loc) (r : completion)
  | Accept (junk : ConnST * Z) (cn : loc).

Definition take_task (i : nat) (x : world (OSt := OSt)) : world :=
  mkWorld (pkgs x) (next x) (wnet x) (delete i (tasks x)) (garbage x).

Definition exec (h : choice) : prog server unit := λ w,
  match h with
  | RunTask i =>
    match tasks (web w.2) !! i with
    | Some t => run_task t (w.1, set_web (take_task i (web w.2)) w.2)
    | None => Ok (tt, w)
    end
  | Complete id r =>
    match ios w.2 !! id with
    | Some o => run_io o r (w.1, mkRest (web w.2) (delete id (ios w.2)) (io_next w.2))
    | None => Ok (tt, w)
    end
  | Accept junk cn => svr_conn_accept call_closure junk cn w
  end.

End program.

End HttpHandlers.
