(* ===== verification/HttpRoom.v ===== *)
(** How far the server depends on the allocator.

    [strCpy] writes a byte more than it has asked for, so that on a platform
    where a block of the length of a key has no room for one the server faults.
    Here is shown that this is all: [roomy] is the platform on which the keys
    have room, and on any other one every step does the same as there, or stops
    in [strCpy]. *)
From S2P Require Import Prelude FastFIFO Cache CacheRun Connection HttpParse HttpHandlers.

Module HttpRoom.
Import Connection HttpParse Cache CacheRun HttpHandlers.

Section room.
Variable P : Platform.

(** The length of some key is that of a block without room for its terminator. *)
Definition no_room : Prop := ∃ n, n < MAXKEYS ∧ usable (Platform := P) n ≤ n.

#[local] Instance roomy : Platform := {|
  usable n := if n <? MAXKEYS then Nat.max (usable (Platform := P) n) (S n) else usable (Platform := P) n;
  freed_readable := freed_readable (Platform := P);
|}.

Lemma roomy_fits : keys_fit roomy.
Proof. intros n Hn. simpl. rewrite (proj2 (Nat.ltb_lt _ _) Hn). lia. Qed.

Context {OSt F : Type} `{HO : OS OSt} `{HF : FIFO F loc}.
Abbreviation server := (server OSt F).
Abbreviation earlier := (stops_earlier HeapOverflow no_room).
Implicit Types (pk : loc).

(** ** The cache *)

Lemma strCpy_earlier key : earlier (strCpy (HP := P) (K := closure) (F := F) key) (strCpy (HP := roomy) key).
Proof.
  intros c. unfold strCpy, pbind, alloc. simpl.
  destruct (Nat.ltb_spec (String.length key) MAXKEYS) as [Hk|Hk]; [|by left].
  rewrite (proj2 (Nat.ltb_lt _ (Nat.max _ _))) by lia.
  destruct (Nat.ltb_spec (String.length key) (usable (Platform := P) (String.length key))); [by left|].
  right. split; [done|]. by eexists.
Qed.
#[local] Hint Resolve strCpy_earlier : earlier.

Lemma reserve_earlier key : earlier (reserve (HP := P) (K := closure) (F := F) key) (reserve (HP := roomy) key).
Proof. unfold reserve. compare_parts. Qed.
#[local] Hint Resolve reserve_earlier : earlier.

(** Callbacks that may stop earlier. *)
Variables run1 run2 : closure → CacheData → prog server unit.
Hypothesis run_earlier : ∀ f cd, earlier (run1 f cd) (run2 f cd).
#[local] Hint Resolve run_earlier : earlier.
Abbreviation C1 := (server_client (OSt := OSt) run1).
Abbreviation C2 := (server_client (OSt := OSt) run2).

Lemma on_cache_earlier {A} (m1 m2 : prog (Cache closure F) A) :
  earlier m1 m2 → earlier (lift (HC := C1) m1) (lift (HC := C2) m2).
Proof. intros Hm w. unfold lift. simpl. destruct (Hm w.1) as [->|[-> HQ]]; [by left|by right]. Qed.
#[local] Hint Resolve on_cache_earlier : earlier.

Lemma call_earlier cb d : earlier (call (HC := C1) cb d) (call (HC := C2) cb d).
Proof. unfold call. apply earlier_bind; [apply earlier_refl|]. intros []; try apply earlier_refl. apply run_earlier. Qed.
#[local] Hint Resolve call_earlier : earlier.

Lemma put_loop_earlier fuel p i d :
  earlier (put_loop (HP := P) (HC := C1) fuel p i d) (put_loop (HP := roomy) (HC := C2) fuel p i d).
Proof. revert i. induction fuel as [|fuel IH]; intros i; simpl; compare_parts. Qed.
#[local] Hint Resolve put_loop_earlier : earlier.

Lemma put_earlier fuel key buf sz :
  earlier (put (HP := P) (HC := C1) fuel key buf sz) (put (HP := roomy) (HC := C2) fuel key buf sz).
Proof. unfold put. compare_parts. Qed.
#[local] Hint Resolve put_earlier : earlier.

Lemma get_earlier key cb : earlier (get (HP := P) (HC := C1) key cb) (get (HP := roomy) (HC := C2) key cb).
Proof. unfold get. compare_parts. Qed.
#[local] Hint Resolve get_earlier : earlier.

Lemma on_cache_run_earlier {A} (m1 m2 : prog (Cache closure F) A) :
  earlier m1 m2 → earlier (on_cache (OSt := OSt) run1 m1) (on_cache run2 m2).
Proof. apply on_cache_earlier. Qed.
#[local] Hint Resolve on_cache_run_earlier : earlier.

(** ** The handlers *)

Lemma cache_put_earlier key buf n :
  earlier (cache_put (HP := P) run1 key buf n) (cache_put (HP := roomy) run2 key buf n).
Proof. intros w. apply put_earlier. Qed.

Lemma cancel_loop_earlier fuel p i :
  earlier (cancel_loop (HP := P) (HC := C1) fuel p i) (cancel_loop (HP := roomy) (HC := C2) fuel p i).
Proof. revert i. induction fuel as [|fuel IH]; intros i; simpl; compare_parts. Qed.
#[local] Hint Resolve cancel_loop_earlier : earlier.

Lemma cancel_earlier fuel key :
  earlier (cancelReservation (HP := P) (HC := C1) fuel key) (cancelReservation (HP := roomy) (HC := C2) fuel key).
Proof. unfold cancelReservation. compare_parts. Qed.

Lemma cache_cancel_earlier key : earlier (cache_cancel (HP := P) run1 key) (cache_cancel (HP := roomy) run2 key).
Proof. intros w. apply cancel_earlier. Qed.

Lemma cache_doneWith_earlier key : earlier (cache_doneWith (HP := P) run1 key) (cache_doneWith (HP := roomy) run2 key).
Proof. intros w. unfold cache_doneWith. apply on_cache_run_earlier, earlier_refl. Qed.
#[local] Hint Resolve cache_put_earlier cache_cancel_earlier cache_doneWith_earlier : earlier.

Lemma read_earlier pk : earlier (svr_http_read (F := F) run1 pk) (svr_http_read run2 pk).
Proof. unfold svr_http_read. compare_parts. Qed.

Lemma final_aio_earlier pk : earlier (svr_http_final_aio (HP := P) run1 pk) (svr_http_final_aio (HP := roomy) run2 pk).
Proof. unfold svr_http_final_aio. compare_parts. Qed.
#[local] Hint Resolve final_aio_earlier : earlier.

Lemma parse_aio_earlier pk buf data :
  earlier (svr_http_parse_aio (HP := P) run1 pk buf data) (svr_http_parse_aio (HP := roomy) run2 pk buf data).
Proof. unfold svr_http_parse_aio. compare_parts. Qed.

Lemma header_wio_earlier pk cd : earlier (svr_http_header_wio (F := F) run1 pk cd) (svr_http_header_wio run2 pk cd).
Proof. unfold svr_http_header_wio. compare_parts. Qed.

Lemma body_wio_earlier pk cd : earlier (svr_http_body_wio (HP := P) run1 pk cd) (svr_http_body_wio (HP := roomy) run2 pk cd).
Proof. unfold svr_http_body_wio. compare_parts. Qed.

Lemma body_earlier pk : earlier (svr_http_body (HP := P) run1 pk) (svr_http_body (HP := roomy) run2 pk).
Proof. unfold svr_http_body. compare_parts. Qed.
#[local] Hint Resolve body_earlier : earlier.

Lemma header_to_body_earlier pk :
  earlier (svr_http_header_to_body_aio (HP := P) run1 pk) (svr_http_header_to_body_aio (HP := roomy) run2 pk).
Proof. unfold svr_http_header_to_body_aio. compare_parts. Qed.

Lemma put_header_earlier pk s : earlier (put_header (HP := P) run1 pk s) (put_header (HP := roomy) run2 pk s).
Proof. unfold put_header. compare_parts. Qed.
#[local] Hint Resolve put_header_earlier : earlier.

Lemma header_rio_earlier pk : earlier (svr_http_header_rio (HP := P) run1 pk) (svr_http_header_rio (HP := roomy) run2 pk).
Proof. unfold svr_http_header_rio. compare_parts. Qed.
#[local] Hint Resolve header_rio_earlier : earlier.

Lemma header_earlier pk : earlier (svr_http_header (HP := P) run1 pk) (svr_http_header (HP := roomy) run2 pk).
Proof. unfold svr_http_header. compare_parts. Qed.
#[local] Hint Resolve header_earlier : earlier.

Lemma write_400_earlier pk : earlier (svr_http_write_400 (F := F) run1 pk) (svr_http_write_400 run2 pk).
Proof. unfold svr_http_write_400. compare_parts. Qed.
#[local] Hint Resolve write_400_earlier : earlier.

Lemma fetch_earlier pk : earlier (svr_http_fetch (HP := P) run1 pk) (svr_http_fetch (HP := roomy) run2 pk).
Proof. unfold svr_http_fetch. compare_parts. Qed.

Lemma body_rio_earlier pk n : earlier (svr_http_body_rio (HP := P) run1 pk n) (svr_http_body_rio (HP := roomy) run2 pk n).
Proof. unfold svr_http_body_rio. compare_parts. Qed.

Lemma body_pio_earlier pk buf n :
  earlier (svr_http_body_pio (HP := P) run1 pk buf n) (svr_http_body_pio (HP := roomy) run2 pk buf n).
Proof. unfold svr_http_body_pio. compare_parts. Qed.

Lemma accept_earlier junk cn : earlier (svr_conn_accept (F := F) run1 junk cn) (svr_conn_accept run2 junk cn).
Proof. unfold svr_conn_accept. compare_parts. Qed.

End room.

(** ** The program *)

Section program.
Context {OSt F : Type} `{HO : OS OSt} `{HF : FIFO F loc}.
Variable P : Platform.
Abbreviation server := (server OSt F).
Abbreviation earlier := (stops_earlier HeapOverflow (no_room P)).

Lemma run_closure_earlier n f cd :
  earlier (run_closure (HP := P) (OSt := OSt) (F := F) n f cd) (run_closure (HP := roomy P) n f cd).
Proof.
  revert f cd. induction n as [|n IH]; intros f cd; simpl; [apply earlier_refl|].
  destruct f; [by apply header_wio_earlier|by apply body_wio_earlier].
Qed.

Lemma run_io_earlier o c : earlier (run_io (HP := P) (OSt := OSt) (F := F) o c) (run_io (HP := roomy P) o c).
Proof.
  pose proof (run_closure_earlier 2) as Hrun. unfold run_io. destruct c as [data|]; [|by apply final_aio_earlier].
  destruct (io_ok o).
  - apply earlier_bind; [apply earlier_refl|]. intros _. by apply parse_aio_earlier.
  - by apply header_to_body_earlier.
  - by apply body_rio_earlier.
  - apply earlier_bind; [apply earlier_refl|]. intros _. by apply body_pio_earlier.
Qed.

(** A step does what it does on the roomy platform, or stops in [strCpy]. *)
Theorem exec_earlier h : earlier (exec (HP := P) (OSt := OSt) (F := F) h) (exec (HP := roomy P) h).
Proof.
  pose proof (run_closure_earlier 2) as Hrun. intros w. destruct h as [i|id r|junk cn]; simpl.
  - destruct (tasks (web w.2) !! i) as [[pk|pk]|]; [by apply fetch_earlier|by apply read_earlier|by left].
  - destruct (ios w.2 !! id) as [o|]; [apply run_io_earlier|by left].
  - by apply accept_earlier.
Qed.

End program.
End HttpRoom.
