(* ===== verification/HttpCost.v ===== *)
(** What the handlers spend.

    Everything that will go on - a callback that waits, a task, an operation, a
    request that is not fetched yet - has a weight, by the bytes of its file that
    are still to be sent.  Their sum is a potential; every handler that is part
    of answering a request raises it by less than what it has itself taken from
    it ([HttpProgress]). *)
From S2P Require Import Prelude FastFIFO Cache CacheProps CacheRun CacheCost Connection HttpParse HttpHandlers.

Module HttpCost.
Import Connection HttpParse Cache CacheProps CacheRun CacheCost HttpHandlers.

Section cost.
Context {OSt F : Type} `{HO : OS OSt} `{HF : FIFO F loc} `{HP : Platform}.
Abbreviation world := (world (OSt := OSt)).
Abbreviation server := (server OSt F).
Implicit Types (k : HPKG) (pk : loc) (x : world).

(** The length of the file of a name; the name and at least the offset of a
    package. *)
Variable file_length : text → nat.
Variable name_of : loc → option text.
Variable offset_of : loc → Z.

Definition length_of (u : option text) : nat := default 0 (file_length <$> u).
Definition left_of pk : nat := Z.to_nat (Z.of_nat (length_of (name_of pk)) - offset_of pk).

(** ** Weights *)

Definition header_weight (n : nat) : nat := 3 * n + 5.
Definition block_weight_of (n : nat) : nat := 3 * n + 2.

Definition closure_weight (f : closure) : nat :=
  match f with HeaderWio pk => header_weight (left_of pk) | BodyWio pk => block_weight_of (left_of pk) end.
Definition io_weight (o : io) : nat :=
  match io_ok o with
  | ParseAio => 0
  | HeaderToBodyAio => header_weight (left_of (io_pk o))
  | BodyRio => block_weight_of (left_of (io_pk o))
  | BodyPio => 2
  end.

(** A request that is not fetched yet. *)
Definition unfetched k : Prop := ppg k ≠ None ∧ wst (rsp k) = WS_UNO.
#[export] Instance unfetched_dec k : Decision (unfetched k).
Proof. unfold unfetched. apply _. Defined.
Definition pkg_weight k : nat := if decide (unfetched k) then header_weight (length_of (uri k)) else 0.

Definition web_weight x : Z := Z.of_nat (map_weight pkg_weight (pkgs x) + length (tasks x)).
Definition rest_weight (r : rest OSt) : Z := (web_weight (web r) + Z.of_nat (map_weight io_weight (ios r)))%Z.

Definition follows pk k : Prop := uri k = name_of pk ∧ (offset_of pk ≤ tr_offset (rsp k))%Z.
Definition web_ok x : Prop := ∀ pk k, pkgs x !! pk = Some k → follows pk k.
Definition rest_ok (r : rest OSt) : Prop := web_ok (web r) ∧ ∀ id, is_Some (ios r !! id) → (id < io_next r)%positive.

(** ** Packages *)

Abbreviation web_spends := (Prelude.spends web_ok anyhow web_weight).

Lemma web_same {A} (m : prog world A) :
  (∀ x a x', m x = Ok (a, x') → pkgs x' = pkgs x ∧ tasks x' = tasks x) → web_spends m (λ _, 0%Z).
Proof.
  intros Hm x a x' Hx Hr. destruct (Hm _ _ _ Hr) as [E1 E2]. unfold web_ok, web_weight in *. rewrite E1, E2.
  split; [done|]. split; [done|lia].
Qed.

Lemma on_net_spends {A} (m : prog (net OSt) A) : web_spends (on_net m) (λ _, 0%Z).
Proof. apply web_same. intros x a x'. unfold on_net. destruct (m (wnet x)) as [[b n]|]; [|done]. by intros [= _ <-]. Qed.

Lemma load_pkg_spends pk : web_spends (load_pkg pk) (λ _, 0%Z).
Proof. apply web_same. intros x a x'. unfold load_pkg. destruct (pkgs x !! pk); [|done]. by intros [= _ <-]. Qed.

(** A change of a package that does not make it a request to be fetched. *)
Definition lighter pk (f : HPKG → HPKG) : Prop :=
  ∀ k, (follows pk k → follows pk (f k)) ∧ pkg_weight (f k) ≤ pkg_weight k.

Lemma update_pkg_spends pk f : lighter pk f → web_spends (update_pkg pk f) (λ _, 0%Z).
Proof.
  intros Hf x a x' Hx. unfold update_pkg. destruct (pkgs x !! pk) as [k|] eqn:Hk; [|done]. intros [= _ <-].
  destruct (Hf k) as [H1 H2]. split; [|split; [done|]].
  - intros pk2 k2. simpl. intros [[<- <-]|[_ Hk2]]%lookup_insert_Some; [by apply H1, Hx|by apply Hx].
  - unfold web_weight. simpl. pose proof (map_weight_move pkg_weight _ _ _ (f k) Hk). lia.
Qed.

Lemma enqueue_spends t : web_spends (enqueue t) (λ _, 1%Z).
Proof. intros x a x' Hx [= _ <-]. split; [done|]. split; [done|]. unfold web_weight. simpl. rewrite length_app. simpl. lia. Qed.

(** The weight of what is deleted is given back. *)
Lemma delete_pkg_gives pk k x a x' :
  web_ok x → pkgs x !! pk = Some k → delete_pkg pk x = Ok (a, x') →
  web_ok x' ∧ (web_weight x' = web_weight x - Z.of_nat (pkg_weight k))%Z.
Proof.
  intros Hx Hk. unfold delete_pkg. rewrite Hk. intros [= _ <-]. split.
  - intros pk2 k2. simpl. intros [_ Hk2]%lookup_delete_Some. by apply Hx.
  - unfold web_weight. simpl. rewrite (map_weight_delete pkg_weight _ _ _ Hk). lia.
Qed.

Lemma pkg_weight_same k k' :
  ppg k' = ppg k → wst (rsp k') = wst (rsp k) → uri k' = uri k → pkg_weight k' = pkg_weight k.
Proof. intros E1 E2 E3. unfold pkg_weight, unfetched. rewrite E3. repeat case_decide; try done; rewrite E1, E2 in *; tauto. Qed.

Lemma pkg_weight_fetched k : wst (rsp k) ≠ WS_UNO → pkg_weight k = 0.
Proof. intros E. unfold pkg_weight. rewrite decide_False; [done|]. by intros [_ ?]. Qed.

Lemma lighter_same pk f :
  (∀ k, ppg (f k) = ppg k ∧ wst (rsp (f k)) = wst (rsp k) ∧ uri (f k) = uri k ∧ tr_offset (rsp (f k)) = tr_offset (rsp k)) →
  lighter pk f.
Proof.
  intros Hf k. destruct (Hf k) as (E1 & E2 & E3 & E4). split; [unfold follows; by rewrite E3, E4|].
  by rewrite (pkg_weight_same k (f k)).
Qed.

Lemma load_conn_of_spends pk : web_spends (load_conn_of pk) (λ _, 0%Z).
Proof. unfold load_conn_of. apply spends_then; [tc_solve|apply load_pkg_spends|]. intros k. apply on_net_spends. Qed.

(** The end of a request: at most one task, but the weight of the package. *)
Lemma svr_http_final_gives pk k x a x' :
  web_ok x → pkgs x !! pk = Some k → svr_http_final pk x = Ok (a, x') →
  web_ok x' ∧ (web_weight x' ≤ web_weight x + (match ppg k with Some _ => 1 | None => 0 end) - Z.of_nat (pkg_weight k))%Z.
Proof.
  intros Hx Hk Hr. unfold svr_http_final in Hr. unfold load_pkg in Hr. unfold pbind in Hr at 1. rewrite Hk in Hr.
  apply pbind_inv in Hr as (y & x1 & H1 & H2). destruct (delete_pkg_gives _ _ _ _ _ Hx Hk H1) as [Hx1 E].
  cut (web_spends (match ppg k with
    | None => let! _ := on_net (svr_conn_close (cpn k)) in pret tt
    | Some park =>
      match nsg k with
      | None => update_pkg park (with_lcg None) ;;; enqueue (Read park)
      | Some fget => enqueue (Fetch fget)
      end
    end) (λ _, match ppg k with Some _ => 1 | None => 0 end)%Z).
  { intros H. destruct (H _ _ _ Hx1 H2) as (? & _ & ?). split; [done|lia]. }
  destruct (ppg k) as [park|].
  - destruct (nsg k) as [fget|]; [apply enqueue_spends|].
    apply spends_then; [tc_solve|by apply update_pkg_spends, lighter_same|]. intros ?. apply enqueue_spends.
  - apply spends_then; [tc_solve|apply on_net_spends|]. intros ?. by apply spends_ret.
Qed.

Lemma svr_http_final_spends pk : web_spends (svr_http_final pk) (λ _, 1%Z).
Proof.
  intros x a x' Hx Hr. destruct (pkgs x !! pk) as [k|] eqn:Hk.
  - destruct (svr_http_final_gives _ _ _ _ _ Hx Hk Hr) as [? ?]. split; [done|]. split; [done|]. destruct (ppg k); lia.
  - unfold svr_http_final, load_pkg, pbind in Hr. by rewrite Hk in Hr.
Qed.

(** ** The state of the server *)

Section handlers.
Variable run : closure → CacheData → prog server unit.
Abbreviation spends := (Prelude.spends (both_ok (K := closure) (F := F) rest_ok) grown (weight closure_weight rest_weight)).
Hypothesis run_spends : ∀ f cd, spends (run f cd) (λ _, Z.of_nat (closure_weight f)).

Lemma on_cache_spends {A} (m : prog (Cache closure F) A) b :
  Prelude.spends below old (heap_weight closure_weight) m b → spends (on_cache run m) b.
Proof. exact (lift_spends closure_weight run rest_ok rest_weight m b). Qed.

Lemma free_all_free ls : Prelude.spends below old (heap_weight closure_weight) (free_all (F := F) ls) (λ _, 0%Z).
Proof. induction ls as [|l ls IH]; simpl; spend. Qed.

Lemma on_web_gives {A} (m : prog world A) (w w' : server) a (b : Z) :
  both_ok rest_ok w → on_web m w = Ok (a, w') →
  (∀ x, m (web w.2) = Ok (a, x) → web_ok x ∧ (web_weight x ≤ web_weight (web w.2) + b)%Z) →
  both_ok rest_ok w' ∧ grown w w' ∧ (weight closure_weight rest_weight w' ≤ weight closure_weight rest_weight w + b)%Z.
Proof.
  destruct w as [c r]. intros [Hc [Hr Hio]] Hx Hm. unfold on_web in Hx. simpl in *.
  destruct (m (web r)) as [[a1 x]|] eqn:Ex; [|done].
  destruct (free_all (garbage x) c) as [[[] c1]|] eqn:Ec; [|done]. injection Hx as -> <-.
  destruct (Hm x eq_refl) as (H1 & H2), (free_all_free _ _ _ _ Hc Ec) as (H3 & H4 & H5).
  split; [by split|]. split; [done|]. unfold weight, rest_weight, web_weight in *. simpl in *. lia.
Qed.

Lemma on_web_spends {A} (m : prog world A) b : web_spends m b → spends (on_web (F := F) m) b.
Proof. intros Hm w a w' Hw Hx. apply (on_web_gives _ _ _ _ _ Hw Hx). intros x Ex. destruct (Hm _ _ _ (proj1 (proj2 Hw)) Ex) as (? & _ & ?). done. Qed.

#[local] Hint Resolve load_pkg_spends on_net_spends load_conn_of_spends : spends.
#[local] Hint Extern 3 (Prelude.spends _ _ _ (on_cache _ _) _) => (apply on_cache_spends; solve [auto with spends]) : spends.

Lemma load_free pk : spends (load pk) (λ _, 0%Z).
Proof. apply on_web_spends. auto with spends. Qed.
Lemma conn_of_free pk : spends (conn_of pk) (λ _, 0%Z).
Proof. apply on_web_spends. auto with spends. Qed.
Lemma set_cst_free pk s : spends (set_cst pk s) (λ _, 0%Z).
Proof. apply on_web_spends. spend. Qed.
Lemma sys_free f : spends (sys f) (λ _, 0%Z).
Proof. apply on_web_spends. auto with spends. Qed.
Lemma final_spends pk : spends (final pk) (λ _, 1%Z).
Proof. apply on_web_spends, svr_http_final_spends. Qed.
Lemma update_free pk f : lighter pk f → spends (update pk f) (λ _, 0%Z).
Proof. intros Hf. by apply on_web_spends, update_pkg_spends. Qed.
Lemma update_rsp_free pk f : (∀ y, wst (f y) = wst y ∧ tr_offset (f y) = tr_offset y) → spends (update_rsp pk f) (λ _, 0%Z).
Proof. intros Hf. apply update_free, lighter_same. intros k. simpl. destruct (Hf (rsp k)) as [-> ->]. done. Qed.
Lemma status_free pk s t : t ≠ WS_UNO → spends (status pk s t) (λ _, 0%Z).
Proof. intros Ht. apply update_free. intros k. split; [done|]. rewrite pkg_weight_fetched; [lia|done]. Qed.

Lemma start_spends o : spends (start o) (λ _, Z.of_nat (io_weight o)).
Proof.
  intros [c r] a w' [Hc [Hr Hio]] [= _ <-]. simpl. split; [split; [done|split; [done|]]|split; [by split; [simpl; lia|]|]].
  - simpl in *. intros id [y [[<- _]|[_ Hy]]%lookup_insert_Some]; [lia|]. assert (id < io_next r)%positive; [|lia]. apply Hio. by exists y.
  - unfold weight, rest_weight. simpl in *. rewrite map_weight_insert; [lia|].
    destruct (ios r !! io_next r) as [y|] eqn:E; [|done]. specialize (Hio (io_next r) ltac:(by rewrite E)). lia.
Qed.

#[local] Hint Resolve load_free conn_of_free set_cst_free sys_free : spends.
#[local] Hint Extern 4 (Prelude.spends _ _ _ (update_rsp _ _) _) => (apply update_rsp_free; intros ?; done) : spends.
#[local] Hint Extern 4 (Prelude.spends _ _ _ (status _ _ _) _) => (apply status_free; done) : spends.
#[local] Hint Extern 4 (Prelude.spends _ _ _ (update _ (with_hst _)) _) => (apply update_free, lighter_same; intros ?; done) : spends.

Lemma cache_put_free key b n : spends (cache_put run key b n) (λ _, 0%Z).
Proof. intros w. apply (put_free closure_weight run rest_ok rest_weight run_spends). Qed.
Lemma cache_cancel_free key : spends (cache_cancel run key) (λ _, 0%Z).
Proof. intros w. apply (cancelReservation_free closure_weight run rest_ok rest_weight run_spends). Qed.
Lemma cache_doneWith_free key : spends (cache_doneWith run key) (λ _, 0%Z).
Proof. intros w. apply on_cache_spends. auto with spends. Qed.
#[local] Hint Resolve cache_put_free cache_cancel_free cache_doneWith_free : spends.

#[local] Hint Extern 5 (Prelude.spends _ _ _ (final _) _) =>
  (eapply spends_le; [|apply final_spends]; intros; unfold header_weight, block_weight_of; simpl; lia) : spends.
#[local] Hint Extern 5 (Prelude.spends _ _ _ (start _) _) =>
  (eapply spends_le; [|apply start_spends]; intros; unfold io_weight, header_weight, block_weight_of; simpl; lia) : spends.

Lemma final_aio_spends pk : spends (svr_http_final_aio run pk) (λ _, 1%Z).
Proof. unfold svr_http_final_aio. spend. Qed.
#[local] Hint Extern 5 (Prelude.spends _ _ _ (svr_http_final_aio _ _) _) =>
  (eapply spends_le; [|apply final_aio_spends]; intros; unfold header_weight, block_weight_of; simpl; lia) : spends.

#[local] Hint Extern 7 (Prelude.spends (λ w, both_ok _ w ∧ grown _ w) _ _ _ _) =>
  (apply spends_from; [tc_solve|solve [auto with spends]]) : spends.

(** ** The callbacks of the cache *)

Lemma header_wio_spends pk cd : spends (svr_http_header_wio run pk cd) (λ _, Z.of_nat (closure_weight (HeaderWio pk))).
Proof. unfold svr_http_header_wio, closure_weight. spend. Qed.

Lemma body_wio_spends pk cd : spends (svr_http_body_wio run pk cd) (λ _, Z.of_nat (closure_weight (BodyWio pk))).
Proof. unfold svr_http_body_wio, closure_weight. spend. Qed.

(** ** The handlers *)

(** Asking the cache: either the callback is kept or run, or it is given back,
    which pays for a second one. *)
Lemma ask_spends w0 cb f key (miss : prog server unit) b :
  below w0.1 → heap w0.1 !! cb = Some (BCallback f) → (Z.of_nat (closure_weight f) ≤ b)%Z → spends miss (λ _, b) →
  Prelude.spends (λ w, both_ok rest_ok w ∧ grown w0 w) grown (weight closure_weight rest_weight)
    (let! hit := get (HC := server_client run) key (Some cb) in if hit then pret tt else miss)
    (λ _, b - Z.of_nat (closure_weight f))%Z.
Proof.
  intros Hw0 Hcb Hb Hmiss. eapply spends_bind; [tc_solve|by eapply get_spends|]. intros [|].
  - apply spends_ret; [tc_solve|]. simpl. lia.
  - apply spends_from; [tc_solve|]. eapply spends_le; [|exact Hmiss]. simpl. lia.
Qed.

(** The second callback stays. *)
Lemma ask_again_spends {A} f key (next : prog server A) b :
  spends next (λ _, b) →
  spends (let! cb := on_cache run (alloc (BCallback f)) in
          let! iscac := get (HC := server_client run) key (Some cb) in passert iscac ;;; next)
    (λ _, Z.of_nat (closure_weight f) + b)%Z.
Proof.
  intros Hnext. apply alloc_callback. intros w0 cb Hw0 Hcb.
  eapply spends_bind; [tc_solve|by eapply get_spends|]. intros hit.
  eapply spends_bind; [tc_solve|apply spends_from; [tc_solve|apply spends_assert; tc_solve]|]. intros ?.
  apply spends_from; [tc_solve|]. eapply spends_le; [|exact Hnext]. intros ?. simpl. destruct hit; lia.
Qed.

(** From the allocation of the first callback on. *)
Ltac ask b := eapply spends_le; [|eapply (ask_spends _ _ _ _ _ b); [done|done| |]];
  [done|unfold closure_weight, header_weight, block_weight_of; lia|].

Lemma body_spends pk : spends (svr_http_body run pk) (λ _, Z.of_nat (3 * left_of pk + 4)).
Proof.
  unfold svr_http_body. spend. apply alloc_callback. intros w0 cb Hw0 Hcb.
  ask (Z.of_nat (3 * left_of pk + 4)). spend.
  eapply spends_le; [|apply (ask_again_spends _ _ _ 2)]; [intros ?; unfold closure_weight, block_weight_of; lia|]. spend.
Qed.

Lemma header_to_body_spends pk : spends (svr_http_header_to_body_aio run pk) (λ _, Z.of_nat (3 * left_of pk + 4)).
Proof. pose proof body_spends as Hb. unfold svr_http_header_to_body_aio. spend. Qed.

Lemma body_pio_free pk buf n : spends (svr_http_body_pio run pk buf n) (λ _, 0%Z).
Proof. unfold svr_http_body_pio. spend. Qed.

Lemma put_header_free pk s : spends (put_header run pk s) (λ _, 0%Z).
Proof. unfold put_header. spend. Qed.
#[local] Hint Resolve put_header_free : spends.

(** The header of a file whose sending has not begun. *)
Lemma header_rio_free pk : (offset_of pk ≤ 0)%Z → spends (svr_http_header_rio run pk) (λ _, 0%Z).
Proof.
  intros Ho. assert (spends (update_rsp pk (λ y, with_tr_offset 0 (with_hsn N_200 y))) (λ _, 0%Z)) as H0.
  { apply update_free. intros k. split; [intros [Hu _]; by split|]. by rewrite (pkg_weight_same k (with_rsp _ k)). }
  unfold svr_http_header_rio. spend.
Qed.

Lemma header_spends pk : (offset_of pk ≤ 0)%Z → spends (svr_http_header run pk) (λ _, Z.of_nat (header_weight (left_of pk))).
Proof.
  intros Ho. pose proof (header_rio_free pk Ho) as Hr. unfold svr_http_header. spend.
  apply alloc_callback. intros w0 cb Hw0 Hcb. spend.
  ask (Z.of_nat (header_weight (left_of pk))). spend. eapply spends_le; [|apply (ask_again_spends _ _ _ 0)]; [intros ?; simpl; lia|]. spend.
Qed.

Lemma write_400_spends pk : spends (svr_http_write_400 run pk) (λ _, Z.of_nat (header_weight (left_of pk))).
Proof. unfold svr_http_write_400. spend. Qed.

(** ** What a handler takes from the potential of the state *)

Lemma conn_of_pkgs pk (w w' : server) c : conn_of pk w = Ok (c, w') → pkgs (web w'.2) = pkgs (web w.2).
Proof.
  destruct w as [d r]. unfold conn_of, on_web, load_conn_of, pbind, load_pkg, on_net. simpl. intros Hx.
  repeat case_match; try done. simplify_eq. done.
Qed.

Lemma final_gives pk k (w w' : server) :
  both_ok rest_ok w → pkgs (web w.2) !! pk = Some k → final pk w = Ok (tt, w') →
  both_ok rest_ok w' ∧ (weight closure_weight rest_weight w' ≤ weight closure_weight rest_weight w +
    (match ppg k with Some _ => 1 | None => 0 end) - Z.of_nat (pkg_weight k))%Z.
Proof.
  intros Hw Hk Hx. destruct (on_web_gives (svr_http_final pk) w w' tt
    ((match ppg k with Some _ => 1 | None => 0 end) - Z.of_nat (pkg_weight k))%Z Hw Hx) as (? & _ & ?).
  - intros x Ex. destruct (svr_http_final_gives pk k (web w.2) tt x (proj1 (proj2 Hw)) Hk Ex) as [? ?]. split; [done|lia].
  - split; [done|lia].
Qed.

Lemma update_gives pk k f (w w' : server) :
  both_ok rest_ok w → pkgs (web w.2) !! pk = Some k → follows pk (f k) → update pk f w = Ok (tt, w') →
  both_ok rest_ok w' ∧ pkgs (web w'.2) !! pk = Some (f k) ∧
  (weight closure_weight rest_weight w' ≤ weight closure_weight rest_weight w +
    Z.of_nat (pkg_weight (f k)) - Z.of_nat (pkg_weight k))%Z.
Proof.
  intros Hw Hk Hf Hx. destruct (on_web_gives (update_pkg pk f) w w' tt
    (Z.of_nat (pkg_weight (f k)) - Z.of_nat (pkg_weight k))%Z Hw Hx) as (? & _ & ?).
  - intros x. unfold update_pkg. rewrite Hk. intros [= <-]. split.
    + intros pk2 k2. simpl. intros [[<- <-]|[_ Hk2]]%lookup_insert_Some; [done|by apply Hw].
    + unfold web_weight. simpl. pose proof (map_weight_move pkg_weight _ _ _ (f k) Hk). lia.
  - split; [done|]. split; [|lia]. destruct w as [c r]. unfold update, on_web, update_pkg in Hx. simpl in *.
    rewrite Hk in Hx. simpl in Hx. destruct (free_all _ _) as [[[] c1]|]; [|done]. injection Hx as <-. simpl. apply lookup_insert_eq.
Qed.

(** The fetch of a request is paid by its weight. *)
Lemma fetch_gives pk k (w w' : server) :
  both_ok rest_ok w → pkgs (web w.2) !! pk = Some k → unfetched k → (offset_of pk ≤ 0)%Z →
  left_of pk ≤ length_of (uri k) → svr_http_fetch run pk w = Ok (tt, w') →
  both_ok rest_ok w' ∧ (weight closure_weight rest_weight w' ≤ weight closure_weight rest_weight w)%Z.
Proof.
  intros Hw Hk Hu Ho Hlen Hx. assert (pkg_weight k = header_weight (length_of (uri k))) as Hpw by (unfold pkg_weight; by rewrite decide_True).
  unfold header_weight in Hpw.
  unfold svr_http_fetch in Hx. apply pbind_inv in Hx as (c & w1 & H1 & Hx).
  destruct (conn_of_free _ _ _ _ Hw H1) as (Hw1 & _ & L1). rewrite <-(conn_of_pkgs _ _ _ _ H1) in Hk.
  case_decide.
  - destruct (final_gives _ _ _ _ Hw1 Hk Hx) as [? L2]. split; [done|]. destruct (ppg k); lia.
  - apply pbind_inv in Hx as ([] & w2 & H2 & Hx).
    destruct (update_gives pk k (λ k, with_hst HS_FETCHING (with_rsp (with_wst WS_HEAD (rsp k)) k)) w1 w2 Hw1 Hk)
      as (Hw2 & _ & L2); [exact (proj1 (proj2 Hw1) pk k Hk)|exact H2|].
    rewrite pkg_weight_fetched in L2 by done.
    match type of Hx with ?m _ = _ => assert (spends m (λ _, Z.of_nat (header_weight (left_of pk)))) as Hm end.
    { pose proof (header_spends pk Ho). pose proof (write_400_spends pk). spend. }
    destruct (Hm _ _ _ Hw2 Hx) as (? & _ & L3). split; [done|]. unfold header_weight in *. lia.
Qed.

(** Reading, and filling a buffer, change blocks of bytes. *)
Abbreviation loose := (Prelude.spends (both_ok (K := closure) (F := F) rest_ok) anyhow (weight closure_weight rest_weight)).
#[local] Hint Extern 8 (Prelude.spends _ anyhow _ _ _) => (eapply spends_anyhow; solve [auto with spends]) : spends.

Lemma write_block_free b t : loose (on_cache run (write_block b t)) (λ _, 0%Z).
Proof.
  intros [c r] a w' [Hc Hr]. unfold on_cache, lift, write_block, pbind, load_block. simpl.
  destruct (heap c !! b) as [y|] eqn:Hb; [|done]. intros [= _ <-]. split; [|split; [done|]].
  - split; [|done]. intros l. simpl. intros [z [[<- _]|[_ Hz]]%lookup_insert_Some]; apply Hc; by eexists.
  - unfold weight, heap_weight. simpl. pose proof (map_weight_move (block_weight closure_weight) _ _ _ (BData t) Hb). simpl in *. lia.
Qed.
#[local] Hint Resolve write_block_free : spends.

Lemma load_pkgs pk k (w w' : server) :
  load pk w = Ok (k, w') → pkgs (web w'.2) = pkgs (web w.2) ∧ pkgs (web w.2) !! pk = Some k.
Proof.
  destruct w as [c r]. unfold load, on_web, load_pkg. simpl. intros Hx.
  destruct (pkgs (web r) !! pk) as [k1|] eqn:Hk; [|done]. destruct (free_all _ _) as [[[] c1]|]; [|done].
  by injection Hx as <- <-.
Qed.

Lemma read_gives pk k (w w' : server) :
  both_ok rest_ok w → pkgs (web w.2) !! pk = Some k → ppg k = None → svr_http_read run pk w = Ok (tt, w') →
  both_ok rest_ok w' ∧ (weight closure_weight rest_weight w' ≤ weight closure_weight rest_weight w)%Z.
Proof.
  intros Hw Hk Hp Hx. unfold svr_http_read in Hx. apply pbind_inv in Hx as (k1 & w1 & H1 & Hx).
  destruct (load_free _ _ _ _ Hw H1) as (Hw1 & _ & L1). destruct (load_pkgs _ _ _ _ H1) as [E1 _].
  apply pbind_inv in Hx as (c & w2 & H2 & Hx).
  destruct (conn_of_free _ _ _ _ Hw1 H2) as (Hw2 & _ & L2). rewrite <-E1, <-(conn_of_pkgs _ _ _ _ H2) in Hk.
  case_decide.
  - destruct (final_gives _ _ _ _ Hw2 Hk Hx) as [? L3]. rewrite Hp in L3. split; [done|lia].
  - match type of Hx with ?m _ = _ => assert (loose m (λ _, 0%Z)) as Hm by spend end.
    destruct (Hm _ _ _ Hw2 Hx) as (? & _ & L3). split; [done|lia].
Qed.

End handlers.

Lemma run_closure_spends depth f cd :
  Prelude.spends (both_ok (K := closure) (F := F) rest_ok) grown (weight closure_weight rest_weight)
    (run_closure depth f cd) (λ _, Z.of_nat (closure_weight f)).
Proof.
  revert f cd. induction depth as [|depth IH]; intros [pk|pk] cd; [apply spends_fail..| |].
  - by apply header_wio_spends.
  - by apply body_wio_spends.
Qed.

Lemma fill_free buf data :
  Prelude.spends (both_ok (K := closure) (F := F) rest_ok) anyhow (weight closure_weight rest_weight)
    (fill buf data) (λ _, 0%Z).
Proof.
  unfold fill. apply spends_then; [tc_solve|apply spends_nonnull; tc_solve|]. intros b. apply write_block_free.
Qed.

End cost.

(** ** The part of a file that is left *)

Section left.
Context {OSt F : Type} `{HO : OS OSt} `{HF : FIFO F loc} `{HP : Platform}.
Abbreviation server := (server OSt F).
Implicit Types (k : HPKG) (pk : loc) (w : server).
Variable file_length : text → nat.

Abbreviation ok nm off := (both_ok (K := closure) (F := F) (rest_ok (OSt := OSt) nm off)).
Abbreviation wt nm off :=
  (weight (F := F) (closure_weight file_length nm off) (rest_weight (OSt := OSt) file_length nm off)).
Abbreviation left_of := (left_of file_length).

Lemma weight_mono nm nm' off off' w :
  (∀ pk, left_of nm' off' pk ≤ left_of nm off pk) → (wt nm' off' w ≤ wt nm off w)%Z.
Proof.
  intros Hl. unfold weight, rest_weight, heap_weight.
  assert (map_weight (block_weight (closure_weight file_length nm' off')) (heap w.1) ≤
          map_weight (block_weight (closure_weight file_length nm off)) (heap w.1)).
  { apply map_weight_mono. intros [| |[pk|pk]]; simpl; [done..| |]; unfold header_weight, block_weight_of; specialize (Hl pk); lia. }
  assert (map_weight (io_weight file_length nm' off') (ios w.2) ≤ map_weight (io_weight file_length nm off) (ios w.2)).
  { apply map_weight_mono. intros x. unfold io_weight, header_weight, block_weight_of. specialize (Hl (io_pk x)). destruct (io_ok x); lia. }
  lia.
Qed.

(** The potential of a state, by the names and the offsets of its packages. *)
Definition name_at w pk : option text := pkgs (web w.2) !! pk ≫= uri.
Definition offset_at w pk : Z := default 0%Z ((λ k, tr_offset (rsp k)) <$> pkgs (web w.2) !! pk).
Definition potential w : Z := wt (name_at w) (offset_at w) w.

Lemma potential_le nm off w : ok nm off w → (potential w ≤ wt nm off w)%Z.
Proof.
  intros [_ [Hr _]]. apply weight_mono. intros pk. unfold HttpCost.left_of, length_of, name_at, offset_at.
  destruct (pkgs (web w.2) !! pk) as [k|] eqn:Hk; simpl; [|lia]. destruct (Hr pk k Hk) as [-> ?]. lia.
Qed.

Lemma potential_nonneg w : (0 ≤ potential w)%Z.
Proof. unfold potential, weight, heap_weight, rest_weight, web_weight. lia. Qed.

(** The end of the write of a block: fewer bytes are left. *)
Lemma body_rio_gives nm off pk k (n : Z) w w' :
  ok nm off w → pkgs (web w.2) !! pk = Some k →
  ((0 < n)%Z → wst (rsp k) = WS_BODY → (off pk + n ≤ Z.of_nat (length_of file_length (nm pk)))%Z) →
  svr_http_body_rio call_closure pk n w = Ok (tt, w') →
  ∃ off', ok nm off' w' ∧ (wt nm off' w' ≤ wt nm off w + Z.of_nat (3 * left_of nm off pk + 1))%Z.
Proof.
  intros Hw Hk Hn Hx. pose proof (run_closure_spends file_length nm off 2) as Hrun. unfold svr_http_body_rio in Hx.
  apply pbind_inv in Hx as (k1 & w1 & H1 & Hx).
  destruct (load_free file_length nm off pk _ _ _ Hw H1) as (Hw1 & _ & L1). destruct (load_pkgs _ _ _ _ H1) as [E1 Hk1].
  rewrite Hk in Hk1. injection Hk1 as <-. rewrite <-E1 in Hk. clear H1.
  case_decide as Hwst.
  2:{ exists off. destruct (final_spends file_length nm off pk _ _ _ Hw1 Hx) as (? & _ & ?). split; [done|]. lia. }
  apply pbind_inv in Hx as ([] & w2 & H2 & Hx).
  assert (ok nm off w2 ∧ (wt nm off w2 ≤ wt nm off w1)%Z ∧ w2.2 = w1.2) as (Hw2 & L2 & E2).
  { destruct (bodykey (rsp k)) as [key|]; [|by injection H2 as <-].
    destruct (cache_doneWith_free file_length nm off call_closure key _ _ _ Hw1 H2) as (? & _ & ?).
    split; [done|]. split; [lia|]. destruct w1 as [c r]. unfold cache_doneWith, on_cache, lift in H2. simpl in H2.
    destruct (doneWith _ _ c) as [[? ?]|]; [|done]. by injection H2 as _ <-. }
  rewrite <-E2 in Hk. case_decide as Hpos.
  - specialize (Hn Hpos Hwst). apply pbind_inv in Hx as ([] & w3 & H3 & Hx).
    set (f := λ k, with_rsp (with_tr_offset (tr_offset (rsp k) + n) (rsp k)) k).
    assert (follows nm off pk k) as [Hu Ho] by exact (proj1 (proj2 Hw2) pk k Hk).
    destruct (update_gives file_length nm off pk k f w2 w3 Hw2 Hk) as (Hw3 & Hk3 & L3); [split; [exact Hu|simpl; lia]|exact H3|].
    rewrite (pkg_weight_same file_length k (f k)) in L3 by done.
    set (off' := λ p, if decide (p = pk) then (off pk + n)%Z else off p).
    assert (ok nm off' w3) as Hw3'.
    { destruct Hw3 as [Hb [Hr Hio]]. split; [done|]. split; [|done]. intros p k2 Hk2. destruct (Hr p k2 Hk2) as [? ?].
      split; [done|]. unfold off'. case_decide as Ep; [|done]. subst p. rewrite Hk3 in Hk2. injection Hk2 as <-. simpl. lia. }
    assert (wt nm off' w3 ≤ wt nm off w3)%Z as L4.
    { apply weight_mono. intros p. unfold HttpCost.left_of, off'. case_decide as Ep; [subst p|]; lia. }
    destruct (body_spends file_length nm off' call_closure (run_closure_spends file_length nm off' 2) pk _ _ _ Hw3' Hx) as (? & _ & L5).
    assert (off' pk = off pk + n)%Z as Eo by (unfold off'; by rewrite decide_True).
    exists off'. split; [done|]. unfold HttpCost.left_of in *. rewrite Eo in L5. lia.
  - apply pbind_inv in Hx as ([] & w3 & H3 & Hx). exists off.
    destruct (update_gives file_length nm off pk k (λ k, with_rsp (with_wst WS_UNO (rsp k)) k) w2 w3 Hw2 Hk) as (Hw3 & Hk3 & L3);
      [exact (proj1 (proj2 Hw2) pk k Hk)|exact H3|].
    destruct (final_gives file_length nm off pk _ w3 w' Hw3 Hk3 Hx) as [? L4]. split; [done|]. simpl in *. destruct (ppg k); lia.
Qed.

End left.
End HttpCost.
