(* ===== verification/HttpKeeps.v ===== *)
(** What the handlers keep of the packages.

    [ok] is any property of packages that depends only on the name and on the
    offset; [pkgs_ok] says that all live packages have it.  Every handler keeps
    it, but for those that set the offset.  The proofs follow the structure of
    the handlers ([keep]). *)
From S2P Require Import Prelude FastFIFO Cache CacheRun Connection HttpParse HttpHandlers.

Module HttpKeeps.
Import Connection HttpParse Cache CacheRun HttpHandlers.

Section packages.
Context {OSt F : Type} `{HO : OS OSt} `{HF : FIFO F loc} `{HP : Platform}.
Abbreviation world := (world (OSt := OSt)).
Abbreviation server := (server OSt F).
Implicit Types (k : HPKG) (pk : loc).

(** Packages from [lo] on are new. *)
Variable ok : loc → HPKG → Prop.
Variable lo : loc.
Definition same_body k k' : Prop := uri k' = uri k ∧ tr_offset (rsp k') = tr_offset (rsp k).
Hypothesis ok_same : ∀ pk k k', same_body k k' → ok pk k → ok pk k'.
Hypothesis ok_new : ∀ pk k, (lo ≤ pk)%positive → tr_offset (rsp k) = 0%Z → ok pk k.
Hypothesis ok_offset : ∀ pk k, (lo ≤ pk)%positive → ok pk k → tr_offset (rsp k) = 0%Z.

Definition pkgs_ok (x : world) : Prop := (lo ≤ next x)%positive ∧ ∀ pk k, pkgs x !! pk = Some k → ok pk k.

(** ** Packages and connections *)

Lemma set_net_kept A (m : prog (net OSt) A) : keeps pkgs_ok (on_net m).
Proof. intros x a x' Hx. unfold on_net. destruct (m (wnet x)) as [[b n]|]; [|done]. by intros [= _ <-]. Qed.

Lemma load_pkg_kept pk : keeps pkgs_ok (load_pkg pk : prog world HPKG).
Proof. intros x a x' Hx. unfold load_pkg. destruct (pkgs x !! pk); [|done]. by intros [= _ <-]. Qed.

Lemma update_pkg_live_ok pk f : (∀ k, ok pk k → ok pk (f k)) → keeps pkgs_ok (update_pkg pk f : prog world unit).
Proof.
  intros Hf x a x' [Hlo Hx]. unfold update_pkg. destruct (pkgs x !! pk) as [k|] eqn:Hk; [|done]. intros [= _ <-].
  split; [done|]. simpl. intros pk2 k2 [[<- <-]|[_ Hk2]]%lookup_insert_Some; [by apply Hf, Hx|by apply Hx].
Qed.

Lemma update_pkg_kept pk f : (∀ k, same_body k (f k)) → keeps pkgs_ok (update_pkg pk f : prog world unit).
Proof. intros Hf. apply update_pkg_live_ok. intros k. by apply ok_same. Qed.

(** A new package may get any name. *)
Lemma update_new_kept pk f :
  (lo ≤ pk)%positive → (∀ k, tr_offset (rsp (f k)) = tr_offset (rsp k)) → keeps pkgs_ok (update_pkg pk f : prog world unit).
Proof. intros Hlo Hf. apply update_pkg_live_ok. intros k Hk. apply ok_new; [done|]. rewrite Hf. by eapply ok_offset. Qed.

Lemma delete_pkg_kept pk : keeps pkgs_ok (delete_pkg pk : prog world unit).
Proof.
  intros x a x' [Hlo Hx]. unfold delete_pkg. destruct (pkgs x !! pk) as [k|]; [|done]. intros [= _ <-].
  split; [done|]. simpl. intros pk2 k2 [_ Hk2]%lookup_delete_Some. by apply Hx.
Qed.

Lemma enqueue_kept t : keeps pkgs_ok (enqueue t : prog world unit).
Proof. by apply keeps_modify. Qed.

Lemma lift_kept {A} (o : outcome A) : keeps pkgs_ok (HttpParse.lift o : prog world A).
Proof. intros x a x' Hx. unfold HttpParse.lift. destruct o; [|done]. by intros [= _ <-]. Qed.

#[local] Hint Resolve set_net_kept load_pkg_kept delete_pkg_kept enqueue_kept lift_kept : keeps.
#[local] Hint Extern 5 (keeps pkgs_ok (update_pkg _ _)) => (apply update_pkg_kept; intros ?; done) : keeps.

Lemma load_conn_of_kept pk : keeps pkgs_ok (load_conn_of pk : prog world Conn).
Proof. unfold load_conn_of. keep. Qed.
#[local] Hint Resolve load_conn_of_kept : keeps.

Lemma new_pkg_kept cn : keeps pkgs_ok (new_pkg cn : prog world loc).
Proof.
  intros x a x' [Hlo Hx] [= _ <-]. split; simpl; [lia|]. intros pk k [[<- <-]|[_ Hk]]%lookup_insert_Some; [by apply ok_new|by apply Hx].
Qed.

Lemma svr_http_final_kept pk : keeps pkgs_ok (svr_http_final pk : prog world unit).
Proof. unfold svr_http_final. keep. Qed.
#[local] Hint Resolve svr_http_final_kept new_pkg_kept : keeps.

Lemma parse_uri_kept b gk ph pt : (lo ≤ gk)%positive → keeps pkgs_ok (parse_uri b gk ph pt : prog world nat).
Proof. intros Hlo. unfold parse_uri. keep; by apply update_new_kept. Qed.

Lemma parse_get_kept b pk fget ph pt : keeps pkgs_ok (parse_get b pk fget ph pt : prog world _).
Proof.
  unfold parse_get. apply keeps_bind; [auto with keeps|]. intros k.
  apply (keeps_bind_result _ (λ gk, lo ≤ gk)%positive).
  { intros x a x' Hx Hm. split; [by eapply new_pkg_kept|]. injection Hm as <- _. apply Hx. }
  intros gk Hgk. apply keeps_bind; [auto with keeps|]. intros _. apply keeps_bind; [by apply parse_uri_kept|].
  intros ph2. unfold link_child. keep.
Qed.
#[local] Hint Resolve parse_get_kept : keeps.

Lemma parse_loop_kept fuel b pk pe fget ph : keeps pkgs_ok (parse_loop fuel b pk pe fget ph : prog world _).
Proof. revert fget ph. induction fuel as [|fuel IH]; intros fget ph; simpl; unfold parse_line; keep. Qed.
#[local] Hint Resolve parse_loop_kept : keeps.

Lemma svr_http_parse_kept b n pk : keeps pkgs_ok (svr_http_parse b n pk : prog world unit).
Proof. unfold svr_http_parse. keep. Qed.

(** ** The handlers *)

Abbreviation kept := (keeps (λ w : server, pkgs_ok (web w.2))).

Lemma on_web_kept {A} (m : prog world A) : keeps pkgs_ok m → kept (on_web (F := F) m).
Proof.
  intros Hm [c r] a w' Hr. unfold on_web. simpl. destruct (m (web r)) as [[b x]|] eqn:Ex; [|done].
  destruct (free_all (garbage x) c) as [[? c']|]; [|done]. intros [= _ <-]. by eapply Hm in Ex.
Qed.

Lemma load_kept pk : kept (load (F := F) pk).
Proof. apply on_web_kept. auto with keeps. Qed.
Lemma conn_of_kept pk : kept (conn_of (F := F) pk).
Proof. apply on_web_kept. auto with keeps. Qed.
Lemma set_cst_kept pk s : kept (set_cst (F := F) pk s).
Proof. apply on_web_kept. keep. Qed.
Lemma sys_kept f : kept (sys (F := F) f).
Proof. apply on_web_kept. auto with keeps. Qed.
Lemma final_kept pk : kept (final (F := F) pk).
Proof. apply on_web_kept. auto with keeps. Qed.
Lemma parse_kept b n pk : kept (on_web (F := F) (svr_http_parse b n pk)).
Proof. apply on_web_kept, svr_http_parse_kept. Qed.

Lemma update_live_ok pk f : (∀ k, ok pk k → ok pk (f k)) → kept (update (F := F) pk f).
Proof. intros Hf. by apply on_web_kept, update_pkg_live_ok. Qed.
Lemma update_kept pk f : (∀ k, same_body k (f k)) → kept (update (F := F) pk f).
Proof. intros Hf. by apply on_web_kept, update_pkg_kept. Qed.
Lemma update_rsp_kept pk f : (∀ r, tr_offset (f r) = tr_offset r) → kept (update_rsp (F := F) pk f).
Proof. intros Hf. apply update_kept. intros k. split; [done|apply Hf]. Qed.
Lemma status_kept pk s t : kept (status (F := F) pk s t).
Proof. by apply update_kept. Qed.

Lemma start_kept o : kept (start (F := F) o).
Proof. by apply keeps_modify. Qed.

#[local] Hint Resolve load_kept conn_of_kept set_cst_kept sys_kept final_kept parse_kept status_kept start_kept : keeps.
#[local] Hint Extern 5 (keeps _ (update _ _)) => (apply update_kept; intros ?; done) : keeps.
#[local] Hint Extern 5 (keeps _ (update_rsp _ _)) => (apply update_rsp_kept; intros ?; done) : keeps.

Section handlers.
Variable run : closure → CacheData → prog server unit.

Lemma on_cache_kept {A} (m : prog (Cache closure F) A) : kept (on_cache run m).
Proof. exact (keeps_lift run (λ r, pkgs_ok (web r)) m). Qed.
#[local] Hint Resolve on_cache_kept : keeps.

Hypothesis run_kept : ∀ f cd, kept (run f cd).

Lemma cache_put_kept key b n : kept (cache_put run key b n).
Proof. intros w a w' Hw Hm. eapply (put_kept run (λ r, pkgs_ok (web r))); [exact run_kept|exact Hw|exact Hm]. Qed.
Lemma cache_cancel_kept key : kept (cache_cancel run key).
Proof. intros w a w' Hw Hm. eapply (cancelReservation_kept run (λ r, pkgs_ok (web r))); [exact run_kept|exact Hw|exact Hm]. Qed.
Lemma cache_doneWith_kept key : kept (cache_doneWith run key).
Proof. intros w a w' Hw Hm. eapply on_cache_kept; [exact Hw|exact Hm]. Qed.
Lemma cache_get_kept key cb : kept (get (HC := running run) key cb).
Proof. exact (get_kept run (λ r, pkgs_ok (web r)) run_kept key cb). Qed.
#[local] Hint Resolve cache_put_kept cache_cancel_kept cache_doneWith_kept cache_get_kept : keeps.

Lemma read_kept pk : kept (svr_http_read run pk).
Proof. unfold svr_http_read. keep. Qed.

Lemma final_aio_kept pk : kept (svr_http_final_aio run pk).
Proof. unfold svr_http_final_aio. keep. Qed.
#[local] Hint Resolve read_kept final_aio_kept : keeps.

Lemma parse_aio_kept pk b data : kept (svr_http_parse_aio run pk b data).
Proof. unfold svr_http_parse_aio. keep. Qed.

Lemma header_wio_kept pk cd : kept (svr_http_header_wio run pk cd).
Proof. unfold svr_http_header_wio. keep. Qed.

Lemma body_wio_kept pk cd : kept (svr_http_body_wio run pk cd).
Proof. unfold svr_http_body_wio. keep. Qed.

Lemma body_kept pk : kept (svr_http_body run pk).
Proof. unfold svr_http_body. keep. Qed.
#[local] Hint Resolve body_kept : keeps.

Lemma header_to_body_kept pk : kept (svr_http_header_to_body_aio run pk).
Proof. unfold svr_http_header_to_body_aio. keep. Qed.

Lemma body_pio_kept pk b n : kept (svr_http_body_pio run pk b n).
Proof. unfold svr_http_body_pio. keep. Qed.

Lemma accept_kept junk cn : kept (svr_conn_accept run junk cn).
Proof. unfold svr_conn_accept. keep; apply on_web_kept; auto with keeps. Qed.

(** The offset is set to 0. *)
Lemma fetch_kept pk : (∀ k, ok pk k → ok pk (with_rsp (with_tr_offset 0 (rsp k)) k)) → kept (svr_http_fetch run pk).
Proof.
  intros H0. assert (∀ f, (∀ x, tr_offset (f x) = 0%Z ∨ tr_offset (f x) = tr_offset x) → kept (update_rsp (F := F) pk f)) as Hu.
  { intros f Hf. apply update_live_ok. intros k Hk. destruct (Hf (rsp k)) as [E|E].
    - eapply ok_same; [|by apply H0]. split; [done|exact E].
    - eapply ok_same; [|done]. split; [done|exact E]. }
  unfold svr_http_fetch, svr_http_header, svr_http_header_rio, put_header, svr_http_write_400. keep.
Qed.

End handlers.

(** ** Tasks and operations *)

Lemma run_closure_kept depth f cd : kept (run_closure depth f cd).
Proof.
  revert f cd. induction depth as [|depth IH]; intros [pk|pk] cd; simpl; [apply keeps_fail..| |].
  - by apply header_wio_kept.
  - by apply body_wio_kept.
Qed.

Lemma run_task_kept t :
  (∀ pk k, t = Fetch pk → ok pk k → ok pk (with_rsp (with_tr_offset 0 (rsp k)) k)) → kept (run_task (F := F) t).
Proof.
  intros H0. destruct t as [pk|pk]; simpl.
  - apply fetch_kept; [apply run_closure_kept|]. intros k. by apply H0.
  - apply read_kept.
Qed.

Lemma fill_kept b data : kept (fill (F := F) b data).
Proof. unfold fill. apply keeps_bind; [apply keeps_nonnull|]. intros ?. apply on_cache_kept. Qed.

(** The end of an operation; that of a write of the body is described apart. *)
Lemma run_io_kept x res :
  (∀ data, res = Done data → io_ok x ≠ BodyRio) → kept (run_io (F := F) x res).
Proof.
  intros Hno. destruct res as [data|]; [|apply final_aio_kept, run_closure_kept].
  specialize (Hno data eq_refl). simpl. destruct (io_ok x); [| |done|].
  - apply keeps_bind; [apply fill_kept|]. intros _. apply parse_aio_kept, run_closure_kept.
  - apply header_to_body_kept, run_closure_kept.
  - apply keeps_bind; [apply fill_kept|]. intros _. apply body_pio_kept, run_closure_kept.
Qed.

End packages.
End HttpKeeps.
