(* ===== verification/HttpRun.v ===== *)
(** What the handlers of the web server do, branch by branch.

    A handler works on one package [pk]: the state is written as
    [set_pkg pk k r], the rest [r] with the package [k] at [pk], so that a
    handler is a sequence of changes of [k].  The lemmas run the handlers of
    [HttpHandlers]; the theorems state what a client sees of it. *)
From S2P Require Import Prelude FastFIFO Cache CacheProps CacheRun Connection HttpParse HttpHandlers.

Module HttpRun.
Import Connection HttpParse Cache CacheProps CacheRun HttpHandlers.

Section state.
Context {OSt : Type} `{HO : OS OSt}.
Abbreviation rest := (rest OSt).
Implicit Types (r : rest) (k : HPKG) (l : loc).

Definition conns_of r := conns (wnet (web r)).
Definition set_pkg l k r : rest := set_web (set_pkgs (<[l := k]> (pkgs (web r))) (web r)) r.
Definition set_conn l (c : Conn) r : rest :=
  set_web (set_net (set_conns (<[l := c]> (conns_of r)) (wnet (web r))) (web r)) r.
Definition set_sys (s : OSt) r : rest := set_web (set_net (set_os s (wnet (web r))) (web r)) r.
Definition sys_of r : OSt := os (wnet (web r)).
Definition add_io (o : io) r : rest := mkRest (web r) (<[io_next r := o]> (ios r)) (Pos.succ (io_next r)).
Definition del_io id r : rest := mkRest (web r) (delete id (ios r)) (io_next r).
Definition del_task i r : rest := set_web (take_task i (web r)) r.

(** Everything that was given to [free] is freed. *)
Definition tidy r : Prop := garbage (web r) = [].

Lemma set_web_id r : set_web (web r) r = r.
Proof. by destruct r. Qed.

Lemma set_pkg_id l k r : pkgs (web r) !! l = Some k → set_pkg l k r = r.
Proof.
  intros Hl. unfold set_pkg, set_pkgs. rewrite insert_id by done. by destruct r as [[] ? ?].
Qed.

Lemma set_pkg_twice l k1 k2 r : set_pkg l k2 (set_pkg l k1 r) = set_pkg l k2 r.
Proof. unfold set_pkg, set_web, set_pkgs. simpl. by rewrite insert_insert_eq. Qed.

Lemma tidy_web (x : world (OSt := OSt)) : garbage x = [] → no_garbage x = x.
Proof. destruct x. simpl. by intros ->. Qed.

End state.

Section run.
Context {OSt F : Type} `{HO : OS OSt} `{HF : FIFO F loc} `{HL : !FIFOLaws F loc} `{HP : Platform}.
Abbreviation rest := (rest OSt).
Abbreviation server := (server OSt F).
Implicit Types (r : rest) (k : HPKG) (pk : loc) (c : Cache closure F) (cn : Conn).

Lemma on_web_run {A} (m : prog world A) c r a x :
  m (web r) = Ok (a, x) → garbage x = [] → on_web m (c, r) = Ok (a, (c, set_web x r)).
Proof. intros Hm Hx. unfold on_web. simpl. by rewrite Hm, Hx, tidy_web. Qed.

Lemma on_web_bind {A B} (m : prog world A) (K : A → prog server B) c r a x :
  m (web r) = Ok (a, x) → garbage x = [] → pbind (on_web m) K (c, r) = K a (c, set_web x r).
Proof. intros Hm Hx. apply pbind_ok. by apply on_web_run. Qed.

Lemma load_bind {B} pk k r c (K : HPKG → prog server B) :
  tidy r → pbind (load pk) K (c, set_pkg pk k r) = K k (c, set_pkg pk k r).
Proof.
  intros Ht. unfold load. erewrite on_web_bind; [|apply load_pkg_ok, lookup_insert_eq|exact Ht].
  by rewrite set_web_id.
Qed.

Lemma update_bind {B} pk f k r c (K : unit → prog server B) :
  tidy r → pbind (update pk f) K (c, set_pkg pk k r) = K tt (c, set_pkg pk (f k) r).
Proof.
  intros Ht. unfold update. erewrite on_web_bind; [|apply update_pkg_ok, lookup_insert_eq|exact Ht].
  f_equal. f_equal. apply (set_pkg_twice pk k).
Qed.

Lemma update_rsp_bind {B} pk f k r c (K : unit → prog server B) :
  tidy r →
  pbind (update_rsp pk f) K (c, set_pkg pk k r) = K tt (c, set_pkg pk (with_rsp (f (rsp k)) k) r).
Proof. apply (update_bind pk (λ k, with_rsp (f (rsp k)) k)). Qed.

Lemma update_rsp_run pk f k r c :
  tidy r → update_rsp pk f (c, set_pkg pk k r) = Ok (tt, (c, set_pkg pk (with_rsp (f (rsp k)) k) r)).
Proof.
  intros Ht. unfold update_rsp, update. erewrite on_web_run; [|apply update_pkg_ok, lookup_insert_eq|exact Ht].
  f_equal. f_equal. f_equal. apply (set_pkg_twice pk k).
Qed.

Definition set_status (s : HttpST) (t : HttpWST) k : HPKG := with_hst s (with_rsp (with_wst t (rsp k)) k).

Lemma status_bind {B} pk s t k r c (K : unit → prog server B) :
  tidy r → pbind (status pk s t) K (c, set_pkg pk k r) = K tt (c, set_pkg pk (set_status s t k) r).
Proof. apply (update_bind pk (set_status s t)). Qed.

Lemma conn_bind {B} pk k r c cn (K : Conn → prog server B) :
  tidy r → conns_of r !! cpn k = Some cn →
  pbind (conn_of pk) K (c, set_pkg pk k r) = K cn (c, set_pkg pk k r).
Proof.
  intros Ht Hc. unfold conn_of.
  erewrite on_web_bind; [|eapply load_conn_of_ok; [apply lookup_insert_eq|exact Hc]|exact Ht].
  by rewrite set_web_id.
Qed.

Lemma set_cst_bind {B} pk s k r c cn (K : unit → prog server B) :
  tidy r → conns_of r !! cpn k = Some cn →
  pbind (set_cst pk s) K (c, set_pkg pk k r) =
  K tt (c, set_pkg pk k (set_conn (cpn k) (with_cst s cn) r)).
Proof.
  intros Ht Hc. unfold set_cst. erewrite on_web_bind; [done| |].
  - erewrite pbind_ok by (apply load_pkg_ok, lookup_insert_eq). unfold on_net.
    by erewrite update_conn_ok by exact Hc.
  - exact Ht.
Qed.

Lemma sys_bind {B} pk f k r c (K : Z → prog server B) :
  tidy r → pbind (sys f) K (c, set_pkg pk k r) =
    K (f (sys_of r)).1 (c, set_pkg pk k (set_sys (f (sys_of r)).2 r)).
Proof. intros Ht. unfold sys. by erewrite on_web_bind. Qed.

Lemma start_run o c r : start o (c, r) = Ok (tt, (c, add_io o r)).
Proof. done. Qed.

Variable clo : closure → CacheData → prog server unit.

Lemma on_cache_bind {A B} (m : prog (Cache closure F) A) (K : A → prog server B) c r a c' :
  m c = Ok (a, c') → pbind (on_cache clo m) K (c, r) = K a (c', r).
Proof. intros H. unfold on_cache. by apply lift_bind. Qed.

(** ** The end of a package *)

Definition free_blocks (bs : list loc) c : Cache closure F := set_heap (delete_blocks bs (heap c)) c.

Lemma free_all_run bs c :
  NoDup bs → (∀ b, b ∈ bs → is_Some (heap c !! b)) → free_all bs c = Ok (tt, free_blocks bs c).
Proof.
  unfold free_blocks. revert c. induction bs as [|b bs IH]; intros c Hnd Hb; simpl; [by destruct c|].
  apply NoDup_cons in Hnd as [Hn Hnd]. destruct (Hb b) as [x Hx]; [left|].
  erewrite pbind_ok by (eapply free_block_ok; exact Hx). rewrite IH; [done|done|].
  intros b' Hb'. simpl. rewrite lookup_delete_ne by (intros ->; done). apply Hb. by right.
Qed.

(** The rest without the package [k] at [l], and with a task more. *)
Definition del_pkg l k r : rest :=
  set_web (mkWorld (delete l (pkgs (web r))) (next (web r)) (close_hfd k (wnet (web r))) (tasks (web r)) []) r.
Definition post t r : rest :=
  set_web (mkWorld (pkgs (web r)) (next (web r)) (wnet (web r)) (tasks (web r) ++ [t]) (garbage (web r))) r.

Definition blocks_live k c : Prop := NoDup (frees k) ∧ ∀ b, b ∈ frees k → is_Some (heap c !! b).

Lemma final_web pk k r c x :
  tidy r → blocks_live k c →
  svr_http_final pk (web (set_pkg pk k r)) = Ok (tt, x) → garbage x = frees k →
  final pk (c, set_pkg pk k r) = Ok (tt, (free_blocks (frees k) c, set_web (no_garbage x) r)).
Proof.
  intros Ht [Hnd Hb] Hx Hg. unfold final, on_web. cbn [fst snd].
  rewrite Hx, Hg, free_all_run by done. done.
Qed.

Lemma svr_http_final_bind pk k r (K : unit → prog world unit) :
  tidy r → pbind (delete_pkg pk) K (web (set_pkg pk k r)) =
  K tt (mkWorld (delete pk (pkgs (web r))) (next (web r)) (close_hfd k (wnet (web r))) (tasks (web r)) (frees k)).
Proof.
  intros Ht. erewrite pbind_ok by (apply delete_pkg_ok, lookup_insert_eq). simpl.
  by rewrite delete_insert_eq, Ht.
Qed.

Lemma final_sibling pk k r c P g :
  tidy r → blocks_live k c → ppg k = Some P → nsg k = Some g →
  final pk (c, set_pkg pk k r) = Ok (tt, (free_blocks (frees k) c, post (Fetch g) (del_pkg pk k r))).
Proof.
  intros Ht Hb Hpp Hg. etransitivity; [eapply final_web; [done|done| |]|].
  - unfold svr_http_final. erewrite pbind_ok by (apply load_pkg_ok, lookup_insert_eq).
    rewrite svr_http_final_bind by done. rewrite Hpp, Hg. reflexivity.
  - done.
  - done.
Qed.

Lemma final_last pk k r c P kp :
  tidy r → blocks_live k c → ppg k = Some P → nsg k = None → P ≠ pk → pkgs (web r) !! P = Some kp →
  final pk (c, set_pkg pk k r) = Ok (tt, (free_blocks (frees k) c,
    post (Read P) (set_pkg P (with_lcg None kp) (del_pkg pk k r)))).
Proof.
  intros Ht Hb Hpp Hg Hne Hkp. etransitivity; [eapply final_web; [done|done| |]|].
  - unfold svr_http_final. erewrite pbind_ok by (apply load_pkg_ok, lookup_insert_eq).
    rewrite svr_http_final_bind by done. rewrite Hpp, Hg.
    erewrite pbind_ok by (apply update_pkg_ok; simpl; by rewrite lookup_delete_ne). reflexivity.
  - done.
  - done.
Qed.

Lemma final_parent pk k r c e m :
  tidy r → blocks_live k c → ppg k = None → svr_conn_close (cpn k) (close_hfd k (wnet (web r))) = Ok (e, m) →
  final pk (c, set_pkg pk k r) = Ok (tt, (free_blocks (frees k) c,
    let r' := del_pkg pk k r in set_web (set_net m (web r')) r')).
Proof.
  intros Ht Hb Hpp Hm. etransitivity; [eapply final_web; [done|done| |]|].
  - unfold svr_http_final. erewrite pbind_ok by (apply load_pkg_ok, lookup_insert_eq).
    rewrite svr_http_final_bind by done. rewrite Hpp. unfold on_net. simpl.
    erewrite pbind_ok by (simpl; rewrite Hm; reflexivity). reflexivity.
  - done.
  - done.
Qed.

(** ** The callbacks of the cache *)

Definition header_status (s : string) : HttpSN :=
  let st := String.substring 9 3 s in
  if String.eqb st "200" then N_200 else if String.eqb st "404" then N_404 else N_UNO.

Lemma header_wio_run pk k r c cn d n b s :
  tidy r → conns_of r !! cpn k = Some cn → ¬ closing cn →
  heap c !! d = Some (BData s) → 9 ≤ String.length s →
  svr_http_header_wio clo pk (mkCacheData (Some d) n b) (c, set_pkg pk k r) = Ok (tt, (c,
    add_io (mkIo HeaderToBodyAio pk (cfd cn) (Some d) n 0)
      (set_pkg pk (let k1 := set_status HS_WRITING WS_HEAD k in
                   with_rsp (with_hsn (header_status s) (rsp k1)) k1) r))).
Proof.
  intros Ht Hcn Hc Hd Hs. unfold svr_http_header_wio. rewrite status_bind by done.
  erewrite conn_bind by done. rewrite decide_False by done. simpl.
  erewrite pbind_ok by reflexivity. erewrite on_cache_bind by (apply load_block_ok; exact Hd).
  cbn beta iota zeta. rewrite (proj2 (Nat.ltb_ge _ _) Hs).
  rewrite update_rsp_bind by done. by rewrite start_run.
Qed.

Lemma body_wio_run pk k r c cn d n b :
  tidy r → conns_of r !! cpn k = Some cn → ¬ closing cn →
  svr_http_body_wio clo pk (mkCacheData (Some d) n b) (c, set_pkg pk k r) = Ok (tt, (c,
    add_io (mkIo BodyRio pk (cfd cn) (Some d) n 0) (set_pkg pk (set_status HS_WRITING WS_BODY k) r))).
Proof.
  intros Ht Hcn Hc. unfold svr_http_body_wio. erewrite conn_bind by done. simpl.
  rewrite decide_False by done. rewrite status_bind by done. by rewrite start_run.
Qed.

Lemma body_wio_none pk k r c cn n b :
  tidy r → conns_of r !! cpn k = Some cn →
  svr_http_body_wio clo pk (mkCacheData None n b) (c, set_pkg pk k r) = final pk (c, set_pkg pk k r).
Proof. intros Ht Hcn. unfold svr_http_body_wio. by erewrite conn_bind. Qed.

(** ** Reading *)

Definition reading_io pk cn (b : option loc) : io := mkIo ParseAio pk (cfd cn) b (Z.of_nat MAXRH - 1) 0.

(** The cache after [memset] of a buffer. *)
Definition fill_state (b : loc) (t : string) c : Cache closure F := set_heap (<[b := BData t]> (heap c)) c.

Lemma write_block_run b t c x : heap c !! b = Some x → write_block b t c = Ok (tt, fill_state b t c).
Proof. intros Hb. unfold write_block. by erewrite pbind_ok by (apply load_block_ok; exact Hb). Qed.

Lemma read_run pk k r c cn b x :
  tidy r → conns_of r !! cpn k = Some cn → cst cn ≠ CS_CLOSING → cst cn ≠ CS_CLOSING_R →
  ch_p (chead (rsp k)) = Some b → heap c !! b = Some x →
  svr_http_read clo pk (c, set_pkg pk k r) = Ok (tt, (fill_state b EmptyString c,
    add_io (reading_io pk cn (Some b)) (set_pkg pk (with_hst HS_READING k) r))).
Proof.
  intros Ht Hcn H1 H2 Hb Hx. unfold svr_http_read. rewrite load_bind by done. erewrite conn_bind by done.
  rewrite decide_False by tauto. rewrite update_bind, Hb by done. erewrite pbind_ok by reflexivity.
  rewrite load_bind by done. simpl. rewrite Hb. erewrite pbind_ok by reflexivity.
  by erewrite on_cache_bind by (eapply write_block_run; exact Hx).
Qed.

Definition with_buffer (b : loc) k : HPKG :=
  with_rsp (with_chead (with_ch_n 0 (with_ch_p (Some b) (chead (rsp k)))) (rsp k)) k.

Lemma read_run_new pk k r c cn :
  tidy r → conns_of r !! cpn k = Some cn → cst cn ≠ CS_CLOSING → cst cn ≠ CS_CLOSING_R →
  ch_p (chead (rsp k)) = None →
  svr_http_read clo pk (c, set_pkg pk k r) = Ok (tt, (alloc_state (BData EmptyString) c,
    add_io (reading_io pk cn (Some (brk c))) (set_pkg pk (with_buffer (brk c) (with_hst HS_READING k)) r))).
Proof.
  intros Ht Hcn H1 H2 Hb. unfold svr_http_read. rewrite load_bind by done. erewrite conn_bind by done.
  rewrite decide_False by tauto. rewrite update_bind, Hb, pbind_assoc by done.
  erewrite on_cache_bind by reflexivity. rewrite update_rsp_bind by done. rewrite load_bind by done.
  simpl. erewrite pbind_ok by reflexivity.
  erewrite on_cache_bind by (eapply write_block_run, lookup_insert_eq).
  unfold fill_state, set_heap, alloc_state. simpl. by rewrite insert_insert_eq.
Qed.

Lemma read_closing pk k r c cn :
  tidy r → conns_of r !! cpn k = Some cn → cst cn = CS_CLOSING ∨ cst cn = CS_CLOSING_R →
  svr_http_read clo pk (c, set_pkg pk k r) = final pk (c, set_pkg pk k r).
Proof.
  intros Ht Hcn Hc. unfold svr_http_read. rewrite load_bind by done. erewrite conn_bind by done.
  by rewrite decide_True.
Qed.

(** ** Asking the cache *)

(** The cache after a hit: one reference more, and the callback is deleted again. *)
Definition hit_state (p : loc) (e : CacheEntry) c : Cache closure F :=
  set_entries (<[p := with_refCount (wrap_size (refCount e + 1)) e]> (entries c)) (skip_address c).
(** The cache after a callback was left for a reserved key. *)
Definition wait_state (p : loc) (e : CacheEntry) f c : Cache closure F :=
  set_entries (<[p := with_queue (queue e ++ [brk c]) e]> (entries c)) (alloc_state (BCallback f) c).
(** The cache after the key was found missing, reserved, and a callback left. *)
Definition reserve_wait (key : string) f c : Cache closure F :=
  let c1 := skip_address c in
  wait_state (brk (alloc_state (BName key) c1)) (CacheEntry_reserved (brk c1)) f
    (insert_state key (CacheEntry_reserved (brk c1)) (alloc_state (BName key) c1)).

Lemma alloc_bind {B} (x : block closure) (K : loc → prog server B) c r :
  pbind (on_cache clo (alloc x)) K (c, r) = K (brk c) (alloc_state x c, r).
Proof. by erewrite on_cache_bind by reflexivity. Qed.

Lemma get_miss_bind {B} key f (K : bool → prog server B) c r :
  wf c [] → cacheMap_ c !! key = None →
  pbind (get (HC := server_client clo) key (Some (brk c))) K (alloc_state (BCallback f) c, r) =
  K false (skip_address c, r).
Proof.
  intros Hwf Hk. erewrite pbind_ok by (eapply get_miss; [exact Hk|apply lookup_insert_eq]).
  f_equal. f_equal. unfold set_heap, skip_address. simpl. by rewrite (free_copy_state _ [] _ Hwf).
Qed.

Lemma get_wait_bind {B} key f p e (K : bool → prog server B) c r :
  cacheMap_ c !! key = Some p → entries c !! p = Some e → isReserved e = true →
  pbind (get (HC := server_client clo) key (Some (brk c))) K (alloc_state (BCallback f) c, r) =
  K true (wait_state p e f c, r).
Proof. intros Hk He Hr. by erewrite pbind_ok by (eapply get_wait; [exact Hk|exact He|exact Hr]). Qed.

Lemma get_hit_bind {B} key f p e (K : bool → prog server B) c r r' :
  wf c [] → cacheMap_ c !! key = Some p → entries c !! p = Some e → isReserved e = false →
  clo f (mkCacheData (data e) (size e) true) (alloc_state (BCallback f) c, r) =
    Ok (tt, (alloc_state (BCallback f) c, r')) →
  pbind (get (HC := server_client clo) key (Some (brk c))) K (alloc_state (BCallback f) c, r) =
  K true (hit_state p e c, r').
Proof.
  intros Hwf Hk He Hr Hrun. erewrite pbind_ok.
  2:{ eapply get_hit; [exact Hk|exact He|exact Hr| |apply lookup_insert_eq|exact Hrun].
      destruct (wf_entry _ _ _ _ Hwf He) as (key' & _ & Hok).
      destruct (freeListRef e) as [n|] eqn:En; [|done].
      apply (ok_ref _ _ _ _ _ Hok) in En. by apply elem_of_nil in En. }
  f_equal. f_equal. unfold set_heap, hit_state, set_entries, skip_address. simpl.
  by rewrite (free_copy_state _ [] _ Hwf).
Qed.

Lemma reserve_wait_bind {B} key f (K : bool → prog server B) c r :
  wf c [] → cacheMap_ c !! key = None → String.length key < usable (String.length key) →
  (let! rsvp := on_cache clo (reserve key) in
   passert rsvp ;;;
   let! cb := on_cache clo (alloc (BCallback f)) in
   pbind (get (HC := server_client clo) key (Some cb)) K) (skip_address c, r) =
  K true (reserve_wait key f c, r).
Proof.
  intros Hwf Hk Hlen. erewrite on_cache_bind by (apply reserve_new; [exact Hk|exact Hlen]).
  erewrite pbind_ok by reflexivity. rewrite alloc_bind.
  erewrite get_wait_bind; [reflexivity|apply lookup_insert_eq|apply lookup_insert_eq|done].
Qed.

End run.

Section answers.
Context {OSt F : Type} `{HO : OS OSt} `{HF : FIFO F loc} `{HL : !FIFOLaws F loc} `{HP : Platform}.
Abbreviation rest := (rest OSt).
Abbreviation server := (server OSt F).
Implicit Types (r : rest) (k : HPKG) (pk : loc) (c : Cache closure F) (cn : Conn).

(** The closures of the cache are the two callbacks. *)
Variables clo clo' : closure → CacheData → prog server unit.
Hypothesis clo_header : ∀ pk cd, clo (HeaderWio pk) cd = svr_http_header_wio clo' pk cd.
Hypothesis clo_body : ∀ pk cd, clo (BodyWio pk) cd = svr_http_body_wio clo' pk cd.

(** [strCpy] can copy the key: its block has a byte more than was asked for. *)
Definition has_room (key : string) : Prop := String.length key < usable (String.length key).

(** ** The header *)

Definition update_reply (f : reply → reply) k : HPKG := with_rsp (f (rsp k)) k.
Definition header_asked (u : text) k : HPKG :=
  update_reply (with_headkey (Some (head_key u))) (set_status HS_FETCHING WS_HEAD k).
Definition header_ready (s : string) k : HPKG :=
  update_reply (with_hsn (header_status s)) (set_status HS_WRITING WS_HEAD k).
Definition header_io pk cn (d : loc) (n : Z) : io := mkIo HeaderToBodyAio pk (cfd cn) (Some d) n 0.

(** The cache after [put] of [d] on a reserved entry. *)
Definition filled_state (p : loc) (e : CacheEntry) (d : loc) (n : Z) c : Cache closure F :=
  set_heap (delete_blocks (queue e) (heap c))
    (set_entries (<[p := filled e (Some d) n]> (entries c)) (skip_address c)).

Definition size_of (s : string) : Z := wrap_size (Z.of_nat (String.length s)).
Definition header_stored (s : string) (b : loc) k : HPKG :=
  update_reply (λ x, with_chead (with_ch_n (size_of s) (with_ch_p (Some b) (chead x))) x) k.
Definition header_cached k : HPKG := update_reply (λ x, with_chead (with_ch_cached true (chead x)) x) k.

Lemma set_pkg_add_io pk k o r : add_io o (set_pkg pk k r) = set_pkg pk k (add_io o r).
Proof. done. Qed.

Lemma put_header_run pk k r c cn key p e cb s :
  tidy r → conns_of r !! cpn k = Some cn → ¬ closing cn → wf c [] →
  headkey (rsp k) = Some key → cacheMap_ c !! key = Some p → entries c !! p = Some e →
  isReserved e = true → queue e = [cb] → heap c !! cb = Some (BCallback (HeaderWio pk)) →
  is_size (refCount e + 1) → 9 ≤ String.length s → has_room key →
  put_header clo pk s (c, set_pkg pk k r) = Ok (tt,
    (filled_state p e (brk c) (size_of s) (alloc_state (BData s) c),
     add_io (header_io pk cn (brk c) (size_of s))
       (set_pkg pk (header_cached (header_ready s (header_stored s (brk c) k))) r))).
Proof.
  intros Ht Hcn Hc Hwf Hkey Hk He Hr Hq Hcb Hsz Hs Hroom. unfold put_header.
  rewrite alloc_bind, update_rsp_bind, load_bind by done. simpl. rewrite Hkey.
  erewrite pbind_ok by reflexivity.
  assert (heap c !! brk c = None) as Hbrk by (apply (wf_brk _ _ Hwf); lia).
  erewrite pbind_ok.
  2:{ unfold cache_put. eapply put_one; [exact Hk|exact He|done|exact Hq| | |exact Hroom| |done|].
      - simpl. rewrite lookup_insert_ne; [exact Hcb|]. congruence.
      - simpl. rewrite lookup_insert_ne by lia. apply (wf_brk _ _ Hwf). lia.
      - unfold queue_fuel, view. simpl. rewrite Hk. simpl. rewrite He, Hq. simpl. lia.
      - intros c' Hc'. rewrite clo_header. eapply header_wio_run; [done|exact Hcn|done| |exact Hs].
        apply Hc', lookup_insert_eq. }
  erewrite pbind_ok by reflexivity. rewrite set_pkg_add_io. 
  rewrite update_rsp_run by done. unfold filled_state. by rewrite Hq.
Qed.

(** The text of a header, from what the system says of the file. *)
Definition file_header (vern : nat) (fd : Z) (s : OSt) : string :=
  if decide (fd < 0)%Z then (sline_404 vern ++ CRLFs ++ CRLFs)%string
  else header_200 vern (os_time s) (os_stat fd s).1 (os_stat fd s).2.
Definition opened (fd : Z) k : HPKG :=
  update_reply (λ x, if decide (fd < 0)%Z then with_hsn N_404 (with_hfd fd x)
                     else with_tr_offset 0 (with_hsn N_200 (with_hfd fd x)))
    (set_status HS_FETCHING WS_HEAD k).

Lemma file_header_long vern fd s : 9 ≤ String.length (file_header vern fd s).
Proof. unfold file_header. case_decide; destruct vern; simpl; lia. Qed.

Lemma file_header_status vern fd s :
  header_status (file_header vern fd s) = if decide (fd < 0)%Z then N_404 else N_200.
Proof.
  unfold file_header. by case_decide; destruct vern.
Qed.

Lemma header_rio_run pk k r c cn key p e cb u fd s' :
  tidy r → conns_of r !! cpn k = Some cn → ¬ closing cn → wf c [] →
  uri k = Some u → hfd (rsp k) = (-1)%Z → ch_p (chead (rsp k)) = None →
  os_open (cstr u) (sys_of r) = (fd, s') →
  headkey (rsp k) = Some key → cacheMap_ c !! key = Some p → entries c !! p = Some e →
  isReserved e = true → queue e = [cb] → heap c !! cb = Some (BCallback (HeaderWio pk)) →
  is_size (refCount e + 1) → has_room key →
  let s := file_header (vern (rsp k)) fd s' in
  svr_http_header_rio clo pk (c, set_pkg pk k r) = Ok (tt,
    (filled_state p e (brk c) (size_of s) (alloc_state (BData s) c),
     add_io (header_io pk cn (brk c) (size_of s))
       (set_pkg pk (header_cached (header_ready s (header_stored s (brk c) (opened fd k)))) (set_sys s' r)))).
Proof.
  intros Ht Hcn Hc Hwf Hu Hfd Hch Ho Hkey Hk He Hr Hq Hcb Hsz Hroom s. unfold svr_http_header_rio.
  rewrite status_bind, load_bind by done. simpl. rewrite Hu. erewrite pbind_ok by reflexivity.
  rewrite Hfd, decide_True by done. rewrite pbind_assoc, sys_bind, Ho by done. simpl.
  rewrite update_rsp_bind, load_bind by done. simpl. unfold s, file_header. case_decide as Hneg.
  - rewrite update_rsp_bind by done. etransitivity; [eapply (put_header_run _ _ _ _ cn key p e cb); try done|].
    + by destruct (vern (rsp k)); simpl; lia.
    + unfold opened, update_reply. by rewrite decide_True.
  - rewrite update_rsp_bind by done. erewrite pbind_ok by reflexivity. simpl. rewrite Hch.
    erewrite pbind_ok by reflexivity. etransitivity; [eapply (put_header_run _ _ _ _ cn key p e cb); try done|].
    + by destruct (vern (rsp k)); simpl; lia.
    + unfold opened, update_reply. by rewrite decide_False.
Qed.

Lemma header_hit pk k r c cn u p e d s :
  tidy r → conns_of r !! cpn k = Some cn → ¬ closing cn → wf c [] → uri k = Some u →
  cacheMap_ c !! head_key u = Some p → entries c !! p = Some e → isReserved e = false →
  data e = Some d → heap c !! d = Some (BData s) → 9 ≤ String.length s →
  svr_http_header clo pk (c, set_pkg pk k r) = Ok (tt, (hit_state p e c,
    add_io (header_io pk cn d (size e)) (set_pkg pk (header_ready s (header_asked u k)) r))).
Proof.
  intros Ht Hcn Hc Hwf Hu Hk He Hr Hd Hs Hl. unfold svr_http_header. rewrite status_bind by done.
  erewrite conn_bind by done. rewrite decide_False by done. rewrite alloc_bind, load_bind by done. simpl.
  rewrite Hu. erewrite pbind_ok by reflexivity. rewrite update_rsp_bind by done.
  erewrite get_hit_bind; [reflexivity|done|done|done|done|].
  rewrite clo_header, Hd. eapply header_wio_run; [done|exact Hcn|done| |done].
  simpl. rewrite lookup_insert_ne; [done|]. intros E. destruct (wf_brk _ _ Hwf (brk c)) as (? & _); [lia|]. congruence.
Qed.

(** The node, its entry, and the callback of [reserve_wait]. *)
Definition new_node c : loc := Pos.succ (Pos.succ (brk c)).
Definition new_cb c : loc := Pos.succ (new_node c).
Definition waiting_entry c : CacheEntry :=
  with_queue [new_cb c] (CacheEntry_reserved (Pos.succ (brk c))).

Lemma wait_state_wf key p e f c :
  wf c [] → cacheMap_ c !! key = Some p → entries c !! p = Some e → isReserved e = true →
  wf (wait_state p e f c) [].
Proof.
  intros Hwf Hk He Hr. pose proof (wf_alloc _ _ (BCallback f) Hwf) as Hwf1.
  apply (wf_take_callback (alloc_state (BCallback f) c) _ key p e (brk c) f); try done.
  split; [|apply lookup_insert_eq]. intros p' e' He' Hb. by eapply (wf_brk_unowned c).
Qed.

Lemma hit_state_wf p e c :
  wf c [] → entries c !! p = Some e → (0 ≤ refCount e)%Z → is_size (refCount e + 1) →
  wf (hit_state p e c) [].
Proof.
  intros Hwf He H0 Hsz. destruct (wf_entry _ _ _ _ Hwf He) as (key & Hk & Hok).
  apply wf_skip_address in Hwf. eapply (wf_update (skip_address c)); try done.
  - destruct Hok as [On Od Oq Oqn Or Oz Os Ores]. rewrite wrap_size_id by done. split; simpl; eauto.
    + split; [intros E; lia|]. intros [n Hn]. apply Or in Hn. by apply elem_of_nil in Hn.
    + split; [done|]. apply Os.
    + intros. lia.
  - intros b Hb. by left.
Qed.

Section reserve_wait.
Variables (key : string) (f : closure) (c : Cache closure F).
Hypotheses (Hwf : wf c []) (Hk : cacheMap_ c !! key = None).

Lemma reserve_wait_entry :
  cacheMap_ (reserve_wait key f c) !! key = Some (new_node c) ∧
  entries (reserve_wait key f c) !! new_node c = Some (waiting_entry c) ∧
  heap (reserve_wait key f c) !! new_cb c = Some (BCallback f) ∧
  brk (reserve_wait key f c) = Pos.succ (new_cb c).
Proof. split_and!; [apply lookup_insert_eq..|done]. Qed.

Lemma reserve_wait_heap b x : heap c !! b = Some x → heap (reserve_wait key f c) !! b = Some x.
Proof.
  intros Hb. assert (b < brk c)%positive as Hlt.
  { destruct (decide (b < brk c)%positive) as [|Hn]; [done|].
    destruct (wf_brk _ _ Hwf b) as (? & _); [lia|]. congruence. }
  simpl. by rewrite !lookup_insert_ne by lia.
Qed.

Lemma reserve_wait_wf : wf (reserve_wait key f c) [].
Proof.
  unfold reserve_wait. eapply (wait_state_wf key).
  - apply wf_insert_named; [by apply wf_skip_address|done|done|]. by intros b.
  - apply lookup_insert_eq.
  - apply lookup_insert_eq.
  - done.
Qed.

Lemma reserve_wait_view key2 :
  view (reserve_wait key f c) key2 = if decide (key2 = key) then Some (waiting_entry c) else view c key2.
Proof.
  pose proof (wf_skip_address _ _ Hwf) as Hwf1.
  assert (wf (insert_state key (CacheEntry_reserved (brk (skip_address c)))
    (alloc_state (BName key) (skip_address c))) []) as Hwf2 by (by apply wf_insert_named).
  etransitivity.
  { eapply (view_update (alloc_state (BCallback f) _) [] key); [by apply wf_alloc|apply lookup_insert_eq]. }
  case_decide as E; [done|]. etransitivity.
  { change (view ?a key2) with (view (insert_state key (CacheEntry_reserved (brk (skip_address c)))
      (alloc_state (BName key) (skip_address c))) key2).
    eapply (view_insert _ []); [by apply wf_alloc|done]. }
  by rewrite decide_False.
Qed.

End reserve_wait.

(** The cache after a miss of a header, which is [s]. *)
Definition header_put pk (u : text) (s : string) c : Cache closure F :=
  filled_state (new_node c) (waiting_entry c) (Pos.succ (new_cb c)) (size_of s)
    (alloc_state (BData s) (reserve_wait (head_key u) (HeaderWio pk) c)).

Lemma header_miss pk k r c cn u fd s' :
  tidy r → conns_of r !! cpn k = Some cn → ¬ closing cn → wf c [] → uri k = Some u →
  cacheMap_ c !! head_key u = None → hfd (rsp k) = (-1)%Z → ch_p (chead (rsp k)) = None →
  os_open (cstr u) (sys_of r) = (fd, s') → has_room (head_key u) →
  let s := file_header (vern (rsp k)) fd s' in
  svr_http_header clo pk (c, set_pkg pk k r) = Ok (tt, (header_put pk u s c,
    add_io (header_io pk cn (Pos.succ (new_cb c)) (size_of s))
      (set_pkg pk (header_cached (header_ready s (header_stored s (Pos.succ (new_cb c))
        (opened fd (header_asked u k))))) (set_sys s' r)))).
Proof.
  intros Ht Hcn Hc Hwf Hu Hk Hfd Hch Ho Hroom s. unfold svr_http_header. rewrite status_bind by done.
  erewrite conn_bind by done. rewrite decide_False by done. rewrite alloc_bind, load_bind by done. simpl.
  rewrite Hu. erewrite pbind_ok by reflexivity. rewrite update_rsp_bind, get_miss_bind by done.
  rewrite reserve_wait_bind by done. erewrite pbind_ok by reflexivity.
  destruct (reserve_wait_entry (head_key u) (HeaderWio pk) c) as (H1 & H2 & H3 & H4).
  etransitivity; [eapply (header_rio_run _ (header_asked u k) r _ cn (head_key u) (new_node c) (waiting_entry c) (new_cb c) u fd s'); try done|].
  - by apply reserve_wait_wf.
  - by rewrite H4.
Qed.

(** Without room for the key a miss faults: [reserve] copies it. *)
Lemma header_overflow pk k r c cn u :
  tidy r → conns_of r !! cpn k = Some cn → ¬ closing cn → wf c [] → uri k = Some u →
  cacheMap_ c !! head_key u = None → ¬ has_room (head_key u) →
  svr_http_header clo pk (c, set_pkg pk k r) = Fault HeapOverflow.
Proof.
  intros Ht Hcn Hc Hwf Hu Hk Hroom. unfold svr_http_header. rewrite status_bind by done.
  erewrite conn_bind by done. rewrite decide_False by done. rewrite alloc_bind, load_bind by done. simpl.
  rewrite Hu. erewrite pbind_ok by reflexivity. rewrite update_rsp_bind, get_miss_bind by done.
  apply pbind_fault. unfold on_cache, lift. simpl. unfold reserve. erewrite pbind_fault; [done|].
  by apply strCpy_fault.
Qed.

(** ** The body *)

Definition body_asked (u : text) k : HPKG :=
  update_reply (with_bodykey (Some (body_key u (tr_offset (rsp k))))) (set_status HS_FETCHING WS_BODY k).
Definition body_io pk cn (d : loc) (n : Z) : io := mkIo BodyRio pk (cfd cn) (Some d) n 0.

Lemma body_start pk k r c cn u :
  tidy r → conns_of r !! cpn k = Some cn → ¬ closing cn → uri k = Some u →
  svr_http_body clo pk (c, set_pkg pk k r) =
  (let! hit := get (HC := server_client clo) (body_key u (tr_offset (rsp k))) (Some (brk c)) in
   if (hit : bool) then pret tt
   else
     let! rsvp := on_cache clo (reserve (body_key u (tr_offset (rsp k)))) in
     passert rsvp ;;;
     let! cCB := on_cache clo (alloc (BCallback (BodyWio pk))) in
     let! iscac := get (HC := server_client clo) (body_key u (tr_offset (rsp k))) (Some cCB) in
     passert iscac ;;;
     let! b := on_cache clo (alloc (BData EmptyString)) in
     update_rsp pk (λ x, with_cbody (with_ch_p (Some b) (cbody x)) x) ;;;
     (if decide (hfd (rsp k) = (-1)%Z) then
        let! fd := sys (os_open (cstr u)) in update_rsp pk (with_hfd fd)
      else pret tt) ;;;
     let! k := load pk in
     start (mkIo BodyPio pk (hfd (rsp k)) (Some b) MAXWB (tr_offset (rsp k))))
    (alloc_state (BCallback (BodyWio pk)) c, set_pkg pk (body_asked u k) r).
Proof.
  intros Ht Hcn Hc Hu. unfold svr_http_body. rewrite status_bind by done.
  erewrite conn_bind by done. rewrite decide_False by done. rewrite load_bind by done. simpl.
  rewrite Hu. erewrite pbind_ok by reflexivity. rewrite update_rsp_bind by done. rewrite alloc_bind. done.
Qed.

Lemma body_hit pk k r c cn u p e d :
  tidy r → conns_of r !! cpn k = Some cn → ¬ closing cn → wf c [] → uri k = Some u →
  cacheMap_ c !! body_key u (tr_offset (rsp k)) = Some p → entries c !! p = Some e →
  isReserved e = false → data e = Some d →
  svr_http_body clo pk (c, set_pkg pk k r) = Ok (tt, (hit_state p e c,
    add_io (body_io pk cn d (size e))
      (set_pkg pk (set_status HS_WRITING WS_BODY (body_asked u k)) r))).
Proof.
  intros Ht Hcn Hc Hwf Hu Hk He Hr Hd. erewrite body_start by done.
  erewrite get_hit_bind; [reflexivity|done|exact Hk|exact He|done|].
  rewrite clo_body, Hd. by eapply body_wio_run.
Qed.

(** A block that could not be read: its entry has no data, and the request ends. *)
Lemma body_hit_none pk k r c cn u p e r' :
  tidy r → conns_of r !! cpn k = Some cn → ¬ closing cn → wf c [] → uri k = Some u →
  cacheMap_ c !! body_key u (tr_offset (rsp k)) = Some p → entries c !! p = Some e →
  isReserved e = false → data e = None →
  (∀ c, final pk (c, set_pkg pk (body_asked u k) r) = Ok (tt, (c, r'))) →
  svr_http_body clo pk (c, set_pkg pk k r) = Ok (tt, (hit_state p e c, r')).
Proof.
  intros Ht Hcn Hc Hwf Hu Hk He Hr Hd Hf. erewrite body_start by done.
  erewrite get_hit_bind; [reflexivity|done|exact Hk|exact He|done|].
  rewrite clo_body, Hd. erewrite body_wio_none by done. apply Hf.
Qed.

Lemma body_wait pk k r c cn u p e :
  tidy r → conns_of r !! cpn k = Some cn → ¬ closing cn → wf c [] → uri k = Some u →
  cacheMap_ c !! body_key u (tr_offset (rsp k)) = Some p → entries c !! p = Some e →
  isReserved e = true →
  svr_http_body clo pk (c, set_pkg pk k r) =
    Ok (tt, (wait_state p e (BodyWio pk) c, set_pkg pk (body_asked u k) r)).
Proof.
  intros Ht Hcn Hc Hwf Hu Hk He Hr. erewrite body_start by done. by erewrite get_wait_bind by done.
Qed.

(** A miss starts to read the file, which is opened if it is not open yet. *)
Definition reads_into (b : loc) k : HPKG := update_reply (λ x, with_cbody (with_ch_p (Some b) (cbody x)) x) k.
Definition file_io pk (fd : Z) (b : loc) (off : Z) : io := mkIo BodyPio pk fd (Some b) MAXWB off.
Definition body_missed pk (u : text) (off : Z) c : Cache closure F :=
  alloc_state (BData EmptyString) (reserve_wait (body_key u off) (BodyWio pk) c).

Lemma body_miss pk k r c cn u :
  tidy r → conns_of r !! cpn k = Some cn → ¬ closing cn → wf c [] → uri k = Some u →
  cacheMap_ c !! body_key u (tr_offset (rsp k)) = None → hfd (rsp k) ≠ (-1)%Z →
  has_room (body_key u (tr_offset (rsp k))) →
  let b := Pos.succ (new_cb c) in
  svr_http_body clo pk (c, set_pkg pk k r) = Ok (tt, (body_missed pk u (tr_offset (rsp k)) c,
    add_io (file_io pk (hfd (rsp k)) b (tr_offset (rsp k))) (set_pkg pk (reads_into b (body_asked u k)) r))).
Proof.
  intros Ht Hcn Hc Hwf Hu Hk Hfd Hroom b. erewrite body_start by done.
  rewrite get_miss_bind by done. rewrite reserve_wait_bind by done.
  erewrite pbind_ok by reflexivity. rewrite alloc_bind, update_rsp_bind by done.
  rewrite decide_False by done. erewrite pbind_ok by reflexivity. rewrite load_bind by done. done.
Qed.

Lemma body_miss_open pk k r c cn u fd s' :
  tidy r → conns_of r !! cpn k = Some cn → ¬ closing cn → wf c [] → uri k = Some u →
  cacheMap_ c !! body_key u (tr_offset (rsp k)) = None → hfd (rsp k) = (-1)%Z →
  os_open (cstr u) (sys_of r) = (fd, s') → has_room (body_key u (tr_offset (rsp k))) →
  let b := Pos.succ (new_cb c) in
  svr_http_body clo pk (c, set_pkg pk k r) = Ok (tt, (body_missed pk u (tr_offset (rsp k)) c,
    add_io (file_io pk fd b (tr_offset (rsp k)))
      (set_pkg pk (update_reply (with_hfd fd) (reads_into b (body_asked u k))) (set_sys s' r)))).
Proof.
  intros Ht Hcn Hc Hwf Hu Hk Hfd Ho Hroom b. erewrite body_start by done.
  rewrite get_miss_bind by done. rewrite reserve_wait_bind by done.
  erewrite pbind_ok by reflexivity. rewrite alloc_bind, update_rsp_bind by done.
  rewrite decide_True by done. rewrite pbind_assoc, sys_bind, Ho by done. simpl.
  rewrite update_rsp_bind, load_bind by done. done.
Qed.

(** ** Fetching *)

Definition fetched k : HPKG := update_reply (with_hsn N_UNO) (set_status HS_FETCHING WS_HEAD k).

(** The version of a request that is answered from a file. *)
Definition version k : option nat :=
  match met k, ver k, uri k with
  | Some _, Some v, Some _ =>
    if String.eqb (cstr v) "HTTP/1.0" then Some 0
    else if String.eqb (cstr v) "HTTP/1.1" then Some 1 else None
  | _, _, _ => None
  end.

Lemma fetch_header pk k r c cn v :
  tidy r → conns_of r !! cpn k = Some cn → ¬ closing cn → version k = Some v →
  svr_http_fetch clo pk (c, set_pkg pk k r) =
  svr_http_header clo pk (c, set_pkg pk (update_reply (with_vern v) (fetched k)) r).
Proof.
  intros Ht Hcn Hc Hv. unfold svr_http_fetch. erewrite conn_bind by done. rewrite decide_False by done.
  rewrite status_bind, update_rsp_bind, load_bind by done. cbn. unfold version in Hv.
  destruct (met k), (ver k) as [t|], (uri k); try done.
  destruct (String.eqb (cstr t) "HTTP/1.0"); [injection Hv as <-; by rewrite update_rsp_bind|].
  destruct (String.eqb (cstr t) "HTTP/1.1"); [injection Hv as <-; by rewrite update_rsp_bind|done].
Qed.

Definition reply_400 : string := Eval cbv in (sline_400 ++ CRLFs ++ CRLFs)%string.
Definition refused (b : loc) k : HPKG :=
  header_stored reply_400 b (update_reply (with_hsn N_400) (set_status HS_WRITING WS_HEAD (fetched k))).

Lemma fetch_refused pk k r c cn :
  tidy r → conns_of r !! cpn k = Some cn → ¬ closing cn → version k = None →
  svr_http_fetch clo pk (c, set_pkg pk k r) = Ok (tt, (alloc_state (BData reply_400) c,
    add_io (body_io pk cn (brk c) (size_of reply_400)) (set_pkg pk (refused (brk c) k) r))).
Proof.
  intros Ht Hcn Hc Hv. unfold svr_http_fetch. erewrite conn_bind by done. rewrite decide_False by done.
  rewrite status_bind, update_rsp_bind, load_bind by done. cbn.
  assert (svr_http_write_400 clo pk (c, set_pkg pk (fetched k) r) = Ok (tt, (alloc_state (BData reply_400) c,
    add_io (body_io pk cn (brk c) (size_of reply_400)) (set_pkg pk (refused (brk c) k) r)))) as Hw.
  { unfold svr_http_write_400. rewrite status_bind, update_rsp_bind by done. erewrite conn_bind by done.
    rewrite decide_False, alloc_bind, update_rsp_bind by done. done. }
  unfold version in Hv. destruct (met k), (ver k) as [t|], (uri k); try apply Hw.
  destruct (String.eqb (cstr t) "HTTP/1.0"); [done|]. destruct (String.eqb (cstr t) "HTTP/1.1"); [done|]. apply Hw.
Qed.

Lemma fetch_closing pk k r c cn :
  tidy r → conns_of r !! cpn k = Some cn → closing cn →
  svr_http_fetch clo pk (c, set_pkg pk k r) = final pk (c, set_pkg pk k r).
Proof. intros Ht Hcn Hc. unfold svr_http_fetch. erewrite conn_bind by done. by rewrite decide_True. Qed.

(** ** After a write *)

Definition header_sent k : HPKG := set_status HS_UNKNOWN WS_HEAD k.

Lemma header_to_body_run pk k r c :
  tidy r →
  svr_http_header_to_body_aio clo pk (c, set_pkg pk k r) =
  (if decide (hsn (rsp k) = N_200) then svr_http_body clo pk else final pk)
    (c, set_pkg pk (header_sent k) r).
Proof.
  intros Ht. unfold svr_http_header_to_body_aio. rewrite status_bind, load_bind by done.
  simpl. by case_decide.
Qed.

Definition advanced (n : Z) k : HPKG := update_reply (λ x, with_tr_offset (tr_offset x + n) x) k.

(** A reference to a key is given back. *)
Definition release_state (p : loc) (e : CacheEntry) c : Cache closure F :=
  set_entries (<[p := with_refCount (refCount e - 1) e]> (entries c)) c.

Lemma doneWith_run key p e c r :
  cacheMap_ c !! key = Some p → entries c !! p = Some e → is_size (refCount e) → (1 < refCount e)%Z →
  (currentSize_ c ≤ sizeQuota_ c)%Z →
  cache_doneWith clo key (c, r) = Ok (tt, (release_state p e c, r)).
Proof.
  intros Hk He Hsz Hr Hq. unfold cache_doneWith, on_cache. apply lift_run. unfold doneWith.
  assert (release key c = Ok (tt, release_state p e c)) as Hrel.
  { unfold release. erewrite pbind_ok by (unfold map_find; rewrite Hk; reflexivity). cbn beta iota.
    erewrite pbind_ok by (by apply load_entry_ok). rewrite (proj2 (Z.ltb_lt _ _)) by lia.
    erewrite pbind_ok by reflexivity. erewrite pbind_ok by (by apply update_entry_ok).
    rewrite wrap_size_id by (unfold is_size in *; lia). by rewrite (proj2 (Z.eqb_neq _ _)) by lia. }
  erewrite pbind_ok by exact Hrel. erewrite pbind_ok by reflexivity. simpl.
  by rewrite (proj2 (Z.ltb_ge _ _)) by lia.
Qed.

Lemma release_state_wf key p e c :
  wf c [] → cacheMap_ c !! key = Some p → entries c !! p = Some e → (1 < refCount e)%Z →
  wf (release_state p e c) [] ∧
  ∀ key2, view (release_state p e c) key2 = if decide (key2 = key) then Some (with_refCount (refCount e - 1) e) else view c key2.
Proof.
  intros Hwf Hp He Hr. split; [|by apply (view_update c [])].
  destruct (wf_entry _ _ _ _ Hwf He) as (key' & Hp' & Hok).
  eapply wf_update; try done; [|intros b Hb'; by left].
  destruct Hok as [On Od Oq Oqn Or Oz Os Ores]. split; simpl; eauto.
  - rewrite <-Oz. lia.
  - unfold is_size in *. lia.
  - intros. lia.
Qed.

Lemma body_rio_next pk k r c key p e n :
  tidy r → wst (rsp k) = WS_BODY → bodykey (rsp k) = Some key →
  cacheMap_ c !! key = Some p → entries c !! p = Some e → is_size (refCount e) → (1 < refCount e)%Z →
  (currentSize_ c ≤ sizeQuota_ c)%Z →
  svr_http_body_rio clo pk n (c, set_pkg pk k r) =
  (if decide (0 < n)%Z then λ w, svr_http_body clo pk (w, set_pkg pk (advanced n k) r)
   else λ w, final pk (w, set_pkg pk (update_reply (with_wst WS_UNO) k) r)) (release_state p e c).
Proof.
  intros Ht Hw Hb Hk He Hsz Hr Hq. unfold svr_http_body_rio. rewrite load_bind, decide_True, Hb by done.
  erewrite pbind_ok by (by eapply doneWith_run). case_decide; by rewrite update_rsp_bind.
Qed.

Lemma body_rio_end pk k r c n :
  tidy r → wst (rsp k) = WS_HEAD →
  svr_http_body_rio clo pk n (c, set_pkg pk k r) = final pk (c, set_pkg pk k r).
Proof. intros Ht Hw. unfold svr_http_body_rio. rewrite load_bind by done. by rewrite Hw. Qed.

(** ** After a failure *)

Definition after_read_error cn : Conn :=
  with_cst (if decide (cst cn = CS_CLOSING_W) then CS_CLOSING else CS_CLOSING_R) cn.
Definition after_write_error cn : Conn :=
  with_cst (if decide (cst cn = CS_CLOSING_R) then CS_CLOSING else CS_CLOSING_W) cn.

Lemma final_aio_reading pk k r c cn :
  tidy r → conns_of r !! cpn k = Some cn → cst cn ≠ CS_CLOSING →
  hst k = HS_READING ∨ hst k = HS_PARSING →
  svr_http_final_aio clo pk (c, set_pkg pk k r) =
  final pk (c, set_pkg pk k (set_conn (cpn k) (after_read_error cn) r)).
Proof.
  intros Ht Hcn Hc Hs. unfold svr_http_final_aio. rewrite load_bind by done. erewrite conn_bind by done.
  rewrite bool_decide_true by done. erewrite pbind_ok by reflexivity.
  destruct Hs as [-> | ->]; by erewrite set_cst_bind.
Qed.

Lemma final_aio_cancel pk k r c cn key :
  tidy r → conns_of r !! cpn k = Some cn → cst cn ≠ CS_CLOSING →
  hst k = HS_FETCHING → wst (rsp k) = WS_BODY → bodykey (rsp k) = Some key →
  svr_http_final_aio clo pk (c, set_pkg pk k r) =
  (let! _ := cache_cancel clo key in pret tt)
    (c, set_pkg pk k (set_conn (cpn k) (after_write_error cn) r)).
Proof.
  intros Ht Hcn Hc Hs Hw Hb. unfold svr_http_final_aio. rewrite load_bind by done. erewrite conn_bind by done.
  rewrite bool_decide_true by done. erewrite pbind_ok by reflexivity. rewrite Hs.
  erewrite set_cst_bind by done. rewrite decide_True, Hb by done. by erewrite pbind_ok by reflexivity.
Qed.

Lemma final_aio_writing pk k r c cn key p e :
  tidy r → conns_of r !! cpn k = Some cn → cst cn ≠ CS_CLOSING → hst k = HS_WRITING →
  (wst (rsp k) = WS_HEAD ∧ headkey (rsp k) = Some key ∨ wst (rsp k) = WS_BODY ∧ bodykey (rsp k) = Some key) →
  cacheMap_ c !! key = Some p → entries c !! p = Some e → is_size (refCount e) → (1 < refCount e)%Z →
  (currentSize_ c ≤ sizeQuota_ c)%Z →
  svr_http_final_aio clo pk (c, set_pkg pk k r) =
  final pk (release_state p e c, set_pkg pk k (set_conn (cpn k) (after_write_error cn) r)).
Proof.
  intros Ht Hcn Hc Hs Hkey Hk He Hsz Hr Hq. unfold svr_http_final_aio. rewrite load_bind by done.
  erewrite conn_bind by done. rewrite bool_decide_true by done. erewrite pbind_ok by reflexivity.
  rewrite Hs. erewrite set_cst_bind by done. rewrite decide_False by (intros []; done).
  destruct Hkey as [[Hw Hkey]|[Hw Hkey]].
  - rewrite decide_True by done. rewrite pbind_assoc, Hkey, bool_decide_true by done.
    erewrite pbind_ok by reflexivity. rewrite pbind_assoc. erewrite pbind_ok by reflexivity.
    erewrite pbind_ok by (by eapply doneWith_run). rewrite decide_False by (intros []; congruence).
    by erewrite pbind_ok by reflexivity.
  - rewrite decide_False by (intros []; congruence). erewrite pbind_ok by reflexivity.
    rewrite decide_True by done. rewrite pbind_assoc, Hkey, bool_decide_true by done.
    erewrite pbind_ok by reflexivity. rewrite pbind_assoc. erewrite pbind_ok by reflexivity.
    by erewrite pbind_ok by (by eapply doneWith_run).
Qed.

Lemma final_aio_refused pk k r c cn :
  tidy r → conns_of r !! cpn k = Some cn → cst cn ≠ CS_CLOSING → hst k = HS_WRITING →
  wst (rsp k) = WS_HEAD → headkey (rsp k) = None →
  svr_http_final_aio clo pk (c, set_pkg pk k r) = Fault AssertFailure.
Proof.
  intros Ht Hcn Hc Hs Hw Hkey. unfold svr_http_final_aio. rewrite load_bind by done.
  erewrite conn_bind by done. rewrite bool_decide_true by done. erewrite pbind_ok by reflexivity.
  rewrite Hs. erewrite set_cst_bind by done. rewrite decide_False by (intros []; done).
  rewrite decide_True by done. rewrite pbind_assoc, Hkey, bool_decide_false by auto. done.
Qed.

(** ** After a read *)

Lemma fill_run b data r c x :
  heap c !! b = Some x →
  fill (F := F) (Some b) data (c, r) =
  Ok (tt, (fill_state b (String.string_of_list_ascii data) c, r)).
Proof.
  intros Hb. unfold fill. erewrite pbind_ok by reflexivity.
  unfold on_cache. apply lift_run. by eapply write_block_run.
Qed.

Definition received (data : text) k : HPKG :=
  update_reply (λ x, with_chead (mkCharn (ch_p (chead (rsp k))) (wrap_size (Z.of_nat (length data) - 1))
                                   (ch_cached (chead x))) x) (with_hst HS_PARSING k).

Lemma parse_closing pk k r c cn buf data :
  tidy r → conns_of r !! cpn k = Some cn → closing cn → ch_p (chead (rsp k)) = buf →
  svr_http_parse_aio clo pk buf data (c, set_pkg pk k r) = final pk (c, set_pkg pk k r).
Proof.
  intros Ht Hcn Hc Hb. unfold svr_http_parse_aio. rewrite load_bind by done. erewrite conn_bind by done.
  rewrite bool_decide_true by done. erewrite pbind_ok by reflexivity. by rewrite decide_True.
Qed.

Lemma parse_eof pk k r c cn buf :
  tidy r → conns_of r !! cpn k = Some cn → ¬ closing cn → ch_p (chead (rsp k)) = buf →
  svr_http_parse_aio clo pk buf [] (c, set_pkg pk k r) =
  svr_http_final_aio clo pk (c, set_pkg pk (received [] k) r).
Proof.
  intros Ht Hcn Hc Hb. unfold svr_http_parse_aio. rewrite load_bind by done. erewrite conn_bind by done.
  rewrite bool_decide_true by done. erewrite pbind_ok by reflexivity. rewrite decide_False by done.
  rewrite update_bind, update_rsp_bind by done. rewrite decide_True, <-Hb by done. done.
Qed.

Lemma parse_data pk k r c cn buf data x :
  tidy r → conns_of r !! cpn k = Some cn → ¬ closing cn → ch_p (chead (rsp k)) = buf → data ≠ [] →
  svr_http_parse (data ++ replicate (MAXRH - length data) NUL) (length data - 1) pk
    (web (set_pkg pk (received data k) r)) = Ok (tt, x) → garbage x = [] →
  svr_http_parse_aio clo pk buf data (c, set_pkg pk k r) = Ok (tt, (c, set_web x r)).
Proof.
  intros Ht Hcn Hc Hb Hd Hx Hg. unfold svr_http_parse_aio. rewrite load_bind by done. erewrite conn_bind by done.
  rewrite bool_decide_true by done. erewrite pbind_ok by reflexivity. rewrite decide_False by done.
  rewrite update_bind, update_rsp_bind by done. rewrite decide_False by (by destruct data).
  subst buf. etransitivity; [eapply on_web_run; [exact Hx|exact Hg]|]. done.
Qed.

End answers.

(** ** What a client gets *)

Section clients.
Context {OSt F : Type} `{HO : OS OSt} `{HF : FIFO F loc} `{HL : !FIFOLaws F loc} `{HP : Platform}.
Implicit Types (r : rest OSt) (k : HPKG) (pk : loc) (c : Cache closure F) (cn : Conn).

Lemma call_header pk cd : call_closure (F := F) (OSt := OSt) (HeaderWio pk) cd = svr_http_header_wio (run_closure 1) pk cd.
Proof. done. Qed.
Lemma call_body pk cd : call_closure (F := F) (OSt := OSt) (BodyWio pk) cd = svr_http_body_wio (run_closure 1) pk cd.
Proof. done. Qed.

(** An entry that is not reserved and holds the text of a header. *)
Definition holds_header c (e : CacheEntry) (d : loc) (s : string) : Prop :=
  isReserved e = false ∧ Cache.data e = Some d ∧ heap c !! d = Some (BData s) ∧ 9 ≤ String.length s.

Lemma hit_state_view key p e c :
  wf c [] → cacheMap_ c !! key = Some p → entries c !! p = Some e → is_size (refCount e + 1) →
  ∀ key2, view (hit_state p e c) key2 = if decide (key2 = key) then Some (with_refCount (refCount e + 1) e) else view c key2.
Proof.
  intros Hwf Hk He Hsz key2. unfold hit_state. rewrite wrap_size_id by done.
  by apply (view_update (skip_address c) []); [apply wf_skip_address|].
Qed.

Lemma filled_state_view key p e d n c :
  wf c [] → cacheMap_ c !! key = Some p →
  ∀ key2, view (filled_state p e d n c) key2 = if decide (key2 = key) then Some (filled e (Some d) n) else view c key2.
Proof. intros Hwf Hk. apply (view_update (skip_address c) []); [by apply wf_skip_address|done]. Qed.

(** The cache after a header was stored. *)
Lemma header_put_view pk u s c :
  wf c [] → cacheMap_ c !! head_key u = None →
  ∀ key, view (header_put pk u s c) key =
    if decide (key = head_key u)
    then Some (filled (waiting_entry c) (Some (Pos.succ (new_cb c))) (size_of s)) else view c key.
Proof.
  intros Hwf Hk key. unfold header_put.
  pose proof (reserve_wait_wf (head_key u) (HeaderWio pk) c Hwf Hk) as Hwf1.
  destruct (reserve_wait_entry (head_key u) (HeaderWio pk) c) as (H1 & _).
  rewrite (filled_state_view (head_key u)) by (try done; by apply wf_alloc). case_decide as E; [done|].
  etransitivity; [apply (reserve_wait_view (head_key u) (HeaderWio pk) c Hwf Hk key)|]. by rewrite decide_False.
Qed.

Lemma filled_state_wf key p e d n c t :
  wf c [] → cacheMap_ c !! key = Some p → entries c !! p = Some e → isReserved e = true →
  unowned c d → heap c !! d = Some (BData t) → is_size n →
  (refCount e + Z.of_nat (length (queue e)) < size_t_mod)%Z → wf (filled_state p e d n c) [].
Proof.
  intros Hwf Hp He Hr Hu Hd Hn Hw. eapply put_reserved_wf; try done.
  intros b [= <-]. split; [done|]. by exists t.
Qed.

Lemma header_put_wf pk u s c :
  wf c [] → cacheMap_ c !! head_key u = None → wf (header_put pk u s c) [].
Proof.
  intros Hwf Hk. pose proof (reserve_wait_wf (head_key u) (HeaderWio pk) c Hwf Hk) as Hwf1.
  destruct (reserve_wait_entry (head_key u) (HeaderWio pk) c) as (H1 & H2 & _ & H4).
  eapply (filled_state_wf (head_key u)); [by apply wf_alloc|exact H1|exact H2|done| |apply lookup_insert_eq|apply wrap_size_range|done].
  intros p e He Hb. eapply (wf_brk_unowned _ _ Hwf1); [exact He|]. by rewrite H4.
Qed.

Lemma header_put_heap pk u s c :
  wf c [] → heap (header_put pk u s c) !! Pos.succ (new_cb c) = Some (BData s).
Proof. intros Hwf. simpl. rewrite lookup_delete_ne by (unfold new_cb; lia). apply lookup_insert_eq. Qed.

Lemma view_entry c key e :
  wf c [] → view c key = Some e → ∃ p, cacheMap_ c !! key = Some p ∧ entries c !! p = Some e.
Proof. intros Hwf Hv. destruct (view_some _ _ _ _ Hwf Hv) as (p & ? & ? & _). eauto. Qed.

(** The request misses the cache, and [strCpy] has no room for its key. *)
Definition overflows c k : bool :=
  match version k, uri k with
  | Some _, Some u =>
    match view c (head_key u) with
    | None => usable (String.length (head_key u)) <=? String.length (head_key u)
    | Some _ => false
    end
  | _, _ => false
  end.

(** C36: [svr_http_fetch] on every branch.  On a connection that is being closed
    it ends the package.  A request without a version, or with one that is not
    known, is refused with status 400.  For any other the header is asked of the
    cache: if it is there, that text is sent and gets a reference; if not, the
    name is reserved, which writes past the copy of the key unless the allocator
    has given it a byte more than was asked for; then the file is opened, and the
    header that is made of it (200 with the file's size and dates, or 404) is
    stored with two references and sent.  But for that overflow the text is
    always in a live block, exactly one write of all of it to the connection is
    started, no other package and no other key changes. *)
Theorem fetch_correct pk k r c cn fd s' :
  tidy r → wf c [] → pkgs (web r) !! pk = Some k → conns_of r !! cpn k = Some cn → rsp k = new_reply →
  (∀ u e, uri k = Some u → view c (head_key u) = Some e →
     is_size (refCount e + 1) ∧ ∃ d s, holds_header c e d s) →
  (∀ u, uri k = Some u → os_open (cstr u) (sys_of r) = (fd, s')) →
  if decide (closing cn) then run_task (Fetch pk) (c, r) = final pk (c, r)
  else if overflows c k then run_task (Fetch pk) (c, r) = Fault HeapOverflow
  else ∃ c' r' k' d n s,
    run_task (Fetch pk) (c, r) = Ok (tt, (c', r')) ∧ heap c' !! d = Some (BData s) ∧
    pkgs (web r') = <[pk := k']> (pkgs (web r)) ∧ tasks (web r') = tasks (web r) ∧
    match version k, uri k with
    | Some v, Some u =>
      ios r' = <[io_next r := mkIo HeaderToBodyAio pk (cfd cn) (Some d) n 0]> (ios r) ∧
      headkey (rsp k') = Some (head_key u) ∧ hsn (rsp k') = header_status s ∧
      (∃ e', view c' (head_key u) = Some e' ∧ holds_header c' e' d s ∧ n = Cache.size e' ∧
        match view c (head_key u) with
        | Some e => refCount e' = (refCount e + 1)%Z ∧ holds_header c e d s
        | None => refCount e' = 2%Z ∧ s = file_header v fd s' ∧ n = size_of s ∧ hfd (rsp k') = fd
        end) ∧
      ∀ key, key ≠ head_key u → view c' key = view c key
    | _, _ =>
      s = reply_400 ∧ n = size_of s ∧ hsn (rsp k') = N_400 ∧ ch_p (chead (rsp k')) = Some d ∧
      ios r' = <[io_next r := mkIo BodyRio pk (cfd cn) (Some d) n 0]> (ios r) ∧
      ∀ key, view c' key = view c key
    end.
Proof.
  intros Ht Hwf Hpk Hcn Hnew Hcache Hopen. rewrite <-(set_pkg_id pk k r Hpk). simpl.
  case_decide as Hc; [by eapply fetch_closing|].
  unfold overflows. destruct (version k) as [v|] eqn:Hv.
  2:{ eexists _, _, _, _, _, _. split; [by eapply fetch_refused|]. split; [apply lookup_insert_eq|]. simpl.
      rewrite insert_insert_eq. by repeat (split; [done|]). }
  destruct (uri k) as [u|] eqn:Hu; [|unfold version in Hv; rewrite Hu in Hv; by destruct (met k), (ver k)].
  erewrite fetch_header by done. destruct (view c (head_key u)) as [e|] eqn:He.
  - destruct (Hcache u e eq_refl He) as (Hsz & d & s & Hh). pose proof Hh as (Hr & Hd & Hs & Hl).
    destruct (view_entry _ _ _ Hwf He) as (p & Hp & He').
    eexists _, _, _, d, _, s. split; [eapply header_hit; done|]. simpl.
    split; [done|]. rewrite insert_insert_eq. split; [done|]. repeat (split; [done|]).
    split; [|intros key Hkey; by rewrite (hit_state_view (head_key u)), decide_False].
    exists (with_refCount (refCount e + 1) e). by rewrite (hit_state_view (head_key u)), decide_True.
  - pose proof (proj1 (view_none _ _ _ Hwf) He) as Hk. destruct (Nat.leb_spec (usable (String.length (head_key u))) (String.length (head_key u))) as [Hno|Hroom].
    { eapply header_overflow; try done. unfold has_room. lia. }
    eexists _, _, _, _, _, _. split; [eapply header_miss; try done; [by simpl; rewrite Hnew|by simpl; rewrite Hnew|by apply Hopen]|].
    split; [by apply header_put_heap|]. simpl. rewrite insert_insert_eq. repeat (split; [done|]).
    split; [by simpl; case_decide|]. split; [done|]. split; [|intros key Hkey; by rewrite header_put_view, decide_False].
    eexists. rewrite header_put_view, decide_True by done. split; [done|].
    split; [split; [done|]; split; [done|]; split; [by apply header_put_heap|apply file_header_long]|].
    simpl. repeat (split; [done|]). by case_decide.
  Unshelve. all: exact (run_closure 1).
Qed.

(** A client that goes away before it has read a refusal stops the server:
    when the write of a 400 fails, [svr_http_final_aio] asserts that the package
    has the key of a header, which a refused request has not. *)
Theorem failed_refusal pk k r c cn :
  tidy r → pkgs (web r) !! pk = Some k → conns_of r !! cpn k = Some cn → ¬ closing cn →
  version k = None → headkey (rsp k) = None →
  ∃ o c' r', run_task (Fetch pk) (c, r) = Ok (tt, (c', r')) ∧ ios r' !! io_next r = Some o ∧
    run_io o Failed (c', r') = Fault AssertFailure.
Proof.
  intros Ht Hpk Hcn Hc Hv Hkey. rewrite <-(set_pkg_id pk k r Hpk). simpl.
  eexists _, _, _. split; [by eapply fetch_refused|]. split; [apply lookup_insert_eq|]. simpl.
  rewrite set_pkg_add_io. eapply final_aio_refused; try done. intros E. apply Hc. by left.
Qed.

Lemma substring_app n s1 s2 : n ≤ String.length s1 → String.substring 0 n (s1 ++ s2) = String.substring 0 n s1.
Proof.
  revert s1. induction n as [|n IH]; intros [|a s1] Hn; simpl in *; try done; [by destruct s2|lia|].
  by rewrite IH by lia.
Qed.

Lemma body_key_long u off : MAXKEYS - 1 ≤ String.length (cstr u) → body_key u off = head_key u.
Proof. by apply substring_app. Qed.

(** [pk] is being sent the block [d] of the header of its name, and nothing is
    wrong. *)
Definition repeating pk u cn (d : loc) (n : Z) (w : server OSt F) : Prop :=
  ∃ k e, tidy w.2 ∧ wf w.1 [] ∧ pkgs (web w.2) !! pk = Some k ∧ conns_of w.2 !! cpn k = Some cn ∧
    uri k = Some u ∧ wst (rsp k) = WS_BODY ∧ bodykey (rsp k) = Some (head_key u) ∧
    view w.1 (head_key u) = Some e ∧ isReserved e = false ∧ Cache.data e = Some d ∧ Cache.size e = n ∧
    (1 < refCount e < size_t_mod)%Z ∧ (currentSize_ w.1 ≤ sizeQuota_ w.1)%Z.
(** The write that sends it. *)
Definition header_again pk cn (d : loc) (n : Z) : io := mkIo BodyRio pk (cfd cn) (Some d) n 0.

(** The block that follows is found in the cache: it is the header. *)
Lemma repeat_block pk u cn d e k c r :
  tidy r → wf c [] → conns_of r !! cpn k = Some cn → ¬ closing cn → uri k = Some u →
  MAXKEYS - 1 ≤ String.length (cstr u) → view c (head_key u) = Some e → isReserved e = false →
  Cache.data e = Some d → (1 ≤ refCount e < size_t_mod - 1)%Z → (currentSize_ c ≤ sizeQuota_ c)%Z →
  ∃ c' r', svr_http_body call_closure pk (c, set_pkg pk k r) = Ok (tt, (c', r')) ∧ heap c' = heap c ∧
    repeating pk u cn d (Cache.size e) (c', r') ∧ ios r' = <[io_next r := header_again pk cn d (Cache.size e)]> (ios r).
Proof.
  intros Ht Hwf Hcn Hc Hu Hlong He Hr Hd Href Hq. destruct (view_entry _ _ _ Hwf He) as (p & Hp & He').
  assert (is_size (refCount e + 1)) as Hsz by (unfold is_size; lia).
  eexists _, _. split.
  { eapply body_hit; [apply call_body|exact Ht|exact Hcn|exact Hc|exact Hwf|exact Hu|by rewrite body_key_long|exact He'|exact Hr|exact Hd]. }
  split; [done|]. split; [|done]. eexists _, _. simpl.
  split; [done|]. split; [by apply hit_state_wf; [| |lia|]|]. split; [apply lookup_insert_eq|]. simpl.
  split; [exact Hcn|]. split; [done|]. split; [done|]. rewrite body_key_long by done. split; [done|].
  split; [by rewrite (hit_state_view (head_key u)), decide_True|]. simpl. repeat (split; [done|]). split; [lia|done].
Qed.

(** The write of it ends, and the next one is the same. *)
Lemma repeat_round pk u cn d n id t c r :
  ¬ closing cn → MAXKEYS - 1 ≤ String.length (cstr u) → t ≠ [] →
  repeating pk u cn d n (c, r) → ios r !! id = Some (header_again pk cn d n) →
  ∃ c' r', exec (Complete id (Done t)) (c, r) = Ok (tt, (c', r')) ∧ heap c' = heap c ∧
    repeating pk u cn d n (c', r') ∧ ios r' !! io_next r = Some (header_again pk cn d n).
Proof.
  intros Hc Hlong Ht (k & e & Htidy & Hwf & Hk & Hcn & Hu & Hw & Hb & He & Hr & Hd & Hn & Href & Hq) Hio. simpl in *.
  destruct (view_entry _ _ _ Hwf He) as (p & Hp & He'). rewrite Hio. simpl. fold (del_io id r).
  rewrite <-(set_pkg_id pk k (del_io id r)) by done.
  erewrite body_rio_next; try done; [|unfold is_size; lia|lia].
  rewrite decide_True by (destruct t; [done|simpl; lia]).
  destruct (release_state_wf (head_key u) p e c Hwf Hp He') as [Hwf' Hv]; [lia|].
  destruct (repeat_block pk u cn d (with_refCount (refCount e - 1) e) (advanced (Z.of_nat (length t)) k) (release_state p e c) (del_io id r))
    as (c' & r' & Hrun & Hheap & Hrep & Hios); try done; [by rewrite Hv, decide_True|simpl; lia|].
  exists c', r'. split; [exact Hrun|]. split; [done|]. split; [by rewrite <-Hn|]. rewrite Hios, <-Hn. apply lookup_insert_eq.
Qed.

(** Writes end one after another, with these bytes: that of the operation [id],
    then that of the operation that this starts, and so on. *)
Fixpoint writes_end (id : loc) (ts : list text) : prog (server OSt F) unit :=
  match ts with
  | [] => pret tt
  | t :: ts => λ w, (exec (Complete id (Done t)) ;;; writes_end (io_next w.2) ts) w
  end.

Lemma repeat_rounds pk u cn d n ts : ¬ closing cn → MAXKEYS - 1 ≤ String.length (cstr u) → Forall (.≠ []) ts →
  ∀ id c r, repeating pk u cn d n (c, r) → ios r !! id = Some (header_again pk cn d n) →
  ∃ w' id', writes_end id ts (c, r) = Ok (tt, w') ∧ heap w'.1 = heap c ∧
    repeating pk u cn d n w' ∧ ios w'.2 !! id' = Some (header_again pk cn d n).
Proof.
  intros Hc Hlong. induction 1 as [|t ts Ht _ IH]; intros id c r Hrep Hio; [by exists (c, r), id|].
  destruct (repeat_round pk u cn d n id t c r) as (c1 & r1 & Hx & Hh & Hrep1 & Hio1); [done..|].
  destruct (IH (io_next r) c1 r1 Hrep1 Hio1) as (w' & id' & Hx' & Hh' & ?). exists w', id'.
  split; [simpl; by erewrite pbind_ok by exact Hx|]. split; [by rewrite Hh', Hh|done].
Qed.

(** C37: Keys are cut after 255 characters, so for a longer name every block of
    the body has the key of the header.  Once the header of such a name was sent
    from the cache, what is sent next is the header again, in place of the first
    block, and so on without end: however many of these writes end, each with
    any bytes of it, none faults, and the next one is under way, of the same
    text to the same connection. *)
Theorem long_name_repeats_header pk k r c cn u e d s id n len off t ts :
  tidy r → wf c [] → pkgs (web r) !! pk = Some k → conns_of r !! cpn k = Some cn → ¬ closing cn →
  uri k = Some u → MAXKEYS - 1 ≤ String.length (cstr u) → hsn (rsp k) = N_200 →
  view c (head_key u) = Some e → isReserved e = false → Cache.data e = Some d → heap c !! d = Some (BData s) →
  (1 ≤ refCount e < size_t_mod - 1)%Z → (currentSize_ c ≤ sizeQuota_ c)%Z →
  ios r !! id = Some (mkIo HeaderToBodyAio pk n (Some d) len off) → Forall (.≠ []) ts →
  ∃ w' id' k', writes_end id (t :: ts) (c, r) = Ok (tt, w') ∧
    ios w'.2 !! id' = Some (header_again pk cn d (Cache.size e)) ∧ heap w'.1 !! d = Some (BData s) ∧
    pkgs (web w'.2) !! pk = Some k' ∧ uri k' = Some u ∧ wst (rsp k') = WS_BODY.
Proof.
  intros Ht Hwf Hpk Hcn Hc Hu Hlong Hsn He Hr Hd Hs Href Hq Hio Hts.
  destruct (repeat_block pk u cn d e (header_sent k) c (del_io id r)) as (c1 & r1 & Hx & Hh & Hrep & Hios); try done.
  destruct (repeat_rounds pk u cn d (Cache.size e) ts Hc Hlong Hts (io_next r) c1 r1 Hrep) as (w' & id' & Hx' & Hh' & Hrep' & Hio').
  { rewrite Hios. apply lookup_insert_eq. }
  destruct Hrep' as (k' & _ & _ & _ & Hk' & _ & Hu' & Hw' & _). exists w', id', k'.
  split; [|by rewrite Hh', Hh].
  change (writes_end id (t :: ts) (c, r)) with ((exec (Complete id (Done t)) ;;; writes_end (io_next r) ts) (c, r)).
  erewrite pbind_ok; [exact Hx'|]. simpl. rewrite Hio. simpl. fold (del_io id r).
  rewrite <-(set_pkg_id pk k (del_io id r)) by done. rewrite header_to_body_run, decide_True by done. exact Hx.
Qed.

End clients.

(** ** Witnesses *)

Definition t_usable : Platform := {| usable := S; freed_readable := true |}.
#[local] Existing Instance t_usable.

(** A connection on which the request for [u] is fetched, and an empty cache. *)
Definition t_pkg (u v : string) (x : reply) : HPKG :=
  mkHPKG HS_UNKNOWN (Some (take 3 GET)) (Some (txt u)) (Some (txt v)) x 2 (Some 1%positive) None None.
Definition t_rest (k : HPKG) : rest (list Z) :=
  mkRest (mkWorld {[3%positive := k]} 4%positive test_net1 [] []) ∅ 1%positive.
Definition t_cache : Cache closure (FastFIFO.FastFIFO loc) := new_cache MAXCSIZE ∅ 1%positive.

Lemma t_cache_wf : wf t_cache [].
Proof. by apply wf_new. Qed.

Lemma fetch_correct_witness :
  ∃ c' r' k' d n s,
    run_task (Fetch 3%positive) (t_cache, t_rest (t_pkg "a" "HTTP/1.1" new_reply)) = Ok (tt, (c', r')) ∧
    heap c' !! d = Some (BData s) ∧ headkey (rsp k') = Some "a" ∧ s = file_header 1 5 [5; 4; 3]%Z ∧
    ios r' = <[1%positive := mkIo HeaderToBodyAio 3 4 (Some d) n 0]> ∅.
Proof.
  pose proof (fetch_correct 3%positive (t_pkg "a" "HTTP/1.1" new_reply)
    (t_rest (t_pkg "a" "HTTP/1.1" new_reply)) t_cache test_child 5 [5; 4; 3]%Z
    eq_refl t_cache_wf eq_refl eq_refl eq_refl) as H.
  destruct H as (c' & r' & k' & d & n & s & H1 & H2 & H3 & H4 & H5).
  - intros u e _ He. by vm_compute in He.
  - by intros u [= <-].
  - destruct H5 as (H5 & H6 & H7 & (e' & _ & _ & _ & _ & H8 & _) & _).
    exists c', r', k', d, n, s. split; [exact H1|]. split; [exact H2|].
    split; [etransitivity; [exact H6|by vm_compute]|]. split; [exact H8|exact H5].
Defined.

Lemma failed_refusal_witness :
  ∃ o c' r', run_task (Fetch 3%positive) (t_cache, t_rest (t_pkg "a" "HTTP/2" new_reply)) = Ok (tt, (c', r')) ∧
    ios r' !! 1%positive = Some o ∧ run_io o Failed (c', r') = Fault AssertFailure.
Proof.
  apply (failed_refusal 3%positive (t_pkg "a" "HTTP/2" new_reply) (t_rest (t_pkg "a" "HTTP/2" new_reply))
    t_cache test_child); [done..|apply w_open|done|done].
Defined.

(** A name of 300 characters, and the state after its header was sent. *)
Definition t_name : string := String.string_of_list_ascii (replicate 300 "a"%char).
Definition t_sent : HPKG := t_pkg t_name "HTTP/1.1" (with_hsn N_200 new_reply).
Definition t_header : Cache closure (FastFIFO.FastFIFO loc) := header_put 3 (txt t_name) "HTTP/1.1 200 OK" t_cache.

Definition t_long : rest (list Z) :=
  add_io (mkIo HeaderToBodyAio 3 4 (Some 5%positive) 15 0) (t_rest t_sent).

(** A hundred writes end, and the header is still being sent. *)
Lemma long_name_repeats_header_witness :
  ∃ w' id', writes_end 1 (txt "HTTP/1.1 200 OK" :: replicate 100 (txt "HTTP")) (t_header, t_long) = Ok (tt, w') ∧
    ios w'.2 !! id' = Some (mkIo BodyRio 3 4 (Some 5%positive) 15 0) ∧ heap w'.1 !! 5%positive = Some (BData "HTTP/1.1 200 OK").
Proof.
  destruct (long_name_repeats_header 3%positive t_sent t_long t_header test_child (txt t_name)
    (filled (waiting_entry t_cache) (Some 5%positive) 15) 5%positive "HTTP/1.1 200 OK" 1%positive 4 15 0
    (txt "HTTP/1.1 200 OK") (replicate 100 (txt "HTTP"))) as (w' & id' & _ & H1 & H2 & H3 & _); try reflexivity.
  - by apply header_put_wf; [apply t_cache_wf|].
  - apply w_open.
  - apply (bool_decide_unpack _). by vm_compute.
  - by vm_compute.
  - by vm_compute.
  - apply Forall_replicate. discriminate.
  - exists w', id'. split; [exact H1|]. split; [exact H2|exact H3].
Defined.

End HttpRun.
