(* ===== verification/HttpInv.v ===== *)
(** The sessions of the running web server.

    A [session] says of a connection which package reads, which requests are
    left, and the one thing that will go on with it: a posted task, an
    asynchronous operation, or a callback that waits in the cache.  [inv_rest]
    relates the sessions to packages, connections, tasks and operations; the
    lemmas are the moves of a session that keep it.  While a handler runs, its
    session has [CRun], or [CDead] if what it waits for is being cancelled. *)
From S2P Require Import Prelude FastFIFO Cache CacheProps CacheRun Connection HttpParse HttpHandlers HttpRun.

Module HttpInv.
Import Connection HttpParse Cache CacheProps CacheRun HttpHandlers HttpRun.

(** ** Keys *)

Definition has_hash (s : string) : Prop := "#"%char ∈ String.list_ascii_of_string s.
#[global] Instance has_hash_dec s : Decision (has_hash s).
Proof. unfold has_hash. apply _. Defined.

(** A URI whose keys for the header and for the body cannot be the same. *)
Definition plain (u : text) : Prop := ¬ has_hash (cstr u) ∧ String.length (cstr u) < MAXKEYS - 1.

Lemma list_ascii_substring n s :
  String.list_ascii_of_string (String.substring 0 n s) = take n (String.list_ascii_of_string s).
Proof. revert n. induction s as [|a s IH]; intros [|n]; simpl; [done..|]. by rewrite IH. Qed.

Lemma list_ascii_app s1 s2 :
  String.list_ascii_of_string (s1 ++ s2) =
  String.list_ascii_of_string s1 ++ String.list_ascii_of_string s2.
Proof. induction s1 as [|a s1 IH]; simpl; [done|]. by rewrite <-IH. Qed.

Lemma length_list_ascii s : length (String.list_ascii_of_string s) = String.length s.
Proof. induction s as [|a s IH]; simpl; [done|]. by rewrite IH. Qed.

Lemma length_string_of_list (t : text) : String.length (String.string_of_list_ascii t) = length t.
Proof. by rewrite <-length_list_ascii, String.list_ascii_of_string_of_list_ascii. Qed.

Lemma head_key_plain u : plain u → ¬ has_hash (head_key u).
Proof.
  intros [Hu _] H. apply Hu. unfold has_hash, head_key in *. rewrite list_ascii_substring in H.
  by eapply elem_of_take in H as (? & ? & _); eapply list_elem_of_lookup_2.
Qed.

Lemma body_key_hash u off : plain u → has_hash (body_key u off).
Proof.
  intros [_ Hl]. unfold has_hash, body_key. rewrite list_ascii_substring, !list_ascii_app.
  apply elem_of_take. exists (String.length (cstr u)).
  split; [|by rewrite <-?length_list_ascii in *].
  rewrite lookup_app_r by (by rewrite length_list_ascii). by rewrite length_list_ascii, Nat.sub_diag.
Qed.

(** ** Sessions *)

(** What a session holds while it writes from the cache: a reference to a key,
    and the buffer and the length of the entry. *)
Record hold := mkHold { h_key : string; h_buf : loc; h_len : Z }.

Inductive cont :=
  | CRun
  | CTask (t : task)
  | CIo (id : loc) (held : option hold)
  | CWait (key : string) (cb : loc) (file : option loc)
  | CDead (key : string) (cb : loc).

(** The package that reads, the requests that are left, and how it goes on. *)
Record session := mkSession { s_parent : loc; s_rest : list loc; s_cont : cont }.

Definition active (s : session) : loc := default (s_parent s) (head (s_rest s)).
Definition own_pkgs (s : session) : list loc := s_parent s :: s_rest s.
Definition with_cont ct (s : session) := mkSession (s_parent s) (s_rest s) ct.

(** The callback [cb] of the session waits for [key]. *)
Definition waits (s : session) (key : string) (cb : loc) : Prop :=
  (∃ f, s_cont s = CWait key cb f) ∨ s_cont s = CDead key cb.

(** Nothing outside of the session refers to it, but for a waiting callback. *)
Definition idle (ct : cont) : Prop :=
  match ct with CRun | CWait _ _ None | CDead _ _ => True | _ => False end.

Definition owns_io (ct : cont) (id : loc) : Prop :=
  match ct with
  | CIo id' _ => id' = id
  | CWait _ _ (Some id') => id' = id
  | _ => False
  end.

#[global] Instance hold_eq_dec : EqDecision hold.
Proof. solve_decision. Defined.
#[global] Instance cont_eq_dec : EqDecision cont.
Proof. solve_decision. Defined.
#[global] Instance owns_io_dec ct id : Decision (owns_io ct id).
Proof. destruct ct as [| | |? ? []|]; unfold owns_io; apply _. Defined.

Section inv.
Context {OSt F : Type} `{HO : OS OSt}.
Abbreviation rest := (rest OSt).
(** The listening connection. *)
Variable L : loc.
Implicit Types (r : rest) (s : session) (k : HPKG) (S : gmap loc session) (o : option session).

(** ** Packages, connections, tasks and operations *)

Definition parent_rest k : Prop :=
  hfd (rsp k) = (-1)%Z ∧ ch_p (cbody (rsp k)) = None ∧ ch_cached (chead (rsp k)) = false.
Definition parent_facts (cn : loc) (rest : list loc) k : Prop :=
  cpn k = cn ∧ ppg k = None ∧ lcg k = last rest ∧ parent_rest k.

Definition child_facts (cn P : loc) (sib : option loc) k : Prop :=
  cpn k = cn ∧ ppg k = Some P ∧ nsg k = sib.

(** A request on its way: nothing of its own is to be freed. *)
Definition plain_uri k : Prop := ∃ u, uri k = Some u ∧ plain u ∧ (0 ≤ tr_offset (rsp k))%Z.
Definition served k : Prop := frees k = [] ∧ plain_uri k.
(** It asks for the block of its file at its offset. *)
Definition asks k : Prop := ∃ u, uri k = Some u ∧ plain u ∧ (0 ≤ tr_offset (rsp k))%Z ∧
  bodykey (rsp k) = Some (body_key u (tr_offset (rsp k))).
Definition serving k : Prop := frees k = [] ∧ asks k.

(** The operation writes what is held. *)
Definition writes_held (x : io) (held : option hold) : Prop :=
  ∃ h, held = Some h ∧ io_buf x = Some (h_buf h) ∧ io_len x = h_len h.

Definition io_facts (x : io) s (held : option hold) k : Prop :=
  io_pk x = active s ∧
  match io_ok x with
  | ParseAio => s_rest s = [] ∧ hst k = HS_READING ∧ io_buf x = ch_p (chead (rsp k)) ∧
      is_Some (io_buf x) ∧ held = None ∧ io_len x = (Z.of_nat MAXRH - 1)%Z
  | HeaderToBodyAio => s_rest s ≠ [] ∧ hst k = HS_WRITING ∧ wst (rsp k) = WS_HEAD ∧
      h_key <$> held = headkey (rsp k) ∧ writes_held x held ∧ served k ∧ tr_offset (rsp k) = 0%Z ∧
      ∃ u, uri k = Some u ∧ headkey (rsp k) = Some (head_key u)
  | BodyRio => s_rest s ≠ [] ∧ hst k = HS_WRITING ∧
      (wst (rsp k) = WS_BODY ∧ h_key <$> held = bodykey (rsp k) ∧ writes_held x held ∧ serving k ∨
       wst (rsp k) = WS_HEAD ∧ held = None ∧ io_buf x = ch_p (chead (rsp k)) ∧ is_Some (io_buf x) ∧
         ch_cached (chead (rsp k)) = false)
  | BodyPio => False
  end.

(** What a session that reads the file for a block [b] has started. *)
Definition file_facts (x : io) s (b : loc) k : Prop :=
  io_ok x = BodyPio ∧ io_pk x = active s ∧ io_buf x = Some b ∧ ch_p (cbody (rsp k)) = Some b ∧
  io_len x = MAXWB ∧ io_off x = tr_offset (rsp k).

Definition cont_ok r s k : Prop :=
  match s_cont s with
  | CRun => True
  | CTask t => t ∈ tasks (web r) ∧
      match t with
      | Read l => s_rest s = [] ∧ l = s_parent s
      | Fetch l => head (s_rest s) = Some l ∧ rsp k = new_reply
      end
  | CIo id held => ∃ x, ios r !! id = Some x ∧ io_facts x s held k
  | CDead _ _ => s_rest s ≠ []
  | CWait key cb file =>
      s_rest s ≠ [] ∧ hst k = HS_FETCHING ∧ wst (rsp k) = WS_BODY ∧ bodykey (rsp k) = Some key ∧
      asks k ∧ delete_charn (chead (rsp k)) = [] ∧
      match file with
      | None => frees k = []
      | Some id => ∃ x b, ios r !! id = Some x ∧ file_facts x s b k
      end
  end.

(** On a connection that is being closed there is nothing but tasks and reading. *)
Definition conn_ok r s (c : Conn) : Prop :=
  cpp c = Some L ∧
  (cst c = CS_CONNECTED ∨
   cst c = CS_CLOSING_W ∧
     match s_cont s with
     | CRun | CTask _ | CDead _ _ => True
     | CIo id _ => ∃ x, ios r !! id = Some x ∧ io_ok x = ParseAio
     | CWait _ _ _ => False
     end).

Record session_ok r (cn : loc) s : Prop := {
  so_nodup : NoDup (own_pkgs s);
  so_listen : cn ≠ L;
  so_conn : ∃ c, conns_of r !! cn = Some c ∧ conn_ok r s c;
  so_parent : ∃ k, pkgs (web r) !! s_parent s = Some k ∧ parent_facts cn (s_rest s) k;
  so_child : ∀ i l, s_rest s !! i = Some l → ∃ k, pkgs (web r) !! l = Some k ∧
    child_facts cn (s_parent s) (s_rest s !! Datatypes.S i) k ∧ (0 < i → rsp k = new_reply);
  so_cont : ∀ k, pkgs (web r) !! active s = Some k → cont_ok r s k;
}.

Record inv_rest (run : option loc) r S : Prop := {
  ir_session : ∀ cn s, S !! cn = Some s → session_ok r cn s;
  ir_run : ∀ cn s, S !! cn = Some s → s_cont s = CRun ↔ run = Some cn;
  ir_pkgs : ∀ l k, pkgs (web r) !! l = Some k → ∃ s, S !! cpn k = Some s ∧ l ∈ own_pkgs s;
  ir_tasks : ∀ t, t ∈ tasks (web r) → ∃ cn s, S !! cn = Some s ∧ s_cont s = CTask t;
  ir_tasks_nodup : NoDup (tasks (web r));
  ir_ios : ∀ id x, ios r !! id = Some x → ∃ cn s, S !! cn = Some s ∧ owns_io (s_cont s) id;
  ir_next : ∀ l, is_Some (pkgs (web r) !! l) → (l < next (web r))%positive;
  ir_io_next : ∀ id, is_Some (ios r !! id) → (id < io_next r)%positive;
  ir_conn_next : ∀ cn, is_Some (conns_of r !! cn) → (cn < cnext (wnet (web r)))%positive;
  ir_listen : is_Some (conns_of r !! L);
  ir_garbage : tidy r;
}.

Lemma asks_plain k : asks k → plain_uri k.
Proof. intros (u & ? & ? & ? & _). by exists u. Qed.
Lemma serving_served k : serving k → served k.
Proof. intros [? ?%asks_plain]. done. Qed.

(** ** A session in its frame *)

Lemma active_own s : active s ∈ own_pkgs s.
Proof. unfold active, own_pkgs. destruct (s_rest s); set_solver. Qed.

(** All packages of a session are live and belong to its connection. *)
Lemma own_pkg r cn s l :
  session_ok r cn s → l ∈ own_pkgs s → ∃ k, pkgs (web r) !! l = Some k ∧ cpn k = cn.
Proof.
  intros Hs [->|Hl]%elem_of_cons.
  - destruct (so_parent _ _ _ Hs) as (k & Hk & Hf). exists k. split; [done|]. apply Hf.
  - apply list_elem_of_lookup in Hl as [i Hi].
    destruct (so_child _ _ _ Hs i l Hi) as (k & Hk & Hf & _). exists k. split; [done|]. apply Hf.
Qed.

Lemma active_live r cn s :
  session_ok r cn s → ∃ k, pkgs (web r) !! active s = Some k ∧ cpn k = cn ∧ cont_ok r s k.
Proof.
  intros Hs. destruct (own_pkg _ _ _ _ Hs (active_own s)) as (k & Hk & Hcn).
  exists k. split; [done|]. split; [done|]. by apply (so_cont _ _ _ Hs).
Qed.

Lemma active_inj r cn1 cn2 s1 s2 :
  session_ok r cn1 s1 → session_ok r cn2 s2 → active s1 = active s2 → cn1 = cn2.
Proof.
  intros H1 H2 E. destruct (active_live _ _ _ H1) as (k1 & Hk1 & <- & _).
  destruct (active_live _ _ _ H2) as (k2 & Hk2 & <- & _). congruence.
Qed.

Definition task_pkg (t : task) : loc := match t with Fetch l | Read l => l end.

Lemma task_active r cn s t : session_ok r cn s → s_cont s = CTask t → task_pkg t = active s.
Proof.
  intros Hs Ht. destruct (active_live _ _ _ Hs) as (k & _ & _ & Hc). unfold cont_ok in Hc.
  rewrite Ht in Hc. unfold active. destruct t as [l|l]; simpl.
  - destruct Hc as (_ & -> & _). done.
  - destruct Hc as (_ & -> & ->). done.
Qed.

Lemma io_active r cn s id :
  session_ok r cn s → owns_io (s_cont s) id → ∃ x, ios r !! id = Some x ∧ io_pk x = active s.
Proof.
  intros Hs Ho. destruct (active_live _ _ _ Hs) as (k & _ & _ & Hc). unfold cont_ok in Hc.
  destruct (s_cont s) as [| |id' held|key cb [id'|]|]; simpl in Ho; try done; subst id'.
  - destruct Hc as (o & Ho & Hf & _). by exists o.
  - destruct Hc as (_ & _ & _ & _ & _ & _ & o & b & Ho & _ & Hpk & _). by exists o.
Qed.

(** What a step in the session of [cn], which is [o] before and [o'] after it,
    may do to the rest. *)
Definition cont_of o : option cont := s_cont <$> o.
Record frame (cn : loc) o o' r r' : Prop := {
  fr_pkgs : ∀ l k, cpn k ≠ cn → pkgs (web r') !! l = Some k ↔ pkgs (web r) !! l = Some k;
  fr_own : ∀ l k, pkgs (web r') !! l = Some k → cpn k = cn → ∃ s', o' = Some s' ∧ l ∈ own_pkgs s';
  fr_conns : ∀ cn2, cn2 ≠ cn → cn2 ≠ L → conns_of r' !! cn2 = conns_of r !! cn2;
  fr_listen : is_Some (conns_of r' !! L);
  fr_tasks : ∀ t, t ∈ tasks (web r') → cont_of o' = Some (CTask t) ∨ t ∈ tasks (web r) ∧ cont_of o ≠ Some (CTask t);
  fr_tasks_back : ∀ t, t ∈ tasks (web r) → t ∈ tasks (web r') ∨ cont_of o = Some (CTask t);
  fr_tasks_nodup : NoDup (tasks (web r'));
  fr_ios : ∀ id x, ios r' !! id = Some x →
    (∃ ct, cont_of o' = Some ct ∧ owns_io ct id) ∨
    ios r !! id = Some x ∧ ∀ ct, cont_of o = Some ct → ¬ owns_io ct id;
  fr_ios_back : ∀ id x, ios r !! id = Some x → ios r' !! id = Some x ∨ ∃ ct, cont_of o = Some ct ∧ owns_io ct id;
  fr_next : ∀ l, is_Some (pkgs (web r') !! l) → (l < next (web r'))%positive;
  fr_io_next : ∀ id, is_Some (ios r' !! id) → (id < io_next r')%positive;
  fr_conn_next : ∀ c, is_Some (conns_of r' !! c) → (c < cnext (wnet (web r')))%positive;
  fr_garbage : tidy r';
}.

Lemma frame_io cn o o' r r' cn2 s2 id x :
  frame cn o o' r r' → (∀ s, o = Some s → session_ok r cn s) → session_ok r cn2 s2 → cn2 ≠ cn →
  ios r !! id = Some x → owns_io (s_cont s2) id → ios r' !! id = Some x.
Proof.
  intros Hf Hs H2 Hne Ho Hown.
  destruct (fr_ios_back _ _ _ _ _ Hf _ _ Ho) as [|(ct & Hct & Hcn)]; [done|].
  destruct o as [s|]; [|done]. injection Hct as <-.
  destruct (io_active _ _ _ _ (Hs s eq_refl) Hcn) as (o1 & Ho1 & E1), (io_active _ _ _ _ H2 Hown) as (o2 & Ho2 & E2).
  exfalso. apply Hne. eapply active_inj; [done|by apply Hs|]. congruence.
Qed.

Lemma frame_other cn o o' r r' cn2 s2 :
  frame cn o o' r r' → (∀ s, o = Some s → session_ok r cn s) → session_ok r cn2 s2 → cn2 ≠ cn →
  session_ok r' cn2 s2.
Proof.
  intros Hf Hs H2 Hne. pose proof H2 as [Hnd HL2 Hcn Hpar Hch Hcont].
  assert (∀ l k, cpn k = cn2 → pkgs (web r) !! l = Some k → pkgs (web r') !! l = Some k) as Hpk.
  { intros l k Hk Hl. apply (fr_pkgs _ _ _ _ _ Hf); [congruence|done]. }
  assert (∀ id x, ios r !! id = Some x → owns_io (s_cont s2) id → ios r' !! id = Some x) as Hio.
  { intros id x. by eapply frame_io. }
  destruct (active_live _ _ _ H2) as (ka & Hka & Hcna & Hcka).
  constructor; [done|done|..].
  - destruct Hcn as (c & Hc & Hcp & Hst). exists c.
    rewrite (fr_conns _ _ _ _ _ Hf) by done. split; [done|]. split; [done|].
    destruct Hst as [?|[? Hct]]; [by left|]. right. split; [done|].
    destruct (s_cont s2) as [| |id held| |]; try done. destruct Hct as (x & Hx & ?). exists x. by split; [apply Hio|].
  - destruct Hpar as (k & Hk & Hf'). exists k. split; [apply Hpk; [apply Hf'|done]|done].
  - intros i l Hi. destruct (Hch i l Hi) as (k & Hk & Hf' & ?). exists k.
    split; [apply Hpk; [apply Hf'|done]|done].
  - intros k Hk. assert (k = ka) as -> by (pose proof (Hpk _ _ Hcna Hka); congruence).
    unfold cont_ok in *. destruct (s_cont s2) as [|t|id held|key cb file|] eqn:E; [done| | | |done].
    + destruct Hcka as [Ht Ht']. split; [|done].
      destruct (fr_tasks_back _ _ _ _ _ Hf _ Ht) as [|Hcn']; [done|]. exfalso. apply Hne.
      destruct o as [s|]; [|done]. injection Hcn' as Hcn'.
      eapply active_inj; [exact H2|by apply Hs|].
      rewrite <-(task_active _ _ _ _ (Hs s eq_refl) Hcn'). symmetry. by eapply task_active.
    + destruct Hcka as (x & Hx & Hfa). exists x. split; [apply Hio; done|done].
    + destruct Hcka as (? & ? & ? & ? & ? & ? & Hfile). repeat (split; [done|]).
      destruct file as [id|]; [|done]. destruct Hfile as (x & b & Hx & ?). exists x, b.
      split; [apply Hio; done|done].
Qed.

Lemma inv_frame run run' r r' S S' cn o o' :
  inv_rest run r S → S !! cn = o → S' !! cn = o' → (∀ cn2, cn2 ≠ cn → S' !! cn2 = S !! cn2) →
  (∀ s', o' = Some s' → session_ok r' cn s' ∧ (s_cont s' = CRun ↔ run' = Some cn)) →
  frame cn o o' r r' → (∀ cn2, cn2 ≠ cn → run = Some cn2 ↔ run' = Some cn2) →
  inv_rest run' r' S'.
Proof.
  intros HI HS HS' Hsame Hs' Hf Hrun'.
  assert (∀ s, o = Some s → session_ok r cn s) as Hs by (intros s ->; by apply (ir_session _ _ _ HI)).
  assert (∀ cn2 s2, S' !! cn2 = Some s2 → cn2 = cn ∧ o' = Some s2 ∨ cn2 ≠ cn ∧ S !! cn2 = Some s2) as Hcase.
  { intros cn2 s2 H2. destruct (decide (cn2 = cn)) as [->|Hne]; [left; split; congruence|right].
    by rewrite <-Hsame. }
  constructor; try apply Hf.
  - intros cn2 s2 [[-> H2]|[Hne H2]]%Hcase; [by apply Hs'|].
    eapply frame_other; [done..|by eapply ir_session|done].
  - intros cn2 s2 [[-> H2]|[Hne H2]]%Hcase; [by apply Hs'|].
    rewrite (ir_run _ _ _ HI _ _ H2). by apply Hrun'.
  - intros l k Hk. destruct (decide (cpn k = cn)) as [E|Hne].
    + destruct (fr_own _ _ _ _ _ Hf _ _ Hk E) as (s' & -> & Hl). exists s'. by rewrite E.
    + rewrite Hsame by done. eapply ir_pkgs; [done|]. by apply (fr_pkgs _ _ _ _ _ Hf).
  - intros t Ht. destruct (fr_tasks _ _ _ _ _ Hf _ Ht) as [Hc|[Ht' Hc]].
    + destruct o' as [s'|]; [|done]. injection Hc as Hc. by exists cn, s'.
    + destruct (ir_tasks _ _ _ HI _ Ht') as (cn2 & s2 & H2 & Hc2). exists cn2, s2.
      rewrite Hsame; [done|]. intros ->. apply Hc. rewrite <-HS, H2. simpl. by rewrite Hc2.
  - intros id x Hx. destruct (fr_ios _ _ _ _ _ Hf _ _ Hx) as [(ct & Hc & Hct)|[Hx' Hc]].
    + destruct o' as [s'|]; [|done]. injection Hc as <-. by exists cn, s'.
    + destruct (ir_ios _ _ _ HI _ _ Hx') as (cn2 & s2 & H2 & Hc2). exists cn2, s2.
      rewrite Hsame; [done|]. intros ->. apply (Hc (s_cont s2)); [|done]. by rewrite <-HS, H2.
Qed.

(** ** Moves of the active package *)

Definition links k k' : Prop := cpn k' = cpn k ∧ ppg k' = ppg k ∧ lcg k' = lcg k ∧ nsg k' = nsg k.

Lemma session_update r r' cn s ct k k' :
  session_ok r cn s → pkgs (web r) !! active s = Some k →
  pkgs (web r') = <[active s := k']> (pkgs (web r)) →
  links k k' → (s_rest s = [] → parent_rest k') →
  (∃ c, conns_of r' !! cn = Some c ∧ conn_ok r' (with_cont ct s) c) →
  cont_ok r' (with_cont ct s) k' → session_ok r' cn (with_cont ct s).
Proof.
  intros [Hnd HLn _ (kp & Hkp & Hpf) Hch Hcont] Hk Hpk (L1 & L2 & L3 & L4) Hpr Hconn Hct.
  constructor; [done|done|done|..].
  - simpl. rewrite Hpk. destruct (s_rest s) as [|a rest'] eqn:Er.
    + unfold active in *. rewrite Er in *. simpl in *. rewrite lookup_insert_eq.
      exists k'. split; [done|]. assert (kp = k) as -> by congruence.
      destruct Hpf as (? & ? & ? & _). split_and!; [congruence..|by apply Hpr].
    + exists kp. rewrite lookup_insert_ne; [done|]. unfold active. rewrite Er. simpl. intros ->.
      unfold own_pkgs in Hnd. rewrite Er in Hnd. apply NoDup_cons in Hnd as [Hnin _]. apply Hnin. left.
  - simpl. intros i l Hi. destruct (Hch i l Hi) as (kc & Hkc & Hcf & Hnew). rewrite Hpk.
    destruct (decide (l = active s)) as [->|Hne].
    + rewrite lookup_insert_eq. assert (kc = k) as -> by congruence.
      exists k'. split; [done|]. destruct Hcf as (? & ? & ?). split; [split_and!; congruence|].
      intros Hi0. exfalso. apply NoDup_cons in Hnd as [_ Hnd].
      destruct (s_rest s) as [|a rest'] eqn:Er; [done|]. unfold active in Hi. rewrite Er in Hi. simpl in Hi.
      pose proof (NoDup_lookup _ i 0 a Hnd Hi eq_refl). lia.
    + exists kc. by rewrite lookup_insert_ne.
  - intros k2 Hk2. assert (active (with_cont ct s) = active s) as Ha by done.
    rewrite Ha, Hpk, lookup_insert_eq in Hk2. by injection Hk2 as <-.
Qed.

Lemma parent_active r cn s k :
  session_ok r cn s → pkgs (web r) !! active s = Some k → s_rest s = [] → parent_rest k.
Proof.
  intros Hs Hk Hr. destruct (so_parent _ _ _ Hs) as (kp & Hkp & Hpf). unfold active in Hk. rewrite Hr in Hk.
  simpl in Hk. rewrite Hk in Hkp. injection Hkp as <-. apply Hpf.
Qed.

Lemma inv_active run run' cn r r' S s ct k k' :
  inv_rest run r S → S !! cn = Some s → pkgs (web r) !! active s = Some k →
  pkgs (web r') = <[active s := k']> (pkgs (web r)) → links k k' → (s_rest s = [] → parent_rest k') →
  (∀ cn2, cn2 ≠ cn → conns_of r' !! cn2 = conns_of r !! cn2) →
  (∃ c, conns_of r' !! cn = Some c ∧ conn_ok r' (with_cont ct s) c) →
  cnext (wnet (web r')) = cnext (wnet (web r)) → next (web r') = next (web r) → tidy r' →
  (∀ t, t ∈ tasks (web r') ↔ t ∈ tasks (web r) ∧ s_cont s ≠ CTask t) → NoDup (tasks (web r')) →
  (∀ t, ct ≠ CTask t) →
  (∀ id x, ios r' !! id = Some x → owns_io ct id ∨ ios r !! id = Some x ∧ ¬ owns_io (s_cont s) id) →
  (∀ id x, ios r !! id = Some x → ios r' !! id = Some x ∨ owns_io (s_cont s) id) →
  (∀ id, is_Some (ios r' !! id) → (id < io_next r')%positive) →
  cont_ok r' (with_cont ct s) k' →
  (ct = CRun ↔ run' = Some cn) → (∀ cn2, cn2 ≠ cn → run = Some cn2 ↔ run' = Some cn2) →
  inv_rest run' r' (<[cn := with_cont ct s]> S).
Proof.
  intros HI HS Hk Hpk Hl Hpr Hcs Hconn Hcx Hnx Hg Ht Htn Hnt Hi1 Hi2 Hi3 Hct Hrun Hrun'.
  pose proof (ir_session _ _ _ HI _ _ HS) as Hs.
  destruct (active_live _ _ _ Hs) as (k2 & Hk2 & Hcn & _). assert (k2 = k) as -> by congruence.
  assert (cpn k' = cn) as Hcn' by (destruct Hl; congruence).
  eapply (inv_frame run run' r r' S _ cn (Some s) (Some (with_cont ct s)));
    [exact HI|exact HS|apply lookup_insert_eq|intros; by apply lookup_insert_ne| | |done].
  { intros s' [= <-]. split; [|done]. by eapply session_update. }
  constructor; rewrite ?Hcx, ?Hnx; try done.
  - intros l k2 Hne. rewrite Hpk. destruct (decide (l = active s)) as [->|Hla].
    + rewrite lookup_insert_eq, Hk. split; intros [= ->]; congruence.
    + by rewrite lookup_insert_ne.
  - intros l k2 Hl2 Hk3. eexists. split; [done|]. change (own_pkgs (with_cont ct s)) with (own_pkgs s).
    rewrite Hpk in Hl2. apply lookup_insert_Some in Hl2 as [[<- _]|[_ Hl2]]; [apply active_own|].
    destruct (ir_pkgs _ _ _ HI _ _ Hl2) as (s2 & Hs2 & Hin). rewrite Hk3 in Hs2. congruence.
  - intros cn2 Hne _. by apply Hcs.
  - rewrite Hcs by (intros <-; by destruct Hs). apply (ir_listen _ _ _ HI).
  - intros t [H1 H2]%Ht. right. split; [done|]. intros [= ?]. done.
  - intros t Htk. destruct (decide (s_cont s = CTask t)) as [E|E]; [right; simpl; by rewrite E|left; by apply Ht].
  - intros id x Hx. destruct (Hi1 id x Hx) as [?|[? Hno]]; [left; by exists ct|right].
    split; [done|]. by intros ct' [= <-].
  - intros id x Hx. destruct (Hi2 id x Hx) as [?|?]; [by left|right]. by eexists.
  - rewrite Hpk. intros l. rewrite lookup_insert_is_Some'.
    intros [<-|Hlv]; apply (ir_next _ _ _ HI); [by eexists|done].
  - intros c [c' Hc']. destruct (decide (c = cn)) as [->|Hne].
    + destruct (so_conn _ _ _ Hs) as (c0 & Hc0 & _). by apply (ir_conn_next _ _ _ HI _ (mk_is_Some _ _ Hc0)).
    + apply (ir_conn_next _ _ _ HI). exists c'. by rewrite <-Hcs.
Qed.

(** What a move leaves as it is. *)
Ltac same HI :=
  first [exact (ir_tasks_nodup _ _ _ HI) | exact (ir_io_next _ _ _ HI) | exact (ir_garbage _ _ _ HI)].

(** The running handler's session after that of [cn] has stopped to run. *)
Definition stop (cn : loc) (run : option loc) : option loc := if decide (run = Some cn) then None else run.

Lemma stop_run cn run ct : ct ≠ CRun → ct = CRun ↔ stop cn run = Some cn.
Proof. unfold stop. intros Hct. split; [done|]. by case_decide. Qed.

Lemma stop_other cn run cn2 : cn2 ≠ cn → run = Some cn2 ↔ stop cn run = Some cn2.
Proof. unfold stop. case_decide; naive_solver. Qed.

Lemma idle_task ct t : idle ct → ct ≠ CTask t.
Proof. by destruct ct. Qed.

Lemma idle_io ct id : idle ct → ¬ owns_io ct id.
Proof. destruct ct as [| | |? ? []|]; simpl; tauto. Qed.

Lemma with_cont_id s : with_cont (s_cont s) s = s.
Proof. by destruct s. Qed.

Lemma links_refl k : links k k.
Proof. done. Qed.

(** A running handler changes its package. *)
Lemma inv_set_pkg cn r S s k k' :
  inv_rest (Some cn) r S → S !! cn = Some s → pkgs (web r) !! active s = Some k →
  links k k' → (s_rest s = [] → parent_rest k') →
  inv_rest (Some cn) (set_pkg (active s) k' r) S.
Proof.
  intros HI HS Hk Hl Hpr. pose proof (ir_session _ _ _ HI _ _ HS) as Hs.
  pose proof (proj2 (ir_run _ _ _ HI _ _ HS) eq_refl) as Hrun.
  cut (inv_rest (Some cn) (set_pkg (active s) k' r) (<[cn := with_cont CRun s]> S)).
  { by rewrite <-Hrun, with_cont_id, insert_id. }
  eapply (inv_active _ _ _ _ _ _ _ CRun k k'); try done; simpl; try same HI.
  - destruct (so_conn _ _ _ Hs) as (c & Hc & Hcp & Hst). exists c. split; [done|]. split; [done|].
    by rewrite Hrun in Hst.
  - intros t. rewrite Hrun. naive_solver.
  - intros id x Hx. right. rewrite Hrun. auto.
  - auto.
Qed.

(** The state of the connection becomes [CS_CLOSING_W]. *)
Lemma inv_set_cst run cn r S s c :
  inv_rest run r S → S !! cn = Some s → conns_of r !! cn = Some c →
  s_cont s = CRun ∨ (∃ key cb, s_cont s = CDead key cb) →
  inv_rest run (set_conn cn (with_cst CS_CLOSING_W c) r) S.
Proof.
  intros HI HS Hc Hct. pose proof (ir_session _ _ _ HI _ _ HS) as Hs.
  destruct (active_live _ _ _ Hs) as (k & Hk & Hcn & Hcont).
  cut (inv_rest run (set_conn cn (with_cst CS_CLOSING_W c) r) (<[cn := with_cont (s_cont s) s]> S)).
  { by rewrite with_cont_id, insert_id. }
  destruct (so_conn _ _ _ Hs) as (c0 & Hc0 & Hcp & _). assert (c0 = c) as -> by congruence.
  eapply (inv_active _ _ _ _ _ _ _ (s_cont s) k k); try done; simpl; try same HI; try done.
  - by rewrite insert_id.
  - by eapply parent_active.
  - intros cn2 Hne. unfold conns_of. simpl. by rewrite lookup_insert_ne.
  - exists (with_cst CS_CLOSING_W c). unfold conns_of. simpl. split; [apply lookup_insert_eq|].
    split; [done|]. right. split; [done|]. simpl. by destruct Hct as [-> |(? & ? & ->)].
  - intros t. split; [|tauto]. intros Ht. split; [done|]. by destruct Hct as [-> |(? & ? & ->)].
  - intros t. by destruct Hct as [-> |(? & ? & ->)].
  - intros id x Hx. right. split; [done|]. apply idle_io. by destruct Hct as [-> |(? & ? & ->)].
  - auto.
  - apply (ir_run _ _ _ HI _ _ HS).
Qed.

(** An idle session starts an operation. *)
Lemma inv_start run cn r S s k k' x ct :
  inv_rest run r S → S !! cn = Some s → idle (s_cont s) → pkgs (web r) !! active s = Some k →
  links k k' → (s_rest s = [] → parent_rest k') →
  (∃ held, ct = CIo (io_next r) held ∧ io_facts x s held k') ∨
  (∃ key cb, ct = CWait key cb (Some (io_next r)) ∧
    cont_ok (add_io x (set_pkg (active s) k' r)) (with_cont ct s) k') →
  (∀ c, conns_of r !! cn = Some c → cst c = CS_CONNECTED ∨ cst c = CS_CLOSING_W ∧ io_ok x = ParseAio ∧ s_rest s = []) →
  inv_rest (stop cn run) (add_io x (set_pkg (active s) k' r)) (<[cn := with_cont ct s]> S).
Proof.
  intros HI HS Hid Hk Hl Hpr Hct Hopen. pose proof (ir_session _ _ _ HI _ _ HS) as Hs.
  assert (ct ≠ CRun) as Hne by naive_solver.
  assert (ios r !! io_next r = None) as Hfr.
  { destruct (ios r !! io_next r) eqn:E; [|done].
    pose proof (ir_io_next _ _ _ HI _ (mk_is_Some _ _ E)). lia. }
  eapply (inv_active _ _ _ _ _ _ _ ct k k'); try done; simpl; try same HI.
  - destruct (so_conn _ _ _ Hs) as (c & Hc & Hcp & _). exists c. split; [done|]. split; [done|].
    destruct (Hopen c Hc) as [?|(? & Ho & Hr)]; [by left|]. right. split; [done|]. simpl.
    destruct Hct as [(held & -> & Hf)|(key & cb & -> & Hf)]; [exists x; by rewrite lookup_insert_eq|].
    destruct Hf as (Hr' & _). by simpl in Hr'.
  - intros t. split; [|tauto]. intros Ht. split; [done|]. by apply idle_task.
  - intros t. destruct Hct as [(held & -> & _)|(key & cb & -> & _)]; done.
  - intros id y [[<- <-]|[Hid2 Hy]]%lookup_insert_Some.
    + left. destruct Hct as [(held & -> & _)|(key & cb & -> & _)]; done.
    + right. split; [done|]. by apply idle_io.
  - intros id y Hy. left. rewrite lookup_insert_ne; [done|]. congruence.
  - intros id. rewrite lookup_insert_is_Some'. intros [<-|H]; [lia|].
    pose proof (ir_io_next _ _ _ HI _ H). lia.
  - destruct Hct as [(held & -> & Hf)|(key & cb & -> & Hf)]; [|exact Hf].
    exists x. simpl. by rewrite lookup_insert_eq.
  - by apply stop_run.
  - intros. by apply stop_other.
Qed.

(** A running handler leaves a callback in the cache. *)
Lemma inv_wait cn r S s k k' key cb :
  inv_rest (Some cn) r S → S !! cn = Some s → pkgs (web r) !! active s = Some k →
  links k k' → (s_rest s = [] → parent_rest k') →
  cont_ok (set_pkg (active s) k' r) (with_cont (CWait key cb None) s) k' →
  (∀ c, conns_of r !! cn = Some c → cst c = CS_CONNECTED) →
  inv_rest None (set_pkg (active s) k' r) (<[cn := with_cont (CWait key cb None) s]> S).
Proof.
  intros HI HS Hk Hl Hpr Hct Hopen. pose proof (ir_session _ _ _ HI _ _ HS) as Hs.
  pose proof (proj2 (ir_run _ _ _ HI _ _ HS) eq_refl) as Hrun.
  eapply (inv_active _ _ _ _ _ _ _ _ k k'); try done; simpl; try same HI.
  - destruct (so_conn _ _ _ Hs) as (c & Hc & Hcp & _). exists c. split; [done|]. split; [done|]. left. by apply Hopen.
  - intros t. rewrite Hrun. naive_solver.
  - intros id x Hx. right. rewrite Hrun. auto.
  - auto.
  - intros cn2 Hne. naive_solver.
Qed.

(** The task or the operation of a session is taken. *)
Lemma inv_take run' cn r r' S s k k' ct :
  inv_rest None r S → S !! cn = Some s → pkgs (web r) !! active s = Some k →
  pkgs (web r') = <[active s := k']> (pkgs (web r)) → links k k' → (s_rest s = [] → parent_rest k') →
  wnet (web r') = wnet (web r) → next (web r') = next (web r) → tidy r' →
  (∀ t, t ∈ tasks (web r') ↔ t ∈ tasks (web r) ∧ s_cont s ≠ CTask t) → NoDup (tasks (web r')) →
  (∀ id x, ios r' !! id = Some x ↔ ios r !! id = Some x ∧ ¬ owns_io (s_cont s) id) →
  io_next r' = io_next r →
  ct = CRun ∧ run' = Some cn ∨ (∃ key cb, ct = CDead key cb) ∧ run' = None ∨
    (∃ key cb, ct = CWait key cb None) ∧ run' = None ∧ (∀ c, conns_of r !! cn = Some c → cst c = CS_CONNECTED) →
  cont_ok r' (with_cont ct s) k' →
  inv_rest run' r' (<[cn := with_cont ct s]> S).
Proof.
  intros HI HS Hk Hpk Hl Hpr Hnet Hnx Hg Ht Hnd Hio Hin Hct Hok.
  pose proof (ir_session _ _ _ HI _ _ HS) as Hs.
  assert (conns_of r' = conns_of r) as Hcs by (unfold conns_of; by rewrite Hnet).
  eapply (inv_active _ _ _ _ _ _ _ ct k k'); try done; simpl.
  - by rewrite Hcs.
  - destruct (so_conn _ _ _ Hs) as (c & Hc & Hcp & Hst). exists c. rewrite Hcs. split; [done|]. split; [done|].
    destruct Hct as [[-> _]|[[(? & ? & ->) _]|[(? & ? & ->) [_ Hopen]]]]; simpl;
      [destruct Hst as [?|[? _]]; tauto..|]. left. by apply Hopen.
  - by rewrite Hnet.
  - intros t. naive_solver.
  - intros id x Hx. right. by apply Hio.
  - intros id x Hx. destruct (decide (owns_io (s_cont s) id)); [by right|left]. by apply Hio.
  - rewrite Hin. intros id [x [Hx _]%Hio]. apply (ir_io_next _ _ _ HI). by exists x.
  - naive_solver.
  - intros cn2 Hne. naive_solver.
Qed.

(** ** The end of a package *)

Definition next_of (P : loc) (rest : list loc) : task :=
  match rest with [] => Read P | g :: _ => Fetch g end.

(** The rest after the child [a] with the contents [k]; the parent had [kp]. *)
Definition child_ended (P a : loc) (rest' : list loc) (kp k : HPKG) r : rest :=
  post (next_of P rest')
    (match rest' with [] => set_pkg P (with_lcg None kp) (del_pkg a k r) | _ => del_pkg a k r end).

Lemma conns_del_pkg l k r : conns_of (del_pkg l k r) = conns_of r.
Proof. unfold conns_of, del_pkg, close_hfd. simpl. by case_decide. Qed.

Lemma cnext_del_pkg l k r : cnext (wnet (web (del_pkg l k r))) = cnext (wnet (web r)).
Proof. unfold del_pkg, close_hfd. simpl. by case_decide. Qed.

Lemma child_ended_conns P a rest' kp k r : conns_of (child_ended P a rest' kp k r) = conns_of r.
Proof. destruct rest'; apply conns_del_pkg. Qed.

Lemma child_ended_lookup P a rest' kp k r l k' :
  P ≠ a → pkgs (web r) !! P = Some kp → pkgs (web (child_ended P a rest' kp k r)) !! l = Some k' ↔
  l ≠ a ∧ if decide (l = P) then k' = (if rest' is [] then with_lcg None kp else kp)
          else pkgs (web r) !! l = Some k'.
Proof.
  intros HPa HP. destruct rest' as [|g rest'']; simpl.
  - rewrite lookup_insert_Some, lookup_delete_Some. case_decide; naive_solver.
  - rewrite lookup_delete_Some. case_decide; naive_solver.
Qed.

Lemma ended_session cn r s a rest' kp k :
  session_ok r cn s → s_rest s = a :: rest' → pkgs (web r) !! s_parent s = Some kp →
  session_ok (child_ended (s_parent s) a rest' kp k r) cn
    (mkSession (s_parent s) rest' (CTask (next_of (s_parent s) rest'))).
Proof.
  intros Hs Er HP. pose proof Hs as [Hnd HLn Hcn Hpar Hch Hcont]. unfold own_pkgs in Hnd. rewrite Er in Hnd, Hpar, Hch.
  pose proof Hnd as [HnP Hnd2]%NoDup_cons. apply NoDup_cons in Hnd2 as [Hna Hnd2].
  assert (s_parent s ≠ a) as HPa by set_solver.
  set (t := next_of _ _). set (s' := mkSession _ _ _).
  assert (∀ i l, rest' !! i = Some l → ∃ k2, pkgs (web (child_ended (s_parent s) a rest' kp k r)) !! l = Some k2 ∧
    child_facts cn (s_parent s) (rest' !! Datatypes.S i) k2 ∧ rsp k2 = new_reply) as Hch'.
  { intros i l Hi. destruct (Hch (Datatypes.S i) l Hi) as (k2 & Hk2 & Hf & Hnew). exists k2.
    assert (l ∈ rest') by (by eapply list_elem_of_lookup_2). split; [|split; [done|apply Hnew; lia]].
    apply child_ended_lookup; [done..|]. split; [set_solver|]. rewrite decide_False by set_solver. done. }
  constructor; simpl; [|done|..].
  - unfold own_pkgs. simpl. apply NoDup_cons. split; [set_solver|done].
  - destruct Hcn as (c & Hc & Hcp & Hst). exists c. rewrite child_ended_conns. split; [done|]. split; [done|].
    simpl. tauto.
  - destruct Hpar as (kp' & Hkp' & H1 & H2 & H3 & H4). assert (kp' = kp) as -> by congruence.
    eexists. split; [apply child_ended_lookup; [done..|]; split; [done|by rewrite decide_True]|].
    destruct rest'; by split_and!.
  - intros i l Hi. destruct (Hch' i l Hi) as (k2 & ? & ? & ?). exists k2. done.
  - intros k2 Hk2. unfold cont_ok. simpl. split.
    { destruct rest'; simpl; apply elem_of_app; right; by left. }
    destruct rest' as [|g rest'']; [done|]. simpl. split; [done|].
    destruct (Hch' 0 g eq_refl) as (k3 & Hk3 & _ & Hnew). unfold active in Hk2. simpl in Hk2. simpl in Hk3. congruence.
Qed.

Lemma inv_end_child run cn r S s a rest' kp k :
  inv_rest run r S → S !! cn = Some s → idle (s_cont s) → s_rest s = a :: rest' →
  pkgs (web r) !! s_parent s = Some kp → pkgs (web r) !! a = Some k →
  inv_rest (stop cn run) (child_ended (s_parent s) a rest' kp k r)
    (<[cn := mkSession (s_parent s) rest' (CTask (next_of (s_parent s) rest'))]> S).
Proof.
  intros HI HS Hid Er HP Hk. pose proof (ir_session _ _ _ HI _ _ HS) as Hs.
  assert (s_parent s ≠ a) as HPa.
  { pose proof (so_nodup _ _ _ Hs) as Hnd. unfold own_pkgs in Hnd. rewrite Er in Hnd. apply NoDup_cons in Hnd. set_solver. }
  destruct (so_parent _ _ _ Hs) as (kp' & Hkp' & Hcnp & _). assert (kp' = kp) as -> by congruence.
  destruct (so_child _ _ _ Hs 0 a) as (k' & Hk' & (Hcnk & _) & _); [by rewrite Er|].
  assert (k' = k) as -> by congruence.
  set (r' := child_ended _ _ _ _ _ _).
  assert (∀ t, t ∈ tasks (web r') ↔ t ∈ tasks (web r) ∨ t = next_of (s_parent s) rest') as Ht.
  { intros t. destruct rest'; simpl; rewrite elem_of_app, list_elem_of_singleton; done. }
  assert (ios r' = ios r ∧ io_next r' = io_next r ∧ next (web r') = next (web r) ∧ tidy r' ∧
    cnext (wnet (web r')) = cnext (wnet (web r))) as (Hios & Hion & Hnx & Hg & Hcx).
  { destruct rest'; (split_and!; [done..|apply (cnext_del_pkg a k)]). }
  assert (∀ l k2, pkgs (web r') !! l = Some k2 → is_Some (pkgs (web r) !! l) ∧ l ≠ a) as Hlive.
  { intros l k2 [Hla Hl]%child_ended_lookup; [|done..]. split; [|done]. case_decide; [subst l; by eexists|by eexists]. }
  eapply (inv_frame run (stop cn run) r r' S _ cn (Some s) (Some (mkSession _ _ _)));
    [exact HI|exact HS|apply lookup_insert_eq|intros; by apply lookup_insert_ne| | |intros; by apply stop_other].
  { intros s' [= <-]. split; [by apply ended_session|]. by apply stop_run. }
  constructor; rewrite ?Hios, ?Hion, ?Hnx, ?Hcx; try same HI; try done.
  - intros l k2 Hne. unfold r'. rewrite child_ended_lookup by done. split.
    + intros [_ Hl]. case_decide; [|done]. subst l. exfalso. apply Hne. subst k2. by destruct rest'.
    + intros Hl. split; [congruence|]. rewrite decide_False by congruence. done.
  - intros l k2 Hl Hk2. eexists. split; [done|].
    apply child_ended_lookup in Hl as [Hla Hl]; [|done..]. unfold own_pkgs. simpl. case_decide; [subst l; by left|].
    destruct (ir_pkgs _ _ _ HI _ _ Hl) as (s2 & Hs2 & Hin). rewrite Hk2 in Hs2. assert (s2 = s) as -> by congruence.
    unfold own_pkgs in Hin. rewrite Er in Hin. set_solver.
  - intros cn2 _ _. unfold r'. by rewrite child_ended_conns.
  - unfold r'. rewrite child_ended_conns. apply (ir_listen _ _ _ HI).
  - intros t [Hin| ->]%Ht; [right|by left]. split; [done|]. intros [= Hct]. by eapply idle_task.
  - intros t Hin. left. apply Ht. by left.
  - assert (next_of (s_parent s) rest' ∉ tasks (web r)) as Hn.
    { intros Hin. destruct (ir_tasks _ _ _ HI _ Hin) as (cn2 & s2 & HS2 & Hct2).
      pose proof (ir_session _ _ _ HI _ _ HS2) as Hs2. pose proof (task_active _ _ _ _ Hs2 Hct2) as Ha.
      destruct (active_live _ _ _ Hs2) as (k2 & Hk2 & Hcn2 & _). rewrite <-Ha in Hk2.
      assert (cpn k2 = cn) as E.
      { assert (task_pkg (next_of (s_parent s) rest') ∈ own_pkgs s) as Ho.
        { unfold own_pkgs. rewrite Er. destruct rest'; simpl; set_solver. }
        destruct (own_pkg _ _ _ _ Hs Ho) as (k3 & Hk3 & Hcn3). congruence. }
      assert (cn2 = cn) as -> by congruence. assert (s2 = s) as -> by congruence.
      by eapply idle_task. }
    destruct rest'; simpl; (apply NoDup_app; split; [apply (ir_tasks_nodup _ _ _ HI)|split; [set_solver|apply NoDup_singleton]]).
  - intros id x Hx. right. split; [done|]. intros ct [= <-]. by apply idle_io.
  - auto.
  - intros l [k2 Hl]. apply (ir_next _ _ _ HI). by eapply Hlive.
  - unfold r'. rewrite child_ended_conns. apply (ir_conn_next _ _ _ HI).
Qed.

(** The end of the package that reads, and of its connection. *)
Lemma close_run cn (m : net OSt) c :
  conns m !! cn = Some c → cpp c = Some L → is_Some (conns m !! L) → cn ≠ L →
  ∃ e m', svr_conn_close cn m = Ok (e, m') ∧ cnext m' = cnext m ∧ is_Some (conns m' !! L) ∧
    (∀ cn2, cn2 ≠ cn → cn2 ≠ L → conns m' !! cn2 = conns m !! cn2) ∧
    ∀ cn2, is_Some (conns m' !! cn2) → is_Some (conns m !! cn2).
Proof.
  intros Hc Hp [cl HL] Hne. erewrite close_eq by done. destruct (os_close _ _) as [e s].
  case_match; (eexists _, _; split; [done|]); [by eauto 10|]. simpl. split; [done|]. split; [|split].
  - rewrite lookup_delete_ne, lookup_insert_eq by done. by eexists.
  - intros cn2 H1 H2. by rewrite lookup_delete_ne, !lookup_insert_ne.
  - intros cn2. rewrite lookup_delete_is_Some, !lookup_insert_is_Some'.
    intros [_ [<-|[<-|?]]]; [by eexists|by eexists|done].
Qed.

Definition parent_ended (P : loc) (m : net OSt) r : rest :=
  set_web (mkWorld (delete P (pkgs (web r))) (next (web r)) m (tasks (web r)) []) r.

Lemma inv_end_parent run cn r S s (m : net OSt) :
  inv_rest run r S → S !! cn = Some s → idle (s_cont s) → s_rest s = [] →
  cnext m = cnext (wnet (web r)) → is_Some (conns m !! L) →
  (∀ cn2, cn2 ≠ cn → cn2 ≠ L → conns m !! cn2 = conns_of r !! cn2) →
  (∀ cn2, is_Some (conns m !! cn2) → is_Some (conns_of r !! cn2)) →
  inv_rest (stop cn run) (parent_ended (s_parent s) m r) (delete cn S).
Proof.
  intros HI HS Hid Er Hcx HL Hcs Hcl. pose proof (ir_session _ _ _ HI _ _ HS) as Hs.
  destruct (so_parent _ _ _ Hs) as (k & Hk & Hcn & _).
  eapply (inv_frame run (stop cn run) r _ S _ cn (Some s) None);
    [exact HI|exact HS|apply lookup_delete_eq|intros; by apply lookup_delete_ne|done| |intros; by apply stop_other].
  constructor; try same HI; try done; simpl.
  - intros l k2 Hne. rewrite lookup_delete_Some. split; [tauto|]. intros Hl. split; [congruence|done].
  - intros l k2 [Hne Hl]%lookup_delete_Some Hk2. exfalso. apply Hne.
    destruct (ir_pkgs _ _ _ HI _ _ Hl) as (s2 & Hs2 & Hin). rewrite Hk2, HS in Hs2. injection Hs2 as <-.
    unfold own_pkgs in Hin. rewrite Er in Hin. set_solver.
  - intros t Ht. right. split; [done|]. intros [= Hct]. by eapply idle_task.
  - auto.
  - intros id x Hx. right. split; [done|]. intros ct [= <-]. by apply idle_io.
  - auto.
  - intros l [k2 [_ Hl]%lookup_delete_Some]. apply (ir_next _ _ _ HI). by eexists.
  - intros c Hc. rewrite Hcx. apply (ir_conn_next _ _ _ HI). by apply Hcl.
Qed.

(** ** New sessions *)

(** [svr_conn_accept] has made a connection and a package. *)
Definition accepted (cn : loc) (c cl : Conn) (s : OSt) r : rest :=
  set_web (mkWorld (<[next (web r) := empty_pkg cn]> (pkgs (web r))) (Pos.succ (next (web r)))
    (mkNet (<[cn := c]> (<[L := cl]> (conns_of r))) (Pos.succ cn) s) (tasks (web r)) []) r.

Lemma inv_accept r S c cl (sys : OSt) :
  let cn := cnext (wnet (web r)) in
  inv_rest None r S → cpp c = Some L → cst c = CS_CONNECTED →
  inv_rest (Some cn) (accepted cn c cl sys r) (<[cn := mkSession (next (web r)) [] CRun]> S).
Proof.
  intros cn HI Hp Hc.
  assert (conns_of r !! cn = None) as Hfc.
  { destruct (conns_of r !! cn) eqn:E; [|done]. pose proof (ir_conn_next _ _ _ HI _ (mk_is_Some _ _ E)). unfold cn in *. lia. }
  assert (pkgs (web r) !! next (web r) = None) as Hfp.
  { destruct (pkgs (web r) !! next (web r)) eqn:E; [|done]. pose proof (ir_next _ _ _ HI _ (mk_is_Some _ _ E)). lia. }
  assert (cn ≠ L) as HcL by (intros ->; destruct (ir_listen _ _ _ HI); congruence).
  assert (S !! cn = None) as HfS.
  { destruct (S !! cn) as [s|] eqn:E; [|done]. destruct (so_conn _ _ _ (ir_session _ _ _ HI _ _ E)) as (c2 & ? & _). congruence. }
  eapply (inv_frame None (Some cn) r _ S _ cn None (Some (mkSession _ _ _)));
    [exact HI|exact HfS|apply lookup_insert_eq|intros; by apply lookup_insert_ne| | |].
  - intros s [= <-]. split; [|done]. constructor; simpl; try done.
    + apply NoDup_singleton.
    + exists c. unfold conns_of. simpl. rewrite lookup_insert_eq. split; [done|]. split; [done|by left].
    + rewrite lookup_insert_eq. eexists. split; [done|]. done.
  - constructor; try same HI; try done; simpl.
    + intros l k Hne. rewrite lookup_insert_Some. split; [|intros Hl; right; split; [congruence|done]].
      intros [[<- <-]|[_ ?]]; [|done]. by destruct Hne.
    + intros l k [[<- <-]|[Hne Hl]]%lookup_insert_Some Hk.
      * eexists. split; [done|]. by left.
      * destruct (ir_pkgs _ _ _ HI _ _ Hl) as (s2 & Hs2 & _). congruence.
    + intros cn2 H1 H2. unfold conns_of. simpl. by rewrite !lookup_insert_ne.
    + unfold conns_of. simpl. rewrite lookup_insert_ne, lookup_insert_eq by done. by eexists.
    + auto.
    + auto.
    + intros id x Hx. right. split; [done|]. intros ct. by intros.
    + auto.
    + intros l. rewrite lookup_insert_is_Some'. intros [<-|Hl]; [lia|]. pose proof (ir_next _ _ _ HI _ Hl). lia.
    + unfold conns_of. simpl. intros c2. rewrite !lookup_insert_is_Some'. fold cn. intros [<-|[<-|Hl]]; [lia| |].
      * pose proof (ir_conn_next _ _ _ HI _ (ir_listen _ _ _ HI)). fold cn in H. lia.
      * pose proof (ir_conn_next _ _ _ HI _ Hl). fold cn in H. lia.
  - intros cn2 Hne. split; [done|]. intros [= ->]. done.
Qed.

(** [svr_http_parse] has made children. *)
Definition parsed (w1 : world (OSt := OSt)) (t : task) r : rest :=
  set_web (mkWorld (pkgs w1) (next w1) (wnet w1) (tasks w1 ++ [t]) (garbage w1)) r.

Lemma inv_parse cn r S s k0 gs w1 :
  inv_rest (Some cn) r S → S !! cn = Some s → s_rest s = [] → pkgs (web r) !! s_parent s = Some k0 →
  family (web r) (s_parent s) k0 gs w1 →
  let s' := mkSession (s_parent s) gs.*1 (CTask (next_of (s_parent s) gs.*1)) in
  inv_rest None (parsed w1 (next_of (s_parent s) gs.*1) r) (<[cn := s']> S).
Proof.
  intros HI HS Er HP HF s'. pose proof (ir_session _ _ _ HI _ _ HS) as Hs.
  pose proof (proj2 (ir_run _ _ _ HI _ _ HS) eq_refl) as Hrun.
  destruct (so_parent _ _ _ Hs) as (k & Hk & Hcn & Hpp & Hlc & Hpr). assert (k = k0) as -> by congruence.
  destruct HF as [Hch Hpar Hrest Hnd Hnew Hnext Hnet Htk Hg].
  assert (∀ i l, gs.*1 !! i = Some l → ∃ rq, gs !! i = Some (l, rq)) as Hgs.
  { intros i l Hi. rewrite list_lookup_fmap in Hi. destruct (gs !! i) as [[l' rq]|]; [|done].
    injection Hi as <-. by exists rq. }
  assert (conns_of (parsed w1 (next_of (s_parent s) gs.*1) r) = conns_of r) as Hcs
    by (unfold conns_of; simpl; by rewrite Hnet).
  assert (next_of (s_parent s) gs.*1 ∉ tasks (web r)) as Hnt.
  { intros Hin. destruct (ir_tasks _ _ _ HI _ Hin) as (cn2 & s2 & HS2 & Hct2).
    pose proof (ir_session _ _ _ HI _ _ HS2) as Hs2. pose proof (task_active _ _ _ _ Hs2 Hct2) as Ha.
    destruct (active_live _ _ _ Hs2) as (k2 & Hk2 & Hcn2 & _). rewrite <-Ha in Hk2.
    destruct gs as [|[g rq] gs]; simpl in Hk2.
    - assert (cn2 = cn) as -> by congruence. assert (s2 = s) as -> by congruence. congruence.
    - destruct (Hnew g) as [Hn _]; [by left|]. congruence. }
  eapply (inv_frame (Some cn) None r _ S _ cn (Some s) (Some s'));
    [exact HI|exact HS|apply lookup_insert_eq|intros; by apply lookup_insert_ne| | |].
  - intros s2 [= <-]. split; [|done]. constructor; simpl.
    + apply NoDup_cons. split; [|done]. intros Hin. by apply (Hnew _ Hin).
    + by destruct Hs.
    + destruct (so_conn _ _ _ Hs) as (c & Hc & Hcp & Hst). exists c. rewrite Hcs. split; [done|].
      split; [done|]. simpl. tauto.
    + eexists. split; [exact Hpar|]. split_and!; try done. simpl. by rewrite fmap_last.
    + intros i l Hi. destruct (Hgs i l Hi) as [rq Hq]. eexists. split; [by eapply Hch|]. split; [|done].
      split_and!; try done. simpl. by rewrite list_lookup_fmap.
    + intros k2 Hk2. unfold cont_ok. simpl. split; [rewrite Htk; apply elem_of_app; right; by left|].
      destruct gs as [|[g rq] gs]; [done|]. simpl. split; [done|].
      assert (pkgs w1 !! g = Some k2) as Hk2' by exact Hk2. rewrite (Hch 0 g rq eq_refl) in Hk2'. by injection Hk2' as <-.
  - constructor; simpl; rewrite ?Hcs; try same HI; try done; try apply (ir_listen _ _ _ HI).
    + intros l k2 Hne. destruct (decide (l = s_parent s)) as [->|Hl].
      { rewrite Hpar, HP. split; intros [= <-]; simpl in *; done. }
      destruct (decide (l ∈ gs.*1)) as [Hin|Hin]; [|by rewrite Hrest].
      destruct (Hnew _ Hin) as [Hn _]. rewrite Hn. split; [|done]. intros Hl2.
      apply list_elem_of_lookup in Hin as [i Hi]. destruct (Hgs i l Hi) as [rq Hq].
      rewrite (Hch _ _ _ Hq) in Hl2. injection Hl2 as <-. simpl in Hne. done.
    + intros l k2 Hl Hk2. eexists. split; [done|]. unfold own_pkgs. simpl.
      destruct (decide (l = s_parent s)) as [->|Hne]; [by left|].
      destruct (decide (l ∈ gs.*1)) as [Hin|Hin]; [by right|]. rewrite Hrest in Hl by done.
      destruct (ir_pkgs _ _ _ HI _ _ Hl) as (s2 & Hs2 & Ho). rewrite Hk2, HS in Hs2. injection Hs2 as <-.
      unfold own_pkgs in Ho. rewrite Er in Ho. set_solver.
    + intros t. rewrite Htk, elem_of_app, list_elem_of_singleton. intros [Hin| ->]; [right|by left].
      split; [done|]. rewrite Hrun. done.
    + intros t Hin. left. rewrite Htk. apply elem_of_app. by left.
    + rewrite Htk. apply NoDup_app. split; [apply (ir_tasks_nodup _ _ _ HI)|split; [set_solver|apply NoDup_singleton]].
    + intros id x Hx. right. split; [done|]. intros ct [= <-]. apply idle_io. by rewrite Hrun.
    + auto.
    + rewrite Hnet. apply (ir_conn_next _ _ _ HI).
    + unfold tidy. simpl. rewrite Hg. apply (ir_garbage _ _ _ HI).
  - intros cn2 Hne. split; [|done]. intros [= ->]. done.
Qed.

End inv.

End HttpInv.
