(* ===== verification/HttpCacheInv.v ===== *)
(** The cache of the running web server.

    [keys_ok] counts the references of every entry, [waits_ok] says which session
    waits for which reserved key, and [blocks_ok] which package is responsible
    for which block.  The lemmas are the moves of the cache and of the sessions
    that keep them.  While a handler stores a block or gives it up, [busy] is its
    key. *)
From S2P Require Import Prelude FastFIFO Cache CacheProps CacheRun Connection HttpParse HttpHandlers HttpRun HttpInv.

Module HttpCacheInv.
Import Connection HttpParse Cache CacheProps CacheRun HttpHandlers HttpRun HttpInv.

(** Which text may be stored under a key. *)
Class Content := {
  good : string → string → Prop;
}.

Section inv.
Context {OSt F : Type} `{HO : OS OSt} `{HF : FIFO F loc} `{HL : !FIFOLaws F loc} `{HP : Platform} `{HG : Content}.
Abbreviation rest := (rest OSt).
Implicit Types (r : rest) (s : session) (k : HPKG) (S : gmap loc session) (c : Cache closure F) (e : CacheEntry).

(** ** The invariant *)

(** The references to a key that sessions hold. *)
Definition hold_of s : option hold := match s_cont s with CIo _ held => held | _ => None end.
Definition held_key s : option string := h_key <$> hold_of s.
Definition holds (key : string) s : nat := if decide (held_key s = Some key) then 1 else 0.
Definition holders (key : string) S : nat := map_weight (holds key) S.
Definition held (h : hold) S : Prop := ∃ cn s, S !! cn = Some s ∧ hold_of s = Some h.

(** The buffer that is held is that of the entry. *)
Definition backs e (h : hold) : Prop := data e = Some (h_buf h) ∧ size e = h_len h.

(** The block of an entry is live, as long as the entry says, and right. *)
Definition stored c (key : string) e : Prop :=
  ∀ d, data e = Some d → ∃ t, heap c !! d = Some (BData t) ∧ size e = size_of t ∧ good key t.

(** At least one reference more than are held, that of [reserve], which nobody
    gives back; at most [N], also after the waiting callbacks have run. *)
Definition refs_ok (N : Z) (h : nat) e : Prop :=
  (1 + Z.of_nat h ≤ refCount e)%Z ∧
  (refCount e + Z.of_nat (if isReserved e then length (queue e) else 0) ≤ N)%Z.

Record keys_ok (N : Z) c S : Prop := {
  ko_wf : wf c [];
  ko_size : currentSize_ c = 0%Z;
  ko_refs : ∀ key e, view c key = Some e → refs_ok N (holders key S) e;
  ko_header : ∀ key e, view c key = Some e → ¬ has_hash key → ∃ d t, holds_header c e d t;
  ko_held : ∀ key, view c key = None → holders key S = 0;
  ko_backed : ∀ h, held h S → ∃ e, view c (h_key h) = Some e ∧ backs e h;
  ko_stored : ∀ key e, view c key = Some e → stored c key e;
}.

(** The callbacks that wait for a key, if it is reserved. *)
Definition rqueue c (key : string) : option (list loc) :=
  view c key ≫= λ e, if isReserved e then Some (queue e) else None.

(** The data of a reserved key: there is none before it is stored. *)
Definition rdata c (key : string) : option loc :=
  view c key ≫= λ e, if isReserved e then data e else None.
Definition alike c c' (key : string) : Prop := rqueue c' key = rqueue c key ∧ rdata c' key = rdata c key.

(** The session waits for the key. *)
Definition waiting s : Prop := ∃ key cb, waits s key cb.

Record waits_ok (busy : option string) c S : Prop := {
  wo_wait : ∀ cn s key cb, S !! cn = Some s → waits s key cb →
    ∃ q, rqueue c key = Some q ∧ cb ∈ q ∧ heap c !! cb = Some (BCallback (BodyWio (active s)));
  wo_queue : ∀ key q cb, rqueue c key = Some q → cb ∈ q → ∃ cn s, S !! cn = Some s ∧ waits s key cb;
  wo_file : ∀ key q, rqueue c key = Some q → busy ≠ Some key →
    ∃ cn s cb id, S !! cn = Some s ∧ s_cont s = CWait key cb (Some id);
  wo_file_unique : ∀ cn1 cn2 s1 s2 key cb1 cb2 id1 id2, S !! cn1 = Some s1 → S !! cn2 = Some s2 →
    s_cont s1 = CWait key cb1 (Some id1) → s_cont s2 = CWait key cb2 (Some id2) → cn1 = cn2;
  wo_file_busy : ∀ cn s key cb id, S !! cn = Some s → s_cont s = CWait key cb (Some id) → busy ≠ Some key;
  wo_dead : ∀ cn s key cb, S !! cn = Some s → s_cont s = CDead key cb → busy = Some key;
  wo_empty : ∀ key, busy ≠ Some key → rdata c key = None;
}.

(** The blocks a package is responsible for: those it frees, and the buffer
    that is being read for it. *)
Definition owns r (pk b : loc) : Prop :=
  (∃ k, pkgs (web r) !! pk = Some k ∧ b ∈ frees k) ∨
  (∃ id x, ios r !! id = Some x ∧ io_ok x = BodyPio ∧ io_pk x = pk ∧ io_buf x = Some b).

Record blocks_ok c r : Prop := {
  bo_block : ∀ pk b, owns r pk b → (∃ t, heap c !! b = Some (BData t)) ∧ unowned c b;
  bo_own : ∀ pk1 pk2 b, owns r pk1 b → owns r pk2 b → pk1 = pk2;
  bo_one : ∀ pk k, pkgs (web r) !! pk = Some k → length (frees k) ≤ 1;
}.

(** ** Changes of the heap *)

(** Nothing happens to the blocks that are live, but for those of [D]. *)
Definition stable (D : list loc) c c' : Prop :=
  ∀ b, b ∉ D → is_Some (heap c !! b) → heap c' !! b = heap c !! b ∧ (unowned c b → unowned c' b).

Lemma stable_refl D c : stable D c c.
Proof. done. Qed.

Lemma stable_trans D c1 c2 c3 : stable D c1 c2 → stable D c2 c3 → stable D c1 c3.
Proof.
  intros H1 H2 b Hb Hl. destruct (H1 b Hb Hl) as [E1 U1]. rewrite <-E1 in Hl |- *.
  destruct (H2 b Hb Hl) as [E2 U2]. split; [done|]. auto.
Qed.

Lemma stable_weaken D D' c c' : D ⊆ D' → stable D c c' → stable D' c c'.
Proof. intros HD H b Hb. apply H. set_solver. Qed.

Lemma stable_skip D c : stable D c (skip_address c).
Proof. done. Qed.

Lemma stable_alloc D x c : wf c [] → stable D c (alloc_state x c).
Proof.
  intros Hwf b _ [y Hy]. split; [|done]. simpl. apply lookup_insert_ne. intros E.
  destruct (wf_brk _ _ Hwf b) as (Hn & _); [lia|]. congruence.
Qed.

Lemma stable_set_heap (D : list loc) c h : (∀ b, b ∉ D → h !! b = heap c !! b) → stable D c (set_heap h c).
Proof. intros Hh b Hb _. split; [|done]. by apply Hh. Qed.

(** An entry changes, and takes over the blocks of [D]. *)
Lemma stable_entry D c p e e' :
  entries c !! p = Some e → (∀ b, b ∈ owned e' → b ∈ owned e ∨ b ∈ D) →
  stable D c (set_entries (<[p := e']> (entries c)) c).
Proof.
  intros He Ho b Hb _. split; [done|]. intros Hu q e2. simpl. rewrite lookup_insert. case_decide; [|by apply Hu].
  intros [= <-] [Hin|Hin]%Ho; [|done]. by eapply Hu.
Qed.

Lemma stable_insert D c key e : (∀ b, b ∈ owned e → b ∈ D ∨ heap c !! b = None) → stable D c (insert_state key e c).
Proof.
  intros Ho b Hb [x Hx]. split; [done|]. intros Hu q e2. simpl. rewrite lookup_insert. case_decide; [|by apply Hu].
  intros [= <-] [Hin|Hin]%Ho; [done|]. congruence.
Qed.

(** ** The references *)

Lemma holders_insert key S cn s s' :
  S !! cn = Some s → holders key (<[cn := s']> S) + holds key s = holders key S + holds key s'.
Proof. apply map_weight_move. Qed.

Lemma holders_same key S cn s s' :
  S !! cn = Some s → holds key s' = holds key s → holders key (<[cn := s']> S) = holders key S.
Proof. intros HS Hh. pose proof (holders_insert key S cn s s' HS). lia. Qed.

Lemma holders_delete key S cn s : S !! cn = Some s → holds key s = 0 → holders key (delete cn S) = holders key S.
Proof. intros HS Hh. unfold holders. rewrite (map_weight_delete _ S cn s) by done. lia. Qed.

Lemma holders_new key S cn s : S !! cn = None → holds key s = 0 → holders key (<[cn := s]> S) = holders key S.
Proof. intros HS Hh. unfold holders. rewrite map_weight_insert by done. lia. Qed.

(** The sessions hold what they held. *)
Definition same_held S S' : Prop := (∀ key, holders key S' = holders key S) ∧ ∀ h, held h S' → held h S.

Lemma same_held_refl S : same_held S S.
Proof. done. Qed.

Lemma held_insert h S cn s : held h (<[cn := s]> S) → hold_of s = Some h ∨ held h S.
Proof.
  intros (cn2 & s2 & [[_ <-]|[_ Hs2]]%lookup_insert_Some & Hh); [by left|right]. by exists cn2, s2.
Qed.

Lemma held_delete h S cn : held h (delete cn S) → held h S.
Proof. intros (cn2 & s2 & [_ Hs2]%lookup_delete_Some & Hh). by exists cn2, s2. Qed.

Lemma holds_none key s : hold_of s = None → holds key s = 0.
Proof. unfold holds, held_key. by intros ->. Qed.

Lemma same_held_insert S cn s s' :
  S !! cn = Some s → hold_of s' = hold_of s → same_held S (<[cn := s']> S).
Proof.
  intros HS E. split.
  - intros key. apply (holders_same _ _ _ s); [done|]. unfold holds, held_key. by rewrite E.
  - intros h [Hh|?]%held_insert; [|done]. exists cn, s. by rewrite <-E.
Qed.

Lemma same_held_delete S cn s : S !! cn = Some s → hold_of s = None → same_held S (delete cn S).
Proof.
  intros HS E. split; [|intros h; apply held_delete]. intros key.
  apply (holders_delete _ _ _ s); [done|by apply holds_none].
Qed.

Lemma same_held_new S cn s : S !! cn = None → hold_of s = None → same_held S (<[cn := s]> S).
Proof.
  intros HS E. split.
  - intros key. apply holders_new; [done|by apply holds_none].
  - intros h [Hh|?]%held_insert; [congruence|done].
Qed.

Lemma stored_stable D c c' key e :
  stable D c c' → (∀ d t, data e = Some d → heap c !! d = Some (BData t) → d ∉ D) → stored c key e → stored c' key e.
Proof.
  intros Hst HD Hs d Hd. destruct (Hs d Hd) as (t & Ht & Hsz & Hg). exists t. split; [|done].
  destruct (Hst d) as [-> _]; [by eapply HD|by eexists|done].
Qed.

Lemma stored_data c key e e' : data e' = data e → size e' = size e → stored c key e → stored c key e'.
Proof. unfold stored. by intros -> ->. Qed.

Lemma header_stable D c c' e d t :
  stable D c c' → d ∉ D → holds_header c e d t → holds_header c' e d t.
Proof.
  intros Hst Hin (Hr & Hd & Hb & Hl). split; [done|]. split; [done|]. split; [|done].
  destruct (Hst d) as [-> _]; [done|by eexists|done].
Qed.

(** At most the entry of [key0] changes; it keeps its block, if it has one. *)
Lemma keys_step N N' c c' S S' D key0 :
  keys_ok N c S → wf c' [] → currentSize_ c' = currentSize_ c → stable D c c' → (N ≤ N')%Z →
  (∀ key e d t, view c key = Some e → data e = Some d → heap c !! d = Some (BData t) → d ∉ D) →
  (∀ key, key ≠ key0 → view c' key = view c key ∧ holders key S' = holders key S) →
  (∃ e, view c' key0 = Some e ∧ refs_ok N' (holders key0 S') e ∧
     (¬ has_hash key0 → ∃ d t, holds_header c' e d t) ∧ stored c' key0 e ∧
     (∀ e0, view c key0 = Some e0 → is_Some (data e0) → data e = data e0 ∧ size e = size e0) ∧
     (∀ h, held h S' → held h S ∨ h_key h = key0 ∧ backs e h)) →
  keys_ok N' c' S'.
Proof.
  intros [Hwf Hsz Hrefs Hh Hheld Hback Hstored] Hwf' Hsz' Hst HN HD Hoth (e0 & He0 & Hrefs0 & Hh0 & Hs0 & Hkeep & Hnew).
  constructor; [done|congruence|..].
  - intros key e He. destruct (decide (key = key0)) as [->|Hne]; [congruence|].
    destruct (Hoth key Hne) as [Ev Eh]. rewrite Ev in He. rewrite Eh. destruct (Hrefs _ _ He). split; [done|lia].
  - intros key e He Hk. destruct (decide (key = key0)) as [->|Hne].
    { assert (e = e0) as -> by congruence. by apply Hh0. }
    destruct (Hoth key Hne) as [Ev _]. rewrite Ev in He. destruct (Hh _ _ He Hk) as (d & t & Hd). exists d, t.
    eapply header_stable; [done| |done]. destruct Hd as (_ & Hd & Hb & _). by eapply HD.
  - intros key He. destruct (decide (key = key0)) as [->|Hne]; [congruence|].
    destruct (Hoth key Hne) as [Ev ->]. apply Hheld. congruence.
  - intros h [Hhd|[-> Hb]]%Hnew; [|by exists e0]. destruct (Hback _ Hhd) as (e & He & Hd & Hl).
    destruct (decide (h_key h = key0)) as [<-|Hne].
    + exists e0. split; [done|]. destruct (Hkeep _ He) as [E1 E2]; [by eexists|]. split; congruence.
    + exists e. destruct (Hoth _ Hne) as [-> _]. done.
  - intros key e He. destruct (decide (key = key0)) as [->|Hne]; [by assert (e = e0) as -> by congruence|].
    destruct (Hoth key Hne) as [Ev _]. rewrite Ev in He. eapply stored_stable; [exact Hst| |by apply Hstored].
    intros d t. by eapply HD.
Qed.

Lemma keys_same N N' c c' S S' D :
  keys_ok N c S → wf c' [] → currentSize_ c' = currentSize_ c → stable D c c' → (N ≤ N')%Z →
  (∀ key e d t, view c key = Some e → data e = Some d → heap c !! d = Some (BData t) → d ∉ D) →
  (∀ key, view c' key = view c key) → same_held S S' →
  keys_ok N' c' S'.
Proof.
  intros [Hwf Hsz Hrefs Hhd Hheld Hback Hstored] Hwf' Hsz' Hst HN HD Hv [Hh Hh']. constructor; [done|congruence|..].
  - intros key e He. rewrite Hv in He. rewrite Hh. destruct (Hrefs _ _ He). split; [done|lia].
  - intros key e He Hk. rewrite Hv in He. destruct (Hhd _ _ He Hk) as (d & t & Hd). exists d, t.
    eapply header_stable; [done| |done]. destruct Hd as (_ & Hd & Hb & _). by eapply HD.
  - intros key He. rewrite Hh. apply Hheld. by rewrite <-Hv.
  - intros h Hhh. rewrite Hv. by apply Hback, Hh'.
  - intros key e He. rewrite Hv in He. eapply stored_stable; [exact Hst| |by apply Hstored]. intros d t. by eapply HD.
Qed.

(** ** Who waits *)

Lemma rqueue_view c key e : view c key = Some e → rqueue c key = if isReserved e then Some (queue e) else None.
Proof. unfold rqueue. by intros ->. Qed.

Lemma rqueue_same c c' key : view c' key = view c key → rqueue c' key = rqueue c key.
Proof. unfold rqueue. by intros ->. Qed.

Lemma alike_view c c' key : view c' key = view c key → alike c c' key.
Proof. unfold alike, rqueue, rdata. by intros ->. Qed.

Lemma rdata_free c key : rqueue c key = None → rdata c key = None.
Proof. unfold rqueue, rdata. destruct (view c key) as [e|]; [|done]. simpl. by destruct (isReserved e). Qed.

Lemma waits_same busy c c' S S' :
  waits_ok busy c S → (∀ key, alike c c' key) →
  (∀ key q cb, rqueue c key = Some q → cb ∈ q → heap c' !! cb = heap c !! cb) →
  (∀ cn s, waiting s → S' !! cn = Some s ↔ S !! cn = Some s) →
  waits_ok busy c' S'.
Proof.
  intros [H1 H2 H3 H4 H5 H6 H7] Hal Hh HS. pose proof (λ key, proj1 (Hal key)) as Hq.
  assert (∀ s key cb f, s_cont s = CWait key cb f → waiting s) as Hw by (intros s key cb f E; exists key, cb; left; eauto).
  assert (∀ s key cb, s_cont s = CDead key cb → waiting s) as Hdd by (intros s key cb E; exists key, cb; by right).
  constructor.
  - intros cn s key cb Hs Hws. apply HS in Hs; [|by exists key, cb].
    destruct (H1 _ _ _ _ Hs Hws) as (q & Hk & Hcb & Hb). exists q. rewrite Hq. split_and!; try done.
    by rewrite (Hh key q).
  - intros key q cb Hk Hcb. rewrite Hq in Hk. destruct (H2 _ _ _ Hk Hcb) as (cn & s & Hs & Hws).
    exists cn, s. split; [|done]. apply HS; [by exists key, cb|done].
  - intros key q Hk Hb. rewrite Hq in Hk. destruct (H3 _ _ Hk Hb) as (cn & s & cb & id & Hs & E).
    exists cn, s, cb, id. split; [|done]. apply HS; [by eapply Hw|done].
  - intros cn1 cn2 s1 s2 key cb1 cb2 id1 id2 Hs1 Hs2 E1 E2.
    apply HS in Hs1; [|by eapply Hw]. apply HS in Hs2; [|by eapply Hw]. by eapply (H4 cn1 cn2).
  - intros cn s key cb id Hs E. apply HS in Hs; [|by eapply Hw]. by eapply H5.
  - intros cn s key cb Hs E. apply HS in Hs; [|by eapply Hdd]. by eapply H6.
  - intros key Hb. destruct (Hal key) as [_ ->]. by apply H7.
Qed.

(** A session starts to wait: for a block that another one reads, or as the one
    that reads it. *)
Lemma waits_add c c' S cn s key cb q file :
  waits_ok None c S → S !! cn = Some s → ¬ waiting s →
  rqueue c' key = Some (q ++ [cb]) → (rdata c key = None → rdata c' key = None) → (∀ key2, key2 ≠ key → alike c c' key2) →
  (rqueue c key = Some q ∧ file = None ∨ rqueue c key = None ∧ q = [] ∧ is_Some file) →
  heap c' !! cb = Some (BCallback (BodyWio (active s))) →
  (∀ key q cb, rqueue c key = Some q → cb ∈ q → heap c' !! cb = heap c !! cb) →
  waits_ok None c' (<[cn := with_cont (CWait key cb file) s]> S).
Proof.
  intros [H1 H2 H3 H4 H5 H6 H7] HS Hnw Hq' Hd' Hal Hq Hcb Hh. pose proof (λ key2 Hn, proj1 (Hal key2 Hn)) as Hoth.
  set (s' := with_cont _ _). assert (active s' = active s) as Ha by done.
  assert (∀ cn2 s2, waiting s2 → S !! cn2 = Some s2 → cn2 ≠ cn) as Hne by (intros cn2 s2 Hw2 Hs2 ->; congruence).
  assert (∀ q2 key2, rqueue c key2 = Some q2 → ∃ q2', rqueue c' key2 = Some q2' ∧ q2 ⊆ q2') as Hmono.
  { intros q2 key2 Hk. destruct (decide (key2 = key)) as [->|Hk2]; [|rewrite Hoth by done; by exists q2].
    exists (q ++ [cb]). split; [done|]. destruct Hq as [[Hq _]|[Hq _]]; [|congruence].
    assert (q2 = q) as -> by congruence. set_solver. }
  constructor.
  - intros cn2 s2 key2 cb2 [[<- <-]|[Hn Hs2]]%lookup_insert_Some Hw2.
    + assert (key2 = key ∧ cb2 = cb) as [-> ->] by (destruct Hw2 as [[f [= -> -> _]]|[=]]; done).
      exists (q ++ [cb]). split; [done|]. split; [set_solver|]. by rewrite Ha.
    + destruct (H1 _ _ _ _ Hs2 Hw2) as (q2 & Hk2 & Hin & Hb). destruct (Hmono _ _ Hk2) as (q2' & Hk2' & Hsub).
      exists q2'. split; [done|]. split; [by apply Hsub|]. by rewrite (Hh key2 q2).
  - intros key2 q2 cb2 Hk2 Hin.
    assert ((∃ q0, rqueue c key2 = Some q0 ∧ cb2 ∈ q0) ∨ key2 = key ∧ cb2 = cb) as [(q0 & Hk0 & Hin0)|[-> ->]].
    { destruct (decide (key2 = key)) as [->|Hk]; [|rewrite Hoth in Hk2 by done; left; eauto].
      assert (q2 = q ++ [cb]) as -> by congruence. apply elem_of_app in Hin as [Hin|Hin%list_elem_of_singleton].
      - left. exists q. split; [|done]. destruct Hq as [[? _]|(_ & -> & _)]; [done|]. by apply elem_of_nil in Hin.
      - by right. }
    + destruct (H2 _ _ _ Hk0 Hin0) as (cn2 & s2 & Hs2 & Hw2). exists cn2, s2. split; [|done].
      rewrite lookup_insert_ne; [done|]. intros <-. eapply Hne; [|exact Hs2|done]. by exists key2, cb2.
    + exists cn, s'. rewrite lookup_insert_eq. split; [done|]. left. by exists file.
  - intros key2 q2 Hk2 Hb. destruct (decide (rqueue c key2 = None)) as [Hn|Hn].
    + destruct (decide (key2 = key)) as [->|Hk]; [|rewrite Hoth in Hk2 by done; congruence].
      destruct Hq as [[? _]|(_ & _ & [id ->])]; [congruence|].
      exists cn, s', cb, id. by rewrite lookup_insert_eq.
    + destruct (rqueue c key2) as [q0|] eqn:Hk0; [|done].
      destruct (H3 _ _ Hk0 Hb) as (cn2 & s2 & cb2 & id2 & Hs2 & E). exists cn2, s2, cb2, id2. split; [|done].
      rewrite lookup_insert_ne; [done|]. intros <-. eapply Hne; [|exact Hs2|done]. exists key2, cb2. left. eauto.
  - assert (∀ cn2 s2 key2 cb2 id2, S !! cn2 = Some s2 → s_cont s2 = CWait key2 cb2 (Some id2) →
      s_cont s' = CWait key cb file → is_Some file → key2 ≠ key) as Hfk.
    { intros cn2 s2 key2 cb2 id2 Hs2 E _ Hfile ->. destruct (H1 cn2 s2 key cb2 Hs2) as (q2 & Hk2 & _); [left; eauto|].
      destruct Hq as [[_ ->]|[? _]]; [by destruct Hfile|congruence]. }
    intros cn1 cn2 s1 s2 key2 cb1 cb2 id1 id2 [[<- <-]|[Hn1 Hs1]]%lookup_insert_Some [[<- <-]|[Hn2 Hs2]]%lookup_insert_Some E1 E2; [done|..].
    + exfalso. injection E1 as <- _ ->. by eapply Hfk.
    + exfalso. injection E2 as <- _ ->. by eapply (Hfk cn1).
    + by eapply (H4 cn1 cn2).
  - done.
  - intros cn2 s2 key2 cb2 [[<- <-]|[Hn2 Hs2]]%lookup_insert_Some E; [done|]. by eapply H6.
  - intros key2 _. destruct (decide (key2 = key)) as [->|Hn2]; [by apply Hd', H7|].
    destruct (Hal key2 Hn2) as [_ ->]. by apply H7.
Qed.

(** The first callback of the busy key has run. *)
Lemma waits_remove key c c' S S' cn s cb q :
  waits_ok (Some key) c S → S !! cn = Some s → waits s key cb →
  rqueue c key = Some (cb :: q) → NoDup (cb :: q) → rqueue c' key = Some q →
  (∀ key2, key2 ≠ key → alike c c' key2) →
  (∀ key q2 cb2, rqueue c' key = Some q2 → cb2 ∈ q2 → heap c' !! cb2 = heap c !! cb2) →
  (∀ cn2 s2, S !! cn2 = Some s2 → active s2 = active s → cn2 = cn) →
  (∀ cn2, cn2 ≠ cn → S' !! cn2 = S !! cn2) → (∀ s', S' !! cn = Some s' → ¬ waiting s') →
  waits_ok (Some key) c' S'.
Proof.
  intros [H1 H2 H3 H4 H5 H6 H7] HS Hws Hq Hnd Hq' Hal Hh Hinj Hsame Hno. pose proof (λ key2 Hn, proj1 (Hal key2 Hn)) as Hoth.
  assert (∀ key2 q2, rqueue c' key2 = Some q2 → ∃ q0, rqueue c key2 = Some q0 ∧ q2 ⊆ q0) as Hsub.
  { intros key2 q2 Hk. destruct (decide (key2 = key)) as [->|Hne]; [|rewrite Hoth in Hk by done; by exists q2].
    exists (cb :: q). split; [done|]. set_solver. }
  assert (∀ cn2 s2, S' !! cn2 = Some s2 → waiting s2 → cn2 ≠ cn ∧ S !! cn2 = Some s2) as Hold.
  { intros cn2 s2 Hs2 Hw2. assert (cn2 ≠ cn) as Hne by (intros ->; by eapply Hno). split; [done|]. by rewrite <-Hsame. }
  assert (∀ s key cb f, s_cont s = CWait key cb f → waiting s) as Hw by (intros ? key2 cb2 f E; exists key2, cb2; left; eauto).
  assert (∀ s key cb, s_cont s = CDead key cb → waiting s) as Hdd by (intros ? key2 cb2 E; exists key2, cb2; by right).
  assert (∀ key2 q2 cb2, rqueue c key2 = Some q2 → cb2 ∈ q2 → cb2 = cb →
    heap c !! cb = Some (BCallback (BodyWio (active s)))) as Hcb.
  { intros key2 q2 cb2 _ _ _. destruct (H1 _ _ _ _ HS Hws) as (q0 & Hk0 & _ & ?). done. }
  constructor.
  - intros cn2 s2 key2 cb2 Hs2 Hw2. destruct (Hold _ _ Hs2) as [Hne Hs2']; [by exists key2, cb2|].
    destruct (H1 _ _ _ _ Hs2' Hw2) as (q2 & Hk2 & Hin & Hb).
    assert (cb2 ≠ cb) as Hcbne.
    { intros ->. apply Hne. apply (Hinj _ _ Hs2'). rewrite (Hcb key2 q2 cb) in Hb by done. by injection Hb. }
    assert (∃ q2', rqueue c' key2 = Some q2' ∧ cb2 ∈ q2') as (q2' & Hk2' & Hin').
    { destruct (decide (key2 = key)) as [->|Hk]; [|rewrite Hoth by done; eauto].
      exists q. split; [done|]. assert (q2 = cb :: q) as -> by congruence. set_solver. }
    exists q2'. split; [done|]. split; [done|]. by rewrite (Hh key2 q2').
  - intros key2 q2 cb2 Hk2 Hin. destruct (Hsub _ _ Hk2) as (q0 & Hk0 & Hs0).
    destruct (H2 _ _ _ Hk0 (Hs0 _ Hin)) as (cn2 & s2 & Hs2 & Hw2). exists cn2, s2. split; [|done].
    rewrite Hsame; [done|]. intros ->. assert (s2 = s) as -> by congruence.
    assert (key2 = key ∧ cb2 = cb) as [-> ->] by (destruct Hws as [[? E1]|E1], Hw2 as [[? E2]|E2]; split; congruence).
    assert (q2 = q) as -> by congruence. by apply NoDup_cons in Hnd as [? _].
  - intros key2 q2 Hk2 Hb. destruct (Hsub _ _ Hk2) as (q0 & Hk0 & _).
    destruct (H3 _ _ Hk0 Hb) as (cn2 & s2 & cb2 & id2 & Hs2 & E). exists cn2, s2, cb2, id2. split; [|done].
    rewrite Hsame; [done|]. intros ->. assert (s2 = s) as -> by congruence.
    destruct Hws as [[f E1]|E1]; rewrite E1 in E; [|done]. injection E as -> -> ->. done.
  - intros cn1 cn2 s1 s2 key2 cb1 cb2 id1 id2 Hs1 Hs2 E1 E2.
    apply Hold in Hs1 as [_ Hs1]; [|by eapply Hw]. apply Hold in Hs2 as [_ Hs2]; [|by eapply Hw]. by eapply (H4 cn1 cn2).
  - intros cn2 s2 key2 cb2 id2 Hs2 E. apply Hold in Hs2 as [_ Hs2]; [|by eapply Hw]. by eapply H5.
  - intros cn2 s2 key2 cb2 Hs2 E. apply Hold in Hs2 as [_ Hs2]; [|by eapply Hdd]. by eapply H6.
  - intros key2 Hb. destruct (Hal key2) as [_ ->]; [congruence|by apply H7].
Qed.

(** All callbacks have run, and the key is not reserved any more. *)
Lemma waits_unreserve key c c' S :
  waits_ok (Some key) c S → rqueue c key = Some [] → rqueue c' key = None →
  (∀ key2, key2 ≠ key → alike c c' key2) →
  (∀ key q cb, rqueue c' key = Some q → cb ∈ q → heap c' !! cb = heap c !! cb) →
  waits_ok None c' S.
Proof.
  intros [H1 H2 H3 H4 H5 H6 H7] Hq Hq' Hal Hh. pose proof (λ key2 Hn, proj1 (Hal key2 Hn)) as Hoth.
  assert (∀ cn s cb, S !! cn = Some s → ¬ waits s key cb) as Hno.
  { intros cn s cb Hs Hws. destruct (H1 _ _ _ _ Hs Hws) as (q & Hk & Hin & _).
    assert (q = []) as -> by congruence. by apply elem_of_nil in Hin. }
  assert (∀ key2 q, rqueue c' key2 = Some q → key2 ≠ key ∧ rqueue c key2 = Some q) as Hold.
  { intros key2 q Hk. assert (key2 ≠ key) as Hne by congruence. split; [done|]. by rewrite <-Hoth. }
  constructor; [| | |done|done| |].
  - intros cn s key2 cb Hs Hws. destruct (H1 _ _ _ _ Hs Hws) as (q & Hk & Hin & Hb).
    assert (key2 ≠ key) by (intros ->; by eapply Hno). exists q. rewrite Hoth by done.
    split; [done|]. split; [done|]. rewrite (Hh key2 q); [done| |done]. by rewrite Hoth.
  - intros key2 q cb [_ Hk]%Hold Hin. by eapply H2.
  - intros key2 q [Hne Hk]%Hold _. apply (H3 _ _ Hk). congruence.
  - intros cn s key2 cb Hs E. pose proof (H6 _ _ _ _ Hs E) as [= <-]. exfalso. eapply Hno; [exact Hs|by right].
  - intros key2 _. destruct (decide (key2 = key)) as [->|Hne]; [by apply rdata_free|].
    destruct (Hal key2 Hne) as [_ ->]. apply H7. congruence.
Qed.

(** The operation of the session that reads a block is taken. *)
Lemma waits_take key c c' S cn s cb id ct :
  waits_ok None c S → S !! cn = Some s → s_cont s = CWait key cb (Some id) →
  ct = CWait key cb None ∨ ct = CDead key cb →
  (∀ key, rqueue c' key = rqueue c key) → (∀ key2, key2 ≠ key → rdata c' key2 = rdata c key2) →
  (∀ key q cb, rqueue c key = Some q → cb ∈ q → heap c' !! cb = heap c !! cb) →
  waits_ok (Some key) c' (<[cn := with_cont ct s]> S).
Proof.
  intros [H1 H2 H3 H4 H5 H6 H7] HS E Hct Hq Hrd Hh.
  assert (∀ key2 cb2, waits (with_cont ct s) key2 cb2 ↔ waits s key2 cb2) as Hws.
  { intros key2 cb2. unfold waits. simpl. rewrite E. destruct Hct as [-> | ->]; naive_solver. }
  constructor.
  - intros cn2 s2 key2 cb2 Hs2 Hw2.
    assert (∃ s0, S !! cn2 = Some s0 ∧ active s0 = active s2 ∧ waits s0 key2 cb2) as (s0 & Hs0 & <- & Hw0).
    { apply lookup_insert_Some in Hs2 as [[<- <-]|[_ Hs2]]; [exists s; split; [done|]; split; [done|]; by apply Hws|by exists s2]. }
    destruct (H1 _ _ _ _ Hs0 Hw0) as (q & Hk & Hin & Hb). exists q. rewrite Hq. split_and!; try done.
    by rewrite (Hh key2 q).
  - intros key2 q cb2 Hk Hin. rewrite Hq in Hk. destruct (H2 _ _ _ Hk Hin) as (cn2 & s2 & Hs2 & Hw2).
    destruct (decide (cn2 = cn)) as [->|Hne].
    + assert (s2 = s) as -> by congruence. eexists cn, _. rewrite lookup_insert_eq. split; [done|]. by apply Hws.
    + exists cn2, s2. by rewrite lookup_insert_ne.
  - intros key2 q Hk Hb. rewrite Hq in Hk. destruct (H3 _ _ Hk ltac:(done)) as (cn2 & s2 & cb2 & id2 & Hs2 & E2).
    exists cn2, s2, cb2, id2. split; [|done]. rewrite lookup_insert_ne; [done|]. intros <-.
    assert (s2 = s) as -> by congruence. rewrite E in E2. injection E2 as -> _ _. done.
  - intros cn1 cn2 s1 s2 key2 cb1 cb2 id1 id2 [[<- <-]|[Hn1 Hs1]]%lookup_insert_Some [[<- <-]|[Hn2 Hs2]]%lookup_insert_Some E1 E2;
      [done|destruct Hct; subst ct; done..|by eapply (H4 cn1 cn2)].
  - intros cn2 s2 key2 cb2 id2 [[<- <-]|[Hn2 Hs2]]%lookup_insert_Some E2; [destruct Hct; subst ct; done|].
    intros [= <-]. apply Hn2. by eapply (H4 cn cn2).
  - intros cn2 s2 key2 cb2 [[<- <-]|[Hn2 Hs2]]%lookup_insert_Some E2.
    + simpl in E2. destruct Hct as [->|Hct]; [done|]. rewrite Hct in E2. by injection E2 as <- _.
    + pose proof (H6 _ _ _ _ Hs2 E2) as ?. done.
  - intros key2 Hb. rewrite Hrd by congruence. by apply H7.
Qed.

(** ** Who owns a block *)

Lemma blocks_sub c c' r r' D :
  blocks_ok c r → stable D c c' → (∀ pk b, owns r' pk b → owns r pk b ∧ b ∉ D) →
  (∀ pk k, pkgs (web r') !! pk = Some k → length (frees k) ≤ 1) → blocks_ok c' r'.
Proof.
  intros [H1 H2 H3] Hst Hsub Hone. constructor; [| |done].
  - intros pk b [Ho Hb]%Hsub. destruct (H1 _ _ Ho) as [[t Ht] Hu].
    destruct (Hst b Hb) as [E HU]; [by eexists|]. split; [exists t; congruence|by apply HU].
  - intros pk1 pk2 b [Ho1 _]%Hsub [Ho2 _]%Hsub. by eapply H2.
Qed.

(** A package gets a new block. *)
Lemma blocks_new c c' r r' pk0 b0 t :
  blocks_ok c r → stable [] c c' → heap c !! b0 = None → heap c' !! b0 = Some (BData t) → unowned c' b0 →
  (∀ pk b, owns r' pk b → owns r pk b ∨ pk = pk0 ∧ b = b0) →
  (∀ pk k, pkgs (web r') !! pk = Some k → length (frees k) ≤ 1) → blocks_ok c' r'.
Proof.
  intros [H1 H2 H3] Hst Hn Hb Hu Hsub Hone.
  assert (∀ pk, ¬ owns r pk b0) as Hno by (intros pk Ho; destruct (H1 _ _ Ho) as [[? ?] _]; congruence).
  constructor; [| |done].
  - intros pk b [Ho|[-> ->]]%Hsub; [|by eauto]. destruct (H1 _ _ Ho) as [[t' Ht] Hu'].
    destruct (Hst b) as [E HU]; [apply not_elem_of_nil|by eexists|]. split; [exists t'; congruence|by apply HU].
  - intros pk1 pk2 b [Ho1|[-> ->]]%Hsub [Ho2|[-> E]]%Hsub; [by eapply H2| |by destruct (Hno pk2)|done].
    subst b. by destruct (Hno pk1).
Qed.

(** A block that was read into. *)
Lemma blocks_fill c r b t x :
  blocks_ok c r → heap c !! b = Some (BData x) → blocks_ok (fill_state b t c) r.
Proof.
  intros [H1 H2 H3] Hb. constructor; [|done|done]. intros pk b' Ho. destruct (H1 _ _ Ho) as [[t' Ht] Hu].
  split; [|done]. simpl. rewrite lookup_insert. case_decide; eauto.
Qed.

(** ** Ownership when the rest changes *)

Lemma set_pkg_lookup l k' r pk k :
  pkgs (web (set_pkg l k' r)) !! pk = Some k ↔ l = pk ∧ k' = k ∨ l ≠ pk ∧ pkgs (web r) !! pk = Some k.
Proof. apply lookup_insert_Some. Qed.

Lemma add_io_lookup x r id y :
  ios (add_io x r) !! id = Some y ↔ io_next r = id ∧ x = y ∨ io_next r ≠ id ∧ ios r !! id = Some y.
Proof. apply lookup_insert_Some. Qed.

Lemma del_io_lookup id r id2 y : ios (del_io id r) !! id2 = Some y ↔ id ≠ id2 ∧ ios r !! id2 = Some y.
Proof. apply lookup_delete_Some. Qed.

Lemma parent_ended_lookup P m r l k :
  pkgs (web (parent_ended P m r)) !! l = Some k ↔ P ≠ l ∧ pkgs (web r) !! l = Some k.
Proof. apply lookup_delete_Some. Qed.

Lemma owns_set_pkg l k' r pk b : owns (set_pkg l k' r) pk b → owns r pk b ∨ pk = l ∧ b ∈ frees k'.
Proof.
  intros [(k & [[<- <-]|[Hne Hk]]%set_pkg_lookup & Hb)|Hio]; [by right|left; left; eauto|left; by right].
Qed.

Lemma owns_set_pkg_sub l k k' r pk b :
  pkgs (web r) !! l = Some k → (∀ b, b ∈ frees k' → b ∈ frees k) → owns (set_pkg l k' r) pk b → owns r pk b.
Proof. intros Hl Hsub [?|[-> Hb]]%owns_set_pkg; [done|]. left. eauto. Qed.

Lemma owns_add_io x r pk b :
  owns (add_io x r) pk b → owns r pk b ∨ io_ok x = BodyPio ∧ pk = io_pk x ∧ io_buf x = Some b.
Proof.
  intros [Hk|(id & y & [[<- <-]|[Hne Hy]]%add_io_lookup & H1 & H2 & H3)]; [left; by left|by right|].
  left. right. eauto 10.
Qed.

Lemma owns_del_io id r pk b : owns (del_io id r) pk b → owns r pk b.
Proof. intros [Hk|(id' & y & [Hne Hy]%del_io_lookup & H)]; [by left|right; eauto]. Qed.

(** No operation works for an idle session. *)
Lemma idle_no_io L run r S cn s id x :
  inv_rest L run r S → S !! cn = Some s → idle (s_cont s) → ios r !! id = Some x → io_pk x ≠ active s.
Proof.
  intros HI HS Hid Hx Hpk. destruct (ir_ios _ _ _ _ HI _ _ Hx) as (cn2 & s2 & HS2 & Ho).
  pose proof (ir_session _ _ _ _ HI _ _ HS) as Hs. pose proof (ir_session _ _ _ _ HI _ _ HS2) as Hs2.
  destruct (io_active _ _ _ _ _ Hs2 Ho) as (y & Hy & Ha). assert (y = x) as -> by congruence.
  assert (cn2 = cn) as -> by (eapply active_inj; [exact Hs2|exact Hs|congruence]).
  assert (s2 = s) as -> by congruence. by eapply idle_io.
Qed.

Lemma owns_child_ended L run r S cn s a rest' kp k pk b :
  inv_rest L run r S → S !! cn = Some s → idle (s_cont s) → s_rest s = a :: rest' →
  pkgs (web r) !! s_parent s = Some kp →
  owns (child_ended (s_parent s) a rest' kp k r) pk b → owns r pk b ∧ pk ≠ a.
Proof.
  intros HI HS Hid Er Hkp Ho. pose proof (ir_session _ _ _ _ HI _ _ HS) as Hs.
  assert (s_parent s ≠ a) as HPa.
  { pose proof (so_nodup _ _ _ _ Hs) as Hnd. unfold own_pkgs in Hnd. rewrite Er in Hnd. apply NoDup_cons in Hnd. set_solver. }
  assert (ios (child_ended (s_parent s) a rest' kp k r) = ios r) as Hios by (by destruct rest').
  destruct Ho as [(k2 & [Hne Hl]%child_ended_lookup & Hb)|Hio]; [|done..|].
  - split; [|done]. left. case_decide; [|eauto]. subst pk. exists kp. split; [done|]. subst k2. by destruct rest'.
  - rewrite Hios in Hio. split; [by right|]. intros ->. destruct Hio as (id & x & Hx & _ & Hpk & _).
    eapply idle_no_io; [exact HI|exact HS|done|exact Hx|]. unfold active. by rewrite Er.
Qed.

Lemma owns_parent_ended L run r S cn s m pk b :
  inv_rest L run r S → S !! cn = Some s → idle (s_cont s) → s_rest s = [] →
  owns (parent_ended (s_parent s) m r) pk b → owns r pk b ∧ pk ≠ s_parent s.
Proof.
  intros HI HS Hid Er Ho. destruct Ho as [(k2 & [Hne Hl]%parent_ended_lookup & Hb)|Hio]; [split; [left; eauto|done]|].
  split; [by right|]. intros ->. destruct Hio as (id & x & Hx & _ & Hpk & _).
  eapply idle_no_io; [exact HI|exact HS|done|exact Hx|]. unfold active. by rewrite Er.
Qed.

Definition frees_one r : Prop := ∀ pk k, pkgs (web r) !! pk = Some k → length (frees k) ≤ 1.

Lemma frees_one_set l k' r : frees_one r → length (frees k') ≤ 1 → frees_one (set_pkg l k' r).
Proof. intros Hr Hk pk k [[<- <-]|[_ Hl]]%set_pkg_lookup; [done|by eapply Hr]. Qed.

(** ** The cache's states *)

Lemma release_state_facts key p e c :
  wf c [] → cacheMap_ c !! key = Some p → entries c !! p = Some e → (1 < refCount e)%Z →
  wf (release_state p e c) [] ∧ stable [] c (release_state p e c) ∧
  ∀ key2, view (release_state p e c) key2 = if decide (key2 = key) then Some (with_refCount (refCount e - 1) e) else view c key2.
Proof.
  intros Hwf Hp He Hr. destruct (release_state_wf key p e c) as [Hwf' Hv]; [done..|].
  split; [done|]. split; [|done]. eapply stable_entry; [exact He|]. intros b Hb. by left.
Qed.

Lemma hit_state_facts key p e c :
  wf c [] → cacheMap_ c !! key = Some p → entries c !! p = Some e → (0 ≤ refCount e)%Z → is_size (refCount e + 1) →
  wf (hit_state p e c) [] ∧ stable [] c (hit_state p e c) ∧
  ∀ key2, view (hit_state p e c) key2 = if decide (key2 = key) then Some (with_refCount (refCount e + 1) e) else view c key2.
Proof.
  intros Hwf Hp He H0 Hsz. split; [by apply hit_state_wf|]. split; [|by apply hit_state_view].
  eapply stable_trans; [apply stable_skip|]. apply (stable_entry _ (skip_address c) _ e); [done|]. intros b Hb. by left.
Qed.

Lemma wait_state_facts key p e f c :
  wf c [] → cacheMap_ c !! key = Some p → entries c !! p = Some e → isReserved e = true →
  wf (wait_state p e f c) [] ∧ stable [] c (wait_state p e f c) ∧ heap (wait_state p e f c) !! brk c = Some (BCallback f) ∧
  ∀ key2, view (wait_state p e f c) key2 = if decide (key2 = key) then Some (with_queue (queue e ++ [brk c]) e) else view c key2.
Proof.
  intros Hwf Hp He Hr. pose proof (wf_alloc _ _ (BCallback f) Hwf) as Hwf1. split; [by eapply wait_state_wf|].
  split; [|split; [apply lookup_insert_eq|intros key2; by apply (view_update (alloc_state (BCallback f) c) [])]].
  intros b Hb Hl. destruct (stable_alloc [] (BCallback f) c Hwf b Hb Hl) as [E _]. split; [exact E|].
  intros Hu q e2. simpl. rewrite lookup_insert. case_decide; [|by apply Hu]. intros [= <-].
  unfold owned. simpl. rewrite Hr. intros Hin. assert (b ≠ brk c).
  { intros ->. destruct (wf_brk _ _ Hwf (brk c)) as (Hn & _); [lia|]. destruct Hl. congruence. }
  eapply (Hu p e He). unfold owned. rewrite Hr. set_solver.
Qed.

Lemma reserve_wait_stable key f c : wf c [] → cacheMap_ c !! key = None → stable [] c (reserve_wait key f c).
Proof.
  intros Hwf Hk b Hb Hl. assert (b < brk c)%positive as Hlt.
  { destruct (decide (b < brk c)%positive) as [|Hn]; [done|].
    destruct (wf_brk _ _ Hwf b) as (? & _); [lia|]. destruct Hl. congruence. }
  split; [simpl; by rewrite !lookup_insert_ne by lia|].
  intros Hu q e2. simpl. rewrite insert_insert_eq, lookup_insert. case_decide; [|by apply Hu].
  intros [= <-]. unfold owned. simpl. intros [->|[->|Hin]%elem_of_cons]%elem_of_cons; [lia..|]. by apply elem_of_nil in Hin.
Qed.

Lemma header_put_stable pk u t c :
  wf c [] → cacheMap_ c !! head_key u = None → stable [] c (header_put pk u t c).
Proof.
  intros Hwf Hk b Hb Hl. assert (b < brk c)%positive as Hlt.
  { destruct (decide (b < brk c)%positive) as [|Hn]; [done|].
    destruct (wf_brk _ _ Hwf b) as (? & _); [lia|]. destruct Hl. congruence. }
  split; [simpl; unfold new_cb, new_node; by rewrite lookup_delete_ne, !lookup_insert_ne by lia|].
  intros Hu q e2. simpl. unfold new_node. rewrite !insert_insert_eq, lookup_insert. case_decide; [|by apply Hu].
  intros [= <-]. unfold owned, filled, new_cb, new_node. simpl.
  intros [->|[->|Hin]%elem_of_cons]%elem_of_cons; [lia..|]. by apply elem_of_nil in Hin.
Qed.

Lemma fill_state_wf b t c : wf c [] → unowned c b → is_Some (heap c !! b) → wf (fill_state b t c) [].
Proof.
  intros Hwf Hu [x Hx]. apply wf_set_heap; [done|..].
  - intros b' Hb'. apply lookup_insert_ne. intros ->. by apply Hb'.
  - intros l Hl. destruct (wf_brk _ _ Hwf l Hl) as (Hn & _). rewrite lookup_insert_ne; [done|]. congruence.
Qed.

Lemma owned_view c key e b : wf c [] → view c key = Some e → b ∈ owned e → ¬ unowned c b.
Proof.
  intros Hwf Hv Hb Hu. destruct (view_some _ _ _ _ Hwf Hv) as (p & _ & He & _). by eapply Hu.
Qed.

Lemma data_owned c key e d : wf c [] → view c key = Some e → data e = Some d → ¬ unowned c d.
Proof. intros Hwf Hv Hd. eapply owned_view; [done..|]. unfold owned. rewrite Hd. set_solver. Qed.

Lemma queue_owned c key q cb : wf c [] → rqueue c key = Some q → cb ∈ q → ¬ unowned c cb.
Proof.
  unfold rqueue. intros Hwf Hq Hcb. destruct (view c key) as [e|] eqn:Hv; [|done]. simpl in Hq.
  destruct (isReserved e) eqn:Hr; [|done]. injection Hq as <-. eapply owned_view; [done..|].
  unfold owned. rewrite Hr. set_solver.
Qed.

Lemma queue_NoDup c key q : wf c [] → rqueue c key = Some q → NoDup q.
Proof.
  unfold rqueue. intros Hwf Hq. destruct (view c key) as [e|] eqn:Hv; [|done]. simpl in Hq.
  destruct (isReserved e) eqn:Hr; [|done]. injection Hq as <-.
  destruct (view_some _ _ _ _ Hwf Hv) as (p & _ & _ & Hok). by eapply ok_queue_nodup.
Qed.

(** Blocks of the heap change that no entry is responsible for. *)
Lemma heap_change D N busy c c' S :
  keys_ok N c S → waits_ok busy c S → wf c' [] → currentSize_ c' = currentSize_ c → stable D c c' →
  (∀ b, b ∈ D → unowned c b) → (∀ key, view c' key = view c key) → keys_ok N c' S ∧ waits_ok busy c' S.
Proof.
  intros HK HW Hwf' Hsz Hst HD Hv. pose proof (ko_wf _ _ _ HK) as Hwf. split.
  - eapply (keys_same N N c c' S S D); try done. intros key e d t He Hd _ Hin.
    eapply data_owned; [done..|]. by apply HD.
  - eapply waits_same; [exact HW|intros key; by apply alike_view| |done].
    intros key q cb Hq Hcb. pose proof (queue_owned _ _ _ _ Hwf Hq Hcb) as Ho.
    apply Hst; [intros Hin; by apply Ho, HD|].
    destruct (wo_queue _ _ _ HW _ _ _ Hq Hcb) as (cn & s & Hs & Hws).
    destruct (wo_wait _ _ _ HW _ _ _ _ Hs Hws) as (? & _ & _ & Hb). by eexists.
Qed.

Lemma free_blocks_stable D c : stable D c (free_blocks D c).
Proof. apply stable_set_heap. intros b Hb. rewrite delete_blocks_lookup. by rewrite decide_False. Qed.

Lemma free_blocks_inv D N busy c S :
  keys_ok N c S → waits_ok busy c S → (∀ b, b ∈ D → unowned c b) →
  keys_ok N (free_blocks D c) S ∧ waits_ok busy (free_blocks D c) S.
Proof.
  intros HK HW HD. eapply (heap_change D); try done; [|apply free_blocks_stable].
  apply wf_delete_blocks; [apply HK|done].
Qed.

(** ** A queue that is being emptied *)

(** The first callback [cb] of the queue of [e] has run: [q] are left, and [D]
    was freed. *)
Definition pop_state (p : loc) e (cb : loc) q (n : Z) (D : list loc) c : Cache closure F :=
  set_heap (delete cb (delete_blocks D (heap c)))
    (set_entries (<[p := with_queue q (with_refCount n e)]> (entries c)) c).

Section pop.
Variables (key : string) (p cb : loc) (e : CacheEntry) (q : list loc) (n : Z) (D : list loc) (c : Cache closure F).
Hypotheses (Hwf : wf c []) (Hp : cacheMap_ c !! key = Some p) (He : entries c !! p = Some e)
  (Hr : isReserved e = true) (Hq : queue e = cb :: q) (HD : ∀ b, b ∈ D → unowned c b) (Hn : (0 < n)%Z) (Hsz : is_size n).

Lemma pop_entry_ok : entry_ok (heap c) [] key p e.
Proof. destruct (wf_map _ _ Hwf _ _ Hp) as (e2 & He2 & Hok). by assert (e2 = e) as -> by congruence. Qed.

Lemma pop_owned b : b ∈ owned (with_queue q (with_refCount n e)) → b ∈ owned e ∧ b ≠ cb.
Proof.
  clear HD Hn Hsz. pose proof pop_entry_ok as Hok. unfold owned. simpl. rewrite Hr, Hq. intros Hb. split; [set_solver|]. intros ->.
  destruct (ok_queue _ _ _ _ _ Hok Hr cb) as [f Hf]; [rewrite Hq; by left|].
  rewrite !elem_of_app in Hb. destruct Hb as [Hb|[Hb|Hb]].
  - destruct (ok_name _ _ _ _ _ Hok) as (nm & Hnm & Hh). rewrite Hnm in Hb. apply list_elem_of_singleton in Hb. congruence.
  - destruct (data e) as [d|] eqn:Hd; [|by apply elem_of_nil in Hb].
    destruct (ok_data _ _ _ _ _ Hok d Hd) as [t Ht]. apply list_elem_of_singleton in Hb. congruence.
  - pose proof (ok_queue_nodup _ _ _ _ _ Hok Hr) as Hnd. rewrite Hq in Hnd. by apply NoDup_cons in Hnd as [? _].
Qed.

Lemma pop_wf1 : wf (set_entries (<[p := with_queue q (with_refCount n e)]> (entries c)) c) [].
Proof.
  pose proof pop_entry_ok as Hok. eapply wf_update; [exact Hwf|exact Hp|exact He| |intros b [Hb _]%pop_owned; by left].
  destruct Hok as [On Od Oq Oqn Or Oz Os Ores]. split; simpl; eauto.
  - intros _ x Hx. apply (Oq Hr). rewrite Hq. by right.
  - intros _. specialize (Oqn Hr). rewrite Hq in Oqn. by apply NoDup_cons in Oqn as [_ ?].
  - split; [intros E; lia|]. intros Hs. apply Oz in Hs. by apply (Ores Hr) in Hs.
  - split; [done|]. apply Os.
  - intros _. lia.
Qed.

Lemma pop_unowned b : b ∈ cb :: D → unowned (set_entries (<[p := with_queue q (with_refCount n e)]> (entries c)) c) b.
Proof.
  clear Hn Hsz. intros Hb p2 e2. simpl. rewrite lookup_insert. case_decide as Ep.
  - intros [= <-] [Ho Hne]%pop_owned. apply elem_of_cons in Hb as [->|Hb]; [done|]. by eapply HD.
  - intros He2 Ho. apply elem_of_cons in Hb as [->|Hb]; [|by eapply HD]. apply Ep.
    eapply (wf_disj _ _ Hwf p p2); [exact He|exact He2| |exact Ho]. unfold owned. rewrite Hr, Hq. set_solver.
Qed.

Lemma pop_wf : wf (pop_state p e cb q n D c) [].
Proof.
  assert (∀ b, delete cb (delete_blocks D (heap c)) !! b = if decide (b ∈ cb :: D) then None else heap c !! b) as Hh.
  { intros b. destruct (decide (b = cb)) as [->|Hne]; [by rewrite lookup_delete_eq, decide_True by left|].
    rewrite lookup_delete_ne, delete_blocks_lookup by done. repeat case_decide; set_solver. }
  unfold pop_state. apply (wf_set_heap (set_entries _ c)); [apply pop_wf1|..].
  - intros b Hb. rewrite Hh, decide_False; [done|]. intros Hin. by apply Hb, pop_unowned.
  - intros l Hl. rewrite Hh. case_decide; [done|]. by apply (wf_brk _ _ Hwf).
Qed.

Lemma pop_stable : stable (cb :: D) c (pop_state p e cb q n D c).
Proof.
  clear HD Hn Hsz. intros b Hb Hl. split.
  - simpl. rewrite lookup_delete_ne, delete_blocks_lookup by set_solver. by rewrite decide_False by set_solver.
  - intros Hu p2 e2. simpl. rewrite lookup_insert. case_decide; [|by apply Hu]. intros [= <-] [Ho _]%pop_owned. by eapply Hu.
Qed.

(** The block of an entry is none of those. *)
Lemma pop_data key2 e2 d t :
  view c key2 = Some e2 → data e2 = Some d → heap c !! d = Some (BData t) → d ∉ cb :: D.
Proof.
  clear Hn Hsz. intros He2 Hd Hb [->|Hin]%elem_of_cons.
  - destruct (ok_queue _ _ _ _ _ pop_entry_ok Hr cb) as [f Hf]; [rewrite Hq; by left|]. congruence.
  - eapply data_owned; [done|exact He2|exact Hd|]. by apply HD.
Qed.

Lemma pop_view key2 :
  view (pop_state p e cb q n D c) key2 = if decide (key2 = key) then Some (with_queue q (with_refCount n e)) else view c key2.
Proof. by apply (view_update c []). Qed.

End pop.

(** The blocks of the callbacks that wait. *)
Lemma queued_live busy c S key q cb : waits_ok busy c S → rqueue c key = Some q → cb ∈ q → is_Some (heap c !! cb).
Proof.
  intros HW Hq Hcb. destruct (wo_queue _ _ _ HW _ _ _ Hq Hcb) as (cn & s & Hs & Hws).
  destruct (wo_wait _ _ _ HW _ _ _ _ Hs Hws) as (? & _ & _ & Hb). by eexists.
Qed.


Lemma pop_keys N c S S' key p e cb q n m D :
  keys_ok N c S → cacheMap_ c !! key = Some p → entries c !! p = Some e → isReserved e = true →
  queue e = cb :: q → (∀ b, b ∈ D → unowned c b) → has_hash key → (N < size_t_mod)%Z →
  n = (refCount e + Z.of_nat m)%Z → m ≤ 1 → holders key S' ≤ holders key S + m →
  (∀ key2, key2 ≠ key → holders key2 S' = holders key2 S) →
  (∀ h, held h S' → held h S ∨ h_key h = key ∧ backs e h) →
  keys_ok N (pop_state p e cb q n D c) S'.
Proof.
  intros HK Hp He Hr Hq HD Hkey HN -> Hm Hh Hoth Hnew. pose proof (ko_wf _ _ _ HK) as Hwf.
  assert (view c key = Some e) as Hv by (unfold view; by rewrite Hp).
  destruct (ko_refs _ _ _ HK _ _ Hv) as [H1 H2]. rewrite Hr, Hq in H2. simpl in H2.
  pose proof (pop_wf key p cb e q (refCount e + Z.of_nat m) D c Hwf Hp He Hr Hq HD) as Hwf'.
  eapply (keys_step N N c _ S _ (cb :: D) key); [exact HK| |done| |lia| | |].
  - apply Hwf'; [lia|unfold is_size; lia].
  - exact (pop_stable key p cb e q _ D c Hwf Hp He Hr Hq).
  - intros key2 e2 d t. by eapply (pop_data key p cb e q D c).
  - intros key2 Hne. split; [|by apply Hoth]. erewrite pop_view by done. by rewrite decide_False.
  - eexists. erewrite pop_view by done. rewrite decide_True by done. split; [done|]. split; [|split; [done|]].
    { split; simpl; [lia|]. rewrite Hr. lia. }
    split; [|split; [|done]].
    + eapply stored_stable; [exact (pop_stable key p cb e q _ D c Hwf Hp He Hr Hq)| |by apply (ko_stored _ _ _ HK _ _ Hv)].
      intros d t Hd Hb. by apply (pop_data key p cb e q D c Hwf Hp He Hr Hq HD key e d t).
    + intros e0 He0 _. by assert (e0 = e) as -> by congruence.
Qed.

Lemma pop_waits c S S' key p e cb q n D cn s :
  waits_ok (Some key) c S → wf c [] → cacheMap_ c !! key = Some p → entries c !! p = Some e →
  isReserved e = true → queue e = cb :: q → (∀ b, b ∈ D → unowned c b) → (0 < n)%Z → is_size n →
  S !! cn = Some s → waits s key cb → (∀ cn2 s2, S !! cn2 = Some s2 → active s2 = active s → cn2 = cn) →
  (∀ cn2, cn2 ≠ cn → S' !! cn2 = S !! cn2) → (∀ s', S' !! cn = Some s' → ¬ waiting s') →
  waits_ok (Some key) (pop_state p e cb q n D c) S'.
Proof.
  intros HW Hwf Hp He Hr Hq HD Hn Hsz HS Hws Hinj Hsame Hno.
  assert (view c key = Some e) as Hv by (unfold view; by rewrite Hp).
  assert (rqueue c key = Some (cb :: q)) as Hrq by (rewrite (rqueue_view _ _ _ Hv), Hr; by rewrite Hq).
  pose proof (pop_view key p cb e q n D c Hwf Hp) as Hv'.
  pose proof (pop_wf key p cb e q n D c Hwf Hp He Hr Hq HD Hn Hsz) as Hwf'.
  assert (∀ key2, key2 ≠ key → alike c (pop_state p e cb q n D c) key2) as Hoth.
  { intros key2 Hne. apply alike_view. by rewrite Hv', decide_False. }
  assert (rqueue (pop_state p e cb q n D c) key = Some q) as Hrq'.
  { unfold rqueue. rewrite Hv', decide_True by done. simpl. by rewrite Hr. }
  refine (waits_remove key c _ S S' cn s cb q HW HS Hws Hrq (queue_NoDup _ _ _ Hwf Hrq) Hrq' Hoth _ Hinj Hsame Hno).
  intros key2 q2 cb2 Hq2 Hin. apply (pop_stable key p cb e q n D c Hwf Hp He Hr Hq).
  - intros Hd. eapply (queue_owned _ _ _ _ Hwf' Hq2 Hin). by eapply (pop_unowned key p cb e q n D c).
  - destruct (decide (key2 = key)) as [->|Hne].
    + eapply queued_live; [done|exact Hrq|]. assert (q2 = q) as -> by congruence. by right.
    + destruct (Hoth key2 Hne) as [Eq _]. rewrite Eq in Hq2. by eapply queued_live.
Qed.

(** The state as it would be if the queue of the reserved entry were [q]: while
    the callbacks run, [queue] still has the ones that were deleted. *)
Definition leftover (p : loc) q e c : Cache closure F :=
  set_entries (<[p := with_queue q (with_isReserved true e)]> (entries c)) c.

Lemma leftover_entry p q e c : entries (leftover p q e c) !! p = Some (with_queue q (with_isReserved true e)).
Proof. apply lookup_insert_eq. Qed.

Lemma leftover_pop p cb q e n D c :
  pop_state p (with_queue (cb :: q) (with_isReserved true e)) cb q n D (leftover p (cb :: q) e c) =
  leftover p q (with_refCount n e)
    (set_heap (delete cb (delete_blocks D (heap c))) (set_entries (<[p := with_refCount n e]> (entries c)) c)).
Proof. unfold pop_state, leftover, set_heap, set_entries. simpl. by rewrite !insert_insert_eq. Qed.

Lemma set_entries_id p e c : entries c !! p = Some e → set_entries (<[p := e]> (entries c)) c = c.
Proof. intros He. rewrite insert_id by done. by destruct c. Qed.

Lemma leftover_id p e c : entries c !! p = Some e → isReserved e = true → leftover p (queue e) e c = c.
Proof. intros He Hr. unfold leftover. destruct e; simpl in *. subst. by apply set_entries_id. Qed.

(** The last callback has run. *)
Definition unreserved (p : loc) e c : Cache closure F := set_entries (<[p := with_isReserved false e]> (entries c)) c.

Lemma unreserved_inv N c S key p e :
  keys_ok N (leftover p [] e c) S → waits_ok (Some key) (leftover p [] e c) S → cacheMap_ c !! key = Some p →
  has_hash key →
  keys_ok N (unreserved p e c) S ∧ waits_ok None (unreserved p e c) S ∧ stable [] (leftover p [] e c) (unreserved p e c).
Proof.
  intros HK HW Hp Hkey. set (v := leftover p [] e c) in *. pose proof (ko_wf _ _ _ HK) as Hwf.
  assert (unreserved p e c = set_entries (<[p := with_isReserved false e]> (entries v)) v) as ->.
  { unfold unreserved, v, leftover, set_entries. simpl. by rewrite insert_insert_eq. }
  pose proof (leftover_entry p [] e c) as Hep. fold v in Hep. assert (cacheMap_ v !! key = Some p) as Hpv by exact Hp.
  set (ev := with_queue [] (with_isReserved true e)) in *.
  assert (view v key = Some ev) as Hv by (unfold view; rewrite Hpv; exact Hep).
  pose proof (pop_entry_ok key p ev v Hwf Hpv Hep) as Hok.
  assert (wf (set_entries (<[p := with_isReserved false e]> (entries v)) v) []) as Hwf'.
  { eapply wf_update; [exact Hwf|exact Hpv|exact Hep| |].
    - destruct Hok as [On Od Oq Oqn Or Oz Os Ores]. by split; simpl; eauto.
    - intros b Hb. left. unfold owned in *. simpl in *. set_solver. }
  assert (stable [] v (set_entries (<[p := with_isReserved false e]> (entries v)) v)) as Hst.
  { eapply stable_entry; [exact Hep|]. intros b Hb. left. unfold owned in *. simpl in *. set_solver. }
  pose proof (view_update v [] key p (with_isReserved false e) Hwf Hpv) as Hv'.
  split; [|split; [|done]].
  - eapply (keys_step N N v _ S _ [] key); [exact HK|exact Hwf'|done|exact Hst|lia|intros; apply not_elem_of_nil|..].
    + intros key2 Hne. by rewrite Hv', decide_False.
    + eexists. rewrite Hv', decide_True by done. split; [done|]. split; [|split; [done|split; [|split; [|by left]]]].
      * destruct (ko_refs _ _ _ HK _ _ Hv) as [H1 H2]. split; simpl in *; lia.
      * eapply stored_stable; [exact Hst|intros; apply not_elem_of_nil|].
        exact (stored_data _ _ ev _ eq_refl eq_refl (ko_stored _ _ _ HK _ _ Hv)).
      * intros e0 He0 _. by assert (e0 = ev) as -> by congruence.
  - eapply (waits_unreserve key v); [exact HW| | | |].
    + by rewrite (rqueue_view _ _ _ Hv).
    + unfold rqueue. by rewrite Hv', decide_True.
    + intros key2 Hne. apply alike_view. by rewrite Hv', decide_False.
    + done.
Qed.

End inv.

End HttpCacheInv.
