(* ===== verification/HttpSafe.v ===== *)
(** The handlers of the web server run without a fault, and keep its invariant.

    [inv] puts the invariants of [HttpInv] and [HttpCacheInv] together.  A handler
    is [safe] if it runs without a fault to a state of the invariant; the lemmas
    show it for the handlers that fetch, read, write and accept.  [HttpBlocks]
    does the same for the end of reading a block. *)
From S2P Require Import Prelude FastFIFO Cache CacheProps CacheRun Connection HttpParse HttpHandlers HttpRun HttpInv HttpCacheInv.

Module HttpSafe.
Import Connection HttpParse Cache CacheProps CacheRun HttpHandlers HttpRun HttpInv HttpCacheInv.

Section server.
Context {OSt F : Type} `{HO : OS OSt} `{HF : FIFO F loc} `{HL : !FIFOLaws F loc} `{HP : Platform} `{HG : Content}.
Abbreviation rest := (rest OSt).
Abbreviation server := (server OSt F).
Implicit Types (r : rest) (s : session) (k : HPKG) (S : gmap loc session) (c : Cache closure F) (e : CacheEntry).

(** The listening connection. *)
Context {L : loc}.
Record inv (run : option loc) (busy : option string) (N : Z) c r S : Prop := {
  iv_rest : inv_rest L run r S;
  iv_keys : keys_ok N c S;
  iv_waits : waits_ok busy c S;
  iv_blocks : blocks_ok c r;
}.

Definition safe (N : Z) (m : prog server unit) (w : server) : Prop :=
  ∃ c' r' S', m w = Ok (tt, (c', r')) ∧ inv None None N c' r' S'.

Lemma safe_eq N m m' w w' : m w = m' w' → safe N m' w' → safe N m w.
Proof. unfold safe. by intros ->. Qed.

Lemma inv_mono run busy N N' c r S : (N ≤ N')%Z → inv run busy N c r S → inv run busy N' c r S.
Proof.
  intros HN [H1 H2 H3 H4]. split; try done. pose proof H2 as [Hwf _ _ _ _].
  eapply (keys_same N N' c c S S []); try done. intros. apply not_elem_of_nil.
Qed.

Lemma safe_mono N N' m w : (N ≤ N')%Z → safe N m w → safe N' m w.
Proof. intros HN (c' & r' & S' & Hm & HI). exists c', r', S'. split; [done|]. by eapply inv_mono. Qed.

(** ** The end of a package *)

Lemma frees_live c r pk k : blocks_ok c r → pkgs (web r) !! pk = Some k → blocks_live k c.
Proof.
  intros HB Hk. split.
  - pose proof (bo_one _ _ HB _ _ Hk). destruct (frees k) as [|b [|]]; [apply NoDup_nil_2|apply NoDup_singleton|simpl in *; lia].
  - intros b Hb. destruct (bo_block _ _ HB pk b) as [[t Ht] _]; [left; eauto|by eexists].
Qed.

Lemma frees_unowned c r pk k b : blocks_ok c r → pkgs (web r) !! pk = Some k → b ∈ frees k → unowned c b.
Proof. intros HB Hk Hb. apply (bo_block _ _ HB pk b). left. eauto. Qed.

(** Without a package, and with all other blocks as they were. *)
Lemma blocks_without c c' r r' a k D :
  blocks_ok c r → pkgs (web r) !! a = Some k → stable D c c' → (∀ b, b ∈ D → b ∈ frees k ∨ ¬ unowned c b) →
  (∀ pk b, owns r' pk b → owns r pk b ∧ pk ≠ a) → frees_one r' → blocks_ok c' r'.
Proof.
  intros HB Hk Hst HD Hsub Hone. eapply blocks_sub; [exact HB|exact Hst| |exact Hone].
  intros pk b Ho. destruct (Hsub pk b Ho) as [Ho' Hne]. split; [done|]. intros [Hb|Hb]%HD.
  - apply Hne. eapply (bo_own _ _ HB); [exact Ho'|]. left. eauto.
  - apply Hb. by apply (bo_block _ _ HB pk).
Qed.

(** What [svr_http_final] does for an idle session with a request. *)
Lemma final_child_facts run busy N c r S cn s a rest' :
  inv run busy N c r S → S !! cn = Some s → idle (s_cont s) → s_rest s = a :: rest' →
  ∃ k r', pkgs (web r) !! a = Some k ∧
    (∀ c0, blocks_live k c0 → final a (c0, r) = Ok (tt, (free_blocks (frees k) c0, r'))) ∧
    inv_rest L (stop cn run) r' (<[cn := mkSession (s_parent s) rest' (CTask (next_of (s_parent s) rest'))]> S) ∧
    ∀ D c', stable D c c' → (∀ b, b ∈ D → b ∈ frees k ∨ ¬ unowned c b) → blocks_ok c' r'.
Proof.
  intros [HI HK HW HB] HS Hid Er. pose proof (ir_session _ _ _ _ HI _ _ HS) as Hs.
  destruct (so_parent _ _ _ _ Hs) as (kp & Hkp & Hpf).
  destruct (so_child _ _ _ _ Hs 0 a) as (k & Hk & (Hcn & Hpp & Hsib) & _); [by rewrite Er|].
  rewrite Er in Hsib. simpl in Hsib.
  assert (s_parent s ≠ a) as HPa.
  { pose proof (so_nodup _ _ _ _ Hs) as Hnd. unfold own_pkgs in Hnd. rewrite Er in Hnd. apply NoDup_cons in Hnd. set_solver. }
  exists k, (child_ended (s_parent s) a rest' kp k r). split; [done|]. split; [|split].
  - intros c0 Hb. rewrite <-(set_pkg_id a k r Hk) at 1. pose proof (ir_garbage _ _ _ _ HI) as Ht.
    destruct rest' as [|g rest'']; [by eapply final_last|by eapply final_sibling].
  - by apply inv_end_child.
  - intros D c' Hst HD. eapply blocks_without; [exact HB|exact Hk|exact Hst|exact HD| |].
    + intros pk b. by eapply owns_child_ended.
    + intros pk k2 [Hne Hl]%child_ended_lookup; [|done..]. case_decide; [|by eapply (bo_one _ _ HB)].
      subst k2. pose proof (bo_one _ _ HB _ _ Hkp). by destruct rest'.
Qed.

Lemma final_parent_facts run busy N c r S cn s k (c2 : Conn) :
  inv run busy N c r S → S !! cn = Some s → idle (s_cont s) → s_rest s = [] →
  pkgs (web r) !! s_parent s = Some k → cpp c2 = Some L →
  ∃ r', final (s_parent s) (c, set_pkg (s_parent s) k (set_conn cn c2 r)) = Ok (tt, (free_blocks (frees k) c, r')) ∧
    inv_rest L (stop cn run) r' (delete cn S) ∧
    ∀ D c', stable D c c' → (∀ b, b ∈ D → b ∈ frees k ∨ ¬ unowned c b) → blocks_ok c' r'.
Proof.
  intros [HI HK HW HB] HS Hid Er Hk Hp. pose proof (ir_session _ _ _ _ HI _ _ HS) as Hs.
  destruct (so_parent _ _ _ _ Hs) as (k2 & Hk2 & Hcn & Hpp & _ & Hfd & _). assert (k2 = k) as -> by congruence.
  set (r0 := set_conn cn c2 r). pose proof (so_listen _ _ _ _ Hs) as HcL.
  assert (close_hfd k (wnet (web r0)) = wnet (web r0)) as Hcl by (unfold close_hfd; by rewrite decide_True).
  destruct (close_run L cn (wnet (web r0)) c2) as (e & m & Hm & Hcx & HL' & Hcs & Hlive); [|done| |done|].
  { apply lookup_insert_eq. }
  { unfold r0. simpl. rewrite lookup_insert_ne by done. apply (ir_listen _ _ _ _ HI). }
  exists (parent_ended (s_parent s) m r). split; [|split].
  - eapply final_parent; [apply (ir_garbage _ _ _ _ HI)|by eapply frees_live|done|]. rewrite Hcl, Hcn. exact Hm.
  - eapply inv_end_parent; try done.
    + intros cn2 H1 H2. rewrite Hcs by done. unfold r0. simpl. by rewrite lookup_insert_ne.
    + intros cn2 Hc. apply Hlive in Hc. unfold r0 in Hc. simpl in Hc. apply lookup_insert_is_Some' in Hc as [<-|]; [|done].
      destruct (so_conn _ _ _ _ Hs) as (c3 & ? & _). by eexists.
  - intros D c' Hst HD. eapply blocks_without; [exact HB|exact Hk|exact Hst|exact HD| |].
    + intros pk b. by eapply owns_parent_ended.
    + intros pk k3 [Hne Hl]%parent_ended_lookup. by eapply (bo_one _ _ HB).
Qed.

Lemma not_waiting_run s : s_cont s = CRun → ¬ waiting s.
Proof. intros E (key & cb & [[f Hw]|Hw]); congruence. Qed.

(** A session goes on in another way, and neither holds a key. *)
Lemma keys_session N c S cn s s' :
  keys_ok N c S → S !! cn = Some s → hold_of s' = hold_of s → keys_ok N c (<[cn := s']> S).
Proof.
  intros HK HS Hh. eapply (keys_same N N _ _ S _ []); [exact HK|apply HK|done|done|done|intros; apply not_elem_of_nil|done|].
  by eapply same_held_insert.
Qed.

Lemma waits_session busy c S cn s s' :
  waits_ok busy c S → S !! cn = Some s → ¬ waiting s → ¬ waiting s' → waits_ok busy c (<[cn := s']> S).
Proof.
  intros HW HS Hs Hs'. eapply waits_same; [exact HW|done|done|]. intros cn2 s2 Hw2. rewrite lookup_insert_Some. split.
  - intros [[<- <-]|[_ ?]]; done.
  - intros Hs2. right. split; [|done]. intros <-. by assert (s2 = s) as -> by congruence.
Qed.

Lemma task_not_waiting P rest t : ¬ waiting (mkSession P rest (CTask t)).
Proof. by intros (? & ? & [[? [=]]|[=]]). Qed.

(** A handler ends with the end of its package, after the cache became [c']. *)
Lemma final_child_inv N c r S cn s a rest' :
  inv (Some cn) None N c r S → S !! cn = Some s → s_rest s = a :: rest' →
  ∃ k r' S', pkgs (web r) !! a = Some k ∧
    (∀ c0, blocks_live k c0 → final a (c0, r) = Ok (tt, (free_blocks (frees k) c0, r'))) ∧
    ∀ N' c', stable (frees k) c c' → keys_ok N' c' S → waits_ok None c' S → inv None None N' c' r' S'.
Proof.
  intros HV HS Er. pose proof HV as [HI HK HW HB].
  pose proof (proj2 (ir_run _ _ _ _ HI _ _ HS) eq_refl) as Hrun.
  destruct (final_child_facts _ _ _ _ _ _ _ _ _ _ HV HS ltac:(by rewrite Hrun) Er) as (k & r' & Hk & Hf & HI' & HB').
  eexists k, r', _. split; [done|]. split; [done|]. intros N' c' Hst HK' HW'.
  replace (stop cn (Some cn)) with (@None loc) in HI' by (unfold stop; by rewrite decide_True).
  split; [exact HI'| | |by eapply HB'; [exact Hst|left]].
  - eapply keys_session; [exact HK'|exact HS|]. unfold hold_of. by rewrite Hrun.
  - eapply waits_session; [exact HW'|exact HS|by apply not_waiting_run|apply task_not_waiting].
Qed.

Lemma final_child_safe N c r S cn s a rest' :
  inv (Some cn) None N c r S → S !! cn = Some s → s_rest s = a :: rest' → safe N (final a) (c, r).
Proof.
  intros HV HS Er. pose proof HV as [_ HK HW HB].
  destruct (final_child_inv _ _ _ _ _ _ _ _ HV HS Er) as (k & r' & S' & Hk & Hf & HV').
  destruct (free_blocks_inv (frees k) _ _ _ _ HK HW) as [HK' HW']; [intros b Hb; by eapply frees_unowned|].
  eexists _, _, _. split; [apply Hf; by eapply frees_live|]. apply HV'; [apply free_blocks_stable|done..].
Qed.

Lemma final_parent_safe N c r S cn s k (c2 : Conn) :
  inv (Some cn) None N c r S → S !! cn = Some s → s_rest s = [] →
  pkgs (web r) !! s_parent s = Some k → cpp c2 = Some L →
  safe N (final (s_parent s)) (c, set_pkg (s_parent s) k (set_conn cn c2 r)).
Proof.
  intros HV HS Er Hk Hp. pose proof HV as [HI HK HW HB].
  pose proof (proj2 (ir_run _ _ _ _ HI _ _ HS) eq_refl) as Hrun.
  destruct (final_parent_facts _ _ _ _ _ _ _ _ _ _ HV HS ltac:(by rewrite Hrun) Er Hk Hp) as (r' & Hf & HI' & HB').
  destruct (free_blocks_inv (frees k) _ _ _ _ HK HW) as [HK' HW']; [intros b Hb; by eapply frees_unowned|].
  eexists _, _, _. split; [exact Hf|].
  replace (stop cn (Some cn)) with (@None loc) in HI' by (unfold stop; by rewrite decide_True).
  split; [exact HI'| | |by eapply HB'; [apply free_blocks_stable|left]].
  - eapply (keys_same N N _ _ S _ []); [exact HK'|apply HK'|done|done|done|intros; apply not_elem_of_nil|done|].
    apply (same_held_delete _ _ s); [done|]. unfold hold_of. by rewrite Hrun.
  - eapply waits_same; [exact HW'|done|done|]. intros cn2 s2 Hw2. rewrite lookup_delete_Some. split; [tauto|].
    intros Hs2. split; [|done]. intros <-. assert (s2 = s) as -> by congruence. by eapply not_waiting_run.
Qed.

(** ** Handlers that run *)

(** What a running handler finds. *)
Lemma running_facts busy N c r S cn s :
  inv (Some cn) busy N c r S → S !! cn = Some s →
  s_cont s = CRun ∧ tidy r ∧ wf c [] ∧ ∃ k cc, pkgs (web r) !! active s = Some k ∧ cpn k = cn ∧
    conns_of r !! cn = Some cc ∧ cpp cc = Some L ∧ (cst cc = CS_CONNECTED ∨ cst cc = CS_CLOSING_W).
Proof.
  intros [HI HK _ _] HS. pose proof (ir_session _ _ _ _ HI _ _ HS) as Hs.
  split; [by apply (ir_run _ _ _ _ HI _ _ HS)|]. split; [apply HI|]. split; [apply HK|].
  destruct (active_live _ _ _ _ Hs) as (k & Hk & Hcn & _). destruct (so_conn _ _ _ _ Hs) as (cc & Hc & Hp & Hst).
  exists k, cc. split_and!; try done. tauto.
Qed.

Lemma inv_update N c r S cn s k k' :
  inv (Some cn) None N c r S → S !! cn = Some s → pkgs (web r) !! active s = Some k →
  links k k' → (s_rest s = [] → parent_rest k') → (∀ b, b ∈ frees k' → b ∈ frees k) → length (frees k') ≤ 1 →
  inv (Some cn) None N c (set_pkg (active s) k' r) S.
Proof.
  intros [HI HK HW HB] HS Hk Hl Hpr Hsub Hone. split; [by eapply inv_set_pkg|done|done|].
  eapply (blocks_sub c c r _ []); [exact HB|done| |by apply frees_one_set; [exact (bo_one _ _ HB)|]].
  intros pk b Ho. split; [by eapply owns_set_pkg_sub|apply not_elem_of_nil].
Qed.

(** The handler ends by starting an operation for which it holds [held]. *)
Definition going id held s : session := with_cont (CIo id held) s.

Lemma going_not_waiting id held s : ¬ waiting (going id held s).
Proof. by intros (? & ? & [[? [=]]|[=]]). Qed.

Lemma inv_going N N' c c' r S cn s k k' x held :
  inv (Some cn) None N c r S → S !! cn = Some s → pkgs (web r) !! active s = Some k →
  links k k' → (s_rest s = [] → parent_rest k') → io_facts x s held k' →
  (∀ cc, conns_of r !! cn = Some cc → cst cc = CS_CONNECTED ∨ cst cc = CS_CLOSING_W ∧ io_ok x = ParseAio ∧ s_rest s = []) →
  keys_ok N' c' (<[cn := going (io_next r) held s]> S) → waits_ok None c' S → blocks_ok c' (set_pkg (active s) k' r) →
  inv None None N' c' (add_io x (set_pkg (active s) k' r)) (<[cn := going (io_next r) held s]> S).
Proof.
  intros HV HS Hk Hl Hpr Hx Hopen HK' HW' HB'. destruct (running_facts _ _ _ _ _ _ _ HV HS) as (Hrun & _).
  destruct HV as [HI HK HW HB]. split; [|done| |].
  - replace (@None loc) with (stop cn (Some cn)) by (unfold stop; by rewrite decide_True).
    eapply inv_start; try done; [by rewrite Hrun|]. left. by exists held.
  - eapply waits_session; [done|done|by apply not_waiting_run|apply going_not_waiting].
  - eapply (blocks_sub c' c' _ _ []); [exact HB'|done| |apply HB'].
    intros pk b [Ho|(Hx' & _)]%owns_add_io; [split; [done|apply not_elem_of_nil]|].
    destruct Hx as (_ & Hx). by rewrite Hx' in Hx.
Qed.

Lemma holders_going key id held S cn s :
  S !! cn = Some s → s_cont s = CRun →
  holders key (<[cn := going id held s]> S) = holders key S + (if decide (h_key <$> held = Some key) then 1 else 0).
Proof.
  intros HS Hrun. pose proof (holders_insert key S cn s (going id held s) HS) as E.
  unfold holds, held_key, hold_of in E. rewrite Hrun in E. simpl in E. lia.
Qed.

Lemma held_going h id held S cn s :
  HttpCacheInv.held h (<[cn := going id held s]> S) → held = Some h ∨ HttpCacheInv.held h S.
Proof. apply held_insert. Qed.

Lemma same_held_going id S cn s :
  S !! cn = Some s → s_cont s = CRun → same_held S (<[cn := going id None s]> S).
Proof. intros HS Hrun. apply (same_held_insert _ _ s); [done|]. unfold hold_of. by rewrite Hrun. Qed.

(** ** Reading *)

Lemma read_safe clo N c r S cn s :
  inv (Some cn) None N c r S → S !! cn = Some s → s_rest s = [] → safe N (svr_http_read clo (active s)) (c, r).
Proof.
  intros HV HS Er. destruct (running_facts _ _ _ _ _ _ _ HV HS) as (Hrun & Ht & Hwf & k & cc & Hk & Hcn & Hcc & Hp & Hst).
  pose proof HV as [HI HK HW HB]. pose proof (ir_session _ _ _ _ HI _ _ HS) as Hs.
  destruct (parent_active _ _ _ _ _ Hs Hk Er) as (P1 & P2 & P3).
  assert (cst cc ≠ CS_CLOSING ∧ cst cc ≠ CS_CLOSING_R) as [Hc1 Hc2] by (split; intros E; rewrite E in Hst; naive_solver).
  assert (frees k = option_list (ch_p (chead (rsp k)))) as Hfk.
  { unfold frees, delete_charn. rewrite P2, P3. simpl. by destruct (ch_cached (cbody (rsp k))); rewrite app_nil_r. }
  rewrite <-(set_pkg_id _ _ _ Hk). subst cn.
  assert (∀ cc2, conns_of r !! cpn k = Some cc2 → cst cc2 = CS_CONNECTED ∨ cst cc2 = CS_CLOSING_W ∧ ParseAio = ParseAio ∧ s_rest s = []) as Hopen.
  { intros cc2 Hcc2. assert (cc2 = cc) as -> by congruence. destruct Hst; [by left|by right]. }
  destruct (ch_p (chead (rsp k))) as [b|] eqn:Hb.
  - assert (owns r (active s) b) as Ho by (left; exists k; split; [done|]; rewrite Hfk; simpl; by left).
    destruct (bo_block _ _ HB _ _ Ho) as [[t Hbt] Hu].
    eexists _, _, _. split; [by eapply read_run|].
    destruct (heap_change [b] N None c (fill_state b EmptyString c) S) as [HK' HW']; try done.
    { by apply fill_state_wf; [..|by eexists]. }
    { apply stable_set_heap. intros b' Hb'. apply lookup_insert_ne. intros <-. apply Hb'. by left. }
    { by intros b' ->%list_elem_of_singleton. }
    eapply inv_going; [exact HV|exact HS|exact Hk|done|done| |exact Hopen| |exact HW'|].
    + split; [done|]. simpl. rewrite Hb. split_and!; try done.
    + eapply (keys_same N N _ _ S _ []); [exact HK'|apply HK'|done|done|done|intros; apply not_elem_of_nil|done|].
      by apply same_held_going.
    + eapply blocks_sub with (D := []); [by eapply blocks_fill|done| |].
      * intros pk b' Ho'. split; [|apply not_elem_of_nil]. eapply owns_set_pkg_sub; [exact Hk| |exact Ho']. done.
      * apply frees_one_set; [exact (bo_one _ _ HB)|]. exact (bo_one _ _ HB (active s) k Hk).
  - eexists _, _, _. split; [by eapply read_run_new|].
    destruct (heap_change [] N None c (alloc_state (BData EmptyString) c) S) as [HK' HW']; try done.
    { by apply wf_alloc. } { by apply stable_alloc. } { intros b' Hb'. by apply elem_of_nil in Hb'. }
    assert (frees (with_buffer (brk c) (with_hst HS_READING k)) = [brk c]) as Hfr.
    { unfold frees, delete_charn. simpl. rewrite P2, P3. simpl. by destruct (ch_cached (cbody (rsp k))). }
    eapply inv_going; [exact HV|exact HS|exact Hk|done|done| |exact Hopen| |exact HW'|].
    + split; [done|]. simpl. split_and!; try done.
    + eapply (keys_same N N _ _ S _ []); [exact HK'|apply HK'|done|done|done|intros; apply not_elem_of_nil|done|].
      by apply same_held_going.
    + eapply (blocks_new c _ r _ (active s) (brk c)); [exact HB|by apply stable_alloc| |apply lookup_insert_eq| | |].
      * apply (wf_brk _ _ Hwf). lia.
      * exact (wf_brk_unowned c _ Hwf).
      * intros pk b' [?|[-> Hin]]%owns_set_pkg; [by left|right]. rewrite Hfr in Hin. by apply list_elem_of_singleton in Hin.
      * apply frees_one_set; [exact (bo_one _ _ HB)|]. by rewrite Hfr.
Qed.

(** ** A reference more or less *)

Lemma rqueue_free c key e : view c key = Some e → isReserved e = false → rqueue c key = None.
Proof. unfold rqueue. intros -> Hr. simpl. by rewrite Hr. Qed.

(** The number of references of the entry [e] of [key] becomes [n]. *)
Lemma waits_entry c c' S key e n :
  waits_ok None c S → view c key = Some e →
  (∀ key2, view c' key2 = if decide (key2 = key) then Some (with_refCount n e) else view c key2) →
  stable [] c c' → waits_ok None c' S.
Proof.
  intros HW He Hv Hst. eapply waits_same; [exact HW| | |done].
  - intros key2. unfold alike, rqueue, rdata. rewrite Hv. case_decide; [|done]. subst key2. by rewrite He.
  - intros key2 q cb Hq Hcb. apply Hst; [apply not_elem_of_nil|].
    destruct (wo_queue _ _ _ HW _ _ _ Hq Hcb) as (cn & s & Hs & Hws).
    destruct (wo_wait _ _ _ HW _ _ _ _ Hs Hws) as (? & _ & _ & Hb). by eexists.
Qed.

Lemma header_refCount c e n d t : holds_header c e d t → holds_header c (with_refCount n e) d t.
Proof. done. Qed.

(** What [keys_step] asks of an entry whose number of references changes. *)
Lemma refCount_kept N c c' S S' key e n :
  keys_ok N c S → stable [] c c' → view c key = Some e → (∀ h, held h S' → held h S ∨ h_key h = key ∧ backs e h) →
  (¬ has_hash key → ∃ d t, holds_header c' (with_refCount n e) d t) ∧ stored c' key (with_refCount n e) ∧
  (∀ e0, view c key = Some e0 → is_Some (data e0) → data (with_refCount n e) = data e0 ∧ size (with_refCount n e) = size e0) ∧
  (∀ h, held h S' → held h S ∨ h_key h = key ∧ backs (with_refCount n e) h).
Proof.
  intros HK Hst Hv Hnew. split; [|split; [|split; [|exact Hnew]]].
  - intros Hh. destruct (ko_header _ _ _ HK _ _ Hv Hh) as (d & t & Hd). exists d, t. apply header_refCount.
    eapply header_stable; [exact Hst|apply not_elem_of_nil|done].
  - eapply stored_stable; [exact Hst|intros; apply not_elem_of_nil|].
    exact (stored_data _ _ e _ eq_refl eq_refl (ko_stored _ _ _ HK _ _ Hv)).
  - intros e0 He0 _. by assert (e0 = e) as -> by congruence.
Qed.

Lemma hit_inv N c S S' key p e :
  keys_ok N c S → waits_ok None c S → (∀ key2, holders key2 S' ≤ holders key2 S + if decide (key2 = key) then 1 else 0) →
  (∀ key2, key2 ≠ key → holders key2 S' = holders key2 S) →
  (∀ h, held h S' → held h S ∨ h_key h = key ∧ backs e h) → (N + 1 < size_t_mod)%Z →
  cacheMap_ c !! key = Some p → entries c !! p = Some e → isReserved e = false →
  keys_ok (N + 1) (hit_state p e c) S' ∧ waits_ok None (hit_state p e c) S ∧ stable [] c (hit_state p e c).
Proof.
  intros HK HW Hle Hoth Hnew HN Hp He Hr. pose proof (ko_wf _ _ _ HK) as Hwf.
  assert (view c key = Some e) as Hv by (unfold view; by rewrite Hp).
  destruct (ko_refs _ _ _ HK _ _ Hv) as [H1 H2]. rewrite Hr in H2.
  destruct (hit_state_facts key p e c Hwf Hp He) as (Hwf' & Hst & Hv'); [lia|unfold is_size; lia|].
  split; [|split; [|done]].
  - eapply (keys_step N (N + 1) c _ S _ [] key); [exact HK|exact Hwf'|done|exact Hst|lia|intros; apply not_elem_of_nil|..].
    + intros key2 Hne. rewrite Hv', decide_False by done. auto.
    + eexists. rewrite Hv', decide_True by done. split; [done|]. specialize (Hle key). rewrite decide_True in Hle by done.
      split; [split; simpl; [lia|rewrite Hr; lia]|]. by eapply refCount_kept.
  - by eapply waits_entry.
Qed.

Lemma held_entry N c S cn s key :
  keys_ok N c S → S !! cn = Some s → 0 < holds key s →
  ∃ p e, cacheMap_ c !! key = Some p ∧ entries c !! p = Some e ∧ (1 < refCount e)%Z ∧ (refCount e ≤ N)%Z.
Proof.
  intros HK HS Hh. pose proof (map_weight_elem (HttpCacheInv.holds key) _ _ _ HS) as Hge. fold (holders key S) in Hge.
  destruct (view c key) as [e|] eqn:Hv; [|rewrite (ko_held _ _ _ HK) in Hge by done; lia].
  destruct (ko_refs _ _ _ HK _ _ Hv) as [H1 H2].
  destruct (view_entry _ _ _ (ko_wf _ _ _ HK) Hv) as (p & Hp & He). exists p, e. split_and!; try done; lia.
Qed.

Lemma release_inv N c S cn s s' key p e :
  keys_ok N c S → waits_ok None c S → S !! cn = Some s → held_key s = Some key → hold_of s' = None → (N < size_t_mod)%Z →
  cacheMap_ c !! key = Some p → entries c !! p = Some e → (1 < refCount e)%Z →
  keys_ok N (release_state p e c) (<[cn := s']> S) ∧
  waits_ok None (release_state p e c) S ∧ stable [] c (release_state p e c).
Proof.
  intros HK HW HS Hkey Hs' HN Hp He Hrc. pose proof (ko_wf _ _ _ HK) as Hwf.
  assert (∀ key2, holds key2 s = if decide (key2 = key) then 1 else 0) as Hh.
  { intros key2. unfold holds. rewrite Hkey. repeat case_decide; congruence. }
  assert (view c key = Some e) as Hv by (unfold view; by rewrite Hp).
  destruct (ko_refs _ _ _ HK _ _ Hv) as [H1 H2].
  destruct (release_state_facts key p e c Hwf Hp He Hrc) as (Hwf' & Hst & Hv').
  split; [|split; [|done]].
  - eapply (keys_step N N c _ S _ [] key); [exact HK|exact Hwf'|done|exact Hst|lia|intros; apply not_elem_of_nil|..].
    + intros key2 Hne. rewrite Hv', decide_False by done. split; [done|].
      apply (holders_same _ _ _ s); [done|]. by rewrite holds_none, Hh, decide_False.
    + eexists. rewrite Hv', decide_True by done. split; [done|].
      pose proof (holders_insert key S cn s s' HS) as E. rewrite Hh, holds_none, decide_True in E by done.
      split; [split; simpl; lia|]. eapply refCount_kept; [done..|]. intros h [?|?]%held_insert; [congruence|by left].
  - by eapply waits_entry.
Qed.

(** ** Fetching *)

Section handlers.
(** The closures of the cache are its two callbacks. *)
Variables clo clo' : closure → CacheData → prog server unit.
(** The lemmas are for a platform on which copies of keys fit; [step_kept] of
    [HttpSteps] is the one for any platform. *)
Hypothesis room_for_keys : keys_fit _.
Hypothesis clo_header : ∀ pk cd, clo (HeaderWio pk) cd = svr_http_header_wio clo' pk cd.
Hypothesis clo_body : ∀ pk cd, clo (BodyWio pk) cd = svr_http_body_wio clo' pk cd.

Lemma refuse_safe N c r S cn s a rest' k cc :
  inv (Some cn) None N c r S → S !! cn = Some s → s_rest s = a :: rest' → pkgs (web r) !! a = Some k →
  conns_of r !! cn = Some cc → ¬ closing cc → rsp k = new_reply → version k = None →
  safe N (svr_http_fetch clo a) (c, r).
Proof.
  intros HV HS Er Hk Hcc Hc Hnew Hver.
  assert (active s = a) as Ha by (unfold active; by rewrite Er).
  destruct (running_facts _ _ _ _ _ _ _ HV HS) as (Hrun & Ht & Hwf & k2 & cc2 & Hk2 & Hcn & Hcc2 & _ & Hst).
  assert (k2 = k) as -> by congruence. assert (cc2 = cc) as -> by congruence.
  assert (cst cc = CS_CONNECTED) as Hcon by (destruct Hst as [?|?]; [done|]; exfalso; apply Hc; by right).
  pose proof HV as [HI HK HW HB]. rewrite <-(set_pkg_id _ _ _ Hk). subst cn.
  eexists _, _, _. split; [by eapply fetch_refused|].
  destruct (heap_change [] N None c (alloc_state (BData reply_400) c) S) as [HK' HW']; try done.
  { by apply wf_alloc. } { by apply stable_alloc. } { intros b' Hb'. by apply elem_of_nil in Hb'. }
  rewrite <-Ha.
  assert (frees (refused (brk c) k) = [brk c]) as Hfr by (unfold frees, delete_charn; simpl; by rewrite Hnew).
  eapply inv_going; [exact HV|exact HS|by rewrite Ha|done|by rewrite Er| | | |exact HW'|].
  - split; [done|]. simpl. split; [by rewrite Er|]. split; [done|]. right. rewrite Hnew. by split_and!.
  - intros cc2 Hcc3. left. congruence.
  - eapply (keys_same N N _ _ S _ []); [exact HK'|apply HK'|done|done|done|intros; apply not_elem_of_nil|done|].
    by apply same_held_going.
  - eapply (blocks_new c _ r _ (active s) (brk c)); [exact HB|by apply stable_alloc| |apply lookup_insert_eq| | |].
    + apply (wf_brk _ _ Hwf). lia.
    + exact (wf_brk_unowned c _ Hwf).
    + intros pk b' [?|[-> Hin]]%owns_set_pkg; [by left|right]. rewrite Hfr in Hin. by apply list_elem_of_singleton in Hin.
    + apply frees_one_set; [exact (bo_one _ _ HB)|]. by rewrite Hfr.
Qed.

(** The package answers the request from the cache: nothing of its own is left. *)
Lemma blocks_served c c' r pk k k' :
  blocks_ok c r → stable [] c c' → pkgs (web r) !! pk = Some k → frees k' = [] → blocks_ok c' (set_pkg pk k' r).
Proof.
  intros HB Hst Hk Hfr. eapply blocks_sub; [exact HB|exact Hst| |].
  - intros pk2 b Ho. split; [|apply not_elem_of_nil]. eapply owns_set_pkg_sub; [exact Hk| |exact Ho].
    rewrite Hfr. by intros b' ?%elem_of_nil.
  - apply frees_one_set; [exact (bo_one _ _ HB)|]. rewrite Hfr. simpl. lia.
Qed.

Lemma blocks_sys c r (x : OSt) : blocks_ok c r → blocks_ok c (set_sys x r).
Proof. by intros [H1 H2 H3]. Qed.

Lemma inv_sys run busy N c r S (x : OSt) : inv run busy N c r S → inv run busy N c (set_sys x r) S.
Proof. intros [[H1 H2 H3 H4 H5 H6 H7 H8 H9 H10 H11] HK HW HB].
  split; [split|done|done|by apply blocks_sys]; try done. intros cn s HS. by destruct (H1 cn s HS).
Qed.

(** Holding the key of an operation is one reference more. *)
Lemma going_holders h id S cn s key2 :
  S !! cn = Some s → s_cont s = CRun →
  holders key2 (<[cn := going id (Some h) s]> S) = holders key2 S + if decide (key2 = h_key h) then 1 else 0.
Proof. intros HS Hrun. rewrite holders_going by done. simpl. repeat case_decide; naive_solver lia. Qed.

Lemma going_hit N c S cn s id key p e d :
  keys_ok N c S → waits_ok None c S → S !! cn = Some s → s_cont s = CRun → (N + 1 < size_t_mod)%Z →
  cacheMap_ c !! key = Some p → entries c !! p = Some e → isReserved e = false → data e = Some d →
  keys_ok (N + 1) (hit_state p e c) (<[cn := going id (Some (mkHold key d (size e))) s]> S) ∧
  waits_ok None (hit_state p e c) S ∧ stable [] c (hit_state p e c).
Proof.
  intros HK HW HS Hrun HN Hp He Hr Hd. eapply hit_inv; try done.
  - intros key2. rewrite going_holders by done. simpl. lia.
  - intros key2 Hne. rewrite going_holders, decide_False by done. lia.
  - intros h [[= <-]|?]%held_going; [by right|by left].
Qed.

Lemma going_header_put N c S cn s id u pk t :
  keys_ok N c S → waits_ok None c S → S !! cn = Some s → s_cont s = CRun →
  cacheMap_ c !! head_key u = None → plain u → good (head_key u) t → 9 ≤ String.length t → (0 ≤ N)%Z →
  keys_ok (N + 2) (header_put pk u t c)
    (<[cn := going id (Some (mkHold (head_key u) (Pos.succ (new_cb c)) (size_of t))) s]> S) ∧
  waits_ok None (header_put pk u t c) S ∧ stable [] c (header_put pk u t c).
Proof.
  intros HK HW HS Hrun Hk Hpl Hg Ht HN. pose proof (ko_wf _ _ _ HK) as Hwf.
  pose proof (header_put_stable pk u t c Hwf Hk) as Hst. pose proof (header_put_view pk u t c Hwf Hk) as Hv.
  pose proof (proj2 (view_none _ _ _ Hwf) Hk) as Hn.
  split; [|split; [|done]].
  - eapply (keys_step N (N + 2) c _ S _ [] (head_key u)); [exact HK|by apply header_put_wf|done|exact Hst|lia|intros; apply not_elem_of_nil|..].
    + intros key2 Hne. rewrite Hv, going_holders by done. rewrite !decide_False by done. split; [done|lia].
    + eexists. rewrite Hv, decide_True by done. split; [done|].
      rewrite going_holders, decide_True, (ko_held _ _ _ HK) by done.
      assert (refCount (filled (waiting_entry c) (Some (Pos.succ (new_cb c))) (size_of t)) = 2%Z) as E by done.
      split; [split; rewrite E; simpl; lia|]. split; [|split; [|split]].
      * intros _. eexists _, t. split; [done|]. split; [done|]. split; [by apply header_put_heap|done].
      * intros d [= <-]. exists t. split; [by apply header_put_heap|]. by split.
      * intros e0. by rewrite Hn.
      * intros h [[= <-]|?]%held_going; [by right|by left].
  - eapply waits_same; [exact HW| | |done].
    + intros key2. unfold alike, rqueue, rdata. rewrite Hv. case_decide; [|done]. subst key2. by rewrite Hn.
    + intros key2 q cb Hq Hcb. apply Hst; [apply not_elem_of_nil|].
      destruct (wo_queue _ _ _ HW _ _ _ Hq Hcb) as (cn2 & s2 & Hs & Hws).
      destruct (wo_wait _ _ _ HW _ _ _ _ Hs Hws) as (? & _ & _ & Hb). by eexists.
Qed.

(** ** Fetching a request *)

(** The header that is made for the name in the state [y] of the system may be
    stored. *)
Definition header_good (u : text) (y : OSt) : Prop :=
  ∀ v, good (head_key u) (file_header v (os_open (cstr u) y).1 (os_open (cstr u) y).2).

Lemma header_safe N c r S cn s k cc u :
  inv (Some cn) None N c r S → S !! cn = Some s → s_rest s ≠ [] → pkgs (web r) !! active s = Some k →
  conns_of r !! cn = Some cc → ¬ closing cc → uri k = Some u → plain u →
  hfd (rsp k) = (-1)%Z → ch_p (chead (rsp k)) = None → tr_offset (rsp k) = 0%Z →
  frees k = [] → header_good u (sys_of r) → (0 ≤ N)%Z → (N + 2 < size_t_mod)%Z →
  safe (N + 2) (svr_http_header clo (active s)) (c, r).
Proof.
  intros HV HS Er Hk Hcc Hc Hu Hpl Hfd Hch Hoff Hfr Hgood H0 HN.
  destruct (running_facts _ _ _ _ _ _ _ HV HS) as (Hrun & Ht & Hwf & k2 & cc2 & Hk2 & Hcn & Hcc2 & _ & Hst).
  assert (k2 = k) as -> by congruence. assert (cc2 = cc) as -> by congruence.
  assert (cst cc = CS_CONNECTED) as Hcon by (destruct Hst as [?|?]; [done|]; exfalso; apply Hc; by right).
  assert (∀ x (c3 : Conn), conns_of r !! cn = Some c3 → cst c3 = CS_CONNECTED ∨ cst c3 = CS_CLOSING_W ∧ io_ok x = ParseAio ∧ s_rest s = []) as Hopen.
  { intros x c3 Hc3. left. congruence. }
  pose proof HV as [HI HK HW HB]. rewrite <-(set_pkg_id _ _ _ Hk). subst cn.
  destruct (view c (head_key u)) as [e|] eqn:Hv.
  - destruct (ko_header _ _ _ HK _ _ Hv) as (d & t & Hr & Hd & Hb & Hl); [by apply head_key_plain|].
    destruct (view_entry _ _ _ Hwf Hv) as (p & Hp & He).
    destruct (going_hit N c S (cpn k) s (io_next r) (head_key u) p e d) as (HK' & HW' & Hst'); try done; [lia|].
    eexists _, _, _. split; [eapply header_hit; try done; exact Hcc|].
    eapply inv_mono, (inv_going N (N + 1)); [lia|exact HV|exact HS|exact Hk|done|done| |apply Hopen|exact HK'|exact HW'|].
    + split; [done|]. simpl. do 4 (split; [done|]). split; [by eexists|]. split; [|split; [done|by exists u]]. split; [exact Hfr|]. exists u. split; [done|]. split; [done|]. apply Z.eq_le_incl. by symmetry.
    + eapply blocks_served; [exact HB|exact Hst'|exact Hk|exact Hfr].
  - pose proof (proj1 (view_none _ _ _ Hwf) Hv) as Hp. destruct (os_open (cstr u) (sys_of r)) as [fd s'] eqn:Ho.
    set (t := file_header (vern (rsp k)) fd s').
    destruct (going_header_put N c S (cpn k) s (io_next r) u (active s) t) as (HK' & HW' & Hst'); try done; [|apply file_header_long|].
    { unfold t. pose proof (Hgood (vern (rsp k))) as Hg. by rewrite Ho in Hg. }
    eexists _, _, _. split; [eapply header_miss; try done; apply room_for_keys, head_key_length|].
    eapply (inv_going N (N + 2) _ _ (set_sys s' r)); [by apply inv_sys|exact HS|exact Hk|done|done| |apply Hopen|exact HK'|exact HW'|].
    + split; [done|]. unfold opened. unfold frees in *. apply app_nil in Hfr as [_ Hfr].
      case_decide; (do 4 (split; [done|]); split; [by eexists|]; split; [|split; [done|by exists u]]; split; [exact Hfr|]; exists u; simpl; by rewrite ?Hoff).
    + eapply blocks_served; [apply blocks_sys; exact HB|exact Hst'|exact Hk|].
      unfold frees in *. apply app_nil in Hfr as [_ Hfr]. unfold opened. case_decide; exact Hfr.
Qed.

Lemma rest_active s : s_rest s ≠ [] → ∃ rest', s_rest s = active s :: rest'.
Proof. unfold active. destruct (s_rest s) as [|a rest']; [done|]. by exists rest'. Qed.

Lemma version_uri k v : version k = Some v → ∃ u, uri k = Some u.
Proof. unfold version. destruct (met k), (ver k), (uri k) as [u|]; try done. by exists u. Qed.

Lemma fetch_safe N c r S cn s k :
  inv (Some cn) None N c r S → S !! cn = Some s → s_rest s ≠ [] → pkgs (web r) !! active s = Some k →
  rsp k = new_reply → (∀ u, version k ≠ None → uri k = Some u → plain u ∧ header_good u (sys_of r)) → (0 ≤ N)%Z → (N + 2 < size_t_mod)%Z →
  safe (N + 2) (svr_http_fetch clo (active s)) (c, r).
Proof.
  intros HV HS Er Hk Hnew Hpl H0 HN. destruct (rest_active _ Er) as [rest' Er'].
  destruct (running_facts _ _ _ _ _ _ _ HV HS) as (Hrun & Ht & _ & k2 & cc & Hk2 & Hcn & Hcc & _).
  assert (k2 = k) as -> by congruence. subst cn.
  destruct (decide (closing cc)) as [Hc|Hc].
  { eapply (safe_mono N); [lia|]. eapply safe_eq, final_child_safe; [|exact HV|exact HS|exact Er'].
    rewrite <-(set_pkg_id _ _ _ Hk). by eapply fetch_closing. }
  destruct (version k) as [v|] eqn:Hv.
  2:{ eapply (safe_mono N); [lia|]. by eapply refuse_safe. }
  destruct (version_uri _ _ Hv) as [u Hu].
  set (k1 := update_reply (with_vern v) (fetched k)).
  assert (frees k1 = []) as Hfr by (unfold frees; simpl; by rewrite Hnew).
  eapply (safe_eq _ _ (svr_http_header clo (active s)) _ (c, set_pkg (active s) k1 r)).
  { rewrite <-(set_pkg_id _ _ _ Hk) at 1. by eapply fetch_header. }
  assert (hfd (rsp k1) = (-1)%Z) as Hfd by (simpl; by rewrite Hnew).
  assert (ch_p (chead (rsp k1)) = None) as Hch by (simpl; by rewrite Hnew).
  eapply (header_safe N _ _ S _ _ k1 cc u); try done; [|apply lookup_insert_eq|by apply Hpl|by simpl; rewrite Hnew|by apply Hpl].
  eapply inv_update; try done; rewrite Hfr; simpl; lia.
Qed.

(** ** The next block of the body *)

Lemma wait_keys N c S S' key p e f :
  keys_ok N c S → same_held S S' → has_hash key →
  cacheMap_ c !! key = Some p → entries c !! p = Some e → isReserved e = true →
  keys_ok (N + 1) (wait_state p e f c) S'.
Proof.
  intros HK [Hh Hh'] Hkey Hp He Hr. pose proof (ko_wf _ _ _ HK) as Hwf.
  assert (view c key = Some e) as Hv by (unfold view; by rewrite Hp).
  destruct (ko_refs _ _ _ HK _ _ Hv) as [H1 H2]. rewrite Hr in H2.
  destruct (wait_state_facts key p e f c Hwf Hp He Hr) as (Hwf' & Hst & _ & Hv').
  eapply (keys_step N (N + 1) c _ S _ [] key); [exact HK|exact Hwf'|done|exact Hst|lia|intros; apply not_elem_of_nil|..].
  - intros key2 Hne. by rewrite Hv', decide_False.
  - eexists. rewrite Hv', decide_True, Hh by done. split; [done|]. split; [|split; [done|split; [|split; [|by left; apply Hh']]]].
    + split; simpl; [lia|]. rewrite Hr, length_app. simpl. lia.
    + eapply stored_stable; [exact Hst|intros; apply not_elem_of_nil|].
      exact (stored_data _ _ e _ eq_refl eq_refl (ko_stored _ _ _ HK _ _ Hv)).
    + intros e0 He0 _. by assert (e0 = e) as -> by congruence.
Qed.

Lemma miss_keys N c S S' key f (x : block closure) :
  keys_ok N c S → same_held S S' → has_hash key → (0 ≤ N)%Z →
  cacheMap_ c !! key = None → keys_ok (N + 2) (alloc_state x (reserve_wait key f c)) S'.
Proof.
  intros HK [Hh Hh'] Hkey HN Hp. pose proof (ko_wf _ _ _ HK) as Hwf.
  pose proof (proj2 (view_none _ _ _ Hwf) Hp) as Hn.
  pose proof (reserve_wait_wf key f c Hwf Hp) as Hwf'.
  eapply (keys_step N (N + 2) c _ S _ [] key); [exact HK|by apply wf_alloc|done| |lia|intros; apply not_elem_of_nil|..].
  - eapply stable_trans; [by apply reserve_wait_stable|by apply stable_alloc].
  - intros key2 Hne. split; [|done]. etransitivity; [apply (reserve_wait_view key f c Hwf Hp)|by rewrite decide_False].
  - eexists. split; [etransitivity; [apply (reserve_wait_view key f c Hwf Hp)|by rewrite decide_True]|].
    rewrite Hh, (ko_held _ _ _ HK) by done. split; [|split; [done|split; [done|split; [|by left; apply Hh']]]].
    + split; simpl; lia.
    + intros e0. by rewrite Hn.
Qed.

Lemma wait_waits c S cn s key p e :
  waits_ok None c S → wf c [] → S !! cn = Some s → ¬ waiting s →
  cacheMap_ c !! key = Some p → entries c !! p = Some e → isReserved e = true →
  waits_ok None (wait_state p e (BodyWio (active s)) c) (<[cn := with_cont (CWait key (brk c) None) s]> S).
Proof.
  intros HW Hwf HS Hnw Hp He Hr. assert (view c key = Some e) as Hv by (unfold view; by rewrite Hp).
  destruct (wait_state_facts key p e (BodyWio (active s)) c Hwf Hp He Hr) as (_ & Hst & Hb & Hv').
  eapply (waits_add c _ S cn s key (brk c) (queue e)); try done.
  - unfold rqueue. rewrite Hv', decide_True by done. simpl. by rewrite Hr.
  - unfold rdata. rewrite Hv', decide_True, Hv by done. done.
  - intros key2 Hne. apply alike_view. by rewrite Hv', decide_False.
  - left. split; [|done]. unfold rqueue. rewrite Hv. simpl. by rewrite Hr.
  - intros key2 q cb Hq Hcb. apply Hst; [apply not_elem_of_nil|by eapply queued_live].
Qed.

Lemma miss_waits c S cn s key id (x : block closure) :
  waits_ok None c S → wf c [] → S !! cn = Some s → ¬ waiting s → cacheMap_ c !! key = None →
  waits_ok None (alloc_state x (reserve_wait key (BodyWio (active s)) c))
    (<[cn := with_cont (CWait key (new_cb c) (Some id)) s]> S).
Proof.
  intros HW Hwf HS Hnw Hp. pose proof (proj2 (view_none _ _ _ Hwf) Hp) as Hn.
  pose proof (reserve_wait_view key (BodyWio (active s)) c Hwf Hp) as Hv.
  pose proof (reserve_wait_wf key (BodyWio (active s)) c Hwf Hp) as Hwf'.
  assert (stable [] c (alloc_state x (reserve_wait key (BodyWio (active s)) c))) as Hst.
  { eapply stable_trans; [by apply reserve_wait_stable|by apply stable_alloc]. }
  destruct (reserve_wait_entry key (BodyWio (active s)) c) as (_ & _ & Hb & _).
  eapply (waits_add c _ S cn s key (new_cb c) []); try done.
  - specialize (Hv key). rewrite decide_True in Hv by done. exact (rqueue_view _ _ _ Hv).
  - intros _. specialize (Hv key). rewrite decide_True in Hv by done. unfold rdata.
    refine (eq_trans (f_equal (λ o, o ≫= _) Hv) _). done.
  - intros key2 Hne. apply alike_view. etransitivity; [apply Hv|by rewrite decide_False].
  - right. split; [|split; [done|by eexists]]. unfold rqueue. by rewrite Hn.
  - etransitivity; [|exact Hb]. simpl. apply lookup_insert_ne. unfold new_cb, new_node. lia.
  - intros key2 q cb Hq Hcb. apply Hst; [apply not_elem_of_nil|by eapply queued_live].
Qed.

Lemma free_no_blocks c : free_blocks [] c = c.
Proof. by destruct c. Qed.

Lemma frees_asked u k : frees (body_asked u k) = frees k.
Proof. done. Qed.

Lemma body_hit_safe N c r S cn s k cc u p e :
  inv (Some cn) None N c r S → S !! cn = Some s → s_rest s ≠ [] → pkgs (web r) !! active s = Some k →
  conns_of r !! cn = Some cc → cst cc = CS_CONNECTED → uri k = Some u → plain u → (0 ≤ tr_offset (rsp k))%Z → frees k = [] →
  (N + 1 < size_t_mod)%Z →
  cacheMap_ c !! body_key u (tr_offset (rsp k)) = Some p → entries c !! p = Some e → isReserved e = false →
  safe (N + 1) (svr_http_body clo (active s)) (c, r).
Proof.
  intros HV HS Er Hk Hcc Hcon Hu Hpl Hoff Hfr HN Hp He Hr.
  destruct (running_facts _ _ _ _ _ _ _ HV HS) as (Hrun & Ht & Hwf & k2 & cc2 & Hk2 & Hcn & _).
  assert (k2 = k) as -> by congruence.
  assert (¬ closing cc) as Hc by (intros [E|E]; congruence).
  pose proof HV as [HI HK HW HB]. destruct (data e) as [d|] eqn:Hd.
  - subst cn. destruct (going_hit N c S (cpn k) s (io_next r) _ p e d HK HW HS Hrun HN Hp He Hr Hd) as (HK' & HW' & Hst').
    rewrite <-(set_pkg_id _ _ _ Hk). eexists _, _, _. split; [by eapply body_hit|].
    eapply (inv_going N (N + 1)); [exact HV|exact HS|exact Hk|done|done| | |exact HK'|exact HW'|].
    + split; [done|]. split; [done|]. split; [done|]. left. split; [done|]. split; [done|].
      split; [by eexists|]. split; [exact Hfr|by exists u].
    + intros c3 Hc3. left. congruence.
    + by eapply blocks_served; [exact HB|exact Hst'|exact Hk|].
  - destruct (rest_active _ Er) as [rest' Er'].
    assert (inv (Some cn) None N c (set_pkg (active s) (body_asked u k) r) S) as HV1.
    { eapply inv_update; [exact HV|exact HS|exact Hk|done|by intros|rewrite frees_asked, Hfr; by intros b|].
      rewrite frees_asked, Hfr. simpl. lia. }
    destruct (final_child_inv _ _ _ _ _ _ _ _ HV1 HS Er') as (k1 & r' & S' & Hk1 & Hf & HV').
    simpl in Hk1. rewrite lookup_insert_eq in Hk1. injection Hk1 as <-. rewrite frees_asked, Hfr in *.
    destruct (hit_inv N c S S _ p e HK HW ltac:(lia) ltac:(done) (λ h Hh, or_introl Hh) HN Hp He Hr) as (HK' & HW' & Hst').
    subst cn. rewrite <-(set_pkg_id _ _ _ Hk). eexists _, _, _. split; [|by apply HV'].
    eapply body_hit_none; try done.
    intros c0. rewrite Hf; [by rewrite free_no_blocks|]. split; rewrite frees_asked, Hfr; [by apply NoDup_nil_2|by intros b ?%elem_of_nil].
Qed.

Lemma body_wait_safe N c r S cn s k cc u p e :
  inv (Some cn) None N c r S → S !! cn = Some s → s_rest s ≠ [] → pkgs (web r) !! active s = Some k →
  conns_of r !! cn = Some cc → cst cc = CS_CONNECTED → uri k = Some u → plain u → (0 ≤ tr_offset (rsp k))%Z → frees k = [] →
  cacheMap_ c !! body_key u (tr_offset (rsp k)) = Some p → entries c !! p = Some e → isReserved e = true →
  safe (N + 1) (svr_http_body clo (active s)) (c, r).
Proof.
  intros HV HS Er Hk Hcc Hcon Hu Hpl Hoff Hfr Hp He Hr.
  destruct (running_facts _ _ _ _ _ _ _ HV HS) as (Hrun & Ht & Hwf & k2 & cc2 & Hk2 & Hcn & _).
  assert (k2 = k) as -> by congruence.
  assert (¬ closing cc) as Hc by (intros [E|E]; congruence).
  pose proof HV as [HI HK HW HB]. subst cn.
  destruct (wait_state_facts _ p e (BodyWio (active s)) c Hwf Hp He Hr) as (_ & Hst & _).
  rewrite <-(set_pkg_id _ _ _ Hk). eexists _, _, _. split; [by eapply body_wait|]. split.
  - eapply (inv_wait L (cpn k)); [exact HI|exact HS|exact Hk|done|done| |intros c3 Hc3; congruence].
    split; [done|]. do 3 (split; [done|]). split; [by exists u|]. split; [|exact Hfr].
    unfold frees in Hfr. by apply app_nil in Hfr as [? _].
  - eapply wait_keys; try done; [|by apply body_key_hash].
    apply (same_held_insert _ _ s); [done|]. unfold hold_of. by rewrite Hrun.
  - eapply wait_waits; try done. by apply not_waiting_run.
  - by eapply blocks_served; [exact HB|exact Hst|exact Hk|].
Qed.

(** The session starts to read a block of the file. *)
Lemma inv_missed N c r S cn s k k' cc u off fd :
  inv (Some cn) None N c r S → S !! cn = Some s → s_rest s ≠ [] → pkgs (web r) !! active s = Some k →
  conns_of r !! cn = Some cc → cst cc = CS_CONNECTED → plain u → (0 ≤ off)%Z → (0 ≤ N)%Z →
  cacheMap_ c !! body_key u off = None → tr_offset (rsp k') = off →
  links k k' → hst k' = HS_FETCHING → wst (rsp k') = WS_BODY → bodykey (rsp k') = Some (body_key u off) →
  uri k' = Some u → delete_charn (chead (rsp k')) = [] → ch_p (cbody (rsp k')) = Some (Pos.succ (new_cb c)) →
  inv None None (N + 2) (body_missed (active s) u off c)
    (add_io (file_io (active s) fd (Pos.succ (new_cb c)) off) (set_pkg (active s) k' r))
    (<[cn := with_cont (CWait (body_key u off) (new_cb c) (Some (io_next r))) s]> S).
Proof.
  intros HV HS Er Hk Hcc Hcon Hpl Hoff H0 Hp Et Hl Hh Hw Hb Hu Hd Hcb.
  destruct (running_facts _ _ _ _ _ _ _ HV HS) as (Hrun & Ht & Hwf & _).
  pose proof HV as [HI HK HW HB].
  pose proof (reserve_wait_wf (body_key u off) (BodyWio (active s)) c Hwf Hp) as Hwf'.
  assert (∀ b', b' ∈ frees k' → b' = Pos.succ (new_cb c)) as Hfr.
  { intros b'. unfold frees. rewrite Hd. unfold delete_charn. rewrite Hcb. simpl.
    destruct (ch_cached _); [by intros ?%elem_of_nil|by intros ?%list_elem_of_singleton]. }
  assert (length (frees k') ≤ 1) as Hone.
  { unfold frees. rewrite Hd. unfold delete_charn. rewrite Hcb. simpl. destruct (ch_cached _); simpl; lia. }
  split.
  - replace (@None loc) with (stop cn (Some cn)) by (unfold stop; by rewrite decide_True).
    eapply inv_start; try done; [by rewrite Hrun| |intros c3 Hc3; left; congruence].
    right. eexists _, _. split; [done|]. do 4 (split; [done|]). split; [exists u; by rewrite Et|]. split; [done|].
    eexists _, _. split; [apply lookup_insert_eq|]. by split_and!.
  - eapply miss_keys; try done; [|by apply body_key_hash].
    apply (same_held_insert _ _ s); [done|]. unfold hold_of. by rewrite Hrun.
  - eapply miss_waits; try done. by apply not_waiting_run.
  - eapply (blocks_new c _ r _ (active s) (Pos.succ (new_cb c))); [exact HB| | |apply lookup_insert_eq| | |].
    + eapply stable_trans; [by apply reserve_wait_stable|by apply stable_alloc].
    + apply (wf_brk _ _ Hwf). unfold new_cb, new_node. lia.
    + exact (wf_brk_unowned _ _ Hwf').
    + intros pk b' [[Ho|[-> Hin]]%owns_set_pkg|(_ & -> & [= <-])]%owns_add_io; [by left|right|by right]. split; [done|by apply Hfr].
    + apply frees_one_set; [exact (bo_one _ _ HB)|done].
Qed.

Lemma body_miss_safe N c r S cn s k cc u :
  inv (Some cn) None N c r S → S !! cn = Some s → s_rest s ≠ [] → pkgs (web r) !! active s = Some k →
  conns_of r !! cn = Some cc → cst cc = CS_CONNECTED → uri k = Some u → plain u → (0 ≤ tr_offset (rsp k))%Z → frees k = [] → (0 ≤ N)%Z →
  cacheMap_ c !! body_key u (tr_offset (rsp k)) = None →
  safe (N + 2) (svr_http_body clo (active s)) (c, r).
Proof.
  intros HV HS Er Hk Hcc Hcon Hu Hpl Hoff Hfr H0 Hp.
  destruct (running_facts _ _ _ _ _ _ _ HV HS) as (Hrun & Ht & Hwf & k2 & cc2 & Hk2 & Hcn & _).
  assert (k2 = k) as -> by congruence.
  assert (¬ closing cc) as Hc by (intros [E|E]; congruence).
  assert (delete_charn (chead (rsp k)) = []) as Hch by (unfold frees in Hfr; by apply app_nil in Hfr as [? _]).
  subst cn. rewrite <-(set_pkg_id _ _ _ Hk).
  destruct (decide (hfd (rsp k) = (-1)%Z)) as [Hfd|Hfd].
  - destruct (os_open (cstr u) (sys_of r)) as [fd s'] eqn:Ho.
    eexists _, _, _. split; [eapply body_miss_open; try done; apply room_for_keys, body_key_length|]. eapply (inv_missed N c (set_sys s' r)); try done. by apply inv_sys.
  - eexists _, _, _. split; [eapply body_miss; try done; apply room_for_keys, body_key_length|]. by eapply (inv_missed N c r).
Qed.

Lemma body_safe N c r S cn s k cc :
  inv (Some cn) None N c r S → S !! cn = Some s → s_rest s ≠ [] → pkgs (web r) !! active s = Some k →
  conns_of r !! cn = Some cc → cst cc = CS_CONNECTED → served k → (0 ≤ N)%Z → (N + 2 < size_t_mod)%Z →
  safe (N + 2) (svr_http_body clo (active s)) (c, r).
Proof.
  intros HV HS Er Hk Hcc Hcon (Hfr & u & Hu & Hpl & Hoff) H0 HN. pose proof HV as [_ HK _ _].
  destruct (view c (body_key u (tr_offset (rsp k)))) as [e|] eqn:Hv.
  - destruct (view_entry _ _ _ (ko_wf _ _ _ HK) Hv) as (p & Hp & He). apply (safe_mono (N + 1)); [lia|].
    destruct (isReserved e) eqn:Hr; [by eapply body_wait_safe|]. eapply body_hit_safe; try done. lia.
  - apply (view_none _ _ _ (ko_wf _ _ _ HK)) in Hv. by eapply body_miss_safe.
Qed.

(** ** Operations that are done *)

Definition running s : session := with_cont CRun s.

Lemma running_not_waiting s : ¬ waiting (running s).
Proof. by apply not_waiting_run. Qed.

Lemma io_not_waiting s id held : s_cont s = CIo id held → ¬ waiting s.
Proof. intros E (key & cb & [[f Hw]|Hw]); congruence. Qed.

Lemma keys_drop N c S S' :
  keys_ok N c S → (∀ key, holders key S' ≤ holders key S) → (∀ h, held h S' → held h S) → keys_ok N c S'.
Proof.
  intros [Hwf Hsz Hrefs Hh Hheld Hback Hstored] Hle Hsub. constructor; [done|done| |done| |by auto|done].
  - intros key e He. destruct (Hrefs _ _ He). specialize (Hle key). split; [lia|done].
  - intros key He. specialize (Hle key). rewrite Hheld in Hle by done. lia.
Qed.

(** The session of an operation. *)
Lemma io_session busy N c r S id x :
  inv None busy N c r S → ios r !! id = Some x →
  ∃ cn s k, S !! cn = Some s ∧ pkgs (web r) !! active s = Some k ∧ cpn k = cn ∧
    ((∃ held, s_cont s = CIo id held ∧ io_facts x s held k) ∨
     (∃ key cb b, s_cont s = CWait key cb (Some id) ∧ cont_ok r s k ∧ file_facts x s b k)).
Proof.
  intros [HI _ _ _] Hx. destruct (ir_ios _ _ _ _ HI _ _ Hx) as (cn & s & HS & Ho).
  pose proof (ir_session _ _ _ _ HI _ _ HS) as Hs. destruct (active_live _ _ _ _ Hs) as (k & Hk & Hcn & Hc).
  exists cn, s, k. split; [done|]. split; [done|]. split; [done|].
  unfold cont_ok in *. destruct (s_cont s) as [| |id' held|key cb [id'|]|] eqn:E; try done; simpl in Ho; subst id'.
  - left. exists held. split; [done|]. destruct Hc as (y & Hy & Hf). congruence.
  - right. destruct Hc as (? & ? & ? & ? & ? & ? & y & b & Hy & Hf). exists key, cb, b. split; [done|].
    assert (y = x) as -> by congruence. split; [|done]. split_and!; try done. eauto 10.
Qed.

Lemma inv_taken N c r S id cn s held k :
  inv None None N c r S → S !! cn = Some s → s_cont s = CIo id held → pkgs (web r) !! active s = Some k →
  inv_rest L (Some cn) (del_io id r) (<[cn := running s]> S).
Proof.
  intros [HI HK HW HB] HS Hct Hk. pose proof (ir_session _ _ _ _ HI _ _ HS) as Hs.
  eapply (inv_take L (Some cn) cn r (del_io id r) S s k k); try done; simpl.
  - by rewrite insert_id.
  - by eapply parent_active.
  - apply (ir_garbage _ _ _ _ HI).
  - intros t. rewrite Hct. naive_solver.
  - apply (ir_tasks_nodup _ _ _ _ HI).
  - intros id2 y. rewrite Hct. simpl. rewrite lookup_delete_Some. naive_solver.
  - by left.
Qed.

Lemma taken_inv N c r S id cn s held k :
  inv None None N c r S → S !! cn = Some s → s_cont s = CIo id held → pkgs (web r) !! active s = Some k →
  inv (Some cn) None N c (del_io id r) (<[cn := running s]> S).
Proof.
  intros HV HS Hct Hk. pose proof HV as [HI HK HW HB]. split; [by eapply inv_taken| | |].
  - eapply keys_drop; [exact HK| |by intros h [?|?]%held_insert]. intros key.
    pose proof (holders_insert key S cn s (running s) HS) as E. rewrite (holds_none key (running s)) in E by done. lia.
  - eapply waits_session; [exact HW|exact HS|by eapply io_not_waiting|apply running_not_waiting].
  - eapply blocks_sub; [exact HB|apply (stable_refl [])| |apply HB].
    intros pk b Ho%owns_del_io. split; [done|apply not_elem_of_nil].
Qed.

(** The reference that is held is given back. *)
Lemma taken_release N c r S id cn s h key k :
  inv None None N c r S → S !! cn = Some s → s_cont s = CIo id (Some h) → h_key h = key → pkgs (web r) !! active s = Some k →
  (N < size_t_mod)%Z →
  ∃ p e, cacheMap_ c !! key = Some p ∧ entries c !! p = Some e ∧ (1 < refCount e)%Z ∧ is_size (refCount e) ∧
    inv (Some cn) None N (release_state p e c) (del_io id r) (<[cn := running s]> S).
Proof.
  intros HV HS Hct Hkey Hk HN. pose proof HV as [HI HK HW HB].
  assert (held_key s = Some key) as Hhk by (unfold held_key, hold_of; rewrite Hct; simpl; congruence).
  assert (holds key s = 1) as Hh by (unfold holds; by rewrite decide_True).
  destruct (held_entry N c S cn s key HK HS) as (p & e & Hp & He & H1 & H2); [lia|].
  exists p, e. split; [done|]. split; [done|]. split; [done|]. split; [unfold is_size; lia|].
  destruct (release_inv N c S cn s (running s) key p e) as (HK' & HW' & Hst); try done.
  split; [by eapply inv_taken|done| |].
  - eapply waits_session; [exact HW'|exact HS|by eapply io_not_waiting|apply running_not_waiting].
  - eapply blocks_sub; [exact HB|exact Hst| |apply HB].
    intros pk b Ho%owns_del_io. split; [done|apply not_elem_of_nil].
Qed.

Lemma io_open busy N c r S id x cn s held :
  inv None busy N c r S → S !! cn = Some s → s_cont s = CIo id held → ios r !! id = Some x → io_ok x ≠ ParseAio →
  ∃ cc, conns_of r !! cn = Some cc ∧ cst cc = CS_CONNECTED.
Proof.
  intros [HI _ _ _] HS Hct Hx Hok. destruct (so_conn _ _ _ _ (ir_session _ _ _ _ HI _ _ HS)) as (cc & Hcc & _ & Hst).
  exists cc. split; [done|]. destruct Hst as [?|[_ Hst]]; [done|]. rewrite Hct in Hst. destruct Hst as (y & Hy & ?). congruence.
Qed.

Lemma served_one k : served k → length (frees k) ≤ 1.
Proof. intros [-> _]. simpl. lia. Qed.

Lemma header_to_body_safe N c r S id cn s held k x :
  inv None None N c r S → S !! cn = Some s → s_cont s = CIo id held → pkgs (web r) !! active s = Some k →
  ios r !! id = Some x → io_ok x = HeaderToBodyAio → io_facts x s held k → (0 ≤ N)%Z → (N + 2 < size_t_mod)%Z →
  safe (N + 2) (svr_http_header_to_body_aio clo (active s)) (c, del_io id r).
Proof.
  intros HV HS Hct Hk Hx Hok (_ & Hf) H0 HN. rewrite Hok in Hf.
  destruct Hf as (Er & _ & _ & _ & _ & Hsv & _). pose proof HV as [HI _ _ _].
  destruct (io_open _ _ _ _ _ _ _ _ _ _ HV HS Hct Hx) as (cc & Hcc & Hcon); [by rewrite Hok|].
  pose proof (taken_inv _ _ _ _ _ _ _ _ _ HV HS Hct Hk) as HV1.
  assert (<[cn := running s]> S !! cn = Some (running s)) as HS1 by apply lookup_insert_eq.
  assert (inv (Some cn) None N c (set_pkg (active s) (header_sent k) (del_io id r)) (<[cn := running s]> S)) as HV2.
  { eapply (inv_update N c _ _ cn (running s) k); try done. by apply served_one. }
  rewrite <-(set_pkg_id (active s) k (del_io id r)) by done.
  eapply safe_eq; [apply header_to_body_run, (ir_garbage _ _ _ _ HI)|].
  destruct (rest_active _ Er) as [rest' Er'].
  case_decide; [|apply (safe_mono N); [lia|]; by eapply (final_child_safe N _ _ _ cn (running s) _ rest')].
  eapply (body_safe N _ _ _ cn (running s) (header_sent k) cc); try done. apply lookup_insert_eq.
Qed.

Lemma quota_ok N c S : keys_ok N c S → (currentSize_ c ≤ sizeQuota_ c)%Z.
Proof. intros HK. rewrite (ko_size _ _ _ HK). apply (proj2 (wf_size _ _ (ko_wf _ _ _ HK))). Qed.

Lemma body_rio_safe N c r S id cn s held k x n :
  inv None None N c r S → S !! cn = Some s → s_cont s = CIo id held → pkgs (web r) !! active s = Some k →
  ios r !! id = Some x → io_ok x = BodyRio → io_facts x s held k → (0 ≤ n)%Z → (0 ≤ N)%Z → (N + 2 < size_t_mod)%Z →
  safe (N + 2) (svr_http_body_rio clo (active s) n) (c, del_io id r).
Proof.
  intros HV HS Hct Hk Hx Hok (_ & Hf) Hn H0 HN. rewrite Hok in Hf. destruct Hf as (Er & _ & Hf). pose proof HV as [HI HK _ _].
  destruct (io_open _ _ _ _ _ _ _ _ _ _ HV HS Hct Hx) as (cc & Hcc & Hcon); [by rewrite Hok|].
  assert (<[cn := running s]> S !! cn = Some (running s)) as HS1 by apply lookup_insert_eq.
  assert (tidy (del_io id r)) as Ht by apply (ir_garbage _ _ _ _ HI).
  destruct (rest_active _ Er) as [rest' Er'].
  destruct Hf as [(Hw & Hhk & (h & -> & _) & Hsv)|(Hw & -> & _)].
  - symmetry in Hhk. simpl in Hhk. destruct (serving_served _ Hsv) as (Hfr & u & Hu & Hpl & Hoff).
    destruct (taken_release _ _ _ _ _ _ _ _ _ _ HV HS Hct eq_refl Hk) as (p & e & Hp & He & H1 & H2 & HV1); [lia|].
    rewrite <-(set_pkg_id (active s) k (del_io id r)) by done.
    unfold safe. erewrite body_rio_next; try done; [|by eapply quota_ok]. case_decide.
    + eapply (body_safe N _ _ _ cn (running s) (advanced n k) cc); try done; [|apply lookup_insert_eq|].
      * eapply (inv_update N _ _ _ cn (running s) k); try done. rewrite (Hfr : frees (advanced n k) = []). simpl. lia.
      * split; [exact Hfr|]. exists u. simpl. split; [done|]. split; [done|]. lia.
    + apply (safe_mono N); [lia|].
      eapply (final_child_safe N _ _ _ cn (running s) _ rest'); try done.
      eapply (inv_update N _ _ _ cn (running s) k); try done.
      rewrite (Hfr : frees (update_reply (with_wst WS_UNO) k) = []). simpl. lia.
  - apply (safe_mono N); [lia|]. eapply safe_eq.
    { rewrite <-(set_pkg_id (active s) k (del_io id r)) by done. by apply body_rio_end. }
    rewrite set_pkg_id by done. eapply (final_child_safe N _ _ _ cn (running s) _ rest'); try done. by eapply taken_inv.
Qed.

(** ** The bytes of requests *)

Lemma padded_nul (data : text) :
  length data < MAXRH → NUL ∈ drop (length data - 1) (data ++ replicate (MAXRH - length data) NUL).
Proof.
  intros Hl. apply list_elem_of_lookup. exists (length data - (length data - 1)).
  rewrite lookup_drop, lookup_app_r by lia. apply lookup_replicate_2. lia.
Qed.

Lemma inv_parsed N c r S cn s k gs w1 :
  inv (Some cn) None N c r S → S !! cn = Some s → s_rest s = [] → pkgs (web r) !! s_parent s = Some k →
  family (web r) (s_parent s) k gs w1 →
  inv None None N c (parsed w1 (next_of (s_parent s) gs.*1) r)
    (<[cn := mkSession (s_parent s) gs.*1 (CTask (next_of (s_parent s) gs.*1))]> S).
Proof.
  intros HV HS Er Hk Hfam. destruct (running_facts _ _ _ _ _ _ _ HV HS) as (Hrun & _).
  pose proof HV as [HI HK HW HB].
  assert (∀ pk k2, pkgs w1 !! pk = Some k2 → frees k2 = [] ∨ ∃ k3, pkgs (web r) !! pk = Some k3 ∧ frees k3 = frees k2) as Hfr.
  { intros pk k2 Hk2. destruct (decide (pk = s_parent s)) as [->|Hne].
    { right. exists k. split; [done|]. rewrite (fa_parent _ _ _ _ _ Hfam) in Hk2. by injection Hk2 as <-. }
    destruct (decide (pk ∈ gs.*1)) as [Hin|Hin]; [left|right; exists k2; by rewrite <-(fa_rest _ _ _ _ _ Hfam)].
    apply list_elem_of_lookup in Hin as [i Hi]. rewrite list_lookup_fmap in Hi.
    destruct (gs !! i) as [[l rq]|] eqn:Hg; [|done]. injection Hi as <-.
    rewrite (fa_children _ _ _ _ _ Hfam _ _ _ Hg) in Hk2. by injection Hk2 as <-. }
  split.
  - by eapply inv_parse.
  - eapply keys_session; [exact HK|exact HS|]. unfold hold_of. by rewrite Hrun.
  - eapply waits_session; [exact HW|exact HS|by apply not_waiting_run|apply task_not_waiting].
  - eapply blocks_sub; [exact HB|apply (stable_refl [])| |].
    + intros pk b Ho. split; [|apply not_elem_of_nil]. destruct Ho as [(k2 & Hk2 & Hb)|Hio]; [|by right].
      left. destruct (Hfr _ _ Hk2) as [E|(k3 & Hk3 & E)]; [rewrite E in Hb; by apply elem_of_nil in Hb|].
      exists k3. by rewrite E.
    + intros pk k2 Hk2. destruct (Hfr _ _ Hk2) as [E|(k3 & Hk3 & E)]; rewrite <-?E; [rewrite E; simpl; lia|].
      by eapply (bo_one _ _ HB).
Qed.

Lemma parse_data_safe N c r S cn s k cc data :
  inv (Some cn) None N c r S → S !! cn = Some s → s_rest s = [] → pkgs (web r) !! active s = Some k →
  conns_of r !! cn = Some cc → ¬ closing cc → data ≠ [] → length data < MAXRH →
  safe N (svr_http_parse_aio clo (active s) (ch_p (chead (rsp k))) data) (c, r).
Proof.
  intros HV HS Er Hk Hcc Hc Hd Hlen.
  destruct (running_facts _ _ _ _ _ _ _ HV HS) as (Hrun & Ht & Hwf & k2 & cc2 & Hk2 & Hcn & _).
  assert (k2 = k) as -> by congruence.
  pose proof HV as [HI HK HW HB]. pose proof (ir_session _ _ _ _ HI _ _ HS) as Hs.
  assert (active s = s_parent s) as Ha by (unfold active; by rewrite Er).
  set (r1 := set_pkg (active s) (received data k) r).
  assert (inv (Some cn) None N c r1 S) as HV1.
  { eapply inv_update; [exact HV|exact HS|exact Hk|done| |done|exact (bo_one _ _ HB _ _ Hk)].
    intros _. destruct (parent_active _ _ _ _ _ Hs Hk Er) as (? & ? & ?). by split_and!. }
  assert (pkgs (web r1) !! s_parent s = Some (received data k)) as Hk1 by (rewrite <-Ha; apply lookup_insert_eq).
  destruct (so_parent _ _ _ _ Hs) as (kp & Hkp & _ & Hpp & Hlc & _). rewrite <-Ha in Hkp.
  assert (kp = k) as -> by congruence. rewrite Er in Hlc. subst cn.
  destruct (parse_family (data ++ replicate (MAXRH - length data) NUL) (length data - 1) (s_parent s) (received data k) cc (web r1))
    as (gs & w1 & Hfam1 & Hp); [by apply padded_nul| |done|].
  { split; [done|exact Hpp|exact Hlc|exact Hcc|]. intros l Hl. destruct HV1 as [HI1 _ _ _]. by apply (ir_next _ _ _ _ HI1). }
  pose proof (inv_parsed _ _ _ _ _ _ _ _ _ HV1 HS Er Hk1 Hfam1) as HV2.
  rewrite <-(set_pkg_id _ _ _ Hk). eexists _, _, _. split; [|exact HV2].
  rewrite <-Ha in Hp at 1. etransitivity.
  { eapply parse_data; [exact Ht|exact Hcc|exact Hc|done|exact Hd|exact Hp|exact (eq_trans (fa_garbage _ _ _ _ _ Hfam1) Ht)]. }
  by destruct gs as [|[g rq] gs].
Qed.

Lemma set_conn_id cn cc r : conns_of r !! cn = Some cc → set_conn cn cc r = r.
Proof. intros Hc. unfold set_conn. rewrite insert_id by done. by destruct r as [[? ? [] ? ?] ? ?]. Qed.

(** Reading fails, or the client has closed its side. *)
Lemma read_failed_safe N c r S cn s k :
  inv (Some cn) None N c r S → S !! cn = Some s → s_rest s = [] → pkgs (web r) !! active s = Some k →
  hst k = HS_READING ∨ hst k = HS_PARSING → safe N (svr_http_final_aio clo (active s)) (c, r).
Proof.
  intros HV HS Er Hk Hh.
  destruct (running_facts _ _ _ _ _ _ _ HV HS) as (Hrun & Ht & Hwf & k2 & cc & Hk2 & Hcn & Hcc & Hp & Hst).
  assert (k2 = k) as -> by congruence. subst cn.
  assert (active s = s_parent s) as Ha by (unfold active; by rewrite Er).
  assert (cst cc ≠ CS_CLOSING) as Hc by (intros E; destruct Hst; congruence).
  rewrite <-(set_pkg_id _ _ _ Hk). eapply safe_eq; [by eapply final_aio_reading|].
  rewrite Ha in *. by eapply (final_parent_safe N c r S _ s k (after_read_error cc)).
Qed.

Lemma parse_aio_safe N c r S cn s k data :
  inv (Some cn) None N c r S → S !! cn = Some s → s_rest s = [] → pkgs (web r) !! active s = Some k →
  length data < MAXRH → safe N (svr_http_parse_aio clo (active s) (ch_p (chead (rsp k))) data) (c, r).
Proof.
  intros HV HS Er Hk Hlen.
  destruct (running_facts _ _ _ _ _ _ _ HV HS) as (Hrun & Ht & Hwf & k2 & cc & Hk2 & Hcn & Hcc & Hp & _).
  assert (k2 = k) as -> by congruence. pose proof HV as [HI HK HW HB]. pose proof (ir_session _ _ _ _ HI _ _ HS) as Hs.
  assert (active s = s_parent s) as Ha by (unfold active; by rewrite Er).
  destruct (decide (closing cc)) as [Hc|Hc]; [|destruct data as [|a data]].
  - subst cn. pose proof (final_parent_safe N c r S _ s k cc HV HS Er) as Hf. rewrite <-Ha in Hf.
    specialize (Hf Hk Hp). rewrite set_conn_id in Hf by done. eapply safe_eq; [|exact Hf].
    rewrite <-(set_pkg_id _ _ _ Hk) at 1. by eapply parse_closing.
  - eapply (safe_eq _ _ (svr_http_final_aio clo (active s)) _ (c, set_pkg (active s) (received [] k) r)).
    { subst cn. rewrite <-(set_pkg_id _ _ _ Hk) at 1. by eapply parse_eof. }
    eapply (read_failed_safe N _ _ S cn s (received [] k)); [|exact HS|exact Er|apply lookup_insert_eq|by right].
    eapply inv_update; [exact HV|exact HS|exact Hk|done| |done|exact (bo_one _ _ HB _ _ Hk)].
    intros _. destruct (parent_active _ _ _ _ _ Hs Hk Er) as (? & ? & ?). by split_and!.
  - by eapply parse_data_safe.
Qed.

(** ** A write that failed *)

Lemma inv_conn busy N c r S cn s cc :
  inv (Some cn) busy N c r S → S !! cn = Some s → conns_of r !! cn = Some cc →
  inv (Some cn) busy N c (set_conn cn (with_cst CS_CLOSING_W cc) r) S.
Proof.
  intros HV HS Hcc. destruct (running_facts _ _ _ _ _ _ _ HV HS) as (Hrun & _). destruct HV as [HI HK HW [B1 B2 B3]].
  split; [by eapply inv_set_cst; [..|by left]|done|done|by split].
Qed.

Lemma write_failed_safe N c r S id cn s h k x :
  inv None None N c r S → S !! cn = Some s → s_cont s = CIo id (Some h) → pkgs (web r) !! active s = Some k →
  ios r !! id = Some x → io_facts x s (Some h) k → (N < size_t_mod)%Z →
  safe N (svr_http_final_aio clo (active s)) (c, del_io id r).
Proof.
  intros HV HS Hct Hk Hx (_ & Hf) HN. pose proof HV as [HI HK _ _].
  assert (s_rest s ≠ [] ∧ hst k = HS_WRITING ∧ io_ok x ≠ ParseAio ∧
    (wst (rsp k) = WS_HEAD ∧ headkey (rsp k) = Some (h_key h) ∨ wst (rsp k) = WS_BODY ∧ bodykey (rsp k) = Some (h_key h))) as (Er & Hh & Hok & Hkey).
  { destruct (io_ok x); [naive_solver..|done]. }
  destruct (io_open _ _ _ _ _ _ _ _ _ _ HV HS Hct Hx) as (cc & Hcc & Hcon); [done|].
  destruct (taken_release _ _ _ _ _ _ _ _ _ _ HV HS Hct eq_refl Hk) as (p & e & Hp & He & H1 & H2 & HV1); [lia|].
  assert (<[cn := running s]> S !! cn = Some (running s)) as HS1 by apply lookup_insert_eq.
  destruct (active_live _ _ _ _ (ir_session _ _ _ _ HI _ _ HS)) as (k2 & Hk2 & Hcn & _).
  assert (k2 = k) as -> by congruence. subst cn.
  destruct (rest_active _ Er) as [rest' Er'].
  eapply (safe_eq _ _ (final (active s)) _ (_, set_conn (cpn k) (with_cst CS_CLOSING_W cc) (del_io id r))).
  - rewrite <-(set_pkg_id (active s) k (del_io id r)) at 1 by done.
    assert (after_write_error cc = with_cst CS_CLOSING_W cc) as E by (unfold after_write_error; by rewrite Hcon).
    etransitivity; [eapply (final_aio_writing clo (active s) k (del_io id r) c cc (h_key h) p e); try done|].
    + apply (ir_garbage _ _ _ _ HI).
    + congruence.
    + by eapply quota_ok.
    + rewrite E, set_pkg_id by done. done.
  - eapply (final_child_safe N _ _ _ (cpn k) (running s) _ rest'); [|done|done].
    by eapply (inv_conn None N _ _ _ (cpn k) (running s)).
Qed.

(** ** Accepting *)

(** Either only the system changes, or there is a new connection. *)
Lemma accept_cases junk (m : net OSt) cl :
  conns m !! L = Some cl → conns m !! cnext m = None →
  ∃ o m', accept_conn junk (Some L) m = Ok (o, m') ∧
    ((∀ pn, o ≠ Some (ERRCONN_OK, Some pn)) ∧ (∃ x, m' = set_os x m) ∨
     o = Some (ERRCONN_OK, Some (cnext m)) ∧ ∃ fd cl' x,
       m' = mkNet (<[cnext m := mkConn CS_CONNECTED fd (Some L) 0]> (<[L := cl']> (conns m))) (Pos.succ (cnext m)) x).
Proof.
  intros Hcl Hfr. assert (L ≠ cnext m) as Hne by congruence.
  assert (m = set_os (os m) m) as Em by (by destruct m).
  unfold accept_conn. rewrite (pbind_ok _ _ _ _ _ (load_conn_ok _ _ _ Hcl)).
  case_decide; [eexists _, _; split; [done|left; split; [done|by exists (os m)]]|].
  case_decide; [eexists _, _; split; [done|left; split; [done|by exists (os m)]]|].
  rewrite syscall_run. destruct (_ <? 0)%Z; [eexists _, _; split; [done|left; split; [done|by eexists]]|].
  unfold socketSetBlockingAndTimeout. rewrite pbind_assoc, syscall_run.
  erewrite pbind_ok by reflexivity. destruct (_ <? 0)%Z; [eexists _, _; split; [done|left; split; [done|by eexists]]|].
  unfold new_conn. rewrite pbind_assoc. erewrite pbind_ok by (apply update_conn_ok; exact Hcl).
  erewrite pbind_ok by reflexivity. simpl.
  erewrite pbind_ok by (apply update_conn_ok; simpl; apply lookup_insert_eq). simpl.
  erewrite pbind_ok by (apply update_conn_ok; simpl; apply lookup_insert_eq). simpl.
  eexists _, _. split; [done|]. right. split; [done|]. eexists _, _, _. unfold set_conns. simpl. by rewrite !insert_insert_eq.
Qed.

Lemma accepted_inv N c r S (cc cl : Conn) (x : OSt) :
  let cn := cnext (wnet (web r)) in
  inv None None N c r S → cpp cc = Some L → cst cc = CS_CONNECTED →
  inv (Some cn) None N c (accepted L cn cc cl x r) (<[cn := mkSession (next (web r)) [] CRun]> S).
Proof.
  intros cn [HI HK HW HB] Hp Hc.
  assert (S !! cn = None) as HfS.
  { destruct (S !! cn) as [s|] eqn:E; [|done].
    destruct (so_conn _ _ _ _ (ir_session _ _ _ _ HI _ _ E)) as (c2 & Hc2 & _).
    pose proof (ir_conn_next _ _ _ _ HI _ (mk_is_Some _ _ Hc2)). unfold cn in *. lia. }
  split; [by apply inv_accept| | |].
  - eapply (keys_same N N _ _ S _ []); [exact HK|apply HK|done|done|done|intros; apply not_elem_of_nil|done|].
    by apply same_held_new.
  - eapply waits_same; [exact HW|done|done|]. intros cn2 s2 Hw2. rewrite lookup_insert_Some. split.
    + intros [[_ <-]|[_ ?]]; [|done]. by apply not_waiting_run in Hw2.
    + intros Hs2. right. split; [congruence|done].
  - assert (∀ pk k, pkgs (web (accepted L cn cc cl x r)) !! pk = Some k → frees k = [] ∨ pkgs (web r) !! pk = Some k) as Hfr.
    { intros pk k. simpl. rewrite lookup_insert_Some. intros [[<- <-]|[_ ?]]; [by left|by right]. }
    eapply (blocks_sub c c r _ []); [exact HB|apply stable_refl| |].
    + intros pk b Ho. split; [|apply not_elem_of_nil]. destruct Ho as [(k & Hk & Hb)|Hio]; [left|by right].
      destruct (Hfr _ _ Hk) as [E|?]; [rewrite E in Hb; by apply elem_of_nil in Hb|eauto].
    + intros pk k Hk. destruct (Hfr _ _ Hk) as [->|?]; [simpl; lia|by eapply (bo_one _ _ HB)].
Qed.

Lemma accept_safe junk N c r S : inv None None N c r S → safe N (svr_conn_accept clo junk L) (c, r).
Proof.
  intros HV. pose proof HV as [HI HK HW HB]. destruct (ir_listen _ _ _ _ HI) as [cl Hcl].
  destruct (accept_cases junk (wnet (web r)) cl Hcl) as (o & m & Ha & Hcase).
  { destruct (conns (wnet (web r)) !! _) eqn:E; [|done]. pose proof (ir_conn_next _ _ _ _ HI _ (mk_is_Some _ _ E)). lia. }
  assert (on_net (accept_conn junk (Some L)) (web r) = Ok (o, set_net m (web r))) as Hrun by (unfold on_net; by rewrite Ha).
  unfold safe, svr_conn_accept. rewrite (on_web_bind _ _ _ _ _ _ Hrun) by apply (ir_garbage _ _ _ _ HI).
  destruct Hcase as [[Hno [x ->]]|(-> & fd & cl' & x & ->)].
  - exists c, (set_sys x r), S. split; [|by apply inv_sys]. destruct o as [[[] [pn|]]|]; try done. by destruct (Hno pn).
  - set (cn := cnext (wnet (web r))).
    pose proof (accepted_inv N c r S (mkConn CS_CONNECTED fd (Some L) 0) cl' x HV eq_refl eq_refl) as HV1. fold cn in HV1.
    erewrite on_web_bind; [|reflexivity|apply (ir_garbage _ _ _ _ HI)].
    pose proof (read_safe clo N _ _ _ cn _ HV1 (lookup_insert_eq _ _ _) eq_refl) as Hs.
    assert (tidy r) as Ht by apply (ir_garbage _ _ _ _ HI). unfold tidy in Ht.
    eapply safe_eq; [|exact Hs]. unfold accepted. rewrite <-Ht at 2. reflexivity.
Qed.

End handlers.

End server.

Arguments inv {OSt F HF HG} L run busy N c r S.
Arguments safe {OSt F HF HG} L N m w.

End HttpSafe.
