(* ===== verification/HttpBlocks.v ===== *)
(** The end of reading a block, which ends or wakes all sessions that wait for it.

    While the callbacks of the cache run, [inv] holds of the state in which the
    queue of the entry has only the callbacks that are left. *)
From S2P Require Import Prelude FastFIFO Cache CacheProps CacheRun Connection HttpParse HttpHandlers HttpRun HttpInv HttpCacheInv HttpSafe.

Module HttpBlocks.
Import Connection HttpParse Cache CacheProps CacheRun HttpHandlers HttpRun HttpInv HttpCacheInv HttpSafe.

Section server.
Context {OSt F : Type} `{HO : OS OSt} `{HF : FIFO F loc} `{HL : !FIFOLaws F loc} `{HP : Platform} `{HG : Content}.
Abbreviation rest := (rest OSt).
Abbreviation server := (server OSt F).
Implicit Types (r : rest) (s : session) (k : HPKG) (S : gmap loc session) (c : Cache closure F) (e : CacheEntry).

(** The listening connection. *)
Context {L : loc}.
Abbreviation inv := (inv L).
Abbreviation safe := (safe L).
Section handlers.
(** The closures of the cache are its two callbacks. *)
Variables clo clo' : closure → CacheData → prog server unit.
(** The lemmas are for a platform on which copies of keys fit; [step_kept] of
    [HttpSteps] is the one for any platform. *)
Hypothesis room_for_keys : keys_fit _.
Hypothesis clo_header : ∀ pk cd, clo (HeaderWio pk) cd = svr_http_header_wio clo' pk cd.
Hypothesis clo_body : ∀ pk cd, clo (BodyWio pk) cd = svr_http_body_wio clo' pk cd.

Lemma inv_unreserved N c r S key p e :
  inv None (Some key) N (leftover p [] e c) r S → cacheMap_ c !! key = Some p → has_hash key →
  inv None None N (unreserved p e c) r S.
Proof.
  intros [HI HK HW HB] Hp Hkey. destruct (unreserved_inv _ _ _ _ _ _ HK HW Hp Hkey) as (HK' & HW' & Hst).
  split; [done|done|done|]. eapply blocks_sub; [exact HB|exact Hst| |apply HB]. intros pk b Ho. split; [done|apply not_elem_of_nil].
Qed.

(** The first callback of the queue belongs to an idle session. *)
Lemma queued_session N c r S key cb q p e :
  inv None (Some key) N (leftover p (cb :: q) e c) r S → cacheMap_ c !! key = Some p →
  ∃ cn s k cc, S !! cn = Some s ∧ waits s key cb ∧ idle (s_cont s) ∧ s_rest s ≠ [] ∧
    pkgs (web r) !! active s = Some k ∧ cpn k = cn ∧ conns_of r !! cn = Some cc ∧
    heap c !! cb = Some (BCallback (BodyWio (active s))) ∧ cont_ok r s k ∧ conn_ok L r s cc.
Proof.
  intros [HI HK HW HB] Hp. set (v := leftover p (cb :: q) e c) in *.
  assert (rqueue v key = Some (cb :: q)) as Hrq.
  { assert (view v key = Some (with_queue (cb :: q) (with_isReserved true e))) as Hv.
    { unfold view, v, leftover. simpl. rewrite Hp. apply leftover_entry. }
    by rewrite (rqueue_view _ _ _ Hv). }
  destruct (wo_queue _ _ _ HW _ _ cb Hrq) as (cn & s & HS & Hws); [by left|].
  destruct (wo_wait _ _ _ HW _ _ _ _ HS Hws) as (_ & _ & _ & Hcb).
  pose proof (ir_session _ _ _ _ HI _ _ HS) as Hs. destruct (so_conn _ _ _ _ Hs) as (cc & Hcc & Hco).
  destruct (active_live _ _ _ _ Hs) as (k & Hk & Hcn & Hc). exists cn, s, k, cc.
  assert (idle (s_cont s) ∧ s_rest s ≠ []) as [Hid Er].
  { pose proof Hc as Hc'. unfold cont_ok in Hc'. destruct Hws as [[f E]|E]; rewrite E in Hc' |- *.
    - split; [|apply Hc']. destruct f as [id|]; [|done]. by eapply (wo_file_busy _ _ _ HW).
    - done. }
  split_and!; done.
Qed.

Lemma active_once L' r S cn s :
  inv_rest L' None r S → S !! cn = Some s → ∀ cn2 s2, S !! cn2 = Some s2 → active s2 = active s → cn2 = cn.
Proof. intros HI HS cn2 s2 HS2 E. eapply active_inj; [by eapply ir_session|by eapply ir_session|done]. Qed.

(** What the loop of [cancelReservation] keeps. *)
Definition cancelling N (key : string) (p : loc) (Q q : list loc) (w : server) : Prop :=
  ∃ e S, cacheMap_ w.1 !! key = Some p ∧ entries w.1 !! p = Some e ∧ queue e = Q ∧ isReserved e = false ∧
    inv None (Some key) N (leftover p q e w.1) w.2 S.

Lemma waits_hold s key cb : waits s key cb → hold_of s = None.
Proof. unfold hold_of. by intros [[f ->]| ->]. Qed.

Lemma cancel_step N key p Q cb q w :
  has_hash key → (N < size_t_mod)%Z → cancelling N key p Q (cb :: q) w →
  ∃ e f w1 b, entries w.1 !! p = Some e ∧ queue e = Q ∧ heap w.1 !! cb = Some (BCallback f) ∧
    clo f (mkCacheData None 0 false) w = Ok (tt, w1) ∧ heap w1.1 !! cb = Some b ∧
    cancelling N key p Q q (set_heap (delete cb (heap w1.1)) w1.1, w1.2).
Proof.
  intros Hkey HN (e & S & Hp & He & HQ & Hr & HV). destruct w as [c r]. simpl in *.
  destruct (queued_session _ _ _ _ _ _ _ _ _ HV Hp) as (cn & s & k & cc & HS & Hws & Hid & Er & Hk & Hcn & Hcc & Hcb & _).
  destruct (rest_active _ Er) as [rest' Er']. pose proof HV as [HI HK HW HB].
  set (v := leftover p (cb :: q) e c) in *. set (ev := with_queue (cb :: q) (with_isReserved true e)).
  assert (entries v !! p = Some ev) as Hev by apply leftover_entry.
  destruct (final_child_facts _ _ _ _ _ _ _ _ _ _ HV HS Hid Er') as (k2 & r' & Hk2 & Hf & HI' & HB').
  assert (k2 = k) as -> by congruence.
  assert (∀ b, b ∈ frees k → unowned v b) as HD by (intros b Hb; by eapply frees_unowned).
  assert (¬ unowned v cb) as Hocb.
  { intros Hu. eapply (Hu p ev Hev). unfold owned, ev. simpl. set_solver. }
  assert (view v key = Some ev) as Hv by (unfold view; by rewrite (Hp : cacheMap_ v !! key = Some p)).
  destruct (ko_refs _ _ _ HK _ _ Hv) as [R1 R2].
  eexists e, _, (free_blocks (frees k) c, r'), _. split; [done|]. split; [done|]. split; [exact Hcb|]. split; [|split].
  - rewrite clo_body. subst cn. rewrite <-(set_pkg_id _ _ _ Hk). erewrite body_wio_none; [|by apply (ir_garbage _ _ _ _ HI)|exact Hcc].
    rewrite set_pkg_id by done. apply Hf. exact (frees_live _ _ _ _ HB Hk).
  - simpl. rewrite delete_blocks_lookup, decide_False; [exact Hcb|]. intros Hin. by apply Hocb, HD.
  - eexists e, _. cbn [fst snd]. do 4 (split; [done|]).
    assert (leftover p q e (set_heap (delete cb (heap (free_blocks (frees k) c))) (free_blocks (frees k) c)) =
      pop_state p ev cb q (refCount e) (frees k) v) as ->.
    { unfold v, ev. rewrite leftover_pop. assert (with_refCount (refCount e) e = e) as -> by (by destruct e).
      by rewrite set_entries_id by done. }
    set (s' := mkSession (s_parent s) rest' (CTask (next_of (s_parent s) rest'))) in *.
    assert (same_held S (<[cn := s']> S)) as Hsame.
    { apply (same_held_insert _ _ s); [done|]. by rewrite (waits_hold _ _ _ Hws). }
    split; [exact HI'| | |].
    + eapply (pop_keys N v S _ key p ev cb q _ 0); try done; [by rewrite Z.add_0_r|lia|..].
      * destruct (Hsame) as [Hsh _]. rewrite Hsh. lia.
      * intros key2 _. apply Hsame.
      * intros h Hh. left. by apply Hsame.
    + eapply (pop_waits v S _ key p ev cb q _ _ cn s); try done; [apply HK|simpl in *; lia|unfold is_size; simpl in *; lia| | |].
      * by eapply active_once.
      * intros cn2 Hne. by rewrite lookup_insert_ne.
      * rewrite lookup_insert_eq. intros s2 [= <-]. apply task_not_waiting.
    + eapply HB'; [exact (pop_stable key p cb ev q _ _ v (ko_wf _ _ _ HK) Hp Hev eq_refl eq_refl)|].
      intros b [->|Hb]%elem_of_cons; [by right|by left].
Qed.

Lemma cancel_safe N c r S key p e :
  inv None (Some key) N c r S → has_hash key → (N < size_t_mod)%Z →
  cacheMap_ c !! key = Some p → entries c !! p = Some e → isReserved e = true →
  safe N (let! _ := cache_cancel clo key in pret tt) (c, r).
Proof.
  intros HV Hkey HN Hp He Hr.
  destruct (cancel_rule clo (cancelling N key p (queue e)) (queue_fuel key c) key p e c r) as ([c' r'] & Hrun & HI); try done.
  - intros cb q w. by apply cancel_step.
  - intros w (e1 & S1 & _ & He1 & HQ & _). eauto.
  - exists (with_isReserved false e), S. simpl. split; [done|]. split; [apply lookup_insert_eq|]. split; [done|]. split; [done|].
    assert (leftover p (queue e) (with_isReserved false e) (set_entries (<[p := with_isReserved false e]> (entries c)) c) = c) as ->; [|done].
    rewrite <-(leftover_id p e c) at 3 by done. unfold leftover, set_entries. simpl. by rewrite insert_insert_eq.
  - unfold queue_fuel, view. rewrite Hp. simpl. rewrite He. lia.
  - destruct HI as (e1 & S1 & Hp1 & He1 & _ & Hr1 & HV1). simpl in *.
    exists c', r', S1. split; [unfold cache_cancel; by erewrite pbind_ok by exact Hrun|].
    replace c' with (unreserved p e1 c'); [by eapply inv_unreserved|].
    unfold unreserved. assert (with_isReserved false e1 = e1) as -> by (destruct e1; simpl in *; by subst). by apply set_entries_id.
Qed.

Lemma reserved_entry N c S key q :
  keys_ok N c S → rqueue c key = Some q →
  has_hash key ∧ ∃ p e, cacheMap_ c !! key = Some p ∧ entries c !! p = Some e ∧ isReserved e = true ∧ queue e = q.
Proof.
  unfold rqueue. intros HK Hq. destruct (view c key) as [e|] eqn:Hv; [|done]. simpl in Hq.
  destruct (isReserved e) eqn:Hr; [|done]. injection Hq as <-. split.
  - destruct (decide (has_hash key)) as [|Hn]; [done|]. destruct (ko_header _ _ _ HK _ _ Hv Hn) as (d & t & Hr' & _). congruence.
  - destruct (view_entry _ _ _ (ko_wf _ _ _ HK) Hv) as (p & Hp & He). by exists p, e.
Qed.

Lemma wait_key N c r S cn s key cb f :
  inv None None N c r S → S !! cn = Some s → s_cont s = CWait key cb f →
  has_hash key ∧ ∃ p e, cacheMap_ c !! key = Some p ∧ entries c !! p = Some e ∧ isReserved e = true.
Proof.
  intros [_ HK HW _] HS E. destruct (wo_wait _ _ _ HW _ _ key cb HS) as (q & Hq & _); [left; eauto|].
  destruct (reserved_entry _ _ _ _ _ HK Hq) as (Hh & p & e & ? & ? & ? & _). split; [done|]. by exists p, e.
Qed.

Lemma wait_open N c r S cn s key cb f :
  inv None None N c r S → S !! cn = Some s → s_cont s = CWait key cb f →
  ∃ cc, conns_of r !! cn = Some cc ∧ cst cc = CS_CONNECTED.
Proof.
  intros [HI _ _ _] HS E. destruct (so_conn _ _ _ _ (ir_session _ _ _ _ HI _ _ HS)) as (cc & Hcc & _ & Hst).
  exists cc. split; [done|]. destruct Hst as [?|[_ Hst]]; [done|]. by rewrite E in Hst.
Qed.

(** The file could not be read. *)
Lemma inv_file_failed N c r S id cn s k key cb :
  inv None None N c r S → S !! cn = Some s → s_cont s = CWait key cb (Some id) → pkgs (web r) !! active s = Some k →
  inv None (Some key) N c (del_io id r) (<[cn := with_cont (CDead key cb) s]> S).
Proof.
  intros HV HS E Hk. pose proof HV as [HI HK HW HB].
  pose proof (ir_session _ _ _ _ HI _ _ HS) as Hs. pose proof (so_cont _ _ _ _ Hs k Hk) as Hc.
  unfold cont_ok in Hc. rewrite E in Hc. destruct Hc as (Er & _). split.
  - eapply (inv_take L None cn r (del_io id r) S s k k); try done; simpl.
    + by rewrite insert_id.
    + apply (ir_garbage _ _ _ _ HI).
    + intros t. rewrite E. naive_solver.
    + apply (ir_tasks_nodup _ _ _ _ HI).
    + intros id2 y. rewrite E. simpl. rewrite lookup_delete_Some. naive_solver.
    + right. left. split; [by eexists _, _|done].
  - eapply keys_session; [exact HK|exact HS|]. unfold hold_of. by rewrite E.
  - eapply (waits_take key c c); try done. by right.
  - eapply blocks_sub; [exact HB|apply (stable_refl [])| |apply HB].
    intros pk b Ho%owns_del_io. split; [done|apply not_elem_of_nil].
Qed.

Lemma file_failed_safe N c r S id cn s k key cb :
  inv None None N c r S → S !! cn = Some s → s_cont s = CWait key cb (Some id) → pkgs (web r) !! active s = Some k →
  (N < size_t_mod)%Z → safe N (svr_http_final_aio clo (active s)) (c, del_io id r).
Proof.
  intros HV HS E Hk HN. pose proof (inv_file_failed _ _ _ _ _ _ _ _ _ _ HV HS E Hk) as HV1.
  destruct (wait_key _ _ _ _ _ _ _ _ _ HV HS E) as (Hh & p & e & Hp & He & Hr).
  destruct (wait_open _ _ _ _ _ _ _ _ _ HV HS E) as (cc & Hcc & Hcon).
  pose proof HV as [HI _ _ _]. pose proof (ir_session _ _ _ _ HI _ _ HS) as Hs.
  destruct (active_live _ _ _ _ Hs) as (k2 & Hk2 & Hcn & Hc). assert (k2 = k) as -> by congruence.
  unfold cont_ok in Hc. rewrite E in Hc. destruct Hc as (_ & Hst & Hw & Hb & _). subst cn.
  assert (after_write_error cc = with_cst CS_CLOSING_W cc) as Ew by (unfold after_write_error; by rewrite Hcon).
  eapply (safe_eq _ _ (let! _ := cache_cancel clo key in pret tt) _ (c, set_conn (cpn k) (with_cst CS_CLOSING_W cc) (del_io id r))).
  - rewrite <-(set_pkg_id (active s) k (del_io id r)) at 1 by done.
    etransitivity; [eapply (final_aio_cancel clo (active s) k (del_io id r) c cc key); try done|].
    + apply (ir_garbage _ _ _ _ HI).
    + congruence.
    + by rewrite Ew, set_pkg_id.
  - eapply (cancel_safe N _ _ (<[cpn k := with_cont (CDead key cb) s]> S) key p e); try done.
    destruct HV1 as [HI1 HK1 HW1 [B1 B2 B3]]. split; [|done|done|by split].
    eapply inv_set_cst; [exact HI1|apply lookup_insert_eq|exact Hcc|]. right. by eexists _, _.
Qed.

(** A block that a package is responsible for is read into. *)
Lemma fill_inv run N c r S pk b t :
  inv run None N c r S → owns r pk b → is_Some (heap c !! b) ∧ inv run None N (fill_state b t c) r S.
Proof.
  intros [HI HK HW HB] Ho. destruct (bo_block _ _ HB _ _ Ho) as [[t' Hb] Hu]. split; [by eexists|].
  destruct (heap_change [b] N None c (fill_state b t c) S) as [HK' HW']; try done.
  { by apply fill_state_wf; [apply HK|..|by eexists]. }
  { apply stable_set_heap. intros b' Hb'. apply lookup_insert_ne. intros <-. apply Hb'. by left. }
  { by intros b' ->%list_elem_of_singleton. }
  split; [done|done|done|]. by eapply blocks_fill.
Qed.

(** A package has at most one operation. *)
Lemma io_unique run r S id1 id2 x1 x2 :
  inv_rest L run r S → ios r !! id1 = Some x1 → ios r !! id2 = Some x2 → io_pk x1 = io_pk x2 → id1 = id2.
Proof.
  intros HI H1 H2 E. destruct (ir_ios _ _ _ _ HI _ _ H1) as (cn1 & s1 & HS1 & Ho1), (ir_ios _ _ _ _ HI _ _ H2) as (cn2 & s2 & HS2 & Ho2).
  pose proof (ir_session _ _ _ _ HI _ _ HS1) as Hs1. pose proof (ir_session _ _ _ _ HI _ _ HS2) as Hs2.
  destruct (io_active _ _ _ _ _ Hs1 Ho1) as (y1 & Hy1 & Ha1), (io_active _ _ _ _ _ Hs2 Ho2) as (y2 & Hy2 & Ha2).
  assert (cn1 = cn2) as <- by (eapply active_inj; [exact Hs1|exact Hs2|congruence]).
  assert (s2 = s1) as -> by congruence. unfold owns_io in Ho1, Ho2. destruct (s_cont s1) as [| | |? ? []|]; done || congruence.
Qed.

(** The package [pk] does not free its buffer any more: [svr_http_body_pio] says
    so at its end, after the callbacks have run. *)
Definition mark_body k : HPKG := update_reply (λ x, with_cbody (with_ch_cached true (cbody x)) x) k.
Definition marked pk r : rest := set_web (set_pkgs (alter mark_body pk (pkgs (web r))) (web r)) r.

Lemma marked_lookup pk r l k' :
  pkgs (web (marked pk r)) !! l = Some k' →
  ∃ k, pkgs (web r) !! l = Some k ∧ k' = if decide (l = pk) then mark_body k else k.
Proof.
  simpl. case_decide as E.
  - subst l. rewrite lookup_alter_eq. intros (k & Hk & ->)%fmap_Some. eauto.
  - rewrite lookup_alter_ne by done. eauto.
Qed.

Lemma marked_set_pkg pk l k r :
  marked pk (set_pkg l k r) = set_pkg l (if decide (l = pk) then mark_body k else k) (marked pk r).
Proof.
  unfold marked, set_pkg, set_web, set_pkgs. simpl. repeat f_equal. apply map_eq. intros i. case_decide as E.
  - subst l. rewrite lookup_insert. case_decide as Ei; [subst i; by rewrite lookup_alter_eq, lookup_insert_eq|].
    by rewrite !lookup_alter_ne, lookup_insert_ne.
  - rewrite lookup_insert. destruct (decide (i = pk)) as [->|Hne].
    + by rewrite decide_False, !lookup_alter_eq, lookup_insert_ne.
    + rewrite !lookup_alter_ne, lookup_insert by done. done.
Qed.

Lemma marked_run pk k r : pkgs (web r) !! pk = Some k → set_pkg pk (mark_body k) r = marked pk r.
Proof.
  intros Hk. unfold marked, set_pkg, set_web, set_pkgs. simpl. repeat f_equal. apply map_eq. intros i.
  rewrite lookup_insert. case_decide as E; [subst i; by rewrite lookup_alter_eq, Hk|by rewrite lookup_alter_ne].
Qed.

(** What the loop of [put] keeps; [nm] is the copy of the key. *)
Definition putting N (h : hold) (p nm pk : loc) (Q q : list loc) (w : server) : Prop :=
  let key := h_key h in
  ∃ e S, cacheMap_ w.1 !! key = Some p ∧ entries w.1 !! p = Some e ∧ queue e = Q ∧ isReserved e = true ∧ backs e h ∧
    inv None (Some key) N (leftover p q e w.1) (marked pk w.2) S ∧
    (∀ cn s key cb, S !! cn = Some s → s_cont s ≠ CDead key cb) ∧
    heap w.1 !! nm = Some (BName key) ∧ unowned (leftover p q e w.1) nm ∧ is_Some (pkgs (web w.2) !! pk).

(** A session that waited writes the block. *)
Lemma woken_rest r S cn s k cc key cb d n :
  inv_rest L None r S → S !! cn = Some s → s_cont s = CWait key cb None → pkgs (web r) !! active s = Some k →
  conns_of r !! cn = Some cc → cst cc = CS_CONNECTED →
  inv_rest L None (add_io (body_io (active s) cc d n) (set_pkg (active s) (set_status HS_WRITING WS_BODY k) r))
    (<[cn := going (io_next r) (Some (mkHold key d n)) s]> S) ∧
  frees (set_status HS_WRITING WS_BODY k) = [].
Proof.
  intros HI HS E Hk Hcc Hcon. pose proof (ir_session _ _ _ _ HI _ _ HS) as Hs.
  pose proof (so_cont _ _ _ _ Hs k Hk) as Hc. unfold cont_ok in Hc. rewrite E in Hc.
  destruct Hc as (Er & Hh & Hw & Hb & Hu & Hd & Hfr). split; [|exact Hfr].
  refine (inv_start L None cn r S s k _ (body_io (active s) cc d n) _ HI HS _ Hk _ _ _ _);
    [by rewrite E|done|done| |intros c3 Hc3; left; congruence].
  left. exists (Some (mkHold key d n)). split; [done|]. split; [done|]. split; [done|]. split; [done|]. left.
  split; [done|]. split; [done|]. split; [by eexists|]. by split.
Qed.

Lemma put_step N key p nm pk Q cb q d n w :
  has_hash key → (N < size_t_mod)%Z → putting N (mkHold key d n) p nm pk Q (cb :: q) w →
  ∃ e f r1, entries w.1 !! p = Some e ∧ queue e = Q ∧ heap w.1 !! cb = Some (BCallback f) ∧
    let c1 := set_entries (<[p := with_refCount (wrap_size (refCount e + 1)) e]> (entries w.1)) w.1 in
    clo f (mkCacheData (Some d) n true) (c1, w.2) = Ok (tt, (c1, r1)) ∧
    putting N (mkHold key d n) p nm pk Q q (set_heap (delete cb (heap c1)) c1, r1).
Proof.
  intros Hkey HN (e & S & Hp & He & HQ & Hr & Hbk & HV & Hnd & Hnm & Hunm & Hlive). destruct w as [c r]. cbn [fst snd h_key] in *.
  destruct (queued_session _ _ _ _ _ _ _ _ _ HV Hp) as (cn & s & k' & cc & HS & Hws & Hid & Er & Hk' & Hcn & Hcc & Hcb & _ & Hco).
  assert (s_cont s = CWait key cb None) as E.
  { destruct Hws as [[f E]|E]; [|by eapply Hnd in HS]. rewrite E in Hid. by destruct f. }
  assert (cst cc = CS_CONNECTED) as Hcon by (destruct Hco as [_ [?|[_ Hco]]]; [done|by rewrite E in Hco]).
  assert (¬ closing cc) as Hc by (intros [X|X]; congruence).
  pose proof HV as [HI HK HW HB].
  destruct (marked_lookup _ _ _ _ Hk') as (k & Hk & Ek).
  set (v := leftover p (cb :: q) e c) in *. set (ev := with_queue (cb :: q) (with_isReserved true e)).
  assert (entries v !! p = Some ev) as Hev by apply leftover_entry.
  assert (view v key = Some ev) as Hv by (unfold view; by rewrite (Hp : cacheMap_ v !! key = Some p)).
  destruct (ko_refs _ _ _ HK _ _ Hv) as [R1 R2]. simpl in R1, R2.
  eexists e, _, _. split; [done|]. split; [done|]. split; [exact Hcb|]. cbn zeta.
  rewrite (wrap_size_id (refCount e + 1)) by (unfold is_size; lia).
  destruct (woken_rest _ _ _ _ _ _ _ _ d n HI HS E Hk' Hcc Hcon) as [HI' Hfr]. split.
  { rewrite clo_body. rewrite <-(set_pkg_id _ _ _ Hk) at 1.
    eapply body_wio_run; [apply (ir_garbage _ _ _ _ HI)| |exact Hc].
    assert (cpn k = cn) as -> by (subst k'; by case_decide). exact Hcc. }
  set (x := body_io (active s) cc d n) in *. set (s' := going (io_next r) (Some (mkHold key d n)) s).
  eexists (with_refCount (refCount e + 1) e), (<[cn := s']> S). cbn [fst snd].
  split; [done|]. split; [apply lookup_insert_eq|]. split; [done|]. split; [done|]. split; [exact Hbk|].
  pose proof (pop_stable key p cb ev q (refCount e + 1) [] v (ko_wf _ _ _ HK) Hp Hev eq_refl eq_refl) as Hst.
  assert (unowned (pop_state p ev cb q (refCount e + 1) [] v) cb) as Hucb.
  { refine (pop_unowned key p cb ev q _ [] v (ko_wf _ _ _ HK) Hp Hev eq_refl eq_refl _ cb _); [by intros b ?%elem_of_nil|by left]. }
  assert (¬ unowned v cb) as Hocb.
  { intros Hu. eapply (Hu p ev Hev). unfold owned, ev. simpl. set_solver. }
  assert (nm ≠ cb) as Hne by (intros ->; congruence).
  assert (leftover p q (with_refCount (refCount e + 1) e)
    (set_heap (delete cb (heap c)) (set_entries (<[p := with_refCount (refCount e + 1) e]> (entries c)) c)) =
    pop_state p ev cb q (refCount e + 1) [] v) as Epop by (symmetry; exact (leftover_pop p cb q e (refCount e + 1) [] c)).
  simpl. rewrite Epop. split; [|split; [|split; [|split]]].
  - assert (marked pk (add_io x (set_pkg (active s) (set_status HS_WRITING WS_BODY k) r)) =
      add_io x (set_pkg (active s) (set_status HS_WRITING WS_BODY k') (marked pk r))) as Em.
    { etransitivity; [exact (f_equal (add_io x) (marked_set_pkg pk (active s) _ r))|]. rewrite Ek. by case_decide. }
    refine (eq_ind_r (λ r0, inv None (Some key) N _ r0 _) _ Em).
    split; [exact HI'| | |].
    + eapply (pop_keys N v S _ key p ev cb q _ 1 []); try done; [by intros b ?%elem_of_nil|..].
      * pose proof (holders_insert key S cn s s' HS) as Eh. rewrite (holds_none _ s) in Eh by (by eapply waits_hold).
        assert (holds key s' = 1) as Eh' by (unfold holds; by rewrite decide_True). lia.
      * intros key2 Hk2. apply (holders_same _ _ _ s); [done|]. rewrite (holds_none _ s) by (by eapply waits_hold).
        unfold holds. rewrite decide_False; [done|]. by intros [= <-].
      * intros h [[= <-]|?]%held_insert; [right; split; [done|exact Hbk]|by left].
    + eapply (pop_waits v S _ key p ev cb q _ _ cn s); try done; [apply HK|by intros b ?%elem_of_nil|lia|unfold is_size; lia| | |].
      * by eapply active_once.
      * intros cn2 Hn2. by rewrite lookup_insert_ne.
      * rewrite lookup_insert_eq. intros s2 [= <-]. apply going_not_waiting.
    + eapply blocks_sub; [exact HB|exact Hst| |].
      * intros pk2 b [Ho|([=] & _)]%owns_add_io.
        assert (owns (marked pk r) pk2 b) as Ho2.
        { eapply owns_set_pkg_sub; [exact Hk'| |exact Ho]. rewrite Hfr. by intros b' ?%elem_of_nil. }
        split; [done|]. intros ->%list_elem_of_singleton. by apply Hocb, (bo_block _ _ HB pk2).
      * apply (frees_one_set (active s)); [exact (bo_one _ _ HB)|]. rewrite Hfr. simpl. lia.
  - intros cn2 s2 key2 cb2. rewrite lookup_insert_Some. intros [[<- <-]|[_ Hs2]]; [done|by eapply Hnd].
  - by rewrite lookup_delete_ne.
  - apply Hst; [|by eexists|done]. intros Hin. apply Hne. by apply list_elem_of_singleton in Hin.
  - simpl. rewrite lookup_insert_is_Some'. by right.
Qed.

(** The block [b] becomes the data of its entry; [nm] is the copy of the key. *)
Definition stored_state (p : loc) e (b : loc) (n : Z) (key : string) c : Cache closure F :=
  set_entries (<[p := with_data (Some b) n e]> (entries c)) (alloc_state (BName key) c).

Lemma stored_facts c key p e b n t :
  wf c [] → cacheMap_ c !! key = Some p → entries c !! p = Some e → unowned c b → heap c !! b = Some (BData t) → is_size n →
  wf (stored_state p e b n key c) [] ∧ stable [b] c (stored_state p e b n key c) ∧
  ∀ key2, view (stored_state p e b n key c) key2 = if decide (key2 = key) then Some (with_data (Some b) n e) else view c key2.
Proof.
  intros Hwf Hp He Hu Hb Hn. pose proof (wf_alloc _ _ (BName key) Hwf) as Hwf1. pose proof (pop_entry_ok key p e _ Hwf1 Hp He) as Hok.
  assert (∀ x, x ∈ owned (with_data (Some b) n e) → x ∈ owned e ∨ x = b) as Ho.
  { intros x. unfold owned. simpl. set_solver. }
  split; [|split].
  - eapply (wf_update (alloc_state (BName key) c)); [exact Hwf1|exact Hp|exact He| |].
    + destruct Hok as [On Od Oq Oqn Or Oz Os Ores]. split; simpl; eauto; [|split; [apply Os|done]].
      intros b' [= <-]. exists t.
      destruct (stable_alloc [] (BName key) c Hwf b (not_elem_of_nil _)) as [Eb _]; [by eexists|]. exact (eq_trans Eb Hb).
    + intros x [Hx|Hx]%Ho; [by left|right]. subst x. exact Hu.
  - eapply stable_trans; [by apply stable_alloc|]. eapply (stable_entry [b] (alloc_state (BName key) c) p e); [exact He|].
    intros x [Hx|Hx]%Ho; [by left|right]. subst x. by left.
  - by apply (view_update (alloc_state (BName key) c) []).
Qed.

Lemma inv_file_read N c r S id cn s k key cb x b p e n t :
  inv None None N c r S → S !! cn = Some s → s_cont s = CWait key cb (Some id) → pkgs (web r) !! active s = Some k →
  ios r !! id = Some x → file_facts x s b k → cacheMap_ c !! key = Some p → entries c !! p = Some e → isReserved e = true →
  heap c !! b = Some (BData t) → n = size_of t → good key t →
  inv None (Some key) N (stored_state p e b n key c) (marked (active s) (del_io id r))
    (<[cn := with_cont (CWait key cb None) s]> S).
Proof.
  intros HV HS E Hk Hx Hf Hp He Hr Hbt -> Hg. pose proof HV as [HI HK HW HB]. destruct Hf as (Hok & Hpk & Hbuf & Hcb & _).
  pose proof (ir_session _ _ _ _ HI _ _ HS) as Hs. pose proof (so_cont _ _ _ _ Hs k Hk) as Hc.
  unfold cont_ok in Hc. rewrite E in Hc. destruct Hc as (Er & Hh & Hw & Hbk & Hu & Hd & _).
  assert (owns r (active s) b) as Hob by (right; eauto 10).
  destruct (bo_block _ _ HB _ _ Hob) as [_ Hub].
  destruct (stored_facts c key p e b (size_of t) t (ko_wf _ _ _ HK) Hp He Hub Hbt (wrap_size_range _)) as (Hwf' & Hst & Hv').
  assert (frees (mark_body k) = []) as Hfr by (unfold frees, mark_body, delete_charn in *; simpl; by rewrite Hd).
  assert (view c key = Some e) as Hv by (unfold view; by rewrite Hp).
  destruct (wait_key _ _ _ _ _ _ _ _ _ HV HS E) as (Hkey & _). split.
  - eapply (inv_take L None cn r _ S s k (mark_body k)); try done; simpl.
    + apply map_eq. intros i. rewrite lookup_insert. case_decide as Ei; [subst i; by rewrite lookup_alter_eq, Hk|by rewrite lookup_alter_ne].
    + apply (ir_garbage _ _ _ _ HI).
    + intros t2. rewrite E. naive_solver.
    + apply (ir_tasks_nodup _ _ _ _ HI).
    + intros id2 y. rewrite E. simpl. rewrite lookup_delete_Some. naive_solver.
    + right. right. split; [by eexists _, _|]. split; [done|]. intros c3 Hc3.
      destruct (wait_open _ _ _ _ _ _ _ _ _ HV HS E) as (cc & Hcc & Hcon). congruence.
  - destruct (ko_refs _ _ _ HK _ _ Hv) as [R1 R2].
    assert (same_held S (<[cn := with_cont (CWait key cb None) s]> S)) as [Hhold Hheld].
    { apply (same_held_insert _ _ s); [done|]. unfold hold_of. by rewrite E. }
    eapply (keys_step N N c _ S _ [b] key); [exact HK|exact Hwf'|done|exact Hst|lia| | |].
    + intros key2 e2 d t2 He2 Hd2 _ ->%list_elem_of_singleton. by eapply data_owned; [apply HK|exact He2|exact Hd2|].
    + intros key2 Hne. by rewrite Hv', decide_False.
    + eexists. rewrite Hv', decide_True by done. split; [done|]. rewrite Hhold. split; [by split|]. split; [done|].
      split; [|split; [|by left; apply Hheld]].
      * intros d [= <-]. exists t. split; [|done]. simpl. rewrite lookup_insert_ne; [exact Hbt|]. intros Eb.
        destruct (wf_brk _ _ (ko_wf _ _ _ HK) b) as (Hn & _); [lia|]. congruence.
      * intros e0 He0 [d Hd1]. assert (e0 = e) as -> by congruence.
        pose proof (wo_empty _ _ _ HW key ltac:(done)) as Hem. unfold rdata in Hem. rewrite Hv in Hem. simpl in Hem.
        rewrite Hr in Hem. congruence.
  - eapply (waits_take key c); [exact HW|exact HS|exact E|by left| | |].
    + intros key2. unfold rqueue. rewrite Hv'. case_decide; [|done]. subst key2. by rewrite Hv.
    + intros key2 Hne. apply alike_view. by rewrite Hv', decide_False.
    + intros key2 q cb2 Hq Hin. apply Hst; [|by eapply queued_live]. intros ->%list_elem_of_singleton.
      by eapply queue_owned; [apply HK|exact Hq|exact Hin|].
  - eapply blocks_sub; [exact HB|exact Hst| |].
    + intros pk2 b2 Ho. rewrite list_elem_of_singleton.
      destruct Ho as [(k2 & Hk2 & Hb2)|(id2 & y & Hy & Hy1 & Hy2 & Hy3)].
      * destruct (marked_lookup _ _ _ _ Hk2) as (k3 & Hk3 & ->). case_decide as Ea.
        { subst pk2. assert (k3 = k) as -> by (simpl in Hk3; congruence). rewrite Hfr in Hb2. by apply elem_of_nil in Hb2. }
        assert (owns r pk2 b2) as Ho by (left; eauto). split; [done|]. intros ->. apply Ea. by eapply (bo_own _ _ HB).
      * simpl in Hy. apply lookup_delete_Some in Hy as [Hne Hy].
        assert (owns r pk2 b2) as Ho by (right; eauto 10). split; [done|]. intros ->. apply Hne.
        eapply (io_unique None r S id id2 x y); [exact HI|done|done|]. rewrite Hpk, Hy2. by eapply (bo_own _ _ HB).
    + intros pk2 k2 Hk2. destruct (marked_lookup _ _ _ _ Hk2) as (k3 & Hk3 & ->). case_decide as Ea.
      * subst pk2. assert (k3 = k) as -> by (simpl in Hk3; congruence). rewrite Hfr. simpl. lia.
      * by eapply (bo_one _ _ HB).
Qed.

(** The copy of the key is freed. *)
Lemma inv_free_name N c r S nm key :
  inv None None N c r S → heap c !! nm = Some (BName key) → unowned c nm →
  inv None None N (set_heap (delete nm (heap c)) c) r S.
Proof.
  intros [HI HK HW HB] Hnm Hu. change (set_heap (delete nm (heap c)) c) with (free_blocks [nm] c).
  destruct (free_blocks_inv [nm] _ _ _ _ HK HW) as [HK' HW']; [by intros b ->%list_elem_of_singleton|].
  split; [done|done|done|]. eapply blocks_sub; [exact HB|apply free_blocks_stable| |apply HB].
  intros pk b Ho. split; [done|]. intros ->%list_elem_of_singleton. destruct (bo_block _ _ HB _ _ Ho) as [[t Ht] _]. congruence.
Qed.

Lemma body_pio_safe N c r S id cn s k key cb x b n t :
  inv None None N c r S → S !! cn = Some s → s_cont s = CWait key cb (Some id) → pkgs (web r) !! active s = Some k →
  ios r !! id = Some x → file_facts x s b k → heap c !! b = Some (BData t) → n = size_of t → good key t →
  (N < size_t_mod)%Z →
  safe N (svr_http_body_pio clo (active s) (Some b) n) (c, del_io id r).
Proof.
  intros HV HS E Hk Hx Hf Hbt Hn Hg HN. pose proof HV as [HI HK HW HB].
  destruct (wait_key _ _ _ _ _ _ _ _ _ HV HS E) as (Hkey & p & e & Hp & He & Hr).
  pose proof (inv_file_read _ _ _ _ _ _ _ _ _ _ _ _ _ _ _ _ HV HS E Hk Hx Hf Hp He Hr Hbt Hn Hg) as HV1.
  pose proof (ir_session _ _ _ _ HI _ _ HS) as Hs. pose proof (so_cont _ _ _ _ Hs k Hk) as Hc.
  unfold cont_ok in Hc. rewrite E in Hc. destruct Hc as (_ & _ & _ & Hbk & (u & _ & _ & _ & Hku) & _).
  assert (tidy (del_io id r)) as Ht by apply (ir_garbage _ _ _ _ HI).
  assert (String.length key < usable (String.length key)) as Hroom.
  { rewrite Hbk in Hku. injection Hku as ->. apply room_for_keys, body_key_length. }
  destruct (put_rule clo (putting N (mkHold key b n) p (brk c) (active s) (queue e)) (queue_fuel key c) key (Some b) n p e c (del_io id r))
    as ([c1 r1] & e1 & HI1 & He1 & Hrun); try done.
  - intros cb2 q2 w. by apply put_step.
  - intros w (e2 & S2 & _ & He2 & HQ & _ & _ & _ & _ & Hnm & _). split; [eauto|done].
  - exists (with_data (Some b) n e), (<[cn := with_cont (CWait key cb None) s]> S). simpl.
    split; [done|]. split; [apply lookup_insert_eq|]. split; [done|]. split; [done|]. split; [done|].
    pose proof (leftover_id p (with_data (Some b) n e) (stored_state p e b n key c) ltac:(apply lookup_insert_eq) Hr) as El.
    simpl in El. unfold stored_state in El. rewrite El. split; [exact HV1|]. split; [|split; [apply lookup_insert_eq|split]].
    + intros cn2 s2 key2 cb2 [[<- <-]|[_ Hs2]]%lookup_insert_Some; [done|]. intros E2.
      pose proof (wo_dead _ _ _ HW _ _ _ _ Hs2 E2). done.
    + pose proof (wf_brk_unowned c _ (ko_wf _ _ _ HK)) as Hu.
      assert (brk c ≠ b) as Hne.
      { intros Eb. destruct Hf as (? & ? & ? & ? & _). assert (owns r (active s) b) as Hob by (right; eauto 10).
        destruct (bo_block _ _ HB _ _ Hob) as [[t' Ht'] _]. rewrite <-Eb in Ht'.
        destruct (wf_brk _ _ (ko_wf _ _ _ HK) (brk c)) as (? & _); [lia|]. congruence. }
      intros p2 e2. simpl. rewrite lookup_insert. case_decide as Ep; [|by apply Hu]. intros [= <-] Hin.
      apply (Hu p e He). unfold owned in *. simpl in Hin. set_solver.
    + by eexists.
  - unfold queue_fuel, view. rewrite Hp. simpl. rewrite He. lia.
  - destruct HI1 as (e2 & S2 & Hp1 & He2 & _ & _ & _ & HV2 & _ & Hnm & Hunm & [k1 Hk1]). cbn [fst snd] in *.
    assert (e2 = e1) as -> by congruence.
    eexists _, (marked (active s) r1), S2. split.
    + unfold svr_http_body_pio. rewrite <-(set_pkg_id (active s) k (del_io id r)) by done. rewrite load_bind, Hbk by done.
      erewrite pbind_ok by reflexivity. rewrite set_pkg_id by done. erewrite pbind_ok by (unfold cache_put; exact Hrun).
      erewrite pbind_ok by reflexivity. rewrite <-(marked_run _ _ _ Hk1). rewrite <-(set_pkg_id _ _ _ Hk1) at 1.
      apply update_rsp_run. apply (ir_garbage _ _ _ _ (iv_rest _ _ _ _ _ _ HV2)).
    + apply (inv_free_name N (unreserved p e1 c1) _ _ (brk c) key); [by eapply inv_unreserved|exact Hnm|].
      intros p2 e2. simpl. rewrite lookup_insert. case_decide as Ep.
      * intros [= <-] Hin. eapply (Hunm p _ (leftover_entry p [] e1 c1)). unfold owned in *. simpl in *. set_solver.
      * intros He3. apply (Hunm p2). simpl. by rewrite lookup_insert_ne.
Qed.

End handlers.
End server.

End HttpBlocks.
