(* ===== verification/HttpSteps.v ===== *)
(** Every step of the web server runs without a fault and keeps the invariant.

    [allowed] is what is assumed of a step, [answers] that what is read from a
    file is right for its block, and what the system says of it for its header; [step_safe] puts together what [HttpSafe] and
    [HttpBlocks] show of the handlers. *)
From S2P Require Import Prelude FastFIFO Cache CacheProps CacheRun Connection HttpParse HttpHandlers HttpRoom HttpRun HttpInv HttpCacheInv HttpSafe HttpBlocks.

Module HttpSteps.
Import Connection HttpParse Cache CacheProps CacheRun HttpHandlers HttpRoom HttpRun HttpInv HttpCacheInv HttpSafe HttpBlocks.

Section server.
Context {OSt F : Type} `{HO : OS OSt} `{HF : FIFO F loc} `{HL : !FIFOLaws F loc} `{HP : Platform} `{HG : Content}.
Abbreviation rest := (rest OSt).
Abbreviation server := (server OSt F).
Implicit Types (r : rest) (s : session) (k : HPKG) (S : gmap loc session) (c : Cache closure F) (e : CacheEntry).

(** The listening connection. *)
Variable L : loc.
Abbreviation inv := (inv L).
Abbreviation safe := (safe L).
(** The lemmas are for a platform on which copies of keys fit; [step_kept] of
    [HttpSteps] is the one for any platform. *)
Hypothesis room_for_keys : keys_fit _.

(** ** Tasks *)

Lemma elem_of_delete_task (ts : list task) i t t' :
  NoDup ts → ts !! i = Some t → t' ∈ delete i ts ↔ t' ∈ ts ∧ t' ≠ t.
Proof.
  intros Hnd Hi. rewrite (delete_take_drop ts i). pose proof (take_drop_middle _ _ _ Hi) as E.
  rewrite <-E in Hnd. rewrite <-E at 3. rewrite !elem_of_app, elem_of_cons.
  apply NoDup_app in Hnd as (_ & H1 & [H2 _]%NoDup_cons). split.
  - intros [Ht|Ht]; (split; [tauto|]); intros ->; [by apply (H1 t Ht); left|done].
  - tauto.
Qed.

Lemma task_taken N c r S i t :
  inv None None N c r S → tasks (web r) !! i = Some t →
  ∃ cn s k, S !! cn = Some s ∧ pkgs (web r) !! active s = Some k ∧ task_pkg t = active s ∧
    match t with Read _ => s_rest s = [] | Fetch _ => s_rest s ≠ [] ∧ rsp k = new_reply end ∧
    inv (Some cn) None N c (del_task i r) (<[cn := running s]> S).
Proof.
  intros [HI HK HW HB] Hi. destruct (ir_tasks _ _ _ _ HI t) as (cn & s & HS & E); [by eapply list_elem_of_lookup_2|].
  pose proof (ir_session _ _ _ _ HI _ _ HS) as Hs. destruct (active_live _ _ _ _ Hs) as (k & Hk & _ & Hc).
  exists cn, s, k. split; [done|]. split; [done|]. split; [by eapply task_active|]. split.
  { unfold cont_ok in Hc. rewrite E in Hc. destruct t as [l|l]; [|by destruct Hc as (_ & ? & _)].
    destruct Hc as (_ & Hh & Hn). split; [|done]. by intros Er; rewrite Er in Hh. }
  pose proof (ir_tasks_nodup _ _ _ _ HI) as Hnd. split.
  - eapply (inv_take L (Some cn) cn r _ S s k k); try done; simpl.
    + by rewrite insert_id.
    + by eapply parent_active.
    + apply (ir_garbage _ _ _ _ HI).
    + intros t'. rewrite E, (elem_of_delete_task _ _ t) by done. naive_solver.
    + apply (sublist_NoDup _ (tasks (web r))); [done|apply sublist_delete].
    + intros id x. rewrite E. simpl. naive_solver.
    + by left.
  - eapply keys_session; [exact HK|exact HS|]. unfold hold_of. by rewrite E.
  - eapply waits_session; [exact HW|exact HS| |apply running_not_waiting].
    intros (key & cb & [[f Hw]|Hw]); congruence.
  - eapply (blocks_sub c c r _ []); [exact HB|apply stable_refl| |exact (bo_one _ _ HB)].
    intros pk b Ho. split; [exact Ho|apply not_elem_of_nil].
Qed.

(** The file is being read for every block that is reserved. *)
Lemma reserved_file N c r S key e :
  inv None None N c r S → view c key = Some e → isReserved e = true →
  ∃ id x k, ios r !! id = Some x ∧ io_ok x = BodyPio ∧ pkgs (web r) !! io_pk x = Some k ∧ bodykey (rsp k) = Some key.
Proof.
  intros [HI HK HW HB] Hv Hr. assert (rqueue c key = Some (queue e)) as Hq by (by rewrite (rqueue_view _ _ _ Hv), Hr).
  destruct (wo_file _ _ _ HW _ _ Hq) as (cn & s & cb & id & HS & E); [done|].
  destruct (active_live _ _ _ _ (ir_session _ _ _ _ HI _ _ HS)) as (k & Hk & _ & Hc).
  unfold cont_ok in Hc. rewrite E in Hc. destruct Hc as (_ & _ & _ & Hb & _ & _ & x & b & Hx & Hok & Hpk & _).
  exists id, x, k. rewrite Hpk. done.
Qed.

(** ** Steps *)

(** What the theorems assume of a step: a name that is fetched has no [#] and
    less than 255 characters, an operation gives no more bytes than were asked
    for, the write of a refusal does not fail, and connections are accepted on
    the listening one. *)
Definition allowed (h : choice) (w : server) : Prop :=
  match h with
  | RunTask i => ∀ pk k u, tasks (web w.2) !! i = Some (Fetch pk) → pkgs (web w.2) !! pk = Some k →
      uri k = Some u → plain u
  | Complete id (Done data) => ∀ x, ios w.2 !! id = Some x → (Z.of_nat (length data) ≤ io_len x)%Z
  | Complete id Failed => ∀ x k, ios w.2 !! id = Some x → pkgs (web w.2) !! io_pk x = Some k →
      io_ok x = BodyRio → wst (rsp k) = WS_BODY
  | Accept _ cn => cn = L
  end.

(** What was read from a file may be stored as the block that was asked for, and
    what the system says of a file that is opened as its header. *)
Definition answers (h : choice) (w : server) : Prop :=
  match h with
  | RunTask i => ∀ pk k u, tasks (web w.2) !! i = Some (Fetch pk) → pkgs (web w.2) !! pk = Some k →
      uri k = Some u → header_good u (sys_of w.2)
  | Complete id (Done data) => ∀ x k u, ios w.2 !! id = Some x → io_ok x = BodyPio →
      pkgs (web w.2) !! io_pk x = Some k → uri k = Some u →
      good (body_key u (io_off x)) (String.string_of_list_ascii data)
  | _ => True
  end.

Definition server_ok (N : Z) (w : server) : Prop := ∃ S, inv None None N w.1 w.2 S.

Lemma safe_ok N m w : safe N m w → ∃ w', m w = Ok (tt, w') ∧ server_ok N w'.
Proof. intros (c & r & S & Hm & HV). exists (c, r). split; [done|]. by exists S. Qed.

Lemma run_task_safe N c r S i t :
  inv None None N c r S → tasks (web r) !! i = Some t → allowed (RunTask i) (c, r) → answers (RunTask i) (c, r) → (0 ≤ N)%Z → (N + 2 < size_t_mod)%Z →
  safe (N + 2) (run_task t) (c, del_task i r).
Proof.
  intros HV Hi Ha Hans H0 HN. destruct (task_taken _ _ _ _ _ _ HV Hi) as (cn & s & k & HS & Hk & Et & Ht & HV1).
  assert (<[cn := running s]> S !! cn = Some (running s)) as HS1 by apply lookup_insert_eq.
  destruct t as [pk|pk]; simpl in Et; subst pk; simpl.
  - destruct Ht as [Er Hnew].
    eapply (fetch_safe _ (run_closure 1) room_for_keys call_header N c _ _ cn (running s) k); try done.
    intros u _ Hu. split; [by eapply Ha|by eapply (Hans (active s) k)].
  - apply (safe_mono N); [lia|]. by eapply (read_safe _ N c _ _ cn (running s)).
Qed.

Lemma fill_safe N c r S id pk b data (m : prog server unit) :
  inv None None N c r S → owns r pk b →
  (∀ c', inv None None N c' r S → heap c' !! b = Some (BData (String.string_of_list_ascii data)) →
     safe N m (c', del_io id r)) →
  safe N (fill (Some b) data ;;; m) (c, del_io id r).
Proof.
  intros HV Ho Hm. destruct (fill_inv _ _ _ _ _ _ _ (String.string_of_list_ascii data) HV Ho) as ([y Hy] & HV').
  eapply safe_eq; [|apply (Hm _ HV'), lookup_insert_eq]. erewrite pbind_ok by (eapply fill_run; exact Hy). done.
Qed.

Lemma parent_owns r cn s k b :
  session_ok L r cn s → s_rest s = [] → pkgs (web r) !! active s = Some k → ch_p (chead (rsp k)) = Some b →
  owns r (active s) b.
Proof.
  intros Hs Er Hk Hb. destruct (parent_active _ _ _ _ _ Hs Hk Er) as (_ & _ & Hc). left. exists k. split; [done|].
  unfold frees, delete_charn. rewrite Hc, Hb. apply elem_of_app. left. by left.
Qed.

Lemma io_done_safe N c r S id x data :
  inv None None N c r S → ios r !! id = Some x → (Z.of_nat (length data) ≤ io_len x)%Z →
  answers (Complete id (Done data)) (c, r) → (0 ≤ N)%Z → (N + 2 < size_t_mod)%Z →
  safe (N + 2) (run_io x (Done data)) (c, del_io id r).
Proof.
  intros HV Hx Hlen Hans H0 HN. destruct (io_session _ _ _ _ _ _ _ HV Hx) as (cn & s & k & HS & Hk & Hcn & [Hio|Hfile]).
  - destruct Hio as (held & E & Hf0). pose proof Hf0 as [Hpk Hf]. pose proof HV as [HI _ _ _]. pose proof (ir_session _ _ _ _ HI _ _ HS) as Hs.
    destruct (io_ok x) eqn:Hok; simpl; rewrite Hok, Hpk; [| | |done].
    + destruct Hf as (Er & _ & Hbuf & [b Hb] & _ & Hl). apply (safe_mono N); [lia|]. rewrite Hb.
      eapply (fill_safe N c r S id (active s) b); [exact HV|eapply parent_owns; try done; congruence|].
      intros c' HV' _. rewrite <-Hb, Hbuf.
      eapply (parse_aio_safe _ N c' _ _ cn (running s) k); [by eapply taken_inv|apply lookup_insert_eq|done|done|lia].
    + by eapply (header_to_body_safe _ (run_closure 1) room_for_keys call_body N c r S id cn s held k x).
    + eapply (body_rio_safe _ (run_closure 1) room_for_keys call_body N c r S id cn s held k x); try done. lia.
  - destruct Hfile as (key & cb & b & E & Hc & Hf). pose proof Hf as (Hok & Hpk & Hbuf & _ & Hl & Hoff).
    unfold cont_ok in Hc. rewrite E in Hc. destruct Hc as (_ & _ & _ & Hkey & (u & Hu & _ & _ & Hkey2) & _).
    simpl. rewrite Hok, Hpk, Hbuf. apply (safe_mono N); [lia|].
    eapply (fill_safe N c r S id (active s) b); [exact HV|right; eauto 10|].
    intros c' HV' Hb. eapply (body_pio_safe _ (run_closure 1) room_for_keys call_header call_body N c' r S id cn s k key cb x b); try done; [| |lia].
    + unfold size_of. rewrite length_string_of_list. symmetry. apply wrap_size_id.
      unfold is_size. rewrite Hl in Hlen. unfold MAXWB in Hlen. unfold size_t_mod. lia.
    + assert (key = body_key u (io_off x)) as -> by congruence. by apply (Hans x k u); rewrite ?Hpk.
Qed.

Lemma io_failed_safe N c r S id x :
  inv None None N c r S → ios r !! id = Some x → allowed (Complete id Failed) (c, r) → (N + 2 < size_t_mod)%Z →
  safe N (run_io x Failed) (c, del_io id r).
Proof.
  intros HV Hx Ha HN. destruct (io_session _ _ _ _ _ _ _ HV Hx) as (cn & s & k & HS & Hk & Hcn & [Hio|Hfile]).
  - destruct Hio as (held & E & Hf). pose proof Hf as [Hpk Hf2]. simpl. rewrite Hpk.
    destruct held as [h|].
    { eapply (write_failed_safe _ N c r S id cn s h k x); try done. lia. }
    destruct (io_ok x) eqn:Hok; simpl in Hf2; [| | |done].
    + destruct Hf2 as (Er & Hh & _).
      eapply (read_failed_safe _ N c _ _ cn (running s) k); [by eapply taken_inv|apply lookup_insert_eq|done|done|by left].
    + by destruct Hf2 as (_ & _ & _ & _ & (? & [=] & _) & _).
    + destruct Hf2 as (_ & _ & [(_ & _ & (? & [=] & _) & _)|[Hw _]]). specialize (Ha x k Hx ltac:(by rewrite Hpk) Hok). congruence.
  - destruct Hfile as (key & cb & b & E & _ & Hf). pose proof Hf as (_ & Hpk & _). simpl. rewrite Hpk.
    eapply (file_failed_safe _ (run_closure 1) room_for_keys call_header call_body N c r S id cn s k key cb); try done. lia.
Qed.

Lemma step_safe N h w :
  server_ok N w → allowed h w → answers h w → (0 ≤ N)%Z → (N + 2 < size_t_mod)%Z →
  ∃ w', exec h w = Ok (tt, w') ∧ server_ok (N + 2) w'.
Proof.
  intros [S HV] Ha Hans H0 HN. destruct w as [c r]. simpl in HV. destruct h as [i|id res|junk cn]; simpl.
  - destruct (tasks (web r) !! i) as [t|] eqn:Hi; [|exists (c, r); split; [done|exists S; eapply inv_mono; [|exact HV]; lia]].
    apply safe_ok. by eapply run_task_safe.
  - destruct (ios r !! id) as [x|] eqn:Hx; [|exists (c, r); split; [done|exists S; eapply inv_mono; [|exact HV]; lia]].
    apply safe_ok. destruct res as [data|]; [eapply io_done_safe; try done; by apply Ha|].
    apply (safe_mono N); [lia|]. by eapply io_failed_safe.
  - simpl in Ha. subst cn. apply safe_ok, (safe_mono N); [lia|]. by eapply accept_safe.
Qed.

(** What a session that writes from the cache holds. *)
Lemma held_buffer N c r S cn s id x h :
  inv None None N c r S → S !! cn = Some s → s_cont s = CIo id (Some h) → writes_held x (Some h) →
  ∃ e d t, view c (h_key h) = Some e ∧ data e = Some d ∧
    io_buf x = Some d ∧ heap c !! d = Some (BData t) ∧ io_len x = size_of t ∧ good (h_key h) t.
Proof.
  intros [_ HK _ _] HS E (h2 & [= <-] & Hb & Hl).
  destruct (ko_backed _ _ _ HK h) as (e & He & Hd & Hsz); [exists cn, s; unfold hold_of; by rewrite E|].
  destruct (ko_stored _ _ _ HK _ _ He _ Hd) as (t & Ht & Hst & Hg). exists e, (h_buf h), t.
  split_and!; try done; congruence.
Qed.

(** ** The start *)

(** The server when it starts to accept. *)
Definition boot (m : net OSt) : server := (new_cache MAXCSIZE ∅ 1%positive, mkRest (mkWorld ∅ 1%positive m [] []) ∅ 1%positive).
Definition listening (m : net OSt) : Prop :=
  is_Some (conns m !! L) ∧ ∀ cn, is_Some (conns m !! cn) → (cn < cnext m)%positive.

Lemma boot_view m key : view (boot m).1 key = None.
Proof. done. Qed.

Lemma boot_ok m : listening m → server_ok 0 (boot m).
Proof.
  intros [HL1 Hnext]. exists ∅. split.
  - split; simpl; try done; try (by intros ? ? ?%lookup_empty_Some); try (by intros ? ?%elem_of_nil).
    + apply NoDup_nil_2.
    + by intros l [x ?%lookup_empty_Some].
    + by intros l [x ?%lookup_empty_Some].
  - split; [by apply wf_new|done|done|done|done| |done]. by intros h (? & ? & ?%lookup_empty_Some & _).
  - split; try done; by intros ? ? ? ? ?%lookup_empty_Some.
  - assert (∀ pk b, ¬ owns (boot m).2 pk b) as Hno.
    { intros pk b [(k & Hk & _)|(id & x & Hx & _)]; [exact (lookup_empty_Some _ _ Hk)|exact (lookup_empty_Some _ _ Hx)]. }
    split; [by intros pk b ?%Hno|by intros pk1 pk2 b ?%Hno|]. intros pk k Hk. exfalso. exact (lookup_empty_Some _ _ Hk).
Qed.

End server.

Arguments answers {OSt F HO HG} h w.
Arguments server_ok {OSt F HF HG} L N w.

(** ** On any platform *)

(** A step is that of the platform with room for the keys, or stops. *)
Lemma step_kept {OSt F : Type} `{HO : OS OSt} `{HF : FIFO F loc} `{HL : !FIFOLaws F loc} `{HP : Platform} `{HG : Content}
    (L : loc) N h (w : server OSt F) :
  server_ok L N w → allowed L h w → answers h w → (0 ≤ N)%Z → (N + 2 < size_t_mod)%Z →
  ((∃ w', exec h w = Ok (tt, w')) ∨ exec h w = Fault HeapOverflow ∧ no_room HP) ∧
  ∀ w', exec h w = Ok (tt, w') → server_ok L (N + 2) w'.
Proof.
  intros Hw Ha Hans H0 HN. pose proof (exec_earlier (OSt := OSt) (F := F) HP h) as He.
  destruct (step_safe (HP := roomy HP) L (roomy_fits HP) N h w) as (w1 & Hx & Hok); [done..|]. split.
  - destruct (earlier_runs _ _ _ _ _ _ He Hx) as [?|?]; [left; eauto|by right].
  - intros w' Hx'. pose proof (earlier_ok _ _ _ _ _ _ He Hx'). congruence.
Qed.

End HttpSteps.
