(* ===== verification/HttpServer.v ===== *)
(** The steps of the web server run, and every request goes on.

    A state is [reachable] from the start by steps of [exec] that are [allowed].
    The theorems state what holds of all reachable states, on any platform; steps
    that stop, in [strCpy], lead to none. *)
From S2P Require Import Prelude FastFIFO Cache CacheProps CacheRun Connection HttpParse HttpHandlers HttpRoom HttpRun HttpInv HttpCacheInv HttpSafe HttpBlocks HttpSteps.

Module HttpServer.
Import Connection HttpParse Cache CacheProps CacheRun HttpHandlers HttpRun HttpInv HttpCacheInv HttpSafe HttpBlocks HttpSteps.

(** Any text may be stored. *)
Definition any_content : Content := {| good _ _ := True |}.

Section server.
Context {OSt F : Type} `{HO : OS OSt} `{HF : FIFO F loc} `{HL : !FIFOLaws F loc} `{HP : Platform}.
Abbreviation rest := (rest OSt).
Abbreviation server := (server OSt F).
Implicit Types (r : rest) (s : session) (k : HPKG) (S : gmap loc session) (c : Cache closure F) (e : CacheEntry).

(** The listening connection. *)
Variable L : loc.
#[local] Existing Instance any_content.
Abbreviation inv := (inv L).
Abbreviation server_ok := (server_ok L).
Abbreviation allowed := (allowed L).
Abbreviation listening := (listening L).

(** ** Reachable states *)

(** [reachable m n w]: [n] steps lead from the start to [w]. *)
Inductive reachable (m : net OSt) : nat → server → Prop :=
  | reachable_boot : reachable m 0 (boot m)
  | reachable_step n w h w' : reachable m n w → allowed h w → exec h w = Ok (tt, w') → reachable m (Datatypes.S n) w'.

(** No counter of references can overflow. *)
Definition few_steps (n : nat) : Prop := (2 * Z.of_nat n + 2 < size_t_mod)%Z.

Lemma any_answers h (w : server) : answers h w.
Proof. by destruct h as [|? []|]; simpl; intros. Qed.

Lemma reachable_ok m n w : listening m → few_steps n → reachable m n w → server_ok (2 * Z.of_nat n) w.
Proof.
  unfold few_steps. intros Hm Hn Hr. induction Hr as [|n w h w' Hr IH Ha Hx]; [by apply boot_ok|].
  destruct (step_kept L (2 * Z.of_nat n) h w) as [_ Hok]; [apply IH; lia|done|apply any_answers|lia|lia|].
  specialize (Hok _ Hx). by replace (2 * Z.of_nat (Datatypes.S n))%Z with (2 * Z.of_nat n + 2)%Z by lia.
Qed.

(** ** What goes on *)

(** The file is being read for the block [key]. *)
Definition being_read (w : server) (key : string) : Prop :=
  ∃ id x k, ios w.2 !! id = Some x ∧ io_ok x = BodyPio ∧ pkgs (web w.2) !! io_pk x = Some k ∧ bodykey (rsp k) = Some key.

(** The package [pk] waits for a block that is being read. *)
Definition waits_for (w : server) (pk : loc) (key : string) : Prop :=
  ∃ e cb, view w.1 key = Some e ∧ isReserved e = true ∧ cb ∈ queue e ∧
    heap w.1 !! cb = Some (BCallback (BodyWio pk)) ∧ being_read w key.

Inductive activity := ATask (t : task) | AIo (id : loc) | AWait (pk : loc) (key : string).

(** [a] is what goes on for the package [pk]. *)
Definition going_on (w : server) (pk : loc) (a : activity) : Prop :=
  match a with
  | ATask t => t ∈ tasks (web w.2) ∧ task_pkg t = pk
  | AIo id => ∃ x, ios w.2 !! id = Some x ∧ io_pk x = pk
  | AWait pk' key => pk' = pk ∧ waits_for w pk key
  end.

Lemma reserved_read N c r S key e :
  inv None None N c r S → view c key = Some e → isReserved e = true → being_read (c, r) key.
Proof. apply reserved_file. Qed.

(** Something goes on for every session. *)
Lemma session_going_on N c r S cn s :
  inv None None N c r S → S !! cn = Some s → ∃ a, going_on (c, r) (active s) a.
Proof.
  intros HV HS. pose proof HV as [HI HK HW HB]. pose proof (ir_session _ _ _ _ HI _ _ HS) as Hs.
  destruct (active_live _ _ _ _ Hs) as (k & Hk & _ & Hc). unfold cont_ok in Hc.
  destruct (s_cont s) as [|t|id held|key cb file|key cb] eqn:E.
  - by apply (ir_run _ _ _ _ HI _ _ HS) in E.
  - exists (ATask t). destruct Hc as [Ht _]. split; [done|]. by eapply task_active.
  - destruct Hc as (x & Hx & Hpk & _). exists (AIo id). by exists x.
  - destruct (wo_wait _ _ _ HW _ _ key cb HS) as (q & Hq & Hin & Hb); [left; eauto|].
    destruct (reserved_entry _ _ _ _ _ HK Hq) as (_ & p & e & Hp & He & Hr & <-).
    assert (view c key = Some e) as Hv by (unfold view; by rewrite Hp).
    exists (AWait (active s) key). split; [done|]. exists e, cb. repeat (split; [done|]). by eapply reserved_read.
  - pose proof (wo_dead _ _ _ HW _ _ _ _ HS E). done.
Qed.

(** What goes on is what its session says. *)
Lemma going_on_session N c r S pk a k :
  inv None None N c r S → going_on (c, r) pk a → pkgs (web r) !! pk = Some k →
  ∃ s, S !! cpn k = Some s ∧ pk = active s ∧
    match a with
    | ATask t => s_cont s = CTask t
    | AIo id => owns_io (s_cont s) id
    | AWait _ key => ∃ cb f, s_cont s = CWait key cb f
    end.
Proof.
  intros [HI HK HW HB] Hgo Hk. assert (∀ cn s, S !! cn = Some s → pk = active s → cpn k = cn) as Hcn.
  { intros cn s HS ->. destruct (active_live _ _ _ _ (ir_session _ _ _ _ HI _ _ HS)) as (k2 & Hk2 & Hc & _). congruence. }
  destruct a as [t|id|pk' key]; simpl in Hgo.
  - destruct Hgo as [Ht Hp]. destruct (ir_tasks _ _ _ _ HI _ Ht) as (cn & s & HS & E).
    pose proof (task_active _ _ _ _ _ (ir_session _ _ _ _ HI _ _ HS) E) as Ha. exists s.
    rewrite (Hcn cn s) by (try done; congruence). split; [done|]. split; [congruence|done].
  - destruct Hgo as (x & Hx & Hp). destruct (ir_ios _ _ _ _ HI _ _ Hx) as (cn & s & HS & E).
    destruct (io_active _ _ _ _ _ (ir_session _ _ _ _ HI _ _ HS) E) as (y & Hy & Ha). exists s.
    rewrite (Hcn cn s) by (try done; congruence). split; [done|]. split; [congruence|done].
  - destruct Hgo as (-> & e & cb & Hv & Hr & Hin & Hb & _). simpl in Hv.
    assert (rqueue c key = Some (queue e)) as Hq by (by rewrite (rqueue_view _ _ _ Hv), Hr).
    destruct (wo_queue _ _ _ HW _ _ _ Hq Hin) as (cn & s & HS & Hws).
    destruct (wo_wait _ _ _ HW _ _ _ _ HS Hws) as (_ & _ & _ & Hb2). simpl in Hb.
    assert (pk = active s) as Ha by congruence. exists s. rewrite (Hcn cn s) by done. split; [done|]. split; [done|].
    destruct Hws as [[f E]|E]; [by exists cb, f|]. pose proof (wo_dead _ _ _ HW _ _ _ _ HS E). done.
Qed.

(** ** Pointers *)

(** The buffer [b] of the operation [x] of the package [k]: a live block.  What
    is written is as long as the block; what is read goes to a block that is in
    no entry of the cache. *)
Definition buffer_ok (c : Cache closure F) (x : io) k (b : loc) (t : string) : Prop :=
  io_buf x = Some b ∧ heap c !! b = Some (BData t) ∧
  match io_ok x with
  | HeaderToBodyAio => io_len x = size_of t
  | BodyRio => wst (rsp k) = WS_BODY → io_len x = size_of t
  | ParseAio | BodyPio => unowned c b
  end.

Lemma io_buffer N c r S id x :
  inv None None N c r S → ios r !! id = Some x →
  ∃ k b t, pkgs (web r) !! io_pk x = Some k ∧ is_Some (conns_of r !! cpn k) ∧ buffer_ok c x k b t.
Proof.
  intros HV Hx. pose proof HV as [HI HK HW HB].
  destruct (io_session _ _ _ _ _ _ _ HV Hx) as (cn & s & k & HS & Hk & Hcn & Hcase).
  pose proof (ir_session _ _ _ _ HI _ _ HS) as Hs. destruct (so_conn _ _ _ _ Hs) as (cc & Hcc & _).
  assert (io_pk x = active s) as Hpk by (destruct Hcase as [(? & _ & Hpk & _)|(? & ? & ? & _ & _ & _ & Hpk & _)]; exact Hpk).
  rewrite Hpk. exists k. cut (∃ b t, buffer_ok c x k b t).
  { intros (b & t & Hb). exists b, t. split; [done|]. split; [|done]. subst cn. by eexists. }
  unfold buffer_ok. destruct Hcase as [(held & E & _ & Hf)|(key & cb & b & E & _ & Hf)].
  - destruct (io_ok x); [| | |done].
    + destruct Hf as (Er & _ & Hbuf & [b Hb] & _). assert (owns r (active s) b) as Ho by (eapply parent_owns; try done; congruence).
      destruct (bo_block _ _ HB _ _ Ho) as [[t Ht] Hu]. by exists b, t.
    + destruct Hf as (_ & _ & _ & _ & Hw & _). pose proof Hw as (h & -> & _).
      destruct (held_buffer L _ _ _ _ _ _ _ _ _ HV HS E Hw) as (e & d & t & He & Hd & Hb & Ht & Hl & _). by exists d, t.
    + destruct Hf as (_ & _ & [(_ & _ & Hw & _)|(Hw & -> & Hbuf & [b Hb] & Hc)]).
      * pose proof Hw as (h & -> & _).
        destruct (held_buffer L _ _ _ _ _ _ _ _ _ HV HS E Hw) as (e & d & t & He & Hd & Hb & Ht & Hl & _). by exists d, t.
      * assert (owns r (active s) b) as Ho.
        { left. exists k. split; [done|]. unfold frees, delete_charn. rewrite Hc, <-Hbuf, Hb. by left. }
        destruct (bo_block _ _ HB _ _ Ho) as [[t Ht] _]. exists b, t. split; [done|]. split; [done|]. intros Hb2. congruence.
  - destruct Hf as (Hok & _ & Hbuf & _). rewrite Hok. assert (owns r (active s) b) as Ho by (right; eauto 10).
    destruct (bo_block _ _ HB _ _ Ho) as [[t Ht] Hu]. by exists b, t.
Qed.

Lemma stored_linked N c r S key e :
  inv None None N c r S → view c key = Some e →
  (∀ d, data e = Some d → ∃ t, heap c !! d = Some (BData t) ∧ size e = size_of t) ∧
  (isReserved e = true → NoDup (queue e) ∧ ∀ cb, cb ∈ queue e → ∃ pk k,
     heap c !! cb = Some (BCallback (BodyWio pk)) ∧ pkgs (web r) !! pk = Some k ∧ bodykey (rsp k) = Some key).
Proof.
  intros [HI HK HW HB] Hv. split.
  - intros d Hd. destruct (ko_stored _ _ _ HK _ _ Hv d Hd) as (t & Ht & Hsz & _). by exists t.
  - intros Hr. assert (rqueue c key = Some (queue e)) as Hq by (by rewrite (rqueue_view _ _ _ Hv), Hr).
    split; [eapply queue_NoDup; [apply HK|exact Hq]|]. intros cb Hin.
    destruct (wo_queue _ _ _ HW _ _ _ Hq Hin) as (cn & s & HS & Hws).
    destruct (wo_wait _ _ _ HW _ _ _ _ HS Hws) as (_ & _ & _ & Hcb).
    destruct (active_live _ _ _ _ (ir_session _ _ _ _ HI _ _ HS)) as (k & Hk & _ & Hc).
    exists (active s), k. split; [done|]. split; [done|]. unfold cont_ok in Hc. destruct Hws as [[f E]|E].
    + rewrite E in Hc. by destruct Hc as (_ & _ & _ & ? & _).
    + pose proof (wo_dead _ _ _ HW _ _ _ _ HS E). done.
Qed.

(** The packages that [svr_http_final] finds from [k]. *)
Definition linked_pkgs k : list loc :=
  match ppg k with Some P => P :: option_list (nsg k) | None => option_list (lcg k) end.

Lemma package_linked N c r S pk k :
  inv None None N c r S → pkgs (web r) !! pk = Some k →
  is_Some (conns_of r !! cpn k) ∧
  ∀ l, l ∈ linked_pkgs k →
    l ≠ pk ∧ ∃ k', pkgs (web r) !! l = Some k' ∧ cpn k' = cpn k.
Proof.
  intros [HI HK HW HB] Hk. destruct (ir_pkgs _ _ _ _ HI _ _ Hk) as (s & HS & Hin).
  pose proof (ir_session _ _ _ _ HI _ _ HS) as Hs. destruct (so_conn _ _ _ _ Hs) as (cc & Hcc & _).
  split; [by eexists|]. pose proof (so_nodup _ _ _ _ Hs) as Hnd.
  cut (∀ l, l ∈ linked_pkgs k → l ∈ own_pkgs s ∧ l ≠ pk).
  { intros Hl l Hlin. destruct (Hl l Hlin) as [Ho Hne]. split; [done|]. by eapply own_pkg. }
  unfold own_pkgs, linked_pkgs in *. apply NoDup_cons in Hnd as [Hnp Hnd]. apply elem_of_cons in Hin as [Ep|Hin].
  - subst pk. destruct (so_parent _ _ _ _ Hs) as (k2 & Hk2 & _ & Hpp & Hlc & _). assert (k2 = k) as -> by congruence.
    rewrite Hpp, Hlc. intros l Hl. destruct (last (s_rest s)) as [l2|] eqn:El; [|by apply elem_of_nil in Hl].
    apply list_elem_of_singleton in Hl as ->. assert (l2 ∈ s_rest s) by (by apply last_Some_elem_of). set_solver.
  - apply list_elem_of_lookup in Hin as [i Hi]. destruct (so_child _ _ _ _ Hs i pk Hi) as (k2 & Hk2 & (_ & Hpp & Hsib) & _).
    assert (k2 = k) as -> by congruence. rewrite Hpp, Hsib. simpl. intros l [->|Hl]%elem_of_cons.
    + split; [by left|]. intros E. apply Hnp. rewrite E. by eapply list_elem_of_lookup_2.
    + destruct (s_rest s !! Datatypes.S i) as [l2|] eqn:El; [|by apply elem_of_nil in Hl].
      apply list_elem_of_singleton in Hl as ->. split; [right; by eapply list_elem_of_lookup_2|]. intros ->.
      pose proof (NoDup_lookup _ _ _ _ Hnd Hi El). lia.
Qed.

(** What a package frees is its own. *)
Lemma freed_blocks N c r S pk k :
  inv None None N c r S → pkgs (web r) !! pk = Some k →
  NoDup (frees k) ∧ ∀ b, b ∈ frees k → (∃ t, heap c !! b = Some (BData t)) ∧ unowned c b ∧
    ∀ pk' k', pkgs (web r) !! pk' = Some k' → b ∈ frees k' → pk' = pk.
Proof.
  intros [_ _ _ HB] Hk. split.
  { pose proof (bo_one _ _ HB _ _ Hk). destruct (frees k) as [|b [|]]; simpl in *; [apply NoDup_nil_2|apply NoDup_singleton|lia]. }
  intros b Hb. assert (owns r pk b) as Ho by (left; eauto). destruct (bo_block _ _ HB _ _ Ho) as [Ht Hu].
  split; [done|]. split; [done|]. intros pk' k' Hk' Hb'. eapply (bo_own _ _ HB); [left; eauto|exact Ho].
Qed.

(** The operation reads into its buffer. *)
Definition reads (x : io) : Prop := io_ok x = ParseAio ∨ io_ok x = BodyPio.

Lemma reads_owns N c r S id x b :
  inv None None N c r S → ios r !! id = Some x → reads x → io_buf x = Some b → owns r (io_pk x) b.
Proof.
  intros HV Hx Hrd Hb. pose proof HV as [HI HK HW HB].
  destruct (io_session _ _ _ _ _ _ _ HV Hx) as (cn & s & k & HS & Hk & Hcn & [(held & E & Hf)|(key & cb & b2 & E & _ & Hf)]).
  - destruct Hf as [Hpk Hf]. rewrite Hpk. destruct Hrd as [Hok|Hok]; rewrite Hok in Hf; [|done].
    destruct Hf as (Er & _ & Hbuf & _). eapply parent_owns; [by eapply ir_session|done|done|congruence].
  - destruct Hf as (Hok & _). right. eauto 10.
Qed.

(** What reads into one block is one operation. *)
Lemma read_buffers N c r S id1 id2 x1 x2 :
  inv None None N c r S → ios r !! id1 = Some x1 → ios r !! id2 = Some x2 →
  reads x1 → reads x2 → io_buf x1 = io_buf x2 → id1 = id2.
Proof.
  intros HV H1 H2 R1 R2 E. pose proof HV as [HI HK HW HB].
  destruct (io_buffer _ _ _ _ _ _ HV H1) as (k1 & b & t & _ & _ & Hb & _). rewrite Hb in E.
  eapply (io_unique None r S); [exact HI|done|done|].
  eapply (bo_own _ _ HB); [by eapply reads_owns|by eapply reads_owns].
Qed.

(** ** The theorems *)

(** C1: The server has one fault only.  From the start, after any sequence of
    allowed steps in any order - new connections, tasks, reads and writes that
    end with any bytes, partly, at the end of a file or with an error - the next
    allowed step runs to its end, or stops where [strCpy] writes the terminator
    of a copied key past its block, which can happen only if the allocator gives
    a block for a key no byte more than was asked for.  But for that no handler
    uses a package, a connection, a callback or a block that is not live, frees
    anything twice, violates an assertion or runs out of fuel, on any state of
    the cache and whatever the system answers. *)
Theorem server_one_fault m n w h :
  listening m → reachable m n w → few_steps n → allowed h w →
  (∃ w', exec h w = Ok (tt, w')) ∨
  exec h w = Fault HeapOverflow ∧ ∃ len, len < MAXKEYS ∧ usable len ≤ len.
Proof.
  intros Hm Hr Hn Ha. unfold few_steps in Hn.
  apply (step_kept L (2 * Z.of_nat n) h w); [by apply (reachable_ok m)|done|apply any_answers|lia|lia].
Qed.



(** C19: Requests of a connection are served one at a time.  In every reachable
    state whatever goes on for a connection goes on for one and the same package
    and is one task, or one operation - which may be the read of a block for
    which the package itself waits - or waiting for one block.  So the answers to
    pipelined requests are never mixed, and no task is posted twice. *)
Theorem one_at_a_time m n w pk1 pk2 k1 k2 a1 a2 :
  listening m → reachable m n w → few_steps n →
  pkgs (web w.2) !! pk1 = Some k1 → pkgs (web w.2) !! pk2 = Some k2 → cpn k1 = cpn k2 →
  going_on w pk1 a1 → going_on w pk2 a2 →
  pk1 = pk2 ∧ NoDup (tasks (web w.2)) ∧
  match a1, a2 with
  | AIo id, AWait _ key | AWait _ key, AIo id =>
    ∃ x, ios w.2 !! id = Some x ∧ io_ok x = BodyPio ∧ bodykey (rsp k1) = Some key
  | _, _ => a1 = a2
  end.
Proof.
  intros Hm Hr Hn Hk1 Hk2 Hcn H1 H2. destruct (reachable_ok m n w Hm Hn Hr) as [S HV]. destruct w as [c r]. simpl in *.
  destruct (going_on_session _ _ _ _ _ _ _ HV H1 Hk1) as (s & HS & -> & E1).
  destruct (going_on_session _ _ _ _ _ _ _ HV H2 Hk2) as (s2 & HS2 & -> & E2).
  rewrite <-Hcn in HS2. assert (s2 = s) as -> by congruence. pose proof HV as [HI _ _ _].
  split; [done|]. split; [apply (ir_tasks_nodup _ _ _ _ HI)|].
  pose proof (so_cont _ _ _ _ (ir_session _ _ _ _ HI _ _ HS) _ Hk1) as Hc.
  destruct a1 as [t1|id1|p1 key1], a2 as [t2|id2|p2 key2]; simpl in H1, H2.
  - congruence.
  - by rewrite E1 in E2.
  - destruct E2 as (? & ? & ?). congruence.
  - by rewrite E2 in E1.
  - f_equal. unfold owns_io in E1, E2. destruct (s_cont s) as [| | |? ? []|]; done || congruence.
  - destruct E2 as (cb & f & E). unfold cont_ok in Hc. rewrite E in Hc, E1. destruct f as [id|]; [|done].
    simpl in E1. subst id. destruct Hc as (_ & _ & _ & Hb & _ & _ & x & b & Hx & Hok & _). by exists x.
  - destruct E1 as (? & ? & ?). congruence.
  - destruct E1 as (cb & f & E). unfold cont_ok in Hc. rewrite E in Hc, E2. destruct f as [id|]; [|done].
    simpl in E2. subst id. destruct Hc as (_ & _ & _ & Hb & _ & _ & x & b & Hx & Hok & _). by exists x.
  - destruct E1 as (? & ? & ?), E2 as (? & ? & ?), H1 as [-> _], H2 as [-> _]. congruence.
Qed.

(** C20: The cache of the server only grows.  In every reachable state no block is
    accounted for - [currentSize_] is 0, whatever was stored - and every entry
    has a reference that nobody gives back, so that none is in the free list and
    [doneWith] never evicts one: the quota of [MAXCSIZE] bytes has no effect. *)
Theorem cache_never_evicts m n w :
  listening m → reachable m n w → few_steps n →
  currentSize_ w.1 = 0%Z ∧ fifo_rep (freeList_ w.1) [] ∧
  ∀ key e, view w.1 key = Some e → (1 ≤ refCount e)%Z ∧ freeListRef e = None.
Proof.
  intros Hm Hr Hn. destruct (reachable_ok m n w Hm Hn Hr) as [S [_ HK _ _]]. destruct w as [c r]. simpl in *.
  pose proof (ko_wf _ _ _ HK) as Hwf. split; [apply HK|]. split; [apply (wf_fifo _ _ Hwf)|]. intros key e Hv.
  destruct (ko_refs _ _ _ HK _ _ Hv) as [H1 _]. split; [lia|].
  destruct (view_some _ _ _ _ Hwf Hv) as (p & _ & _ & Hok). destruct (freeListRef e) as [l|] eqn:E; [|done].
  apply (ok_ref _ _ _ _ _ Hok) in E. by apply elem_of_nil in E.
Qed.


End server.

(** ** Witnesses *)

#[local] Existing Instance t_usable.
Abbreviation test_server := (server (list Z) (FastFIFO.FastFIFO loc)).

(** The state after a sequence of steps. *)
Definition step_to (w : test_server) (h : choice) : test_server :=
  match exec h w with Ok (_, w') => w' | Fault _ => w end.
Definition t_run (hs : list choice) : test_server := foldl step_to (boot test_net) hs.
Definition runs_ok (w : test_server) (h : choice) : bool := match exec h w with Ok _ => true | Fault _ => false end.

Lemma t_listening : listening 1 test_net.
Proof. split; [by eexists|]. intros cn [c Hc]. simpl in Hc. by apply lookup_singleton_Some in Hc as [<- _]. Qed.

Lemma t_step n hs h :
  reachable 1 test_net n (t_run hs) → allowed 1 h (t_run hs) → runs_ok (t_run hs) h = true →
  reachable 1 test_net (S n) (t_run (hs ++ [h])).
Proof.
  unfold runs_ok. intros Hr Ha Hok. unfold t_run. rewrite foldl_app. simpl. fold (t_run hs). unfold step_to.
  destruct (exec h (t_run hs)) as [[[] w']|] eqn:E; [|done]. by econstructor.
Qed.

(** A client asks for [a]; its header is sent, and the file is being read. *)
Definition t_request : text := txt "GET /a HTTP/1.1" ++ CRLF ++ CRLF.
Definition t_steps : list choice :=
  [Accept (CS_CLOSED, 0%Z) 1; Complete 1 (Done t_request); RunTask 0; Complete 2 (Done (txt "HTTP/1.1"))].

Lemma t_reached : reachable 1 test_net 4 (t_run t_steps).
Proof.
  apply (t_step 3 (take 3 t_steps)); [|intros x Hx; vm_compute in Hx; injection Hx as <-; by vm_compute|by vm_compute].
  apply (t_step 2 (take 2 t_steps)); [| |by vm_compute].
  2:{ intros pk k u Hi Hk Hu. vm_compute in Hi. injection Hi as <-. vm_compute in Hk. injection Hk as <-.
      injection Hu as <-. apply (bool_decide_unpack _). by vm_compute. }
  apply (t_step 1 (take 1 t_steps)); [|intros x Hx; vm_compute in Hx; injection Hx as <-; by vm_compute|by vm_compute].
  apply (t_step 0 []); [apply reachable_boot|done|by vm_compute].
Qed.

Lemma t_few : few_steps 4.
Proof. by vm_compute. Qed.

(** With room for every key the step runs. *)
Lemma server_one_fault_witness :
  ∃ w', exec (Complete 3 Failed) (t_run t_steps) = Ok (tt, w').
Proof.
  destruct (server_one_fault 1 test_net 4 (t_run t_steps) (Complete 3 Failed) t_listening t_reached t_few)
    as [H|(_ & len & _ & H)]; [|exact H|exfalso; simpl in H; lia].
  intros x k Hx _. vm_compute in Hx. injection Hx as <-. by intros [=].
Defined.

(** On a platform with blocks of exactly the size that was asked for, the first
    request stops the server. *)
Definition t_exact : Platform := {| usable n := n; freed_readable := true |}.
Lemma first_request_overflows : exec (HP := t_exact) (RunTask 0) (t_run (take 2 t_steps)) = Fault HeapOverflow.
Proof. vm_compute. reflexivity. Qed.


Lemma t_waits : going_on (t_run t_steps) 2%positive (AWait 2 "a#0").
Proof.
  split; [reflexivity|]. destruct (view (t_run t_steps).1 "a#0") as [e|] eqn:Hv; [|vm_compute in Hv; discriminate Hv].
  destruct (pkgs (web (t_run t_steps).2) !! 2%positive) as [k|] eqn:Hk; [|vm_compute in Hk; discriminate Hk].
  destruct (ios (t_run t_steps).2 !! 3%positive) as [x|] eqn:Hx; [|vm_compute in Hx; discriminate Hx].
  assert (io_ok x = BodyPio ∧ io_pk x = 2%positive) as [Hok Hpk] by (vm_compute in Hx; injection Hx as <-; split; reflexivity).
  assert (bodykey (rsp k) = Some "a#0") as Hb by (vm_compute in Hk; injection Hk as <-; reflexivity).
  assert (isReserved e = true ∧ ∃ cb, cb ∈ queue e ∧ heap (t_run t_steps).1 !! cb = Some (BCallback (BodyWio 2%positive)))
    as (Hr & cb & Hin & Hcb).
  { vm_compute in Hv. injection Hv as <-. split; [reflexivity|]. eexists. split; [left|vm_compute; reflexivity]. }
  exists e, cb. split; [exact Hv|]. split; [exact Hr|]. split; [exact Hin|]. split; [exact Hcb|].
  exists 3%positive, x, k. rewrite Hpk. split; [exact Hx|]. split; [exact Hok|]. split; [exact Hk|exact Hb].
Qed.

Lemma one_at_a_time_witness :
  ∃ k x, pkgs (web (t_run t_steps).2) !! 2%positive = Some k ∧ ios (t_run t_steps).2 !! 3%positive = Some x ∧
    io_ok x = BodyPio ∧ bodykey (rsp k) = Some "a#0".
Proof.
  destruct (pkgs (web (t_run t_steps).2) !! 2%positive) as [k|] eqn:Hk; [|vm_compute in Hk; discriminate Hk].
  assert (going_on (t_run t_steps) 2%positive (AIo 3)) as H3 by (eexists; split; vm_compute; reflexivity).
  destruct (one_at_a_time 1 test_net 4 (t_run t_steps) 2%positive 2%positive k k _ _
    t_listening t_reached t_few Hk Hk eq_refl H3 t_waits) as (_ & _ & x & Hx & Hok & Hb).
  exists k, x. split; [reflexivity|]. split; [exact Hx|]. split; [exact Hok|exact Hb].
Defined.


Lemma cache_never_evicts_witness :
  currentSize_ (t_run t_steps).1 = 0%Z ∧ is_Some (view (t_run t_steps).1 "a").
Proof.
  destruct (cache_never_evicts 1 test_net 4 (t_run t_steps) t_listening t_reached t_few) as (H & _ & _).
  split; [exact H|]. apply (bool_decide_unpack _). vm_compute. exact I.
Defined.

End HttpServer.
