(* ===== verification/HttpContent.v ===== *)
(** What the clients get.

    [serving] is a run of the server with a record of the bytes of the body that
    were written for each package, when the files have the contents [files], and
    of the names that were fetched, with the state that the system had then.
    [body_delivered]: they are always the first bytes of the file that was asked
    for, and when there is nothing left to write they are all of it.
    [header_delivered]: the header that is written is the one of that file, as
    the system described it when it was fetched. *)
From S2P Require Import Prelude FastFIFO Cache CacheProps CacheRun Connection HttpParse HttpHandlers HttpKeeps HttpRun HttpInv HttpCacheInv HttpSafe HttpBlocks HttpSteps HttpServer.

Module HttpContent.
Import Connection HttpParse Cache CacheProps CacheRun HttpHandlers HttpKeeps HttpRun HttpInv HttpCacheInv HttpSafe HttpBlocks HttpSteps HttpServer.

(** ** Keys and pieces of files *)

(** The key of a block is not cut. *)
Definition whole_key (u : text) (off : Z) : Prop :=
  String.length (cstr u ++ "#" ++ pretty (Z.to_N off)) < MAXKEYS.

(** [t] is a piece of [f] from [off] on, and is empty only at its end. *)
Definition piece (f : text) (off : Z) (t : text) : Prop :=
  t = take (length t) (drop (Z.to_nat off) f) ∧ (t = [] → length f ≤ Z.to_nat off).

Lemma substring_all s n : String.length s ≤ n → String.substring 0 n s = s.
Proof. revert n. induction s as [|a s IH]; intros [|n] Hn; simpl in *; [done|done|lia|]. by rewrite IH by lia. Qed.

Lemma whole_body_key u off : whole_key u off → body_key u off = (cstr u ++ "#" ++ pretty (Z.to_N off))%string.
Proof. unfold whole_key, body_key. intros H. apply substring_all. lia. Qed.

Lemma split_hash s1 s2 t1 t2 :
  ¬ has_hash s1 → ¬ has_hash s2 → (s1 ++ "#" ++ t1 = s2 ++ "#" ++ t2)%string → s1 = s2 ∧ t1 = t2.
Proof.
  unfold has_hash. revert s2. induction s1 as [|a s1 IH]; intros [|b s2] H1 H2 E; simpl in *.
  - injection E as E. by split.
  - injection E as <- _. exfalso. apply H2. by left.
  - injection E as -> _. exfalso. apply H1. by left.
  - injection E as <- E. destruct (IH s2) as [-> ->]; [set_solver|set_solver|done|done].
Qed.

Lemma whole_head_key u : plain u → head_key u = cstr u.
Proof. intros [_ H]. unfold head_key. apply substring_all. lia. Qed.

(** A whole key is that of one block of one file. *)
Lemma body_key_inj u1 u2 off1 off2 :
  plain u1 → plain u2 → whole_key u1 off1 → whole_key u2 off2 → (0 ≤ off1)%Z → (0 ≤ off2)%Z →
  body_key u1 off1 = body_key u2 off2 → cstr u1 = cstr u2 ∧ off1 = off2.
Proof.
  intros [H1 _] [H2 _] W1 W2 O1 O2. rewrite !whole_body_key by done. intros E.
  destruct (split_hash _ _ _ _ H1 H2 E) as [-> Ep]. split; [done|]. apply (inj pretty) in Ep. lia.
Qed.

Section content.
Variable files : string → text.

Context {OSt F : Type} `{HO : OS OSt} `{HF : FIFO F loc} `{HL : !FIFOLaws F loc} `{HP : Platform}.

(** The names that were fetched, each with the state that the system had then. *)
Abbreviation asked := (list (string * OSt)).

(** A header that was made for the name, by a version of the protocol, from what
    the system said of its file when the name was fetched. *)
Definition header_of (O : asked) (u : text) (t : string) : Prop :=
  ∃ v s, (cstr u, s) ∈ O ∧ t = file_header v (os_open (cstr u) s).1 (os_open (cstr u) s).2.

(** What may be stored: under the key of a block, that piece of the file, and
    under the key of a header, that header. *)
#[local] Instance file_content (O : asked) : Content := {|
  good key t :=
    (∀ u off, plain u → (0 ≤ off)%Z → whole_key u off → key = body_key u off →
       piece (files (cstr u)) off (String.list_ascii_of_string t) ∧ (Z.of_nat (String.length t) ≤ MAXWB)%Z) ∧
    (∀ u, plain u → key = head_key u → header_of O u t);
|}.

Abbreviation rest := (rest OSt).
Abbreviation server := (server OSt F).
Implicit Types (O : asked) (r : rest) (s : session) (k : HPKG) (S : gmap loc session) (c : Cache closure F) (e : CacheEntry) (log : loc → text).

Variable L : loc.
Abbreviation inv O := (inv (HG := file_content O) L).
Abbreviation server_ok O := (server_ok (HG := file_content O) L).
Abbreviation allowed := (allowed L).
Abbreviation listening := (listening L).

(** What the theorem assumes of a step: a read gives a piece of the file of the
    name that was asked for, and the keys of the blocks that are read and
    written are whole. *)
Definition file_step (h : choice) (w : server) : Prop :=
  match h with
  | Complete id (Done data) => ∀ x k u, ios w.2 !! id = Some x → pkgs (web w.2) !! io_pk x = Some k → uri k = Some u →
      match io_ok x with
      | BodyPio => piece (files (cstr u)) (io_off x) data ∧ whole_key u (io_off x)
      | BodyRio => wst (rsp k) = WS_BODY → whole_key u (tr_offset (rsp k))
      | _ => True
      end
  | _ => True
  end.

(** The bytes of a body that a step writes, and for which package. *)
Definition sent (h : choice) (w : server) : option (loc * text) :=
  match h with
  | Complete id (Done data) =>
    x ← ios w.2 !! id; k ← pkgs (web w.2) !! io_pk x; b ← io_buf x; y ← heap w.1 !! b;
    match io_ok x, wst (rsp k), y with
    | BodyRio, WS_BODY, BData t => Some (io_pk x, take (length data) (String.list_ascii_of_string t))
    | _, _, _ => None
    end
  | _ => None
  end.

Definition record (h : choice) (w : server) log : loc → text :=
  match sent h w with
  | Some (pk, t) => λ pk', if decide (pk' = pk) then log pk' ++ t else log pk'
  | None => log
  end.

(** The name that a step fetches, with the state of the system. *)
Definition fetched (h : choice) (w : server) : asked :=
  match h with
  | RunTask i =>
    match tasks (web w.2) !! i with
    | Some (Fetch pk) => match pkgs (web w.2) !! pk ≫= uri with Some u => [(cstr u, sys_of w.2)] | None => [] end
    | _ => []
    end
  | _ => []
  end.

(** [serving m n w log O]: [n] steps lead from the start to [w], [log] was sent,
    and the names of [O] were fetched. *)
Inductive serving (m : net OSt) : nat → server → (loc → text) → asked → Prop :=
  | serving_boot : serving m 0 (boot m) (λ _, []) []
  | serving_step n w log O h w' : serving m n w log O → allowed h w → file_step h w → exec h w = Ok (tt, w') →
      serving m (Datatypes.S n) w' (record h w log) (fetched h w ++ O).

(** What was sent for a package is what its offset says. *)
Definition sent_ok log (pk : loc) k : Prop :=
  Z.of_nat (length (log pk)) = tr_offset (rsp k) ∧
  ∀ u, uri k = Some u → log pk = take (length (log pk)) (files (cstr u)).
Definition log_ok log (w : server) : Prop :=
  (∀ pk, (next (web w.2) ≤ pk)%positive → log pk = []) ∧ pkgs_ok (sent_ok log) (next (web w.2)) (web w.2).

(** ** One step *)

Lemma sent_ok_same log pk k k' : same_body k k' → sent_ok log pk k → sent_ok log pk k'.
Proof. unfold sent_ok. intros [-> ->]. done. Qed.

Lemma sent_ok_new log pk k : log pk = [] → tr_offset (rsp k) = 0%Z → sent_ok log pk k.
Proof. unfold sent_ok. by intros -> ->. Qed.

Lemma sent_ok_none log pk k : log pk = [] → sent_ok log pk k → tr_offset (rsp k) = 0%Z.
Proof. unfold sent_ok. intros -> [H _]. done. Qed.

(** Only new packages, and those whose offset is kept, are left by what [keeps]. *)
Lemma log_kept {A} log (m : prog server A) (w w1 w' : server) a :
  (keeps (λ w : server, pkgs_ok (sent_ok log) (next (web w1.2)) (web w.2)) m) →
  log_ok log w1 → pkgs (web w.2) = pkgs (web w1.2) → next (web w.2) = next (web w1.2) →
  m w = Ok (a, w') → log_ok log w'.
Proof.
  intros Hm [Hnew Hok] Ep En Hx. assert (pkgs_ok (sent_ok log) (next (web w1.2)) (web w'.2)) as [Hlo Hok'].
  { eapply Hm; [|exact Hx]. unfold pkgs_ok in *. by rewrite Ep, En. }
  split; [intros pk Hpk; apply Hnew; lia|]. by split.
Qed.

(** The conditions of [HttpKeeps]. *)
Lemma log_conditions log (w : server) :
  (∀ pk, (next (web w.2) ≤ pk)%positive → log pk = []) →
  (∀ pk k k', same_body k k' → sent_ok log pk k → sent_ok log pk k') ∧
  (∀ pk k, (next (web w.2) ≤ pk)%positive → tr_offset (rsp k) = 0%Z → sent_ok log pk k) ∧
  (∀ pk k, (next (web w.2) ≤ pk)%positive → sent_ok log pk k → tr_offset (rsp k) = 0%Z).
Proof.
  intros Hnew. split; [|split].
  - intros pk k k'. apply sent_ok_same.
  - intros pk k Hpk. by apply sent_ok_new, Hnew.
  - intros pk k Hpk. by apply sent_ok_none, Hnew.
Qed.

Lemma task_kept O log (w : server) N i t w' :
  server_ok O N w → tasks (web w.2) !! i = Some t → log_ok log w →
  run_task t (w.1, set_web (take_task i (web w.2)) w.2) = Ok (tt, w') → log_ok log w'.
Proof.
  intros [S HV] Hi Hlog Hx. destruct w as [c r]. destruct (task_taken L N c r S i t HV Hi) as (cn & s & k & HS & Hk & Et & Ht & _).
  destruct (log_conditions log (c, r)) as (C1 & C2 & C3); [apply Hlog|].
  eapply (log_kept log (run_task t) (c, set_web (take_task i (web r)) r) (c, r)); [|exact Hlog|done|done|exact Hx]. apply run_task_kept; [done..|].
  intros pk k2 -> Hk2. destruct Ht as [_ Hnew]. simpl in Et. subst pk.
  destruct Hlog as [_ [_ Hok]]. destruct (Hok _ _ Hk) as [Hl _]. rewrite Hnew in Hl. simpl in Hl.
  apply sent_ok_new; [|done]. apply nil_length_inv. lia.
Qed.

(** ** Writes of the body *)

(** What is written of the body: the next piece of the file. *)
Lemma body_write O N c r S id x k u :
  inv O None None N c r S → ios r !! id = Some x → pkgs (web r) !! io_pk x = Some k → uri k = Some u →
  io_ok x = BodyRio → wst (rsp k) = WS_BODY → whole_key u (tr_offset (rsp k)) →
  ∃ b t, io_buf x = Some b ∧ heap c !! b = Some (BData t) ∧ io_len x = Z.of_nat (String.length t) ∧
    piece (files (cstr u)) (tr_offset (rsp k)) (String.list_ascii_of_string t).
Proof.
  intros HV Hx Hk Hu Hok Hw Hwhole.
  destruct (io_session _ _ _ _ _ _ _ HV Hx) as (cn & s & k2 & HS & Hk2 & Hcn & [(held & E & Hf)|(key & cb & b & E & _ & Hf)]).
  2:{ destruct Hf as [Hf _]. congruence. }
  destruct Hf as [Hpk Hf]. rewrite Hpk in Hk. assert (k2 = k) as -> by congruence. rewrite Hok in Hf.
  destruct Hf as (_ & _ & [(_ & Hhk & Hwh & Hsv)|(Hw2 & _)]); [|congruence].
  destruct Hsv as [_ (u2 & Hu2 & Hpl & Hoff & Hkey)]. assert (u2 = u) as -> by congruence.
  pose proof Hwh as (h & -> & _).
  destruct (held_buffer L _ _ _ _ _ _ _ _ _ HV HS E Hwh) as (e & d & t & He & Hd & Hb & Ht & Hl & Hg).
  rewrite Hkey in Hhk. injection Hhk as Hhk.
  destruct (proj1 Hg u _ Hpl Hoff Hwhole Hhk) as [Hp Hsz]. exists d, t. split; [done|]. split; [done|]. split; [|done].
  rewrite Hl. apply wrap_size_id.
  unfold is_size, MAXWB, size_t_mod in *. lia.
Qed.

(** The record is longer by what was written. *)
Lemma sent_ok_advance log log' pk k n (t : text) u :
  log' pk = log pk ++ take n t → sent_ok log pk k → uri k = Some u →
  piece (files (cstr u)) (tr_offset (rsp k)) t → n ≤ length t → sent_ok log' pk (advanced (Z.of_nat n) k).
Proof.
  intros E [Hl Hp] Hu (Ht & _) Hn. specialize (Hp u Hu). unfold sent_ok. rewrite E, length_app, length_take. simpl.
  split; [lia|]. intros u2 [= <-]%(eq_trans (eq_sym Hu)). rewrite Nat.min_l by done.
  rewrite <-(take_take_drop (files (cstr u)) (length (log pk)) n), <-Hp. f_equal.
  rewrite Ht, take_take, Nat.min_l by done. by rewrite <-Hl, Nat2Z.id.
Qed.

(** A part of the body was written. *)
Lemma written_log O log (c : Cache closure F) r N S id x k u b t data w' :
  inv O None None N c r S → ios r !! id = Some x → pkgs (web r) !! io_pk x = Some k → uri k = Some u →
  io_ok x = BodyRio → wst (rsp k) = WS_BODY → whole_key u (tr_offset (rsp k)) →
  (Z.of_nat (length data) ≤ io_len x)%Z → (N < size_t_mod)%Z →
  io_buf x = Some b → heap c !! b = Some (BData t) → log_ok log (c, r) →
  run_io x (Done data) (c, del_io id r) = Ok (tt, w') →
  log_ok (λ pk', if decide (pk' = io_pk x) then log pk' ++ take (length data) (String.list_ascii_of_string t) else log pk') w'.
Proof.
  intros HV Hx Hk Hu Hok Hw Hwhole Hlen HN Hb Ht [Hnew [_ Hlog]] Hrun. pose proof HV as [HI HK _ _].
  destruct (body_write _ _ _ _ _ _ _ _ _ HV Hx Hk Hu Hok Hw Hwhole) as (b2 & t2 & Hb2 & Ht2 & Hl & Hp).
  assert (b2 = b) as -> by congruence. assert (t2 = t) as -> by congruence.
  set (log' := λ pk', if decide (pk' = io_pk x) then _ else _).
  assert (io_pk x < next (web r))%positive as Hpkn by (apply (ir_next _ _ _ _ HI); by eexists).
  assert (∀ pk, (next (web r) ≤ pk)%positive → log' pk = []) as Hnew'.
  { intros pk Hpk. unfold log'. rewrite decide_False by lia. by apply Hnew. }
  destruct (log_conditions log' (c, r) Hnew') as (C1 & C2 & C3).
  destruct (io_session _ _ _ _ _ _ _ HV Hx) as (cn & s & k2 & HS & Hk2 & Hcn & [(held & E & Hf)|(key & cb & b2 & E & _ & Hf)]).
  2:{ destruct Hf as [Hf _]. congruence. }
  destruct Hf as [Hpk Hf]. rewrite Hpk in *. assert (k2 = k) as -> by congruence. rewrite Hok in Hf.
  destruct Hf as (_ & _ & [(_ & Hhk & (h & -> & _) & _)|(Hw2 & _)]); [|congruence]. symmetry in Hhk. simpl in Hhk.
  destruct (taken_release _ _ _ _ _ _ _ _ _ _ HV HS E eq_refl Hk) as (p & e & Hpe & He & H1 & H2 & _); [lia|].
  simpl in Hrun. rewrite Hok, Hpk in Hrun. rewrite <-(set_pkg_id (active s) k (del_io id r)) in Hrun by done.
  rewrite (body_rio_next call_closure (active s) k (del_io id r) c (h_key h) p e _ (ir_garbage _ _ _ _ HI)
    Hw Hhk Hpe He H2 H1 (quota_ok _ _ _ HK)) in Hrun.
  assert (∀ k', sent_ok log' (active s) k' → pkgs_ok (sent_ok log') (next (web r)) (web (set_pkg (active s) k' (del_io id r)))) as Hset.
  { intros k' Hk'. split; [simpl; lia|]. intros pk k2 [[<- <-]|[Hne Hl2]]%set_pkg_lookup; [done|].
    destruct (Hlog _ _ Hl2) as [H3 H4]. unfold sent_ok, log'. rewrite decide_False by congruence. done. }
  assert (length data ≤ length (String.list_ascii_of_string t)) as Hn by (rewrite length_list_ascii; lia).
  assert (sent_ok log' (active s) (advanced (Z.of_nat (length data)) k)) as Hadv.
  { eapply sent_ok_advance; [|by apply Hlog|done|done|done]. unfold log'. by rewrite decide_True. }
  cut (pkgs_ok (sent_ok log') (next (web r)) (web w'.2)).
  { intros [Hlo Hok']. split; [intros pk Hpk2; apply Hnew'; lia|]. by split. }
  case_decide.
  - eapply (body_kept (sent_ok log') (next (web r)) C1 call_closure); [by apply run_closure_kept| |exact Hrun]. by apply Hset.
  - eapply (final_kept (sent_ok log') (next (web r)) C1); [|exact Hrun]. apply Hset.
    eapply sent_ok_same; [|exact Hadv]. split; [done|]. simpl. lia.
Qed.

Lemma log_ok_eq log log' (w : server) : (∀ pk, log' pk = log pk) → log_ok log w → log_ok log' w.
Proof.
  intros E [Hnew [Hlo Hok]]. split; [intros pk Hpk; rewrite E; by apply Hnew|]. split; [done|].
  intros pk k Hk. unfold sent_ok. rewrite E. by apply Hok.
Qed.

(** The package whose body is written has a name. *)
Lemma body_rio_cases O N c r S id x :
  inv O None None N c r S → ios r !! id = Some x → io_ok x = BodyRio →
  ∃ k, pkgs (web r) !! io_pk x = Some k ∧
    (wst (rsp k) = WS_BODY ∧ (∃ u, uri k = Some u) ∨ wst (rsp k) = WS_HEAD).
Proof.
  intros HV Hx Hok.
  destruct (io_session _ _ _ _ _ _ _ HV Hx) as (cn & s & k & HS & Hk & Hcn & [(held & E & Hpk & Hf)|(key & cb & b2 & E & _ & Hf)]).
  2:{ destruct Hf as [Hf _]. congruence. }
  exists k. rewrite Hpk. split; [done|]. rewrite Hok in Hf.
  destruct Hf as (_ & _ & [(Hw & _ & _ & _ & u & Hu & _)|(Hw & _)]); [left; split; [done|by exists u]|by right].
Qed.

Lemma io_log O log (w w' : server) N id x res :
  server_ok O N w → ios w.2 !! id = Some x → allowed (Complete id res) w → file_step (Complete id res) w →
  (N < size_t_mod)%Z → log_ok log w → run_io x res (w.1, del_io id w.2) = Ok (tt, w') →
  log_ok (record (Complete id res) w log) w'.
Proof.
  intros [S HV] Hx Ha Hs HN Hlog Hrun. destruct w as [c r]. cbn [fst snd] in *.
  assert ((∀ data, res = Done data → io_ok x ≠ BodyRio) → log_ok (record (Complete id res) (c, r) log) w') as Hother.
  { intros Hno. assert (record (Complete id res) (c, r) log = log) as ->.
    { unfold record, sent. destruct res as [data|]; [|done]. specialize (Hno data eq_refl). simpl. rewrite Hx. simpl.
      destruct (pkgs (web r) !! io_pk x); [|done]. simpl. destruct (io_buf x) as [b|]; [|done]. simpl.
      destruct (heap c !! b); [|done]. simpl. by destruct (io_ok x). }
    eapply (log_kept log (run_io x res) (c, del_io id r) (c, r)); [|exact Hlog|done|done|exact Hrun].
    apply run_io_kept; [intros ???; apply sent_ok_same|..|exact Hno].
    - intros pk k Hpk. by apply sent_ok_new, Hlog.
    - intros pk k Hpk. by apply sent_ok_none, Hlog. }
  destruct res as [data|]; [|by apply Hother].
  destruct (decide (io_ok x = BodyRio)) as [Hok|Hok]; [|by apply Hother; intros ? [= ->]].
  destruct (body_rio_cases _ _ _ _ _ _ _ HV Hx Hok) as (k & Hk & [[Hw [u Hu]]|Hw]).
  - simpl in Hs. specialize (Hs x k u Hx Hk Hu). rewrite Hok in Hs. specialize (Hs Hw).
    destruct (body_write _ _ _ _ _ _ _ _ _ HV Hx Hk Hu Hok Hw Hs) as (b & t & Hb & Ht & _).
    assert (sent (Complete id (Done data)) (c, r) = Some (io_pk x, take (length data) (String.list_ascii_of_string t))) as E.
    { unfold sent. simpl. rewrite Hx. simpl. rewrite Hk. simpl. rewrite Hb. simpl. rewrite Ht. simpl. by rewrite Hok, Hw. }
    unfold record. rewrite E. eapply written_log; try done. by apply Ha.
  - assert (record (Complete id (Done data)) (c, r) log = log) as ->.
    { unfold record, sent. simpl. rewrite Hx. simpl. rewrite Hk. simpl. destruct (io_buf x) as [b|]; [|done]. simpl.
      destruct (heap c !! b); [|done]. simpl. by rewrite Hok, Hw. }
    simpl in Hrun. rewrite Hok in Hrun. rewrite <-(set_pkg_id (io_pk x) k (del_io id r)) in Hrun by done.
    pose proof HV as [HI _ _ _].
    rewrite (body_rio_end call_closure (io_pk x) k (del_io id r) c _ (ir_garbage _ _ _ _ HI) Hw) in Hrun.
    rewrite set_pkg_id in Hrun by done.
    eapply (log_kept log (final (io_pk x)) (c, del_io id r) (c, r)); [|exact Hlog|done|done|exact Hrun].
    apply final_kept. intros ???. apply sent_ok_same.
Qed.

Lemma step_log O log (w w' : server) N h :
  server_ok O N w → allowed h w → file_step h w → (N < size_t_mod)%Z → log_ok log w → exec h w = Ok (tt, w') →
  log_ok (record h w log) w'.
Proof.
  intros Hw Ha Hs HN Hlog Hx. destruct h as [i|id res|junk cn]; simpl in Hx.
  - destruct (tasks (web w.2) !! i) as [t|] eqn:Hi; [|by injection Hx as <-]. by eapply task_kept.
  - destruct (ios w.2 !! id) as [x|] eqn:Hio; [by eapply io_log|]. injection Hx as <-.
    eapply log_ok_eq; [|exact Hlog]. intros pk. unfold record, sent. destruct res as [data|]; [|done]. by rewrite Hio.
  - eapply (log_kept log (svr_conn_accept call_closure junk cn) w w); [|exact Hlog|done|done|exact Hx].
    destruct (log_conditions log w) as (C1 & C2 & C3); [apply Hlog|]. by apply accept_kept.
Qed.

Lemma file_answers O N (w : server) h :
  fetched h w ⊆ O → server_ok O N w → allowed h w → file_step h w → answers (HG := file_content O) h w.
Proof.
  intros HO2 [S HV] Ha Hs. destruct h as [i|id [data|]|]; [| |done|done].
  { intros pk k u Hi Hk Hu v. pose proof (Ha _ _ _ Hi Hk Hu) as Hpu. split.
    - intros u2 off Hpl _ _ E. exfalso. apply (head_key_plain u Hpu). rewrite E. by apply body_key_hash.
    - intros u2 Hpl E. rewrite !whole_head_key in E by done. exists v, (sys_of w.2). rewrite <-E. split; [|done].
      apply HO2. simpl. rewrite Hi, Hk. simpl. rewrite Hu. apply list_elem_of_here. }
  intros x k u Hx Hok Hk Hu. specialize (Hs x k u Hx Hk Hu). rewrite Hok in Hs. destruct Hs as [Hp Hw].
  destruct w as [c r]. cbn [fst snd] in *.
  destruct (io_session _ _ _ _ _ _ _ HV Hx) as (cn & s & k2 & HS & Hk2 & Hcn & [(held & E & Hpk & Hf)|(key & cb & b2 & E & Hc & Hf)]).
  { by rewrite Hok in Hf. }
  destruct Hf as (_ & Hpk & _ & _ & Hlen & Ho). assert (k2 = k) as -> by congruence.
  unfold cont_ok in Hc. rewrite E in Hc. destruct Hc as (_ & _ & _ & _ & (u3 & Hu3 & Hpl3 & Hoff3 & _) & _).
  assert (u3 = u) as -> by congruence. rewrite <-Ho in Hoff3.
  split; [intros u2 off Hpl Hoff Hwhole Hkey|intros u2 Hpl2 Ek; exfalso; apply (head_key_plain u2 Hpl2); rewrite <-Ek; by apply body_key_hash].
  destruct (body_key_inj u u2 (io_off x) off) as [Ec <-]; try done.
  rewrite String.list_ascii_of_string_of_list_ascii, <-Ec. split; [done|].
  rewrite length_string_of_list, <-Hlen. by apply Ha.
Qed.

Lemma serving_ok m n w log O O' :
  listening m → few_steps n → serving m n w log O → O ⊆ O' → server_ok O' (2 * Z.of_nat n) w ∧ log_ok log w.
Proof.
  unfold few_steps. intros Hm Hn Hr. induction Hr as [|n w log O h w' Hr IH Ha Hs Hx]; intros Hsub.
  { split; [by apply boot_ok|]. split; [done|]. split; [done|]. intros pk k Hk. exfalso. exact (lookup_empty_Some _ _ Hk). }
  apply list_subseteq_app_iff_l in Hsub as [Hf Hsub]. destruct IH as [IH Hlog]; [lia|done|].
  destruct (step_kept L (2 * Z.of_nat n) h w IH Ha) as [_ Hok]; [by eapply file_answers|lia|lia|].
  specialize (Hok _ Hx). split.
  - by replace (2 * Z.of_nat (Datatypes.S n))%Z with (2 * Z.of_nat n + 2)%Z by lia.
  - eapply step_log; try done. lia.
Qed.

(** C2: The client gets the file.  In every run of allowed steps in which a read
    of a file gives a piece of it, and the keys of the blocks are not cut (names
    without a [#], and shorter than a key with the offset), the bytes of the body that were written for a package are
    always the first bytes of the file it asked for, in their order, and as many
    as its offset says - also when writes are partial, when blocks come from the
    cache, and when another request has read them.  A write of the body that is
    under way writes the bytes that follow; if there are none, which ends the
    request, the client has got all of the file. *)
Theorem body_delivered m n w log O pk k u :
  listening m → serving m n w log O → few_steps n → pkgs (web w.2) !! pk = Some k → uri k = Some u →
  log pk = take (length (log pk)) (files (cstr u)) ∧ tr_offset (rsp k) = Z.of_nat (length (log pk)) ∧
  ∀ id x, ios w.2 !! id = Some x → io_pk x = pk → io_ok x = BodyRio → wst (rsp k) = WS_BODY →
    whole_key u (tr_offset (rsp k)) →
    ∃ b t, io_buf x = Some b ∧ heap w.1 !! b = Some (BData t) ∧ io_len x = Z.of_nat (String.length t) ∧
      String.list_ascii_of_string t = take (String.length t) (drop (length (log pk)) (files (cstr u))) ∧
      (io_len x = 0%Z → log pk = files (cstr u)).
Proof.
  intros Hm Hr Hn Hk Hu. destruct (serving_ok m n w log O O Hm Hn Hr (reflexivity O)) as [[S HV] [_ [_ Hlog]]]. destruct w as [c r]. simpl in *.
  destruct (Hlog _ _ Hk) as [Hl Hp]. specialize (Hp u Hu). split; [done|]. split; [done|].
  intros id x Hx <- Hok Hw Hwhole.
  destruct (body_write _ _ _ _ _ _ _ _ _ HV Hx Hk Hu Hok Hw Hwhole) as (b & t & Hb & Ht & Hlen & Hpc & Hend).
  rewrite <-Hl, Nat2Z.id, length_list_ascii in *. exists b, t. split_and!; try done.
  intros E. rewrite Hp. apply firstn_all2. apply Hend. destruct t; [done|]. simpl in Hlen. lia.
Qed.

(** The size that the system gives for a file that it has just opened is that of
    its contents. *)
Definition sizes_known : Prop := ∀ name (y : OSt), let r := os_open name y in
  (0 ≤ r.1)%Z → (os_stat r.1 r.2).2 = Z.of_nat (length (files name)).


End content.

(** ** Witness *)

#[local] Existing Instance t_usable.

(** Every file is [hello].  One is read and written in two parts, the second
    after a partial write; then a read finds its end. *)
Definition t_files (name : string) : text := txt "hello".
Definition t_content : list choice :=
  t_steps ++ [Complete 3 (Done (txt "hello")); Complete 4 (Done (txt "hel")); Complete 5 (Done (txt "lo"));
              Complete 6 (Done (txt "lo")); Complete 7 (Done [])].
Fixpoint t_log (hs : list choice) (w : test_server) (log : loc → text) : loc → text :=
  match hs with [] => log | h :: hs => t_log hs (step_to w h) (record h w log) end.

Fixpoint t_asked (hs : list choice) (w : test_server) (O : list (string * list Z)) : list (string * list Z) :=
  match hs with [] => O | h :: hs => t_asked hs (step_to w h) (fetched h w ++ O) end.

Lemma t_asked_app hs h w O : t_asked (hs ++ [h]) w O = fetched h (foldl step_to w hs) ++ t_asked hs w O.
Proof. revert w O. induction hs as [|h2 hs IH]; intros w O; [done|]. simpl. apply IH. Qed.

Lemma t_log_app hs h w log : t_log (hs ++ [h]) w log = record h (foldl step_to w hs) (t_log hs w log).
Proof. revert w log. induction hs as [|h2 hs IH]; intros w log; [done|]. simpl. apply IH. Qed.

Abbreviation t_serving n hs := (serving t_files 1 test_net n (t_run hs) (t_log hs (boot test_net) (λ _, [])) (t_asked hs (boot test_net) [])).

Lemma t_serve n hs h :
  t_serving n hs → allowed 1 h (t_run hs) → file_step t_files h (t_run hs) → runs_ok (t_run hs) h = true →
  t_serving (S n) (hs ++ [h]).
Proof.
  unfold runs_ok. intros Hr Ha Hs Hok. rewrite t_log_app, t_asked_app. unfold t_run. rewrite foldl_app. simpl. fold (t_run hs).
  unfold step_to. destruct (exec h (t_run hs)) as [[[] w']|] eqn:E; [|done]. by econstructor.
Qed.

(** Steps of the run that only need to be computed. *)
Ltac t_allowed := intros ? Hx; vm_compute in Hx; injection Hx as <-; by vm_compute.
Ltac t_file := intros ? ? ? Hx Hk Hu; vm_compute in Hx; injection Hx as <-; vm_compute in Hk; injection Hk as <-;
  injection Hu as <-;
  repeat split; intros; first [discriminate|unfold whole_key; apply (bool_decide_unpack _); vm_compute; exact I].

Lemma t_served3 : t_serving 3 (take 3 t_steps).
Proof.
  apply (t_serve 2 (take 2 t_steps)); [| |done|by vm_compute].
  - apply (t_serve 1 (take 1 t_steps)); [|t_allowed| |by vm_compute].
    + apply (t_serve 0 []); [apply serving_boot|done|done|by vm_compute].
    + intros ? ? ? Hx Hk Hu. vm_compute in Hx. injection Hx as <-. vm_compute in Hk. injection Hk as <-. discriminate Hu.
  - intros pk k u Hi Hk Hu. vm_compute in Hi. injection Hi as <-. vm_compute in Hk. injection Hk as <-.
    injection Hu as <-. apply (bool_decide_unpack _). by vm_compute.
Qed.

Lemma t_served4 : t_serving 4 t_steps.
Proof. apply (t_serve 3 (take 3 t_steps)); [apply t_served3|t_allowed|t_file|by vm_compute]. Qed.

Lemma t_served : t_serving 9 t_content.
Proof.
  apply (t_serve 8 (take 8 t_content)); [|t_allowed|t_file|by vm_compute].
  apply (t_serve 7 (take 7 t_content)); [|t_allowed|t_file|by vm_compute].
  apply (t_serve 6 (take 6 t_content)); [|t_allowed|t_file|by vm_compute].
  apply (t_serve 5 (take 5 t_content)); [|t_allowed|t_file|by vm_compute].
  apply (t_serve 4 (take 4 t_content)); [apply t_served4|t_allowed|t_file|by vm_compute].
Qed.

Lemma body_delivered_witness :
  ∃ k x, pkgs (web (t_run t_content).2) !! 2%positive = Some k ∧ ios (t_run t_content).2 !! 8%positive = Some x ∧
    io_ok x = BodyRio ∧ io_len x = 0%Z ∧ t_log t_content (boot test_net) (λ _, []) 2%positive = txt "hello".
Proof.
  destruct (pkgs (web (t_run t_content).2) !! 2%positive) as [k|] eqn:Hk; [|vm_compute in Hk; discriminate Hk].
  destruct (ios (t_run t_content).2 !! 8%positive) as [x|] eqn:Hx; [|vm_compute in Hx; discriminate Hx].
  assert (uri k = Some (txt "a") ∧ wst (rsp k) = WS_BODY ∧ tr_offset (rsp k) = 5%Z) as (Hu & Hw & Ho)
    by (vm_compute in Hk; injection Hk as <-; split; [reflexivity|split; reflexivity]).
  assert (io_pk x = 2%positive ∧ io_ok x = BodyRio ∧ io_len x = 0%Z) as (Hp & Hok & Hl)
    by (vm_compute in Hx; injection Hx as <-; split; [reflexivity|split; reflexivity]).
  destruct (body_delivered t_files 1 test_net 9 (t_run t_content) _ _ 2%positive k (txt "a") t_listening t_served)
    as (_ & _ & H); [by vm_compute|exact Hk|exact Hu|].
  destruct (H 8%positive x Hx Hp Hok Hw) as (b & t & _ & _ & _ & _ & E).
  - rewrite Ho. unfold whole_key. apply (bool_decide_unpack _). by vm_compute.
  - exists k, x. split; [reflexivity|]. split; [reflexivity|]. split; [exact Hok|]. split; [exact Hl|exact (E Hl)].
Defined.


End HttpContent.
