(* ===== verification/HttpProgress.v ===== *)
(** Every request ends.

    A step of the server that does not come from a client - a task, the end of a
    write or of the read of a file - lowers the potential of [HttpCost].  So
    between two things that clients do there is only a bounded number of such
    steps, in whatever order they come, and when none is left every request is
    answered. *)
From S2P Require Import Prelude FastFIFO Cache CacheProps CacheRun CacheCost Connection HttpParse HttpHandlers HttpCost HttpKeeps HttpRun HttpInv HttpCacheInv HttpSafe HttpBlocks HttpSteps HttpServer HttpContent.

Module HttpProgress.
Import Connection HttpParse Cache CacheProps CacheRun CacheCost HttpHandlers HttpCost HttpKeeps HttpRun HttpInv HttpCacheInv HttpSafe HttpBlocks HttpSteps HttpServer HttpContent.

Section progress.
Variable files : string → text.
Context {OSt F : Type} `{HO : OS OSt} `{HF : FIFO F loc} `{HL : !FIFOLaws F loc} `{HP : Platform}.
Abbreviation rest := (rest OSt).
Abbreviation server := (server OSt F).
Implicit Types (r : rest) (s : session) (k : HPKG) (S : gmap loc session) (c : Cache closure F) (O : list (string * OSt)).

Variable L : loc.
Abbreviation inv O := (inv (HG := file_content files O) L).
Abbreviation server_ok O := (server_ok (HG := file_content files O) L).
Abbreviation allowed := (allowed L).
Abbreviation listening := (listening L).
Abbreviation file_step := (file_step files).
Abbreviation serving := (serving files L).

(** A step of the server itself: clients do not connect, and send nothing. *)
Definition own_step (h : choice) (w : server) : Prop :=
  match h with
  | RunTask i => is_Some (tasks (web w.2) !! i)
  | Complete id _ => ∃ x, ios w.2 !! id = Some x ∧ io_ok x ≠ ParseAio
  | Accept _ _ => False
  end.

Definition file_length (u : text) : nat := length (files (cstr u)).
Definition to_do (w : server) : Z := potential file_length w.

Abbreviation ok w nm off := (both_ok (K := closure) (F := F) (rest_ok (OSt := OSt) nm off) w).
Abbreviation wt nm off := (weight (F := F) (closure_weight file_length nm off) (rest_weight (OSt := OSt) file_length nm off)).

Lemma start_ok O N c r S : inv O None None N c r S → ok (c, r) (name_at (c, r)) (offset_at (c, r)).
Proof.
  intros [HI HK _ _]. split; [|split].
  - intros l Hl. simpl in *. destruct (decide (l < brk c)%positive) as [|Hn]; [done|].
    destruct (wf_brk _ _ (ko_wf _ _ _ HK) l) as (Hn2 & _); [lia|]. rewrite Hn2 in Hl. by destruct Hl.
  - intros pk k Hk. unfold follows, name_at, offset_at. simpl in *. rewrite Hk. done.
  - apply (ir_io_next _ _ _ _ HI).
Qed.

Lemma task_down O N c r S i t w' :
  inv O None None N c r S → tasks (web r) !! i = Some t →
  run_task t (c, set_web (take_task i (web r)) r) = Ok (tt, w') → (to_do w' < to_do (c, r))%Z.
Proof.
  intros HV Hi Hx. pose proof (start_ok _ _ _ _ _ HV) as Hok. pose proof HV as [HI HK _ _].
  set (nm := name_at (c, r)) in *. set (off := offset_at (c, r)) in *. set (w1 := (c, set_web (take_task i (web r)) r)) in *.
  destruct (task_taken L N c r S i t HV Hi) as (cn & s & k & HS & Hk & Et & Ht & _).
  pose proof (ir_session _ _ _ _ HI _ _ HS) as Hs.
  assert (wt nm off w1 = wt nm off (c, r) - 1)%Z as E1.
  { assert (length (delete i (tasks (web r))) + 1 = length (tasks (web r))) as El.
    { rewrite length_delete by (by eexists). pose proof (lookup_lt_Some _ _ _ Hi). lia. }
    unfold weight, rest_weight, web_weight, w1. simpl. lia. }
  assert (ok w1 nm off) as Hok1 by exact Hok.
  cut (ok w' nm off ∧ (wt nm off w' ≤ wt nm off w1)%Z).
  { intros [Hok' Hle]. pose proof (potential_le file_length nm off w' Hok'). unfold to_do.
    change (potential file_length (c, r)) with (wt nm off (c, r)). lia. }
  destruct t as [pk|pk]; simpl in Et, Hx; subst pk.
  - destruct Ht as [Hr Hnew]. destruct (s_rest s) as [|l ls] eqn:El; [done|].
    destruct (so_child _ _ _ _ Hs 0 l) as (k2 & Hk2 & (_ & Hp & _) & _); [by rewrite El|].
    assert (active s = l) as Ha by (unfold active; by rewrite El). rewrite Ha in *. assert (k2 = k) as -> by congruence.
    assert (off l = 0%Z) as Ho by (unfold off, offset_at; simpl; rewrite Hk; simpl; by rewrite Hnew).
    apply (fetch_gives file_length nm off call_closure (run_closure_spends file_length nm off 2) l k w1 w' Hok1); try done.
    + split; [congruence|by rewrite Hnew].
    + by rewrite Ho.
    + unfold left_of. rewrite Ho. unfold nm, name_at. simpl. rewrite Hk. simpl. lia.
  - destruct (so_parent _ _ _ _ Hs) as (k2 & Hk2 & _ & Hp & _).
    assert (active s = s_parent s) as Ha by (unfold active; by rewrite Ht). rewrite Ha in *. assert (k2 = k) as -> by congruence.
    by apply (read_gives file_length nm off call_closure (s_parent s) k w1 w' Hok1).
Qed.

Lemma io_down O N c r S id x res w' :
  inv O None None N c r S → ios r !! id = Some x → io_ok x ≠ ParseAio → allowed (Complete id res) (c, r) →
  file_step (Complete id res) (c, r) → run_io x res (c, del_io id r) = Ok (tt, w') → (to_do w' < to_do (c, r))%Z.
Proof.
  intros HV Hio Hno Ha Hs Hx. pose proof (start_ok _ _ _ _ _ HV) as Hok. pose proof HV as [HI HK _ _].
  set (nm := name_at (c, r)) in *. set (off := offset_at (c, r)) in *. set (w1 := (c, del_io id r)) in *.
  assert (ok w1 nm off) as Hok1.
  { destruct Hok as [? [? Hn]]. split; [done|]. split; [done|]. intros id2. simpl. intros [y [_ Hy]%lookup_delete_Some]. apply Hn. by exists y. }
  assert (wt nm off w1 = wt nm off (c, r) - Z.of_nat (io_weight file_length nm off x))%Z as E1.
  { unfold weight, rest_weight, w1. simpl. rewrite (map_weight_delete (io_weight file_length nm off) _ _ _ Hio). lia. }
  cut (∃ off', ok w' nm off' ∧ (wt nm off' w' < wt nm off w1 + Z.of_nat (io_weight file_length nm off x))%Z).
  { intros (off' & Hok' & Hle). pose proof (potential_le file_length nm off' w' Hok'). unfold to_do.
    change (potential file_length (c, r)) with (wt nm off (c, r)). lia. }
  pose proof (run_closure_spends (F := F) file_length nm off 2) as Hrun. unfold io_weight.
  destruct res as [data|]; simpl in Hx.
  2:{ exists off. destruct (final_aio_spends file_length nm off call_closure Hrun (io_pk x) _ _ _ Hok1 Hx) as (? & _ & ?).
      split; [done|]. destruct (io_ok x); [done|unfold header_weight; lia|unfold block_weight_of; lia|lia]. }
  destruct (io_ok x) eqn:Eok; [done|..].
  - exists off. destruct (header_to_body_spends file_length nm off call_closure Hrun (io_pk x) _ _ _ Hok1 Hx) as (? & _ & ?).
    split; [done|]. unfold header_weight. lia.
  - destruct (body_rio_cases files L O N c r S id x HV Hio Eok) as (k & Hk & Hcase).
    destruct (body_rio_gives file_length nm off (io_pk x) k (Z.of_nat (length data)) w1 w' Hok1 Hk) as (off' & ? & ?); [|exact Hx|].
    + intros Hpos Hw. destruct Hcase as [[_ [u Hu]]|Hw2]; [|congruence].
      specialize (Hs x k u Hio Hk Hu). rewrite Eok in Hs. specialize (Hs Hw).
      destruct (body_write files L O N c r S id x k u HV Hio Hk Hu Eok Hw Hs) as (b & t & _ & _ & Hlen & Hp & _).
      pose proof (Ha x Hio) as Hle.
      assert (length (String.list_ascii_of_string t) ≤ length (files (cstr u)) - Z.to_nat (tr_offset (rsp k))) as Hl.
      { rewrite Hp, length_take, length_drop. lia. }
      rewrite length_list_ascii in Hl. unfold length_of, nm, off, name_at, offset_at, file_length. simpl. rewrite Hk. simpl. rewrite Hu. simpl. lia.
    + exists off'. split; [done|]. unfold block_weight_of. lia.
  - exists off. apply pbind_inv in Hx as ([] & w2 & H2 & Hx).
    destruct (fill_free file_length nm off _ _ _ _ _ Hok1 H2) as (Hok2 & _ & ?).
    destruct (body_pio_free file_length nm off call_closure Hrun (io_pk x) (io_buf x) _ _ _ _ Hok2 Hx) as (? & _ & ?).
    split; [done|]. lia.
Qed.

Lemma own_step_down O N (w w' : server) h :
  server_ok O N w → own_step h w → allowed h w → file_step h w → exec h w = Ok (tt, w') → (to_do w' < to_do w)%Z.
Proof.
  intros [S HV] Hown Ha Hs Hx. destruct w as [c r]. destruct h as [i|id res|]; [..|done].
  - destruct Hown as [t Hi]. simpl in Hi, Hx. rewrite Hi in Hx. by eapply task_down.
  - destruct Hown as (x & Hio & Hno). simpl in Hio, Hx. rewrite Hio in Hx. by eapply io_down.
Qed.

(** ** At rest *)

(** A package that goes on is read for, if nothing is left to do. *)
Definition at_rest (w : server) : Prop := ∀ h, ¬ own_step h w.

Lemma rest_reads O N (w : server) pk k :
  server_ok O N w → at_rest w → pkgs (web w.2) !! pk = Some k →
  ppg k = None ∧ ∃ id x, ios w.2 !! id = Some x ∧ io_ok x = ParseAio ∧ io_pk x = pk.
Proof.
  intros [S HV] Hrest Hk. destruct w as [c r]. simpl in *. pose proof HV as [HI HK HW HB].
  assert (∀ id x, ios r !! id = Some x → io_ok x = ParseAio) as Hio.
  { intros id x Hx. destruct (decide (io_ok x = ParseAio)) as [|Hn]; [done|]. exfalso. apply (Hrest (Complete id Failed)). by exists x. }
  destruct (ir_pkgs _ _ _ _ HI _ _ Hk) as (s & HS & Hin). pose proof (ir_session _ _ _ _ HI _ _ HS) as Hs.
  destruct (active_live _ _ _ _ Hs) as (k2 & Hk2 & _ & Hc). unfold cont_ok in Hc.
  destruct (s_cont s) as [|t|id held|key cb file|key cb] eqn:E.
  - by apply (ir_run _ _ _ _ HI _ _ HS) in E.
  - destruct Hc as [[i Hi]%list_elem_of_lookup _]. exfalso. apply (Hrest (RunTask i)). by exists t.
  - destruct Hc as (x & Hx & Hpk & Hf). pose proof (Hio _ _ Hx) as Eok. rewrite Eok in Hf. destruct Hf as (Er & _).
    unfold own_pkgs in Hin. rewrite Er in Hin. apply list_elem_of_singleton in Hin as ->.
    destruct (so_parent _ _ _ _ Hs) as (k3 & Hk3 & _ & Hp & _). assert (k3 = k) as -> by congruence. split; [done|].
    exists id, x. split; [done|]. split; [done|]. rewrite Hpk. unfold active. by rewrite Er.
  - destruct (wo_wait _ _ _ HW _ _ key cb HS) as (q & Hq & _); [left; eauto|].
    destruct (reserved_entry _ _ _ _ _ HK Hq) as (_ & p & e & Hp & He & Hr & _).
    destruct (reserved_file L N c r S key e HV) as (id & x & k3 & Hx & Eok & _); [unfold view; by rewrite Hp|done|].
    simpl in Hx. rewrite (Hio _ _ Hx) in Eok. done.
  - pose proof (wo_dead _ _ _ HW _ _ _ _ HS E). done.
Qed.

(** ** The theorem *)

(** [j] steps of the server itself. *)
Inductive own_steps (w : server) : nat → server → Prop :=
  | own_none : own_steps w 0 w
  | own_more j w1 h w2 : own_steps w j w1 → own_step h w1 → allowed h w1 → file_step h w1 → exec h w1 = Ok (tt, w2) →
      own_steps w (Datatypes.S j) w2.

Lemma own_steps_serving m n w log O j w' :
  serving m n w log O → own_steps w j w' → ∃ log' O', serving m (j + n) w' log' O'.
Proof.
  intros Hr. induction 1 as [|j w1 h w2 _ (log' & O' & IH) _ Ha Hs Hx]; [by exists log, O|].
  do 2 eexists. by eapply serving_step.
Qed.

Lemma own_steps_down m n w log O j w' :
  listening m → serving m n w log O → few_steps (n + Z.to_nat (to_do w)) → own_steps w j w' →
  (to_do w' + Z.of_nat j ≤ to_do w)%Z.
Proof.
  intros Hm Hr Hn. induction 1 as [|j w1 h w2 Hj IH Hown Ha Hs Hx]; [lia|].
  destruct (own_steps_serving _ _ _ _ _ _ _ Hr Hj) as (log' & O' & Hr').
  pose proof (potential_nonneg file_length w1) as H0. unfold to_do in *.
  assert (few_steps (j + n)) as Hf by (unfold few_steps in *; lia).
  destruct (serving_ok files L m (j + n) w1 log' O' O' Hm Hf Hr' (reflexivity O')) as [Hok _].
  pose proof (own_step_down _ _ _ _ _ Hok Hown Ha Hs Hx). unfold to_do in *. lia.
Qed.


End progress.

(** ** Witness *)

#[local] Existing Instance t_usable.
Abbreviation t_own_steps := (own_steps t_files 1 (t_run t_steps)).

Lemma t_own j hs h :
  t_own_steps j (t_run hs) → own_step h (t_run hs) → allowed 1 h (t_run hs) → file_step t_files h (t_run hs) →
  runs_ok (t_run hs) h = true → t_own_steps (S j) (t_run (hs ++ [h])).
Proof.
  unfold runs_ok. intros Hr Ho Ha Hs Hok. unfold t_run at 2. rewrite foldl_app. simpl. fold (t_run hs).
  unfold step_to. destruct (exec h (t_run hs)) as [[[] w']|] eqn:E; [|done]. by econstructor.
Qed.

Definition t_sent : list choice := t_content ++ [Complete 8 (Done [])].
Definition t_answered : list choice := t_sent ++ [RunTask 0].
Ltac t_owned := eexists; split; [vm_compute; reflexivity|discriminate].

Lemma t_own_content : t_own_steps 5 (t_run t_content).
Proof.
  apply (t_own 4 (take 8 t_content)); [|t_owned|t_allowed|t_file|by vm_compute].
  apply (t_own 3 (take 7 t_content)); [|t_owned|t_allowed|t_file|by vm_compute].
  apply (t_own 2 (take 6 t_content)); [|t_owned|t_allowed|t_file|by vm_compute].
  apply (t_own 1 (take 5 t_content)); [|t_owned|t_allowed|t_file|by vm_compute].
  apply (t_own 0 (take 4 t_content)); [apply own_none|t_owned|t_allowed|t_file|by vm_compute].
Qed.

Lemma t_own_answered : t_own_steps 7 (t_run t_answered).
Proof.
  assert (t_own_steps 6 (t_run t_sent)) as H6 by (apply (t_own 5 t_content (Complete 8 (Done []))); [apply t_own_content|t_owned|t_allowed|t_file|by vm_compute]).
  refine (t_own 6 t_sent (RunTask 0) H6 _ _ _ _).
  - eexists. vm_compute. reflexivity.
  - intros ? ? ? Hi. vm_compute in Hi. discriminate Hi.
  - exact I.
  - vm_compute. reflexivity.
Qed.


End HttpProgress.
