(* ===== verification/Websvrd.v ===== *)
(** webserver/websvrd.cc: the program, from [main] on.

    [main] makes the dispatcher and calls [svr_start], which makes the listening
    connection and accepts on it for ever.  Handlers run on the dispatcher at the
    same time: a state of the running program is one that is reachable in
    [HttpServer] from the state in which [svr_start] enters its loop. *)
From S2P Require Import Prelude FastFIFO Cache EventDispatcher MPEventDispatcher Dispatcher Connection HttpParse HttpHandlers HttpRoom HttpSteps HttpServer.

Module Websvrd.
Import Connection HttpParse Cache HttpHandlers HttpRoom HttpSteps HttpServer.

(** svr_common.h *)
Definition NDISPATCHER : nat := 1.

Section program.
Context {OSt F : Type} `{HO : OS OSt} `{HF : FIFO F loc} `{HL : !FIFOLaws F loc} `{HP : Platform}.
Context `{HB : MPEventDispatcher.Build}.
Abbreviation server := (server OSt F).
Implicit Types (w : server) (m : net OSt).

(** [main] up to the loop of [svr_start]: the dispatcher, [svrC], and the server.
    [junk] is what the members of the new connection are not set to. *)
Definition main (junk : ConnST * Z) (s0 : OSt) : outcome (option Dispatcher.Dispatcher * option loc * server) :=
  match (if decide (1 < NDISPATCHER) then Dispatcher.init NDISPATCHER true else Dispatcher.init_default)
    (∅ : UnitTask.heap unit, None) with
  | Ok (_, (_, d)) =>
    match svr_start junk (mkNet ∅ 1%positive s0) with
    | Ok (svrC, m) => Ok (d, svrC, boot m)
    | Fault e => Fault e
    end
  | Fault e => Fault e
  end.

(** One turn of the loop; [None]: it ends. *)
Definition accept_loop (junk : ConnST * Z) (svrC : option loc) w : option (outcome (unit * server)) :=
  match svrC with
  | Some cn => Some (exec (Accept junk cn) w)
  | None => None
  end.

Lemma started_listening L junk e (w0 m : net OSt) :
  conns w0 = ∅ → cnext w0 = L → conns m = <[L := started junk e w0]> (conns w0) → cnext m = Pos.succ L → listening L m.
Proof.
  intros E0 <- E En. split; [rewrite E; by rewrite lookup_insert_eq|].
  intros cn. rewrite E, E0, En. intros [c Hc]. apply lookup_insert_Some in Hc as [[<- _]|[_ Hc]]; [lia|].
  exfalso. exact (lookup_empty_Some _ _ Hc).
Qed.

(** Without a listening connection nothing ever happens. *)
Lemma deaf L m n w c :
  conns m !! L = Some c → cst c ≠ CS_LISTENING → reachable L m n w → w = boot m.
Proof.
  intros Hc Hst. induction 1 as [|n w h w' Hr IH Ha Hx]; [done|]. subst w. destruct h as [i|id res|junk cn]; simpl in Hx.
  - by injection Hx.
  - by injection Hx.
  - simpl in Ha. subst cn. revert Hx. unfold svr_conn_accept, accept_conn, on_web, on_net, pbind. simpl.
    unfold load_conn. simpl. rewrite Hc. simpl. rewrite decide_True by done. by intros [= <-].
Qed.

(** C4: The program starts and goes on.  Whatever the system answers, [main] makes
    a single dispatcher and gets to the loop, which never ends, as [svrC] is never
    NULL; the state is one from which every turn of the loop and every allowed
    step of a handler runs to its end, or stops in [strCpy] because a block has no
    byte to spare; turns of the loop copy no key, and never stop.  If no socket
    could be opened, bound or listened on, nothing happens any more: the program
    takes turns of the loop, none of which changes anything - unless the state of
    the connection, which is then never set, happens to be [CS_LISTENING] in the
    memory that was given for it. *)
Theorem program_runs junk s0 :
  ∃ e L m0 m, main junk s0 = Ok (Some (Dispatcher.new_dispatcher 1 false), Some L, boot m) ∧
    new_conn junk None (mkNet ∅ 1%positive s0) = Ok (L, m0) ∧ svr_conn_listen L m0 = Ok (e, m) ∧ listening L m ∧
    (∀ n w, reachable L m n w → few_steps n →
       (∀ h, allowed L h w → (∃ w', exec h w = Ok (tt, w')) ∨
          exec h w = Fault HeapOverflow ∧ ∃ len, len < MAXKEYS ∧ usable len ≤ len) ∧
       ∀ junk', ∃ w', accept_loop junk' (Some L) w = Some (Ok (tt, w'))) ∧
    (∃ c, conns m !! L = Some c ∧ (cst c = CS_LISTENING ↔ e = ERRCONN_OK ∨ junk.1 = CS_LISTENING) ∧
       (cst c ≠ CS_LISTENING → ∀ n w, reachable L m n w → w = boot m)).
Proof.
  destruct (start_never_stops junk (mkNet ∅ 1%positive s0)) as (e & m0 & m & Hs & Hnew & Hlis & Ec & En).
  pose proof (started_listening 1%positive junk e (mkNet ∅ 1%positive s0) m eq_refl eq_refl Ec En) as Hm. simpl in *.
  exists e, 1%positive, m0, m.
  split; [by unfold main; rewrite Hs|]. split; [done|]. split; [done|]. split; [done|]. split.
  - intros n w Hr Hn. assert (∀ h, allowed 1%positive h w → (∃ w', exec h w = Ok (tt, w')) ∨
      exec h w = Fault HeapOverflow ∧ no_room HP) as Hgo.
    { intros h Ha. unfold few_steps in Hn.
      apply (step_kept (HG := any_content) 1%positive (2 * Z.of_nat n) h w); [by apply (reachable_ok 1%positive m)|done|apply any_answers|lia|lia]. }
    split; [exact Hgo|]. intros junk'. simpl.
    destruct (step_safe (HG := any_content) (HP := roomy HP) 1%positive (roomy_fits HP) (2 * Z.of_nat n) (Accept junk' 1%positive) w)
      as (w' & Hw' & _); [by apply (reachable_ok 1%positive m)|done|done|unfold few_steps in Hn; lia..|].
    exists w'. by rewrite <-Hw'.
  - eexists. rewrite Ec, lookup_insert_eq. split; [done|]. split.
    + unfold started. case_decide as He; [tauto|]. simpl. tauto.
    + intros Hst n w. apply deaf with (started junk e (mkNet ∅ 1%positive s0)); [by rewrite Ec, lookup_insert_eq|done].
Qed.

End program.

#[local] Existing Instance HttpRun.HttpRun.t_usable.
#[local] Existing Instance MPEventDispatcher.hashing_build.

(** A system in which every call succeeds. *)
Lemma program_runs_witness :
  ∃ d L m w', main (F := FastFIFO.FastFIFO loc) (CS_CLOSED, 0%Z) ([] : list Z) = Ok (d, Some L, boot m) ∧
    accept_loop (CS_CLOSED, 0%Z) (Some L) (boot (F := FastFIFO.FastFIFO loc) m) = Some (Ok (tt, w')).
Proof.
  destruct (program_runs (F := FastFIFO.FastFIFO loc) (CS_CLOSED, 0%Z) ([] : list Z))
    as (e & L & m0 & m & Hm & _ & _ & _ & H & _).
  destruct (H 0 (boot m) (reachable_boot L m) ltac:(by vm_compute)) as [_ H2].
  destruct (H2 (CS_CLOSED, 0%Z)) as [w' Hw']. exists (Some (Dispatcher.new_dispatcher 1 false)), L, m, w'.
  split; [exact Hm|exact Hw'].
Defined.

End Websvrd.
